(* ===== verification/_CoqProject ===== *)
-Q . S2P
Prelude.v
Protocol.v
Codec.v
Lossy.v
Externals.v
Diagnostics.v
Settings.v
Queue.v
Serializer.v
Framing.v
Crypt.v
Pacing.v
Peer.v
Listener.v
UdpStream.v
Connection.v
Tasks.v
Receive.v
Endpoint.v
Establish.v
Client.v
Server.v
Tcp.v
Runtime.v
Browser.v
Pipeline.v
Datagrams.v
Delivery.v
DatagramDelivery.v
DatagramProgress.v
Conversation.v
StreamMedium.v
Duplex.v
DatagramMedium.v
Session.v
SessionApp.v
Recovery.v
Scheduling.v
Attempts.v
Lobby.v
Battle.v
Greetings.v
EncryptedRun.v
Counting.v
Conformance.v
ConformanceCodecs.v
ConformanceEcs.v
ConformanceSessions.v
