(* ===== verification/Prelude.v ===== *)
(** * Verification of bevy_slinet

    bevy_slinet is a Bevy plugin for packet networking over TCP and UDP. This
    development models the crate (src/src/) and its example programs
    (src/examples/), and proves what makes them correct.

    ** The program

    An application sees a connection as an ECS handle. Between that handle and
    the socket are tasks: a send task takes packets from the connection's
    outgoing queue and writes them, a receive task reads packets and hands them
    to ECS. Lifecycle events, and the packets of stream protocols, go through one
    bounded channel per endpoint; datagrams go through a bounded queue that drops
    packets by policy. Systems in [PreUpdate] turn both into events for the
    application's observers and keep a registry of the open connections. A
    listener or a connector produces the streams; a runtime owns the tasks and
    cancels them.

    ** The files

    The files are listed in dependency order. This one holds the notation, the
    integers and the lemmas and tactics the others share.

    Packets and bytes
    - [Protocol]: protocols/packet.rs, protocols/transport.rs and
      connection/send_error.rs: errors and the interface of transport handles.
    - [Codec]: serializers/packet_length_serializer.rs; [PrefixCodec] is what a
      length codec promises to the framing.
    - [Serializer]: serializers/ (the adapter and the codec wrappers);
      [SerializerPair] is what two peers' serializers promise each other, and
      [SharedSerializer] what one serializer per end promises to both its tasks.
    - [Crypt]: serializers/custom_crypt.rs.
    - [Framing]: protocols/framing.rs, [FramedReader] and [FramedWriter].

    Queues and settings
    - [Lossy]: connection/queue/lossy.rs, one definition per critical section.
    - [Externals]: tokio's channels, semaphore, watch and cancellation token, as
      classes of operations with the laws their documentation gives.
    - [Queue]: connection/queue/mod.rs, drop accounting and forwarding.
    - [Settings]: connection/settings.rs, the receive limits and queue settings.

    UDP
    - [Diagnostics]: protocols/udp/diagnostics.rs. [Pacing]: pacing.rs.
    - [Peer]: peer.rs. [Listener]: listener.rs. [UdpStream]: stream.rs.

    Connections and endpoints
    - [Connection]: connection/mod.rs and parts.rs, the ECS handle and the task's
      connection. [Tasks]: connection/tasks.rs, the send task. [Receive]: the
      receive task of client.rs and server.rs.
    - [Endpoint]: the ECS systems of both endpoints and the frame that runs them,
      proved against the class [EndpointLaws], which [Client] and [Server]
      discharge. [Establish]: announcing and starting a connection.
    - [Client], [Server]: client.rs and server.rs. [Attempts]: the client's
      bounded connection attempts and [run_connections].
    - [Tcp]: protocols/tcp.rs. [Runtime]: runtime/mod.rs and task.rs. [Browser]:
      runtime/wasm.rs.
      [Scheduling]: scheduling.rs and what the plugins add to the schedules.

    Compositions and applications
    - [Pipeline]: a stream connection end to end, from [send] on one end through
      both tasks and a network that may fail to ECS on the other. [Datagrams]: the
      same for a UDP connection and a network that loses, repeats, reorders and
      injects datagrams.
    - [Delivery], [DatagramDelivery]: each of these connections with the systems,
      the queued commands and the observers of the endpoint that receives on it, and
      the tasks of that endpoint's other connections, interleaved step by step.
      [DatagramProgress]: that what a UDP connection is left to do, it does.
    - [Conversation]: two applications that answer each other over any connection
      whose directions are each a [Medium], the class of what a direction promises,
      and [Apart]; [StreamMedium] and [DatagramMedium] discharge it for [Pipeline] and
      [Datagrams]. [Duplex]: both directions of a stream connection, on the one
      serializer that each end has for its two tasks.
    - [Greetings]: examples/hello_world_tcp.rs, hello_world_tcp_encrypted.rs and
      hello_world_udp.rs as programs of [Conversation]; [EncryptedRun] runs the
      encrypted one with its cipher over the connection of [Duplex]. [Counting]:
      examples/multiple_connections.rs, also over datagram connections.
    - [Session], [SessionApp]: examples/udp_application_sessions/session.rs and
      examples/udp_application_sessions.rs. [Recovery]: retrying, over both.
    - [Lobby]: the observers and timers of examples/lobby_and_battle_servers.rs;
      [Battle] runs its client, which times out, is disconnected and reconnects.

    The crate's tests
    - [Conformance], [ConformanceCodecs], [ConformanceEcs] and [ConformanceSessions]
      replay the unit tests of the crate on the definitions above and evaluate them:
      the model passes the assertions the code passes. They prove nothing beyond that,
      and nothing else uses them.

    ** How code becomes definitions

    Operations are functions on a record of the state they change, with the name
    of the code's function where it is free. A lock's critical section is one
    step. An [async] function is either a function of what it awaits (the answer of
    a socket, the changes others make while it waits) or a step function driven by
    a list of polls, so that a theorem over all lists covers every interleaving.
    Panics are values of [outcome], errors of [result]. [usize] is [Z] with
    wrap-around at the width of the [Target] class, 64 or 32 bits; [u64] counters
    wrap at 64; bytes are [Z]. Instants and durations are [Z].

    ** What is proved

    - Stream connections refine an abstract first-in first-out channel that
      delivers what was accepted in order, each packet at most once, whatever
      fails ([Pipeline.connection_refines_channel]), and deliver everything when
      left alone ([Pipeline.connection_delivers]).
    - What an application hears: observers are told of a connection's establishment,
      then of packets its peer sent, then once of its closure, whatever else runs
      meanwhile; over streams the packets are the first ones accepted, in order
      ([Delivery.application_hears_connection]) and all of them once tasks, network
      and frames have run ([Delivery.accepted_packets_are_heard]); over UDP no packet
      is heard after the closure, whatever is left in the queues
      ([DatagramDelivery.application_hears_datagrams]), and all that waits to be sent
      is heard if nothing more is lost ([DatagramProgress.queued_datagrams_are_heard]).
    - UDP connections refine an abstract channel of datagrams, so that what ECS hears
      was sent, at most as often as the network repeats it and in the order it
      arrives in ([Datagrams]).
    - Lifecycle: what ECS hears of a connection, the registry as the set of open
      connections, datagrams only between establishment and cancellation, the
      client's resource as the latest connection ([Establish], [Endpoint],
      [Client]).
    - Accounting: every packet submitted, read, evicted, refused or discarded is in
      exactly one place or in one statistic ([Queue], [Tasks], [Listener],
      [UdpStream]).
    - UDP peers: one registration per address, removed only by its owner, bounded;
      what the first datagram of an address does ([Listener]).
    - Bounds: queues, pending connections ([Server]), connection attempts
      ([Attempts]), pacing.
    - Round trips: length prefixes, framing, the example cipher, whose two directions
      share one engine at each end ([Crypt.crypt_synchronized]).
    - Termination and liveness: the framed reader's loop, cancellation of the
      receive task, shutdown of the runtime; what waits in a queue is heard
      ([Delivery], [DatagramProgress]).
    - Equivalences: a mutable codec behind its adapter and alone ([Serializer]); the
      address a server publishes in a browser and natively ([Server]); the browser
      runtime and the native one ([Browser]).
    - Schedules: the exact contents of the receive sets and the only orderings
      between systems ([Scheduling]).
    - Applications: a session, once closed or replaced, is never revived by a late
      datagram; the demonstrations only report what the server has done
      ([Session], [SessionApp], [Battle]), and retrying recovers from any losses
      ([Recovery], [Battle]). The greeting programs hear what was said and, over streams, take
      turns ([Greetings], [EncryptedRun]); counting over lossy datagrams skips no
      number ([Counting]).
    - Three defects, as theorems: [Lossy.lossy_eviction_leaves_sender_waiting],
      [Tasks.udp_send_failure_at_close_is_uncounted] and
      [Tcp.tcp_peer_failure_ends_accepting].

    ** Fuel

    Two loops of the code take fuel. [Framing.read_length_loop] returns within two iterations
    more than the bytes the peer sent ([Framing.read_length_total]), and more fuel
    never changes its answer ([Framing.receive_mono]); [Pipeline.pipe_poll] gives it
    that much. [Queue.drain_loop] runs once per queued packet, and its caller gives
    it one more than the queue's length ([Queue.drain_loop_all]). Every other loop
    is structural on the list of items or of polls it consumes.

    ** Hypotheses

    The third-party code is a parameter: a class of operations (tokio's channels,
    sockets, [TaskTracker], bevy's [Timer], the wrapped codecs) with a class of laws
    that restate its documentation. Each class has a concrete instance here, and
    each theorem with hypotheses a witness that instantiates them. The combinators
    of the futures crate ([Attempts]) and the meaning of Bevy's system sets and
    [after] ([Scheduling]) are taken from their documentation as well.

    ** Not modelled

    - tokio's executor, Bevy's and the browser's event loop: which task or system
      runs next is a parameter, as is what the event loop keeps of a task that
      panicked.
    - Logging, [Debug] and [Display] output but for the messages errors carry.
    - Trait signatures, re-exports, type aliases, and constructors that only fill in
      a record.
    - The other direction of a connection inside [Pipeline] and [Datagrams]: each
      models one direction, whose two ends may stop at any time for any reason. The
      state of an end's serializer is then split between the directions. [Duplex]
      joins them for stream connections; over datagrams [DatagramPair] asks for
      serializers that do not depend on what they have done.
    - Datagrams that others inject and that decode ([Datagrams.foreign]).
    - Panics of a reader ([Receive.poll]), and the allocation of an announced packet
      length, which never fails here ([Framing]).
    - On the native side of [Browser], the local thread's end after a shutdown, which
      [Runtime] has.
    - The benchmarks, and the tests that run over real sockets, threads or
      third-party codecs: what they would exercise is a parameter here. *)

From stdpp Require Export base tactics list gmap strings.
From Stdlib Require Export ZArith Lia.

#[global] Open Scope Z_scope.

(** ** Results

    Rust's [Result<T, E>], with the monad operations that [?] uses. *)

Inductive result (T E : Type) : Type :=
  | Ok (t : T)
  | Err (e : E).
Arguments Ok {T E} t.
Arguments Err {T E} e.

Definition result_map {T U E} (f : T → U) (r : result T E) : result U E :=
  match r with Ok t => Ok (f t) | Err e => Err e end.

Definition map_err {T E F} (f : E → F) (r : result T E) : result T F :=
  match r with Ok t => Ok t | Err e => Err (f e) end.

Definition result_bind {T U E} (r : result T E) (k : T → result U E) : result U E :=
  match r with Ok t => k t | Err e => Err e end.

(** Rust's [Result::ok]. *)
Definition result_ok {T E} (r : result T E) : option T :=
  match r with Ok t => Some t | Err _ => None end.

Definition is_ok {T E} (r : result T E) : bool :=
  match r with Ok _ => true | Err _ => false end.

Declare Scope slinet_scope.
Delimit Scope slinet_scope with slinet.
Notation "'try!' x := r 'in' k" := (result_bind r (fun x => k))
  (at level 10, x name, r at level 100, k at level 200) : slinet_scope.
#[global] Open Scope slinet_scope.

#[export] Instance result_eq_dec {T E} `{EqDecision T, EqDecision E} :
  EqDecision (result T E).
Proof. solve_decision. Defined.

(** ** Machine integers

    [usize] is a [Z] of [usize_bits] bits; the crate builds for 64-bit and
    32-bit (browser) targets, so the width is a class parameter. Additions and
    subtractions of the code wrap modulo [usize_modulus]; [wadd_small] and
    [wsub_small] are the lemmas that show a given one does not. *)

Class Target := {
  usize_bits : Z;
  usize_bits_ok : usize_bits = 64 ∨ usize_bits = 32;
}.

#[export] Instance native64 : Target := { usize_bits := 64; usize_bits_ok := or_introl eq_refl }.
Definition wasm32 : Target := {| usize_bits := 32; usize_bits_ok := or_intror eq_refl |}.

Definition usize_modulus `{Target} : Z := 2 ^ usize_bits.
Definition usize_max `{Target} : Z := usize_modulus - 1.

Definition wadd `{Target} (a b : Z) : Z := (a + b) mod usize_modulus.
Definition wsub `{Target} (a b : Z) : Z := (a - b) mod usize_modulus.

(** [u64] counters wrap: [AtomicU64::fetch_add] never panics. *)
Definition u64_modulus : Z := 2 ^ 64.
Definition u64_max : Z := u64_modulus - 1.
Definition wadd64 (a b : Z) : Z := (a + b) mod u64_modulus.

(** The length of a Rust vector, as a [usize]. *)
Definition zlen {A} (l : list A) : Z := Z.of_nat (length l).

Section Machine.
Context `{Target}.

Lemma usize_modulus_ge : 2 ^ 32 ≤ usize_modulus.
Proof.
  unfold usize_modulus. destruct usize_bits_ok as [-> | ->]; lia.
Qed.

Lemma usize_max_pos : 0 < usize_max.
Proof. pose proof usize_modulus_ge. unfold usize_max. lia. Qed.

Lemma usize_max_ge : 2 ^ 32 - 1 ≤ usize_max.
Proof. pose proof usize_modulus_ge. unfold usize_max. lia. Qed.

Lemma usize_max_le_u64 : usize_max ≤ u64_max.
Proof.
  unfold usize_max, usize_modulus, u64_max, u64_modulus.
  destruct usize_bits_ok as [-> | ->]; lia.
Qed.

Lemma usize_max_modulus : usize_max < usize_modulus.
Proof. unfold usize_max. lia. Qed.

Lemma wadd_small a b : 0 ≤ a + b ≤ usize_max → wadd a b = a + b.
Proof. unfold wadd, usize_max. intros. apply Z.mod_small. lia. Qed.

Lemma wsub_small a b : 0 ≤ a - b ≤ usize_max → wsub a b = a - b.
Proof. unfold wsub, usize_max. intros. apply Z.mod_small. lia. Qed.

Lemma wadd_wrap a b : usize_max < a + b ≤ 2 * usize_max + 1 → wadd a b = a + b - usize_max - 1.
Proof.
  unfold wadd, usize_max. intros. symmetry. apply Z.mod_unique_pos with 1; lia.
Qed.
End Machine.

Lemma wadd_range `{Target} a b : 0 ≤ wadd a b ≤ usize_max.
Proof. unfold wadd, usize_max. pose proof usize_modulus_ge. pose proof (Z.mod_pos_bound (a + b) usize_modulus). lia. Qed.

Lemma wsub_range `{Target} a b : 0 ≤ wsub a b ≤ usize_max.
Proof.
  unfold wsub, usize_max. pose proof usize_modulus_ge.
  pose proof (Z.mod_pos_bound (a - b) usize_modulus). lia.
Qed.

#[global] Opaque usize_max usize_modulus.

(** Equality of wrapping u64 counters: an equivalence compatible with sums, so
    that counts can be rewritten inside them. *)
Definition cong64 (a b : Z) : Prop := (u64_modulus | a - b).
Infix "≡64" := cong64 (at level 70) : slinet_scope.

#[export] Instance cong64_equivalence : Equivalence cong64.
Proof.
  unfold cong64. split.
  - intros a. rewrite Z.sub_diag. apply Z.divide_0_r.
  - intros a b. rewrite <- Z.divide_opp_r. by rewrite Z.opp_sub_distr, Z.add_comm.
  - intros a b c Hab Hbc. replace (a - c) with ((a - b) + (b - c)) by lia. by apply Z.divide_add_r.
Qed.

#[export] Instance cong64_add : Proper (cong64 ==> cong64 ==> cong64) Z.add.
Proof.
  unfold cong64. intros a a' Ha b b' Hb.
  replace (a + b - (a' + b')) with ((a - a') + (b - b')) by lia. by apply Z.divide_add_r.
Qed.

Lemma cong64_eq a b : a = b → a ≡64 b.
Proof. by intros ->. Qed.

Lemma cong64_cancel c a b a' b' : a + c = a' → b + c = b' → a' ≡64 b' → a ≡64 b.
Proof. intros <- <-. unfold cong64. by replace (a + c - (b + c)) with (a - b) by lia. Qed.

Lemma wadd64_cong a b : wadd64 a b ≡64 a + b.
Proof.
  unfold wadd64, cong64. exists (- ((a + b) / u64_modulus)).
  pose proof (Z.div_mod (a + b) u64_modulus). unfold u64_modulus in *. lia.
Qed.

(** ** Lists *)

Section Lists.
Context {A : Type}.
Implicit Types l : list A.

Lemma zlen_nil : zlen (@nil A) = 0.
Proof. done. Qed.

Lemma zlen_cons (a : A) l : zlen (a :: l) = zlen l + 1.
Proof. unfold zlen. rewrite length_cons. lia. Qed.

Lemma zlen_app l1 l2 : zlen (l1 ++ l2) = zlen l1 + zlen l2.
Proof. unfold zlen. rewrite length_app. lia. Qed.

Lemma zlen_nonneg l : 0 ≤ zlen l.
Proof. unfold zlen. lia. Qed.

Lemma zlen_fmap {B} (f : A → B) l : zlen (f <$> l) = zlen l.
Proof. unfold zlen. by rewrite length_fmap. Qed.

Lemma zlen_0_nil l : zlen l = 0 → l = [].
Proof. destruct l; [done |]. rewrite zlen_cons. pose proof (zlen_nonneg l). lia. Qed.

Lemma app_prefix_of_cases l l1 l2 : l `prefix_of` l1 ++ l2 →
  l `prefix_of` l1 ∨ ∃ l', l = l1 ++ l' ∧ l' `prefix_of` l2.
Proof.
  intros [rest Hr]. apply app_eq_app in Hr as [k [[-> ->]|[-> ->]]].
  - left. by apply prefix_app_r.
  - right. exists k. split; [done|]. by apply prefix_app_r.
Qed.

Lemma fmap_app_split {B} (f : A → B) l1 l2 l :
  l = l1 ++ l2 → f <$> l = (f <$> l1) ++ (f <$> l2).
Proof. intros ->. apply fmap_app. Qed.
End Lists.

Lemma filter_sublist {A} (P : A → Prop) `{∀ x, Decision (P x)} l1 l2 :
  l1 `sublist_of` l2 → filter P l1 `sublist_of` filter P l2.
Proof.
  induction 1 as [|x l1 l2 _ IH|x l1 l2 _ IH]; [done|..]; rewrite !filter_cons; case_decide; try done.
  - by apply sublist_skip.
  - by apply sublist_cons.
Qed.

Lemma filter_all {A} (P : A → Prop) `{∀ x, Decision (P x)} l : Forall P l → filter P l = l.
Proof. induction 1 as [|x l Hx _ IH]; [done|]. by rewrite filter_cons_True, IH. Qed.

Lemma forallb_Forall {A} (f : A → bool) l : forallb f l = true ↔ Forall (λ x, f x = true) l.
Proof. rewrite forallb_forall, List.Forall_forall. done. Qed.

Lemma pair3_eta {A B C} (x : A * B * C) : x = (x.1.1, x.1.2, x.2).
Proof. by destruct x as [[??]?]. Qed.
Lemma pair4_eta {A B C D} (x : A * B * C * D) : x = (x.1.1.1, x.1.1.2, x.1.2, x.2).
Proof. by destruct x as [[[??]?]?]. Qed.

(** Rust's [Vec::resize(n, 0)] and [&v[..n]]/[&v[n..]] as [get]. *)
Definition vec_resize (l : list Z) (n : nat) : list Z :=
  take n l ++ replicate (n - length l) 0.

Lemma length_vec_resize l n : length (vec_resize l n) = n.
Proof. unfold vec_resize. rewrite length_app, length_take, length_replicate. lia. Qed.

Definition slice_get_to {A} (l : list A) (n : nat) : option (list A) :=
  if bool_decide (n ≤ length l)%nat then Some (take n l) else None.

Lemma slice_get_to_le {A} (l : list A) n :
  (n ≤ length l)%nat → slice_get_to l n = Some (take n l).
Proof. intros Hn. unfold slice_get_to. by rewrite bool_decide_true. Qed.

Lemma slice_get_to_gt {A} (l : list A) n :
  (length l < n)%nat → slice_get_to l n = None.
Proof. intros Hn. unfold slice_get_to. rewrite bool_decide_false; [done | lia]. Qed.

(** ** Automation

    [slinet] is the hint database of the arithmetic side conditions the
    components share; [zlia] adds the sign of every list length in sight. *)

Create HintDb slinet.
Create Rewrite HintDb slinet.
#[export] Hint Resolve zlen_nonneg usize_max_pos usize_max_modulus : slinet.
#[export] Hint Rewrite @zlen_nil @zlen_cons @zlen_app @zlen_fmap : slinet.

Ltac zlen_facts :=
  repeat match goal with
  | |- context [zlen ?l] =>
      lazymatch goal with
      | _ : 0 ≤ zlen l |- _ => fail
      | _ => pose proof (zlen_nonneg l)
      end
  | _ : context [zlen ?l] |- _ =>
      lazymatch goal with
      | _ : 0 ≤ zlen l |- _ => fail
      | _ => pose proof (zlen_nonneg l)
      end
  end.

Ltac zlen_norm :=
  repeat first
    [ rewrite zlen_app in * | rewrite zlen_fmap in * | rewrite zlen_cons in *
    | rewrite zlen_nil in * ].

Ltac zlia := zlen_norm; zlen_facts; lia.

(** Turn boolean comparisons, of the goal's conditionals or of hypotheses,
    into propositions. *)
Ltac bools :=
  repeat match goal with
  | H : (_ && _)%bool = true |- _ => apply andb_true_iff in H as [??]
  | H : (_ && _)%bool = false |- _ => apply andb_false_iff in H
  | H : (_ || _)%bool = true |- _ => apply orb_true_iff in H
  | H : (_ || _)%bool = false |- _ => apply orb_false_iff in H as [??]
  | H : negb _ = true |- _ => apply negb_true_iff in H
  | H : negb _ = false |- _ => apply negb_false_iff in H
  | H : (_ <=? _) = true |- _ => apply Z.leb_le in H
  | H : (_ <=? _) = false |- _ => apply Z.leb_gt in H
  | H : (_ <? _) = true |- _ => apply Z.ltb_lt in H
  | H : (_ <? _) = false |- _ => apply Z.ltb_ge in H
  | H : (_ =? _) = true |- _ => apply Z.eqb_eq in H
  | H : (_ =? _) = false |- _ => apply Z.eqb_neq in H
  | H : bool_decide _ = true |- _ => apply bool_decide_eq_true in H
  | H : bool_decide _ = false |- _ => apply bool_decide_eq_false in H
  end.

(** Case analysis on the innermost conditional or match of the goal. *)
Ltac case_step :=
  match goal with
  | |- context [if ?b then _ else _] => destruct b eqn:?
  | |- context [match ?x with _ => _ end] => destruct x eqn:?
  end; simplify_eq/=.
