(* ===== verification/Protocol.v ===== *)
(** * Errors and handles shared by the protocols

    Models the data of src/src/protocols/packet.rs ([ReceiveError]),
    src/src/protocols/transport.rs ([QueueDropReason], [TransportHandle]) and
    src/src/connection/send_error.rs ([SendError]), with the part of
    [std::io::Error] the crate inspects. *)

From S2P Require Import Prelude.

(** ** std::io *)

(** The kinds the crate creates or matches on; [OtherKind] stands for the rest
    of the operating system's errors, by number. *)
Inductive ErrorKind :=
  | ConnectionRefused | ConnectionReset | ConnectionAborted | Interrupted
  | WouldBlock | BrokenPipe | InvalidInput | InvalidData | WriteZero
  | UnexpectedEof | Other | OtherKind (n : nat).

Record io_error := { kind : ErrorKind; message : string }.

(** [io::Error::from(kind)], [io::Error::other(message)]. *)
Definition io_error_from (k : ErrorKind) : io_error := {| kind := k; message := EmptyString |}.
Definition io_error_other (msg : string) : io_error := {| kind := Other; message := msg |}.

(** ** Packet reception errors *)

Inductive ReceiveError (SerializationError LengthError : Type) : Type :=
  | Io (e : io_error)
  | Deserialization (e : SerializationError)
  | LengthDeserialization (e : LengthError)
  | PacketTooBig
  | NoConnection (e : io_error)
  | IntentionalDisconnection.
Arguments Io {_ _} e.
Arguments Deserialization {_ _} e.
Arguments LengthDeserialization {_ _} e.
Arguments PacketTooBig {_ _}.
Arguments NoConnection {_ _} e.
Arguments IntentionalDisconnection {_ _}.

(** ** Drop accounting *)

Inductive QueueDropReason :=
  | OutgoingQueueFull
  | OutgoingQueueEvicted
  | ReceiveQueueFull
  | ReceiveQueueEvicted
  | ClosedBeforeDelivery.

(** A transport handle refers to state shared by its clones; the class is over
    that state, which the operations thread. *)
Class TransportHandle (H : Type) := {
  record_drop : QueueDropReason → H → H;
}.

(** [impl TransportHandle for ()]: the default method does nothing. *)
#[export] Instance unit_handle : TransportHandle unit := { record_drop _ h := h }.

(** [for _ in items { transport.record_drop(reason) }]. *)
Fixpoint record_drops {H} `{TransportHandle H} {T} (reason : QueueDropReason)
    (items : list T) (h : H) : H :=
  match items with
  | [] => h
  | _ :: items => record_drops reason items (record_drop reason h)
  end.

(** ** Submission errors *)

Inductive SendError (T : Type) : Type :=
  | SendFull (packet : T)
  | SendClosed (packet : T).
Arguments SendFull {T} packet.
Arguments SendClosed {T} packet.

Definition into_inner {T} (e : SendError T) : T :=
  match e with SendFull packet | SendClosed packet => packet end.

#[export] Instance error_kind_eq_dec : EqDecision ErrorKind.
Proof. solve_decision. Defined.
#[export] Instance io_error_eq_dec : EqDecision io_error.
Proof. solve_decision. Defined.
#[export] Instance receive_error_eq_dec {D L} `{EqDecision D, EqDecision L} :
  EqDecision (ReceiveError D L).
Proof. solve_decision. Defined.
#[export] Instance drop_reason_eq_dec : EqDecision QueueDropReason.
Proof. solve_decision. Defined.

(** ** Lemmas *)

Lemma record_drops_app {H} `{TransportHandle H} {T} reason (l1 l2 : list T) h :
  record_drops reason (l1 ++ l2) h = record_drops reason l2 (record_drops reason l1 h).
Proof. revert h; induction l1 as [|x l1 IH]; intros h; [done|]. apply IH. Qed.
