(* ===== verification/Codec.v ===== *)
(** * Packet length prefixes

    Models src/src/serializers/packet_length_serializer.rs: the trait
    [PacketLengthSerializer] as a class, its ten built-in instances
    (little- and big-endian, u8 to u128), and the contract [PrefixCodec] the
    framing of stream transports relies on. *)

From S2P Require Import Prelude.

(** ** Errors *)

(** Reports a payload length exceeding the selected integer representation. *)
Record PacketTooLargeError := { ptl_max_length : Z; ptl_length : Z }.

Inductive PacketLengthDeserializationError (E : Type) : Type :=
  | NeedMoreBytes (additional : Z)
  | LengthErr (e : E).
Arguments NeedMoreBytes {E} additional.
Arguments LengthErr {E} e.

(** ** The trait *)

Class PacketLengthSerializer (LS : Type) := {
  ls_error : Type;
  SIZE : nat;
  serialize_packet_length : LS → Z → result (list Z) ls_error;
  deserialize_packet_length :
    LS → list Z → result Z (PacketLengthDeserializationError ls_error);
}.

(** ** Integers as bytes

    Rust's [to_le_bytes], [from_le_bytes], [to_be_bytes] and [from_be_bytes] on
    a [n]-byte unsigned integer. *)

Definition is_byte (b : Z) : Prop := 0 ≤ b < 256.

Fixpoint to_le_bytes (n : nat) (v : Z) : list Z :=
  match n with
  | O => []
  | S n => v mod 256 :: to_le_bytes n (v / 256)
  end.

Fixpoint from_le_bytes (bs : list Z) : Z :=
  match bs with
  | [] => 0
  | b :: bs => b + 256 * from_le_bytes bs
  end.

Definition to_be_bytes (n : nat) (v : Z) : list Z := rev (to_le_bytes n v).
Definition from_be_bytes (bs : list Z) : Z := from_le_bytes (rev bs).

(** ** The built-in codecs

    [Width] is the type parameter [$number] of the macro; [Endian] selects
    between the types [LittleEndian<N>] and [BigEndian<N>]. *)

Inductive Width := u8 | u16 | u32 | u64 | u128.

Definition width_bits (w : Width) : Z :=
  match w with u8 => 8 | u16 => 16 | u32 => 32 | u64 => 64 | u128 => 128 end.

(** [<$number>::BITS as usize / 8]. *)
Definition width_bytes (w : Width) : nat := Z.to_nat (width_bits w / 8).

Definition width_max (w : Width) : Z := 2 ^ width_bits w - 1.

Inductive LittleEndian (N : Width) := little_endian.
Inductive BigEndian (N : Width) := big_endian.
Arguments little_endian {N}.
Arguments big_endian {N}.

Section Impl.
Context `{Target}.
Variable number : Width.
Variable to_bytes : nat → Z → list Z.
Variable from_bytes : list Z → Z.

(** [usize::try_from] of a value of the prefix type, and
    [usize::try_from(<$number>::MAX).unwrap_or(usize::MAX)]. *)
Definition usize_try_from (v : Z) : option Z :=
  if v <=? usize_max then Some v else None.

Definition serialize_length (len : Z) : result (list Z) PacketTooLargeError :=
  if len <=? width_max number then Ok (to_bytes (width_bytes number) len)
  else Err {| ptl_length := len;
              ptl_max_length := default usize_max (usize_try_from (width_max number)) |}.

Definition deserialize_length (buffer : list Z)
    : result Z (PacketLengthDeserializationError PacketTooLargeError) :=
  match slice_get_to buffer (width_bytes number) with
  | None => Err (NeedMoreBytes (wsub (Z.of_nat (width_bytes number)) (zlen buffer)))
  | Some prefix =>
      match usize_try_from (from_bytes prefix) with
      | Some len => Ok len
      | None => Err (LengthErr {| ptl_length := usize_max; ptl_max_length := usize_max |})
      end
  end.
End Impl.

#[export] Instance LittleEndian_serializer `{Target} (N : Width) :
    PacketLengthSerializer (LittleEndian N) := {
  ls_error := PacketTooLargeError;
  SIZE := width_bytes N;
  serialize_packet_length _ := serialize_length N to_le_bytes;
  deserialize_packet_length _ := deserialize_length N from_le_bytes;
}.

#[export] Instance BigEndian_serializer `{Target} (N : Width) :
    PacketLengthSerializer (BigEndian N) := {
  ls_error := PacketTooLargeError;
  SIZE := width_bytes N;
  serialize_packet_length _ := serialize_length N to_be_bytes;
  deserialize_packet_length _ := deserialize_length N from_be_bytes;
}.

(** ** The contract with the framing

    What [FramedReader] needs of a prefix written by the same codec: fed the
    prefix from its first [SIZE] bytes, the decoder either asks for a positive
    number of bytes that the prefix still has, or has the whole prefix and
    returns the length. Variable-width codecs satisfy it too. *)

Class PrefixCodec `{Target} (LS : Type) `{PacketLengthSerializer LS} : Prop := {
  prefix_size : ∀ ls n bs,
    0 ≤ n ≤ usize_max → serialize_packet_length ls n = Ok bs →
    (SIZE ≤ length bs)%nat ∧ zlen bs ≤ usize_max;
  prefix_complete : ∀ ls n bs,
    0 ≤ n ≤ usize_max →
    serialize_packet_length ls n = Ok bs → deserialize_packet_length ls bs = Ok n;
  prefix_partial : ∀ ls n bs k,
    0 ≤ n ≤ usize_max →
    serialize_packet_length ls n = Ok bs →
    (SIZE ≤ k < length bs)%nat →
    ∃ m, deserialize_packet_length ls (take k bs) = Err (NeedMoreBytes m) ∧
         0 < m ≤ Z.of_nat (length bs - k);
}.

(** The two byte orders, as the section variables of [Impl] need them. *)
Record ByteOrder (to_bytes : nat → Z → list Z) (from_bytes : list Z → Z) : Prop := {
  bo_length : ∀ n v, length (to_bytes n v) = n;
  bo_roundtrip : ∀ n v, from_bytes (to_bytes n v) = v mod 256 ^ Z.of_nat n;
  bo_byte : ∀ n v, Forall is_byte (to_bytes n v);
  bo_inverse : ∀ bs, Forall is_byte bs → to_bytes (length bs) (from_bytes bs) = bs;
}.
Arguments bo_length {_ _}.
Arguments bo_roundtrip {_ _}.
Arguments bo_byte {_ _}.
Arguments bo_inverse {_ _}.

(** ** Lemmas *)

Lemma length_to_le_bytes n v : length (to_le_bytes n v) = n.
Proof. revert v; induction n as [|n IH]; intros v; simpl; [done | by rewrite IH]. Qed.

Lemma to_le_bytes_byte n v : Forall is_byte (to_le_bytes n v).
Proof.
  revert v; induction n as [|n IH]; intros v; simpl; constructor; [|apply IH].
  unfold is_byte. pose proof (Z.mod_pos_bound v 256). lia.
Qed.

Lemma from_to_le_bytes n v : from_le_bytes (to_le_bytes n v) = v mod 256 ^ Z.of_nat n.
Proof.
  revert v; induction n as [|n IH]; intros v; cbn [to_le_bytes from_le_bytes].
  - by rewrite Z.mod_1_r.
  - rewrite IH, Nat2Z.inj_succ, Z.pow_succ_r by lia.
    rewrite (Z.rem_mul_r v 256) by lia. lia.
Qed.

Lemma from_le_bytes_bound bs :
  Forall is_byte bs → 0 ≤ from_le_bytes bs < 256 ^ zlen bs.
Proof.
  unfold zlen. induction 1 as [|b bs Hb Hbs IH]; cbn [from_le_bytes length]; [lia|].
  rewrite Nat2Z.inj_succ, Z.pow_succ_r by lia. unfold is_byte in Hb. lia.
Qed.

Lemma to_from_le_bytes bs :
  Forall is_byte bs → to_le_bytes (length bs) (from_le_bytes bs) = bs.
Proof.
  induction 1 as [|b bs Hb Hbs IH]; [done|]. cbn [length to_le_bytes from_le_bytes].
  unfold is_byte in Hb.
  replace (b + 256 * from_le_bytes bs) with (b + from_le_bytes bs * 256) by lia.
  rewrite Z.mod_add, Z.div_add, Z.mod_small, Z.div_small by lia. by rewrite Z.add_0_l, IH.
Qed.

Lemma width_bytes_pow w : 256 ^ Z.of_nat (width_bytes w) = width_max w + 1.
Proof. by destruct w. Qed.

Lemma width_bytes_usize `{Target} w : Z.of_nat (width_bytes w) ≤ usize_max.
Proof. apply (Z.le_trans _ (2 ^ 32 - 1)); [by destruct w | apply usize_max_ge]. Qed.

Lemma le_order : ByteOrder to_le_bytes from_le_bytes.
Proof.
  split; auto using length_to_le_bytes, from_to_le_bytes, to_le_bytes_byte, to_from_le_bytes.
Qed.

Lemma be_order : ByteOrder to_be_bytes from_be_bytes.
Proof.
  unfold to_be_bytes, from_be_bytes. split.
  - intros. by rewrite length_rev, length_to_le_bytes.
  - intros. by rewrite rev_involutive, from_to_le_bytes.
  - intros. apply Forall_rev, to_le_bytes_byte.
  - intros bs Hbs. rewrite <- (rev_involutive bs) at 3. f_equal.
    rewrite <- (length_rev bs). apply to_from_le_bytes. by apply Forall_rev.
Qed.

Section ImplLemmas.
Context `{Target} {to_bytes from_bytes} (Hord : ByteOrder to_bytes from_bytes).
Variable N : Width.

Lemma serialize_length_size n bs :
  serialize_length N to_bytes n = Ok bs → length bs = width_bytes N.
Proof. unfold serialize_length. case_match; intros; simplify_eq. by apply (bo_length Hord). Qed.

Lemma deserialize_serialize n bs :
  0 ≤ n ≤ usize_max →
  serialize_length N to_bytes n = Ok bs → deserialize_length N from_bytes bs = Ok n.
Proof.
  unfold serialize_length, deserialize_length, usize_try_from. intros Hn Hs.
  case_match; simplify_eq; bools.
  rewrite slice_get_to_le, take_ge by (by rewrite (bo_length Hord)).
  rewrite (bo_roundtrip Hord), width_bytes_pow, Z.mod_small by lia.
  rewrite (proj2 (Z.leb_le n usize_max)) by lia. done.
Qed.

Lemma serialize_length_ok n :
  n ≤ width_max N → ∃ bs, serialize_length N to_bytes n = Ok bs.
Proof.
  intros Hn. unfold serialize_length. rewrite (proj2 (Z.leb_le _ _) Hn). eauto.
Qed.

Lemma deserialize_length_short buffer :
  (length buffer < width_bytes N)%nat →
  deserialize_length N from_bytes buffer =
    Err (NeedMoreBytes (Z.of_nat (width_bytes N) - zlen buffer)).
Proof.
  intros Hlen. unfold deserialize_length. rewrite slice_get_to_gt by done.
  rewrite wsub_small; [done|].
  assert (Z.of_nat (width_bytes N) ≤ 16) by (by destruct N).
  pose proof usize_max_ge. unfold zlen. lia.
Qed.

Lemma deserialize_length_full buffer :
  (width_bytes N ≤ length buffer)%nat →
  deserialize_length N from_bytes buffer =
    if from_bytes (take (width_bytes N) buffer) <=? usize_max
    then Ok (from_bytes (take (width_bytes N) buffer))
    else Err (LengthErr {| ptl_length := usize_max; ptl_max_length := usize_max |}).
Proof.
  intros Hlen. unfold deserialize_length, usize_try_from.
  rewrite slice_get_to_le by done. by destruct (_ <=? _).
Qed.
End ImplLemmas.

#[export] Instance LittleEndian_prefix `{Target} N : PrefixCodec (LittleEndian N).
Proof.
  split; cbn.
  - intros ls n bs Hn Hs. unfold zlen. rewrite (serialize_length_size le_order N n bs) by done.
    split; [done|]. by apply width_bytes_usize.
  - intros ls n bs Hn Hs. by apply (deserialize_serialize le_order).
  - intros ls n bs k Hn Hs. rewrite (serialize_length_size le_order N n bs) by done. lia.
Qed.

#[export] Instance BigEndian_prefix `{Target} N : PrefixCodec (BigEndian N).
Proof.
  split; cbn.
  - intros ls n bs Hn Hs. unfold zlen. rewrite (serialize_length_size be_order N n bs) by done.
    split; [done|]. by apply width_bytes_usize.
  - intros ls n bs Hn Hs. by apply (deserialize_serialize be_order).
  - intros ls n bs k Hn Hs. rewrite (serialize_length_size be_order N n bs) by done. lia.
Qed.

Section Canonical.
Context `{Target} {to_bytes from_bytes} (Hord : ByteOrder to_bytes from_bytes).
Variable N : Width.

Lemma serialize_deserialize buffer n :
  Forall is_byte buffer →
  deserialize_length N from_bytes buffer = Ok n →
  serialize_length N to_bytes n = Ok (take (width_bytes N) buffer) ∧ n ≤ usize_max.
Proof.
  intros Hb Hd. destruct (decide (width_bytes N ≤ length buffer)%nat) as [Hlen|Hlen].
  2: { rewrite deserialize_length_short in Hd by lia. done. }
  rewrite deserialize_length_full in Hd by done.
  destruct (_ <=? _) eqn:Hle; simplify_eq. bools. split; [|done].
  set (prefix := take (width_bytes N) buffer) in *.
  assert (Hp : length prefix = width_bytes N) by (unfold prefix; rewrite length_take; lia).
  assert (Hpb : Forall is_byte prefix) by by apply Forall_take.
  pose proof (bo_inverse Hord prefix Hpb) as Hinv. rewrite Hp in Hinv.
  assert (from_bytes prefix ≤ width_max N).
  { pose proof (bo_roundtrip Hord (width_bytes N) (from_bytes prefix)) as Hr.
    rewrite Hinv, width_bytes_pow in Hr.
    assert (0 < width_max N + 1) by by destruct N.
    pose proof (Z.mod_pos_bound (from_bytes prefix) (width_max N + 1)). lia. }
  unfold serialize_length. by rewrite (proj2 (Z.leb_le _ _)), Hinv by done.
Qed.
End Canonical.

(** ** Properties *)

(** C36. Every length a prefix type can hold is encoded in exactly [SIZE] bytes
    and decoded back, whatever payload follows the prefix, in both byte
    orders; the two orders are mirror images of each other. *)
Theorem length_prefix_roundtrip `{Target} (N : Width) (n : Z) :
  0 ≤ n ≤ usize_max → n ≤ width_max N →
  ∃ le, serialize_packet_length (@little_endian N) n = Ok le ∧
        serialize_packet_length (@big_endian N) n = Ok (rev le) ∧
        length le = @SIZE (LittleEndian N) _ ∧ Forall is_byte le ∧
        (∀ payload, deserialize_packet_length (@little_endian N) (le ++ payload) = Ok n) ∧
        (∀ payload, deserialize_packet_length (@big_endian N) (rev le ++ payload) = Ok n).
Proof.
  intros Hn Hw. exists (to_le_bytes (width_bytes N) n).
  assert (Hl : serialize_length N to_le_bytes n = Ok (to_le_bytes (width_bytes N) n)).
  { unfold serialize_length. by rewrite (proj2 (Z.leb_le _ _) Hw). }
  assert (Hb : serialize_length N to_be_bytes n = Ok (rev (to_le_bytes (width_bytes N) n))).
  { unfold serialize_length. by rewrite (proj2 (Z.leb_le _ _) Hw). }
  assert (Hext : ∀ from bs payload,
    length bs = width_bytes N → deserialize_length N from bs = Ok n →
    deserialize_length N from (bs ++ payload) = Ok n).
  { intros from bs payload Hlen Hd.
    rewrite deserialize_length_full in Hd |- * by (rewrite ?length_app; lia).
    rewrite take_app_le, Hd by lia. done. }
  split_and!; try done.
  - by apply length_to_le_bytes.
  - apply to_le_bytes_byte.
  - intros payload. apply Hext; [by rewrite length_to_le_bytes|].
    by apply (deserialize_serialize le_order).
  - intros payload. apply Hext; [by rewrite length_rev, length_to_le_bytes|].
    by apply (deserialize_serialize be_order).
Qed.

Lemma length_prefix_roundtrip_witness :
  ∃ le, serialize_packet_length (@little_endian u16) 258 = Ok le ∧
        serialize_packet_length (@big_endian u16) 258 = Ok (rev le) ∧
        length le = @SIZE (LittleEndian u16) _ ∧ Forall is_byte le ∧
        (∀ payload, deserialize_packet_length (@little_endian u16) (le ++ payload) = Ok 258) ∧
        (∀ payload, deserialize_packet_length (@big_endian u16) (rev le ++ payload) = Ok 258).
Proof.
  apply (length_prefix_roundtrip u16 258);
    [split; [lia | by apply Z.leb_le] | by apply Z.leb_le].
Defined.

(** The accepted prefixes are canonical: a decoded length fits in [usize],
    and encoding it again gives the very bytes that were read. No two prefixes
    stand for the same length. *)
Theorem length_prefix_canonical `{Target} (N : Width) (buffer : list Z) :
  Forall is_byte buffer →
  (∀ n, deserialize_packet_length (@little_endian N) buffer = Ok n →
        n ≤ usize_max ∧
        serialize_packet_length (@little_endian N) n = Ok (take (width_bytes N) buffer)) ∧
  (∀ n, deserialize_packet_length (@big_endian N) buffer = Ok n →
        n ≤ usize_max ∧
        serialize_packet_length (@big_endian N) n = Ok (take (width_bytes N) buffer)).
Proof.
  intros Hb. split; intros n Hd; cbn in *.
  - by destruct (serialize_deserialize le_order N buffer n Hb Hd).
  - by destruct (serialize_deserialize be_order N buffer n Hb Hd).
Qed.

Lemma length_prefix_canonical_witness :
  Forall is_byte [2; 1; 77] ∧
  deserialize_packet_length (@little_endian u16) [2; 1; 77] = Ok 258 ∧
  serialize_packet_length (@little_endian u16) 258 = Ok (take (width_bytes u16) [2; 1; 77]).
Proof.
  assert (Hb : Forall is_byte [2; 1; 77]) by (repeat constructor; unfold is_byte; lia).
  split; [done|]. split; [by vm_compute|].
  apply (length_prefix_canonical u16 [2; 1; 77] Hb). by vm_compute.
Defined.

(** The error branches, exactly: encoding fails only above the prefix
    type's maximum and reports the length and the limit (saturated to
    [usize]); decoding a short buffer asks for exactly the missing bytes; a
    complete prefix above [usize::MAX] is rejected, never truncated. *)
Theorem length_prefix_errors `{Target} (N : Width) :
  (∀ n e, serialize_packet_length (@little_endian N) n = Err e ↔
          width_max N < n ∧ e = {| ptl_length := n; ptl_max_length := Z.min (width_max N) usize_max |}) ∧
  (∀ buffer m, deserialize_packet_length (@little_endian N) buffer = Err (NeedMoreBytes m) ↔
          zlen buffer < Z.of_nat (width_bytes N) ∧ m = Z.of_nat (width_bytes N) - zlen buffer) ∧
  (∀ buffer e, deserialize_packet_length (@little_endian N) buffer = Err (LengthErr e) ↔
          Z.of_nat (width_bytes N) ≤ zlen buffer ∧
          usize_max < from_le_bytes (take (width_bytes N) buffer) ∧
          e = {| ptl_length := usize_max; ptl_max_length := usize_max |}).
Proof.
  split_and!; cbn.
  - intros n e. unfold serialize_length, usize_try_from.
    destruct (n <=? width_max N) eqn:Hn; bools.
    + split; [done | lia].
    + replace (Z.min (width_max N) usize_max) with
        (default usize_max (if width_max N <=? usize_max then Some (width_max N) else None))
        by (destruct (Z.leb_spec (width_max N) usize_max); cbn; lia).
      split; [intros; by simplify_eq | by intros [_ ->]].
  - intros buffer m. destruct (decide (width_bytes N ≤ length buffer)%nat) as [Hl|Hl].
    + rewrite deserialize_length_full by done. unfold zlen.
      destruct (_ <=? _); split; [done|lia|done|lia].
    + rewrite deserialize_length_short by lia. unfold zlen.
      split; [intros; simplify_eq; lia | by intros [_ ->]].
  - intros buffer e. destruct (decide (width_bytes N ≤ length buffer)%nat) as [Hl|Hl].
    + rewrite deserialize_length_full by done. unfold zlen.
      destruct (_ <=? _) eqn:Hv; bools; split; [done|lia| |by intros (_&_&->)].
      intros ?; simplify_eq. split_and!; [lia|done|done].
    + rewrite deserialize_length_short by lia. unfold zlen. split; [done|lia].
Qed.
