(* ===== verification/Lossy.v ===== *)
(** * The bounded lossy queue

    Models src/src/connection/queue/lossy.rs: the queue state behind its mutex,
    one definition per critical section, and the wake-ups each one sends to the
    queue's two [Notify] objects. A mutex-protected section is atomic, so a
    concurrent execution is a sequence of these operations ([op], [run_ops]). *)

From S2P Require Import Prelude.

(** ** Data *)

Inductive OverflowPolicy := DropNewest | DropOldest.

#[export] Instance overflow_policy_eq_dec : EqDecision OverflowPolicy.
Proof. solve_decision. Defined.

(** [tokio::sync::mpsc::error]. *)
Inductive TrySendError (T : Type) : Type :=
  | Full (value : T)
  | Closed (value : T).
Arguments Full {T} value.
Arguments Closed {T} value.

Inductive TryRecvError := Empty | Disconnected.

(** A momentary view of an outgoing packet queue (connection/queue/mod.rs). *)
Record QueueSnapshot := { queued : Z; capacity : Z }.

Record State (T : Type) := {
  items : list (T * Z);
  bytes : Z;
  senders : Z;
  receiver_open : bool;
}.
Arguments items {T}. Arguments bytes {T}. Arguments senders {T}. Arguments receiver_open {T}.
Arguments Build_State {T}.

(** The mutex-protected state and the immutable limits. The two [Notify]
    fields have no state here: the calls on them are recorded by [Signal]. *)
Record Shared (T : Type) := {
  state : State T;
  max_items : Z;
  max_bytes : Z;
  policy : OverflowPolicy;
}.
Arguments state {T}. Arguments max_items {T}. Arguments max_bytes {T}. Arguments policy {T}.
Arguments Build_Shared {T}.

(** Calls of [notify_one] and [notify_waiters] on [changed] and [space]. *)
Inductive Signal := ChangedOne | ChangedAll | SpaceOne | SpaceAll.

#[export] Instance signal_eq_dec : EqDecision Signal.
Proof. solve_decision. Defined.

Definition is_changed (s : Signal) : bool :=
  match s with ChangedOne | ChangedAll => true | _ => false end.
Definition is_space (s : Signal) : bool :=
  match s with SpaceOne | SpaceAll => true | _ => false end.

(** The outcome of polling an async operation once. *)
Inductive Poll (A : Type) : Type := Ready (a : A) | Pending.
Arguments Ready {A} a.
Arguments Pending {A}.

Section Queue.
Context `{Target} {T : Type}.
Implicit Types sh : Shared T.

Definition with_state sh (st : State T) : Shared T :=
  {| state := st; max_items := max_items sh; max_bytes := max_bytes sh; policy := policy sh |}.

Definition with_items (st : State T) (its : list (T * Z)) (b : Z) : State T :=
  {| items := its; bytes := b; senders := senders st; receiver_open := receiver_open st |}.

Definition with_senders (st : State T) (n : Z) : State T :=
  {| items := items st; bytes := bytes st; senders := n; receiver_open := receiver_open st |}.

(** [lossy_channel]: one sender, receiver open, nothing queued. *)
Definition lossy_channel (mi mb : Z) (pol : OverflowPolicy) : Shared T :=
  {| state := {| items := []; bytes := 0; senders := 1; receiver_open := true |};
     max_items := mi; max_bytes := mb; policy := pol |}.

(** [impl Clone for LossySender], [impl Drop for LossySender]. *)
Definition clone_sender sh : Shared T :=
  with_state sh (with_senders (state sh) (wadd (senders (state sh)) 1)).

Definition drop_sender sh : Shared T * list Signal :=
  let st := with_senders (state sh) (wsub (senders (state sh)) 1) in
  (with_state sh st, if senders st =? 0 then [ChangedAll] else []).

Definition is_closed sh : bool := negb (receiver_open (state sh)).

Definition snapshot sh : QueueSnapshot :=
  {| queued := zlen (items (state sh)); capacity := max_items sh |}.

Definition queued_bytes sh : Z := bytes (state sh).

(** The eviction loop of [try_send_where]: walks the queue from the oldest
    item until the new one fits; [None] is its early return on a protected
    item. *)
Fixpoint evict_scan sh (b : Z) (can_evict : T → bool) (its : list (T * Z))
    (remaining_items remaining_bytes : Z) : option (Z * Z) :=
  match its with
  | [] => Some (remaining_items, remaining_bytes)
  | (old, old_bytes) :: rest =>
      if (remaining_items <? max_items sh) && (remaining_bytes <=? max_bytes sh - b)
      then Some (remaining_items, remaining_bytes)
      else if negb (can_evict old) then None
      else evict_scan sh b can_evict rest
             (wsub remaining_items 1) (wsub remaining_bytes old_bytes)
  end.

Definition try_send_where sh (value : T) (b : Z) (can_evict : T → bool)
    : Shared T * list Signal * result (list T) (TrySendError T) :=
  let st := state sh in
  if negb (receiver_open st) then (sh, [], Err (Closed value))
  else if (max_items sh =? 0) || (max_bytes sh <? b) then (sh, [], Err (Full value))
  else
    let making_room :=
      if decide (policy sh = DropOldest) then
        match evict_scan sh b can_evict (items st) (zlen (items st)) (bytes st) with
        | None => None
        | Some (remaining_items, remaining_bytes) =>
            let evicted_count := Z.to_nat (wsub (zlen (items st)) remaining_items) in
            Some (fst <$> take evicted_count (items st),
                  with_items st (drop evicted_count (items st)) remaining_bytes)
        end
      else Some ([], st) in
    match making_room with
    | None => (sh, [], Err (Full value))
    | Some (evicted, st) =>
        if (max_items sh <=? zlen (items st)) || (max_bytes sh - b <? bytes st)
        then (with_state sh st, [], Err (Full value))
        else (with_state sh (with_items st (items st ++ [(value, b)]) (wadd (bytes st) b)),
              [ChangedOne], Ok evicted)
    end.

Definition try_send sh (value : T) (b : Z) :=
  try_send_where sh value b (λ _, true).

(** One iteration of the loop of the async [send]: [Pending] is the
    [notified.await] at its end. *)
Definition send_attempt sh (value : T) (b : Z)
    : Shared T * list Signal * Poll (result unit (TrySendError T)) :=
  let st := state sh in
  if negb (receiver_open st) then (sh, [], Ready (Err (Closed value)))
  else if (zlen (items st) <? max_items sh) && (bytes st <=? max_bytes sh - b)
  then (with_state sh (with_items st (items st ++ [(value, b)]) (wadd (bytes st) b)),
        [ChangedOne], Ready (Ok ()))
  else (sh, [], Pending).

(** [send]: the check before the loop, then attempts. [waits] is what the
    rest of the program does to the queue during each [notified.await] that
    returns; the result is [Pending] when it runs out while still blocked. *)
Fixpoint send_loop sh (value : T) (b : Z) (waits : list (Shared T → Shared T))
    : Shared T * Poll (result unit (TrySendError T)) :=
  match send_attempt sh value b with
  | (sh', _, Ready r) => (sh', Ready r)
  | (sh', _, Pending) =>
      match waits with
      | [] => (sh', Pending)
      | others :: waits => send_loop (others sh') value b waits
      end
  end.

Definition send sh (value : T) (b : Z) (waits : list (Shared T → Shared T))
    : Shared T * Poll (result unit (TrySendError T)) :=
  if (max_items sh =? 0) || (max_bytes sh <? b) then (sh, Ready (Err (Full value)))
  else send_loop sh value b waits.

(** [close_and_drain], also run by [impl Drop for LossyReceiver]. *)
Definition close_and_drain sh : Shared T * list Signal * list T :=
  let st := state sh in
  (with_state sh {| items := []; bytes := 0; senders := senders st; receiver_open := false |},
   [ChangedAll; SpaceAll], fst <$> items st).

Definition try_recv_if sh (ready : T → bool)
    : Shared T * list Signal * result T TryRecvError :=
  let st := state sh in
  match items st with
  | (item, b) :: rest =>
      if ready item then
        (with_state sh (with_items st rest (wsub (bytes st) b)), [SpaceOne], Ok item)
      else (sh, [], Err Empty)
  | [] =>
      if (senders st =? 0) || negb (receiver_open st)
      then (sh, [], Err Disconnected) else (sh, [], Err Empty)
  end.

Definition try_recv sh := try_recv_if sh (λ _, true).

(** One iteration of the async [recv]. *)
Definition recv_attempt sh : Shared T * list Signal * Poll (option T) :=
  match try_recv sh with
  | (sh', sg, Ok value) => (sh', sg, Ready (Some value))
  | (sh', sg, Err Disconnected) => (sh', sg, Ready None)
  | (sh', sg, Err Empty) => (sh', sg, Pending)
  end.

(** [recv], with the rest of the program's effect during each await. *)
Fixpoint recv sh (waits : list (Shared T → Shared T)) : Shared T * Poll (option T) :=
  match recv_attempt sh with
  | (sh', _, Ready r) => (sh', Ready r)
  | (sh', _, Pending) =>
      match waits with
      | [] => (sh', Pending)
      | others :: waits => recv (others sh') waits
      end
  end.

(** ** Executions

    [exits] lists what an operation removes from the queue, in order, and
    [enters] what it appends. *)

Inductive op :=
  | OpTrySend (value : T) (b : Z) (can_evict : T → bool)
  | OpSendAttempt (value : T) (b : Z)
  | OpTryRecv (ready : T → bool)
  | OpCloseAndDrain
  | OpCloneSender
  | OpDropSender.

Record effect := { signals : list Signal; enters : list T; exits : list T }.

Definition run_op sh (o : op) : Shared T * effect :=
  match o with
  | OpTrySend v b can =>
      let '(sh', sg, r) := try_send_where sh v b can in
      (sh', {| signals := sg;
               enters := match r with Ok _ => [v] | Err _ => [] end;
               exits := match r with Ok evicted => evicted | Err _ => [] end |})
  | OpSendAttempt v b =>
      let '(sh', sg, r) := send_attempt sh v b in
      (sh', {| signals := sg;
               enters := match r with Ready (Ok _) => [v] | _ => [] end; exits := [] |})
  | OpTryRecv ready =>
      let '(sh', sg, r) := try_recv_if sh ready in
      (sh', {| signals := sg; enters := [];
               exits := match r with Ok v => [v] | Err _ => [] end |})
  | OpCloseAndDrain =>
      let '(sh', sg, l) := close_and_drain sh in
      (sh', {| signals := sg; enters := []; exits := l |})
  | OpCloneSender => (clone_sender sh, {| signals := []; enters := []; exits := [] |})
  | OpDropSender =>
      let '(sh', sg) := drop_sender sh in
      (sh', {| signals := sg; enters := []; exits := [] |})
  end.

(** The operations the code can perform: weights are lengths of byte
    slices, and a sender handle exists to be cloned or dropped. [send]
    reaches its loop only past its initial check. *)
Definition op_ok sh (o : op) : Prop :=
  match o with
  | OpTrySend _ b _ => 0 ≤ b ≤ usize_max
  | OpSendAttempt _ b => 0 ≤ b ≤ max_bytes sh
  | OpTryRecv _ | OpCloseAndDrain => True
  | OpCloneSender => 0 < senders (state sh) < usize_max
  | OpDropSender => 0 < senders (state sh)
  end.

(** The final state of a sequence of operations, with all that entered and
    all that left. *)
Fixpoint run_ops sh (os : list op) : Shared T * list T * list T :=
  match os with
  | [] => (sh, [], [])
  | o :: os =>
      let '(sh1, e) := run_op sh o in
      let '(sh', ent, ext) := run_ops sh1 os in
      (sh', enters e ++ ent, exits e ++ ext)
  end.

Fixpoint ops_ok sh (os : list op) : Prop :=
  match os with
  | [] => True
  | o :: os => op_ok sh o ∧ ops_ok (fst (run_op sh o)) os
  end.

(** ** Well-formedness *)

Fixpoint weight (its : list (T * Z)) : Z :=
  match its with [] => 0 | (_, b) :: its => b + weight its end.

Record wf sh : Prop := {
  wf_items : zlen (items (state sh)) ≤ max_items sh;
  wf_bytes : bytes (state sh) = weight (items (state sh));
  wf_weights : Forall (λ it, 0 ≤ it.2) (items (state sh));
  wf_budget : bytes (state sh) ≤ max_bytes sh;
  wf_limits : 0 ≤ max_items sh ≤ usize_max ∧ 0 ≤ max_bytes sh ≤ usize_max;
  wf_senders : 0 ≤ senders (state sh) ≤ usize_max;
  wf_closed : receiver_open (state sh) = false → items (state sh) = [];
}.

(** Whether an item of [b] bytes can be appended to [its]. *)
Definition fits sh (b : Z) (its : list (T * Z)) : bool :=
  (zlen its <? max_items sh) && (weight its <=? max_bytes sh - b).
End Queue.

(** ** Lemmas: eviction *)

Section Eviction.
Context `{Target} {T : Type}.
Implicit Types (sh : Shared T) (its : list (T * Z)).

(** The number of oldest items that must go before [b] bytes fit. *)
Fixpoint need sh (b : Z) its : nat :=
  match its with
  | [] => 0
  | _ :: rest => if fits sh b its then 0 else S (need sh b rest)
  end.

Lemma weight_app its1 its2 : weight (its1 ++ its2) = weight its1 + weight its2.
Proof.
  induction its1 as [|[x b] its1 IH]; [done|].
  change (b + weight (its1 ++ its2) = b + weight its1 + weight its2). rewrite IH. lia.
Qed.

Lemma weight_nonneg its : Forall (λ it, 0 ≤ it.2) its → 0 ≤ weight its.
Proof. induction 1 as [|[x b] its Hb _ IH]; cbn in *; lia. Qed.

Lemma weight_drop_le k its :
  Forall (λ it, 0 ≤ it.2) its → weight (drop k its) ≤ weight its.
Proof.
  intros Hw. rewrite <- (take_drop k its) at 2. rewrite weight_app.
  pose proof (weight_nonneg (take k its) (Forall_take _ _ _ Hw)). lia.
Qed.

Lemma need_le sh b its : (need sh b its <= length its)%nat.
Proof. induction its as [|it its IH]; cbn [need length]; [done|]. case_match; lia. Qed.

Lemma need_fits sh b its :
  0 < max_items sh → b ≤ max_bytes sh → fits sh b (drop (need sh b its) its) = true.
Proof.
  intros Hmi Hmb. induction its as [|it its IH]; cbn [need].
  - unfold fits. cbn. apply andb_true_intro. split; [by apply Z.ltb_lt | apply Z.leb_le; lia].
  - destruct (fits sh b (it :: its)) eqn:Hf; [by rewrite drop_0 | done].
Qed.

Lemma need_minimal sh b its k :
  (k < need sh b its)%nat → fits sh b (drop k its) = false.
Proof.
  revert k; induction its as [|it its IH]; intros k Hk; cbn [need] in Hk; [lia|].
  destruct (fits sh b (it :: its)) eqn:Hf; [lia|].
  destruct k as [|k]; [done | apply IH; lia].
Qed.

Lemma need_zero sh b its : fits sh b its = true → need sh b its = 0%nat.
Proof. destruct its; [done|]. cbn [need]. by intros ->. Qed.

Lemma evict_scan_need sh b can its :
  Forall (λ it, 0 ≤ it.2) its → zlen its ≤ usize_max → weight its ≤ usize_max →
  evict_scan sh b can its (zlen its) (weight its) =
    if forallb can (fst <$> take (need sh b its) its)
    then Some (zlen (drop (need sh b its) its), weight (drop (need sh b its) its))
    else None.
Proof.
  induction its as [|[old ob] its IH]; intros Hw Hl Hb; [done|].
  apply Forall_cons in Hw as [Hob Hw]. cbn in Hob.
  pose proof (weight_nonneg _ Hw). cbn [weight] in Hb. rewrite zlen_cons in Hl.
  cbn [evict_scan need]. unfold fits at 1 2 3. cbn [weight].
  destruct (_ && _); [by rewrite take_0, drop_0|].
  cbn [take drop fmap list_fmap forallb fst].
  destruct (can old); cbn [negb andb]; [|done].
  rewrite zlen_cons, !wsub_small by (pose proof (zlen_nonneg its); lia).
  replace (zlen its + 1 - 1) with (zlen its) by lia.
  replace (ob + weight its - ob) with (weight its) by lia.
  apply IH; [done|lia|lia].
Qed.
End Eviction.

(** ** Lemmas: each operation in closed form *)

Section Forms.
Context `{Target} {T : Type}.
Implicit Types (sh : Shared T).

Definition push sh (its : list (T * Z)) (v : T) (b : Z) : Shared T :=
  with_state sh (with_items (state sh) (its ++ [(v, b)]) (weight its + b)).

Lemma fits_zlen sh b its : fits sh b its = true ↔ zlen its < max_items sh ∧ weight its ≤ max_bytes sh - b.
Proof. unfold fits. rewrite andb_true_iff, Z.ltb_lt, Z.leb_le. done. Qed.

Lemma not_fits sh b its :
  (max_items sh <=? zlen its) || (max_bytes sh - b <? weight its) = negb (fits sh b its).
Proof. unfold fits. rewrite negb_andb, <- !Z.leb_antisym, <- Z.ltb_antisym. done. Qed.

Lemma try_send_where_form sh v b can :
  wf sh → 0 ≤ b →
  try_send_where sh v b can =
    if negb (receiver_open (state sh)) then (sh, [], Err (Closed v))
    else if (max_items sh =? 0) || (max_bytes sh <? b) then (sh, [], Err (Full v))
    else
      let its := items (state sh) in
      match policy sh with
      | DropNewest =>
          if fits sh b its then (push sh its v b, [ChangedOne], Ok [])
          else (sh, [], Err (Full v))
      | DropOldest =>
          let k := need sh b its in
          if forallb can (fst <$> take k its)
          then (push sh (drop k its) v b, [ChangedOne], Ok (fst <$> take k its))
          else (sh, [], Err (Full v))
      end.
Proof.
  intros Hwf Hb. pose proof (wf_items _ Hwf). pose proof (wf_bytes _ Hwf) as Hbytes.
  pose proof (wf_weights _ Hwf) as Hw. pose proof (wf_budget _ Hwf).
  pose proof (wf_limits _ Hwf) as [??].
  unfold try_send_where. destruct (negb _); [done|].
  destruct (_ || _) eqn:Hlim; [done|]. bools. cbn zeta.
  destruct (policy sh) eqn:Hp.
  - rewrite decide_False by congruence. rewrite Hbytes, not_fits.
    destruct (fits sh b (items (state sh))) eqn:Hf; cbn [negb].
    + apply fits_zlen in Hf as [??]. pose proof (weight_nonneg _ Hw).
      unfold push. by rewrite wadd_small by lia.
    + unfold with_state. by destruct sh.
  - rewrite decide_True by done. rewrite Hbytes, evict_scan_need by (try done; lia).
    pose proof (need_le sh b (items (state sh))).
    pose proof (need_fits sh b (items (state sh)) ltac:(lia) ltac:(lia)) as Hf.
    set (k := need _ _ _) in *. destruct (forallb _ _); [|done].
    assert (Hc : Z.to_nat (wsub (zlen (items (state sh))) (zlen (drop k (items (state sh))))) = k).
    { unfold zlen in *. rewrite length_drop, wsub_small by lia. lia. }
    rewrite Hc. cbn [with_items items bytes]. rewrite not_fits, Hf. cbn [negb].
    apply fits_zlen in Hf as [??].
    pose proof (weight_nonneg _ (Forall_drop _ k _ Hw)).
    unfold push. by rewrite wadd_small by lia.
Qed.

Lemma send_attempt_form sh v b :
  wf sh → 0 ≤ b →
  send_attempt sh v b =
    if negb (receiver_open (state sh)) then (sh, [], Ready (Err (Closed v)))
    else if fits sh b (items (state sh))
    then (push sh (items (state sh)) v b, [ChangedOne], Ready (Ok ()))
    else (sh, [], Pending).
Proof.
  intros Hwf Hb. pose proof (wf_bytes _ Hwf) as Hbytes.
  pose proof (wf_limits _ Hwf) as [??]. pose proof (weight_nonneg _ (wf_weights _ Hwf)).
  unfold send_attempt. destruct (negb _); [done|]. rewrite Hbytes.
  unfold fits. destruct (_ && _) eqn:Hf; [|done]. bools.
  unfold push. by rewrite wadd_small by lia.
Qed.

Lemma try_recv_if_form sh ready :
  wf sh →
  try_recv_if sh ready =
    match items (state sh) with
    | (item, b) :: rest =>
        if ready item
        then (with_state sh (with_items (state sh) rest (weight rest)), [SpaceOne], Ok item)
        else (sh, [], Err Empty)
    | [] => if (senders (state sh) =? 0) || negb (receiver_open (state sh))
            then (sh, [], Err Disconnected) else (sh, [], Err Empty)
    end.
Proof.
  intros Hwf. pose proof (wf_bytes _ Hwf) as Hbytes. pose proof (wf_weights _ Hwf) as Hw.
  pose proof (wf_budget _ Hwf). pose proof (wf_limits _ Hwf) as [??].
  unfold try_recv_if. destruct (items (state sh)) as [|[x b] rest]; [done|].
  cbn [weight] in Hbytes. apply Forall_cons in Hw as [Hb Hw]. cbn in Hb.
  pose proof (weight_nonneg _ Hw).
  destruct (ready x); [|done]. rewrite Hbytes, wsub_small by lia. repeat f_equal. lia.
Qed.

Lemma wf_push sh its v b :
  wf sh → 0 ≤ b → fits sh b its = true → Forall (λ it, 0 ≤ it.2) its →
  receiver_open (state sh) = true → wf (push sh its v b).
Proof.
  intros [] Hb Hf Hw Hopen. apply fits_zlen in Hf as [??].
  unfold push, with_state, with_items. split; cbn; try done.
  - zlia.
  - rewrite weight_app. cbn. lia.
  - apply Forall_app. split; [done|]. by constructor.
  - lia.
  - congruence.
Qed.
End Forms.

(** ** Lemmas: invariants of executions *)

Section Invariants.
Context `{Target} {T : Type}.
Implicit Types (sh : Shared T).

Lemma lossy_channel_wf mi mb pol :
  0 ≤ mi ≤ usize_max → 0 ≤ mb ≤ usize_max → wf (T:=T) (lossy_channel mi mb pol).
Proof.
  pose proof usize_max_ge.
  split; cbn; first [done | zlia | by constructor].
Qed.

(** [zlen its ≤ zlen its'] and the like survive dropping a prefix. *)
Lemma wf_suffix sh its k :
  wf sh → its = drop k (items (state sh)) →
  zlen its ≤ max_items sh ∧ weight its ≤ max_bytes sh ∧ Forall (λ it, 0 ≤ it.2) its.
Proof.
  intros Hwf ->. pose proof (wf_items _ Hwf). pose proof (wf_budget _ Hwf).
  pose proof (wf_bytes _ Hwf). pose proof (wf_weights _ Hwf) as Hw.
  pose proof (weight_drop_le k _ Hw).
  unfold zlen in *. rewrite length_drop. split_and!; [lia|lia|by apply Forall_drop].
Qed.

Lemma try_send_where_step sh v b can sh' sg r :
  wf sh → 0 ≤ b → try_send_where sh v b can = (sh', sg, r) →
  match r with
  | Ok evicted =>
      ∃ k, k = (match policy sh with DropNewest => 0%nat
                                   | DropOldest => need sh b (items (state sh)) end) ∧
           evicted = fst <$> take k (items (state sh)) ∧
           sh' = push sh (drop k (items (state sh))) v b ∧ sg = [ChangedOne] ∧
           receiver_open (state sh) = true ∧ fits sh b (drop k (items (state sh))) = true ∧
           Forall (λ x, can x = true) evicted
  | Err e => sh' = sh ∧ sg = [] ∧ e = (if receiver_open (state sh) then Full v else Closed v)
  end.
Proof.
  intros Hwf Hb. rewrite try_send_where_form by done. cbn zeta.
  destruct (receiver_open (state sh)) eqn:Ho; cbn [negb]; [|by intros; simplify_eq].
  destruct (_ || _) eqn:Hlim; [by intros; simplify_eq|]. bools.
  pose proof (wf_limits _ Hwf) as [??].
  destruct (policy sh).
  - destruct (fits _ _ _) eqn:Hf; intros; simplify_eq; [|done].
    exists 0%nat. by rewrite drop_0, take_0.
  - destruct (forallb _ _) eqn:Hc; intros; simplify_eq; [|done].
    eexists. split_and!; try done; [apply need_fits; lia | by apply forallb_Forall].
Qed.

Lemma run_op_wf sh o : wf sh → op_ok sh o → wf (fst (run_op sh o)).
Proof.
  intros Hwf Hok. destruct o as [v b can|v b|ready| | |]; cbn [run_op op_ok] in *.
  - destruct (try_send_where _ _ _ _) as [[sh' sg] r] eqn:Hs; cbn.
    apply try_send_where_step in Hs; [|done|lia].
    destruct r; [|by destruct Hs as (-> & _)].
    destruct Hs as (k & _ & _ & -> & _ & Ho & Hf & _).
    apply wf_push; try done; [lia|]. by eapply wf_suffix.
  - rewrite send_attempt_form by (done || lia).
    destruct (receiver_open _) eqn:Ho; cbn; [|done].
    destruct (fits _ _ _) eqn:Hf; cbn; [|done].
    apply wf_push; try done; [lia|]. by apply wf_weights.
  - rewrite try_recv_if_form by done. destruct (items (state sh)) as [|[x b] rest] eqn:Hi.
    { by destruct (_ || _). }
    destruct (ready x); cbn; [|done].
    destruct (wf_suffix sh rest 1 Hwf) as (? & ? & ?); [by rewrite Hi|].
    pose proof (wf_closed _ Hwf) as Hc. rewrite Hi in Hc.
    destruct Hwf. split; cbn; try done; try lia. by intros ?%Hc.
  - destruct Hwf. split; cbn; first [done | zlia | by constructor].
  - destruct Hwf. split; cbn; try done. rewrite wadd_small; lia.
  - unfold drop_sender. cbn. destruct Hwf. split; cbn; try done. rewrite wsub_small; lia.
Qed.

(** What waits after a [try_send]: some of what waited before, and the value if
    it was taken. *)
Lemma try_send_items sh v b : wf sh → 0 ≤ b ≤ usize_max →
  let '(sh', _, r) := try_send sh v b in
  wf sh' ∧ match r with
           | Ok _ => (items (state sh')).*1 `sublist_of` (items (state sh)).*1 ++ [v]
           | Err _ => sh' = sh
           end.
Proof.
  intros Hwf Hb. unfold try_send. pose proof (run_op_wf sh (OpTrySend v b (λ _, true)) Hwf Hb) as Hwf'.
  cbn [run_op] in Hwf'. destruct (try_send_where _ _ _ _) as [[sh' sg] r] eqn:Hs. split; [exact Hwf'|].
  apply try_send_where_step in Hs; [|done|lia]. destruct r as [ev|e]; [|by destruct Hs].
  destruct Hs as (k & _ & _ & -> & _). cbn. rewrite fmap_app, fmap_drop.
  apply sublist_app; [apply sublist_drop|done].
Qed.

(** A queue that takes an item of [b] bytes once it is empty. *)
Definition takes_alone sh (b : Z) : Prop :=
  receiver_open (state sh) = true ∧ 0 < max_items sh ∧ b ≤ max_bytes sh.

Lemma try_send_alone sh v b : wf sh → 0 ≤ b → takes_alone sh b → items (state sh) = [] →
  try_send sh v b = (push sh [] v b, [ChangedOne], Ok []).
Proof.
  intros Hwf Hb (Hopen & Hn & Hm) Hi. unfold try_send. rewrite try_send_where_form, Hopen, Hi by done. cbn [negb].
  rewrite (proj2 (Z.eqb_neq _ _)), (proj2 (Z.ltb_ge _ _)) by lia. cbn [orb].
  assert (Hf : fits sh b [] = true) by (apply fits_zlen; unfold zlen; cbn; lia).
  rewrite Hf. by destruct (policy sh).
Qed.

Lemma try_send_takes_alone sh v b n : wf sh → 0 ≤ b → takes_alone sh n → takes_alone (try_send sh v b).1.1 n.
Proof.
  intros Hwf Hb Ht. unfold try_send. destruct (try_send_where _ _ _ _) as [[sh' sg] r] eqn:Hs.
  apply try_send_where_step in Hs; [|done..]. destruct r as [ev|e]; [|by destruct Hs as [-> _]].
  by destruct Hs as (k & _ & _ & -> & _).
Qed.

Lemma try_recv_takes_alone sh ready n : wf sh → takes_alone sh n → takes_alone (try_recv_if sh ready).1.1 n.
Proof.
  intros Hwf Ht. rewrite try_recv_if_form by done.
  destruct (items (state sh)) as [|[x b] rest]; [by destruct (_ || _)|by destruct (ready x)].
Qed.

Lemma wf_drop_sender sh : wf sh → wf (drop_sender sh).1.
Proof. intros []. split; cbn; try done. apply wsub_range. Qed.

Lemma run_op_limits sh o :
  wf sh → op_ok sh o →
  max_items (fst (run_op sh o)) = max_items sh ∧ max_bytes (fst (run_op sh o)) = max_bytes sh
  ∧ policy (fst (run_op sh o)) = policy sh.
Proof.
  intros Hwf Hok. destruct o as [v b can|v b|ready| | |]; cbn [run_op op_ok] in *; try done.
  - destruct (try_send_where _ _ _ _) as [[sh' sg] r] eqn:Hs; cbn.
    apply try_send_where_step in Hs; [|done|lia].
    destruct r; [|by destruct Hs as (-> & _)]. by destruct Hs as (k & _ & _ & -> & _).
  - rewrite send_attempt_form by (done || lia). by destruct (negb _), (fits sh b (items (state sh))).
  - rewrite try_recv_if_form by done.
    destruct (items (state sh)) as [|[x b] rest]; [by destruct (_ || _) | by destruct (ready x)].
Qed.

(** What was queued, followed by what enters, is what exits followed by what
    is still queued. *)
Lemma run_op_fifo sh o :
  wf sh → op_ok sh o →
  (items (state sh)).*1 ++ enters (snd (run_op sh o)) =
  exits (snd (run_op sh o)) ++ (items (state (fst (run_op sh o)))).*1.
Proof.
  intros Hwf Hok. destruct o as [v b can|v b|ready| | |]; cbn [run_op op_ok] in *.
  - destruct (try_send_where _ _ _ _) as [[sh' sg] r] eqn:Hs; cbn.
    apply try_send_where_step in Hs; [|done|lia].
    destruct r; [|destruct Hs as (-> & _); by rewrite app_nil_r].
    destruct Hs as (k & _ & -> & -> & _); cbn.
    rewrite fmap_app, app_assoc, <- fmap_app, take_drop. done.
  - rewrite send_attempt_form by (done || lia).
    destruct (negb _); cbn; [by rewrite app_nil_r|].
    destruct (fits _ _ _); cbn; [by rewrite fmap_app | by rewrite app_nil_r].
  - rewrite try_recv_if_form by done. destruct (items (state sh)) as [|[x b] rest] eqn:Hi.
    { destruct (_ || _); cbn; by rewrite Hi. }
    destruct (ready x); cbn; rewrite app_nil_r; [done|by rewrite Hi].
  - cbn. done.
  - cbn. by rewrite app_nil_r.
  - unfold drop_sender. cbn. by rewrite app_nil_r.
Qed.

Lemma run_ops_inv sh os sh' ent ext :
  wf sh → ops_ok sh os → run_ops sh os = (sh', ent, ext) →
  wf sh' ∧ max_items sh' = max_items sh ∧ max_bytes sh' = max_bytes sh ∧
  (items (state sh)).*1 ++ ent = ext ++ (items (state sh')).*1.
Proof.
  revert sh sh' ent ext; induction os as [|o os IH]; intros sh sh' ent ext Hwf Hok Hrun.
  { cbn in Hrun. simplify_eq. by rewrite app_nil_r. }
  destruct Hok as [Hok Hoks]. cbn [run_ops] in Hrun.
  pose proof (run_op_wf _ _ Hwf Hok) as Hwf1.
  pose proof (run_op_limits _ _ Hwf Hok) as (Hi & Hb & _).
  pose proof (run_op_fifo _ _ Hwf Hok) as Hfifo.
  destruct (run_op sh o) as [sh1 e]. cbn [fst snd] in *.
  destruct (run_ops sh1 os) as [[sh2 ent2] ext2] eqn:Hr. simplify_eq.
  destruct (IH _ _ _ _ Hwf1 Hoks Hr) as (? & ? & ? & Hf).
  split_and!; [done|congruence|congruence|].
  by rewrite app_assoc, Hfifo, <- app_assoc, Hf, app_assoc.
Qed.
End Invariants.

(** ** Wake-ups *)

Section Wakeups.
Context `{Target} {T : Type}.
Implicit Types (sh : Shared T).

(** The queues between ECS and the transport tasks weigh every item 1 and
    leave the byte budget unbounded. *)
Definition unit_queue sh : Prop :=
  Forall (λ it, it.2 = 1) (items (state sh)) ∧ max_items sh ≤ max_bytes sh.

Definition unit_op (o : op (T:=T)) : Prop :=
  match o with OpTrySend _ b _ | OpSendAttempt _ b => b = 1 | _ => True end.

Definition send_blocked sh (b : Z) : Prop := ∀ v, snd (send_attempt sh v b) = Pending.
Definition recv_blocked sh : Prop := snd (recv_attempt sh) = Pending.

Lemma unit_weight its : Forall (λ it : T * Z, it.2 = 1) its → weight its = zlen its.
Proof.
  induction 1 as [|[x b] its Hb _ IH]; [done|]. cbn in Hb. cbn [weight]. rewrite IH.
  rewrite zlen_cons. lia.
Qed.

Lemma unit_fits sh its :
  Forall (λ it, it.2 = 1) its → max_items sh ≤ max_bytes sh →
  fits sh 1 its = true ↔ zlen its < max_items sh.
Proof. intros Hu Hm. rewrite fits_zlen, unit_weight by done. lia. Qed.

(** A full queue of unit weights evicts exactly one item. *)
Lemma unit_need sh :
  wf sh → unit_queue sh → fits sh 1 (items (state sh)) = false → 0 < max_items sh →
  need sh 1 (items (state sh)) = 1%nat ∧ zlen (items (state sh)) = max_items sh.
Proof.
  intros Hwf [Hu Hm] Hf Hpos. pose proof (wf_items _ Hwf).
  assert (Hfull : ¬ zlen (items (state sh)) < max_items sh).
  { intros Hlt. apply (unit_fits sh) in Hlt; [congruence|done|done]. }
  destruct (items (state sh)) as [|it rest] eqn:Hi; [rewrite zlen_nil in Hfull; lia|].
  split; [|lia]. cbn [need]. rewrite Hf.
  apply Forall_cons in Hu as [_ Hu]. rewrite zlen_cons in *.
  rewrite need_zero; [done|]. apply unit_fits; [done|done|lia].
Qed.

Lemma send_blocked_iff sh b :
  wf sh → 0 ≤ b → inhabited T →
  send_blocked sh b ↔ receiver_open (state sh) = true ∧ fits sh b (items (state sh)) = false.
Proof.
  intros Hwf Hb [v]. unfold send_blocked. split.
  - intros Hs. specialize (Hs v). rewrite send_attempt_form in Hs by done.
    by destruct (receiver_open (state sh)), (fits sh b (items (state sh))).
  - intros [Ho Hf] v'. rewrite send_attempt_form, Ho, Hf by done. done.
Qed.

Lemma recv_blocked_iff sh :
  wf sh →
  recv_blocked sh ↔
    items (state sh) = [] ∧ receiver_open (state sh) = true ∧ senders (state sh) ≠ 0.
Proof.
  intros Hwf. unfold recv_blocked, recv_attempt, try_recv. rewrite try_recv_if_form by done.
  destruct (items (state sh)) as [|[x b] rest]; [|split; [done | by intros (? & _)]].
  destruct (senders (state sh) =? 0) eqn:Hs, (receiver_open (state sh)); bools; cbn;
    split; intros ?; destruct_and?; try done; congruence.
Qed.

(** Operations other than a pop or a close leave a full unit-weight queue
    full: an eviction makes room for the item it admits and no other. *)
Lemma unit_op_keeps_full sh o :
  wf sh → unit_queue sh → op_ok sh o → unit_op o →
  receiver_open (state sh) = true → fits sh 1 (items (state sh)) = false →
  existsb is_space (signals (snd (run_op sh o))) = false →
  receiver_open (state (fst (run_op sh o))) = true ∧
  fits (fst (run_op sh o)) 1 (items (state (fst (run_op sh o)))) = false.
Proof.
  intros Hwf Hu Hok Huo Ho Hf Hsg. destruct o as [v b can|v b|ready| | |]; cbn [run_op op_ok] in *.
  - cbn in Huo; subst b. destruct (try_send_where _ _ _ _) as [[sh' sg] r] eqn:Hs; cbn.
    pose proof (run_op_limits sh (OpTrySend v 1 can) Hwf Hok) as (Hm & _). cbn in Hm.
    rewrite Hs in Hm. cbn in Hm.
    apply try_send_where_step in Hs; [|done|lia].
    destruct r; [|by destruct Hs as (-> & _)].
    destruct Hs as (k & Hk & _ & -> & _ & _ & Hk' & _). cbn. split; [done|].
    apply not_true_is_false. intros Hfit. apply fits_zlen in Hfit as [Hlt _]; cbn in Hlt.
    destruct (decide (0 < max_items sh)) as [Hp|Hp]; [|zlia].
    destruct (unit_need sh Hwf Hu Hf Hp) as [Hn Hfull].
    destruct (policy sh); subst k.
    + rewrite drop_0 in Hk'. congruence.
    + rewrite Hn in *. destruct (items (state sh)) as [|it rest]; [zlia|]. cbn [drop] in Hlt.
      rewrite drop_0 in Hlt. zlia.
  - rewrite send_attempt_form by (done || lia). rewrite Ho. cbn.
    cbn in Huo; subst b. by rewrite Hf.
  - rewrite try_recv_if_form in Hsg |- * by done.
    destruct (items (state sh)) as [|[x b] rest] eqn:Hi; [destruct (_ || _); cbn; by rewrite Hi|].
    destruct (ready x); [done|]. cbn. by rewrite Hi.
  - done.
  - done.
  - unfold drop_sender. cbn. done.
Qed.
End Wakeups.

(** ** Properties *)

Section Properties.
Context `{Target} {T : Type}.
Implicit Types (sh : Shared T).

(** C24. Whatever sequence of sends, receives, evictions, closes, sender clones
    and drops runs on a fresh queue, it never holds more than [max_items]
    items or [max_bytes] bytes, and the byte counter is exactly the sum of
    the queued weights: no [usize] addition or subtraction of the code ever
    wraps. *)
Theorem lossy_queue_bounded mi mb pol (os : list (op (T:=T))) sh' ent ext :
  0 ≤ mi ≤ usize_max → 0 ≤ mb ≤ usize_max → ops_ok (lossy_channel mi mb pol) os →
  run_ops (lossy_channel mi mb pol) os = (sh', ent, ext) →
  queued (snapshot sh') ≤ mi ∧ capacity (snapshot sh') = mi ∧
  queued_bytes sh' = weight (items (state sh')) ∧ 0 ≤ queued_bytes sh' ≤ mb.
Proof.
  intros Hmi Hmb Hok Hrun.
  pose proof (lossy_channel_wf (T:=T) mi mb pol Hmi Hmb) as Hwf0.
  destruct (run_ops_inv _ _ _ _ _ Hwf0 Hok Hrun) as (Hwf & Hi & Hb & _). cbn in Hi, Hb.
  pose proof (wf_items _ Hwf). pose proof (wf_bytes _ Hwf) as Hby.
  pose proof (wf_budget _ Hwf). pose proof (weight_nonneg _ (wf_weights _ Hwf)).
  unfold queued_bytes, snapshot. cbn. split_and!; lia.
Qed.

(** C32. No item is lost, duplicated or reordered: in every execution, the
    accepted items, in order, are those that left the queue (received,
    evicted or drained), in the order they left, followed by those queued. *)
Theorem lossy_queue_fifo mi mb pol (os : list (op (T:=T))) sh' ent ext :
  0 ≤ mi ≤ usize_max → 0 ≤ mb ≤ usize_max → ops_ok (lossy_channel mi mb pol) os →
  run_ops (lossy_channel mi mb pol) os = (sh', ent, ext) →
  ent = ext ++ (items (state sh')).*1.
Proof.
  intros Hmi Hmb Hok Hrun.
  by destruct (run_ops_inv _ _ _ _ _ (lossy_channel_wf (T:=T) mi mb pol Hmi Hmb) Hok Hrun)
    as (_ & _ & _ & ?).
Qed.

(** With [DropOldest], an accepted item evicts a prefix of the queue and
    no more than necessary: the rest of the queue has room for it, and with
    any shorter prefix evicted it would not fit. What remains keeps its
    order, with the new item last. *)
Theorem try_send_evicts_minimum sh v b can sh' sg evicted :
  wf sh → 0 ≤ b → policy sh = DropOldest →
  try_send_where sh v b can = (sh', sg, Ok evicted) →
  ∃ kept, items (state sh) = take (length evicted) (items (state sh)) ++ kept ∧
    evicted = (take (length evicted) (items (state sh))).*1 ∧
    Forall (λ x, can x = true) evicted ∧
    items (state sh') = kept ++ [(v, b)] ∧ sg = [ChangedOne] ∧
    zlen kept < max_items sh ∧ weight kept + b ≤ max_bytes sh ∧
    (∀ j, (j < length evicted)%nat →
          max_items sh ≤ zlen (drop j (items (state sh))) ∨
          max_bytes sh < weight (drop j (items (state sh))) + b).
Proof.
  intros Hwf Hb Hpol Hs. apply try_send_where_step in Hs; [|done|done].
  rewrite Hpol in Hs. destruct Hs as (k & Hk & Hev & -> & -> & _ & Hf & Hcan).
  assert (Hlen : length evicted = k).
  { rewrite Hev, length_fmap, length_take. pose proof (need_le sh b (items (state sh))). lia. }
  apply fits_zlen in Hf as [??].
  exists (drop k (items (state sh))). rewrite Hlen, take_drop.
  split_and!; try done; [lia|].
  intros j Hj. pose proof (need_minimal sh b (items (state sh)) j ltac:(lia)) as Hnf.
  unfold fits in Hnf. apply andb_false_iff in Hnf as [Hnf|Hnf]; bools; [left|right]; lia.
Qed.

(** [try_send] is all or nothing, and its outcome is the policy's. A
    rejected value is handed back with the queue untouched: [Closed] when the
    receiver is gone, [Full] otherwise. An open queue accepts a value exactly
    when it can fit at all and, with [DropNewest], fits now, or, with
    [DropOldest], every item in the way may be evicted: in particular an
    oversized value never evicts anything. *)
Theorem try_send_outcome sh v b can sh' sg r :
  wf sh → 0 ≤ b → try_send_where sh v b can = (sh', sg, r) →
  (∀ e, r = Err e → sh' = sh ∧ sg = [] ∧
                    e = if receiver_open (state sh) then Full v else Closed v) ∧
  (is_ok r = true ↔
     receiver_open (state sh) = true ∧ max_items sh ≠ 0 ∧ b ≤ max_bytes sh ∧
     match policy sh with
     | DropNewest => zlen (items (state sh)) < max_items sh ∧
                     weight (items (state sh)) ≤ max_bytes sh - b
     | DropOldest => Forall (λ x, can x = true)
                            (take (need sh b (items (state sh))) (items (state sh))).*1
     end).
Proof.
  intros Hwf Hb Hs. split.
  - intros e ->. by apply try_send_where_step in Hs.
  - rewrite try_send_where_form in Hs by done.
    destruct (receiver_open (state sh)); cbn [negb] in Hs; [|simplify_eq; cbn; by split; intros; destruct_and?].
    destruct (_ || _) eqn:Hl in Hs.
    { simplify_eq. bools. split; [done|]. intros (_ & ? & ? & _). destruct Hl; bools; lia. }
    bools. destruct (policy sh); cbn zeta in Hs.
    + rewrite <- fits_zlen. destruct (fits _ _ _); simplify_eq; cbn;
        split; intros; destruct_and?; try done.
    + rewrite <- forallb_Forall. destruct (forallb _ _); simplify_eq; cbn;
        split; intros; destruct_and?; try done.
Qed.

(** No wake-up is lost. A receiver blocked in [recv] that becomes able to
    proceed is always notified by the operation that enabled it; so is a
    sender blocked in [send], on the queues between ECS and the transport
    tasks, whose items weigh one each. *)
Theorem lossy_no_lost_wakeup sh (o : op (T:=T)) :
  inhabited T → wf sh → op_ok sh o →
  (recv_blocked sh → ¬ recv_blocked (fst (run_op sh o)) →
     existsb is_changed (signals (snd (run_op sh o))) = true) ∧
  (unit_queue sh → unit_op o →
   send_blocked sh 1 → ¬ send_blocked (fst (run_op sh o)) 1 →
     existsb is_space (signals (snd (run_op sh o))) = true).
Proof.
  intros Hin Hwf Hok. pose proof (run_op_wf sh o Hwf Hok) as Hwf'. split.
  - rewrite !recv_blocked_iff by done. intros (Hi & Ho & Hs) Hn.
    destruct o as [v b can|v b|ready| | |]; cbn [run_op op_ok] in *; try done.
    + destruct (try_send_where _ _ _ _) as [[sh' sg] r] eqn:Ht; cbn in *.
      apply try_send_where_step in Ht; [|done|lia].
      destruct r; [by destruct Ht as (k & _ & _ & _ & -> & _)|].
      destruct Ht as (-> & _). by destruct Hn.
    + rewrite send_attempt_form in Hn |- * by (done || lia). rewrite Ho in *. cbn in *.
      destruct (fits sh b (items (state sh))); [done|]. cbn in *. by destruct Hn.
    + rewrite try_recv_if_form in Hn by done. rewrite Hi, Ho in Hn.
      rewrite orb_false_r in Hn. destruct (_ =? _); by destruct Hn.
    + destruct Hn. cbn. rewrite wadd_small by lia. split_and!; [done|done|lia].
    + unfold drop_sender in *. cbn in *. destruct (_ =? _) eqn:Hz; [done|]. bools.
      by destruct Hn.
  - rewrite !send_blocked_iff by (done || lia). intros Hu Huo [Ho Hf] Hn.
    destruct (existsb _ _) eqn:Hsg; [done|]. destruct Hn. by apply unit_op_keeps_full.
Qed.
End Properties.

(** C39. With byte weights the second half of C8 fails: evicting a heavy item to
    admit a light one makes room for a waiting [send], which [try_send] does
    not notify. *)
Theorem lossy_eviction_leaves_sender_waiting `{Target} :
  ∃ (sh : Shared Z) (o : op),
    wf sh ∧ op_ok sh o ∧ send_blocked sh 5 ∧ ¬ send_blocked (fst (run_op sh o)) 5 ∧
    existsb is_space (signals (snd (run_op sh o))) = false.
Proof.
  pose proof usize_max_ge.
  set (sh := {| state := {| items := [(1, 9)]; bytes := 9; senders := 1; receiver_open := true |};
                max_items := 3; max_bytes := 10; policy := DropOldest |}).
  assert (Hwf : wf sh).
  { split; cbn; first [done | lia | by repeat constructor]. }
  exists sh, (OpTrySend 2 2 (λ _, true)).
  assert (Hok : op_ok sh (OpTrySend 2 2 (λ _, true))) by (cbn; lia).
  pose proof (run_op_wf _ _ Hwf Hok) as Hwf'.
  assert (Hin : inhabited Z) by exact (inhabits 0).
  split; [done|]. split; [done|].
  rewrite !send_blocked_iff by (done || lia).
  cbn [run_op] in *. rewrite try_send_where_form by (done || lia).
  split; [done|]. split; [by intros [_ ?] | done].
Qed.

(** ** Witnesses *)

(** The queue of the unit test [oldest_eviction_accounts_bytes_and_preserves_fifo]. *)
Definition example_ops : list (op (T:=Z)) :=
  [OpTrySend 1 2 (λ _, true); OpTrySend 2 3 (λ _, true);
   OpTrySend 3 6 (λ _, true); OpTrySend 4 4 (λ _, true); OpTryRecv (λ _, true)].

Lemma example_ops_ok : ops_ok (lossy_channel 2 5 DropOldest) example_ops.
Proof.
  assert (Hu : 6 ≤ usize_max) by (apply Z.leb_le; by vm_compute).
  cbn -[run_op]. split_and!; try done; lia.
Qed.

Lemma lossy_queue_bounded_witness :
  ∃ sh', run_ops (lossy_channel 2 5 DropOldest) example_ops = (sh', [1; 2; 4], [1; 2; 4]) ∧
         queued (snapshot sh') ≤ 2 ∧ capacity (snapshot sh') = 2 ∧
         queued_bytes sh' = weight (items (state sh')) ∧ 0 ≤ queued_bytes sh' ≤ 5.
Proof.
  eexists. split; [by vm_compute|].
  eapply (lossy_queue_bounded 2 5 DropOldest example_ops); [| |exact example_ops_ok|by vm_compute];
    (split; apply Z.leb_le; by vm_compute).
Defined.

Lemma lossy_queue_fifo_witness :
  ∃ sh', run_ops (lossy_channel 2 5 DropOldest) example_ops = (sh', [1; 2; 4], [1; 2; 4]) ∧
         [1; 2; 4] = [1; 2; 4] ++ (items (state sh')).*1.
Proof.
  eexists. split; [by vm_compute|].
  eapply (lossy_queue_fifo 2 5 DropOldest example_ops); [| |exact example_ops_ok|by vm_compute];
    (split; apply Z.leb_le; by vm_compute).
Defined.

Definition example_queue (pol : OverflowPolicy) : Shared Z :=
  {| state := {| items := [(1, 2); (2, 3)]; bytes := 5; senders := 1; receiver_open := true |};
     max_items := 2; max_bytes := 5; policy := pol |}.

Lemma example_queue_wf pol : wf (example_queue pol).
Proof.
  assert (Hu : 6 ≤ usize_max) by (apply Z.leb_le; by vm_compute).
  split; cbn; try done; try lia. repeat constructor; cbn; lia.
Qed.

Lemma try_send_evicts_minimum_witness :
  ∃ sh', try_send_where (example_queue DropOldest) 4 4 (λ _, true) = (sh', [ChangedOne], Ok [1; 2]) ∧
    ∃ kept, items (state (example_queue DropOldest)) =
              take (length [1; 2]) (items (state (example_queue DropOldest))) ++ kept ∧
      items (state sh') = kept ++ [(4, 4)].
Proof.
  eexists. split; [by vm_compute|].
  edestruct (try_send_evicts_minimum (example_queue DropOldest) 4 4 (λ _, true))
    as (kept & Hi & _ & _ & Hi' & _); [apply example_queue_wf|lia|done|by vm_compute|].
  exists kept. split; [exact Hi|exact Hi'].
Defined.

Lemma try_send_outcome_witness :
  ∃ sh', try_send_where (example_queue DropNewest) 4 1 (λ _, true) = (sh', [], Err (Full 4)) ∧
         sh' = example_queue DropNewest.
Proof.
  eexists. split; [by vm_compute|].
  eapply (try_send_outcome (example_queue DropNewest) 4 1 (λ _, true) _ _ (Err (Full 4)));
    [apply example_queue_wf|lia|by vm_compute|done].
Defined.

Lemma lossy_no_lost_wakeup_witness :
  recv_blocked (T:=Z) (lossy_channel 2 5 DropOldest) ∧
  ¬ recv_blocked (fst (run_op (lossy_channel 2 5 DropOldest) (OpTrySend 1 2 (λ _, true)))) ∧
  existsb is_changed
    (signals (snd (run_op (lossy_channel 2 5 DropOldest) (OpTrySend 1 2 (λ _, true))))) = true.
Proof.
  assert (Hb : recv_blocked (T:=Z) (lossy_channel 2 5 DropOldest)) by by vm_compute.
  assert (Hn : ¬ recv_blocked
    (fst (run_op (lossy_channel 2 5 DropOldest) (OpTrySend 1 2 (λ _, true)))))
    by (intros Hx; by vm_compute in Hx).
  split; [exact Hb|]. split; [exact Hn|].
  eapply (lossy_no_lost_wakeup (lossy_channel 2 5 DropOldest) (OpTrySend 1 2 (λ _, true)));
    [exact (inhabits 0) | apply lossy_channel_wf | | exact Hb | exact Hn];
    (split; apply Z.leb_le; by vm_compute).
Defined.
