(* ===== verification/Externals.v ===== *)
(** * Third-party objects the crate is built on

    The crate uses tokio's bounded channel, semaphore and watch channel and
    tokio_util's cancellation token. Their code is not in the repository, so
    each is a class: its operations are parameters of the definitions that
    call them, and a [...Laws] class states the documented behaviour the
    theorems rely on. [Reference] instances, plain functional versions that
    satisfy the laws, let the witnesses compute.

    An object shared through [Arc] is represented by its current state; the
    operations return the new state. *)

From S2P Require Import Prelude Lossy.

(** ** tokio_util::sync::CancellationToken: a one-way latch *)

Class CancellationToken (L : Type) := {
  token_new : L;
  token_cancel : L → L;
  token_is_cancelled : L → bool;
}.

Class CancellationTokenLaws (L : Type) `{CancellationToken L} : Prop := {
  token_new_live : token_is_cancelled token_new = false;
  token_cancel_cancels l : token_is_cancelled (token_cancel l) = true;
}.

(** ** tokio::sync::mpsc: the bounded channel *)

Class Mpsc (Ch : Type → Type) := {
  mpsc_channel {T} : Z → Ch T;
  mpsc_try_send {T} : Ch T → T → Ch T * result () (TrySendError T);
  (** One poll of the future of [Sender::send]; closed channels give the value back. *)
  mpsc_poll_send {T} : Ch T → T → Ch T * Poll (result () T);
  mpsc_try_recv {T} : Ch T → Ch T * result T TryRecvError;
  mpsc_poll_recv {T} : Ch T → Ch T * Poll (option T);
  mpsc_close {T} : Ch T → Ch T;
  (** Dropping the [Receiver]: closes the channel and drops what it holds. *)
  mpsc_drop_receiver {T} : Ch T → Ch T;
  mpsc_is_closed {T} : Ch T → bool;
  mpsc_capacity {T} : Ch T → Z;
  mpsc_max_capacity {T} : Ch T → Z;
  mpsc_clone_sender {T} : Ch T → Ch T;
  mpsc_drop_sender {T} : Ch T → Ch T;
  (** What is queued, oldest first, and how many senders exist: the view the
      laws are stated over. *)
  mpsc_items {T} : Ch T → list T;
  mpsc_senders {T} : Ch T → nat;
}.

Class MpscLaws (Ch : Type → Type) `{Mpsc Ch} : Prop := {
  mpsc_channel_view {T} n :
    0 < n →
    mpsc_items (T:=T) (mpsc_channel n) = [] ∧ mpsc_is_closed (T:=T) (mpsc_channel n) = false ∧
    mpsc_max_capacity (T:=T) (mpsc_channel n) = n ∧ mpsc_senders (T:=T) (mpsc_channel n) = 1%nat;
  mpsc_capacity_view {T} (c : Ch T) :
    mpsc_capacity c = mpsc_max_capacity c - zlen (mpsc_items c);
  mpsc_try_send_view {T} (c c' : Ch T) x r :
    mpsc_try_send c x = (c', r) →
    mpsc_is_closed c' = mpsc_is_closed c ∧ mpsc_max_capacity c' = mpsc_max_capacity c ∧
    mpsc_senders c' = mpsc_senders c ∧
    if mpsc_is_closed c then r = Err (Closed x) ∧ mpsc_items c' = mpsc_items c
    else if mpsc_max_capacity c <=? zlen (mpsc_items c)
    then r = Err (Full x) ∧ mpsc_items c' = mpsc_items c
    else r = Ok () ∧ mpsc_items c' = mpsc_items c ++ [x];
  mpsc_poll_send_view {T} (c c' : Ch T) x p :
    mpsc_poll_send c x = (c', p) →
    mpsc_is_closed c' = mpsc_is_closed c ∧ mpsc_max_capacity c' = mpsc_max_capacity c ∧
    mpsc_senders c' = mpsc_senders c ∧
    if mpsc_is_closed c then p = Ready (Err x) ∧ mpsc_items c' = mpsc_items c
    else if mpsc_max_capacity c <=? zlen (mpsc_items c)
    then p = Pending ∧ mpsc_items c' = mpsc_items c
    else p = Ready (Ok ()) ∧ mpsc_items c' = mpsc_items c ++ [x];
  mpsc_try_recv_view {T} (c c' : Ch T) r :
    mpsc_try_recv c = (c', r) →
    mpsc_is_closed c' = mpsc_is_closed c ∧ mpsc_max_capacity c' = mpsc_max_capacity c ∧
    mpsc_senders c' = mpsc_senders c ∧
    match mpsc_items c with
    | x :: xs => r = Ok x ∧ mpsc_items c' = xs
    | [] => mpsc_items c' = [] ∧
            r = Err (if (mpsc_senders c =? 0)%nat || mpsc_is_closed c then Disconnected else Empty)
    end;
  mpsc_close_view {T} (c : Ch T) :
    mpsc_is_closed (mpsc_close c) = true ∧ mpsc_items (mpsc_close c) = mpsc_items c ∧
    mpsc_max_capacity (mpsc_close c) = mpsc_max_capacity c ∧
    mpsc_senders (mpsc_close c) = mpsc_senders c;
  mpsc_drop_receiver_view {T} (c : Ch T) :
    mpsc_is_closed (mpsc_drop_receiver c) = true ∧ mpsc_items (mpsc_drop_receiver c) = [];
  mpsc_clone_sender_view {T} (c : Ch T) :
    mpsc_is_closed (mpsc_clone_sender c) = mpsc_is_closed c ∧
    mpsc_items (mpsc_clone_sender c) = mpsc_items c ∧
    mpsc_max_capacity (mpsc_clone_sender c) = mpsc_max_capacity c ∧
    mpsc_senders (mpsc_clone_sender c) = S (mpsc_senders c);
  mpsc_drop_sender_view {T} (c : Ch T) :
    mpsc_is_closed (mpsc_drop_sender c) = mpsc_is_closed c ∧
    mpsc_items (mpsc_drop_sender c) = mpsc_items c ∧
    mpsc_max_capacity (mpsc_drop_sender c) = mpsc_max_capacity c ∧
    mpsc_senders (mpsc_drop_sender c) = pred (mpsc_senders c);
  mpsc_poll_recv_view {T} (c c' : Ch T) p :
    mpsc_poll_recv c = (c', p) →
    mpsc_is_closed c' = mpsc_is_closed c ∧ mpsc_max_capacity c' = mpsc_max_capacity c ∧
    mpsc_senders c' = mpsc_senders c ∧
    match mpsc_items c with
    | x :: xs => p = Ready (Some x) ∧ mpsc_items c' = xs
    | [] => mpsc_items c' = [] ∧
            p = if (mpsc_senders c =? 0)%nat || mpsc_is_closed c then Ready None else Pending
    end;
}.

(** ** tokio::sync::Semaphore *)

Class Semaphore (S : Type) := {
  sem_new : Z → S;
  (** [try_acquire_owned]: whether a permit was taken. *)
  sem_try_acquire : S → option S;
  (** Dropping an [OwnedSemaphorePermit]. *)
  sem_release : S → S;
  sem_available : S → Z;
}.

Class SemaphoreLaws (S : Type) `{Semaphore S} : Prop := {
  sem_new_available n : 0 ≤ n → sem_available (sem_new n) = n;
  sem_acquire_some s s' :
    sem_try_acquire s = Some s' → 0 < sem_available s ∧ sem_available s' = sem_available s - 1;
  sem_acquire_none s : sem_try_acquire s = None → sem_available s ≤ 0;
  sem_release_available s : sem_available (sem_release s) = sem_available s + 1;
}.

(** [Semaphore::MAX_PERMITS] is [usize::MAX >> 3]. *)
Definition MAX_PERMITS `{Target} : Z := Z.shiftr usize_max 3.

(** ** tokio::sync::watch, as a cell holding the last value sent *)

Class Watch (W : Type → Type) := {
  watch_channel {A} : A → W A;
  watch_send_replace {A} : W A → A → W A;
  watch_borrow {A} : W A → A;
}.

Class WatchLaws (W : Type → Type) `{Watch W} : Prop := {
  watch_borrow_new {A} (a : A) : watch_borrow (watch_channel a) = a;
  watch_borrow_replace {A} (w : W A) a : watch_borrow (watch_send_replace w a) = a;
}.

(** ** Reference instances *)

#[export] Instance bool_token : CancellationToken bool :=
  { token_new := false; token_cancel _ := true; token_is_cancelled b := b }.
#[export] Instance bool_token_laws : CancellationTokenLaws bool.
Proof. by split. Qed.

Record fifo (T : Type) := {
  fifo_items : list T; fifo_cap : Z; fifo_closed : bool; fifo_senders : nat }.
Arguments fifo_items {T}. Arguments fifo_cap {T}.
Arguments fifo_closed {T}. Arguments fifo_senders {T}.
Arguments Build_fifo {T}.

Definition fifo_with {T} (c : fifo T) (l : list T) : fifo T :=
  Build_fifo l (fifo_cap c) (fifo_closed c) (fifo_senders c).

#[export] Instance fifo_mpsc : Mpsc fifo := {
  mpsc_channel T n := Build_fifo [] n false 1;
  mpsc_try_send T c x :=
    if fifo_closed c then (c, Err (Closed x))
    else if fifo_cap c <=? zlen (fifo_items c) then (c, Err (Full x))
    else (fifo_with c (fifo_items c ++ [x]), Ok ());
  mpsc_poll_send T c x :=
    if fifo_closed c then (c, Ready (Err x))
    else if fifo_cap c <=? zlen (fifo_items c) then (c, Pending)
    else (fifo_with c (fifo_items c ++ [x]), Ready (Ok ()));
  mpsc_try_recv T c :=
    match fifo_items c with
    | x :: xs => (fifo_with c xs, Ok x)
    | [] => (c, Err (if (fifo_senders c =? 0)%nat || fifo_closed c then Disconnected else Empty))
    end;
  mpsc_poll_recv T c :=
    match fifo_items c with
    | x :: xs => (fifo_with c xs, Ready (Some x))
    | [] => (c, if (fifo_senders c =? 0)%nat || fifo_closed c then Ready None else Pending)
    end;
  mpsc_close T c := Build_fifo (fifo_items c) (fifo_cap c) true (fifo_senders c);
  mpsc_drop_receiver T c := Build_fifo [] (fifo_cap c) true (fifo_senders c);
  mpsc_is_closed T c := fifo_closed c;
  mpsc_capacity T c := fifo_cap c - zlen (fifo_items c);
  mpsc_max_capacity T c := fifo_cap c;
  mpsc_clone_sender T c := Build_fifo (fifo_items c) (fifo_cap c) (fifo_closed c) (S (fifo_senders c));
  mpsc_drop_sender T c := Build_fifo (fifo_items c) (fifo_cap c) (fifo_closed c) (pred (fifo_senders c));
  mpsc_items T c := fifo_items c;
  mpsc_senders T c := fifo_senders c;
}.

#[export] Instance fifo_laws : MpscLaws fifo.
Proof.
  split; cbn; try done.
  - intros T c c' x r. destruct (fifo_closed c) eqn:Hc, (fifo_cap c <=? zlen (fifo_items c));
      intros; simplify_eq; cbn; by rewrite ?Hc.
  - intros T c c' x r. destruct (fifo_closed c) eqn:Hc, (fifo_cap c <=? zlen (fifo_items c));
      intros; simplify_eq; cbn; by rewrite ?Hc.
  - intros T c c' r. destruct (fifo_items c) eqn:Hi; intros; simplify_eq; cbn; by rewrite ?Hi.
  - intros T c c' r. destruct (fifo_items c) eqn:Hi; intros; simplify_eq; cbn; by rewrite ?Hi.
Qed.

(** A counting semaphore, as its number of free permits. *)
#[export] Instance Z_semaphore : Semaphore Z := {
  sem_new n := n;
  sem_try_acquire s := if 0 <? s then Some (s - 1) else None;
  sem_release s := s + 1;
  sem_available s := s;
}.
#[export] Instance Z_semaphore_laws : SemaphoreLaws Z.
Proof.
  split; cbn; try done; intros s; destruct (0 <? s) eqn:Hs; bools; intros; simplify_eq; lia.
Qed.

#[export] Instance cell_watch : Watch (λ A, A) :=
  { watch_channel A a := a; watch_send_replace A _ a := a; watch_borrow A a := a }.
#[export] Instance cell_watch_laws : WatchLaws (λ A, A).
Proof. by split. Qed.
