(* ===== verification/Diagnostics.v ===== *)
(** * UDP counters and handles

    Models src/src/protocols/udp/diagnostics.rs: the atomic counters shared by
    the clones of a [UdpConnectionHandle], the drop reasons and what each one
    counts, and the implementation of [TransportHandle]. *)

From S2P Require Import Prelude Protocol Externals.

(** ** Data *)

Inductive UdpDropReason :=
  | UdpOutgoingQueueFull
  | UdpOutgoingQueueEvicted
  | UdpRawQueueFull
  | UdpRawQueueEvicted
  | UdpReceiveQueueFull
  | UdpReceiveQueueEvicted
  | UdpClosedBeforeDelivery
  | UdpOversizedPayload
  | UdpReceiveLimit
  | UdpMalformedPayload
  | UdpSocketSendError.

(** The fields of [Counters], as references: [count_drop] picks one and adds
    to it. *)
Inductive Counter :=
  | sent_data_packets
  | sent_data_bytes
  | received_data_packets
  | received_data_bytes
  | dropped_outgoing_queue_full
  | dropped_outgoing_queue_evicted
  | dropped_raw_queue_full
  | dropped_raw_queue_evicted
  | dropped_receive_queue_full
  | dropped_receive_queue_evicted
  | dropped_closed_before_delivery
  | dropped_oversized_payload
  | dropped_receive_limit
  | dropped_malformed_payload
  | dropped_socket_send_error.

#[export] Instance counter_eq_dec : EqDecision Counter.
Proof. solve_decision. Defined.
#[export] Instance udp_drop_reason_eq_dec : EqDecision UdpDropReason.
Proof. solve_decision. Defined.

(** [struct Counters], fifteen [AtomicU64]s; [UdpStatsSnapshot] is a copy of
    their values, with the same fields. *)
Definition Counters : Type := Counter → Z.
Definition UdpStatsSnapshot : Type := Counter → Z.

(** [#[derive(Default)]]. *)
Definition Counters_default : Counters := λ _, 0.

(** [AtomicU64::fetch_add]. *)
Definition fetch_add (counter : Counter) (n : Z) (c : Counters) : Counters :=
  λ f, if decide (f = counter) then wadd64 (c f) n else c f.

Section Handle.
Context {W : Type → Type} `{Watch W}.

Record UdpConnectionHandle := {
  counters : Counters;
  max_payload_size : Z;
  rate : W (option Z);
}.

Definition UdpConnectionHandle_new (max_payload : Z) (r : option Z) : UdpConnectionHandle :=
  {| counters := Counters_default; max_payload_size := max_payload; rate := watch_channel r |}.

Definition with_counters (h : UdpConnectionHandle) (c : Counters) : UdpConnectionHandle :=
  {| counters := c; max_payload_size := max_payload_size h; rate := rate h |}.

(** Every field loaded. *)
Definition stats (h : UdpConnectionHandle) : UdpStatsSnapshot := λ f, counters h f.

Definition set_send_rate (h : UdpConnectionHandle) (bytes_per_second : option Z)
    : UdpConnectionHandle :=
  {| counters := counters h; max_payload_size := max_payload_size h;
     rate := watch_send_replace (rate h) bytes_per_second |}.

(** The receiver's view of the rate. *)
Definition rate_updates (h : UdpConnectionHandle) : W (option Z) := rate h.

Definition data_sent (bytes : Z) (h : UdpConnectionHandle) : UdpConnectionHandle :=
  with_counters h
    (fetch_add sent_data_bytes bytes (fetch_add sent_data_packets 1 (counters h))).

Definition received (bytes : Z) (h : UdpConnectionHandle) : UdpConnectionHandle :=
  with_counters h
    (fetch_add received_data_bytes bytes (fetch_add received_data_packets 1 (counters h))).

Definition drop_counter (reason : UdpDropReason) : Counter :=
  match reason with
  | UdpOutgoingQueueFull => dropped_outgoing_queue_full
  | UdpOutgoingQueueEvicted => dropped_outgoing_queue_evicted
  | UdpRawQueueFull => dropped_raw_queue_full
  | UdpRawQueueEvicted => dropped_raw_queue_evicted
  | UdpReceiveQueueFull => dropped_receive_queue_full
  | UdpReceiveQueueEvicted => dropped_receive_queue_evicted
  | UdpClosedBeforeDelivery => dropped_closed_before_delivery
  | UdpOversizedPayload => dropped_oversized_payload
  | UdpReceiveLimit => dropped_receive_limit
  | UdpMalformedPayload => dropped_malformed_payload
  | UdpSocketSendError => dropped_socket_send_error
  end.

Definition count_drop (reason : UdpDropReason) (h : UdpConnectionHandle) : UdpConnectionHandle :=
  with_counters h (fetch_add (drop_counter reason) 1 (counters h)).

Definition udp_record_drop (reason : QueueDropReason) (h : UdpConnectionHandle)
    : UdpConnectionHandle :=
  count_drop
    match reason with
    | OutgoingQueueFull => UdpOutgoingQueueFull
    | OutgoingQueueEvicted => UdpOutgoingQueueEvicted
    | ReceiveQueueFull => UdpReceiveQueueFull
    | ReceiveQueueEvicted => UdpReceiveQueueEvicted
    | ClosedBeforeDelivery => UdpClosedBeforeDelivery
    end h.

#[export] Instance udp_transport_handle : TransportHandle UdpConnectionHandle :=
  { record_drop := udp_record_drop }.
End Handle.
Arguments UdpConnectionHandle W : clear implicits.

(** ** Accounting

    The number of drops of each kind an event history contains; [count_all]
    is what recording the history does. *)

Inductive HandleEvent :=
  | EvSent (bytes : Z)
  | EvReceived (bytes : Z)
  | EvDrop (reason : UdpDropReason)
  | EvQueueDrop (reason : QueueDropReason)
  | EvSetRate (bytes_per_second : option Z).

Section Accounting.
Context {W : Type → Type} `{Watch W}.

Definition record_event (e : HandleEvent) (h : UdpConnectionHandle W) : UdpConnectionHandle W :=
  match e with
  | EvSent n => data_sent n h
  | EvReceived n => received n h
  | EvDrop r => count_drop r h
  | EvQueueDrop r => udp_record_drop r h
  | EvSetRate r => set_send_rate h r
  end.

Definition record_events (es : list HandleEvent) (h : UdpConnectionHandle W) :=
  foldl (λ h e, record_event e h) h es.

(** How much one event contributes to one counter. *)
Definition contribution (e : HandleEvent) (c : Counter) : Z :=
  match e, c with
  | EvSent _, sent_data_packets => 1
  | EvSent n, sent_data_bytes => n
  | EvReceived _, received_data_packets => 1
  | EvReceived n, received_data_bytes => n
  | EvDrop UdpOutgoingQueueFull, dropped_outgoing_queue_full => 1
  | EvDrop UdpOutgoingQueueEvicted, dropped_outgoing_queue_evicted => 1
  | EvDrop UdpRawQueueFull, dropped_raw_queue_full => 1
  | EvDrop UdpRawQueueEvicted, dropped_raw_queue_evicted => 1
  | EvDrop UdpReceiveQueueFull, dropped_receive_queue_full => 1
  | EvDrop UdpReceiveQueueEvicted, dropped_receive_queue_evicted => 1
  | EvDrop UdpClosedBeforeDelivery, dropped_closed_before_delivery => 1
  | EvDrop UdpOversizedPayload, dropped_oversized_payload => 1
  | EvDrop UdpReceiveLimit, dropped_receive_limit => 1
  | EvDrop UdpMalformedPayload, dropped_malformed_payload => 1
  | EvDrop UdpSocketSendError, dropped_socket_send_error => 1
  | EvQueueDrop OutgoingQueueFull, dropped_outgoing_queue_full => 1
  | EvQueueDrop OutgoingQueueEvicted, dropped_outgoing_queue_evicted => 1
  | EvQueueDrop ReceiveQueueFull, dropped_receive_queue_full => 1
  | EvQueueDrop ReceiveQueueEvicted, dropped_receive_queue_evicted => 1
  | EvQueueDrop ClosedBeforeDelivery, dropped_closed_before_delivery => 1
  | _, _ => 0
  end.

Definition total (es : list HandleEvent) (c : Counter) : Z :=
  foldr (λ e n, contribution e c + n) 0 es.

(** ** Lemmas *)

Lemma fetch_add_lookup f n c f' :
  fetch_add f n c f' = if decide (f' = f) then (c f' + n) mod u64_modulus else c f'.
Proof. done. Qed.

Lemma record_event_counter e (h : UdpConnectionHandle W) c :
  counters h c = counters h c mod u64_modulus →
  counters (record_event e h) c = (counters h c + contribution e c) mod u64_modulus.
Proof.
  intros Hc. destruct e as [n|n|[]|[]|r], c; cbn; unfold fetch_add; cbn;
    unfold wadd64; rewrite ?Z.add_0_r; done.
Qed.

Lemma record_event_params e (h : UdpConnectionHandle W) :
  max_payload_size (record_event e h) = max_payload_size h.
Proof. by destruct e. Qed.

Lemma count_drop_other reason (h : UdpConnectionHandle W) c :
  c ≠ drop_counter reason → counters (count_drop reason h) c = counters h c.
Proof. intros Hne. cbn. by rewrite fetch_add_lookup, decide_False. Qed.

Lemma count_drop_self reason (h : UdpConnectionHandle W) :
  counters (count_drop reason h) (drop_counter reason) =
    (counters h (drop_counter reason) + 1) mod u64_modulus.
Proof. cbn. by rewrite fetch_add_lookup, decide_True. Qed.

Lemma record_events_counter es (h : UdpConnectionHandle W) c :
  counters h c = counters h c mod u64_modulus →
  counters (record_events es h) c = (counters h c + total es c) mod u64_modulus.
Proof.
  revert h; induction es as [|e es IH]; intros h Hc; [by rewrite Z.add_0_r|].
  change (record_events (e :: es) h) with (record_events es (record_event e h)).
  assert (He := record_event_counter e h c Hc).
  rewrite IH by (rewrite He; by rewrite Z.mod_mod by done).
  rewrite He, Z.add_mod_idemp_l by done. f_equal.
  change (total (e :: es) c) with (contribution e c + total es c). lia.
Qed.

(** ** Properties *)

(** The counters account for every event: after any history on a fresh
    handle, by any of its clones, each counter is exactly the number (or the
    byte total) of its own events, modulo 2^64, and no event touches a
    counter that is not its own. The generic queue drops land on the UDP
    counter of the same name. *)
Theorem counters_account max_payload r es c :
  stats (record_events es (UdpConnectionHandle_new max_payload r)) c =
    total es c mod u64_modulus.
Proof. unfold stats. by rewrite record_events_counter. Qed.

(** The eleven drop reasons count into eleven different counters, none
    of which is a traffic counter. *)
Theorem drop_reasons_distinct reason reason' (h : UdpConnectionHandle W) :
  (stats (count_drop reason h) (drop_counter reason') =
     (if decide (reason = reason') then (stats h (drop_counter reason') + 1) mod u64_modulus
      else stats h (drop_counter reason'))) ∧
  (∀ c, c ∈ [sent_data_packets; sent_data_bytes; received_data_packets; received_data_bytes] →
        stats (count_drop reason h) c = stats h c).
Proof.
  split; [by destruct reason, reason'|].
  intros c Hc. apply count_drop_other. apply list_elem_of_In in Hc. cbn in Hc.
  destruct reason; cbn; intuition congruence.
Qed.
End Accounting.
