(* ===== verification/Settings.v ===== *)
(** * Settings and receive limits

    Models src/src/connection/settings.rs (endpoint overrides and the system
    that applies them), the limits and [MaxPacketSize] of
    src/src/connection/mod.rs, [NetworkQueueSettings] of
    src/src/connection/queue/mod.rs and src/src/protocols/udp/settings.rs. *)

From S2P Require Import Prelude Protocol Lossy Externals.

(** ** Receive limits

    [ReceiveLimits] is an [Arc<AtomicUsize>]: [AtomicCells] is the store of
    those cells, and a [ReceiveLimits] value the address of one. *)

Abbreviation AtomicCells := (gmap nat Z).

Record ReceiveLimits := { limit_cell : nat }.

Definition ReceiveLimits_new (max_packet_size : Z) (cells : AtomicCells)
    : ReceiveLimits * AtomicCells :=
  let l := fresh (dom cells) in ({| limit_cell := l |}, <[l := max_packet_size]> cells).

(** [impl Default for ReceiveLimits]. *)
Definition ReceiveLimits_default `{Target} (cells : AtomicCells) : ReceiveLimits * AtomicCells :=
  ReceiveLimits_new usize_max cells.

Definition max_packet_size (l : ReceiveLimits) (cells : AtomicCells) : option Z :=
  cells !! limit_cell l.

Definition set_max_packet_size (l : ReceiveLimits) (n : Z) (cells : AtomicCells) : AtomicCells :=
  <[limit_cell l := n]> cells.

(** The resource [MaxPacketSize(usize)]. *)
Record MaxPacketSize := { max_packet_bytes : Z }.

(** [MaxPacketSize::set_system]. *)
Definition set_system `{Target} (max : option MaxPacketSize) (limits : ReceiveLimits)
    (cells : AtomicCells) : AtomicCells :=
  set_max_packet_size limits (from_option max_packet_bytes usize_max max) cells.

(** ** Queue settings *)

Record NetworkQueueSettings := {
  send_capacity : Z;
  receive_capacity : Z;
  events_per_frame : Z;
  datagram_send_overflow : OverflowPolicy;
  datagram_receive_overflow : OverflowPolicy;
}.

Definition NetworkQueueSettings_default : NetworkQueueSettings := {|
  send_capacity := 1024;
  receive_capacity := 4096;
  events_per_frame := 256;
  datagram_send_overflow := DropNewest;
  datagram_receive_overflow := DropNewest;
|}.

(** ** Endpoint overrides *)

Record NetworkSettings := {
  queues : option NetworkQueueSettings;
  max_size : option Z;
}.

Definition NetworkSettings_default : NetworkSettings := {| queues := None; max_size := None |}.

Definition with_queues (s : NetworkSettings) (q : NetworkQueueSettings) : NetworkSettings :=
  {| queues := Some q; max_size := max_size s |}.

Definition with_max_packet_size (s : NetworkSettings) (n : Z) : NetworkSettings :=
  {| queues := queues s; max_size := Some n |}.

(** Rust's [Option::or]. *)
Definition option_or {A} (x y : option A) : option A :=
  match x with Some a => Some a | None => y end.

Definition resolve_queues (settings : option NetworkSettings) (global : option NetworkQueueSettings)
    : NetworkQueueSettings :=
  default NetworkQueueSettings_default (option_or (settings ≫= queues) global).

(** [EndpointReceiveLimits] holds the endpoint's own limits. *)
Record EndpointReceiveLimits := { limits : ReceiveLimits }.

Definition EndpointReceiveLimits_default `{Target} (cells : AtomicCells)
    : EndpointReceiveLimits * AtomicCells :=
  let '(l, cells) := ReceiveLimits_default cells in ({| limits := l |}, cells).

Definition sync_limits `{Target} (settings : option NetworkSettings) (global : option MaxPacketSize)
    (ep : EndpointReceiveLimits) (cells : AtomicCells) : AtomicCells :=
  set_max_packet_size (limits ep)
    (default usize_max (option_or (settings ≫= max_size) (max_packet_bytes <$> global))) cells.

(** [warning_system]: whether the warning is logged. *)
Definition warning_system (settings : option NetworkSettings) (global : option MaxPacketSize) : bool :=
  bool_decide (settings ≫= max_size = None) && bool_decide (max_packet_bytes <$> global = None).

(** [EndpointSetup]: what the setup of one endpoint reads. *)
Record EndpointSetup := {
  global_queues : option NetworkQueueSettings;
  settings : option NetworkSettings;
  endpoint_limits : EndpointReceiveLimits;
}.

Definition setup_queues (e : EndpointSetup) : NetworkQueueSettings :=
  resolve_queues (settings e) (global_queues e).

Definition setup_receive_limits (e : EndpointSetup) : ReceiveLimits := limits (endpoint_limits e).

(** ** UDP options *)

(** [BUFFER_SIZE] is [u16::MAX as usize]. *)
Definition BUFFER_SIZE : Z := 65535.
Definition MAX_DATAGRAM_SIZE : Z := 65507.

Record UdpOptions := {
  max_peers : Z;
  max_datagram_size : Z;
  receive_queue_capacity : Z;
  receive_queue_bytes : Z;
  receive_queue_overflow : OverflowPolicy;
  send_rate : option Z;
}.

Definition options_max_payload_size (o : UdpOptions) : option Z :=
  if MAX_DATAGRAM_SIZE <? max_datagram_size o then None else Some (max_datagram_size o).

Definition UdpOptions_DEFAULT : UdpOptions := {|
  max_peers := 1024;
  max_datagram_size := 1200;
  receive_queue_capacity := 1024;
  receive_queue_bytes := Z.shiftl 1 20;
  receive_queue_overflow := DropNewest;
  send_rate := None;
|}.

(** [ValidatedOptions(UdpOptions)], with its private constructor. *)
Record ValidatedOptions := { validated : UdpOptions }.

Definition ValidatedOptions_new `{Target} (o : UdpOptions) : result ValidatedOptions io_error :=
  if bool_decide (options_max_payload_size o = None) || (MAX_PERMITS <? max_peers o)
  then Err {| kind := InvalidInput; message := "invalid UDP transport settings" |}
  else Ok {| validated := o |}.

Definition validated_max_payload_size (v : ValidatedOptions) : Z := max_datagram_size (validated v).

(** The field types of the options: [usize] and [NonZeroU64]. *)
Definition options_typed `{Target} (o : UdpOptions) : Prop :=
  0 ≤ max_peers o ≤ usize_max ∧ 0 ≤ max_datagram_size o ≤ usize_max ∧
  0 ≤ receive_queue_capacity o ≤ usize_max ∧ 0 ≤ receive_queue_bytes o ≤ usize_max ∧
  from_option (λ r, 0 < r ≤ u64_max) True (send_rate o).

(** ** Lemmas *)

Lemma MAX_PERMITS_bound `{Target} : 2 ^ 29 - 1 ≤ MAX_PERMITS ≤ usize_max.
Proof.
  unfold MAX_PERMITS. rewrite Z.shiftr_div_pow2 by lia. pose proof usize_max_ge.
  change (2 ^ 3) with 8. split; [apply Z.div_le_lower_bound; lia | apply Z.div_le_upper_bound; lia].
Qed.

Lemma ValidatedOptions_new_ok `{Target} o v :
  ValidatedOptions_new o = Ok v ↔
    validated v = o ∧ max_datagram_size o ≤ MAX_DATAGRAM_SIZE ∧ max_peers o ≤ MAX_PERMITS.
Proof.
  unfold ValidatedOptions_new, options_max_payload_size.
  destruct (MAX_DATAGRAM_SIZE <? max_datagram_size o) eqn:Hd,
    (MAX_PERMITS <? max_peers o) eqn:Hp; bools; cbn;
    (split; [intros; simplify_eq; cbn; split_and!; done || lia|]);
    intros (Hv & ? & ?); try lia. destruct v as [o']; cbn in Hv; by subst o'.
Qed.

Lemma sync_limits_reads `{Target} s g ep cells :
  max_packet_size (limits ep) (sync_limits s g ep cells) =
    Some (default usize_max (option_or (s ≫= max_size) (max_packet_bytes <$> g))).
Proof. unfold max_packet_size, sync_limits, set_max_packet_size. by rewrite lookup_insert_eq. Qed.

Lemma sync_limits_other `{Target} s g ep l cells :
  l ≠ limits ep → max_packet_size l (sync_limits s g ep cells) = max_packet_size l cells.
Proof.
  intros Hne. unfold max_packet_size, sync_limits, set_max_packet_size.
  rewrite lookup_insert_ne; [done|]. contradict Hne.
  destruct l, (limits ep); cbn in *; congruence.
Qed.

(** ** Properties *)

(** An endpoint's settings are resolved field by field, most specific
    first: its own override, then the app-wide resource, then the library
    default. Applying the receive limit writes the endpoint's own cell and no
    other endpoint's; the missing-limit warning is logged exactly when the
    limit falls back to unlimited for want of any setting. *)
Theorem settings_precedence `{Target} (s : option NetworkSettings)
    (gq : option NetworkQueueSettings) (gm : option MaxPacketSize)
    (ep : EndpointReceiveLimits) (cells : AtomicCells) :
  (resolve_queues s gq =
     match s ≫= queues, gq with
     | Some q, _ => q | None, Some q => q | None, None => NetworkQueueSettings_default end) ∧
  (max_packet_size (limits ep) (sync_limits s gm ep cells) =
     Some match s ≫= max_size, gm with
          | Some n, _ => n | None, Some g => max_packet_bytes g | None, None => usize_max end) ∧
  (∀ l, l ≠ limits ep → max_packet_size l (sync_limits s gm ep cells) = max_packet_size l cells) ∧
  (warning_system s gm = true ↔ s ≫= max_size = None ∧ gm = None).
Proof.
  split_and!.
  - unfold resolve_queues, option_or. by destruct (s ≫= queues), gq.
  - rewrite sync_limits_reads. unfold option_or. by destruct (s ≫= max_size), gm.
  - intros l. apply sync_limits_other.
  - unfold warning_system. rewrite andb_true_iff, !bool_decide_eq_true.
    by rewrite fmap_None.
Qed.

(** Validation accepts exactly the UDP options whose datagrams fit UDP and
    whose peer limit fits a semaphore, with any queue sizes; it never alters
    them, so a validated configuration's payload limit is at most 65,507
    bytes, and the defaults are valid on every target. *)
Theorem validated_options_bounds `{Target} (o : UdpOptions) :
  (∀ v, ValidatedOptions_new o = Ok v →
        validated v = o ∧ validated_max_payload_size v ≤ MAX_DATAGRAM_SIZE ∧
        MAX_DATAGRAM_SIZE < BUFFER_SIZE ∧ max_peers o ≤ usize_max) ∧
  (∀ e, ValidatedOptions_new o = Err e ↔
        (MAX_DATAGRAM_SIZE < max_datagram_size o ∨ MAX_PERMITS < max_peers o) ∧
        e = {| kind := InvalidInput; message := "invalid UDP transport settings" |}) ∧
  is_ok (ValidatedOptions_new UdpOptions_DEFAULT) = true.
Proof.
  pose proof MAX_PERMITS_bound. split_and!.
  - intros v [Hv []]%ValidatedOptions_new_ok. unfold validated_max_payload_size. rewrite Hv.
    split_and!; [done|done|done|lia].
  - intros e. unfold ValidatedOptions_new, options_max_payload_size.
    destruct (MAX_DATAGRAM_SIZE <? max_datagram_size o) eqn:Hd,
      (MAX_PERMITS <? max_peers o) eqn:Hp; bools; cbn;
      (split; [intros; simplify_eq | intros [[|] ->]; done || lia]);
      (split; [lia | done]).
  - destruct (ValidatedOptions_new UdpOptions_DEFAULT) eqn:Hv; [done|].
    unfold ValidatedOptions_new in Hv.
    change (max_peers UdpOptions_DEFAULT) with 1024 in Hv.
    rewrite (proj2 (Z.ltb_ge MAX_PERMITS 1024)) in Hv by lia. done.
Qed.
