(* ===== verification/Queue.v ===== *)
(** * Outgoing queues, drop accounting and packet forwarding

    Models src/src/connection/queue/mod.rs: the transport-specific outgoing
    queue between ECS and a connection's writer (a tokio channel for streams, a
    lossy queue for datagrams), what is counted when a packet does not get
    through, and the forwarding of decoded packets to ECS. *)

From S2P Require Import Prelude Protocol Lossy Externals Settings.

Section Outgoing.
Context `{Target} {Ch : Type → Type} `{Mpsc Ch}.
Context {Hd : Type} `{TransportHandle Hd}.
Context {T : Type}.

(** The queue shared by the [OutgoingSender]s and the [OutgoingReceiver]:
    [OutgoingSenderInner] and [OutgoingReceiverInner] have the same two
    cases, on the two ends of the same channel. *)
Inductive Outgoing :=
  | Reliable (c : Ch T)
  | LossyQ (q : Shared T).

(** [impl Clone for OutgoingSender] and the drop of a sender's inner handle. *)
Definition sender_clone (q : Outgoing) : Outgoing :=
  match q with
  | Reliable c => Reliable (mpsc_clone_sender c)
  | LossyQ sh => LossyQ (clone_sender sh)
  end.

Definition sender_drop (q : Outgoing) : Outgoing :=
  match q with
  | Reliable c => Reliable (mpsc_drop_sender c)
  | LossyQ sh => LossyQ (fst (drop_sender sh))
  end.

Definition sender_is_closed (q : Outgoing) : bool :=
  match q with
  | Reliable c => mpsc_is_closed c
  | LossyQ sh => is_closed sh
  end.

Definition sender_snapshot (q : Outgoing) : QueueSnapshot :=
  match q with
  | Reliable c =>
      {| queued := wsub (mpsc_max_capacity c) (mpsc_capacity c); capacity := mpsc_max_capacity c |}
  | LossyQ sh => snapshot sh
  end.

Definition sender_try_send (q : Outgoing) (packet : T) (transport : Hd)
    : Outgoing * Hd * result () (SendError T) :=
  let '(q, transport, res) :=
    match q with
    | Reliable c =>
        let '(c, r) := mpsc_try_send c packet in (Reliable c, transport, r)
    | LossyQ sh =>
        let '(sh, _, r) := try_send sh packet 1 in
        match r with
        | Ok evicted => (LossyQ sh, record_drops OutgoingQueueEvicted evicted transport, Ok ())
        | Err err => (LossyQ sh, transport, Err err)
        end
    end in
  match res with
  | Ok u => (q, transport, Ok u)
  | Err (Full packet) => (q, record_drop OutgoingQueueFull transport, Err (SendFull packet))
  | Err (Closed packet) => (q, transport, Err (SendClosed packet))
  end.

(** ** The receiving end

    [transport_set] is whether [set_transport] has been called. *)

Record OutgoingReceiver := { transport_set : bool }.

(** [impl From<Receiver<T>>], [outgoing_channel]'s receivers, and
    [set_transport]. *)
Definition receiver_new : OutgoingReceiver := {| transport_set := false |}.
Definition set_transport (r : OutgoingReceiver) : OutgoingReceiver := {| transport_set := true |}.

(** One poll of [recv]. *)
Definition receiver_poll_recv (q : Outgoing) : Outgoing * Poll (option T) :=
  match q with
  | Reliable c => let '(c, p) := mpsc_poll_recv c in (Reliable c, p)
  | LossyQ sh => let '(sh, _, p) := recv_attempt sh in (LossyQ sh, p)
  end.

(** [while rx.try_recv().is_ok() { record_drop(ClosedBeforeDelivery) }]. *)
Fixpoint drain_loop (fuel : nat) (c : Ch T) (transport : Hd) : Ch T * Hd :=
  match fuel with
  | O => (c, transport)
  | S fuel =>
      match mpsc_try_recv c with
      | (c, Ok _) => drain_loop fuel c (record_drop ClosedBeforeDelivery transport)
      | (c, Err _) => (c, transport)
      end
  end.

(** [impl Drop for OutgoingReceiver], then the drop of its inner receiver.
    The closed channel's own length bounds its loop. *)
Definition receiver_drop (r : OutgoingReceiver) (q : Outgoing) (transport : Hd) : Outgoing * Hd :=
  let '(q, transport) :=
    if negb (transport_set r) then (q, transport)
    else
      match q with
      | Reliable c =>
          let c := mpsc_close c in
          let '(c, transport) := drain_loop (S (length (mpsc_items c))) c transport in
          (Reliable c, transport)
      | LossyQ sh =>
          let '(sh, _, pending) := close_and_drain sh in
          (LossyQ sh, record_drops ClosedBeforeDelivery pending transport)
      end in
  match q with
  | Reliable c => (Reliable (mpsc_drop_receiver c), transport)
  | LossyQ sh => let '(sh, _, _) := close_and_drain sh in (LossyQ sh, transport)
  end.

(** ** Channel construction ([NetworkQueueSettings]) *)

Definition outgoing_channel (s : NetworkQueueSettings) (datagram : bool)
    : Outgoing * OutgoingReceiver :=
  if datagram
  then (LossyQ (lossy_channel (Z.max (send_capacity s) 1) usize_max (datagram_send_overflow s)),
        receiver_new)
  else (Reliable (mpsc_channel (Z.max (send_capacity s) 1)), receiver_new).

Definition incoming_channel (s : NetworkQueueSettings) : Ch T :=
  mpsc_channel (Z.max (receive_capacity s) 1).

(** ** What happens to each submitted packet *)

Inductive fate :=
  | ReturnedFull | ReturnedClosed | Evicted | Discarded | Delivered.

Definition fate_reason (f : fate) : option QueueDropReason :=
  match f with
  | ReturnedFull => Some OutgoingQueueFull
  | Evicted => Some OutgoingQueueEvicted
  | Discarded => Some ClosedBeforeDelivery
  | ReturnedClosed | Delivered => None
  end.

Definition queue_items (q : Outgoing) : list T :=
  match q with Reliable c => mpsc_items c | LossyQ sh => (items (state sh)).*1 end.

Inductive out_op := OutSend (packet : T) | OutRecv | OutDropReceiver.

Definition submitted (o : out_op) : list T :=
  match o with OutSend p => [p] | _ => [] end.

(** The packets an accepted submission pushes out of the queue. *)
Definition evicted_by (q : Outgoing) (packet : T) : list T :=
  match q with
  | Reliable _ => []
  | LossyQ sh => match try_send sh packet 1 with (_, _, Ok evicted) => evicted | _ => [] end
  end.

Definition out_step (q : Outgoing) (r : OutgoingReceiver) (h : Hd) (o : out_op)
    : Outgoing * Hd * list (T * fate) :=
  match o with
  | OutSend p =>
      let '(q', h', res) := sender_try_send q p h in
      (q', h', match res with
               | Ok _ => (λ x, (x, Evicted)) <$> evicted_by q p
               | Err (SendFull x) => [(x, ReturnedFull)]
               | Err (SendClosed x) => [(x, ReturnedClosed)]
               end)
  | OutRecv =>
      let '(q', p) := receiver_poll_recv q in
      (q', h, match p with Ready (Some x) => [(x, Delivered)] | _ => [] end)
  | OutDropReceiver =>
      let '(q', h') := receiver_drop r q h in
      (q', h', (λ x, (x, Discarded)) <$> queue_items q)
  end.

Fixpoint out_run (q : Outgoing) (r : OutgoingReceiver) (h : Hd) (os : list out_op)
    : Outgoing * Hd * list (T * fate) :=
  match os with
  | [] => (q, h, [])
  | o :: os =>
      let '(q, h, fs) := out_step q r h o in
      let '(q, h, fs') := out_run q r h os in
      (q, h, fs ++ fs')
  end.

Fixpoint record_fates (fs : list (T * fate)) (h : Hd) : Hd :=
  match fs with
  | [] => h
  | (_, f) :: fs =>
      record_fates fs (match fate_reason f with Some r => record_drop r h | None => h end)
  end.

Definition outgoing_wf (q : Outgoing) : Prop :=
  match q with
  | Reliable _ => True
  | LossyQ sh => wf sh ∧ 1 ≤ max_bytes sh
  end.
End Outgoing.
Arguments Outgoing : clear implicits.
Arguments out_op : clear implicits.
Arguments Reliable {Ch T}. Arguments LossyQ {Ch T}.

Section OutgoingLemmas.
Context `{Target} {Ch : Type → Type} `{MpscLaws Ch}.
Context {Hd : Type} `{TransportHandle Hd} {T : Type}.
Implicit Types (q : Outgoing Ch T) (h : Hd).

Lemma record_fates_app (fs1 fs2 : list (T * fate)) h :
  record_fates (fs1 ++ fs2) h = record_fates fs2 (record_fates fs1 h).
Proof. revert h; induction fs1 as [|[x f] fs1 IH]; intros h; [done|]. apply IH. Qed.

Lemma record_fates_uniform (f : fate) r (l : list T) h :
  fate_reason f = Some r → record_fates ((λ x, (x, f)) <$> l) h = record_drops r l h.
Proof.
  intros Hf. revert h; induction l as [|x l IH]; intros h; [done|].
  cbn. rewrite Hf. apply IH.
Qed.

Lemma fates_items (f : fate) (l : list T) : ((λ x, (x, f)) <$> l).*1 = l.
Proof. rewrite <- list_fmap_compose. by apply list_fmap_id. Qed.

Lemma drain_loop_all fuel (c : Ch T) h :
  mpsc_is_closed c = true → (length (mpsc_items c) < fuel)%nat →
  ∃ c', drain_loop fuel c h = (c', record_drops ClosedBeforeDelivery (mpsc_items c) h).
Proof.
  revert c h; induction fuel as [|fuel IH]; intros c h Hc Hf; [lia|].
  cbn. destruct (mpsc_try_recv c) as [c' r] eqn:Hr.
  apply mpsc_try_recv_view in Hr as (Hc' & _ & _ & Hv).
  destruct (mpsc_items c) as [|x xs].
  - destruct Hv as [_ ->]. by eexists.
  - destruct Hv as [-> Hxs]. cbn in Hf. rewrite <- Hxs in *.
    apply IH; [congruence | lia].
Qed.

Lemma outgoing_channel_wf s datagram :
  send_capacity s ≤ usize_max → outgoing_wf (Ch:=Ch) (T:=T) (fst (outgoing_channel s datagram)).
Proof.
  intros Hs. unfold outgoing_channel. destruct datagram; [|done]. cbn.
  pose proof usize_max_ge. split; [|lia]. apply lossy_channel_wf; lia.
Qed.

(** One step: nothing appears or disappears, and every loss is recorded. *)
Lemma out_step_conserves q h o :
  outgoing_wf q →
  let '(q', h', fs) := out_step q {| transport_set := true |} h o in
  outgoing_wf q' ∧ h' = record_fates fs h ∧
  queue_items q ++ submitted o ≡ₚ fs.*1 ++ queue_items q'.
Proof.
  intros Hwf. destruct o as [p| |]; cbn [out_step submitted].
  - unfold sender_try_send. destruct q as [c|sh].
    + destruct (mpsc_try_send c p) as [c' r] eqn:Hs.
      apply mpsc_try_send_view in Hs as (_ & _ & _ & Hs).
      destruct (mpsc_is_closed c); [|destruct (_ <=? _)];
        destruct Hs as [-> Hi]; cbn; rewrite ?Hi; split_and!; try done;
        by rewrite Permutation_app_comm.
    + destruct Hwf as [Hwf Hmb]. unfold evicted_by, try_send.
      destruct (try_send_where sh p 1 _) as [[sh' sg] r] eqn:Hs.
      pose proof (run_op_wf sh (OpTrySend p 1 (λ _, true)) Hwf) as Hwf'.
      pose proof (run_op_limits sh (OpTrySend p 1 (λ _, true)) Hwf) as Hlim.
      pose proof (run_op_fifo sh (OpTrySend p 1 (λ _, true)) Hwf) as Hfifo.
      cbn [run_op op_ok] in *. rewrite Hs in *. cbn in Hwf', Hlim, Hfifo.
      pose proof usize_max_ge.
      specialize (Hwf' ltac:(lia)). specialize (Hlim ltac:(lia)). specialize (Hfifo ltac:(lia)).
      assert (Hmb' : 1 ≤ max_bytes sh') by lia.
      apply try_send_where_step in Hs; [|done|lia].
      destruct r as [ev|e]; cbn in *.
      * split_and!; try done; [by erewrite record_fates_uniform|].
        by rewrite fates_items, Hfifo.
      * destruct Hs as (-> & _ & ->). destruct (receiver_open _); cbn;
          split_and!; try done; by rewrite Permutation_app_comm.
  - destruct q as [c|sh]; cbn [receiver_poll_recv].
    + destruct (mpsc_poll_recv c) as [c' p] eqn:Hp.
      apply mpsc_poll_recv_view in Hp as (_ & _ & _ & Hp). rewrite app_nil_r. cbn.
      destruct (mpsc_items c) as [|x xs].
      * destruct Hp as [Hi ->]. rewrite Hi. by destruct (_ || _).
      * destruct Hp as [-> ->]. done.
    + destruct Hwf as [Hwf Hmb]. rewrite app_nil_r. unfold recv_attempt, try_recv.
      rewrite try_recv_if_form by done. cbn [queue_items].
      pose proof (run_op_wf sh (OpTryRecv (λ _, true)) Hwf I) as Hwf'.
      cbn [run_op] in Hwf'. rewrite try_recv_if_form in Hwf' by done.
      destruct (items (state sh)) as [|[x b] rest] eqn:Hi; cbn in *.
      * destruct (_ || _); cbn; rewrite Hi; done.
      * done.
  - rewrite app_nil_r. unfold receiver_drop. cbn [negb transport_set].
    destruct q as [c|sh].
    + destruct (mpsc_close_view c) as (Hc & Hi & _ & _).
      destruct (drain_loop_all (S (length (mpsc_items (mpsc_close c)))) (mpsc_close c) h Hc)
        as [c' Hd']; [lia|].
      rewrite Hd', Hi. destruct (mpsc_drop_receiver_view c') as [_ Hn]. cbn.
      rewrite Hn, app_nil_r, fates_items.
      split_and!; [done|by erewrite record_fates_uniform|done].
    + destruct Hwf as [Hwf Hmb].
      pose proof (run_op_wf sh OpCloseAndDrain Hwf I) as Hwf'. cbn in Hwf'. cbn.
      rewrite app_nil_r, fates_items.
      split_and!; try done. by erewrite record_fates_uniform.
Qed.

Lemma out_run_conserves q h os :
  outgoing_wf q →
  let '(q', h', fs) := out_run q {| transport_set := true |} h os in
  h' = record_fates fs h ∧ queue_items q ++ mjoin (submitted <$> os) ≡ₚ fs.*1 ++ queue_items q'.
Proof.
  revert q h; induction os as [|o os IH]; intros q h Hwf; cbn [out_run].
  { cbn. by rewrite app_nil_r. }
  pose proof (out_step_conserves q h o Hwf) as Hs.
  destruct (out_step q _ h o) as [[q1 h1] fs1]. destruct Hs as (Hwf1 & -> & Hp).
  specialize (IH q1 (record_fates fs1 h) Hwf1).
  destruct (out_run q1 _ _ os) as [[q2 h2] fs2]. destruct IH as [-> Hp2].
  split; [by rewrite record_fates_app|].
  cbn. rewrite fmap_app, <- app_assoc, <- Hp2, !app_assoc. by rewrite Hp.
Qed.
End OutgoingLemmas.

(** ** Forwarding decoded packets

    [PacketForwarder::forward]. [store] is the state of every connection's
    transport handle: [on_evict] records on the handle of the discarded
    packet's connection, [record_full] on the forwarder's own. *)

Section Forwarder.
Context `{Target} {L : Type} `{CancellationToken L}.
Context {T store : Type}.
Variable on_evict : T → store → store.
Variable record_full : store → store.

(** [evicted.into_iter().for_each(on_evict)]. *)
Fixpoint for_each_evicted (evicted : list T) (st : store) : store :=
  match evicted with
  | [] => st
  | x :: evicted => for_each_evicted evicted (on_evict x st)
  end.

(** The stream branch, a biased [select!] of cancellation and [send]. Each
    element of [waits] is the token and the queue's change by the time the
    task is polled again. *)
Fixpoint forward_wait (sh : Shared T) (cancel : L) (packet : T)
    (waits : list (L * (Shared T → Shared T))) : Shared T * Poll bool :=
  if token_is_cancelled cancel then (sh, Ready false)
  else
    match send_attempt sh packet 1 with
    | (sh, _, Ready r) => (sh, Ready (is_ok r))
    | (sh, _, Pending) =>
        match waits with
        | [] => (sh, Pending)
        | (cancel, others) :: waits => forward_wait (others sh) cancel packet waits
        end
    end.

Definition forward (datagram : bool) (sh : Shared T) (cancel : L) (packet : T) (st : store)
    (waits : list (L * (Shared T → Shared T))) : Shared T * store * Poll bool :=
  if datagram then
    match try_send sh packet 1 with
    | (sh, _, Ok evicted) => (sh, for_each_evicted evicted st, Ready true)
    | (sh, _, Err (Closed _)) => (sh, st, Ready false)
    | (sh, _, Err (Full _)) => (sh, record_full st, Ready true)
    end
  else if token_is_cancelled cancel then (sh, st, Ready false)
  else if (max_items sh =? 0) || (max_bytes sh <? 1) then (sh, st, Ready false)
  else let '(sh, r) := forward_wait sh cancel packet waits in (sh, st, r).
End Forwarder.

(** ** Properties *)

(** C34. Every packet submitted to a connection is accounted for, on stream and
    on datagram connections alike: after any sequence of sends, receives and
    drops of the receiver, the submitted packets are, as a multiset, those
    handed back ([Full] or [Closed]), evicted, delivered to the writer,
    discarded on close, or still queued; and what the transport handle has
    recorded is exactly one drop of the matching reason for each packet that
    was accepted or offered and did not get through. *)
Theorem outgoing_accounting `{Target} {Ch} `{MpscLaws Ch} {Hd} `{TransportHandle Hd} {T}
    (s : NetworkQueueSettings) (datagram : bool) (h : Hd) (os : list (out_op T)) :
  send_capacity s ≤ usize_max →
  let '(q, r) := outgoing_channel (Ch:=Ch) s datagram in
  let '(q', h', fates) := out_run q (set_transport r) h os in
  h' = record_fates fates h ∧
  mjoin (submitted <$> os) ≡ₚ fates.*1 ++ queue_items q'.
Proof.
  intros Hs. pose proof (outgoing_channel_wf (Ch:=Ch) (T:=T) s datagram Hs) as Hwf.
  assert (Hi : queue_items (fst (outgoing_channel (Ch:=Ch) (T:=T) s datagram)) = []).
  { destruct datagram; [done|]. cbn. apply mpsc_channel_view. lia. }
  destruct (outgoing_channel s datagram) as [q r]. cbn in *. unfold set_transport.
  pose proof (out_run_conserves q h os Hwf) as Hrun.
  destruct (out_run q _ h os) as [[q' h'] fs]. by rewrite Hi in Hrun.
Qed.

(** The handle that keeps the list of what was recorded. *)
#[export] Instance log_handle : TransportHandle (list QueueDropReason) :=
  { record_drop r l := l ++ [r] }.

Definition example_settings : NetworkQueueSettings := {|
  send_capacity := 2; receive_capacity := 2; events_per_frame := 1;
  datagram_send_overflow := DropOldest; datagram_receive_overflow := DropNewest |}.

Definition example_out_ops : list (out_op Z) :=
  [OutSend 1; OutSend 2; OutSend 3; OutRecv; OutDropReceiver; OutSend 4].

Example example_out_fates :
  (out_run (Ch:=fifo) (fst (outgoing_channel example_settings true))
     (set_transport receiver_new) (@nil QueueDropReason) example_out_ops).2 =
  [(1, Evicted); (2, Delivered); (3, Discarded); (4, ReturnedClosed)].
Proof. by vm_compute. Qed.

Lemma outgoing_accounting_witness :
  send_capacity example_settings ≤ usize_max ∧
  let '(q, r) := outgoing_channel (Ch:=fifo) example_settings true in
  let '(q', h', fates) := out_run q (set_transport r) (@nil QueueDropReason) example_out_ops in
  h' = record_fates fates [] ∧ mjoin (submitted <$> example_out_ops) ≡ₚ fates.*1 ++ queue_items q'.
Proof.
  assert (Hs : send_capacity example_settings ≤ usize_max) by (apply Z.leb_le; by vm_compute).
  split; [exact Hs|].
  exact (outgoing_accounting (Ch:=fifo) example_settings true (@nil QueueDropReason)
           example_out_ops Hs).
Defined.

(** Forwarding on a datagram connection never waits and never stops because
    of overflow: it answers [false] exactly when the receiver is gone. An
    accepted packet is last in the queue and each packet it pushed out is
    recorded on its own connection; a rejected one changes nothing but the
    forwarder's own [ReceiveQueueFull] count. *)
Theorem forward_datagram_outcome `{Target} {L} `{CancellationToken L} {T store}
    (on_evict : T → store → store) (record_full : store → store)
    (sh : Shared T) (cancel : L) (packet : T) (st : store) waits :
  wf sh →
  let '(sh', st', r) := forward on_evict record_full true sh cancel packet st waits in
  r = Ready (receiver_open (state sh)) ∧
  (receiver_open (state sh) = false → sh' = sh ∧ st' = st) ∧
  (receiver_open (state sh) = true →
     (sh' = sh ∧ st' = record_full st) ∨
     (∃ evicted kept, (items (state sh)).*1 = evicted ++ kept ∧
        (items (state sh')).*1 = kept ++ [packet] ∧
        st' = for_each_evicted on_evict evicted st)).
Proof.
  intros Hwf. unfold forward, try_send.
  destruct (try_send_where sh packet 1 _) as [[sh' sg] r] eqn:Hs.
  apply try_send_where_step in Hs; [|done|lia].
  destruct r as [evicted|e].
  - destruct Hs as (k & _ & -> & -> & _ & -> & _ & _).
    split_and!; [done|done|]. intros _. right.
    exists ((take k (items (state sh))).*1), ((drop k (items (state sh))).*1).
    cbn. by rewrite <- fmap_app, take_drop, fmap_app.
  - destruct Hs as (-> & _ & ->). destruct (receiver_open _); cbn; split_and!; try done.
    intros _. by left.
Qed.

Lemma forward_datagram_outcome_witness :
  wf (T:=Z) (lossy_channel 1 usize_max DropNewest) ∧
  let '(sh', st', r) :=
    forward (L:=bool) (λ x st, st ++ [x]) (λ st, st ++ [0]) true
      (lossy_channel 1 usize_max DropNewest) false 7 [] [] in
  r = Ready true ∧
  (true = false → sh' = lossy_channel 1 usize_max DropNewest ∧ st' = []) ∧
  (true = true →
     (sh' = lossy_channel 1 usize_max DropNewest ∧ st' = [] ++ [0]) ∨
     (∃ evicted kept, [] = evicted ++ kept ∧ (items (state sh')).*1 = kept ++ [7] ∧
        st' = for_each_evicted (λ x st, st ++ [x]) evicted [])).
Proof.
  assert (Hwf : wf (T:=Z) (lossy_channel 1 usize_max DropNewest)).
  { apply lossy_channel_wf; (split; apply Z.leb_le; by vm_compute). }
  split; [exact Hwf|].
  exact (forward_datagram_outcome (L:=bool) (λ x st, st ++ [x]) (λ st, st ++ [0])
    (lossy_channel 1 usize_max DropNewest) false 7 [] [] Hwf).
Defined.
