(* ===== verification/Serializer.v ===== *)
(** * Packet serializers

    Models src/src/serializers/serializer.rs (the three serializer traits as
    classes and [SerializerAdapter]), the four codec wrappers
    src/src/serializers/{bitcode,bitcode_serde,bincode,bincode_serde}.rs over
    their third-party codecs, and the contracts between two peers: [SerializerPair],
    [DatagramPair], and [SharedSerializer] for serializers that both tasks of an end
    use. *)

From S2P Require Import Prelude.

(** ** Panics

    User codecs may panic, and a poisoned lock does: a call either returns or
    unwinds. *)

Inductive outcome (A : Type) : Type :=
  | Returns (a : A)
  | Panics.
Arguments Returns {A} a.
Arguments Panics {A}.

(** [Display]: how errors enter messages. *)
Class Display (E : Type) := display : E → string.

(** ** The traits

    [Rp] is the receiving packet type and [Sp] the sending one. A serializer is
    shared by the tasks of a connection, so the operations thread its state;
    the trait's [&self] of a read-only codec has none. *)

Class Serializer (S Rp Sp : Type) := {
  EncodeError : Type;
  DecodeError : Type;
  display_encode :: Display EncodeError;
  serialize : Sp → S → S * outcome (result (list Z) EncodeError);
  deserialize : list Z → S → S * outcome (result Rp DecodeError);
}.

Class ReadOnlySerializer (S Rp Sp EncErr DecErr : Type) := {
  ro_serialize : S → Sp → outcome (result (list Z) EncErr);
  ro_deserialize : S → list Z → outcome (result Rp DecErr);
}.

Class MutableSerializer (S Rp Sp EncErr DecErr : Type) := {
  mut_serialize : Sp → S → S * outcome (result (list Z) EncErr);
  mut_deserialize : list Z → S → S * outcome (result Rp DecErr);
}.

(** ** The adapter *)

(** [std::sync::Mutex]: a holder that panics poisons it. *)
Record Mutex (M : Type) := { contents : M; poisoned : bool }.
Arguments contents {M} m.
Arguments poisoned {M} m.

(** [lock().expect(..)] followed by a call on the contents. *)
Definition with_lock {M A} (call : M → M * outcome A) (m : Mutex M) : Mutex M * outcome A :=
  if poisoned m then (m, Panics)
  else match call (contents m) with
       | (c, Returns a) => ({| contents := c; poisoned := false |}, Returns a)
       | (c, Panics) => ({| contents := c; poisoned := true |}, Panics)
       end.

Inductive SerializerAdapter (R M : Type) : Type :=
  | ReadOnly (serializer : R)
  | Mutable (serializer : Mutex M).
Arguments ReadOnly {R M} serializer.
Arguments Mutable {R M} serializer.

Section Adapter.
Context {R M Rp Sp EncErr DecErr : Type}.
Context `{RO : ReadOnlySerializer R Rp Sp EncErr DecErr}.
Context `{MU : MutableSerializer M Rp Sp EncErr DecErr}.

(** [warn_if_stateful_over_datagrams]: the new flag, and whether it logs. *)
Definition warn_if_stateful_over_datagrams (datagram : bool) (a : SerializerAdapter R M)
    (warned : bool) : bool * bool :=
  if (datagram && match a with Mutable _ => true | ReadOnly _ => false end)%bool
  then (true, negb warned) else (warned, false).

Definition adapter_serialize (packet : Sp) (a : SerializerAdapter R M)
    : SerializerAdapter R M * outcome (result (list Z) EncErr) :=
  match a with
  | ReadOnly s => (a, ro_serialize s packet)
  | Mutable s => let '(s, res) := with_lock (mut_serialize packet) s in (Mutable s, res)
  end.

Definition adapter_deserialize (data : list Z) (a : SerializerAdapter R M)
    : SerializerAdapter R M * outcome (result Rp DecErr) :=
  match a with
  | ReadOnly s => (a, ro_deserialize s data)
  | Mutable s => let '(s, res) := with_lock (mut_deserialize data) s in (Mutable s, res)
  end.

Definition adapter_serializer `{Display EncErr} : Serializer (SerializerAdapter R M) Rp Sp := {|
  EncodeError := EncErr;
  DecodeError := DecErr;
  serialize := adapter_serialize;
  deserialize := adapter_deserialize;
|}.

(** A call by either task, and what it answers. *)
Inductive adapter_call :=
  | CallSerialize (packet : Sp)
  | CallDeserialize (data : list Z).

Inductive adapter_answer :=
  | Serialized (res : outcome (result (list Z) EncErr))
  | Deserialized (res : outcome (result Rp DecErr)).

Definition answer_panics (a : adapter_answer) : bool :=
  match a with Serialized Panics | Deserialized Panics => true | _ => false end.

Definition run_call (a : SerializerAdapter R M) (c : adapter_call)
    : SerializerAdapter R M * adapter_answer :=
  match c with
  | CallSerialize p => let '(a, res) := adapter_serialize p a in (a, Serialized res)
  | CallDeserialize d => let '(a, res) := adapter_deserialize d a in (a, Deserialized res)
  end.

Fixpoint run_calls (a : SerializerAdapter R M) (cs : list adapter_call)
    : SerializerAdapter R M * list adapter_answer :=
  match cs with
  | [] => (a, [])
  | c :: cs =>
      let '(a, ans) := run_call a c in
      let '(a, rest) := run_calls a cs in (a, ans :: rest)
  end.

(** The codec alone, called in the same order. *)
Definition codec_call (m : M) (c : adapter_call) : M * adapter_answer :=
  match c with
  | CallSerialize p => let '(m, res) := mut_serialize p m in (m, Serialized res)
  | CallDeserialize d => let '(m, res) := mut_deserialize d m in (m, Deserialized res)
  end.

Definition panic_answer (c : adapter_call) : adapter_answer :=
  match c with CallSerialize _ => Serialized Panics | CallDeserialize _ => Deserialized Panics end.

(** The answers a shared mutable codec owes: its own, until one panics. *)
Fixpoint codec_answers (m : M) (cs : list adapter_call) : list adapter_answer :=
  match cs with
  | [] => []
  | c :: cs =>
      let '(m, ans) := codec_call m c in
      if answer_panics ans then ans :: map panic_answer cs else ans :: codec_answers m cs
  end.
End Adapter.
Arguments adapter_call Sp : clear implicits.
Arguments adapter_answer Rp EncErr DecErr : clear implicits.

(** ** The wrapped codecs *)

(** [bitcode] with native traits: [encode] cannot fail. *)
Class Bitcode (P E : Type) := {
  bitcode_encode : P → list Z;
  bitcode_decode : list Z → result P E;
}.
Class BitcodeLaws (P E : Type) `{Bitcode P E} : Prop := {
  bitcode_roundtrip : ∀ p : P, bitcode_decode (bitcode_encode p) = Ok p;
}.

(** The serde codecs of [bitcode] and [bincode], and native [bincode]: encoding
    is fallible; [bincode] reports the length it consumed and leaves the rest. *)
Class BitcodeSerde (P E : Type) := {
  bitcode_serde_serialize : P → result (list Z) E;
  bitcode_serde_deserialize : list Z → result P E;
}.
Class Bincode (P EncE DecE : Type) := {
  bincode_encode : P → result (list Z) EncE;
  bincode_decode : list Z → result (P * Z) DecE;
}.
Class BincodeLaws (P EncE DecE : Type) `{Bincode P EncE DecE} : Prop := {
  bincode_roundtrip : ∀ (p : P) bs rest,
    bincode_encode p = Ok bs → bincode_decode (bs ++ rest) = Ok (p, zlen bs);
}.

Class BincodeSerde (P EncE DecE : Type) := {
  bincode_serde_encode : P → result (list Z) EncE;
  bincode_serde_decode : list Z → result (P * Z) DecE;
}.
Class BincodeSerdeLaws (P EncE DecE : Type) `{BincodeSerde P EncE DecE} : Prop := {
  bincode_serde_roundtrip : ∀ (p : P) bs rest,
    bincode_serde_encode p = Ok bs → bincode_serde_decode (bs ++ rest) = Ok (p, zlen bs);
}.

Inductive BitcodeSerializer := bitcode_new.
Inductive BitcodeSerdeSerializer := bitcode_serde_new.
Inductive BincodeSerializer := bincode_new.
Inductive BincodeSerdeSerializer := bincode_serde_new.

#[export] Instance BitcodeSerializer_read_only {P E} `{Bitcode P E} :
    ReadOnlySerializer BitcodeSerializer P P Empty_set E := {
  ro_serialize _ packet := Returns (Ok (bitcode_encode packet));
  ro_deserialize _ bytes := Returns (bitcode_decode bytes);
}.

#[export] Instance BitcodeSerdeSerializer_read_only {P E} `{BitcodeSerde P E} :
    ReadOnlySerializer BitcodeSerdeSerializer P P E E := {
  ro_serialize _ packet := Returns (bitcode_serde_serialize packet);
  ro_deserialize _ bytes := Returns (bitcode_serde_deserialize bytes);
}.

(** [BincodeSerializer] and [BincodeSerdeSerializer]: both drop the length. *)
#[export] Instance BincodeSerializer_read_only {P EncE DecE} `{Bincode P EncE DecE} :
    ReadOnlySerializer BincodeSerializer P P EncE DecE := {
  ro_serialize _ packet := Returns (bincode_encode packet);
  ro_deserialize _ bytes := Returns (result_map fst (bincode_decode bytes));
}.

#[export] Instance BincodeSerdeSerializer_read_only {P EncE DecE} `{BincodeSerde P EncE DecE} :
    ReadOnlySerializer BincodeSerdeSerializer P P EncE DecE := {
  ro_serialize _ packet := Returns (bincode_serde_encode packet);
  ro_deserialize _ bytes := Returns (result_map fst (bincode_serde_decode bytes));
}.

(** ** The contract between two peers

    [synced out inc] relates the state of the serializer that encodes a
    direction of traffic with the state of the one that decodes it; [sendable]
    are the packets the direction may carry, whose payloads are at most
    [max_payload] bytes. *)
Class SerializerPair {S1 S2 P Q : Type} `(S : Serializer S1 Q P) `(T : Serializer S2 P Q)
    (sendable : P → Prop) (max_payload : Z) (synced : S1 → S2 → Prop) : Prop := {
  pair_roundtrip : ∀ (p : P) s1 s2 s1' bs,
    sendable p → synced s1 s2 → serialize p s1 = (s1', Returns (Ok bs)) →
    zlen bs ≤ max_payload ∧
    ∃ s2', deserialize bs s2 = (s2', Returns (Ok p)) ∧ synced s1' s2';
}.

(** Over datagrams, which may be lost, repeated and reordered, a serializer must
    not depend on what it saw before: whatever has been encoded and decoded, what
    one side encodes the other decodes. [enc_ok] and [dec_ok] are the states the
    two sides may be in. *)
Class DatagramPair {S1 S2 P Q : Type} `(S : Serializer S1 Q P) `(T : Serializer S2 P Q)
    (sendable : P → Prop) (enc_ok : S1 → Prop) (dec_ok : S2 → Prop) : Prop := {
  datagram_encode : ∀ (p : P) s s' r, enc_ok s → serialize p s = (s', r) → enc_ok s';
  datagram_decode : ∀ bs s s' (r : outcome (result P _)), dec_ok s → deserialize bs s = (s', r) → dec_ok s';
  datagram_roundtrip : ∀ (p : P) s s' bs d,
    sendable p → enc_ok s → dec_ok d → serialize p s = (s', Returns (Ok bs)) →
    ∃ d', deserialize bs d = (d', Returns (Ok p));
}.

(** One serializer per end of a connection does both the encoding and the decoding
    of its end, in whatever order its tasks take the lock. What that takes of a
    pair, for the traffic it carries from the first to the second: the decoding of
    the sending end and the encoding of the receiving end leave the two in step, and
    at the receiving end it does not matter which of the two comes first. *)
Class SharedSerializer {S1 S2 P Q : Type} `(Out : Serializer S1 Q P) `(Inc : Serializer S2 P Q)
    (synced : S1 → S2 → Prop) : Prop := {
  shared_sender : ∀ bs s1 s1' s2 (r : outcome (result Q _)),
    synced s1 s2 → deserialize bs s1 = (s1', r) → synced s1' s2;
  shared_receiver : ∀ (q : Q) s1 s2 s2' r, synced s1 s2 → serialize q s2 = (s2', r) → synced s1 s2';
  shared_commute : ∀ (q : Q) bs (p : P) s se sd r,
    serialize q s = (se, r) → deserialize bs s = (sd, Returns (Ok p)) →
    ∃ s' r', serialize q sd = (s', r') ∧ deserialize bs se = (s', Returns (Ok p));
}.

(** *** The payloads of two peers

    The two ends of a connection, each with its serializer, and the payloads on
    their way, which arrive in order; [.._said] are the packets encoded and
    [.._read] what the decodings of the other end answered. *)
Section Peers.
Context {S1 S2 P Q : Type} `{Out : Serializer S1 Q P} `{Inc : Serializer S2 P Q}.

Record Peers := {
  near : S1;
  far : S2;
  forth : list (list Z);
  back : list (list Z);
  near_said : list P;
  far_said : list Q;
  far_read : list (outcome (result P (DecodeError (Serializer:=Inc))));
  near_read : list (outcome (result Q (DecodeError (Serializer:=Out))));
}.

Definition peers_start (s1 : S1) (s2 : S2) : Peers :=
  {| near := s1; far := s2; forth := []; back := []; near_said := []; far_said := [];
     far_read := []; near_read := [] |}.

Inductive peer_event := NearEncodes (p : P) | FarEncodes (q : Q) | FarDecodes | NearDecodes.

Definition peers_step (e : Peers) (ev : peer_event) : Peers :=
  match ev with
  | NearEncodes p =>
      let '(s, r) := serialize p (near e) in
      let '(bss, said) := match r with Returns (Ok bs) => ([bs], [p]) | _ => ([], []) end in
      {| near := s; far := far e; forth := forth e ++ bss; back := back e; near_said := near_said e ++ said;
         far_said := far_said e; far_read := far_read e; near_read := near_read e |}
  | FarEncodes q =>
      let '(s, r) := serialize q (far e) in
      let '(bss, said) := match r with Returns (Ok bs) => ([bs], [q]) | _ => ([], []) end in
      {| near := near e; far := s; forth := forth e; back := back e ++ bss; near_said := near_said e;
         far_said := far_said e ++ said; far_read := far_read e; near_read := near_read e |}
  | FarDecodes =>
      match forth e with
      | [] => e
      | bs :: rest =>
          let '(s, r) := deserialize bs (far e) in
          {| near := near e; far := s; forth := rest; back := back e; near_said := near_said e;
             far_said := far_said e; far_read := far_read e ++ [r]; near_read := near_read e |}
      end
  | NearDecodes =>
      match back e with
      | [] => e
      | bs :: rest =>
          let '(s, r) := deserialize bs (near e) in
          {| near := s; far := far e; forth := forth e; back := rest; near_said := near_said e;
             far_said := far_said e; far_read := far_read e; near_read := near_read e ++ [r] |}
      end
  end.

Definition peers_run (evs : list peer_event) (e : Peers) : Peers := foldl peers_step e evs.
End Peers.
Arguments peer_event P Q : clear implicits.

(** ** Lemmas *)

Section AdapterLemmas.
Context {R M Rp Sp EncErr DecErr : Type}.
Context `{RO : ReadOnlySerializer R Rp Sp EncErr DecErr}.
Context `{MU : MutableSerializer M Rp Sp EncErr DecErr}.

Lemma run_call_poisoned (m : M) (c : adapter_call Sp) :
  run_call (R:=R) (Mutable {| contents := m; poisoned := true |}) c =
  (Mutable {| contents := m; poisoned := true |}, panic_answer c).
Proof. by destruct c. Qed.

Lemma run_calls_poisoned (m : M) (cs : list (adapter_call Sp)) :
  run_calls (R:=R) (Mutable {| contents := m; poisoned := true |}) cs =
  (Mutable {| contents := m; poisoned := true |}, map panic_answer cs).
Proof. induction cs as [|c cs IH]; [done|]. cbn [run_calls]. by rewrite run_call_poisoned, IH. Qed.

Lemma run_call_healthy (m : M) (c : adapter_call Sp) :
  run_call (R:=R) (Mutable {| contents := m; poisoned := false |}) c =
  let '(m', ans) := codec_call m c in
  (Mutable {| contents := m'; poisoned := answer_panics ans |}, ans).
Proof.
  destruct c as [p|d]; cbn.
  - by destruct (mut_serialize p m) as [m' [res|]].
  - by destruct (mut_deserialize d m) as [m' [res|]].
Qed.

(** C37. A mutable codec behind the adapter answers the calls of both tasks, in
    whatever order they take the lock, exactly as the codec alone would, until
    one call panics; from then on every call panics without running the codec.
    A read-only codec is never changed and its calls are independent of one
    another. *)
Theorem adapter_serializes_calls (cs : list (adapter_call Sp)) :
  (∀ m : M, (run_calls (R:=R) (Mutable {| contents := m; poisoned := false |}) cs).2 =
            codec_answers m cs) ∧
  (∀ m : M, (run_calls (R:=R) (Mutable {| contents := m; poisoned := true |}) cs) =
            (Mutable {| contents := m; poisoned := true |}, map panic_answer cs)) ∧
  (∀ r : R, run_calls (M:=M) (ReadOnly r) cs =
            (ReadOnly r, map (λ c, (run_call (M:=M) (ReadOnly r) c).2) cs)).
Proof.
  split_and!.
  - induction cs as [|c cs IH]; intros m; [done|]. cbn [run_calls codec_answers].
    rewrite run_call_healthy. destruct (codec_call m c) as [m' ans].
    destruct (answer_panics ans) eqn:Ha.
    + by rewrite run_calls_poisoned.
    + rewrite <- IH. by destruct (run_calls _ cs).
  - intros m. apply run_calls_poisoned.
  - induction cs as [|c cs IH]; intros r; [done|]. cbn [run_calls map].
    destruct c; cbn; by rewrite IH.
Qed.
End AdapterLemmas.

(** The adapter around a read-only codec that reads back what it writes is one
    end of a pair, with any state. *)
Lemma read_only_pair {R P EncErr DecErr} `{ReadOnlySerializer R P P EncErr DecErr}
    {M} `{MutableSerializer M P P EncErr DecErr} `{Display EncErr} (sendable : P → Prop) max_payload :
  (∀ (r : R) p bs, sendable p → ro_serialize r p = Returns (Ok bs) →
     zlen bs ≤ max_payload ∧ ro_deserialize r bs = Returns (Ok p)) →
  SerializerPair (adapter_serializer (R:=R) (M:=M)) (adapter_serializer (R:=R) (M:=M))
    sendable max_payload (λ s1 s2, s1 = s2 ∧ ∃ r, s1 = ReadOnly r).
Proof.
  intros Hr. split. cbn. intros p s1 s2 s1' bs Hp [<- [r ->]] [= <- Hs].
  cbn. destruct (Hr r p bs Hp Hs) as [Hb ->]. split; [done|]. eexists. split; [done|]. eauto.
Qed.

(** A read-only codec does not depend on what it saw. *)
Lemma read_only_datagrams {R P EncErr DecErr} `{ReadOnlySerializer R P P EncErr DecErr}
    {M} `{MutableSerializer M P P EncErr DecErr} `{Display EncErr} (sendable : P → Prop) (r : R) :
  (∀ p bs, sendable p → ro_serialize r p = Returns (Ok bs) → ro_deserialize r bs = Returns (Ok p)) →
  DatagramPair (adapter_serializer (R:=R) (M:=M)) (adapter_serializer (R:=R) (M:=M))
    sendable (λ s, s = ReadOnly r) (λ s, s = ReadOnly r).
Proof.
  intros Hr. split; cbn.
  - by intros p s s' res -> [= <- _].
  - by intros bs s s' res -> [= <- _].
  - intros p s s' bs d Hp -> -> [= _ Hs]. exists (ReadOnly r). cbn. by rewrite (Hr p bs Hp Hs).
Qed.

(** ** What two peers read *)

Section PeersRead.
Context {S1 S2 P Q : Type} `{Out : Serializer S1 Q P} `{Inc : Serializer S2 P Q}.
Context {sendable : P → Prop} {max_payload : Z} {synced : S1 → S2 → Prop}
  `{!SerializerPair Out Inc sendable max_payload synced} `{!SharedSerializer Out Inc synced}.

(** From state [s], the payloads read as the packets [ps], ending in state [s']. *)
Inductive reads : S2 → list (list Z) → list P → S2 → Prop :=
  | reads_nil s : reads s [] [] s
  | reads_cons s s1 s' bs bss p ps :
      deserialize bs s = (s1, Returns (Ok p)) → reads s1 bss ps s' → reads s (bs :: bss) (p :: ps) s'.

Lemma reads_snoc s s1 s' bss ps bs p : reads s bss ps s1 → deserialize bs s1 = (s', Returns (Ok p)) →
  reads s (bss ++ [bs]) (ps ++ [p]) s'.
Proof. induction 1 as [s|s s0 s1 b bss p' ps Hd _ IH]; intros; cbn; repeat (econstructor; eauto). Qed.

(** Encoding a packet first changes nothing. *)
Lemma reads_encode (q : Q) s se r bss ps s' : reads s bss ps s' → serialize q s = (se, r) →
  ∃ s'' r', reads se bss ps s'' ∧ serialize q s' = (s'', r').
Proof.
  intros Hr. revert se r. induction Hr as [s|s s1 s' bs bss p ps Hd _ IH]; intros se r Hs.
  - exists se, r. split; [constructor|done].
  - destruct (shared_commute q bs p s se s1 r Hs Hd) as (s2 & r2 & Hs2 & Hd2).
    destruct (IH _ _ Hs2) as (s3 & r3 & Hr3 & Hs3). exists s3, r3. split; [by econstructor|done].
Qed.

(** A direction of the traffic: what is on its way reads as what has not been read. *)
Definition in_step (s1 : S1) (s2 : S2) (bss : list (list Z)) (said : list P)
    (read : list (outcome (result P (DecodeError (Serializer:=Inc))))) : Prop :=
  ∃ got rest s, said = got ++ rest ∧ read = (λ p, Returns (Ok p)) <$> got ∧ reads s2 bss rest s ∧ synced s1 s.

Lemma in_step_start s1 s2 : synced s1 s2 → in_step s1 s2 [] [] [].
Proof. intros Hs. exists [], [], s2. split_and!; try done. constructor. Qed.

Lemma in_step_in s1 s2 bss said read : in_step s1 s2 bss said read → ∃ s, synced s1 s.
Proof. intros (_ & _ & s & _ & _ & _ & Hs). by exists s. Qed.

Lemma in_step_encodes (p : P) s1 s1' s2 bs bss said read :
  sendable p → serialize p s1 = (s1', Returns (Ok bs)) →
  in_step s1 s2 bss said read → in_step s1' s2 (bss ++ [bs]) (said ++ [p]) read.
Proof.
  intros Hp Hs (got & rest & s & -> & -> & Hr & Hsync).
  destruct (pair_roundtrip p s1 s s1' bs Hp Hsync Hs) as (_ & s' & Hd & Hsync').
  exists got, (rest ++ [p]), s'. split_and!; [by rewrite app_assoc|done|by eapply reads_snoc|done].
Qed.

Lemma in_step_decodes s1 s2 s2' bs bss said read r :
  deserialize bs s2 = (s2', r) → in_step s1 s2 (bs :: bss) said read → in_step s1 s2' bss said (read ++ [r]).
Proof.
  intros Hd (got & rest & s & -> & -> & Hr & Hsync). inversion Hr as [|? s3 ? ? ? p ps Hd' Hr']; subst.
  rewrite Hd in Hd'. simplify_eq. exists (got ++ [p]), ps, s.
  split_and!; [by rewrite <- app_assoc|by rewrite fmap_app|done|done].
Qed.

Lemma in_step_sender s1 s1' s2 bs bss said read (r : outcome (result Q _)) :
  deserialize bs s1 = (s1', r) → in_step s1 s2 bss said read → in_step s1' s2 bss said read.
Proof.
  intros Hd (got & rest & s & ? & ? & ? & Hsync). exists got, rest, s. split_and!; try done.
  by eapply shared_sender.
Qed.

Lemma in_step_receiver (q : Q) s1 s2 s2' bss said read r :
  serialize q s2 = (s2', r) → in_step s1 s2 bss said read → in_step s1 s2' bss said read.
Proof.
  intros Hs (got & rest & s & ? & ? & Hr & Hsync). destruct (reads_encode q _ _ _ _ _ _ Hr Hs) as (s' & r' & Hr' & Hs').
  exists got, rest, s'. split_and!; try done. by eapply shared_receiver.
Qed.

Lemma in_step_read s1 s2 bss said read : in_step s1 s2 bss said read →
  ∃ rest, (λ p, Returns (Ok p)) <$> said = read ++ rest ∧ length rest = length bss.
Proof.
  intros (got & rest & s & -> & -> & Hr & _). eexists. rewrite fmap_app. split; [done|].
  rewrite length_fmap. by induction Hr; cbn; f_equal.
Qed.
End PeersRead.

(** Two serializers that agree in both directions and may be shared: whatever the
    order in which the two ends encode and decode, each reads what the other said. *)
Section TwoPeers.
Context {S1 S2 P Q : Type} `{Out : Serializer S1 Q P} `{Inc : Serializer S2 P Q}.
Context {sayP : P → Prop} {sayQ : Q → Prop} {max_payload : Z} {synced : S1 → S2 → Prop} {synced' : S2 → S1 → Prop}
  `{!SerializerPair Out Inc sayP max_payload synced} `{!SharedSerializer Out Inc synced}
  `{!SerializerPair Inc Out sayQ max_payload synced'} `{!SharedSerializer Inc Out synced'}.

(** Neither end fails to encode. *)
Hypothesis Hnear : ∀ p s1 s2, sayP p → synced s1 s2 → ∃ s1' bs, serialize p s1 = (s1', Returns (Ok bs)).
Hypothesis Hfar : ∀ q s2 s1, sayQ q → synced' s2 s1 → ∃ s2' bs, serialize q s2 = (s2', Returns (Ok bs)).

Definition peer_event_ok (ev : peer_event P Q) : Prop :=
  match ev with NearEncodes p => sayP p | FarEncodes q => sayQ q | _ => True end.

Definition peers_ok (e : Peers (Out:=Out) (Inc:=Inc)) : Prop :=
  in_step (Inc:=Inc) (synced:=synced) (near e) (far e) (forth e) (near_said e) (far_read e) ∧
  in_step (Inc:=Out) (synced:=synced') (far e) (near e) (back e) (far_said e) (near_read e).

Lemma peers_step_ok e ev : peer_event_ok ev → peers_ok e → peers_ok (peers_step e ev).
Proof.
  intros Hev [Hf Hb]. destruct ev as [p|q| |]; cbn in *.
  - destruct (in_step_in _ _ _ _ _ Hf) as [s2 Hsync]. destruct (Hnear p _ _ Hev Hsync) as (s & bs & Hs).
    rewrite Hs. split; [by eapply in_step_encodes|by eapply in_step_receiver].
  - destruct (in_step_in _ _ _ _ _ Hb) as [s1 Hsync]. destruct (Hfar q _ _ Hev Hsync) as (s & bs & Hs).
    rewrite Hs. split; [by eapply in_step_receiver|by eapply in_step_encodes].
  - destruct (forth e) as [|bs rest] eqn:Hfo; [by rewrite <- Hfo in Hf|].
    destruct (deserialize bs (far e)) as [s r] eqn:Hd. split; [by eapply in_step_decodes|by eapply in_step_sender].
  - destruct (back e) as [|bs rest] eqn:Hba; [by rewrite <- Hba in Hb|].
    destruct (deserialize bs (near e)) as [s r] eqn:Hd. split; [by eapply in_step_sender|by eapply in_step_decodes].
Qed.

Lemma peers_run_ok evs e : Forall peer_event_ok evs → peers_ok e → peers_ok (peers_run evs e).
Proof. intros Hevs. revert e. induction Hevs as [|ev evs Hev _ IH]; intros e He; [done|]. by apply IH, peers_step_ok. Qed.

(** Every packet is encoded. *)
Definition near_says (ev : peer_event P Q) : option P := match ev with NearEncodes p => Some p | _ => None end.
Definition far_says (ev : peer_event P Q) : option Q := match ev with FarEncodes q => Some q | _ => None end.

Lemma peers_step_said e ev : peer_event_ok ev → peers_ok e →
  near_said (peers_step e ev) = near_said e ++ option_list (near_says ev) ∧
  far_said (peers_step e ev) = far_said e ++ option_list (far_says ev).
Proof.
  intros Hev [Hf Hb]. destruct ev as [p|q| |]; cbn in *.
  - destruct (in_step_in _ _ _ _ _ Hf) as [s2 Hsync]. destruct (Hnear p _ _ Hev Hsync) as (s & bs & Hs).
    rewrite Hs. cbn. by rewrite app_nil_r.
  - destruct (in_step_in _ _ _ _ _ Hb) as [s1 Hsync]. destruct (Hfar q _ _ Hev Hsync) as (s & bs & Hs).
    rewrite Hs. cbn. by rewrite app_nil_r.
  - rewrite !app_nil_r. destruct (forth e); [done|]. by destruct (deserialize _ (far e)).
  - rewrite !app_nil_r. destruct (back e); [done|]. by destruct (deserialize _ (near e)).
Qed.

Lemma peers_run_said evs e : Forall peer_event_ok evs → peers_ok e →
  near_said (peers_run evs e) = near_said e ++ omap near_says evs ∧
  far_said (peers_run evs e) = far_said e ++ omap far_says evs.
Proof.
  intros Hevs. revert e. induction Hevs as [|ev evs Hev _ IH]; intros e He; [by rewrite !app_nil_r|].
  destruct (peers_step_said e ev Hev He) as [Hn Hf]. destruct (IH _ (peers_step_ok e ev Hev He)) as [Hn' Hf'].
  split; [etrans; [exact Hn'|]; rewrite Hn|etrans; [exact Hf'|]; rewrite Hf]; rewrite <- app_assoc; f_equal; by destruct ev.
Qed.

Lemma peers_read s1 s2 evs : synced s1 s2 → synced' s2 s1 → Forall peer_event_ok evs →
  let e := peers_run evs (peers_start s1 s2 : Peers (Out:=Out) (Inc:=Inc)) in
  near_said e = omap near_says evs ∧ far_said e = omap far_says evs ∧
  (∃ rest, (λ p, Returns (Ok p)) <$> near_said e = far_read e ++ rest ∧ length rest = length (forth e)) ∧
  (∃ rest, (λ q, Returns (Ok q)) <$> far_said e = near_read e ++ rest ∧ length rest = length (back e)).
Proof.
  intros Hs Hs' Hevs e. set (e0 := peers_start s1 s2 : Peers (Out:=Out) (Inc:=Inc)) in e.
  assert (H0 : peers_ok e0) by (split; by apply in_step_start).
  pose proof (peers_run_ok evs e0 Hevs H0) as [Hf Hb]. destruct (peers_run_said evs e0 Hevs H0) as [Hn Hf'].
  split; [exact Hn|]. split; [exact Hf'|]. split; by eapply in_step_read.
Qed.
End TwoPeers.

(** Behind the adapter, all four codecs meet the contract of datagrams, as far as
    they read back what they write. *)
Theorem wrapped_codecs_datagrams {P E EncE DecE : Type} `{BitcodeLaws P E} `{BitcodeSerde P E}
    `{BincodeLaws P EncE DecE} `{BincodeSerdeLaws P EncE DecE} `{Display E} `{Display EncE} `{Display Empty_set}
    {M1 M2 M3} `{MutableSerializer M1 P P Empty_set E} `{MutableSerializer M2 P P E E}
    `{MutableSerializer M3 P P EncE DecE} :
  (∀ (p : P) bs, bitcode_serde_serialize p = Ok bs → bitcode_serde_deserialize (E:=E) bs = Ok p) →
  DatagramPair (adapter_serializer (R:=BitcodeSerializer) (M:=M1)) (adapter_serializer (R:=BitcodeSerializer) (M:=M1))
    (λ _, True) (λ s, s = ReadOnly bitcode_new) (λ s, s = ReadOnly bitcode_new) ∧
  DatagramPair (adapter_serializer (R:=BitcodeSerdeSerializer) (M:=M2)) (adapter_serializer (R:=BitcodeSerdeSerializer) (M:=M2))
    (λ _, True) (λ s, s = ReadOnly bitcode_serde_new) (λ s, s = ReadOnly bitcode_serde_new) ∧
  DatagramPair (adapter_serializer (R:=BincodeSerializer) (M:=M3)) (adapter_serializer (R:=BincodeSerializer) (M:=M3))
    (λ _, True) (λ s, s = ReadOnly bincode_new) (λ s, s = ReadOnly bincode_new) ∧
  DatagramPair (adapter_serializer (R:=BincodeSerdeSerializer) (M:=M3)) (adapter_serializer (R:=BincodeSerdeSerializer) (M:=M3))
    (λ _, True) (λ s, s = ReadOnly bincode_serde_new) (λ s, s = ReadOnly bincode_serde_new).
Proof.
  intros Hserde. split_and!; apply read_only_datagrams; intros p bs _; cbn; intros [= Hs].
  - by rewrite <- Hs, bitcode_roundtrip.
  - by rewrite (Hserde p bs Hs).
  - pose proof (bincode_roundtrip p bs [] Hs) as Hd. rewrite app_nil_r in Hd. by rewrite Hd.
  - pose proof (bincode_serde_roundtrip p bs [] Hs) as Hd. rewrite app_nil_r in Hd. by rewrite Hd.
Qed.

(** ** Reference codec

    One-byte booleans, for concrete instances. *)

#[export] Instance bool_bitcode : Bitcode bool unit := {
  bitcode_encode b := [if b : bool then 1 else 0];
  bitcode_decode bs :=
    match bs with [1] => Ok true | [0] => Ok false | _ => Err tt end;
}.
#[export] Instance bool_bitcode_laws : BitcodeLaws bool unit.
Proof. split. by intros []. Qed.

#[export] Instance display_empty : Display Empty_set := λ e, match e with end.

(** The adapter over [BitcodeSerializer]; its mutable side holds the same codec
    behind the lock. *)
#[export] Instance BitcodeSerializer_mutable {P E} `{Bitcode P E} :
    MutableSerializer BitcodeSerializer P P Empty_set E := {
  mut_serialize packet s := (s, Returns (Ok (bitcode_encode packet)));
  mut_deserialize bytes s := (s, Returns (bitcode_decode bytes));
}.

Definition bool_serializer : Serializer (SerializerAdapter BitcodeSerializer BitcodeSerializer) bool bool :=
  adapter_serializer.

#[export] Instance bool_serializer_pair :
  SerializerPair bool_serializer bool_serializer (λ _, True) 1 (λ s1 s2, s1 = s2 ∧ ∃ r, s1 = ReadOnly r).
Proof. apply read_only_pair. intros r [] bs _ [= <-]; by split. Qed.
