(* ===== verification/Framing.v ===== *)
(** * Length-prefixed framing

    Models src/src/protocols/framing.rs: [FramedReader] and [FramedWriter] over
    the byte-stream traits [ReadStream] and [WriteStream], and the default
    [receive_with_timestamp] of src/src/protocols/packet.rs. *)

From stdpp Require Import pretty.
From S2P Require Import Prelude Protocol Codec Serializer.

(** ** Byte streams

    The operations take and return the stream: [read_exact n] fills a buffer of
    [n] bytes. *)

Class ReadStream (R : Type) := {
  read_exact : nat → R → R * result (list Z) io_error;
}.

Class WriteStream (W : Type) := {
  write_all : list Z → W → W * result unit io_error;
}.

(** A stream whose peer wrote [pending] and closed: [read_exact] takes the bytes
    in order, or fails with [UnexpectedEof] when they run out. *)
Class ReadStreamLaws (R : Type) `{ReadStream R} := {
  pending : R → list Z;
  read_exact_ok : ∀ n r, (n ≤ length (pending r))%nat →
    ∃ r', read_exact n r = (r', Ok (take n (pending r))) ∧ pending r' = drop n (pending r);
  read_exact_eof : ∀ n r, (length (pending r) < n)%nat →
    ∃ r' e, read_exact n r = (r', Err e) ∧ kind e = UnexpectedEof;
}.

(** A sink that accepts everything. *)
Class WriteStreamLaws (W : Type) `{WriteStream W} := {
  written : W → list Z;
  write_all_ok : ∀ bs w, ∃ w', write_all bs w = (w', Ok tt) ∧ written w' = written w ++ bs;
}.

Record FramedReader (R : Type) := { reader_inner : R }.
Arguments reader_inner {R} f.
Record FramedWriter (W : Type) := { writer_inner : W }.
Arguments writer_inner {W} f.

(** [prefix.get_mut(filled..)]: the length of the tail to fill. *)
Definition slice_get_from {A} (l : list A) (n : nat) : option (list A) :=
  if bool_decide (n ≤ length l)%nat then Some (drop n l) else None.

Section Read.
Context `{Target} {R} `{ReadStream R} {LS} `{PacketLengthSerializer LS}.
Context {Cd Rp Sp} `{Ser : Serializer Cd Rp Sp}.

Definition receive_error : Type := ReceiveError (DecodeError (Serializer:=Ser)) (ls_error (LS:=LS)).

(** The loop of [read_length]; [None] when the fuel runs out. *)
Fixpoint read_length_loop (fuel : nat) (ls : LS) (prefix : list Z) (filled : nat) (r : R)
    : option (R * result Z receive_error) :=
  match fuel with
  | O => None
  | S fuel =>
      match slice_get_from prefix filled with
      | None => Some (r, Err (Io (io_error_from InvalidData)))
      | Some slot =>
          match read_exact (length slot) r with
          | (r, Err e) => Some (r, Err (Io e))
          | (r, Ok bytes) =>
              let prefix := take filled prefix ++ bytes in
              match deserialize_packet_length ls prefix with
              | Ok length => Some (r, Ok length)
              | Err (NeedMoreBytes additional) =>
                  let filled := length prefix in
                  read_length_loop fuel ls
                    (vec_resize prefix (Z.to_nat (wadd (zlen prefix) additional))) filled r
              | Err (LengthErr error) => Some (r, Err (LengthDeserialization error))
              end
          end
      end
  end.

Definition read_length (fuel : nat) (ls : LS) (f : FramedReader R)
    : option (FramedReader R * result Z receive_error) :=
  match read_length_loop fuel ls (replicate SIZE 0) 0 (reader_inner f) with
  | Some (r, res) => Some ({| reader_inner := r |}, res)
  | None => None
  end.

(** [limit] is what [limits.max_packet_size()] reads after the prefix, [now] the
    instant after the payload. *)
Definition receive_with_timestamp {I} (fuel : nat) (ls : LS) (limit : Z) (now : I)
    (f : FramedReader R) (s : Cd)
    : option (FramedReader R * Cd * outcome (result (Rp * I) receive_error)) :=
  match read_length fuel ls f with
  | None => None
  | Some (f, Err e) => Some (f, s, Returns (Err e))
  | Some (f, Ok length) =>
      if limit <? length then Some (f, s, Returns (Err PacketTooBig))
      else match read_exact (Z.to_nat length) (reader_inner f) with
           | (r, Err e) => Some ({| reader_inner := r |}, s, Returns (Err (Io e)))
           | (r, Ok payload) =>
               let f := {| reader_inner := r |} in
               match deserialize payload s with
               | (s, Panics) => Some (f, s, Panics)
               | (s, Returns (Err e)) => Some (f, s, Returns (Err (Deserialization e)))
               | (s, Returns (Ok packet)) => Some (f, s, Returns (Ok (packet, now)))
               end
           end
  end.

Definition receive (fuel : nat) (ls : LS) (limit : Z) (f : FramedReader R) (s : Cd)
    : option (FramedReader R * Cd * outcome (result Rp receive_error)) :=
  match receive_with_timestamp fuel ls limit tt f s with
  | None => None
  | Some (f, s, Panics) => Some (f, s, Panics)
  | Some (f, s, Returns res) => Some (f, s, Returns (result_map fst res))
  end.

(** The default of [PacketReader::receive_with_timestamp] for a reader that only
    defines [receive], whose future is [received]. *)
Definition default_receive_with_timestamp {I E} (received : result Rp E) (now : I)
    : result (Rp * I) E :=
  try! packet := received in Ok (packet, now).

(** Successive calls of [receive], as the receive task makes them while they
    succeed. *)
Fixpoint receive_all (fuel n : nat) (ls : LS) (limit : Z) (f : FramedReader R) (s : Cd)
    : option (FramedReader R * Cd * list Rp) :=
  match n with
  | O => Some (f, s, [])
  | S n =>
      match receive fuel ls limit f s with
      | Some (f, s, Returns (Ok p)) =>
          match receive_all fuel n ls limit f s with
          | Some (f, s, ps) => Some (f, s, p :: ps)
          | None => None
          end
      | _ => None
      end
  end.
End Read.

Section Write.
Context {W} `{WriteStream W} {LS} `{PacketLengthSerializer LS} `{Display ls_error}.
Context {Cd Rp Sp} `{Ser : Serializer Cd Rp Sp}.

Definition framed_send (ls : LS) (packet : Sp) (f : FramedWriter W) (s : Cd)
    : FramedWriter W * Cd * outcome (result unit io_error) :=
  match serialize packet s with
  | (s, Panics) => (f, s, Panics)
  | (s, Returns (Err e)) =>
      (f, s, Returns (Err (io_error_other ("Error serializing packet: " +:+ display e))))
  | (s, Returns (Ok payload)) =>
      match serialize_packet_length ls (zlen payload) with
      | Err e =>
          (f, s, Returns (Err (io_error_other ("Error serializing packet length: " +:+ display e))))
      | Ok buf =>
          let '(w, res) := write_all (buf ++ payload) (writer_inner f) in
          ({| writer_inner := w |}, s, Returns res)
      end
  end.

(** Successive sends that succeed. *)
Fixpoint send_all (ls : LS) (packets : list Sp) (f : FramedWriter W) (s : Cd)
    : option (FramedWriter W * Cd) :=
  match packets with
  | [] => Some (f, s)
  | p :: packets =>
      match framed_send ls p f s with
      | (f, s, Returns (Ok _)) => send_all ls packets f s
      | _ => None
      end
  end.
End Write.

(** ** Lemmas *)

Section ReadLemmas.
Context `{Target} {R} `{ReadStreamLaws R} {LS} `{PacketLengthSerializer LS} `{!PrefixCodec LS}.
Context {Cd Rp Sp} `{Ser : Serializer Cd Rp Sp}.

Abbreviation loop := (read_length_loop (Cd:=Cd) (Rp:=Rp) (Sp:=Sp)).

(** One iteration, when the stream has the bytes it asks for. *)
Lemma read_length_loop_step fuel (ls : LS) prefix filled r :
  (filled ≤ length prefix)%nat →
  (length prefix - filled ≤ length (pending r))%nat →
  let more := take (length prefix - filled) (pending r) in
  ∃ r', pending r' = drop (length prefix - filled) (pending r) ∧
    loop (S fuel) ls prefix filled r =
    match deserialize_packet_length ls (take filled prefix ++ more) with
    | Ok len => Some (r', Ok len)
    | Err (NeedMoreBytes additional) =>
        loop fuel ls
          (vec_resize (take filled prefix ++ more)
             (Z.to_nat (wadd (zlen (take filled prefix ++ more)) additional)))
          (length (take filled prefix ++ more)) r'
    | Err (LengthErr error) => Some (r', Err (LengthDeserialization error))
    end.
Proof.
  intros Hf Hp more.
  destruct (read_exact_ok (length prefix - filled) r Hp) as (r' & Hr & Hr').
  exists r'. split; [done|]. cbn [read_length_loop]. unfold slice_get_from.
  by rewrite bool_decide_true, length_drop, Hr by done.
Qed.

Lemma read_length_loop_eof fuel (ls : LS) prefix filled r :
  (filled ≤ length prefix)%nat →
  (length (pending r) < length prefix - filled)%nat →
  ∃ r' e, loop (S fuel) ls prefix filled r = Some (r', Err (Io e)) ∧ kind e = UnexpectedEof.
Proof.
  intros Hf Hp. destruct (read_exact_eof (length prefix - filled) r Hp) as (r' & e & Hr & He).
  exists r', e. split; [|done]. cbn [read_length_loop]. unfold slice_get_from.
  by rewrite bool_decide_true, length_drop, Hr by done.
Qed.

(** One iteration on a prefix [bs] of which the first [k] bytes are read and the
    next [j] requested. *)
Lemma read_length_loop_prefix_step (ls : LS) n bs fuel k pad r :
  0 ≤ n ≤ usize_max → serialize_packet_length ls n = Ok bs →
  (SIZE ≤ k + length pad ≤ length bs)%nat →
  (length pad ≤ length (pending r))%nat →
  take (length pad) (pending r) = take (length pad) (drop k bs) →
  ∃ r', pending r' = drop (length pad) (pending r) ∧
    ((k + length pad = length bs)%nat ∧ loop (S fuel) ls (take k bs ++ pad) k r = Some (r', Ok n) ∨
     ∃ m, (0 < m)%nat ∧ (k + length pad + m ≤ length bs)%nat ∧
       loop (S fuel) ls (take k bs ++ pad) k r =
       loop fuel ls (take (k + length pad) bs ++ replicate m 0) (k + length pad) r').
Proof.
  intros Hn Hs Hkj Hj Htake. set (j := length pad) in *.
  destruct (prefix_size ls n bs Hn Hs) as [Hsz Hmax]. unfold zlen in Hmax.
  assert (Hk : length (take k bs) = k) by (rewrite length_take; lia).
  assert (Hlen : (length (take k bs ++ pad) - k)%nat = j) by (rewrite length_app; lia).
  assert (Htk : take k (take k bs ++ pad) = take k bs).
  { rewrite take_app_le by lia. rewrite take_ge; [done|lia]. }
  destruct (read_length_loop_step fuel ls (take k bs ++ pad) k r) as (r' & Hr' & Hstep);
    [rewrite length_app; lia|lia|].
  rewrite Hlen, Htk, Htake in *. rewrite take_take_drop in Hstep.
  exists r'. split; [done|].
  destruct (decide (k + j = length bs)%nat) as [Heq|Hne].
  - left. split; [done|]. rewrite Hstep, take_ge by lia. by rewrite (prefix_complete ls n bs).
  - right. destruct (prefix_partial ls n bs (k + j) Hn Hs) as (m & Hd & Hm); [lia|].
    assert (Hl : length (take (k + j) bs) = (k + j)%nat) by (rewrite length_take; lia).
    exists (Z.to_nat m). split; [lia|]. split; [lia|]. rewrite Hstep, Hd. f_equal; [|lia].
    unfold vec_resize, zlen. rewrite Hl, wadd_small by lia.
    rewrite take_ge by lia. f_equal. f_equal. lia.
Qed.

(** The loop returns the encoded length and leaves what follows the prefix. *)
Lemma read_length_loop_complete (ls : LS) n bs rest :
  0 ≤ n ≤ usize_max → serialize_packet_length ls n = Ok bs →
  ∀ fuel k pad r,
    (SIZE ≤ k + length pad ≤ length bs)%nat → (length bs < fuel + (k + length pad))%nat →
    pending r = drop k bs ++ rest →
    ∃ r', loop fuel ls (take k bs ++ pad) k r = Some (r', Ok n) ∧ pending r' = rest.
Proof.
  intros Hn Hs. induction fuel as [|fuel IH]; intros k pad r Hkj Hfuel Hr; [lia|].
  assert (Hd : length (drop k bs) = (length bs - k)%nat) by apply length_drop.
  destruct (read_length_loop_prefix_step ls n bs fuel k pad r) as (r' & Hr' & Hor); try done.
  { rewrite Hr, length_app. lia. }
  { rewrite Hr, take_app_le by lia. done. }
  rewrite Hr, drop_app_le, drop_drop in Hr' by lia.
  destruct Hor as [[Heq Hl] | (m & Hm & Hle & Hl)].
  - exists r'. split; [done|]. by rewrite Hr', drop_ge by lia.
  - rewrite Hl. apply IH; rewrite ?length_replicate; try lia. done.
Qed.

(** On a stream that ends inside the prefix it reports the end of the stream. *)
Lemma read_length_loop_truncated (ls : LS) n bs :
  0 ≤ n ≤ usize_max → serialize_packet_length ls n = Ok bs →
  ∀ fuel k pad r t,
    (SIZE ≤ k + length pad ≤ length bs)%nat → (length bs < fuel + (k + length pad))%nat →
    (k + t < length bs)%nat → pending r = take t (drop k bs) →
    ∃ r' e, loop fuel ls (take k bs ++ pad) k r = Some (r', Err (Io e)) ∧ kind e = UnexpectedEof.
Proof.
  intros Hn Hs. induction fuel as [|fuel IH]; intros k pad r t Hkj Hfuel Ht Hr; [lia|].
  assert (Hp : length (pending r) = t) by (rewrite Hr, length_take, length_drop; lia).
  destruct (decide (length pad ≤ t)%nat) as [Hpt|Hpt].
  - destruct (read_length_loop_prefix_step ls n bs fuel k pad r) as (r' & Hr' & Hor); try done.
    { lia. }
    { rewrite Hr, take_take. f_equal. lia. }
    rewrite Hr, skipn_firstn_comm, drop_drop in Hr'.
    destruct Hor as [[Heq Hl] | (m & Hm & Hle & Hl)]; [lia|].
    rewrite Hl. apply IH with (t := (t - length pad)%nat); rewrite ?length_replicate; try lia.
    rewrite Hr'. done.
  - assert (Hk : length (take k bs) = k) by (rewrite length_take; lia).
    apply read_length_loop_eof; rewrite length_app; lia.
Qed.

(** The loop on whatever the peer sent, when the codec only asks for more: every
    iteration that does not return reads at least one byte. *)
Lemma read_length_loop_total (ls : LS) :
  (∀ buf m, deserialize_packet_length ls buf = Err (NeedMoreBytes m) → 0 < m ≤ usize_max) →
  ∀ fuel prefix filled r,
    (filled < length prefix)%nat → zlen prefix ≤ usize_max →
    (length (pending r) < fuel)%nat → loop fuel ls prefix filled r ≠ None.
Proof.
  intros Hpos. induction fuel as [|fuel IH]; intros prefix filled r Hf Hmax Hfuel; [lia|].
  destruct (decide (length prefix - filled ≤ length (pending r))%nat) as [Hle|Hgt].
  2: { destruct (read_length_loop_eof fuel ls prefix filled r) as (r' & e & -> & _); lia || done. }
  destruct (read_length_loop_step fuel ls prefix filled r) as (r' & Hr' & ->); [lia|done|].
  set (buf := _ ++ _). assert (Hbuf : length buf = length prefix).
  { unfold buf. rewrite length_app, !length_take. lia. }
  destruct (deserialize_packet_length ls buf) as [len|[m|e]] eqn:Hd; [done| |done].
  apply Hpos in Hd. unfold zlen in *.
  destruct (decide (Z.of_nat (length buf) + m ≤ usize_max)) as [Hs|Hs].
  - rewrite wadd_small by lia. apply IH; unfold zlen; rewrite ?length_vec_resize; try lia.
    rewrite Hr', length_drop. lia.
  - rewrite wadd_wrap by lia. destruct fuel as [|fuel]; [lia|]. cbn. unfold slice_get_from.
    by rewrite bool_decide_false by (rewrite length_vec_resize; lia).
Qed.

Lemma read_length_total (ls : LS) (f : FramedReader R) fuel :
  (∀ buf m, deserialize_packet_length ls buf = Err (NeedMoreBytes m) → 0 < m ≤ usize_max) →
  Z.of_nat (SIZE (LS:=LS)) ≤ usize_max →
  (length (pending (reader_inner f)) + 2 ≤ fuel)%nat →
  read_length (Cd:=Cd) (Rp:=Rp) (Sp:=Sp) fuel ls f ≠ None.
Proof.
  intros Hpos Hsize Hfuel. unfold read_length. set (r := reader_inner f) in *.
  assert (loop fuel ls (replicate SIZE 0) 0 r ≠ None) as Hn.
  2: { by destruct (loop _ _ _ _ _) as [[??]|]. }
  destruct (decide (SIZE (LS:=LS) = 0%nat)) as [Hz|Hz].
  2: { apply read_length_loop_total; unfold zlen; rewrite ?length_replicate; try lia. done. }
  rewrite Hz. destruct fuel as [|fuel]; [lia|].
  destruct (read_length_loop_step fuel ls (replicate 0 0) 0 r) as (r' & Hr' & ->);
    [done|cbn; lia|]. change (length (replicate 0 0) - 0)%nat with 0%nat in *.
  rewrite !take_0. cbn [app].
  destruct (deserialize_packet_length ls []) as [len|[m|e]] eqn:Hd; [done| |done].
  apply Hpos in Hd. change (zlen []) with 0. rewrite wadd_small by lia.
  apply read_length_loop_total; unfold zlen; rewrite ?length_vec_resize, ?length_nil, ?Hr', ?drop_0;
    first [done | lia | cbn; lia].
Qed.

(** A whole frame, at the reader. *)
Lemma read_length_frame (ls : LS) n bs rest (f : FramedReader R) fuel :
  0 ≤ n ≤ usize_max → serialize_packet_length ls n = Ok bs →
  (length bs < fuel + SIZE (LS:=LS))%nat →
  pending (reader_inner f) = bs ++ rest →
  ∃ f', read_length (Cd:=Cd) (Rp:=Rp) (Sp:=Sp) fuel ls f = Some (f', Ok n) ∧
        pending (reader_inner f') = rest.
Proof.
  intros Hn Hs Hfuel Hr. destruct (prefix_size ls n bs Hn Hs) as [Hsz _].
  destruct (read_length_loop_complete ls n bs rest Hn Hs fuel 0 (replicate SIZE 0)
    (reader_inner f)) as (r' & Hl & Hr'); rewrite ?length_replicate; try lia; [done|].
  exists {| reader_inner := r' |}. unfold read_length. rewrite take_0 in Hl. cbn [app] in Hl. by rewrite Hl.
Qed.

Lemma read_length_truncated (ls : LS) n bs t (f : FramedReader R) fuel :
  0 ≤ n ≤ usize_max → serialize_packet_length ls n = Ok bs →
  (length bs < fuel + SIZE (LS:=LS))%nat → (t < length bs)%nat →
  pending (reader_inner f) = take t bs →
  ∃ f' e, read_length (Cd:=Cd) (Rp:=Rp) (Sp:=Sp) fuel ls f = Some (f', Err (Io e)) ∧
          kind e = UnexpectedEof.
Proof.
  intros Hn Hs Hfuel Ht Hr. destruct (prefix_size ls n bs Hn Hs) as [Hsz _].
  destruct (read_length_loop_truncated ls n bs Hn Hs fuel 0 (replicate SIZE 0)
    (reader_inner f) t) as (r' & e & Hl & He); rewrite ?length_replicate; try lia; [done|].
  exists {| reader_inner := r' |}, e. unfold read_length. rewrite take_0 in Hl. cbn [app] in Hl. by rewrite Hl.
Qed.
End ReadLemmas.

(** ** Frames

    The bytes of a frame, and of the frames of a list of packets whose payloads
    are [payloads]. *)

Definition frame_of {LS} `{PacketLengthSerializer LS} (ls : LS) (payload frame : list Z) : Prop :=
  ∃ buf, serialize_packet_length ls (zlen payload) = Ok buf ∧ frame = buf ++ payload.

Section Frames.
Context `{Target} {R} `{ReadStreamLaws R} {LS} `{PacketLengthSerializer LS} `{!PrefixCodec LS}.
Context {Cd Rp Sp} `{Ser : Serializer Cd Rp Sp}.

(** Receiving one complete frame: what [receive_with_timestamp] computes. *)
Lemma receive_frame {I} (ls : LS) limit (now : I) payload frame rest (f : FramedReader R) (s : Cd) fuel :
  zlen payload ≤ usize_max → frame_of ls payload frame → (length frame < fuel)%nat →
  pending (reader_inner f) = frame ++ rest →
  ∃ f', pending (reader_inner f') = (if limit <? zlen payload then payload ++ rest else rest) ∧
    receive_with_timestamp fuel ls limit now f s =
    if limit <? zlen payload then Some (f', s, Returns (Err PacketTooBig))
    else match deserialize payload s with
         | (s, Panics) => Some (f', s, Panics)
         | (s, Returns (Err e)) => Some (f', s, Returns (Err (Deserialization e)))
         | (s, Returns (Ok packet)) => Some (f', s, Returns (Ok (packet, now)))
         end.
Proof.
  intros Hmax (buf & Hs & ->) Hfuel Hp. rewrite length_app in Hfuel.
  pose proof (zlen_nonneg payload). rewrite <- app_assoc in Hp.
  destruct (read_length_frame (Cd:=Cd) (Rp:=Rp) (Sp:=Sp) ls (zlen payload) buf
    (payload ++ rest) f fuel) as (f1 & Hl & Hp1); try done; try lia.
  unfold receive_with_timestamp. rewrite Hl. destruct (limit <? zlen payload).
  - by exists f1.
  - assert (Hn : Z.to_nat (zlen payload) = length payload) by (unfold zlen; lia).
    destruct (read_exact_ok (length payload) (reader_inner f1)) as (r' & Hr & Hr').
    { rewrite Hp1, length_app. lia. }
    rewrite Hn, Hr, Hp1, take_app_length. exists {| reader_inner := r' |}.
    split; [cbn; by rewrite Hr', Hp1, drop_app_length|].
    by destruct (deserialize payload s) as [? [[?|?]|]].
Qed.
(** A frame cut short. *)
Lemma receive_truncated {I} (ls : LS) limit (now : I) payload frame t (s : Cd) fuel (f : FramedReader R) :
  zlen payload ≤ usize_max → frame_of ls payload frame → (length frame < fuel)%nat →
  (t < length frame)%nat → pending (reader_inner f) = take t frame →
  ∃ f' e, receive_with_timestamp fuel ls limit now f s = Some (f', s, Returns (Err e)) ∧
    ((∃ io, e = Io io ∧ kind io = UnexpectedEof) ∨ e = PacketTooBig ∧ limit < zlen payload).
Proof.
  intros Hmax (buf & Hs & ->) Hfuel Ht Hp. pose proof (zlen_nonneg payload) as Hpos.
  rewrite length_app in *. unfold receive_with_timestamp.
  destruct (decide (t < length buf)%nat) as [Hin|Hout].
  - rewrite take_app_le in Hp by lia.
    destruct (read_length_truncated (Cd:=Cd) (Rp:=Rp) (Sp:=Sp) ls (zlen payload) buf t f fuel)
      as (f' & e & -> & He); try done; try lia.
    exists f', (Io e). split; [done|]. eauto.
  - rewrite take_app_ge in Hp by lia.
    destruct (read_length_frame (Cd:=Cd) (Rp:=Rp) (Sp:=Sp) ls (zlen payload) buf
      (take (t - length buf) payload) f fuel) as (f1 & -> & Hp1); try done; try lia.
    destruct (limit <? zlen payload) eqn:Hlim; bools; [by eauto 10|].
    destruct (read_exact_eof (Z.to_nat (zlen payload)) (reader_inner f1)) as (r' & e & -> & He).
    { rewrite Hp1, length_take. unfold zlen. lia. }
    eexists _, (Io e). split; [done|]. eauto.
Qed.

(** A stream with nothing left. *)
Lemma receive_empty {I} (ls : LS) limit (now : I) (s : Cd) fuel (f : FramedReader R) :
  (0 < SIZE (LS:=LS))%nat → pending (reader_inner f) = [] →
  ∃ f' e, receive_with_timestamp (S fuel) ls limit now f s = Some (f', s, Returns (Err (Io e))) ∧
    kind e = UnexpectedEof.
Proof.
  intros Hsize Hp. unfold receive_with_timestamp, read_length.
  destruct (read_length_loop_eof (Cd:=Cd) (Rp:=Rp) (Sp:=Sp) fuel ls (replicate SIZE 0) 0 (reader_inner f))
    as (r' & e & -> & He); [lia|rewrite Hp, length_replicate; cbn; lia|].
  eexists _, e. by split.
Qed.
End Frames.

(** More fuel does not change an answer. *)
Section Fuel.
Context `{Target} {R} `{ReadStream R} {LS} `{PacketLengthSerializer LS}.
Context {Cd Rp Sp} `{Ser : Serializer Cd Rp Sp}.

Lemma read_length_loop_mono fuel fuel' (ls : LS) prefix filled (r : R) answer :
  (fuel ≤ fuel')%nat →
  read_length_loop (Cd:=Cd) (Rp:=Rp) (Sp:=Sp) fuel ls prefix filled r = Some answer →
  read_length_loop (Cd:=Cd) (Rp:=Rp) (Sp:=Sp) fuel' ls prefix filled r = Some answer.
Proof.
  revert fuel' prefix filled r. induction fuel as [|fuel IH]; intros fuel' prefix filled r Hle; [done|].
  destruct fuel' as [|fuel']; [lia|]. cbn. destruct (slice_get_from _ _); [|done].
  destruct (read_exact _ r) as [r' [bytes|e]]; [|done].
  destruct (deserialize_packet_length _ _) as [n|[m|e]]; try done. apply IH. lia.
Qed.

Lemma receive_mono {I} fuel fuel' (ls : LS) limit (now : I) (f : FramedReader R) (s : Cd) answer :
  (fuel ≤ fuel')%nat → receive_with_timestamp fuel ls limit now f s = Some answer →
  receive_with_timestamp fuel' ls limit now f s = Some answer.
Proof.
  intros Hle. unfold receive_with_timestamp, read_length.
  destruct (read_length_loop fuel _ _ _ _) as [[r res]|] eqn:Hl; [|done].
  by rewrite (read_length_loop_mono fuel fuel' _ _ _ _ _ Hle Hl).
Qed.
End Fuel.

Section RoundTrip.
Context `{Target} {R} `{ReadStreamLaws R} {W} `{WriteStreamLaws W}.
Context {LS} `{PacketLengthSerializer LS} `{!PrefixCodec LS} `{Display ls_error}.
Context {S1 S2 P Q} `{Out : Serializer S1 Q P} `{Inc : Serializer S2 P Q}.

Lemma framed_send_ok (ls : LS) (p : P) f s1 f' s1' :
  framed_send ls p f s1 = (f', s1', Returns (Ok tt)) →
  ∃ payload frame, serialize p s1 = (s1', Returns (Ok payload)) ∧ frame_of ls payload frame ∧
    written (writer_inner f') = written (writer_inner f) ++ frame.
Proof.
  unfold framed_send, frame_of.
  destruct (serialize p s1) as [s [[payload|e]|]] eqn:Hs; try done.
  destruct (serialize_packet_length ls (zlen payload)) as [buf|e] eqn:Hl; [|done].
  destruct (write_all_ok (buf ++ payload) (writer_inner f)) as (w' & Hw & Hw').
  rewrite Hw. intros [= <- <-]. eauto 10.
Qed.

Context {sendable : P → Prop} {max_payload : Z} {synced : S1 → S2 → Prop}
  `{!SerializerPair Out Inc sendable max_payload synced}.

(** C12. Stream transports deliver exactly what was sent: if a peer sends any list
    of packets with the framed writer, then a framed reader on the other end,
    fed those bytes followed by anything, returns the same packets in the same
    order, stops exactly at the end of the last frame, and leaves the two
    serializers in step. This holds for every length codec that keeps the
    prefix contract, every serializer pair, and every limit the payloads meet;
    the reader never runs out of iterations. *)
Theorem framed_stream_roundtrip (ls : LS) (limit : Z) (packets : list P)
    (fw fw' : FramedWriter W) (s1 s1' : S1) (s2 : S2) :
  max_payload ≤ limit → max_payload ≤ usize_max → Forall sendable packets → synced s1 s2 →
  send_all ls packets fw s1 = Some (fw', s1') →
  ∃ bytes enough, written (writer_inner fw') = written (writer_inner fw) ++ bytes ∧
  ∀ fuel (fr : FramedReader R) rest, (enough ≤ fuel)%nat →
    pending (reader_inner fr) = bytes ++ rest →
    ∃ fr' s2', receive_all (Rp:=P) fuel (length packets) ls limit fr s2 = Some (fr', s2', packets) ∧
               pending (reader_inner fr') = rest ∧ synced s1' s2'.
Proof.
  intros Hlim Hmax Hok. revert fw s1 s2.
  induction Hok as [|p packets Hp Hok IH]; intros fw s1 s2 Hsync Hsend.
  - cbn in Hsend. simplify_eq. exists [], 0%nat. split; [by rewrite app_nil_r|].
    intros fuel fr rest _ Hpend. by exists fr, s2.
  - cbn [send_all] in Hsend.
    destruct (framed_send ls p fw s1) as [[fw1 s11] [[[]|]|]] eqn:Hf; try done.
    destruct (framed_send_ok ls p fw s1 fw1 s11 Hf) as (payload & frame & Hser & Hframe & Hw).
    destruct (pair_roundtrip p s1 s2 s11 payload Hp Hsync Hser) as (Hpl & s21 & Hde & Hsync').
    destruct (IH fw1 s11 s21 Hsync' Hsend) as (bytes & enough & Hw' & Hrec).
    exists (frame ++ bytes), (Nat.max (S (length frame)) enough).
    split; [by rewrite Hw', Hw, app_assoc|].
    intros fuel fr rest Hfuel Hpend. rewrite <- app_assoc in Hpend.
    destruct (receive_frame (Ser:=Inc) ls limit tt payload frame (bytes ++ rest) fr s2 fuel)
      as (fr1 & Hp1 & Hr); [lia|done|lia|done|].
    rewrite (proj2 (Z.ltb_ge _ _)) in Hp1, Hr by lia. rewrite Hde in Hr.
    destruct (Hrec fuel fr1 rest) as (fr' & s2' & Hall & Hp' & Hs'); [lia|done|].
    exists fr', s2'. split; [|done]. cbn [receive_all length]. unfold receive. rewrite Hr.
    cbn [result_map fst]. by rewrite Hall.
Qed.
End RoundTrip.

(** ** Properties of one packet *)

Section Properties.
Context `{Target} {R} `{ReadStreamLaws R} {LS} `{PacketLengthSerializer LS} `{!PrefixCodec LS}.
Context {Cd Rp Sp} `{Ser : Serializer Cd Rp Sp}.

(** What the framed reader answers, on a complete frame and on every
    truncation of it. A frame above the limit is refused with [PacketTooBig]
    before a single payload byte is read or decoded; any other complete frame is
    consumed exactly and answered with what the serializer makes of the payload;
    and a stream that ends anywhere inside the frame is an end-of-stream I/O
    error, never a packet, with the serializer's state untouched (a refused
    frame cut inside its payload is still refused). *)
Theorem framed_receive_outcome {I} (ls : LS) limit (now : I) payload frame (s : Cd) fuel
    (f : FramedReader R) :
  zlen payload ≤ usize_max → frame_of ls payload frame → (length frame < fuel)%nat →
  (∀ rest, pending (reader_inner f) = frame ++ rest → limit < zlen payload →
     ∃ f', receive_with_timestamp fuel ls limit now f s = Some (f', s, Returns (Err PacketTooBig)) ∧
           pending (reader_inner f') = payload ++ rest) ∧
  (∀ rest, pending (reader_inner f) = frame ++ rest → zlen payload ≤ limit →
     ∃ f', pending (reader_inner f') = rest ∧
       receive_with_timestamp fuel ls limit now f s =
       match deserialize payload s with
       | (s', Returns (Ok packet)) => Some (f', s', Returns (Ok (packet, now)))
       | (s', Returns (Err e)) => Some (f', s', Returns (Err (Deserialization e)))
       | (s', Panics) => Some (f', s', Panics)
       end) ∧
  (∀ t, (t < length frame)%nat → pending (reader_inner f) = take t frame →
     ∃ f' e, receive_with_timestamp fuel ls limit now f s = Some (f', s, Returns (Err e)) ∧
       ((∃ io, e = Io io ∧ kind io = UnexpectedEof) ∨ e = PacketTooBig ∧ limit < zlen payload)).
Proof.
  intros Hmax Hframe Hfuel. split_and!.
  - intros rest Hp Hlim.
    destruct (receive_frame ls limit now payload frame rest f s fuel) as (f' & Hp' & Hr); try done.
    rewrite (proj2 (Z.ltb_lt _ _)) in Hp', Hr by done. by exists f'.
  - intros rest Hp Hlim.
    destruct (receive_frame ls limit now payload frame rest f s fuel) as (f' & Hp' & Hr); try done.
    rewrite (proj2 (Z.ltb_ge _ _)) in Hp', Hr by done. exists f'. split; [done|]. rewrite Hr.
    by destruct (deserialize payload s) as [? [[?|?]|]].
  - intros t Ht Hp. by apply (receive_truncated ls limit now payload frame t).
Qed.

(** C35. The reader always answers, whatever bytes the peer sends: if the length
    codec only ever asks for a positive number of further bytes, [read_length]
    ends within two iterations more than the number of bytes the peer sent,
    because each iteration that continues has read a byte; even a request that
    wraps [usize] ends it. *)
Theorem framed_receive_terminates {I} (ls : LS) limit (now : I) (s : Cd) (f : FramedReader R) fuel :
  (∀ buf m, deserialize_packet_length ls buf = Err (NeedMoreBytes m) → 0 < m ≤ usize_max) →
  Z.of_nat (SIZE (LS:=LS)) ≤ usize_max →
  (length (pending (reader_inner f)) + 2 ≤ fuel)%nat →
  ∃ answer, receive_with_timestamp fuel ls limit now f s = Some answer.
Proof.
  intros Hpos Hsize Hfuel. unfold receive_with_timestamp.
  pose proof (read_length_total (Cd:=Cd) (Rp:=Rp) (Sp:=Sp) ls f fuel Hpos Hsize Hfuel) as Hn.
  destruct (read_length _ _ _) as [[f' [n|e]]|]; [|by eauto|done].
  destruct (limit <? n); [by eauto|].
  destruct (read_exact _ _) as [r' [payload|e]]; [|by eauto].
  destruct (deserialize payload s) as [? [[?|?]|]]; by eauto.
Qed.
End Properties.

(** ** Reference streams and witnesses *)

(** The bytes a closed peer wrote, and a growing buffer. *)
#[export] Instance bytes_read : ReadStream (list Z) := {
  read_exact n r :=
    if bool_decide (n ≤ length r)%nat then (drop n r, Ok (take n r))
    else ([], Err (io_error_from UnexpectedEof));
}.
#[export] Instance bytes_read_laws : ReadStreamLaws (list Z).
Proof.
  refine {| pending := id |}; unfold id; cbn.
  - intros n r Hn. rewrite bool_decide_true by done. eauto.
  - intros n r Hn. rewrite bool_decide_false by lia. eauto.
Defined.

#[export] Instance bytes_write : WriteStream (list Z) := {
  write_all bs w := (w ++ bs, Ok tt);
}.
#[export] Instance bytes_write_laws : WriteStreamLaws (list Z).
Proof. refine {| written := id |}; unfold id; cbn. eauto. Defined.

(** [thiserror]'s message. *)
#[export] Instance display_too_large : Display PacketTooLargeError := λ e,
  ("The packet is too large (length: " +:+ pretty (ptl_length e) +:+
   ", max_length: " +:+ pretty (ptl_max_length e) +:+ ")")%string.

Definition u16le : LittleEndian u16 := little_endian.
Definition bool_adapter : SerializerAdapter BitcodeSerializer BitcodeSerializer := ReadOnly bitcode_new.
Definition reader (bs : list Z) : FramedReader (list Z) := {| reader_inner := bs |}.
Definition writer (bs : list Z) : FramedWriter (list Z) := {| writer_inner := bs |}.

Lemma framed_stream_roundtrip_witness :
  send_all (Ser:=bool_serializer) u16le [true; false] (writer [9]) bool_adapter =
    Some (writer [9; 1; 0; 1; 1; 0; 0], bool_adapter) ∧
  ∃ bytes enough, written [9; 1; 0; 1; 1; 0; 0] = written [9] ++ bytes ∧
  ∀ fuel (fr : FramedReader (list Z)) rest, (enough ≤ fuel)%nat → pending (reader_inner fr) = bytes ++ rest →
    ∃ fr' s2', receive_all (Ser:=bool_serializer) (Rp:=bool) fuel 2 u16le 64 fr bool_adapter =
                 Some (fr', s2', [true; false]) ∧
               pending (reader_inner fr') = rest ∧ (bool_adapter = s2' ∧ ∃ r, bool_adapter = ReadOnly r).
Proof.
  assert (Hs : send_all (Ser:=bool_serializer) u16le [true; false] (writer [9]) bool_adapter =
    Some (writer [9; 1; 0; 1; 1; 0; 0], bool_adapter)) by by vm_compute.
  split; [exact Hs|].
  refine (framed_stream_roundtrip (Inc:=bool_serializer)
    (synced:=λ s1 s2, s1 = s2 ∧ ∃ r, s1 = ReadOnly r) (sendable:=λ _, True) (max_payload:=1) (R:=list Z)
    u16le 64 [true; false] (writer [9]) _ bool_adapter _ bool_adapter _ _ _ _ Hs);
    [lia | apply Z.leb_le; by vm_compute | by repeat constructor | by split; [|exists bitcode_new]].
Defined.

Lemma framed_receive_outcome_witness :
  frame_of u16le [1] [1; 0; 1] ∧
  ∃ f', receive_with_timestamp (Ser:=bool_serializer) (Rp:=bool) 9 u16le 0 tt (reader [1; 0; 1; 5]) bool_adapter =
          Some (f', bool_adapter, Returns (Err PacketTooBig)) ∧
        pending (reader_inner f') = [1] ++ [5].
Proof.
  assert (Hf : frame_of u16le [1] [1; 0; 1]) by by exists [1; 0].
  split; [exact Hf|].
  apply (proj1 (framed_receive_outcome (Ser:=bool_serializer) (Rp:=bool) u16le 0 tt [1] [1; 0; 1]
    bool_adapter 9 (reader [1; 0; 1; 5]) ltac:(apply Z.leb_le; by vm_compute) Hf ltac:(cbn; lia)) [5]);
    [done | by vm_compute].
Defined.

Lemma framed_receive_terminates_witness :
  (∀ buf m, deserialize_packet_length u16le buf = Err (NeedMoreBytes m) → 0 < m ≤ usize_max) ∧
  ∃ answer, receive_with_timestamp (Ser:=bool_serializer) (Rp:=bool) 5 u16le 0 tt (reader [7; 7; 7])
              bool_adapter = Some answer.
Proof.
  assert (Hp : ∀ buf m, deserialize_packet_length u16le buf = Err (NeedMoreBytes m) → 0 < m ≤ usize_max).
  { intros buf m. cbn. unfold deserialize_length, slice_get_to.
    change (width_bytes u16) with 2%nat. case_bool_decide as Hb.
    - by destruct (usize_try_from _).
    - change (width_bytes u16) with 2%nat in *. assert (2 ≤ usize_max) by (apply Z.leb_le; by vm_compute).
      change (Z.of_nat 2) with 2. intros [= <-]. unfold zlen in *. rewrite wsub_small; lia. }
  split; [exact Hp|].
  apply (framed_receive_terminates (Ser:=bool_serializer) (Rp:=bool) u16le 0 tt bool_adapter
    (reader [7; 7; 7]) 5 Hp); [apply Z.leb_le; by vm_compute | cbn; lia].
Defined.
