(* ===== verification/Crypt.v ===== *)
(** * The example stateful serializer

    Models src/src/serializers/custom_crypt.rs: the XOR transform with its u8
    positions, [CustomCryptEngine] in both directions and
    [CustomCryptSerializer], behind the mutable side of [SerializerAdapter]. *)

From S2P Require Import Prelude Serializer.

(** ** Packets *)

Inductive CustomCryptClientPacket := ClientString (s : string).
Inductive CustomCryptServerPacket := ServerString (s : string).
Definition client_packet_default : CustomCryptClientPacket := ClientString EmptyString.
Definition server_packet_default : CustomCryptServerPacket := ServerString EmptyString.

Inductive CustomSerializationError := custom_serialization_error.
#[export] Instance display_custom_error : Display CustomSerializationError :=
  λ _, "SerializationFailed"%string.

(** ** The engine *)

Class CryptEngine (C Rp Sp : Type) := {
  engine_default : C;
  encrypt : Sp → C → C * result (list Z) CustomSerializationError;
  decrypt : list Z → C → C * result Rp CustomSerializationError;
}.

(** [XorPosition(u8)] *)
Record XorPosition := { position : Z }.

(** [*byte ^= self.0; self.0 = self.0.wrapping_add(1)] over the bytes in order. *)
Fixpoint transform (p : XorPosition) (data : list Z) : XorPosition * list Z :=
  match data with
  | [] => (p, [])
  | byte :: data =>
      let '(p', data) := transform {| position := (position p + 1) mod 256 |} data in
      (p', Z.lxor byte (position p) :: data)
  end.

Record ExampleKeyPair := { send : XorPosition; receive : XorPosition }.
Record CustomCryptEngine := { key_pair : ExampleKeyPair }.

Definition CustomCryptEngine_default : CustomCryptEngine :=
  {| key_pair := {| send := {| position := 0 |}; receive := {| position := 0 |} |} |}.

Definition xor_encrypt (data : list Z) (e : CustomCryptEngine) : CustomCryptEngine * list Z :=
  let '(p, data) := transform (send (key_pair e)) data in
  ({| key_pair := {| send := p; receive := receive (key_pair e) |} |}, data).

Definition xor_decrypt (data : list Z) (e : CustomCryptEngine) : CustomCryptEngine * list Z :=
  let '(p, data) := transform (receive (key_pair e)) data in
  ({| key_pair := {| send := send (key_pair e); receive := p |} |}, data).

Section Engine.
Context {E Rp Sp : Type} `{Bitcode Sp E} `{Bitcode Rp E}.

Definition engine_encrypt (packet : Sp) (e : CustomCryptEngine)
    : CustomCryptEngine * result (list Z) CustomSerializationError :=
  let '(e, data) := xor_encrypt (bitcode_encode packet) e in (e, Ok data).

Definition engine_decrypt (packet : list Z) (e : CustomCryptEngine)
    : CustomCryptEngine * result Rp CustomSerializationError :=
  let '(e, decrypted_data) := xor_decrypt packet e in
  (e, map_err (λ _, custom_serialization_error) (bitcode_decode decrypted_data)).
End Engine.

(** The two [impl CryptEngine]: a server and a client end. *)
#[export] Instance CustomCryptEngine_server {E} `{Bitcode CustomCryptServerPacket E}
    `{Bitcode CustomCryptClientPacket E} :
    CryptEngine CustomCryptEngine CustomCryptClientPacket CustomCryptServerPacket := {
  engine_default := CustomCryptEngine_default;
  encrypt := engine_encrypt;
  decrypt := engine_decrypt;
}.
#[export] Instance CustomCryptEngine_client {E} `{Bitcode CustomCryptServerPacket E}
    `{Bitcode CustomCryptClientPacket E} :
    CryptEngine CustomCryptEngine CustomCryptServerPacket CustomCryptClientPacket := {
  engine_default := CustomCryptEngine_default;
  encrypt := engine_encrypt;
  decrypt := engine_decrypt;
}.

(** ** The serializer *)

Record CustomCryptSerializer (C Rp Sp : Type) := { crypt_engine : C }.
Arguments crypt_engine {C Rp Sp} c.

Definition CustomCryptSerializer_new {C Rp Sp} (crypt_engine : C) : CustomCryptSerializer C Rp Sp :=
  {| crypt_engine := crypt_engine |}.
Definition CustomCryptSerializer_default {C Rp Sp} `{CryptEngine C Rp Sp} :
    CustomCryptSerializer C Rp Sp := {| crypt_engine := engine_default |}.

#[export] Instance CustomCryptSerializer_mutable {C Rp Sp} `{CryptEngine C Rp Sp} :
    MutableSerializer (CustomCryptSerializer C Rp Sp) Rp Sp
      CustomSerializationError CustomSerializationError := {
  mut_serialize packet s :=
    let '(c, res) := encrypt packet (crypt_engine s) in ({| crypt_engine := c |}, Returns res);
  mut_deserialize buffer s :=
    let '(c, res) := decrypt buffer (crypt_engine s) in ({| crypt_engine := c |}, Returns res);
}.

(** ** Lemmas *)

Lemma transform_length p data : length (transform p data).2 = length data.
Proof.
  revert p; induction data as [|b data IH]; intros p; [done|]. cbn.
  specialize (IH {| position := (position p + 1) mod 256 |}).
  destruct (transform _ data); cbn in *. by rewrite IH.
Qed.

Lemma transform_involutive p data :
  transform p (transform p data).2 = ((transform p data).1, data).
Proof.
  revert p; induction data as [|b data IH]; intros p; [done|]. cbn.
  specialize (IH {| position := (position p + 1) mod 256 |}).
  destruct (transform _ data) as [p' d]; cbn in *. rewrite IH.
  by rewrite Z.lxor_assoc, Z.lxor_nilpotent, Z.lxor_0_r.
Qed.

(** The position advances by the length of the payload, modulo 256. *)
Lemma transform_position p data :
  0 ≤ position p < 256 →
  position (transform p data).1 = (position p + zlen data) mod 256.
Proof.
  revert p; induction data as [|b data IH]; intros p Hp.
  - cbn. rewrite zlen_nil, Z.add_0_r. by rewrite Z.mod_small.
  - cbn. specialize (IH {| position := (position p + 1) mod 256 |}).
    destruct (transform _ data) as [p' d]; cbn in *. rewrite IH by (apply Z.mod_pos_bound; lia).
    rewrite zlen_cons, Zplus_mod_idemp_l. f_equal. lia.
Qed.

Lemma transform_shift_ne p q b data :
  position p ≠ position q → (transform q (transform p (b :: data)).2).2 ≠ b :: data.
Proof.
  intros Hne. cbn. destruct (transform _ data) as [p' d]; cbn.
  destruct (transform _ d) as [q' d']; cbn. intros [= Hb _].
  apply Hne. rewrite Z.lxor_assoc in Hb. rewrite <- (Z.lxor_0_r b) in Hb at 2.
  apply (f_equal (Z.lxor b)) in Hb.
  rewrite <- !Z.lxor_assoc, Z.lxor_nilpotent, !Z.lxor_0_l in Hb. by apply Z.lxor_eq.
Qed.

(** ** Properties *)

(** [synced]: both peers hold a healthy lock, and the sender's send position is
    the receiver's receive position. *)
Definition crypt_synced {R Rp Sp}
    (s1 : SerializerAdapter R (CustomCryptSerializer CustomCryptEngine Rp Sp))
    (s2 : SerializerAdapter R (CustomCryptSerializer CustomCryptEngine Sp Rp)) : Prop :=
  ∃ e1 e2, s1 = Mutable {| contents := {| crypt_engine := e1 |}; poisoned := false |} ∧
           s2 = Mutable {| contents := {| crypt_engine := e2 |}; poisoned := false |} ∧
           send (key_pair e1) = receive (key_pair e2).

Ltac prove_crypt_pair :=
  split; intros p s1 s2 s1' bs Hmax (e1 & e2 & -> & -> & Hpos);
  cbn; unfold adapter_serialize, adapter_deserialize, with_lock; cbn;
  unfold engine_encrypt, engine_decrypt, xor_encrypt, xor_decrypt; cbn; rewrite <- Hpos;
  pose proof (transform_involutive (send (key_pair e1)) (bitcode_encode p)) as Hinv;
  pose proof (transform_length (send (key_pair e1)) (bitcode_encode p)) as Hlen;
  destruct (transform _ (bitcode_encode p)) as [q d] eqn:Ht; cbn in *; intros [= <- <-];
  split; [unfold zlen in *; lia|];
  rewrite Hinv; cbn; rewrite bitcode_roundtrip; cbn; eexists; split; [done|];
  by eexists _, _.

(** One position serves the payloads an end sends and the other those it receives. *)
Ltac prove_crypt_shared :=
  split;
  [ intros bs s1 s1' s2 r (e1 & e2 & -> & -> & Hpos); cbn; unfold adapter_deserialize, with_lock; cbn;
    unfold engine_decrypt, xor_decrypt; cbn; destruct (transform _ bs); intros [= <- _]; by eexists _, _
  | intros q s1 s2 s2' r (e1 & e2 & -> & -> & Hpos); cbn; unfold adapter_serialize, with_lock; cbn;
    unfold engine_encrypt, xor_encrypt; cbn; destruct (transform _ (bitcode_encode q)); intros [= <- _]; by eexists _, _
  | intros q bs p [r|[[c] []]] se sd res; cbn; unfold adapter_serialize, adapter_deserialize, with_lock; cbn;
    [ intros [= <- _] [= <- ->]; by eexists _, _
    | done
    | unfold engine_encrypt, engine_decrypt, xor_encrypt, xor_decrypt; cbn;
      destruct (transform _ (bitcode_encode q)) eqn:Hq, (transform _ bs) eqn:Hb; cbn;
      intros [= <- _] [= <- Hp]; cbn; rewrite Hq, Hb; cbn; rewrite Hp; by eexists _, _ ] ].

Section Properties.
Context {E : Type} `{BitcodeLaws CustomCryptServerPacket E} `{BitcodeLaws CustomCryptClientPacket E}.
Context {R : Type}
  `{ReadOnlySerializer R CustomCryptClientPacket CustomCryptServerPacket
      CustomSerializationError CustomSerializationError}
  `{ReadOnlySerializer R CustomCryptServerPacket CustomCryptClientPacket
      CustomSerializationError CustomSerializationError}.

Definition server_end : Serializer (SerializerAdapter R (CustomCryptSerializer CustomCryptEngine _ _))
    CustomCryptClientPacket CustomCryptServerPacket := adapter_serializer.
Definition client_end : Serializer (SerializerAdapter R (CustomCryptSerializer CustomCryptEngine _ _))
    CustomCryptServerPacket CustomCryptClientPacket := adapter_serializer.

#[export] Instance server_pair max_payload : SerializerPair server_end client_end
  (λ p, zlen (bitcode_encode p) ≤ max_payload) max_payload crypt_synced.
Proof. prove_crypt_pair. Qed.
#[export] Instance client_pair max_payload : SerializerPair client_end server_end
  (λ p, zlen (bitcode_encode p) ≤ max_payload) max_payload crypt_synced.
Proof. prove_crypt_pair. Qed.
#[export] Instance server_shared : SharedSerializer server_end client_end crypt_synced.
Proof. prove_crypt_shared. Qed.
#[export] Instance client_shared : SharedSerializer client_end server_end crypt_synced.
Proof. prove_crypt_shared. Qed.

(** Neither end fails to encode. *)
Lemma server_encodes (p : CustomCryptServerPacket) s c : crypt_synced s c →
  ∃ s' bs, serialize (Serializer:=server_end) p s = (s', Returns (Ok bs)).
Proof.
  intros (e1 & e2 & -> & _ & _). cbn. unfold engine_encrypt, xor_encrypt.
  destruct (transform _ (bitcode_encode p)). by eexists _, _.
Qed.

Lemma client_encodes (p : CustomCryptClientPacket) c s : crypt_synced c s →
  ∃ c' bs, serialize (Serializer:=client_end) p c = (c', Returns (Ok bs)).
Proof.
  intros (e1 & e2 & -> & _ & _). cbn. unfold engine_encrypt, xor_encrypt.
  destruct (transform _ (bitcode_encode p)). by eexists _, _.
Qed.

Abbreviation peer_events := (list (peer_event CustomCryptServerPacket CustomCryptClientPacket)).
Abbreviation fits_in := (λ m p, zlen (bitcode_encode p) ≤ m).

Lemma events_fit (evs : peer_events) : ∃ m, Forall (peer_event_ok (sayP:=fits_in m) (sayQ:=fits_in m)) evs.
Proof.
  induction evs as [|ev evs [m Hm]]; [by exists 0|].
  exists (m `max` match ev with NearEncodes p => zlen (bitcode_encode p) | FarEncodes q => zlen (bitcode_encode q) | _ => 0 end).
  constructor; [destruct ev; cbn; lia|]. eapply Forall_impl; [exact Hm|]. intros [] Hx; cbn in *; lia.
Qed.

(** C38. The encrypted serializer serves both directions of a stream connection at
    once, one at each end: it meets the contract of a stream connection each way,
    its two positions being independent of each other; and from ends in step,
    whatever the order in which the tasks of the two ends encrypt and decrypt, every
    packet is encrypted, and what each end decrypts are the packets of the other, in
    order and unchanged, up to those still on their way. *)
Theorem crypt_synchronized :
  (∀ max_payload, SerializerPair server_end client_end (fits_in max_payload) max_payload crypt_synced ∧
                  SerializerPair client_end server_end (fits_in max_payload) max_payload crypt_synced) ∧
  SharedSerializer server_end client_end crypt_synced ∧ SharedSerializer client_end server_end crypt_synced ∧
  ∀ s c (evs : peer_events), crypt_synced s c → crypt_synced c s →
  let e := peers_run evs (peers_start s c : Peers (Out:=server_end) (Inc:=client_end)) in
  near_said e = omap near_says evs ∧ far_said e = omap far_says evs ∧
  (∃ rest, (λ p, Returns (Ok p)) <$> near_said e = far_read e ++ rest ∧ length rest = length (forth e)) ∧
  (∃ rest, (λ p, Returns (Ok p)) <$> far_said e = near_read e ++ rest ∧ length rest = length (back e)).
Proof.
  split_and!; [split; apply _|apply _..|]. intros s c evs Hs Hc. destruct (events_fit evs) as [m Hm].
  eapply (peers_read (max_payload:=m)); try done.
  - intros p s1 s2 _. apply server_encodes.
  - intros q s2 s1 _. apply client_encodes.
Qed.
End Properties.

(** Losing a payload desynchronizes the two ends for good unless its length
    is a multiple of 256: the receiver then decodes the next non-empty payload
    to other bytes than were sent. This is exactly when the serializer is unfit
    for datagrams. *)
Theorem crypt_loss_desynchronizes (sender receiver : CustomCryptEngine) (lost : list Z) b data :
  send (key_pair sender) = receive (key_pair receiver) →
  0 ≤ position (send (key_pair sender)) < 256 →
  let '(sender1, _) := xor_encrypt lost sender in
  let '(_, sent) := xor_encrypt (b :: data) sender1 in
  (xor_decrypt sent receiver).2 = b :: data ↔ (256 | zlen lost).
Proof.
  intros Hsync Hpos. unfold xor_encrypt, xor_decrypt. rewrite <- Hsync.
  pose proof (transform_position (send (key_pair sender)) lost Hpos) as Hq.
  destruct (transform (send (key_pair sender)) lost) as [q l]. cbn [fst] in Hq. cbn [key_pair send].
  destruct (transform q (b :: data)) as [q' sent] eqn:Hs.
  replace sent with (transform q (b :: data)).2 by by rewrite Hs.
  destruct (transform (send (key_pair sender)) _) as [p' dec] eqn:Hd. cbn [snd].
  replace dec with (transform (send (key_pair sender)) (transform q (b :: data)).2).2 by by rewrite Hd.
  set (p := send (key_pair sender)) in *.
  assert (Hiff : (256 | zlen lost) ↔ position q = position p).
  { rewrite Hq, <- Z.mod_divide by lia. rewrite Z.add_mod, (Z.mod_small (position p)) by lia.
    pose proof (Z.mod_pos_bound (zlen lost) 256). split.
    - intros ->. rewrite Z.add_0_r. by apply Z.mod_small.
    - intros Heq. destruct (decide (position p + zlen lost mod 256 < 256)).
      + rewrite Z.mod_small in Heq; lia.
      + rewrite <- (Z.mod_unique_pos _ 256 1 (position p + zlen lost mod 256 - 256)) in Heq; lia. }
  rewrite Hiff. split.
  - intros Heq. destruct (decide (position q = position p)) as [|Hne]; [done|].
    by destruct (transform_shift_ne q p b data Hne).
  - intros Heq. assert (q = p) as -> by (destruct q, p; cbn in *; by f_equal).
    by rewrite transform_involutive.
Qed.

Lemma crypt_loss_desynchronizes_witness :
  let sender := CustomCryptEngine_default in
  (0 ≤ position (send (key_pair sender)) < 256) ∧
  ((xor_decrypt [6; 11] CustomCryptEngine_default).2 = [7; 9] ↔ (256 | zlen [5])).
Proof.
  split; [cbn; lia|].
  exact (crypt_loss_desynchronizes CustomCryptEngine_default CustomCryptEngine_default [5] 7 [9]
    eq_refl ltac:(cbn; lia)).
Defined.

(** ** A concrete codec for the packets *)

Definition string_encode (s : string) : list Z :=
  map (λ a, Z.of_nat (Ascii.nat_of_ascii a)) (String.list_ascii_of_string s).
Definition string_decode (bs : list Z) : string :=
  String.string_of_list_ascii (map (λ b, Ascii.ascii_of_nat (Z.to_nat b)) bs).

Lemma string_decode_encode s : string_decode (string_encode s) = s.
Proof.
  unfold string_decode, string_encode. rewrite map_map, (map_ext _ id), map_id.
  - apply String.string_of_list_ascii_of_string.
  - intros a. unfold id. by rewrite Nat2Z.id, Ascii.ascii_nat_embedding.
Qed.

#[export] Instance server_packet_bitcode : Bitcode CustomCryptServerPacket unit := {
  bitcode_encode p := let '(ServerString s) := p in string_encode s;
  bitcode_decode bs := Ok (ServerString (string_decode bs));
}.
#[export] Instance client_packet_bitcode : Bitcode CustomCryptClientPacket unit := {
  bitcode_encode p := let '(ClientString s) := p in string_encode s;
  bitcode_decode bs := Ok (ClientString (string_decode bs));
}.
#[export] Instance server_packet_laws : BitcodeLaws CustomCryptServerPacket unit.
Proof. split. intros [s]. exact (f_equal (λ s, Ok (ServerString s)) (string_decode_encode s)). Qed.
#[export] Instance client_packet_laws : BitcodeLaws CustomCryptClientPacket unit.
Proof. split. intros [s]. exact (f_equal (λ s, Ok (ClientString s)) (string_decode_encode s)). Qed.

#[export] Instance no_read_only {Rp Sp Enc Dec} : ReadOnlySerializer Empty_set Rp Sp Enc Dec := {
  ro_serialize e := match e with end;
  ro_deserialize e := match e with end;
}.

(** The server's second packet is encrypted before its first is read, and the
    client answers in between. *)
Definition example_peers : list (peer_event CustomCryptServerPacket CustomCryptClientPacket) :=
  [NearEncodes (ServerString "Hello, World!"); NearEncodes (ServerString "Hello, Client!"); FarDecodes;
   FarEncodes (ClientString "Hello, Server!"); NearDecodes; FarDecodes].

Definition fresh_end {Rp Sp} : SerializerAdapter Empty_set (CustomCryptSerializer CustomCryptEngine Rp Sp) :=
  Mutable {| contents := CustomCryptSerializer_new CustomCryptEngine_default; poisoned := false |}.

Lemma crypt_synchronized_witness :
  let e := peers_run example_peers
    (peers_start fresh_end fresh_end : Peers (Out:=server_end) (Inc:=client_end)) in
  forth e = [] ∧ far_said e = [ClientString "Hello, Server!"] ∧
  ∃ rest, [Returns (Ok (ServerString "Hello, World!")); Returns (Ok (ServerString "Hello, Client!"))] = far_read e ++ rest ∧
    length rest = 0%nat.
Proof.
  cbn zeta. split; [by vm_compute|].
  destruct (proj2 (proj2 (proj2 (crypt_synchronized (E:=unit) (R:=Empty_set)))) fresh_end fresh_end example_peers)
    as (Hn & Hf & Hread & _); [by eexists _, _..|].
  split; [exact Hf|]. rewrite Hn in Hread. exact Hread.
Defined.
