(* ===== verification/Pacing.v ===== *)
(** * Datagram pacing

    Models src/src/protocols/udp/pacing.rs: the [spacing] of sends, with its
    u128 arithmetic and the [Duration] it builds, and [DataPacer], whose [wait]
    is read as the states of the world at which its task is polled. *)

From S2P Require Import Prelude Protocol Lossy.

(** ** Durations

    [std::time::Duration]; [Instant]s are nanoseconds. *)

Record Duration := { secs : Z; subsec_nanos : Z }.
Definition as_nanos (d : Duration) : Z := secs d * 1000000000 + subsec_nanos d.

Definition u32_max : Z := 2 ^ 32 - 1.
Definition u128_modulus : Z := 2 ^ 128.

(** [Duration::new] carries excess nanoseconds into the seconds. *)
Definition Duration_new (s n : Z) : Duration :=
  {| secs := s + n / 1000000000; subsec_nanos := n mod 1000000000 |}.

(** [u128::div_ceil]. *)
Definition div_ceil (a b : Z) : Z :=
  let d := a / b in if 0 <? a mod b then d + 1 else d.

(** [try_from(v).unwrap_or(MAX)] for an unsigned type with that maximum. *)
Definition try_from_or_max (max v : Z) : Z := if v <=? max then v else max.

Definition spacing (bytes rate : Z) : Duration :=
  let nanos := div_ceil ((bytes * 1000000000) mod u128_modulus) rate in
  Duration_new (try_from_or_max u64_max (nanos / 1000000000))
               (try_from_or_max u32_max (nanos mod 1000000000)).

(** ** The pacer *)

Record DataPacer := { previous : option (Z * Z) }.

Definition DataPacer_new : DataPacer := {| previous := None |}.

(** What a poll of [wait] sees: the time, whether the peer is closed, the value
    in the rate channel, whether it changed since it was last read, and whether
    the channel's sender is gone. *)
Record world := {
  now : Z;
  peer_closed : bool;
  rate : option Z;
  rate_changed : bool;
  rate_sender_gone : bool;
}.

Definition peer_closed_error : io_error :=
  {| kind := ConnectionAborted; message := "UDP peer closed" |}.

(** The top of the loop: the deadline to wait for, if any. *)
Definition wait_top (p : DataPacer) (w : world) : option Z :=
  match previous p with
  | None => None
  | Some (sent_at, bytes) =>
      match rate w with
      | None => None
      | Some r =>
          let deadline := sent_at + as_nanos (spacing bytes r) in
          if deadline <=? now w then None else Some deadline
      end
  end.

(** The biased [select!]: cancellation, then [changed()], then the timer; a
    change goes back to the top. [changed()] is an error once the sender is gone
    and its last value was seen. *)
Fixpoint wait_select (p : DataPacer) (deadline : Z) (polls : list world)
    : Poll (result () io_error) :=
  match polls with
  | [] => Pending
  | w :: polls =>
      if peer_closed w then Ready (Err peer_closed_error)
      else if rate_changed w then
        match wait_top p w with
        | None => Ready (Ok ())
        | Some deadline => wait_select p deadline polls
        end
      else if rate_sender_gone w then Ready (Ok ())
      else if deadline <=? now w then Ready (Ok ())
      else wait_select p deadline polls
  end.

Definition wait (p : DataPacer) (first : world) (polls : list world) : Poll (result () io_error) :=
  match wait_top p first with
  | None => Ready (Ok ())
  | Some deadline => wait_select p deadline polls
  end.

Definition sent (bytes now : Z) : DataPacer := {| previous := Some (now, bytes) |}.

(** One send through the pacer: the polls of its [wait], then the instant at
    which it is recorded and its wire length. *)
Record paced_send := {
  ps_first : world;
  ps_polls : list world;
  ps_at : Z;
  ps_bytes : Z;
}.

(** A send under the constant rate [r]: the wait succeeded, and time did not run
    backwards between its polls and the send. *)
Definition send_ok (r : Z) (p : DataPacer) (s : paced_send) : Prop :=
  0 ≤ ps_bytes s ≤ u64_max ∧
  wait p (ps_first s) (ps_polls s) = Ready (Ok ()) ∧
  Forall (λ w, rate w = Some r ∧ rate_sender_gone w = false ∧ now w ≤ ps_at s)
    (ps_first s :: ps_polls s).

Fixpoint sends_ok (r : Z) (p : DataPacer) (ss : list paced_send) : Prop :=
  match ss with
  | [] => True
  | s :: ss => send_ok r p s ∧ sends_ok r (sent (ps_bytes s) (ps_at s)) ss
  end.

(** ** Lemmas *)

Lemma div_ceil_spec a b : 0 < b → 0 ≤ a → a ≤ div_ceil a b * b < a + b.
Proof.
  intros Hb Ha. unfold div_ceil. pose proof (Z.div_mod a b). pose proof (Z.mod_pos_bound a b).
  destruct (0 <? a mod b) eqn:Hm; bools; lia.
Qed.

Lemma spacing_nanos bytes r :
  0 ≤ bytes ≤ u64_max → 0 < r → as_nanos (spacing bytes r) = div_ceil (bytes * 1000000000) r.
Proof.
  intros Hb Hr. unfold u64_max, u64_modulus in Hb. unfold spacing.
  rewrite (Z.mod_small (bytes * 1000000000)) by (unfold u128_modulus; lia).
  pose proof (div_ceil_spec (bytes * 1000000000) r Hr ltac:(lia)) as Hc.
  set (n := div_ceil _ _) in *.
  set (a := bytes * 1000000000) in *. assert (0 ≤ a) by lia.
  assert (0 ≤ n ≤ a) by (split; nia).
  assert (n / 1000000000 ≤ bytes) by (apply Z.div_le_upper_bound; lia).
  pose proof (Z.div_mod n 1000000000). pose proof (Z.mod_pos_bound n 1000000000).
  assert (0 ≤ n / 1000000000) by (apply Z.div_pos; lia).
  unfold try_from_or_max, u64_max, u64_modulus, u32_max.
  rewrite !(proj2 (Z.leb_le _ _)) by lia.
  unfold as_nanos, Duration_new. cbn [secs subsec_nanos].
  rewrite (Z.div_small (n mod 1000000000)), (Z.mod_small (n mod 1000000000)) by lia. lia.
Qed.

Lemma wait_select_deadline r at_ bytes polls T :
  Forall (λ w, rate w = Some r ∧ rate_sender_gone w = false ∧ now w ≤ T) polls →
  wait_select {| previous := Some (at_, bytes) |} (at_ + as_nanos (spacing bytes r)) polls
    = Ready (Ok ()) →
  at_ + as_nanos (spacing bytes r) ≤ T.
Proof.
  induction 1 as [|w polls (Hr & Hs & Hn) Hall IH]; [done|]. cbn.
  destruct (peer_closed w); [done|]. rewrite Hs. unfold wait_top. cbn. rewrite Hr.
  destruct (_ <=? _) eqn:Hd; bools.
  - intros _. lia.
  - destruct (rate_changed w); exact IH.
Qed.

Lemma send_ok_spaced r at_ bytes s :
  send_ok r (sent bytes at_) s → at_ + as_nanos (spacing bytes r) ≤ ps_at s.
Proof.
  intros (_ & Hw & Hall). inversion Hall as [|?? (Hr & Hs & Hn) Hpolls]; subst.
  unfold wait, wait_top, sent in Hw. cbn in Hw. rewrite Hr in Hw.
  destruct (_ <=? _) eqn:Hd; bools; [lia|]. by eapply wait_select_deadline.
Qed.

(** ** Properties *)

(** The spacing after a send is exact: for every payload length and every
    non-zero rate, no step of the arithmetic wraps or saturates, the duration is
    well formed, and its length in nanoseconds is [bytes * 10^9 / rate] rounded
    up, so it is the least whole number of nanoseconds that keeps the rate. *)
Theorem spacing_exact (bytes r : Z) :
  0 ≤ bytes ≤ u64_max → 0 < r ≤ u64_max →
  let d := spacing bytes r in
  0 ≤ secs d ≤ u64_max ∧ 0 ≤ subsec_nanos d < 1000000000 ∧
  bytes * 1000000000 ≤ as_nanos d * r ∧
  ∀ n, bytes * 1000000000 ≤ n * r → as_nanos d ≤ n.
Proof.
  intros Hb Hr d. subst d. pose proof (spacing_nanos bytes r Hb ltac:(lia)) as Hn.
  pose proof (div_ceil_spec (bytes * 1000000000) r ltac:(lia) ltac:(lia)) as Hc.
  rewrite <- Hn in Hc.
  assert (0 ≤ subsec_nanos (spacing bytes r) < 1000000000).
  { unfold spacing, Duration_new. cbn [subsec_nanos]. apply Z.mod_pos_bound. lia. }
  split; [|split; [done|split; [lia|intros n Hle; nia]]].
  unfold as_nanos in *. nia.
Qed.

Lemma spacing_exact_witness :
  (0 ≤ 37 ≤ u64_max) ∧ 37 * 1000000000 ≤ as_nanos (spacing 37 74) * 74.
Proof.
  assert (Hb : 0 ≤ 37 ≤ u64_max) by (unfold u64_max, u64_modulus; lia).
  split; [exact Hb|].
  exact (proj1 (proj2 (proj2 (spacing_exact 37 74 Hb ltac:(unfold u64_max, u64_modulus; lia))))).
Defined.

(** A paced connection never exceeds its rate: over any run of sends under
    rate [r], from any pacer state, the bytes of all but the last fit in the
    time between the first and the last. Waiting longer earns nothing: the bound
    holds over every window of the run, since every window is such a run. *)
Theorem pacer_bounds_rate (r : Z) (p : DataPacer) (s : paced_send) (ss : list paced_send) (l : paced_send) :
  0 < r ≤ u64_max → sends_ok r p (s :: ss ++ [l]) →
  foldr Z.add 0 (map ps_bytes (s :: ss)) * 1000000000 ≤ r * (ps_at l - ps_at s).
Proof.
  intros Hr. revert p s. induction ss as [|s' ss IH]; intros p s [Hs Hss].
  - destruct Hss as [Hl _]. destruct Hs as [Hb _].
    apply send_ok_spaced in Hl. rewrite spacing_nanos in Hl by lia.
    pose proof (div_ceil_spec (ps_bytes s * 1000000000) r ltac:(lia) ltac:(lia)).
    change (foldr Z.add 0 (map ps_bytes [s])) with (ps_bytes s + 0). nia.
  - pose proof (IH _ s' Hss) as Hrec. destruct Hss as [Hl _]. destruct Hs as [Hb _].
    apply send_ok_spaced in Hl. rewrite spacing_nanos in Hl by lia.
    pose proof (div_ceil_spec (ps_bytes s * 1000000000) r ltac:(lia) ltac:(lia)).
    change (foldr Z.add 0 (map ps_bytes (s :: s' :: ss)))
      with (ps_bytes s + foldr Z.add 0 (map ps_bytes (s' :: ss))). nia.
Qed.

Definition example_world (t : Z) : world :=
  {| now := t; peer_closed := false; rate := Some 1000; rate_changed := false;
     rate_sender_gone := false |}.
Definition example_send (t0 t : Z) : paced_send :=
  {| ps_first := example_world t0; ps_polls := [example_world t]; ps_at := t; ps_bytes := 500 |}.

Lemma pacer_bounds_rate_witness :
  let s1 := example_send 0 0 in let s2 := example_send 1 500000000 in
  let s3 := example_send 500000001 1000000007 in
  sends_ok 1000 DataPacer_new (s1 :: [s2] ++ [s3]) ∧
  foldr Z.add 0 (map ps_bytes [s1; s2]) * 1000000000 ≤ 1000 * (ps_at s3 - ps_at s1).
Proof.
  intros s1 s2 s3.
  assert (H : sends_ok 1000 DataPacer_new (s1 :: [s2] ++ [s3])).
  { repeat split; try done; repeat constructor; cbn; try done; lia. }
  split; [exact H|].
  apply (pacer_bounds_rate 1000 DataPacer_new s1 [s2] s3); [|exact H].
  unfold u64_max, u64_modulus. lia.
Defined.

(** A waiting send reacts to everything it waits for, in the order the code
    gives: whatever else is ready, a closed peer ends the wait with
    [ConnectionAborted]; else removing the rate ends it at once with success;
    else it goes on until the deadline of the rate in force. *)
Theorem pacer_wait_reacts (at_ bytes : Z) (quiet : list world) (w : world) (rest : list world) r deadline :
  deadline = at_ + as_nanos (spacing bytes r) →
  Forall (λ w, peer_closed w = false ∧ rate_changed w = false ∧ rate_sender_gone w = false ∧
               now w < deadline) quiet →
  let outcome := wait_select (sent bytes at_) deadline (quiet ++ w :: rest) in
  (peer_closed w = true → outcome = Ready (Err peer_closed_error)) ∧
  (peer_closed w = false → rate_changed w = true → rate w = None → outcome = Ready (Ok ())) ∧
  (peer_closed w = false → rate_changed w = false → rate_sender_gone w = false →
     deadline ≤ now w → outcome = Ready (Ok ())) ∧
  wait_select (sent bytes at_) deadline quiet = Pending.
Proof.
  intros Hd Hq outcome. subst outcome.
  induction Hq as [|q quiet (Hc & Hch & Hs & Hn) Hq IH].
  - cbn. split_and!; [|intros -> -> Hr| |done].
    + by intros ->.
    + unfold wait_top. cbn. by rewrite Hr.
    + intros -> -> -> ?. cbn. by rewrite (proj2 (Z.leb_le _ _)).
  - cbn. rewrite Hc, Hch, Hs. cbn. rewrite (proj2 (Z.leb_gt _ _)) by done. exact IH.
Qed.

Lemma pacer_wait_reacts_witness :
  let quiet := [example_world 3; example_world 7] in
  let stop := {| now := 9; peer_closed := false; rate := None; rate_changed := true;
                 rate_sender_gone := false |} in
  wait_select (sent 500 0) 500000000 (quiet ++ [stop]) = Ready (Ok ()).
Proof.
  intros quiet stop.
  apply (proj1 (proj2 (pacer_wait_reacts 0 500 quiet stop [] 1000 500000000 eq_refl
    ltac:(repeat constructor)))); done.
Defined.
