(* ===== verification/Peer.v ===== *)
(** * UDP peers

    Models src/src/protocols/udp/peer.rs: the state shared by the halves of a
    UDP connection, the datagram queue entry, and [Peer::push], through which
    the listener hands a datagram to its peer. *)

From S2P Require Import Prelude Protocol Lossy Externals Diagnostics Settings.

Record QueuedDatagram := { bytes : list Z; received_at : Z }.

#[export] Instance queued_datagram_eq_dec : EqDecision QueuedDatagram.
Proof. solve_decision. Defined.

Section Peer.
Context `{Target} {W : Type → Type} `{Watch W} {L : Type} `{CancellationToken L}.

Record PeerState := {
  options : ValidatedOptions;
  handle : UdpConnectionHandle W;
  closed : L;
}.

Definition PeerState_new (o : ValidatedOptions) : PeerState := {|
  options := o;
  handle := UdpConnectionHandle_new (validated_max_payload_size o) (send_rate (validated o));
  closed := token_new;
|}.

Definition with_handle (f : UdpConnectionHandle W → UdpConnectionHandle W) (s : PeerState) : PeerState :=
  {| options := options s; handle := f (handle s); closed := closed s |}.

Definition close (s : PeerState) : PeerState :=
  {| options := options s; handle := handle s; closed := token_cancel (closed s) |}.

Definition is_closed (s : PeerState) : bool := token_is_cancelled (closed s).

Definition drop_oversized (s : PeerState) : PeerState :=
  with_handle (count_drop UdpOversizedPayload) s.
Definition drop_send_error (s : PeerState) : PeerState :=
  with_handle (count_drop UdpSocketSendError) s.

(** [usize::try_from(..).unwrap_or(usize::MAX)] of a u64 counter. *)
Definition counter_as_usize (n : Z) : Z := if n <=? usize_max then n else usize_max.
Definition dropped_oversized (s : PeerState) : Z :=
  counter_as_usize (stats (handle s) dropped_oversized_payload).
Definition dropped_send_errors (s : PeerState) : Z :=
  counter_as_usize (stats (handle s) dropped_socket_send_error).

Definition received_datagram (n : Z) (s : PeerState) : PeerState := with_handle (received n) s.

Definition disconnected_error : io_error :=
  {| kind := ConnectionAborted; message := "UDP peer closed" |}.

(** [for _ in evicted { count_drop(reason) }]. *)
Fixpoint count_drops {A} (reason : UdpDropReason) (items : list A) (s : PeerState) : PeerState :=
  match items with
  | [] => s
  | _ :: items => count_drops reason items (with_handle (count_drop reason) s)
  end.

(** [Peer::push], on the peer's queue and state. *)
Definition push (data : list Z) (at_ : Z) (queue : Shared QueuedDatagram) (s : PeerState)
    : Shared QueuedDatagram * PeerState :=
  if is_closed s then (queue, with_handle (count_drop UdpClosedBeforeDelivery) s)
  else match try_send queue {| bytes := data; received_at := at_ |} (zlen data) with
       | (queue, _, Ok evicted) => (queue, count_drops UdpRawQueueEvicted evicted s)
       | (queue, _, Err (Full _)) => (queue, with_handle (count_drop UdpRawQueueFull) s)
       | (queue, _, Err (Closed _)) => (queue, with_handle (count_drop UdpClosedBeforeDelivery) s)
       end.
End Peer.
Arguments PeerState W L : clear implicits.

(** ** Lemmas *)

Section PeerLemmas.
Context `{Target} {W : Type → Type} `{Watch W} {L : Type} `{CancellationToken L}.

Lemma count_drops_closed {A} reason (l : list A) (s : PeerState W L) :
  closed (count_drops reason l s) = closed s ∧ options (count_drops reason l s) = options s.
Proof.
  revert s; induction l as [|x l IH]; intros s; [done|]. cbn [count_drops].
  by destruct (IH (with_handle (count_drop reason) s)) as [-> ->].
Qed.

Lemma push_closed data t q (s : PeerState W L) :
  closed (push data t q s).2 = closed s ∧ options (push data t q s).2 = options s.
Proof.
  unfold push. destruct (is_closed s); [done|].
  destruct (try_send _ _ _) as [[q' sg] [ev|[v|v]]]; try done. apply count_drops_closed.
Qed.

(** The counter of a reason after its drops. *)
Lemma count_drops_counter {A} reason (l : list A) (s : PeerState W L) c :
  counters (handle (count_drops reason l s)) c =
  (if decide (c = drop_counter reason) then foldr (λ _ n, wadd64 n 1) (counters (handle s) c) l
   else counters (handle s) c).
Proof.
  revert s; induction l as [|x l IH]; intros s; cbn [count_drops foldr]; [by case_decide|].
  rewrite IH. unfold with_handle, count_drop, with_counters, fetch_add. cbn.
  destruct (decide (c = drop_counter reason)) as [->|]; [|done].
  clear. induction l as [|y l IH]; [done|]. cbn. by rewrite IH.
Qed.

(** All that a handle has counted as dropped. *)
Definition drops (s : PeerState W L) : Z :=
  let c := counters (handle s) in
  c dropped_outgoing_queue_full + c dropped_outgoing_queue_evicted +
  c dropped_raw_queue_full + c dropped_raw_queue_evicted +
  c dropped_receive_queue_full + c dropped_receive_queue_evicted +
  c dropped_closed_before_delivery + c dropped_oversized_payload + c dropped_receive_limit +
  c dropped_malformed_payload + c dropped_socket_send_error.

Definition received_packets (s : PeerState W L) : Z :=
  counters (handle s) received_data_packets.

Lemma drops_count_drop r (s : PeerState W L) : drops (with_handle (count_drop r) s) ≡64 drops s + 1.
Proof.
  unfold drops, with_handle, count_drop, with_counters, fetch_add. cbn.
  destruct r; cbn; repeat (case_decide; [try done|try done]);
    rewrite wadd64_cong; apply cong64_eq; lia.
Qed.

Lemma received_count_drop r (s : PeerState W L) :
  received_packets (with_handle (count_drop r) s) = received_packets s.
Proof. by destruct r. Qed.

Lemma drops_count_drops {A} r (l : list A) (s : PeerState W L) :
  drops (count_drops r l s) ≡64 drops s + zlen l ∧
  received_packets (count_drops r l s) = received_packets s.
Proof.
  revert s; induction l as [|x l IH]; intros s; cbn [count_drops].
  - rewrite zlen_nil, Z.add_0_r. by split.
  - destruct (IH (with_handle (count_drop r) s)) as [IH1 IH2].
    rewrite IH1, IH2, drops_count_drop, received_count_drop, zlen_cons.
    split; [apply cong64_eq; lia|done].
Qed.

Lemma received_datagram_counts n (s : PeerState W L) :
  drops (received_datagram n s) = drops s ∧
  received_packets (received_datagram n s) ≡64 received_packets s + 1.
Proof. split; [done|]. apply wadd64_cong. Qed.

(** A pushed datagram is queued, evicting others, or dropped: the packets queued
    or dropped grow by one, and the queue stays within its limits. *)
Lemma push_conserves data t q (s : PeerState W L) :
  wf q → zlen data ≤ usize_max →
  let '(q', s') := push data t q s in
  wf q' ∧ max_items q' = max_items q ∧ max_bytes q' = max_bytes q ∧
  received_packets s' = received_packets s ∧
  drops s' + zlen (items (state q')) ≡64 drops s + zlen (items (state q)) + 1.
Proof.
  intros Hwf Hd. unfold push.
  assert (Hdrop : ∀ r, drops (with_handle (count_drop r) s) + zlen (items (state q)) ≡64
    drops s + zlen (items (state q)) + 1).
  { intros r. rewrite drops_count_drop. apply cong64_eq. lia. }
  destruct (is_closed s); [by split_and!|].
  set (d := {| bytes := data; received_at := t |}).
  pose proof (zlen_nonneg data) as Hpos.
  pose proof (run_op_wf q (OpTrySend d (zlen data) (λ _, true)) Hwf (conj Hpos Hd)) as Hwf'.
  cbn in Hwf'. unfold try_send.
  destruct (try_send_where q d (zlen data) (λ _, true)) as [[q' sg] r] eqn:Hs. cbn in Hwf'.
  apply try_send_where_step in Hs; [|done|done].
  destruct r as [evicted|e].
  - destruct Hs as (k & _ & -> & -> & _).
    destruct (drops_count_drops UdpRawQueueEvicted (fst <$> take k (items (state q))) s) as [Hc Hr].
    split_and!; try done. rewrite Hc. apply cong64_eq. unfold Lossy.push. cbn.
    rewrite zlen_app, zlen_fmap, zlen_cons, zlen_nil. unfold zlen.
    rewrite length_take, length_drop. lia.
  - destruct Hs as (-> & _ & ->). by destruct (receiver_open (state q)); split_and!.
Qed.
End PeerLemmas.
