(* ===== verification/Listener.v ===== *)
(** * The UDP listener and its peers

    Models src/src/protocols/udp/listener.rs, with the [PeerRegistration] of
    src/src/protocols/udp/peer.rs and the ownership of a server stream
    (src/src/protocols/udp/stream.rs: [UdpServerStream], [TrackedIncoming],
    the drop of a stream or of its read half).

    The objects behind [Arc] live in stores, by identity: [Arc::ptr_eq] is
    equality of identities. A [Weak<Peers>] upgrades while the listener, the
    only owner of the map, is alive. *)

From S2P Require Import Prelude Protocol Lossy Externals Diagnostics Settings Peer.

Section Listener.
Context `{Target} {W : Type → Type} `{Watch W} {L : Type} `{CancellationToken L}.
Context {Sm : Type} `{Semaphore Sm} {Addr : Type} `{Countable Addr}.

(** [Peer]: the sender of the peer's queue and its shared state. *)
Record Peer := { peer_queue : nat; peer_state : nat }.

(** [PeerRegistration]: a permit of the listener's semaphore, the map, and the
    entry to remove. *)
Record PeerRegistration := { reg_address : Addr; reg_state : nat }.

Record UdpServerStream := {
  registration : PeerRegistration;
  incoming : nat;
  stream_state : nat;
  peer_addr : Addr;
  local_addr : Addr;
}.

(** [UdpNetworkListener] with the objects it shares. [peers] is [None] once the
    listener is dropped. *)
Record World := {
  peers : option (gmap Addr Peer);
  listener_options : ValidatedOptions;
  listener_addr : Addr;
  slots : Sm;
  states : gmap nat (PeerState W L);
  queues : gmap nat (Shared QueuedDatagram);
}.

Definition set_peers (p : option (gmap Addr Peer)) (w : World) : World :=
  {| peers := p; listener_options := listener_options w; listener_addr := listener_addr w;
     slots := slots w; states := states w; queues := queues w |}.
Definition set_slots (s : Sm) (w : World) : World :=
  {| peers := peers w; listener_options := listener_options w; listener_addr := listener_addr w;
     slots := s; states := states w; queues := queues w |}.
Definition on_state (id : nat) (f : PeerState W L → PeerState W L) (w : World) : World :=
  {| peers := peers w; listener_options := listener_options w; listener_addr := listener_addr w;
     slots := slots w; states := alter f id (states w); queues := queues w |}.
Definition on_queue (id : nat) (f : Shared QueuedDatagram → Shared QueuedDatagram) (w : World) : World :=
  {| peers := peers w; listener_options := listener_options w; listener_addr := listener_addr w;
     slots := slots w; states := states w; queues := alter f id (queues w) |}.
Definition add_objects (id : nat) (s : PeerState W L) (q : Shared QueuedDatagram) (w : World) : World :=
  {| peers := peers w; listener_options := listener_options w; listener_addr := listener_addr w;
     slots := slots w; states := <[id := s]> (states w); queues := <[id := q]> (queues w) |}.

(** [UdpNetworkListener::from_socket] of a socket bound to [address];
    [connected] is whether [peer_addr()] answers. *)
Definition from_socket (connected : bool) (local : result Addr io_error) (o : UdpOptions)
    : result World io_error :=
  try! o := ValidatedOptions_new o in
  if connected then Err {| kind := InvalidInput; message := "UDP listener socket must be unconnected" |}
  else try! local := local in
  Ok {| peers := Some ∅; listener_options := o; listener_addr := local;
        slots := sem_new (max_peers (validated o)); states := ∅; queues := ∅ |}.

(** [UdpNetworkListener::bind]: the options are validated before any socket
    exists; [bound] is what binding answers, and a new socket's local address. *)
Definition listener_bind (o : UdpOptions) (bound : result (result Addr io_error) io_error) : result World io_error :=
  try! _v := ValidatedOptions_new o in
  try! local := bound in
  from_socket false local o.

(** [ConfiguredUdpProtocol::bind]. *)
Definition protocol_bind (OPTIONS : UdpOptions) (bound : result (result Addr io_error) io_error) : result World io_error :=
  listener_bind OPTIONS bound.

(** Dropping a [Peer] drops the sender of its queue. *)
Definition peer_drop (p : Peer) (w : World) : World :=
  on_queue (peer_queue p) (λ q, (drop_sender q).1) w.

Definition state_open (w : World) (id : nat) : bool :=
  match states w !! id with Some s => negb (is_closed s) | None => false end.
Definition peer_open (w : World) (p : Peer) : bool := state_open w (peer_state p).

(** [peer.push(..)] on the stores. *)
Definition peer_push (data : list Z) (t : Z) (p : Peer) (w : World) : World :=
  match queues w !! peer_queue p, states w !! peer_state p with
  | Some q, Some s =>
      let '(q, s) := push data t q s in
      on_state (peer_state p) (λ _, s) (on_queue (peer_queue p) (λ _, q) w)
  | _, _ => w
  end.

Definition fresh_id (w : World) : nat := fresh (dom (states w) ∪ dom (queues w)).

Definition dispatch (data : list Z) (address : Addr) (t : Z) (w : World)
    : World * option UdpServerStream :=
  if MAX_DATAGRAM_SIZE <? zlen data then (w, None)
  else match peers w with
  | None => (w, None)
  | Some ps =>
      match ps !! address ≫= λ p, if peer_open w p then Some p else None with
      | Some p =>
          (peer_push data t p (on_state (peer_state p) (received_datagram (zlen data)) w), None)
      | None =>
          let o := validated (listener_options w) in
          if ((receive_queue_capacity o =? 0) || (receive_queue_bytes o <? zlen data))%bool
          then (w, None)
          else match sem_try_acquire (slots w) with
          | None => (w, None)
          | Some permits =>
              let state := PeerState_new (listener_options w) in
              let queue := lossy_channel (receive_queue_capacity o) (receive_queue_bytes o)
                             (receive_queue_overflow o) in
              match try_send queue {| bytes := data; received_at := t |} (zlen data) with
              | (_, _, Err _) => (set_slots (sem_release permits) w, None)
              | (queue, _, Ok _) =>
                  let id := fresh_id w in
                  let state := received_datagram (zlen data) state in
                  let replaced := match ps !! address with Some p => peer_drop p w | None => w end in
                  (set_peers (Some (<[address := {| peer_queue := id; peer_state := id |}]> ps))
                     (set_slots permits (add_objects id state queue replaced)),
                   Some {| registration := {| reg_address := address; reg_state := id |};
                           incoming := id; stream_state := id;
                           peer_addr := address; local_addr := listener_addr w |})
              end
          end
      end
  end.

(** [impl Drop for PeerRegistration], and the permit it holds. *)
Definition registration_drop (r : PeerRegistration) (w : World) : World :=
  let w := match peers w with
           | Some ps =>
               match ps !! reg_address r with
               | Some p => if decide (peer_state p = reg_state r)
                           then peer_drop p (set_peers (Some (delete (reg_address r) ps)) w)
                           else w
               | None => w
               end
           | None => w
           end in
  let w := on_state (reg_state r) close w in
  set_slots (sem_release (slots w)) w.

(** [impl Drop for TrackedIncoming]. *)
Definition tracked_incoming_drop (queue state : nat) (w : World) : World :=
  match queues w !! queue with
  | None => w
  | Some q =>
      let '(q, _, pending) := close_and_drain q in
      on_state state (count_drops UdpClosedBeforeDelivery pending) (on_queue queue (λ _, q) w)
  end.

(** A stream dropped before it is split drops its fields in order; its read half
    closes the peer first and drops the queue before the registration. *)
Definition stream_drop (s : UdpServerStream) (w : World) : World :=
  tracked_incoming_drop (incoming s) (stream_state s) (registration_drop (registration s) w).

Definition read_half_drop (s : UdpServerStream) (w : World) : World :=
  registration_drop (registration s)
    (tracked_incoming_drop (incoming s) (stream_state s) (on_state (stream_state s) close w)).

(** [impl Drop for UdpNetworkListener]. *)
Definition listener_drop (w : World) : World :=
  match peers w with
  | None => w
  | Some ps =>
      let values := snd <$> map_to_list ps in
      set_peers None
        (foldr peer_drop (foldr (λ p w, on_state (peer_state p) close w) w values) values)
  end.

(** ** Executions

    The listener with the streams (or read halves) the application holds. *)

Record System := { world : World; live : gmap nat UdpServerStream }.

Inductive event :=
  | Datagram (data : list Z) (address : Addr) (t : Z)
  | Close (id : nat)
  | Recv (id : nat)
  | DropStream (id : nat)
  | DropReadHalf (id : nat)
  | DropListener.

Definition step (sys : System) (e : event) : System :=
  match e with
  | Datagram data address t =>
      match dispatch data address t (world sys) with
      | (w, None) => {| world := w; live := live sys |}
      | (w, Some s) => {| world := w; live := <[stream_state s := s]> (live sys) |}
      end
  | Close id =>
      if decide (is_Some (live sys !! id))
      then {| world := on_state id close (world sys); live := live sys |} else sys
  | Recv id =>
      match live sys !! id with
      | Some s => {| world := on_queue (incoming s) (λ q, (try_recv q).1.1) (world sys);
                     live := live sys |}
      | None => sys
      end
  | DropStream id =>
      match live sys !! id with
      | Some s => {| world := stream_drop s (world sys); live := delete id (live sys) |}
      | None => sys
      end
  | DropReadHalf id =>
      match live sys !! id with
      | Some s => {| world := read_half_drop s (world sys); live := delete id (live sys) |}
      | None => sys
      end
  | DropListener => {| world := listener_drop (world sys); live := live sys |}
  end.

Definition run (es : list event) (sys : System) : System := foldl step sys es.
Definition started (w : World) : System := {| world := w; live := ∅ |}.
End Listener.
Arguments World W L Sm Addr {_ _}.
Arguments System W L Sm Addr {_ _}.
Arguments UdpServerStream Addr : clear implicits.
Arguments event Addr : clear implicits.

(** ** Lemmas *)

Section ListenerLemmas.
Context `{Target} {W : Type → Type} `{Watch W} {L : Type} `{CancellationTokenLaws L}.
Context {Sm : Type} `{SemaphoreLaws Sm} {Addr : Type} `{Countable Addr}.
Implicit Types (w : World W L Sm Addr) (sys : System W L Sm Addr).

(** What the bookkeeping of one connection leaves alone: the map, the permits,
    the existence of objects; and it never reopens a peer. *)
Record frame w w' : Prop := {
  f_peers : peers w' = peers w;
  f_options : listener_options w' = listener_options w;
  f_slots : slots w' = slots w;
  f_states : ∀ id, is_Some (states w !! id) → is_Some (states w' !! id);
  f_queues : ∀ id, is_Some (queues w !! id) → is_Some (queues w' !! id);
  f_open : ∀ id, state_open w' id = true → state_open w id = true;
}.

#[export] Instance frame_preorder : PreOrder frame.
Proof.
  split.
  - by split.
  - intros w1 w2 w3 [] []. split; try congruence; auto.
Qed.

Lemma frame_on_state id f w :
  (∀ s, is_closed s = true → is_closed (f s) = true) → frame w (on_state id f w).
Proof.
  intros Hf. split; try done.
  - intros id' Hid. cbn. rewrite lookup_alter_is_Some. done.
  - intros id'. unfold state_open. cbn. destruct (decide (id = id')) as [->|Hne].
    + rewrite lookup_alter_eq. destruct (states w !! id') as [s|]; [|done]. cbn.
      specialize (Hf s). destruct (is_closed s); [|done]. by rewrite Hf.
    + by rewrite lookup_alter_ne.
Qed.

Lemma frame_on_queue id f w : frame w (on_queue id f w).
Proof. split; try done. intros id' Hid. cbn. by rewrite lookup_alter_is_Some. Qed.

Lemma close_closes (s : PeerState W L) : is_closed (close s) = true.
Proof. apply token_cancel_cancels. Qed.

Lemma is_closed_count_drops {A} r (l : list A) (s : PeerState W L) :
  is_closed (count_drops r l s) = is_closed s.
Proof. unfold is_closed. by destruct (count_drops_closed r l s) as [-> _]. Qed.

Lemma frame_tracked_incoming_drop q id w : frame w (tracked_incoming_drop q id w).
Proof.
  unfold tracked_incoming_drop. destruct (queues w !! q) as [sh|]; [|done]. cbn.
  etrans; [apply (frame_on_queue q)|]. apply frame_on_state.
  intros s. by rewrite is_closed_count_drops.
Qed.

Lemma frame_peer_push data t p w : frame w (peer_push data t p w).
Proof.
  unfold peer_push. destruct (queues w !! _) as [q|]; [|done].
  destruct (states w !! peer_state p) as [s|] eqn:Hs; [|done].
  pose proof (push_closed data t q s) as [Hc _].
  destruct (push data t q s) as [q' s'] eqn:Hp. cbn in Hc.
  etrans; [apply (frame_on_queue (peer_queue p) (λ _, q'))|].
  split; try done.
  - intros id Hid. cbn. by rewrite lookup_alter_is_Some.
  - intros id. unfold state_open. cbn. destruct (decide (peer_state p = id)) as [<-|Hne].
    + rewrite lookup_alter_eq, Hs. cbn. unfold is_closed. by rewrite Hc.
    + by rewrite lookup_alter_ne.
Qed.

Lemma frame_peer_drop p w : frame w (peer_drop p w).
Proof. apply frame_on_queue. Qed.

Lemma state_open_close w id id' :
  state_open (on_state id close w) id' = true → id' ≠ id ∧ state_open w id' = true.
Proof.
  unfold state_open. cbn. intros Ho. split.
  - intros ->. rewrite lookup_alter_eq in Ho. destruct (states w !! id) as [s|]; [|done].
    cbn in Ho. by rewrite close_closes in Ho.
  - destruct (decide (id = id')) as [->|Hne]; [|by rewrite lookup_alter_ne in Ho].
    rewrite lookup_alter_eq in Ho. destruct (states w !! id') as [s|]; [|done].
    cbn in Ho. by rewrite close_closes in Ho.
Qed.

Lemma state_open_close_all (l : list Peer) w id :
  state_open (foldr (λ p w, on_state (peer_state p) close w) w l) id = true →
  (∀ p, p ∈ l → peer_state p ≠ id) ∧ state_open w id = true.
Proof.
  induction l as [|p l IH]; [by split; [intros ? ?%not_elem_of_nil|]|].
  cbn [foldr]. intros [Hne Ho]%state_open_close. destruct (IH Ho) as [Hl Hw]. split; [|done].
  intros p' [->|Hin]%elem_of_cons; auto.
Qed.

Lemma frame_close_all (l : list Peer) w :
  frame w (foldr (λ p w, on_state (peer_state p) close w) w l).
Proof.
  induction l as [|p l IH]; [done|]. cbn. etrans; [exact IH|]. apply frame_on_state.
  intros. apply close_closes.
Qed.

Lemma frame_drop_all (l : list Peer) w : frame w (foldr peer_drop w l).
Proof. induction l as [|p l IH]; [done|]. cbn. etrans; [exact IH|]. apply frame_peer_drop. Qed.

Lemma state_open_drop_all (l : list Peer) w id :
  state_open (foldr peer_drop w l) id = state_open w id.
Proof. induction l as [|p l IH]; [done|]. exact IH. Qed.
End ListenerLemmas.

(** ** The invariant of the peer table *)

Section Invariant.
Context `{Target} {W : Type → Type} `{Watch W} {L : Type} `{CancellationTokenLaws L}.
Context {Sm : Type} `{SemaphoreLaws Sm} {Addr : Type} `{Countable Addr}.
Implicit Types (w : World W L Sm Addr) (sys : System W L Sm Addr).

(** [Inv n]: permits and live registrations add up to [n]; every entry of the
    map belongs to a live stream of its address; every stream owns its own
    objects; and a stream whose peer is open is the entry of its address. *)
Record Inv (n : Z) sys : Prop := {
  i_slots : sem_available (slots (world sys)) + Z.of_nat (size (live sys)) = n;
  i_peers : ∀ ps a p, peers (world sys) = Some ps → ps !! a = Some p →
    peer_queue p = peer_state p ∧ ∃ st, live sys !! peer_state p = Some st ∧ peer_addr st = a;
  i_live : ∀ id st, live sys !! id = Some st →
    registration st = {| reg_address := peer_addr st; reg_state := id |} ∧
    stream_state st = id ∧ incoming st = id ∧
    is_Some (states (world sys) !! id) ∧ is_Some (queues (world sys) !! id);
  i_routed : ∀ id st, live sys !! id = Some st → state_open (world sys) id = true →
    ∃ ps, peers (world sys) = Some ps ∧
          ps !! peer_addr st = Some {| peer_queue := id; peer_state := id |};
}.

Lemma Inv_frame n sys w' :
  Inv n sys → frame (world sys) w' → Inv n {| world := w'; live := live sys |}.
Proof.
  intros [] []. split; cbn in *.
  - congruence.
  - intros ps a p Hp. rewrite f_peers0 in Hp. eauto.
  - intros id st Hid. destruct (i_live0 id st Hid) as (?&?&?&?&?). split_and!; auto.
  - intros id st Hid Ho. rewrite f_peers0. eauto.
Qed.

Lemma fresh_id_spec w : states w !! fresh_id w = None ∧ queues w !! fresh_id w = None.
Proof.
  pose proof (is_fresh (dom (states w) ∪ dom (queues w))) as Hf.
  apply not_elem_of_union in Hf as [Hs Hq]. split; by apply not_elem_of_dom.
Qed.

(** The first send into a fresh queue that [dispatch] has checked. *)
Lemma first_send (o : UdpOptions) (d : QueuedDatagram) n :
  0 ≤ receive_queue_capacity o ≤ usize_max → 0 ≤ receive_queue_bytes o ≤ usize_max → 0 ≤ n →
  (receive_queue_capacity o =? 0) || (receive_queue_bytes o <? n) = false →
  let q := lossy_channel (receive_queue_capacity o) (receive_queue_bytes o) (receive_queue_overflow o) in
  try_send q d n = (Lossy.push q [] d n, [ChangedOne], Ok []).
Proof.
  intros Hc Hb Hn Hok q. unfold try_send.
  rewrite try_send_where_form by (done || by apply lossy_channel_wf). cbn. rewrite Hok.
  destruct (receive_queue_overflow o); [|done].
  unfold fits. cbn. bools. rewrite zlen_nil.
  rewrite (proj2 (Z.ltb_lt _ _)), (proj2 (Z.leb_le _ _)) by lia. done.
Qed.

(** [dispatch] ignores the datagram, hands it to an open peer, gives a permit
    back, or creates a peer. *)
Lemma dispatch_cases data address t w :
  dispatch data address t w = (w, None) ∨
  (∃ ps p, peers w = Some ps ∧ ps !! address = Some p ∧ peer_open w p = true ∧
     zlen data ≤ MAX_DATAGRAM_SIZE ∧
     dispatch data address t w =
     (peer_push data t p (on_state (peer_state p) (received_datagram (zlen data)) w), None)) ∨
  (∃ permits, dispatch data address t w = (set_slots (sem_release permits) w, None) ∧
     sem_try_acquire (slots w) = Some permits) ∨
  (∃ ps permits q,
     peers w = Some ps ∧ sem_try_acquire (slots w) = Some permits ∧
     (∀ p, ps !! address = Some p → peer_open w p = false) ∧ zlen data ≤ MAX_DATAGRAM_SIZE ∧
     let o := validated (listener_options w) in
     (receive_queue_capacity o =? 0) || (receive_queue_bytes o <? zlen data) = false ∧
     (∃ sg ev, try_send (lossy_channel (receive_queue_capacity o) (receive_queue_bytes o)
       (receive_queue_overflow o)) {| bytes := data; received_at := t |} (zlen data) = (q, sg, Ok ev)) ∧
     let id := fresh_id w in
     let replaced := match ps !! address with Some p => peer_drop p w | None => w end in
     let s := received_datagram (zlen data) (PeerState_new (listener_options w)) in
     dispatch data address t w =
     (set_peers (Some (<[address := {| peer_queue := id; peer_state := id |}]> ps))
        (set_slots permits (add_objects id s q replaced)),
      Some {| registration := {| reg_address := address; reg_state := id |};
              incoming := id; stream_state := id;
              peer_addr := address; local_addr := listener_addr w |})).
Proof.
  unfold dispatch. destruct (_ <? _) eqn:Hlen; [by left|]. bools.
  destruct (peers w) as [ps|] eqn:Hps; [|by left].
  destruct (ps !! address ≫= _) as [p|] eqn:Hp.
  { right; left. apply bind_Some in Hp as (p' & Hl & Hp).
    destruct (peer_open w p') eqn:Ho; simplify_eq. by exists ps, p. }
  destruct (_ || _) eqn:Hok; [by left|].
  destruct (sem_try_acquire (slots w)) as [permits|] eqn:Hperm; [|by left].
  destruct (try_send _ _ _) as [[q sg] [ev|e]] eqn:Hs.
  - do 3 right. exists ps, permits, q. split_and!; try done; [|by eauto].
    intros p Hlook. rewrite Hlook in Hp. cbn in Hp. by destruct (peer_open w p).
  - do 2 right; left. by eexists.
Qed.

Lemma frame_deliver data t p n w :
  frame w (peer_push data t p (on_state (peer_state p) (received_datagram n) w)).
Proof. etrans; [|apply frame_peer_push]. by apply frame_on_state. Qed.

Lemma Inv_dispatch n sys data address t :
  Inv n sys → Inv n (step sys (Datagram data address t)).
Proof.
  intros HI. cbn. destruct (dispatch_cases data address t (world sys))
    as [-> | [(ps & p & Hps & Hp & Ho & _ & ->) | [(permits & -> & Ha) |
        (ps & permits & q & Hps & Ha & Hclosed & _ & _ & _ & ->)]]].
  - by apply Inv_frame.
  - apply Inv_frame; [done|apply frame_deliver].
  - destruct HI. split; cbn; try done.
    apply sem_acquire_some in Ha as [_ Ha]. rewrite sem_release_available. lia.
  - cbn. destruct (fresh_id_spec (world sys)) as [Hfs Hfq].
    set (id := fresh_id (world sys)) in *.
    set (s := received_datagram _ (PeerState_new _)).
    set (replaced := match ps !! address with Some p => _ | None => _ end).
    assert (Hr : frame (world sys) replaced).
    { unfold replaced. destruct (ps !! address); [apply frame_peer_drop | done]. }
    assert (Hnew : live sys !! id = None).
    { destruct (live sys !! id) as [st|] eqn:Hl; [|done].
      destruct (i_live _ _ HI id st Hl) as (_ & _ & _ & [x Hx] & _). congruence. }
    assert (Hother : ∀ id', id' ≠ id →
      state_open (set_slots permits (add_objects id s q replaced)) id' = true →
      state_open (world sys) id' = true).
    { intros id' Hne Ho. apply (f_open _ _ Hr). unfold state_open in *. cbn in Ho.
      by rewrite lookup_insert_ne in Ho. }
    split; cbn.
    + rewrite map_size_insert_None by done. apply sem_acquire_some in Ha as [_ Ha].
      pose proof (i_slots _ _ HI). lia.
    + intros ps' a p [= <-] Hp. destruct (decide (a = address)) as [->|Hne].
      * rewrite lookup_insert_eq in Hp. simplify_eq. split; [done|]. cbn.
        rewrite lookup_insert_eq. by eexists.
      * rewrite lookup_insert_ne in Hp by done.
        destruct (i_peers _ _ HI ps a p Hps Hp) as (? & st & Hst & ?). split; [done|].
        exists st. split; [|done]. rewrite lookup_insert_ne; [done|]. congruence.
    + intros id' st. destruct (decide (id' = id)) as [->|Hne].
      * rewrite lookup_insert_eq. intros [= <-]. cbn. rewrite !lookup_insert_eq. by repeat split.
      * rewrite !lookup_insert_ne by done. intros Hst.
        destruct (i_live _ _ HI id' st Hst) as (?&?&?&?&?). split_and!; try done.
        -- by apply (f_states _ _ Hr).
        -- by apply (f_queues _ _ Hr).
    + intros id' st. destruct (decide (id' = id)) as [->|Hne].
      * rewrite lookup_insert_eq. intros [= <-] _. cbn. eexists. split; [done|].
        by rewrite lookup_insert_eq.
      * rewrite lookup_insert_ne by done. intros Hst Ho.
        assert (Ho' : state_open (world sys) id' = true) by by apply Hother.
        destruct (i_routed _ _ HI id' st Hst Ho') as (ps' & Hps' & Hin). simplify_eq.
        eexists. split; [done|]. rewrite lookup_insert_ne; [done|]. intros Heq.
        rewrite <- Heq in Hin. specialize (Hclosed _ Hin). unfold peer_open in Hclosed. cbn in Hclosed. congruence.
Qed.

(** The map after a registration is dropped. *)
Definition without (r : PeerRegistration) (ps : gmap Addr Peer) : gmap Addr Peer :=
  match ps !! reg_address r with
  | Some p => if decide (peer_state p = reg_state r) then delete (reg_address r) ps else ps
  | None => ps
  end.

Lemma registration_drop_form r w :
  ∃ w1, frame (set_peers (without r <$> peers w) w) w1 ∧
    registration_drop r w = set_slots (sem_release (slots w)) (on_state (reg_state r) close w1).
Proof.
  unfold registration_drop, without. destruct (peers w) as [ps|] eqn:Hp; cbn [fmap option_fmap option_map].
  2: { exists w. split; [by split | done]. }
  destruct (ps !! reg_address r) as [p|] eqn:Hl.
  2: { exists w. split; [by split | done]. }
  destruct (decide _).
  - eexists. split; [apply frame_peer_drop | done].
  - exists w. split; [by split | done].
Qed.

Lemma Inv_registration_drop n sys id st :
  Inv n sys → live sys !! id = Some st →
  Inv n {| world := registration_drop (registration st) (world sys); live := delete id (live sys) |}.
Proof.
  intros HI Hst. destruct (i_live _ _ HI id st Hst) as (Hreg & _ & _ & _ & _). rewrite Hreg.
  set (r := {| reg_address := peer_addr st; reg_state := id |}).
  destruct (registration_drop_form r (world sys)) as (w1 & [] & ->). cbn in *.
  assert (Hwithout : ∀ ps a p, without r ps !! a = Some p → ps !! a = Some p ∧
            (a = peer_addr st → peer_state p ≠ id)).
  { intros ps a p. unfold without. cbn. destruct (ps !! peer_addr st) as [p0|] eqn:Hl.
    - destruct (decide (peer_state p0 = id)) as [He|Hne].
      + intros [Hne Hp]%lookup_delete_Some. by split.
      + intros Hp. split; [done|]. intros ->. congruence.
    - intros Hp. split; [done|]. intros ->. congruence. }
  split; cbn.
  - rewrite sem_release_available, map_size_delete_Some by (by eexists).
    assert (size (live sys) ≠ 0%nat).
    { intros Hz%map_size_empty_inv. rewrite Hz in Hst. by rewrite lookup_empty in Hst. }
    pose proof (i_slots _ _ HI). lia.
  - rewrite f_peers0. intros ps a p Hps Hp. destruct (peers (world sys)) as [ps0|] eqn:Hps0; [|done].
    cbn in Hps. simplify_eq. apply Hwithout in Hp as [Hp Hne].
    destruct (i_peers _ _ HI _ a p Hps0 Hp) as (? & st' & Hst' & Ha). split; [done|].
    exists st'. split; [|done]. rewrite lookup_delete_ne; [done|]. intros Heq.
    rewrite <- Heq, Hst in Hst'. injection Hst' as <-. by apply Hne.
  - intros id' st' [Hne Hst']%lookup_delete_Some.
    destruct (i_live _ _ HI id' st' Hst') as (?&?&?&?&?). split_and!; try done.
    + cbn. rewrite lookup_alter_is_Some. auto.
    + auto.
  - intros id' st' [Hne Hst']%lookup_delete_Some Ho. rewrite f_peers0.
    assert (Ho' : state_open (world sys) id' = true).
    { apply f_open0. by apply (state_open_close w1 id id') in Ho as [_ ?]. }
    destruct (i_routed _ _ HI id' st' Hst' Ho') as (ps & -> & Hin). cbn. eexists. split; [done|].
    unfold without. cbn. destruct (ps !! peer_addr st) as [p0|] eqn:Hl; [|done].
    case_decide as Hd; [|done]. rewrite lookup_delete_ne; [done|]. intros Ha.
    rewrite Ha in Hl. rewrite Hin in Hl. simplify_eq.
Qed.

Lemma Inv_listener_drop n sys :
  Inv n sys → Inv n {| world := listener_drop (world sys); live := live sys |}.
Proof.
  intros HI. unfold listener_drop. destruct (peers (world sys)) as [ps|] eqn:Hps.
  2: { by apply Inv_frame. }
  set (values := snd <$> map_to_list ps).
  pose proof (frame_close_all values (world sys)) as Hc.
  set (w1 := foldr (λ p w, on_state _ close w) _ values) in *.
  destruct (transitivity Hc (frame_drop_all values w1)) as [_ _ Hs Hst Hq _].
  split; cbn.
  - rewrite Hs. apply (i_slots _ _ HI).
  - done.
  - intros id st Hid. destruct (i_live _ _ HI id st Hid) as (?&?&?&?&?). split_and!; auto.
  - intros id st Hid Ho.
    change (state_open (foldr peer_drop w1 values) id = true) in Ho.
    rewrite state_open_drop_all in Ho. apply state_open_close_all in Ho as [Hnot Ho].
    destruct (i_routed _ _ HI id st Hid Ho) as (ps' & Hps' & Hin). simplify_eq.
    exfalso. refine (Hnot {| peer_queue := id; peer_state := id |} _ eq_refl).
    apply list_elem_of_fmap. exists (peer_addr st, {| peer_queue := id; peer_state := id |}).
    split; [done|]. by apply elem_of_map_to_list.
Qed.

Lemma Inv_step n sys e : Inv n sys → Inv n (step sys e).
Proof.
  intros HI. destruct e as [data a t|id|id|id|id|].
  - by apply Inv_dispatch.
  - cbn. case_decide; [|done]. apply Inv_frame; [done|]. apply frame_on_state.
    intros. apply close_closes.
  - cbn. destruct (live sys !! id) as [s|]; [|done]. apply Inv_frame; [done|]. apply frame_on_queue.
  - cbn. destruct (live sys !! id) as [s|] eqn:Hs; [|done].
    exact (Inv_frame _ _ _ (Inv_registration_drop _ _ _ _ HI Hs)
             (frame_tracked_incoming_drop _ _ _)).
  - cbn. destruct (live sys !! id) as [s|] eqn:Hs; [|done].
    refine (Inv_registration_drop n {| world := tracked_incoming_drop (incoming s) (stream_state s)
      (on_state (stream_state s) close (world sys)); live := live sys |} id s _ Hs).
    apply Inv_frame; [done|]. etrans; [|apply frame_tracked_incoming_drop].
    apply frame_on_state. intros. apply close_closes.
  - cbn. by apply Inv_listener_drop.
Qed.

Lemma Inv_run n es sys : Inv n sys → Inv n (run es sys).
Proof. revert sys; induction es as [|e es IH]; intros sys HI; [done|]. apply IH. by apply Inv_step. Qed.

Lemma Inv_started connected local (o : UdpOptions) w :
  0 ≤ max_peers o → from_socket connected local o = Ok w → Inv (max_peers o) (started w).
Proof.
  unfold from_socket. intros Hn. destruct (ValidatedOptions_new o) as [v|] eqn:Hv; [|done].
  unfold ValidatedOptions_new in Hv. destruct (_ || _); simplify_eq/=.
  destruct connected; [done|]. destruct local; [|done]. cbn. intros [= <-].
  split; cbn; try done.
  - by rewrite sem_new_available, map_size_empty, Z.add_0_r.
  - intros ps a p [= <-]. by rewrite lookup_empty.
Qed.
End Invariant.

(** ** Accounting of received datagrams *)

Section Accounting.
Context `{Target} {W : Type → Type} `{Watch W} {L : Type} `{CancellationTokenLaws L}.
Context {Sm : Type} `{SemaphoreLaws Sm} {Addr : Type} `{Countable Addr}.
Implicit Types (w : World W L Sm Addr) (sys : System W L Sm Addr).

(** The datagrams the application received from the peer [id]. *)
Definition delivered_by_step (id : nat) sys (e : event Addr) : Z :=
  match e with
  | Recv id' =>
      if decide (id = id') then
        match live sys !! id with
        | Some s => match queues (world sys) !! incoming s with
                    | Some q => if is_ok (try_recv q).2 then 1 else 0
                    | None => 0
                    end
        | None => 0
        end
      else 0
  | _ => 0
  end.

Fixpoint delivered (id : nat) (es : list (event Addr)) sys : Z :=
  match es with
  | [] => 0
  | e :: es => delivered_by_step id sys e + delivered id es (step sys e)
  end.

(** One peer's books: what its counters say was received is what was dropped,
    delivered ([d]) or is still queued. *)
Definition balanced (s : PeerState W L) (q : Shared QueuedDatagram) (d : Z) : Prop :=
  wf q ∧ received_packets s ≡64 drops s + zlen (items (state q)) + d.

Record Acc w (d : nat → Z) : Prop := {
  a_pairs : ∀ id, is_Some (states w !! id) ↔ is_Some (queues w !! id);
  a_balanced : ∀ id s q, states w !! id = Some s → queues w !! id = Some q → balanced s q (d id);
}.

Lemma Acc_on_state id f w d :
  (∀ s, received_packets (f s) = received_packets s ∧ drops (f s) = drops s) →
  Acc w d → Acc (on_state id f w) d.
Proof.
  intros Hf []. split; cbn; intros id'.
  - by rewrite lookup_alter_is_Some.
  - intros s q Hs Hq. destruct (decide (id = id')) as [->|Hne].
    + rewrite lookup_alter_eq in Hs. apply fmap_Some in Hs as (s0 & Hs0 & ->).
      destruct (a_balanced0 id' s0 q Hs0 Hq) as [? Hb]. destruct (Hf s0) as [Hr Hd].
      split; [done|]. by rewrite Hr, Hd.
    + rewrite lookup_alter_ne in Hs by done. eauto.
Qed.

Lemma Acc_on_queue id f w d :
  (∀ q, wf q → wf (f q) ∧ items (state (f q)) = items (state q)) →
  Acc w d → Acc (on_queue id f w) d.
Proof.
  intros Hf []. split; cbn; intros id'.
  - by rewrite lookup_alter_is_Some.
  - intros s q Hs Hq. destruct (decide (id = id')) as [->|Hne].
    + rewrite lookup_alter_eq in Hq. apply fmap_Some in Hq as (q0 & Hq0 & ->).
      destruct (a_balanced0 id' s q0 Hs Hq0) as [Hwf Hb]. destruct (Hf q0 Hwf) as [? Hi].
      split; [done|]. by rewrite Hi.
    + rewrite lookup_alter_ne in Hq by done. eauto.
Qed.

(** Both objects of one peer at once. *)
Lemma Acc_on_both id s' q' w d (d' : nat → Z) :
  Acc w d → balanced s' q' (d' id) → (∀ id', id' ≠ id → d' id' = d id') →
  Acc (on_state id (λ _, s') (on_queue id (λ _, q') w)) d'.
Proof.
  intros [] Hb Hd. split; cbn; intros id'.
  - by rewrite !lookup_alter_is_Some.
  - intros s q. destruct (decide (id = id')) as [->|Hne].
    + rewrite !lookup_alter_eq. intros (? & _ & ->)%fmap_Some (? & _ & ->)%fmap_Some. done.
    + rewrite !lookup_alter_ne, Hd by done. eauto.
Qed.

Lemma Acc_peer_drop p w d : Acc w d → Acc (peer_drop p w) d.
Proof. apply Acc_on_queue. intros q Hwf. split; [by apply wf_drop_sender | done]. Qed.

Lemma Acc_close id w d : Acc w d → Acc (on_state id close w) d.
Proof. by apply Acc_on_state. Qed.

Lemma Acc_tracked_incoming_drop id w d : Acc w d → Acc (tracked_incoming_drop id id w) d.
Proof.
  intros HA. unfold tracked_incoming_drop. destruct (queues w !! id) as [q|] eqn:Hq; [|done].
  destruct (states w !! id) as [s|] eqn:Hs.
  2: { destruct (proj2 (a_pairs _ _ HA id)) as [s Hs']; [by eexists|congruence]. }
  destruct (a_balanced _ _ HA id s q Hs Hq) as [Hwf Hb].
  pose proof (run_op_wf q OpCloseAndDrain Hwf I) as Hwf'.
  change (wf (close_and_drain q).1.1) in Hwf'. unfold close_and_drain in *. cbn [fst] in Hwf'.
  set (q' := with_state q _) in *.
  assert (HA' : Acc (on_state id (λ _, count_drops UdpClosedBeforeDelivery (items (state q)).*1 s)
                       (on_queue id (λ _, q') w)) d).
  { apply Acc_on_both with d; [done| |done]. split; [done|]. unfold q'. cbn.
    destruct (drops_count_drops UdpClosedBeforeDelivery (items (state q)).*1 s) as [Hd ->].
    rewrite Hb, Hd, zlen_fmap, zlen_nil. apply cong64_eq. lia. }
  split; [intros id'; cbn; rewrite !lookup_alter_is_Some; apply (a_pairs _ _ HA)|]. intros id' s' q0 Hs' Hq0. apply (a_balanced _ _ HA' id'); [|done].
  rewrite <- Hs'. cbn. destruct (decide (id = id')) as [->|Hne].
  - by rewrite !lookup_alter_eq, Hs.
  - by rewrite !lookup_alter_ne.
Qed.

Lemma Acc_peer_push data t id w d :
  zlen data ≤ usize_max →
  Acc w d → state_open w id = true →
  Acc (peer_push data t {| peer_queue := id; peer_state := id |}
         (on_state id (received_datagram (zlen data)) w)) d.
Proof.
  intros Hlen HA Ho. unfold state_open in Ho.
  destruct (states w !! id) as [s|] eqn:Hs; [|done].
  destruct (proj1 (a_pairs _ _ HA id)) as [q Hq]; [by eexists|].
  destruct (a_balanced _ _ HA id s q Hs Hq) as [Hwf Hb].
  unfold peer_push. cbn. rewrite Hq, lookup_alter_eq, Hs. cbn.
  set (s1 := received_datagram (zlen data) s).
  pose proof (push_conserves data t q s1 Hwf Hlen) as Hp.
  destruct (push data t q s1) as [q' s'] eqn:Hpush.
  destruct Hp as (Hwf' & _ & _ & Hr & Hc).
  destruct (received_datagram_counts (zlen data) s) as [Hd1 Hr1].
  assert (HA' : Acc (on_state id (λ _, s') (on_queue id (λ _, q') w)) d).
  { apply Acc_on_both with d; [done| |done]. split; [done|].
    rewrite Hr. unfold s1. rewrite Hr1, Hb, Hc. unfold s1. rewrite Hd1. apply cong64_eq. lia. }
  split; cbn; [intros id'; rewrite !lookup_alter_is_Some; apply (a_pairs _ _ HA)|].
  intros id' s0 q0 Hs0 Hq0. apply (a_balanced _ _ HA' id'); cbn; [|done].
  rewrite <- Hs0. destruct (decide (id = id')) as [->|Hne].
  - by rewrite !lookup_alter_eq, Hs.
  - by rewrite !lookup_alter_ne.
Qed.

Lemma Acc_add_objects id s q w d :
  balanced s q 0 → d id = 0 → Acc w d → Acc (add_objects id s q w) d.
Proof.
  intros Hb Hd []. split; cbn; intros id'.
  - rewrite !lookup_insert_is_Some. naive_solver.
  - intros s' q' Hs Hq. destruct (decide (id = id')) as [->|Hne].
    + rewrite lookup_insert_eq in Hs. rewrite lookup_insert_eq in Hq. simplify_eq. by rewrite Hd.
    + rewrite lookup_insert_ne in Hs by done. rewrite lookup_insert_ne in Hq by done. eauto.
Qed.

(** A fresh peer's books. *)
Lemma balanced_first (o : ValidatedOptions) data t q sg ev :
  options_typed (validated o) → zlen data ≤ MAX_DATAGRAM_SIZE →
  (receive_queue_capacity (validated o) =? 0) || (receive_queue_bytes (validated o) <? zlen data) = false →
  try_send (lossy_channel (receive_queue_capacity (validated o)) (receive_queue_bytes (validated o))
    (receive_queue_overflow (validated o))) {| bytes := data; received_at := t |} (zlen data)
    = (q, sg, Ok ev) →
  fst <$> items (state q) = [{| bytes := data; received_at := t |}] ∧
  balanced (received_datagram (zlen data) (PeerState_new o)) q 0.
Proof.
  intros (_ & _ & Hc & Hb & _) Hlen Hok Hs. pose proof (zlen_nonneg data).
  pose proof usize_max_ge.
  rewrite first_send in Hs by done. simplify_eq. split; [done|]. split.
  - bools. apply wf_push; try done; [by apply lossy_channel_wf|].
    apply fits_zlen. rewrite zlen_nil. cbn. lia.
  - destruct (received_datagram_counts (zlen data) (PeerState_new o)) as [-> ->].
    apply cong64_eq. done.
Qed.

Lemma step_mono n sys e :
  Inv n sys → listener_options (world (step sys e)) = listener_options (world sys) ∧
  (∀ id, is_Some (states (world sys) !! id) → is_Some (states (world (step sys e)) !! id)).
Proof.
  intros HI. assert (Hid : ∀ w : World W L Sm Addr, frame (world sys) w →
    listener_options w = listener_options (world sys) ∧
    (∀ id, is_Some (states (world sys) !! id) → is_Some (states w !! id))) by by intros w [].
  assert (Hreg : ∀ r w, frame (world sys) w →
    listener_options (registration_drop r w) = listener_options (world sys) ∧
    (∀ id, is_Some (states (world sys) !! id) → is_Some (states (registration_drop r w) !! id))).
  { intros r w Hw. destruct (registration_drop_form r w) as (w1 & Hw1 & ->). destruct Hw, Hw1.
    cbn in *. split; [congruence|]. intros id Hs. rewrite lookup_alter_is_Some. auto. }
  destruct e as [data a t|id|id|id|id|]; cbn.
  - destruct (dispatch_cases data a t (world sys))
      as [-> | [(ps & p & _ & _ & _ & _ & ->) | [(permits & -> & _) |
          (ps & permits & q & _ & _ & _ & _ & _ & _ & ->)]]]; cbn; try done.
    + apply Hid, frame_deliver.
    + destruct (ps !! a); cbn; (split; [done|]); intros id Hs; apply lookup_insert_is_Some'; by right.
  - case_decide; [|done]. apply Hid, frame_on_state. intros. apply close_closes.
  - destruct (live sys !! id); [|done]. apply Hid, frame_on_queue.
  - destruct (live sys !! id) as [s|]; [|done]. cbn. unfold stream_drop.
    destruct (Hreg (registration s) (world sys) ltac:(done)) as [Ho Hs].
    destruct (frame_tracked_incoming_drop (incoming s) (stream_state s)
      (registration_drop (registration s) (world sys))). split; [congruence|auto].
  - destruct (live sys !! id) as [s|]; [|done]. cbn. apply Hreg.
    etrans; [|apply frame_tracked_incoming_drop]. apply frame_on_state. intros. apply close_closes.
  - unfold listener_drop. destruct (peers (world sys)) as [ps|]; [|done]. cbn.
    set (values := snd <$> map_to_list ps).
    pose proof (frame_close_all values (world sys)) as Hc.
    apply (Hid (foldr peer_drop (foldr (λ p w, on_state (peer_state p) close w) (world sys) values) values)).
    etrans; [exact Hc|apply frame_drop_all].
Qed.

Lemma Acc_registration_drop r w d : Acc w d → Acc (registration_drop r w) d.
Proof.
  intros HA. unfold registration_drop.
  assert (∀ w1, Acc w1 d → Acc (set_slots (sem_release (slots (on_state (reg_state r) close w1)))
                                 (on_state (reg_state r) close w1)) d) as Hk.
  { intros w1 Hw1. destruct (Acc_close (reg_state r) w1 d Hw1). by split. }
  destruct (peers w) as [ps|]; [|by apply Hk].
  destruct (ps !! reg_address r) as [p|]; [|by apply Hk].
  destruct (decide _); [|by apply Hk]. apply Hk, Acc_peer_drop. destruct HA. by split.
Qed.

Lemma Acc_listener_drop w d : Acc w d → Acc (listener_drop w) d.
Proof.
  intros HA. unfold listener_drop. destruct (peers w) as [ps|]; [|done].
  set (values := snd <$> map_to_list ps).
  assert (HA1 : Acc (foldr (λ p w, on_state (peer_state p) close w) w values) d).
  { induction values as [|p l IH]; [done|]. cbn [foldr]. by apply Acc_close. }
  revert HA1. generalize (foldr (λ p w, on_state (peer_state p) close w) w values). intros w1 HA1.
  assert (HA2 : Acc (foldr peer_drop w1 values) d).
  { induction values as [|p l IH]; [done|]. cbn [foldr]. by apply Acc_peer_drop. }
  destruct HA2. by split.
Qed.

Lemma Acc_ext w (d d' : nat → Z) : (∀ id, d' id = d id) → Acc w d → Acc w d'.
Proof. intros Hd []. split; [done|]. intros id s q. rewrite Hd. eauto. Qed.

(** A receive moves one datagram from the queue to the application. *)
Lemma Acc_recv n sys id st d :
  Inv n sys → Acc (world sys) d → live sys !! id = Some st →
  Acc (on_queue (incoming st) (λ q, (try_recv q).1.1) (world sys))
    (λ i, d i + delivered_by_step i sys (Recv id)).
Proof.
  intros HI HA Hst. destruct (i_live _ _ HI id st Hst) as (_ & _ & Hin & [s Hs] & [q Hq]).
  rewrite Hin. split; cbn.
  - intros i. rewrite lookup_alter_is_Some. apply HA.
  - intros i s' q' Hs' Hq'. destruct (decide (id = i)) as [<-|Hne].
    2: { rewrite lookup_alter_ne in Hq' by done. rewrite decide_False by done.
         rewrite Z.add_0_r. by apply HA. }
    rewrite lookup_alter_eq, Hq in Hq'. injection Hq' as <-.
    rewrite Hs in Hs'. injection Hs' as <-.
    rewrite decide_True, Hst, Hin, Hq by done.
    destruct (a_balanced _ _ HA id s q Hs Hq) as [Hwf Hb]. split.
    { pose proof (run_op_wf q (OpTryRecv (λ _, true)) Hwf I) as Hwf'. cbn in Hwf'.
      unfold try_recv. by destruct (try_recv_if q _) as [[q1 sg] r]. }
    rewrite Hb. unfold try_recv. rewrite try_recv_if_form by done.
    destruct (items (state q)) as [|[x b] rest] eqn:Hi.
    + destruct (_ || _); cbn; rewrite Hi; apply cong64_eq; lia.
    + cbn. rewrite zlen_cons. apply cong64_eq. lia.
Qed.

Lemma Acc_step n sys e d :
  Inv n sys → options_typed (validated (listener_options (world sys))) →
  Acc (world sys) d → (∀ id, states (world sys) !! id = None → d id = 0) →
  Acc (world (step sys e)) (λ id, d id + delivered_by_step id sys e).
Proof.
  intros HI Ho HA Hnew. assert (Hmax : MAX_DATAGRAM_SIZE ≤ usize_max).
  { pose proof usize_max_ge. unfold MAX_DATAGRAM_SIZE. lia. }
  assert (Hplain : ∀ w : World W L Sm Addr, Acc w d → Acc w (λ id, d id + 0)).
  { intros w. apply Acc_ext. intros. lia. }
  destruct e as [data a t|id|id|id|id|]; cbn [step delivered_by_step].
  - apply (Acc_ext _ d); [intros; lia|].
    destruct (dispatch_cases data a t (world sys))
      as [-> | [(ps & p & Hps & Hp & Hopen & Hlen & ->) | [(permits & -> & _) |
          (ps & permits & q & Hps & _ & _ & Hlen & Hok & (sg & ev & Hs) & ->)]]]; cbn [world].
    + done.
    + destruct (i_peers _ _ HI ps a p Hps Hp) as (Hq & _). destruct p as [pq pst]. cbn in *. subst pq.
      apply Acc_peer_push; [lia|done|done].
    + destruct HA. by split.
    + destruct (balanced_first (listener_options (world sys)) data t q sg ev Ho Hlen Hok Hs) as [_ Hb].
      assert (Acc match ps !! a with Some p => peer_drop p (world sys) | None => world sys end d) as HA'.
      { destruct (ps !! a); [by apply Acc_peer_drop | done]. }
      pose proof (Acc_add_objects (fresh_id (world sys)) _ q _ d Hb
        (Hnew _ (proj1 (fresh_id_spec (world sys)))) HA') as [].
      by split.
  - apply (Acc_ext _ d); [intros; lia|]. case_decide; [by apply Acc_close|done].
  - destruct (live sys !! id) as [st|] eqn:Hst; [by apply (Acc_recv n)|].
    apply (Acc_ext _ d); [|done]. intros i. case_decide; [subst; rewrite Hst|]; lia.
  - apply (Acc_ext _ d); [intros; lia|]. destruct (live sys !! id) as [st|] eqn:Hst; [|done].
    destruct (i_live _ _ HI id st Hst) as (_ & Hss & Hin & _). cbn. unfold stream_drop.
    rewrite Hss, Hin. by apply Acc_tracked_incoming_drop, Acc_registration_drop.
  - apply (Acc_ext _ d); [intros; lia|]. destruct (live sys !! id) as [st|] eqn:Hst; [|done].
    destruct (i_live _ _ HI id st Hst) as (_ & Hss & Hin & _). cbn. unfold read_half_drop.
    rewrite Hss, Hin. by apply Acc_registration_drop, Acc_tracked_incoming_drop, Acc_close.
  - apply (Acc_ext _ d); [intros; lia|]. by apply Acc_listener_drop.
Qed.

(** Nothing is delivered to a peer that does not exist yet. *)
Lemma delivered_fresh n sys e id :
  Inv n sys → states (world (step sys e)) !! id = None → delivered_by_step id sys e = 0.
Proof.
  intros HI Hn. destruct e as [| |id'| | |]; try done. cbn in *.
  case_decide; [subst id'|done]. destruct (live sys !! id) as [st|] eqn:Hst; [|done].
  destruct (i_live _ _ HI id st Hst) as (_ & _ & _ & [s Hs] & _). cbn in Hn. congruence.
Qed.

Lemma Acc_run n es sys d :
  Inv n sys → options_typed (validated (listener_options (world sys))) →
  Acc (world sys) d → (∀ id, states (world sys) !! id = None → d id = 0) →
  Acc (world (run es sys)) (λ id, d id + delivered id es sys).
Proof.
  revert sys d; induction es as [|e es IH]; intros sys d HI Ho HA Hnew.
  - apply (Acc_ext _ d); [|done]. intros. cbn. lia.
  - destruct (step_mono n sys e HI) as [Hopt Hmono].
    apply (Acc_ext _ (λ id, (d id + delivered_by_step id sys e) + delivered id es (step sys e))).
    { intros. cbn [delivered]. lia. }
    apply (IH (step sys e)).
    + by apply Inv_step.
    + by rewrite Hopt.
    + by apply (Acc_step n).
    + intros id Hid. rewrite (delivered_fresh n) by done. rewrite Hnew; [done|].
      apply eq_None_not_Some. intros Hs%Hmono. rewrite Hid in Hs. by destruct Hs.
Qed.
End Accounting.

Lemma run_options `{Target} {W : Type → Type} `{Watch W} {L : Type} `{CancellationTokenLaws L}
    {Sm : Type} `{SemaphoreLaws Sm} {Addr : Type} `{Countable Addr}
    (connected : bool) (local : result Addr io_error) (o : UdpOptions) (w : World W L Sm Addr) es :
  options_typed o → from_socket connected local o = Ok w →
  listener_options (world (run es (started w))) = {| validated := o |}.
Proof.
  intros (Hmax & _) Hw.
  assert (HI : Inv (max_peers o) (started w)) by (eapply Inv_started; [lia|exact Hw]).
  assert (Ho : listener_options (world (started w)) = {| validated := o |}).
  { unfold from_socket, ValidatedOptions_new in Hw. destruct (_ || _); [done|]. cbn in Hw.
    destruct connected; [done|]. destruct local; [|done]. cbn in Hw. by injection Hw as <-. }
  revert HI Ho. generalize (started w). intros sys. unfold run. revert sys.
  induction es as [|e es IH]; intros sys HI Ho; [done|].
  destruct (step_mono _ sys e HI) as [He _]. apply (IH (step sys e)); [by apply Inv_step|congruence].
Qed.

(** ** What a drop touches *)

Section Drops.
Context `{Target} {W : Type → Type} `{Watch W} {L : Type} `{CancellationTokenLaws L}.
Context {Sm : Type} `{SemaphoreLaws Sm} {Addr : Type} `{Countable Addr}.
Implicit Types (w : World W L Sm Addr) (sys : System W L Sm Addr).

(** Only the objects of [id] may differ. *)
Definition local_to (id : nat) w w' : Prop :=
  ∀ id', id' ≠ id → states w' !! id' = states w !! id' ∧ queues w' !! id' = queues w !! id'.

#[export] Instance local_to_preorder id : PreOrder (local_to id).
Proof.
  split; [by intros w id'|]. intros w1 w2 w3 H12 H23 id' Hne.
  destruct (H12 id' Hne) as [<- <-]. by apply H23.
Qed.

Lemma local_on_state id f w : local_to id w (on_state id f w).
Proof. intros id' Hne. cbn. by rewrite lookup_alter_ne. Qed.

Lemma local_on_queue id f w : local_to id w (on_queue id f w).
Proof. intros id' Hne. cbn. by rewrite lookup_alter_ne. Qed.

Lemma local_tracked_incoming_drop id w : local_to id w (tracked_incoming_drop id id w).
Proof.
  unfold tracked_incoming_drop. destruct (queues w !! id); [|done]. cbn.
  etrans; [apply (local_on_queue id)|apply local_on_state].
Qed.

Lemma tracked_incoming_drop_closed id w id' :
  state_open (tracked_incoming_drop id id w) id' = true → state_open w id' = true.
Proof. apply (f_open _ _ (frame_tracked_incoming_drop id id w)). Qed.

(** The table without the entry of [id]. *)
Definition removed (id : nat) (ps ps' : gmap Addr Peer) : Prop :=
  ∀ a, ps' !! a = if decide (peer_state <$> ps !! a = Some id) then None else ps !! a.

Lemma without_removed n sys id st ps :
  Inv n sys → live sys !! id = Some st → peers (world sys) = Some ps →
  removed id ps (without {| reg_address := peer_addr st; reg_state := id |} ps).
Proof.
  intros HI Hst Hps a. unfold without. cbn.
  destruct (decide (a = peer_addr st)) as [->|Hne].
  - destruct (ps !! peer_addr st) as [p|] eqn:Hp; cbn.
    + destruct (decide (peer_state p = id)) as [He|Hne].
      * rewrite lookup_delete_eq, decide_True by congruence. done.
      * rewrite decide_False by congruence. done.
    + by rewrite decide_False.
  - assert (Hl : match ps !! peer_addr st with
      | Some p => if decide (peer_state p = id) then delete (peer_addr st) ps else ps
      | None => ps end !! a = ps !! a).
    { destruct (ps !! peer_addr st) as [p|]; [|done]. case_decide; [|done].
      by rewrite lookup_delete_ne. }
    rewrite Hl. case_decide as Hd; [|done]. apply fmap_Some in Hd as (p & Hp & Hid).
    destruct (i_peers _ _ HI ps a p Hps Hp) as (_ & st' & Hst' & Ha). congruence.
Qed.

Lemma registration_drop_local n sys id st :
  Inv n sys → live sys !! id = Some st →
  local_to id (world sys) (registration_drop (registration st) (world sys)).
Proof.
  intros HI Hst. destruct (i_live _ _ HI id st Hst) as (-> & _).
  unfold registration_drop. cbn [reg_address reg_state].
  assert (Hk : ∀ w1, local_to id (world sys) w1 → local_to id (world sys)
    (set_slots (sem_release (slots (on_state id close w1))) (on_state id close w1))).
  { intros w1 Hw1. etrans; [exact Hw1|]. apply (local_on_state id close). }
  destruct (peers (world sys)) as [ps|] eqn:Hps; [|by apply Hk].
  destruct (ps !! peer_addr st) as [p|] eqn:Hp; [|by apply Hk].
  destruct (decide _) as [He|]; [|by apply Hk]. apply Hk. cbn in He.
  destruct (i_peers _ _ HI ps _ p Hps Hp) as (Hq & _). unfold peer_drop. rewrite Hq, He.
  intros id' Hne. exact (local_on_queue id _ (world sys) id' Hne).
Qed.

Lemma registration_drop_effects sys id st :
  registration st = {| reg_address := peer_addr st; reg_state := id |} →
  let w' := registration_drop (registration st) (world sys) in
  peers w' = without {| reg_address := peer_addr st; reg_state := id |} <$> peers (world sys) ∧
  slots w' = sem_release (slots (world sys)) ∧ state_open w' id = false.
Proof.
  intros -> w'. subst w'.
  destruct (registration_drop_form {| reg_address := peer_addr st; reg_state := id |} (world sys))
    as (w1 & [Hp _ _ _ _ _] & ->). cbn in *. split_and!; [done|done|].
  apply not_true_is_false. intros Ho. by apply (state_open_close w1 id id) in Ho as [? _].
Qed.
End Drops.

(** ** Properties *)

Section Properties.
Context `{Target} {W : Type → Type} `{Watch W} {L : Type} `{CancellationTokenLaws L}.
Context {Sm : Type} `{SemaphoreLaws Sm} {Addr : Type} `{Countable Addr}.
Implicit Types (w : World W L Sm Addr) (sys : System W L Sm Addr).

(** C7. The UDP peer table never loses track of its peers: after any sequence of
    datagrams, closes, receives, drops of streams and of the listener, at most
    [max_peers] connections exist, every permit is either free or held by
    exactly one of them, a connection whose peer is open is the entry its
    address routes to, and therefore no two open connections share an address. *)
Theorem udp_peer_table (connected : bool) local (o : UdpOptions) w (es : list (event Addr)) :
  options_typed o → from_socket connected local o = Ok w →
  let sys := run es (started w) in
  Z.of_nat (size (live sys)) + sem_available (slots (world sys)) = max_peers o ∧
  (∀ id st, live sys !! id = Some st → state_open (world sys) id = true →
     ∃ ps, peers (world sys) = Some ps ∧
           ps !! peer_addr st = Some {| peer_queue := id; peer_state := id |}) ∧
  (∀ id1 id2 st1 st2,
     live sys !! id1 = Some st1 → state_open (world sys) id1 = true →
     live sys !! id2 = Some st2 → state_open (world sys) id2 = true →
     peer_addr st1 = peer_addr st2 → id1 = id2).
Proof.
  intros (Hmax & _) Hw sys.
  assert (HI : Inv (max_peers o) sys) by (eapply Inv_run, Inv_started; [lia|exact Hw]).
  split_and!.
  - pose proof (i_slots _ _ HI). lia.
  - apply (i_routed _ _ HI).
  - intros id1 id2 st1 st2 Hl1 Ho1 Hl2 Ho2 Ha.
    destruct (i_routed _ _ HI _ _ Hl1 Ho1) as (ps1 & Hp1 & Hr1).
    destruct (i_routed _ _ HI _ _ Hl2 Ho2) as (ps2 & Hp2 & Hr2).
    rewrite Ha in Hr1. congruence.
Qed.

(** C14. Dropping a connection removes its own entry of the peer table and nothing
    else: a connection that was replaced (its address has reconnected since)
    leaves the replacement routed, open and with its queue and state untouched;
    one that was not replaced stops being routed. Either way its peer is closed
    and its permit is free again. *)
Theorem udp_drop_removes_own_entry (connected : bool) local (o : UdpOptions) w (es : list (event Addr))
    id st (split : bool) :
  options_typed o → from_socket connected local o = Ok w →
  let sys := run es (started w) in
  live sys !! id = Some st →
  let sys' := step sys (if split then DropReadHalf id else DropStream id) in
  (∀ ps, peers (world sys) = Some ps → ∃ ps', peers (world sys') = Some ps' ∧ removed id ps ps') ∧
  local_to id (world sys) (world sys') ∧
  state_open (world sys') id = false ∧
  sem_available (slots (world sys')) = sem_available (slots (world sys)) + 1.
Proof.
  intros (Hmax & _) Hw sys Hst.
  assert (HI : Inv (max_peers o) sys) by (eapply Inv_run, Inv_started; [lia|exact Hw]).
  destruct (i_live _ _ HI id st Hst) as (Hreg & Hss & Hin & _ & _).
  destruct split; cbn [step]; rewrite Hst; cbn [world]; unfold read_half_drop, stream_drop; rewrite Hss, Hin.
  - set (w1 := tracked_incoming_drop id id (on_state id close (world sys))).
    assert (Hf : frame (world sys) w1).
    { etrans; [|apply frame_tracked_incoming_drop]. apply frame_on_state. intros. apply close_closes. }
    pose proof (Inv_frame _ _ _ HI Hf) as HI1.
    destruct (registration_drop_effects {| world := w1; live := live sys |} id st Hreg)
      as (Hp & Hsl & Ho). cbn [world live] in *. rewrite (f_peers _ _ Hf) in Hp. rewrite (f_slots _ _ Hf) in Hsl.
    split_and!.
    + intros ps Hps. rewrite Hps in Hp. eexists. split; [exact Hp|]. by apply (without_removed (max_peers o) sys).
    + etrans; [|exact (registration_drop_local _ _ _ _ HI1 Hst)].
      etrans; [apply (local_on_state id close)|apply local_tracked_incoming_drop].
    + done.
    + by rewrite Hsl, sem_release_available.
  - destruct (registration_drop_effects sys id st Hreg) as (Hp & Hsl & Ho).
    set (w1 := registration_drop (registration st) (world sys)) in *.
    destruct (frame_tracked_incoming_drop id id w1) as [Hp1 _ Hs1 _ _ Ho1].
    split_and!.
    + intros ps Hps. rewrite Hps in Hp. eexists. split; [by rewrite Hp1, Hp|].
      by apply (without_removed (max_peers o) sys).
    + etrans; [|apply local_tracked_incoming_drop]. by apply (registration_drop_local (max_peers o)).
    + apply not_true_is_false. intros Hc%Ho1. congruence.
    + by rewrite Hs1, Hsl, sem_release_available.
Qed.

(** A new peer's first datagram is never lost: [accept] gets a new connection
    for a datagram exactly when the datagram is of legal size and fits the
    configured queue, a permit is free and no open peer has its address; the
    connection then has a state of its own, is open, has counted that datagram
    as received, and the next receive of its queue returns it. *)
Theorem udp_first_datagram (connected : bool) local (o : UdpOptions) w (es : list (event Addr))
    data a t :
  options_typed o → from_socket connected local o = Ok w →
  let sys := run es (started w) in
  let d := {| bytes := data; received_at := t |} in
  ((∃ w' st, dispatch data a t (world sys) = (w', Some st)) ↔
   zlen data ≤ MAX_DATAGRAM_SIZE ∧ receive_queue_capacity o ≠ 0 ∧ zlen data ≤ receive_queue_bytes o ∧
   0 < sem_available (slots (world sys)) ∧
   ∃ ps, peers (world sys) = Some ps ∧ ∀ p, ps !! a = Some p → peer_open (world sys) p = false) ∧
  (∀ w' st, dispatch data a t (world sys) = (w', Some st) →
     peer_addr st = a ∧ states (world sys) !! stream_state st = None ∧
     state_open w' (stream_state st) = true ∧
     ∃ q s, queues w' !! incoming st = Some q ∧ states w' !! stream_state st = Some s ∧
       stats (handle s) received_data_packets = 1 ∧ stats (handle s) received_data_bytes = zlen data ∧
       (recv_attempt q).2 = Ready (Some d)).
Proof.
  intros Hty Hw sys d.
  assert (HI : Inv (max_peers o) sys).
  { eapply Inv_run, Inv_started; [destruct Hty; lia|exact Hw]. }
  assert (Hopt : listener_options (world sys) = {| validated := o |}) by by eapply run_options.
  pose proof (zlen_nonneg data). split; [split|].
  - intros (w' & st & Hd). revert Hd.
    destruct (dispatch_cases data a t (world sys))
      as [-> | [(ps & p & _ & _ & _ & _ & ->) | [(permits & -> & _) |
          (ps & permits & q & Hps & Ha & Hcl & Hlen & Hok & _ & _)]]]; try done.
    intros _. rewrite Hopt in Hok. cbn in Hok. bools. apply sem_acquire_some in Ha as [? _].
    split_and!; try done. by exists ps.
  - intros (Hlen & Hc & Hb & Hs & ps & Hps & Hcl). unfold dispatch.
    rewrite (proj2 (Z.ltb_ge _ _)), Hps by done.
    assert ((ps !! a ≫= λ p, if peer_open (world sys) p then Some p else None) = None) as ->.
    { destruct (ps !! a) as [p|] eqn:Hp; [|done]. cbn. by rewrite (Hcl p). }
    rewrite Hopt. cbn [validated].
    assert ((receive_queue_capacity o =? 0) || (receive_queue_bytes o <? zlen data) = false) as Hok.
    { rewrite (proj2 (Z.eqb_neq _ _)), (proj2 (Z.ltb_ge _ _)) by done. done. }
    rewrite Hok. destruct (sem_try_acquire _) as [permits|] eqn:Hsem.
    2: { apply sem_acquire_none in Hsem. lia. }
    destruct Hty as (_ & _ & Hcap & Hbytes & _).
    rewrite first_send by done. by eexists _, _.
  - intros w' st Hd. revert Hd.
    destruct (dispatch_cases data a t (world sys))
      as [-> | [(ps & p & _ & _ & _ & _ & ->) | [(permits & -> & _) |
          (ps & permits & q & Hps & _ & _ & Hlen & Hok & (sg & ev & Hs) & ->)]]]; try done.
    intros [= <- <-]. cbn. rewrite Hopt in Hok, Hs.
    destruct (balanced_first {| validated := o |} data t q sg ev Hty Hlen Hok Hs) as [Hi [Hwf _]].
    destruct (fresh_id_spec (world sys)) as [Hf _].
    split_and!; [done|done| |].
    + unfold state_open. cbn. rewrite lookup_insert_eq. cbn. unfold is_closed. cbn.
      by rewrite token_new_live.
    + eexists q, _. rewrite !lookup_insert_eq. split_and!; try done.
      * unfold stats. cbn. unfold fetch_add. cbn. unfold wadd64. apply Z.mod_small.
        unfold MAX_DATAGRAM_SIZE, u64_modulus in *. lia.
      * unfold recv_attempt, try_recv. rewrite try_recv_if_form by done.
        destruct (items (state q)) as [|[x b] rest]; [done|]. cbn in Hi. by simplify_eq.
Qed.

(** C13. No received datagram disappears: in every reachable state the packets a
    peer's statistics report as received are exactly those the application
    received, plus those still queued, plus those the drop counters record
    (u64 counters, hence modulo 2^64). *)
Theorem udp_receive_accounting (connected : bool) local (o : UdpOptions) w (es : list (event Addr)) id s q :
  options_typed o → from_socket connected local o = Ok w →
  let sys := run es (started w) in
  states (world sys) !! id = Some s → queues (world sys) !! id = Some q →
  stats (handle s) received_data_packets ≡64
    drops s + zlen (items (state q)) + delivered id es (started w).
Proof.
  intros Hty Hw sys Hs Hq.
  assert (HI : Inv (max_peers o) (started w)) by (eapply Inv_started; [destruct Hty; lia|exact Hw]).
  pose proof (run_options connected local o w [] Hty Hw) as Hopt. cbn in Hopt.
  assert (Hstart : Acc (world (started w)) (λ _, 0)).
  { unfold from_socket in Hw. destruct (ValidatedOptions_new o); [|done]. cbn in Hw.
    destruct connected; [done|]. destruct local; [|done]. cbn in Hw. injection Hw as <-.
    split; cbn; intros i; [by rewrite !lookup_empty|]. by rewrite lookup_empty. }
  pose proof (Acc_run (max_peers o) es (started w) (λ _, 0) HI ltac:(cbn; by rewrite Hopt) Hstart
    ltac:(done)) as HA.
  destruct (a_balanced _ _ HA id s q Hs Hq) as [_ Hb]. exact Hb.
Qed.
End Properties.

(** ** Concrete instances *)

Section Examples.
Definition example_options : UdpOptions := {|
  max_peers := 1; max_datagram_size := 64; receive_queue_capacity := 2;
  receive_queue_bytes := 8; receive_queue_overflow := DropOldest; send_rate := None |}.

Definition example_listener : World (λ A, A) bool Z nat :=
  {| peers := Some ∅; listener_options := {| validated := example_options |}; listener_addr := 9%nat;
     slots := 1; states := ∅; queues := ∅ |}.

(** Four datagrams from one address, one refused for lack of permits, a receive,
    a close, a reconnection that finds no permit, and the drop. *)
Definition example_events : list (event nat) :=
  [Datagram [1; 2] 7%nat 0; Datagram [3] 7%nat 1; Datagram [4; 5] 7%nat 2; Datagram [6] 8%nat 3;
   Recv 0; Close 0; Datagram [7] 7%nat 4].
End Examples.

Lemma example_options_typed : options_typed example_options.
Proof.
  pose proof usize_max_ge. repeat split; cbn; try lia.
Qed.

Lemma example_from_socket : from_socket false (Ok 9%nat) example_options = Ok example_listener.
Proof. by vm_compute. Qed.

Lemma udp_peer_table_witness :
  options_typed example_options ∧
  let sys := run example_events (started example_listener) in
  Z.of_nat (size (live sys)) + sem_available (slots (world sys)) = max_peers example_options.
Proof.
  split; [exact example_options_typed|].
  exact (proj1 (udp_peer_table false (Ok 9%nat) example_options example_listener example_events
    example_options_typed example_from_socket)).
Defined.

Definition example_stream : UdpServerStream nat :=
  {| registration := {| reg_address := 7%nat; reg_state := 0 |}; incoming := 0; stream_state := 0;
     peer_addr := 7%nat; local_addr := 9%nat |}.

Lemma udp_drop_removes_own_entry_witness :
  let sys := run example_events (started example_listener) in
  live sys !! 0%nat = Some example_stream ∧
  state_open (world (step sys (DropReadHalf 0))) 0 = false.
Proof.
  assert (Hl : live (run example_events (started example_listener)) !! 0%nat = Some example_stream)
    by by vm_compute.
  split; [exact Hl|].
  exact (proj1 (proj2 (proj2 (udp_drop_removes_own_entry false (Ok 9%nat) example_options
    example_listener example_events 0 example_stream true example_options_typed
    example_from_socket Hl)))).
Defined.

Lemma udp_first_datagram_witness :
  ∃ w' st, dispatch [1; 2] 7%nat 0 (world (run [] (started example_listener))) = (w', Some st).
Proof.
  pose proof (udp_first_datagram false (Ok 9%nat) example_options example_listener []
    [1; 2] 7%nat 0 example_options_typed example_from_socket) as [Hx _].
  refine (proj2 Hx _). clear Hx.
  split; [by vm_compute|]. split; [by vm_compute|]. split; [by vm_compute|].
  split; [by vm_compute|]. exists ∅. split; [done|]. intros p. by rewrite lookup_empty.
Defined.

Lemma udp_receive_accounting_witness :
  ∃ s q, states (world (run example_events (started example_listener))) !! 0%nat = Some s ∧
         queues (world (run example_events (started example_listener))) !! 0%nat = Some q ∧
         stats (handle s) received_data_packets ≡64
           drops s + zlen (items (state q)) + delivered 0 example_events (started example_listener).
Proof.
  assert (is_Some (states (world (run example_events (started example_listener))) !! 0%nat)) as [s Hs].
  { apply (bool_decide_unpack _). vm_compute. exact I. }
  assert (is_Some (queues (world (run example_events (started example_listener))) !! 0%nat)) as [q Hq].
  { apply (bool_decide_unpack _). vm_compute. exact I. }
  exists s, q. split; [exact Hs|]. split; [exact Hq|].
  exact (udp_receive_accounting false (Ok 9%nat) example_options example_listener example_events
    0%nat s q example_options_typed example_from_socket Hs Hq).
Defined.
