(* ===== verification/UdpStream.v ===== *)
(** * UDP streams

    Models src/src/protocols/udp/stream.rs: where a peer's datagrams come from
    ([Incoming::next]), the receive loop of [UdpReadHalf], the paced send of
    [UdpWriteHalf], the splitting of a peer; and the accept loop of
    src/src/protocols/udp/listener.rs.

    A future is read as the list of the worlds its task sees when it is polled:
    it is [Pending] when the list runs out. *)

From S2P Require Import Prelude Protocol Lossy Externals Diagnostics Settings Serializer Pacing Peer Listener.

(** ** Receiving from the socket *)

(** [matches!(err.kind(), ConnectionReset | ConnectionRefused)]: ICMP answers to
    datagrams sent earlier. *)
Definition is_icmp (e : io_error) : bool :=
  match kind e with ConnectionReset | ConnectionRefused => true | _ => false end.

(** A completed [recv]: the length it reports, the buffer, and the instant read
    after it. *)
Record recv_result := { recv_len : Z; recv_buffer : list Z; recv_now : Z }.

(** [buffer.get(..len)]. *)
Definition received_slice (r : recv_result) : result (list Z) io_error :=
  match slice_get_to (recv_buffer r) (Z.to_nat (recv_len r)) with
  | Some bytes => Ok bytes
  | None => Err (io_error_from InvalidData)
  end.

(** The socket branch of [Incoming::next]. *)
Fixpoint socket_next (polls : list (result recv_result io_error))
    : Poll (result QueuedDatagram io_error) :=
  match polls with
  | [] => Pending
  | Err e :: polls => if is_icmp e then socket_next polls else Ready (Err e)
  | Ok r :: _ =>
      Ready (try! bytes := received_slice r in Ok {| bytes := bytes; received_at := recv_now r |})
  end.

(** What the incoming side offers at one poll of the receive loop: the peer's
    queue, or the socket with the [recv]s that complete during the poll. *)
Inductive Incoming :=
  | FromQueue (queue : Shared QueuedDatagram)
  | FromSocket (recvs : list (result recv_result io_error)).

Definition next `{Target} (i : Incoming) : Poll (result QueuedDatagram io_error) :=
  match i with
  | FromQueue queue =>
      match (recv_attempt queue).2 with
      | Ready (Some d) => Ready (Ok d)
      | Ready None => Ready (Err disconnected_error)
      | Pending => Pending
      end
  | FromSocket recvs => socket_next recvs
  end.

Definition is_socket (i : Incoming) : bool :=
  match i with FromSocket _ => true | FromQueue _ => false end.

Section Stream.
Context `{Target} {W : Type → Type} `{Watch W} {L : Type} `{CancellationToken L}.
Context {Sm : Type} `{Semaphore Sm} {Addr : Type} `{Countable Addr}.
Context {Cd Rp Sp : Type} `{Ser : Serializer Cd Rp Sp} {LenErr : Type}.
Implicit Types s : PeerState W L.

(** ** The accept loop *)

(** [recv_from]: a completed receive with its source address. *)
Fixpoint accept (polls : list (result (recv_result * Addr) io_error)) (w : World W L Sm Addr)
    : World W L Sm Addr * Poll (result (UdpServerStream Addr) io_error) :=
  match polls with
  | [] => (w, Pending)
  | Err e :: polls => if is_icmp e then accept polls w else (w, Ready (Err e))
  | Ok (r, address) :: polls =>
      match received_slice r with
      | Err e => (w, Ready (Err e))
      | Ok bytes =>
          match dispatch bytes address (recv_now r) w with
          | (w, Some stream) => (w, Ready (Ok stream))
          | (w, None) => accept polls w
          end
      end
  end.

(** ** The read half *)

(** One poll: whether the peer has been closed by then, the incoming side, and
    the receive limit. *)
Record read_poll := { rp_cancelled : bool; rp_incoming : Incoming; rp_limit : Z }.

Definition observe (cancelled : bool) s : PeerState W L := if cancelled then close s else s.

Fixpoint udp_receive_with_timestamp (polls : list read_poll) s (c : Cd)
    : PeerState W L * Cd * Poll (outcome (result (Rp * Z) (ReceiveError DecodeError LenErr))) :=
  match polls with
  | [] => (s, c, Pending)
  | p :: polls =>
      let s := observe (rp_cancelled p) s in
      if is_closed s then (s, c, Ready (Returns (Err (Io disconnected_error))))
      else match next (rp_incoming p) with
      | Pending => udp_receive_with_timestamp polls s c
      | Ready (Err e) => (close s, c, Ready (Returns (Err (Io e))))
      | Ready (Ok d) =>
          let payload := bytes d in
          let s := if is_socket (rp_incoming p) then received_datagram (zlen payload) s else s in
          if MAX_DATAGRAM_SIZE <? zlen payload
          then udp_receive_with_timestamp polls (with_handle (count_drop UdpReceiveLimit) s) c
          else if rp_limit p <? zlen payload
          then udp_receive_with_timestamp polls (with_handle (count_drop UdpReceiveLimit) s) c
          else match deserialize payload c with
          | (c, Panics) => (s, c, Ready Panics)
          | (c, Returns (Ok packet)) => (s, c, Ready (Returns (Ok (packet, received_at d))))
          | (c, Returns (Err _)) =>
              udp_receive_with_timestamp polls (with_handle (count_drop UdpMalformedPayload) s) c
          end
      end
  end.

Definition udp_receive (polls : list read_poll) s (c : Cd)
    : PeerState W L * Cd * Poll (outcome (result Rp (ReceiveError DecodeError LenErr))) :=
  match udp_receive_with_timestamp polls s c with
  | (s, c, Pending) => (s, c, Pending)
  | (s, c, Ready Panics) => (s, c, Ready Panics)
  | (s, c, Ready (Returns res)) => (s, c, Ready (Returns (result_map fst res)))
  end.

(** ** The write half *)

(** The [select!] of [send_datagram]: at each poll, whether the peer has been
    closed, and what the socket's send answered, if it did. *)
Fixpoint send_select (data : list Z) (polls : list (bool * option (result Z io_error))) s
    : PeerState W L * Poll (result () io_error) :=
  match polls with
  | [] => (s, Pending)
  | (cancelled, answer) :: polls =>
      let s := observe cancelled s in
      if is_closed s then (s, Ready (Err disconnected_error))
      else match answer with
      | None => send_select data polls s
      | Some (Err e) => (s, Ready (Err e))
      | Some (Ok n) =>
          if n =? zlen data then (with_handle (data_sent (zlen data)) s, Ready (Ok ()))
          else (s, Ready (Err (io_error_from WriteZero)))
      end
  end.

Definition send_datagram (data : list Z) (polls : list (bool * option (result Z io_error))) s
    : PeerState W L * Poll (result () io_error) :=
  if is_closed s then (s, Ready (Err disconnected_error)) else send_select data polls s.

Record UdpWriteHalf := { pacer : DataPacer }.

(** What a send meets on its way: the polls of the pacer, the polls of the
    socket's send, the instant recorded after it, and whether the peer was
    closed by the time its failure is examined. *)
Record write_env := {
  we_first : Pacing.world;
  we_waits : list Pacing.world;
  we_sends : list (bool * option (result Z io_error));
  we_sent_at : Z;
  we_closed_after : bool;
}.

Definition udp_send (packet : Sp) (e : write_env) (h : UdpWriteHalf) s (c : Cd)
    : UdpWriteHalf * PeerState W L * Cd * Poll (outcome (result () io_error)) :=
  match serialize packet c with
  | (c, Panics) => (h, s, c, Ready Panics)
  | (c, Returns (Err err)) => (h, s, c, Ready (Returns (Err (io_error_other (display err)))))
  | (c, Returns (Ok payload)) =>
      if validated_max_payload_size (options s) <? zlen payload
      then (h, drop_oversized s, c, Ready (Returns (Ok ())))
      else match wait (pacer h) (we_first e) (we_waits e) with
      | Pending => (h, s, c, Pending)
      | Ready (Err err) => (h, observe true s, c, Ready (Returns (Err err)))
      | Ready (Ok _) =>
          match send_datagram payload (we_sends e) s with
          | (s, Pending) => (h, s, c, Pending)
          | (s, Ready res) =>
              let h := {| pacer := sent (zlen payload) (we_sent_at e) |} in
              match res with
              | Ok _ => (h, s, c, Ready (Returns (Ok ())))
              | Err err =>
                  let s := observe (we_closed_after e) s in
                  if is_closed s then (h, s, c, Ready (Returns (Err err)))
                  else (h, drop_send_error s, c, Ready (Returns (Ok ())))
              end
          end
      end
  end.

(** ** Splitting a connected peer

    [ConnectedPeer::into_split]: both halves share the state; the write half
    starts a fresh pacer on the handle's rate. *)

Record UdpReadHalf := { read_from_socket : bool; read_state : nat }.

Definition into_split (from_socket : bool) (state : nat) (address : option Addr)
    : UdpReadHalf * (UdpWriteHalf * nat * option Addr) :=
  ({| read_from_socket := from_socket; read_state := state |},
   ({| pacer := DataPacer_new |}, state, address)).

(** The server stream splits into a queue reader that sends to its peer's
    address, the client stream into a socket reader of a connected socket. *)
Definition server_into_split (st : UdpServerStream Addr) :=
  into_split false (stream_state st) (Some (peer_addr st)).

Record ConfiguredUdpClientStream := { client_peer : Addr; client_local : Addr; client_state : PeerState W L }.

(** [from_socket] of a client, given what the socket's address queries answer. *)
Definition client_from_socket (peer local : result Addr io_error) (o : UdpOptions)
    : result ConfiguredUdpClientStream io_error :=
  try! o := ValidatedOptions_new o in
  let state := PeerState_new o in
  try! peer_addr := peer in
  try! local_addr := local in
  Ok {| client_peer := peer_addr; client_local := local_addr; client_state := state |}.

(** [connect_with_options]: the options are validated before any socket exists;
    [bound] is what binding and connecting answers. *)
Definition connect_with_options (o : UdpOptions)
    (bound : result (result Addr io_error * result Addr io_error) io_error)
    : result ConfiguredUdpClientStream io_error :=
  try! _v := ValidatedOptions_new o in
  try! addrs := bound in
  client_from_socket addrs.1 addrs.2 o.

(** [ClientStream::connect], with the options of the configuration. *)
Definition client_connect (OPTIONS : UdpOptions) (bound : result (result Addr io_error * result Addr io_error) io_error)
    : result ConfiguredUdpClientStream io_error := connect_with_options OPTIONS bound.

(** The client stream, whose state is [state], splits into a reader of its
    connected socket and a writer without an address. *)
Definition client_into_split (state : nat) := into_split true state None.
End Stream.

(** ** Lemmas *)

Section StreamLemmas.
Context `{Target} {W : Type → Type} `{Watch W} {L : Type} `{CancellationTokenLaws L}.
Implicit Types s : PeerState W L.

Lemma observe_counters b s : drops (observe b s) = drops s ∧
  received_packets (observe b s) = received_packets s ∧ handle (observe b s) = handle s.
Proof. by destruct b. Qed.

Lemma observe_open b s : is_closed (observe b s) = false → b = false ∧ is_closed s = false.
Proof.
  destruct b; [|done]. cbn. unfold is_closed, close. cbn. by rewrite token_cancel_cancels.
Qed.

Lemma observe_closed s : is_closed s = true → ∀ b, is_closed (observe b s) = true.
Proof. intros Hs [|]; [|done]. unfold is_closed, close. cbn. by rewrite token_cancel_cancels. Qed.
End StreamLemmas.

(** ** Properties of reception *)

Section Reception.
Context `{Target} {W : Type → Type} `{Watch W} {L : Type} `{CancellationTokenLaws L}.
Context {Cd Rp Sp : Type} `{Ser : Serializer Cd Rp Sp} {LenErr : Type}.
Implicit Types s : PeerState W L.

Abbreviation receives := (udp_receive_with_timestamp (Rp:=Rp) (LenErr:=LenErr)).

(** What reception adds to the received count minus the drop count: the packet
    it returns (or the one a panicking codec consumed). *)
Definition taken {A} (r : Poll (outcome (result A (ReceiveError (DecodeError (Serializer:=Ser)) LenErr)))) : Z :=
  match r with Ready (Returns (Ok _)) | Ready Panics => 1 | _ => 0 end.

(** The client's read half accounts for every datagram it takes from the
    socket: over any run of polls, what the peer's statistics count as received
    is what they count as dropped plus the packet the call returns. Datagrams
    over the hard limit, over the configured limit, or that do not decode are
    dropped and counted, never returned and never an error. *)
Theorem udp_client_receive_accounting (polls : list read_poll) s (c : Cd) s' c' r :
  Forall (λ p, is_socket (rp_incoming p) = true) polls →
  receives polls s c = (s', c', r) →
  received_packets s' + drops s ≡64 received_packets s + drops s' + taken r.
Proof.
  intros Hall. revert s c. induction Hall as [|p polls Hp Hall IH]; intros s c Hr.
  { cbn in Hr. simplify_eq. apply cong64_eq. cbn. lia. }
  cbn [udp_receive_with_timestamp] in Hr.
  destruct (observe_counters (rp_cancelled p) s) as (Hd & Hrp & _).
  set (s0 := observe (rp_cancelled p) s) in *. rewrite <- Hd, <- Hrp.
  destruct (is_closed s0); [simplify_eq; apply cong64_eq; cbn; lia|].
  destruct (next (rp_incoming p)) as [[d|e]|]; [| |by apply IH in Hr].
  2: { injection Hr as <- _ <-. change (drops (close s0)) with (drops s0).
       change (received_packets (close s0)) with (received_packets s0). apply cong64_eq. cbn. lia. }
  rewrite Hp in Hr. destruct (received_datagram_counts (zlen (bytes d)) s0) as [Hd1 Hr1].
  set (s1 := received_datagram (zlen (bytes d)) s0) in *. rewrite <- Hd1.
  assert (Hdrop : ∀ reason s2 r, received_packets s2 + drops (with_handle (count_drop reason) s1) ≡64
      received_packets (with_handle (count_drop reason) s1) + drops s2 + r →
    received_packets s2 + drops s1 ≡64 received_packets s0 + drops s2 + r).
  { intros reason s2 r2 Hk. rewrite received_count_drop, drops_count_drop, Hr1 in Hk.
    revert Hk. apply (cong64_cancel 1); lia. }
  destruct (_ <? _); [by apply IH, Hdrop in Hr|].
  destruct (_ <? _); [by apply IH, Hdrop in Hr|].
  destruct (deserialize (bytes d) c) as [c1 [[packet|e]|]].
  - injection Hr as <- _ <-. rewrite Hr1. apply cong64_eq. cbn. lia.
  - by apply IH, Hdrop in Hr.
  - injection Hr as <- _ <-. rewrite Hr1. apply cong64_eq. cbn. lia.
Qed.

(** A datagram the receive loop may return: offered at some poll, within both
    limits, and decoded by the serializer. *)
Definition acceptable (p : read_poll) (packet : Rp) (at_ : Z) : Prop :=
  ∃ d c c', next (rp_incoming p) = Ready (Ok d) ∧ at_ = received_at d ∧
    zlen (bytes d) ≤ MAX_DATAGRAM_SIZE ∧ zlen (bytes d) ≤ rp_limit p ∧
    deserialize (bytes d) c = (c', Returns (Ok packet)).

(** The read half fails only by closing: an error it returns is an I/O error
    with the peer closed, whatever the datagrams were (a malformed or oversized
    one never ends the connection); a packet it returns was offered by the
    network within the limits in force at that poll, and carries the instant of
    its arrival, not of its decoding; and from a closed peer it answers
    [ConnectionAborted] without taking anything. *)
Theorem udp_receive_outcome (polls : list read_poll) s (c : Cd) s' c' res :
  receives polls s c = (s', c', Ready (Returns res)) →
  match res with
  | Ok (packet, at_) => ∃ p, p ∈ polls ∧ acceptable p packet at_
  | Err e => ∃ io, e = Io io ∧ is_closed s' = true
  end ∧
  (is_closed s = true → c' = c ∧ res = Err (Io disconnected_error) ∧
     drops s' = drops s ∧ received_packets s' = received_packets s).
Proof.
  intros Hr. split.
  - revert s c Hr. induction polls as [|p polls IH]; intros s c Hr; [done|].
    cbn [udp_receive_with_timestamp] in Hr. set (s0 := observe (rp_cancelled p) s) in *.
    assert (Hlift : ∀ s1 c1, receives polls s1 c1 = (s', c', Ready (Returns res)) →
      match res with
      | Ok (packet, at_) => ∃ q, q ∈ p :: polls ∧ acceptable q packet at_
      | Err e => ∃ io, e = Io io ∧ is_closed s' = true
      end).
    { intros s1 c1 Hk%IH. destruct res as [[packet at_]|e]; [|done].
      destruct Hk as (q & Hq & Ha). exists q. split; [by right|done]. }
    destruct (is_closed s0) eqn:Hc; [injection Hr as <- _ <-; by eexists|].
    destruct (next (rp_incoming p)) as [[d|e]|] eqn:Hn; [| |by apply (Hlift _ _ Hr)].
    2: { injection Hr as <- _ <-. exists e. split; [done|]. apply token_cancel_cancels. }
    set (s1 := if is_socket _ then _ else s0) in *.
    destruct (MAX_DATAGRAM_SIZE <? zlen (bytes d)) eqn:Hmax; [by apply (Hlift _ _ Hr)|].
    destruct (rp_limit p <? zlen (bytes d)) eqn:Hlim; [by apply (Hlift _ _ Hr)|].
    destruct (deserialize (bytes d) c) as [c1 [[packet|err]|]] eqn:Hd; [|by apply (Hlift _ _ Hr)|done].
    injection Hr as _ _ <-. exists p. split; [by left|]. bools.
    exists d, c, c1. by split_and!.
  - intros Hc. destruct polls as [|p polls]; [done|]. cbn [udp_receive_with_timestamp] in Hr.
    rewrite observe_closed in Hr by done. injection Hr as <- <- <-.
    by destruct (observe_counters (rp_cancelled p) s) as (-> & -> & _).
Qed.
End Reception.

(** ** Properties of sending *)

Section Sending.
Context `{Target} {W : Type → Type} `{Watch W} {L : Type} `{CancellationTokenLaws L}.
Context {Cd Rp Sp : Type} `{Ser : Serializer Cd Rp Sp}.
Implicit Types s : PeerState W L.

Definition sent_packets s : Z := counters (handle s) sent_data_packets.

Lemma sent_count_drop r s : sent_packets (with_handle (count_drop r) s) = sent_packets s.
Proof. by destruct r. Qed.

Lemma send_select_outcome data polls s s' r :
  send_select data polls s = (s', r) →
  drops s' = drops s ∧
  match r with
  | Ready (Ok _) => sent_packets s' ≡64 sent_packets s + 1
  | _ => sent_packets s' = sent_packets s
  end.
Proof.
  revert s. induction polls as [|[cancelled answer] polls IH]; intros s Hr.
  { cbn in Hr. by simplify_eq. }
  cbn [send_select] in Hr. destruct (observe_counters cancelled s) as (Hd & _ & Hh).
  assert (Hs : sent_packets (observe cancelled s) = sent_packets s)
    by (unfold sent_packets; by rewrite Hh).
  rewrite <- Hd, <- Hs. set (s0 := observe cancelled s) in *.
  destruct (is_closed s0); [by simplify_eq|].
  destruct answer as [[n|e]|]; [|by simplify_eq|by apply IH].
  destruct (n =? zlen data); simplify_eq; [|done].
  split; [done|]. apply wadd64_cong.
Qed.

Lemma send_datagram_outcome data polls s s' r :
  send_datagram data polls s = (s', r) →
  drops s' = drops s ∧
  match r with
  | Ready (Ok _) => sent_packets s' ≡64 sent_packets s + 1
  | _ => sent_packets s' = sent_packets s
  end.
Proof.
  unfold send_datagram. destruct (is_closed s); [by intros; simplify_eq|]. apply send_select_outcome.
Qed.

(** A send is never fatal for the network's sake: it succeeds with exactly
    one more packet counted as sent or dropped (oversized, or a failed send), or
    it fails, with nothing counted, only because the packet could not be
    serialized or because the peer is closed. *)
Theorem udp_send_accounting (packet : Sp) e h s (c : Cd) h' s' c' res :
  udp_send packet e h s c = (h', s', c', Ready (Returns res)) →
  match res with
  | Ok _ => sent_packets s' + drops s' ≡64 sent_packets s + drops s + 1
  | Err err =>
      sent_packets s' = sent_packets s ∧ drops s' = drops s ∧
      (is_closed s' = true ∨
       ∃ cause, (serialize packet c).2 = Returns (Err cause) ∧ err = io_error_other (display cause))
  end.
Proof.
  unfold udp_send. destruct (serialize packet c) as [c1 [[payload|cause]|]] eqn:Hs; [| |done].
  2: { intros [= <- <- <- <-]. eauto 10. }
  destruct (_ <? _).
  { intros [= <- <- <- <-]. unfold drop_oversized.
    rewrite drops_count_drop, sent_count_drop. apply cong64_eq. lia. }
  destruct (wait _ _ _) as [[[]|err]|]; [| |done].
  2: { intros [= <- <- <- <-]. split_and!; [done|done|]. left. apply token_cancel_cancels. }
  destruct (send_datagram payload (we_sends e) s) as [s1 [r|]] eqn:Hd; [|done].
  apply send_datagram_outcome in Hd as [Hd Hr]. destruct r as [[]|err].
  { intros [= <- <- <- <-]. rewrite Hr, Hd. apply cong64_eq. lia. }
  destruct (observe_counters (we_closed_after e) s1) as (Hd1 & _ & Hh1).
  set (s2 := observe _ s1) in *.
  assert (Hr2 : sent_packets s2 = sent_packets s) by (rewrite <- Hr; unfold sent_packets; by rewrite Hh1).
  destruct (is_closed s2) eqn:Hc; intros [= <- <- <- <-].
  - split_and!; [done|congruence|by left].
  - unfold drop_send_error. rewrite drops_count_drop, sent_count_drop, Hd1, Hd, <- Hr2.
    apply cong64_eq. lia.
Qed.
End Sending.

(** ** The accept loop *)

Section Accept.
Context `{Target} {W : Type → Type} `{Watch W} {L : Type} `{CancellationToken L}.
Context {Sm : Type} `{Semaphore Sm} {Addr : Type} `{Countable Addr}.
Implicit Types w : World W L Sm Addr.

(** The polls that do not end the loop: ICMP errors, and datagrams that the
    listener routes to a peer or ignores. *)
Fixpoint routed (polls : list (result (recv_result * Addr) io_error)) w : option (World W L Sm Addr) :=
  match polls with
  | [] => Some w
  | Err e :: polls => if is_icmp e then routed polls w else None
  | Ok (r, a) :: polls =>
      match received_slice r with
      | Err _ => None
      | Ok bytes => match dispatch bytes a (recv_now r) w with
                    | (w, None) => routed polls w
                    | (_, Some _) => None
                    end
      end
  end.

(** The accept loop goes on until it has something to say: ICMP answers and
    datagrams that create no connection never end it, but they are all
    dispatched, in order; it then returns the first new connection, or the first
    other error, with the listener exactly as those dispatches left it. *)
Theorem udp_accept_outcome (polls : list (result (recv_result * Addr) io_error)) w w' r :
  accept polls w = (w', r) →
  ∃ skipped rest w1, polls = skipped ++ rest ∧ routed skipped w = Some w1 ∧
  match r with
  | Pending => rest = [] ∧ w' = w1
  | Ready (Ok st) => ∃ d a bytes rest', rest = Ok (d, a) :: rest' ∧ received_slice d = Ok bytes ∧
      dispatch bytes a (recv_now d) w1 = (w', Some st)
  | Ready (Err e) => w' = w1 ∧ ((∃ rest', rest = Err e :: rest' ∧ is_icmp e = false) ∨
      (∃ d a rest', rest = Ok (d, a) :: rest' ∧ received_slice d = Err e))
  end.
Proof.
  revert w. induction polls as [|[[d a]|e] polls IH]; intros w Hr.
  - cbn in Hr. simplify_eq. by exists [], [], w'.
  - cbn [accept] in Hr. destruct (received_slice d) as [bytes|e] eqn:Hb.
    2: { simplify_eq. exists [], (Ok (d, a) :: polls), w'. eauto 10. }
    destruct (dispatch bytes a (recv_now d) w) as [w1 [st|]] eqn:Hd.
    { simplify_eq. exists [], (Ok (d, a) :: polls), w. split_and!; eauto 10. }
    destruct (IH w1 Hr) as (sk & rest & w2 & -> & Hsk & Hm).
    exists (Ok (d, a) :: sk), rest, w2. split_and!; [done| |done]. cbn. by rewrite Hb, Hd.
  - cbn [accept] in Hr. destruct (is_icmp e) eqn:He.
    + destruct (IH w Hr) as (sk & rest & w2 & -> & Hsk & Hm).
      exists (Err e :: sk), rest, w2. split_and!; [done| |done]. cbn. by rewrite He.
    + simplify_eq. exists [], (Err e :: polls), w'. eauto 10.
Qed.
End Accept.

(** Options that are not valid fail both ends before any socket exists, whatever
    binding and connecting would answer. With valid ones a listener starts without
    peers, a client stream starts open on the addresses of its socket, and only the
    socket's own failures are left. *)
Theorem udp_endpoints_validate `{Target} {W : Type → Type} `{Watch W} {L : Type} `{CancellationTokenLaws L}
    {Sm : Type} `{Semaphore Sm} {Addr : Type} `{Countable Addr} (o : UdpOptions)
    (connected : result (result Addr io_error * result Addr io_error) io_error)
    (bound : result (result Addr io_error) io_error) :
  match ValidatedOptions_new o with
  | Err e =>
      kind e = InvalidInput ∧ client_connect (W:=W) (L:=L) o connected = Err e ∧
      protocol_bind (W:=W) (L:=L) (Sm:=Sm) o bound = Err e
  | Ok v =>
      match client_connect (W:=W) (L:=L) o connected with
      | Ok st => connected = Ok (Ok (client_peer st), Ok (client_local st)) ∧
          client_state st = PeerState_new v ∧ is_closed (client_state st) = false
      | Err e => connected = Err e ∨ (∃ l, connected = Ok (Err e, l)) ∨ ∃ p, connected = Ok (Ok p, Err e)
      end ∧
      match protocol_bind (W:=W) (L:=L) (Sm:=Sm) o bound with
      | Ok w => bound = Ok (Ok (listener_addr w)) ∧ peers w = Some ∅ ∧ listener_options w = v
      | Err e => bound = Err e ∨ bound = Ok (Err e)
      end
  end.
Proof.
  unfold client_connect, connect_with_options, client_from_socket, protocol_bind, listener_bind, from_socket.
  destruct (ValidatedOptions_new o) as [v|e] eqn:Hv; cbn.
  - split.
    + destruct connected as [[[p|e1] [l|e2]]|e1]; cbn; eauto. split_and!; try done. apply token_new_live.
    + destruct bound as [[l|e]|e]; cbn; eauto.
  - split; [|done]. unfold ValidatedOptions_new in Hv. destruct (_ || _); [|done]. by injection Hv as <-.
Qed.

(** ** Concrete instances *)

Definition example_peer : PeerState (λ A, A) bool := PeerState_new {| validated := example_options |}.
Definition datagram_of (bs : list Z) : result recv_result io_error :=
  Ok {| recv_len := zlen bs; recv_buffer := bs ++ [0; 0]; recv_now := 5 |}.

(** An ICMP error, a malformed and an oversized datagram, then a good one. *)
Definition example_read_polls : list read_poll :=
  [{| rp_cancelled := false; rp_limit := 2;
      rp_incoming := FromSocket [Err (io_error_from ConnectionReset); datagram_of [7; 7]] |};
   {| rp_cancelled := false; rp_limit := 2; rp_incoming := FromSocket [] |};
   {| rp_cancelled := false; rp_limit := 2; rp_incoming := FromSocket [datagram_of [1; 1; 1]] |};
   {| rp_cancelled := false; rp_limit := 2; rp_incoming := FromSocket [datagram_of [1]] |}].

Definition example_receive := udp_receive_with_timestamp (Ser:=bool_serializer) (LenErr:=unit)
  example_read_polls example_peer (ReadOnly bitcode_new).

Lemma udp_client_receive_accounting_witness :
  Forall (λ p, is_socket (rp_incoming p) = true) example_read_polls ∧
  example_receive.2 = Ready (Returns (Ok (true, 5))) ∧
  received_packets example_receive.1.1 + drops example_peer ≡64
    received_packets example_peer + drops example_receive.1.1 + taken (Ser:=bool_serializer) example_receive.2.
Proof.
  assert (Hs : Forall (λ p, is_socket (rp_incoming p) = true) example_read_polls) by by repeat constructor.
  split; [exact Hs|]. split; [by vm_compute|].
  exact (udp_client_receive_accounting (Ser:=bool_serializer) example_read_polls example_peer
    (ReadOnly bitcode_new) example_receive.1.1 example_receive.1.2 example_receive.2 Hs
    (pair3_eta _)).
Defined.

Lemma udp_receive_outcome_witness :
  example_receive.2 = Ready (Returns (Ok (true, 5))) ∧
  ∃ p, p ∈ example_read_polls ∧ acceptable (Ser:=bool_serializer) p true 5.
Proof.
  assert (Hr : example_receive.2 = Ready (Returns (Ok (true, 5)))) by by vm_compute.
  split; [exact Hr|].
  exact (proj1 (udp_receive_outcome (Ser:=bool_serializer) (LenErr:=unit) example_read_polls example_peer
    (ReadOnly bitcode_new) example_receive.1.1 example_receive.1.2 (Ok (true, 5))
    (eq_trans (pair3_eta _) (f_equal (pair _) Hr)))).
Defined.

(** A send that the socket refuses. *)
Definition example_write : write_env := {|
  we_first := example_world 0; we_waits := [];
  we_sends := [(false, None); (false, Some (Err (io_error_from ConnectionRefused)))];
  we_sent_at := 1; we_closed_after := false |}.
Definition example_send := udp_send (Ser:=bool_serializer) true example_write
  {| pacer := DataPacer_new |} example_peer (ReadOnly bitcode_new).

Lemma udp_send_accounting_witness :
  example_send.2 = Ready (Returns (Ok ())) ∧
  sent_packets example_send.1.1.2 + drops example_send.1.1.2 ≡64
    sent_packets example_peer + drops example_peer + 1.
Proof.
  assert (Hr : example_send.2 = Ready (Returns (Ok ()))) by by vm_compute.
  split; [exact Hr|].
  exact (udp_send_accounting (Ser:=bool_serializer) true example_write {| pacer := DataPacer_new |}
    example_peer (ReadOnly bitcode_new) example_send.1.1.1 example_send.1.1.2 example_send.1.2 (Ok ())
    (eq_trans (pair4_eta _) (f_equal (pair _) Hr))).
Defined.

Definition example_accepts : list (result (recv_result * nat) io_error) :=
  [Err (io_error_from ConnectionReset);
   Ok ({| recv_len := 1; recv_buffer := [6; 0]; recv_now := 5 |}, 7%nat)].
Definition example_accept := accept example_accepts example_listener.

Lemma udp_accept_outcome_witness :
  ∃ skipped rest w1, example_accepts = skipped ++ rest ∧
    routed skipped example_listener = Some w1 ∧
    match example_accept.2 with
    | Pending => rest = [] ∧ example_accept.1 = w1
    | Ready (Ok st) => ∃ d a bytes rest', rest = Ok (d, a) :: rest' ∧ received_slice d = Ok bytes ∧
        dispatch bytes a (recv_now d) w1 = (example_accept.1, Some st)
    | Ready (Err e) => example_accept.1 = w1 ∧ ((∃ rest', rest = Err e :: rest' ∧ is_icmp e = false) ∨
        (∃ d a rest', rest = Ok (d, a) :: rest' ∧ received_slice d = Err e))
    end.
Proof.
  exact (udp_accept_outcome example_accepts example_listener example_accept.1 example_accept.2
    (surjective_pairing _)).
Defined.
