(* ===== verification/Connection.v ===== *)
(** * Connections

    Models src/src/connection/mod.rs: [ConnectionId], the ECS handle
    [EcsConnection] and the task-side [RawConnection], with
    src/src/connection/parts.rs. *)

From S2P Require Import Prelude Protocol Lossy Externals Settings Queue.

(** ** Identifiers

    [ConnectionId::next]: the process-wide counter, and the identifier. *)
Record ConnectionId := { connection_number : Z }.
#[export] Instance connection_id_eq_dec : EqDecision ConnectionId.
Proof. solve_decision. Defined.

Definition next_id `{Target} (counter : Z) : ConnectionId * Z :=
  ({| connection_number := counter |}, wadd counter 1).

Definition read (i : ConnectionId) : Z := connection_number i.

(** ** The transport a connection is built on *)

Class NetworkStream (NS Hd Addr : Type) := {
  ns_transport : NS → Hd;
  ns_local_addr : NS → Addr;
  ns_peer_addr : NS → Addr;
}.

Section Connection.
Context `{Target} {L : Type} `{CancellationToken L} {Ch : Type → Type} `{Mpsc Ch}.
Context {NS Hd Addr : Type} `{TransportHandle Hd} `{NetworkStream NS Hd Addr}.
Context {T Ser LS : Type}.

(** What every clone of a connection and its tasks share: the cancellation
    token, the [published] flag, the outgoing queue and the transport handle. *)
Record Link := {
  disconnect_task : L;
  published : bool;
  packet_tx : Outgoing Ch T;
  transport : Hd;
}.

(** [EcsConnection], and the [RawConnection] its tasks own. *)
Record EcsConnection := { ecs_id : ConnectionId; ecs_local_addr : Addr; ecs_peer_addr : Addr }.

Record RawConnection := {
  stream : NS;
  serializer : Ser;
  packet_length_serializer : LS;
  packets_rx : OutgoingReceiver;
  receive_limits : ReceiveLimits;
  raw_id : ConnectionId;
}.

(** ** Operations of the handle *)

(** Cloning and changing the endpoint share everything; a clone holds its own
    sender of the queue. *)
Definition ecs_clone (c : EcsConnection) (k : Link) : EcsConnection * Link :=
  (c, {| disconnect_task := disconnect_task k; published := published k;
         packet_tx := sender_clone (packet_tx k); transport := transport k |}).
Definition with_endpoint (c : EcsConnection) : EcsConnection := c.

Definition mark_published (k : Link) : Link :=
  {| disconnect_task := disconnect_task k; published := true;
     packet_tx := packet_tx k; transport := transport k |}.
Definition is_published (k : Link) : bool := published k.

Definition is_closed (k : Link) : bool :=
  token_is_cancelled (disconnect_task k) || sender_is_closed (packet_tx k).

Definition outgoing_queue (k : Link) : QueueSnapshot := sender_snapshot (packet_tx k).

Definition send (packet : T) (k : Link) : Link * result () (SendError T) :=
  if token_is_cancelled (disconnect_task k) then (k, Err (SendClosed packet))
  else
    let '(q, h, res) := sender_try_send (packet_tx k) packet (transport k) in
    ({| disconnect_task := disconnect_task k; published := published k;
        packet_tx := q; transport := h |}, res).

Definition ecs_record_drop (reason : QueueDropReason) (k : Link) : Link :=
  {| disconnect_task := disconnect_task k; published := published k;
     packet_tx := packet_tx k; transport := record_drop reason (transport k) |}.

Definition disconnect (k : Link) : Link :=
  {| disconnect_task := token_cancel (disconnect_task k); published := published k;
     packet_tx := packet_tx k; transport := transport k |}.

(** ** Construction *)

(** [RawConnection::with_limits]: [token] is what [connection_token()] answers. *)
Definition with_limits (st : NS) (ser : Ser) (pls : LS) (rx : OutgoingReceiver)
    (limits : ReceiveLimits) (counter : Z) : RawConnection * Z :=
  let '(id, counter) := next_id counter in
  ({| stream := st; serializer := ser; packet_length_serializer := pls;
      packets_rx := set_transport rx; receive_limits := limits; raw_id := id |}, counter).

(** [RawConnection::new]: unlimited reception, on a queue of the caller. *)
Definition raw_new (st : NS) (ser : Ser) (pls : LS) (counter : Z) (cells : AtomicCells)
    : RawConnection * Z * AtomicCells :=
  let '(limits, cells) := ReceiveLimits_default cells in
  let '(raw, counter) := with_limits st ser pls receiver_new limits counter in
  (raw, counter, cells).

Definition ecs_connection (raw : RawConnection) (token : L) (packet_tx : Outgoing Ch T)
    : EcsConnection * Link :=
  ({| ecs_id := raw_id raw; ecs_local_addr := ns_local_addr (stream raw);
      ecs_peer_addr := ns_peer_addr (stream raw) |},
   {| disconnect_task := token; published := false; packet_tx := packet_tx;
      transport := ns_transport (stream raw) |}).

Definition with_queue (st : NS) (ser : Ser) (pls : LS) (queues : NetworkQueueSettings)
    (limits : ReceiveLimits) (datagram : bool) (token : L) (counter : Z)
    : RawConnection * EcsConnection * Link * Z :=
  let '(sender, receiver) := outgoing_channel queues datagram in
  let '(raw, counter) := with_limits st ser pls receiver limits counter in
  let '(connection, link) := ecs_connection raw token sender in
  (raw, connection, link, counter).

(** [into_parts] hands everything over, the shared token included;
    [into_stream] drops the queue's receiver. *)
Record RawConnectionParts := {
  parts_disconnect_task : L;
  parts_stream : NS;
  parts_serializer : Ser;
  parts_packet_length_serializer : LS;
  parts_packets_rx : OutgoingReceiver;
  parts_receive_limits : ReceiveLimits;
  parts_id : ConnectionId;
}.

Definition into_parts (raw : RawConnection) (k : Link) : RawConnectionParts := {|
  parts_disconnect_task := disconnect_task k;
  parts_stream := stream raw;
  parts_serializer := serializer raw;
  parts_packet_length_serializer := packet_length_serializer raw;
  parts_packets_rx := packets_rx raw;
  parts_receive_limits := receive_limits raw;
  parts_id := raw_id raw;
|}.

Definition into_stream (raw : RawConnection) (k : Link) : NS * Link :=
  let '(q, h) := receiver_drop (packets_rx raw) (packet_tx k) (transport k) in
  (stream raw, {| disconnect_task := disconnect_task k; published := published k;
                  packet_tx := q; transport := h |}).

(** ** Executions of the handle's operations *)

Inductive ecs_op := EcsSend (packet : T) | EcsDisconnect | EcsPublish | EcsClone | EcsTaskEnd.

(** [EcsTaskEnd]: the task drops the queue's receiver. *)
Definition ecs_step (rx : OutgoingReceiver) (k : Link) (o : ecs_op) : Link :=
  match o with
  | EcsSend p => (send p k).1
  | EcsDisconnect => disconnect k
  | EcsPublish => mark_published k
  | EcsClone => {| disconnect_task := disconnect_task k; published := published k;
                   packet_tx := sender_clone (packet_tx k); transport := transport k |}
  | EcsTaskEnd => let '(q, h) := receiver_drop rx (packet_tx k) (transport k) in
      {| disconnect_task := disconnect_task k; published := published k;
         packet_tx := q; transport := h |}
  end.
Definition ecs_run (rx : OutgoingReceiver) (os : list ecs_op) (k : Link) : Link :=
  foldl (ecs_step rx) k os.
End Connection.
Arguments Link L Ch Hd T : clear implicits.
Arguments EcsConnection Addr : clear implicits.
Arguments RawConnection NS Ser LS : clear implicits.
Arguments RawConnectionParts L NS Ser LS : clear implicits.
Arguments ecs_op T : clear implicits.

(** ** Properties *)

Section Properties.
Context `{Target} {L : Type} `{CancellationTokenLaws L} {Ch : Type → Type} `{Mpsc Ch}.
Context {NS Hd Addr : Type} `{TransportHandle Hd} `{NetworkStream NS Hd Addr}.
Context {T Ser LS : Type}.

Lemma ecs_step_cancelled rx (k : Link L Ch Hd T) o :
  token_is_cancelled (disconnect_task k) = true →
  token_is_cancelled (disconnect_task (ecs_step rx k o)) = true.
Proof.
  intros Hc. destruct o as [p| | | |]; cbn; try done.
  - unfold send. by rewrite Hc.
  - apply token_cancel_cancels.
  - by destruct (receiver_drop _ _ _).
Qed.

(** A connection whose queue is closed gives packets back. *)
Lemma send_closed_queue `{!MpscLaws Ch} (packet : T) (k : Link L Ch Hd T) :
  sender_is_closed (packet_tx k) = true → ∃ k', send packet k = (k', Err (SendClosed packet)).
Proof.
  intros Hc. unfold send. destruct (token_is_cancelled _); [by eexists|].
  unfold sender_try_send. destruct (packet_tx k) as [c|q]; cbn in Hc.
  - destruct (mpsc_try_send c packet) as [c' r] eqn:Hs.
    apply mpsc_try_send_view in Hs as (_ & _ & _ & Hs). rewrite Hc in Hs.
    destruct Hs as [-> _]. by eexists.
  - unfold try_send, try_send_where. unfold Lossy.is_closed in Hc. rewrite Hc. by eexists.
Qed.

(** Disconnecting is final and takes effect at once: after [disconnect], and
    after anything done later through any clone of the connection, it reports
    closed, and every packet submitted comes back unsent as [Closed], with no
    queue, flag or statistic changed. *)
Theorem disconnect_is_final rx (k : Link L Ch Hd T) (os : list (ecs_op T)) (packet : T) :
  let k' := ecs_run rx os (disconnect k) in
  is_closed k' = true ∧ send packet k' = (k', Err (SendClosed packet)).
Proof.
  assert (Hc : token_is_cancelled (disconnect_task (ecs_run rx os (disconnect k))) = true).
  { assert (Hk : token_is_cancelled (disconnect_task (disconnect k)) = true)
      by apply token_cancel_cancels.
    revert Hk. generalize (disconnect k). induction os as [|o os IH]; intros k0 Hk; [done|].
    apply IH. by apply ecs_step_cancelled. }
  cbn zeta. unfold is_closed, send. by rewrite Hc.
Qed.

(** A matching pair: [with_queue] gives the task and the ECS the same
    identity, addresses and queue; the queue is empty, at least one packet long,
    of the kind and policy the protocol selects; the receiver already accounts
    for undelivered packets on the stream's handle; and the next connection gets
    another identity (until the counter has been around the whole [usize]). *)
Theorem with_queue_matches `{!MpscLaws Ch} (st : NS) (ser : Ser) (pls : LS) queues limits datagram
    (token : L) counter raw connection (link : Link L Ch Hd T) counter' :
  0 ≤ counter < usize_max →
  with_queue st ser pls queues limits datagram token counter = (raw, connection, link, counter') →
  raw_id raw = ecs_id connection ∧ read (ecs_id connection) = counter ∧ counter' = counter + 1 ∧
  ecs_local_addr connection = ns_local_addr st ∧ ecs_peer_addr connection = ns_peer_addr st ∧
  receive_limits raw = limits ∧ transport_set (packets_rx raw) = true ∧
  disconnect_task link = token ∧ transport link = ns_transport st ∧ is_published link = false ∧
  queue_items (packet_tx link) = [] ∧ sender_is_closed (packet_tx link) = false ∧
  capacity (outgoing_queue link) = Z.max (send_capacity queues) 1 ∧
  match packet_tx link with
  | LossyQ q => datagram = true ∧ policy q = datagram_send_overflow queues
  | Reliable _ => datagram = false
  end.
Proof.
  intros Hcount. unfold with_queue, outgoing_channel. pose proof usize_max_ge.
  assert (0 < Z.max (send_capacity queues) 1) as Hpos by lia.
  destruct (mpsc_channel_view (T:=T) _ Hpos) as (Hi & Hc & Hm & _).
  destruct datagram; cbn; intros [= <- <- <- <-]; cbn; rewrite wadd_small by lia; by split_and!.
Qed.
End Properties.

(** ** Concrete instances *)

#[export] Instance unit_stream : NetworkStream nat (list QueueDropReason) nat :=
  { ns_transport _ := []; ns_local_addr n := n; ns_peer_addr n := S n }.

Lemma with_queue_matches_witness :
  ∃ raw connection (link : Link bool fifo (list QueueDropReason) Z) counter',
    with_queue (Ser:=unit) (LS:=unit) 4%nat () () NetworkQueueSettings_default {| limit_cell := 0 |}
      true false 7 = (raw, connection, link, counter') ∧
    raw_id raw = ecs_id connection ∧ read (ecs_id connection) = 7 ∧ counter' = 7 + 1 ∧
    ecs_local_addr connection = ns_local_addr 4%nat ∧ ecs_peer_addr connection = ns_peer_addr 4%nat ∧
    receive_limits raw = {| limit_cell := 0 |} ∧ transport_set (packets_rx raw) = true ∧
    disconnect_task link = false ∧ transport link = ns_transport 4%nat ∧ is_published link = false ∧
    queue_items (packet_tx link) = [] ∧ sender_is_closed (packet_tx link) = false ∧
    capacity (outgoing_queue link) = Z.max (send_capacity NetworkQueueSettings_default) 1 ∧
    match packet_tx link with
    | LossyQ q => true = true ∧ policy q = datagram_send_overflow NetworkQueueSettings_default
    | Reliable _ => true = false
    end.
Proof.
  do 4 eexists. split; [reflexivity|].
  refine (with_queue_matches (Ser:=unit) (LS:=unit) 4%nat () () NetworkQueueSettings_default
    {| limit_cell := 0 |} true false 7 _ _ _ _ _ eq_refl).
  split; [lia | apply Z.ltb_lt; by vm_compute].
Defined.

Definition example_connection : Link bool fifo (list QueueDropReason) Z :=
  {| disconnect_task := false; published := true; packet_tx := Reliable (mpsc_channel 2); transport := [] |}.

Lemma disconnect_is_final_witness :
  let k' := ecs_run (set_transport receiver_new) [EcsSend 1; EcsClone; EcsPublish]
              (disconnect example_connection) in
  is_closed k' = true ∧ send 2 k' = (k', Err (SendClosed 2)).
Proof.
  exact (disconnect_is_final (set_transport receiver_new) example_connection
    [EcsSend 1; EcsClone; EcsPublish] 2).
Defined.
