(* ===== verification/Tasks.v ===== *)
(** * The send task

    Models src/src/connection/tasks.rs ([send_packets]) and
    src/src/connection/transport.rs ([PendingPacket]): the task that takes
    packets from a connection's outgoing queue and hands them to the transport,
    until the queue ends, a write fails or the connection is cancelled. *)

From S2P Require Import Prelude Protocol Lossy Externals Diagnostics Settings Queue Serializer Pacing Peer Listener UdpStream.

(** ** PendingPacket

    A guard armed when a packet is dequeued; [finish] disarms it unless the
    write was aborted. *)

Record PendingPacket := { armed : bool }.
Definition pending_new : PendingPacket := {| armed := true |}.

Definition aborted (res : result () io_error) : bool :=
  match res with Err err => bool_decide (kind err = ConnectionAborted) | Ok _ => false end.

Definition pending_finish (res : result () io_error) (p : PendingPacket) : PendingPacket :=
  if aborted res then p else {| armed := false |}.

Definition pending_drop {Hd} `{TransportHandle Hd} (p : PendingPacket) (h : Hd) : Hd :=
  if armed p then record_drop ClosedBeforeDelivery h else h.

Section SendTask.
Context `{Target} {Ch : Type → Type} `{Mpsc Ch} {Hd : Type} `{TransportHandle Hd} {P : Type}.

(** The task: its queue, the cancellation token, the transport handle, the
    [send_error] slot, the packet whose [write.send] is in flight, and a log of
    the packets it has dequeued with what their write answered ([None] when it
    was never completed). *)
Record SendTask := {
  queue : Outgoing Ch P;
  cancelled : bool;
  handle : Hd;
  send_error : option io_error;
  current : option P;
  log : list (P * option (result () io_error));
}.

Definition task_start (q : Outgoing Ch P) (h : Hd) : SendTask :=
  {| queue := q; cancelled := false; handle := h; send_error := None; current := None; log := [] |}.

(** A poll of the task: what the senders did to the queue since the last one,
    whether the token is cancelled when [select!] looks and when the loop looks,
    and the writes that complete during the poll, in order. *)
Record send_poll := {
  sp_senders : Outgoing Ch P → Outgoing Ch P;
  sp_cancelled : bool;
  sp_checked : bool;
  sp_answers : list (result () io_error);
}.

Inductive next_step := Stop | Wait | Write.

(** The head of the loop: [packets_rx.recv()] and the cancellation check. *)
Definition take_next (checked : bool) (t : SendTask) : SendTask * next_step :=
  let '(q, res) := receiver_poll_recv (queue t) in
  let with_queue h cur l := {| queue := q; cancelled := cancelled t; handle := h;
                               send_error := send_error t; current := cur; log := l |} in
  match res with
  | Pending => (with_queue (handle t) None (log t), Wait)
  | Ready None => (with_queue (handle t) None (log t), Stop)
  | Ready (Some packet) =>
      if checked
      then (with_queue (pending_drop pending_new (handle t)) None (log t ++ [(packet, None)]), Stop)
      else (with_queue (handle t) (Some packet) (log t), Write)
  end.

(** The completion of a write. *)
Definition complete (packet : P) (res : result () io_error) (t : SendTask) : SendTask :=
  {| queue := queue t; cancelled := cancelled t;
     handle := pending_drop (pending_finish res pending_new) (handle t);
     send_error := match res with Err err => Some err | Ok _ => send_error t end;
     current := None; log := log t ++ [(packet, Some res)] |}.

(** The [sending] future, polled once; [true] when it is done. *)
Fixpoint sending (checked : bool) (answers : list (result () io_error)) (t : SendTask)
    : SendTask * bool :=
  let '(t, st) := match current t with Some _ => (t, Write) | None => take_next checked t end in
  match st with
  | Stop => (t, true)
  | Wait => (t, false)
  | Write =>
      match current t, answers with
      | Some packet, res :: answers =>
          let t := complete packet res t in
          match res with Err _ => (t, true) | Ok _ => sending checked answers t end
      | _, _ => (t, false)
      end
  end.

(** Dropping the [sending] future drops the guard of a packet in flight. *)
Definition interrupt (t : SendTask) : SendTask :=
  match current t with
  | None => t
  | Some packet =>
      {| queue := queue t; cancelled := cancelled t; handle := pending_drop pending_new (handle t);
         send_error := send_error t; current := None; log := log t ++ [(packet, None)] |}
  end.

(** The biased [select!] over the polls; [true] when it ended. *)
Fixpoint select_sending (polls : list send_poll) (t : SendTask) : SendTask * bool :=
  match polls with
  | [] => (t, false)
  | p :: polls =>
      let t := {| queue := sp_senders p (queue t); cancelled := cancelled t; handle := handle t;
                  send_error := send_error t; current := current t; log := log t |} in
      if sp_cancelled p then (interrupt t, true)
      else match sending (sp_checked p) (sp_answers p) t with
           | (t, true) => (t, true)
           | (t, false) => select_sending polls t
           end
  end.

(** [send_packets]: at the end the drop guard cancels the token and the receiver
    of the queue is dropped. *)
Definition send_packets (polls : list send_poll) (q : Outgoing Ch P) (h : Hd) : Poll SendTask :=
  match select_sending polls (task_start q h) with
  | (_, false) => Pending
  | (t, true) =>
      let '(q, h) := receiver_drop (set_transport receiver_new) (queue t) (handle t) in
      Ready {| queue := q; cancelled := true; handle := h; send_error := send_error t;
               current := current t; log := log t |}
  end.
End SendTask.
Arguments SendTask Ch Hd P : clear implicits.
Arguments send_poll Ch P : clear implicits.

(** ** Lemmas *)

Section SendLemmas.
Context `{Target} {Ch : Type → Type} `{MpscLaws Ch} {Hd : Type} `{TransportHandle Hd} {P : Type}.
Implicit Types (t : SendTask Ch Hd P).

(** What a log entry adds to the drop statistics. *)
Definition uncounted (e : P * option (result () io_error)) : bool :=
  match e.2 with None => true | Some res => aborted res end.

Definition counted (l : list (P * option (result () io_error))) : list P :=
  (filter (λ e, uncounted e = true) l).*1.

(** [true] while every logged write succeeded. *)
Definition all_ok (l : list (P * option (result () io_error))) : Prop :=
  Forall (λ e, e.2 = Some (Ok ())) l.

Definition error_of (l : list (P * option (result () io_error))) : option io_error :=
  match last l with Some (_, Some (Err e)) => Some e | _ => None end.

Lemma counted_app l1 l2 : counted (l1 ++ l2) = counted l1 ++ counted l2.
Proof. unfold counted. by rewrite filter_app, fmap_app. Qed.

Lemma counted_ok l : all_ok l → counted l = [].
Proof.
  induction 1 as [|[p r] l Hr _ IH]; [done|]. cbn in Hr. subst r.
  change ((p, Some (Ok ())) :: l) with ([(p, Some (Ok ()))] ++ l : list (P * option (result () io_error))).
  by rewrite counted_app, IH.
Qed.

Lemma error_of_ok l : all_ok l → error_of l = None.
Proof.
  intros Hl. unfold error_of. destruct (last l) as [[p r]|] eqn:He; [|done].
  apply last_Some in He as [l' ->]. apply Forall_app in Hl as [_ Hl].
  apply Forall_cons in Hl as [Hl _]. cbn in Hl. by subst r.
Qed.

Lemma error_of_snoc l p r : error_of (l ++ [(p, r)]) = match r with Some (Err e) => Some e | _ => None end.
Proof. unfold error_of. by rewrite last_snoc. Qed.

(** The state of a task that still runs, and of one that has stopped: every write
    but the last succeeded, and the statistics gained exactly the packets whose
    write did not complete. *)
Record running (h0 : Hd) t : Prop := {
  r_wf : outgoing_wf (queue t);
  r_ok : all_ok (log t);
  r_handle : handle t = h0;
  r_error : send_error t = None;
}.

Record stopped (h0 : Hd) t : Prop := {
  s_wf : outgoing_wf (queue t);
  s_log : all_ok (log t) ∨ ∃ l e, log t = l ++ [e] ∧ all_ok l;
  s_error : send_error t = error_of (log t);
  s_handle : handle t = record_drops ClosedBeforeDelivery (counted (log t)) h0;
  s_current : current t = None;
}.

Lemma poll_recv_wf q : outgoing_wf q → outgoing_wf (T:=P) (receiver_poll_recv q).1.
Proof.
  intros Hwf. pose proof (out_step_conserves (Hd:=unit) q () OutRecv Hwf) as Hs.
  cbn in Hs. by destruct (receiver_poll_recv q) as [q' r], Hs as [? _].
Qed.

Lemma receiver_drop_counts q (h : Hd) : outgoing_wf q →
  (receiver_drop (set_transport receiver_new) q h).2 =
    record_drops ClosedBeforeDelivery (queue_items (T:=P) q) h ∧
  queue_items (receiver_drop (set_transport receiver_new) q h).1 = [].
Proof.
  intros Hwf. pose proof (out_step_conserves q h OutDropReceiver Hwf) as Hs. cbn [out_step] in Hs.
  change (set_transport receiver_new) with {| transport_set := true |}.
  destruct (receiver_drop _ q h) as [q' h']. destruct Hs as (_ & -> & Hp).
  split; [by erewrite record_fates_uniform|].
  cbn in Hp. rewrite app_nil_r, fates_items in Hp.
  apply Permutation_length in Hp. rewrite length_app in Hp.
  apply length_zero_iff_nil. cbn. lia.
Qed.

Lemma stopped_ok h0 t : running h0 t → current t = None → stopped h0 t.
Proof.
  intros [] Hc. split; [done|by left| | |done].
  - by rewrite error_of_ok.
  - by rewrite counted_ok.
Qed.

Lemma stopped_snoc h0 t p r :
  running h0 t →
  stopped h0 {| queue := queue t; cancelled := cancelled t;
                handle := if uncounted (p, r) then record_drop ClosedBeforeDelivery (handle t) else handle t;
                send_error := match r with Some (Err e) => Some e | _ => None end;
                current := None; log := log t ++ [(p, r)] |}.
Proof.
  intros []. split; cbn [queue send_error handle current log]; try done.
  - right. eauto.
  - by rewrite error_of_snoc.
  - rewrite counted_app, counted_ok, r_handle0 by done. unfold counted. cbn.
    by destruct (uncounted (p, r)).
Qed.

Lemma running_take_next h0 checked t : running h0 t →
  let '(t', st) := take_next checked t in
  match st with
  | Stop => stopped h0 t'
  | Wait => running h0 t' ∧ current t' = None
  | Write => running h0 t' ∧ ∃ p, current t' = Some p
  end.
Proof.
  intros Hr. unfold take_next. pose proof (poll_recv_wf _ (r_wf _ _ Hr)) as Hwf.
  destruct (receiver_poll_recv (queue t)) as [q res]. cbn in Hwf.
  set (t1 := {| queue := q; cancelled := cancelled t; handle := handle t;
                send_error := send_error t; current := None; log := log t |}).
  assert (Hr1 : running h0 t1) by (destruct Hr; by split).
  destruct res as [[p|]|].
  - destruct checked.
    + pose proof (stopped_snoc h0 t1 p None Hr1) as Hs. cbn in Hs.
      rewrite <- (r_error _ _ Hr) in Hs. exact Hs.
    + split; [|by eexists]. destruct Hr. by split.
  - by apply stopped_ok.
  - by split.
Qed.

Lemma running_sending h0 checked answers : ∀ t, running h0 t →
  let '(t', fin) := sending checked answers t in
  if fin : bool then stopped h0 t' else running h0 t'.
Proof.
  induction answers as [|res answers IH]; intros t Hr; cbn [sending].
  - destruct (current t) as [p|] eqn:Hc; [by rewrite Hc|].
    pose proof (running_take_next h0 checked t Hr) as Hn.
    destruct (take_next checked t) as [t' []]; [done|by destruct Hn|].
    destruct Hn as [Hr' [p Hp]]. by rewrite Hp.
  - assert (Hcomp : ∀ t1 p, running h0 t1 →
      let '(t', fin) := match res with
        | Ok _ => sending checked answers (complete p res t1) | Err _ => (complete p res t1, true) end in
      if fin : bool then stopped h0 t' else running h0 t').
    { intros t1 p Hr1. destruct res as [[]|e].
      - apply IH. destruct Hr1. split; try done. cbn. apply Forall_app. by split; [|constructor].
      - pose proof (stopped_snoc h0 t1 p (Some (Err e)) Hr1) as Hs.
        unfold complete, pending_finish, pending_drop, uncounted in *. cbn [snd] in Hs.
        by destruct (aborted (Err e)). }
    destruct (current t) as [p|] eqn:Hc; [rewrite Hc; by apply (Hcomp t p)|].
    pose proof (running_take_next h0 checked t Hr) as Hn.
    destruct (take_next checked t) as [t' []]; [done|by destruct Hn|].
    destruct Hn as [Hr' [p Hp]]. rewrite Hp. by apply (Hcomp t' p).
Qed.

Lemma running_interrupt h0 t : running h0 t → stopped h0 (interrupt t).
Proof.
  intros Hr. unfold interrupt. destruct (current t) as [p|] eqn:Hc; [|by apply stopped_ok].
  pose proof (stopped_snoc h0 t p None Hr) as Hs. cbn in Hs.
  rewrite <- (r_error _ _ Hr) in Hs. exact Hs.
Qed.

Lemma running_select h0 polls t :
  Forall (λ p, ∀ q, outgoing_wf q → outgoing_wf (sp_senders p q)) polls → running h0 t →
  let '(t', fin) := select_sending polls t in
  if fin : bool then stopped h0 t' else running h0 t'.
Proof.
  intros Hall. revert t. induction Hall as [|p polls Hp Hall IH]; intros t Hr; [done|].
  cbn [select_sending]. set (t1 := {| queue := sp_senders p (queue t); cancelled := _ |}).
  assert (Hr1 : running h0 t1) by (destruct Hr; split; [by apply Hp|done..]).
  destruct (sp_cancelled p); [by apply running_interrupt|].
  pose proof (running_sending h0 (sp_checked p) (sp_answers p) t1 Hr1) as Hs.
  destruct (sending _ _ t1) as [t2 []]; [done|]. by apply IH.
Qed.
End SendLemmas.

(** ** Properties *)

Section Properties.
Context `{Target} {Ch : Type → Type} `{MpscLaws Ch} {Hd : Type} `{TransportHandle Hd} {P : Type}.

(** C15. The send task accounts for every packet it takes or leaves: when it ends,
    however it ends (queue closed, write failure, cancellation while idle, while
    waiting for a write, or between the two), the statistics gained one
    [ClosedBeforeDelivery] for each dequeued packet whose write was aborted or
    never completed and for each packet still queued, and nothing else; at most
    the last packet taken failed; the error reported to the reader is that
    write's error; and the connection is cancelled and its queue empty. *)
Theorem send_task_accounting (polls : list (send_poll Ch P)) q (h : Hd) t :
  outgoing_wf q → Forall (λ p, ∀ q, outgoing_wf q → outgoing_wf (sp_senders p q)) polls →
  send_packets polls q h = Ready t →
  ∃ left_queued,
    handle t = record_drops ClosedBeforeDelivery (counted (log t) ++ left_queued) h ∧
    left_queued = queue_items (queue (select_sending polls (task_start q h)).1) ∧
    (all_ok (log t) ∨ ∃ l e, log t = l ++ [e] ∧ all_ok l) ∧
    send_error t = error_of (log t) ∧ cancelled t = true ∧ queue_items (queue t) = [].
Proof.
  intros Hwf Hall. unfold send_packets.
  assert (Hstart : running h (task_start q h)) by (split; try done; by constructor).
  pose proof (running_select h polls _ Hall Hstart) as Hs.
  destruct (select_sending polls (task_start q h)) as [t1 []]; [|done].
  destruct Hs as [Hwf1 Hlog Herr Hh Hcur].
  destruct (receiver_drop_counts (queue t1) (handle t1) Hwf1) as [Hrd Hq].
  destruct (receiver_drop _ _ _) as [q' h']. cbn [fst snd] in *. intros [= <-].
  cbn [handle queue log send_error cancelled]. eexists. split_and!; try done.
  by rewrite record_drops_app, <- Hh.
Qed.

End Properties.

(** ** A failure at close *)

Section FailureAtClose.
Context `{Target} {W : Type → Type} `{Watch W} {L : Type} `{CancellationTokenLaws L}.
Context {Cd Rp Sp : Type} `{Ser : Serializer Cd Rp Sp}.
Context {Ch : Type → Type} `{Mpsc Ch} {Hd : Type} `{TransportHandle Hd}.
Implicit Types (s : PeerState W L).

(** How a socket's answer to a datagram fails: with its error, or by taking only
    part of it. *)
Definition refusal (payload : list Z) (answer : result Z io_error) : option io_error :=
  match answer with
  | Ok n => if n =? zlen payload then None else Some (io_error_from WriteZero)
  | Err err => Some err
  end.

(** A socket that is busy for a while and then answers. *)
Lemma send_select_answers payload k answer polls s err :
  Peer.is_closed s = false → refusal payload answer = Some err →
  send_select payload (replicate k (false, None) ++ (false, Some answer) :: polls) s = (s, Ready (Err err)).
Proof.
  intros Hc Hr. induction k as [|k IH]; cbn; rewrite Hc; [|exact IH].
  destruct answer as [n|e]; cbn in Hr; [destruct (_ =? _)|]; by simplify_eq.
Qed.

(** C40. A refused datagram leaves the statistics without a trace when the peer is
    closed before the refusal is examined. Whatever the packet, the peer, the time
    the socket took and the error: the writer returns that error with the
    statistics of the connection as they were, as it does for an aborted send; but
    unless the error happens to be of kind [ConnectionAborted], the send task's
    guard, which is to count the packets that are interrupted, does not count it
    either. *)
Theorem udp_send_failure_at_close_is_uncounted (packet : Sp) payload (e : write_env) h s (c c' : Cd)
    k answer polls err (t : SendTask Ch Hd Sp) :
  serialize packet c = (c', Returns (Ok payload)) →
  zlen payload ≤ validated_max_payload_size (Peer.options s) →
  wait (pacer h) (we_first e) (we_waits e) = Ready (Ok ()) → Peer.is_closed s = false →
  we_sends e = replicate k (false, None) ++ (false, Some answer) :: polls →
  refusal payload answer = Some err → we_closed_after e = true →
  ∃ h' s', udp_send packet e h s c = (h', s', c', Ready (Returns (Err err))) ∧
    Peer.handle s' = Peer.handle s ∧
    handle (complete packet (Err err) t) =
      (if decide (kind err = ConnectionAborted) then record_drop ClosedBeforeDelivery (handle t) else handle t) ∧
    log (complete packet (Err err) t) = log t ++ [(packet, Some (Err err))].
Proof.
  intros Hser Hlen Hwait Hc Hsends Hr Hclose. unfold udp_send. rewrite Hser, (proj2 (Z.ltb_ge _ _)), Hwait by done.
  unfold send_datagram. rewrite Hc, Hsends, (send_select_answers _ _ _ _ _ _ Hc Hr), Hclose. cbn [observe].
  assert (Hcl : Peer.is_closed (Peer.close s) = true) by apply token_cancel_cancels. rewrite Hcl.
  do 2 eexists. split; [done|]. split; [done|]. split; [|done]. cbn.
  unfold pending_drop, pending_finish, aborted. case_decide; [by rewrite bool_decide_eq_true_2|].
  by rewrite bool_decide_eq_false_2.
Qed.
End FailureAtClose.

(** ** Concrete instances *)

Definition example_send_polls : list (send_poll fifo Z) :=
  let push p q := (sender_try_send (Hd:=unit) q p ()).1.1 in
  [{| sp_senders := push 1; sp_cancelled := false; sp_checked := false; sp_answers := [Ok ()] |};
   {| sp_senders q := push 4 (push 3 (push 2 q)); sp_cancelled := false; sp_checked := false;
      sp_answers := [Ok ()] |};
   {| sp_senders q := q; sp_cancelled := true; sp_checked := false; sp_answers := [] |}].

Lemma send_task_accounting_witness :
  ∃ t, send_packets example_send_polls (outgoing_channel NetworkQueueSettings_default false).1 []
         = Ready t ∧
  ∃ left_queued,
    handle t = record_drops ClosedBeforeDelivery (counted (log t) ++ left_queued) [] ∧
    left_queued = queue_items (queue (select_sending example_send_polls
      (task_start (outgoing_channel NetworkQueueSettings_default false).1 [])).1) ∧
    (all_ok (log t) ∨ ∃ l e, log t = l ++ [e] ∧ all_ok l) ∧
    send_error t = error_of (log t) ∧ cancelled t = true ∧ queue_items (queue t) = [].
Proof.
  eexists. split; [by vm_compute|].
  refine (send_task_accounting example_send_polls
    (outgoing_channel NetworkQueueSettings_default false).1 [] _ I _ _); [|by vm_compute].
  assert (Hpush : ∀ p (q : Outgoing fifo Z), outgoing_wf q →
    outgoing_wf (sender_try_send (Hd:=unit) q p ()).1.1).
  { intros p q Hwf. pose proof (out_step_conserves (Hd:=unit) q () (OutSend p) Hwf) as Hs.
    cbn in Hs. by destruct (sender_try_send q p ()) as [[q' []] r], Hs as [? _]. }
  repeat constructor; cbn; auto.
Defined.

(** The socket is busy once and then refuses. *)
Definition refused_write : write_env := {|
  we_first := example_world 0; we_waits := [];
  we_sends := [(false, None); (false, Some (Err (io_error_from ConnectionRefused)))];
  we_sent_at := 1; we_closed_after := true |}.

Definition refused_task : SendTask fifo (list QueueDropReason) bool :=
  task_start (outgoing_channel NetworkQueueSettings_default false).1 [].

Lemma udp_send_failure_at_close_is_uncounted_witness :
  ∃ h' s' c', udp_send (Ser:=bool_serializer) true refused_write {| pacer := DataPacer_new |} example_peer
      (ReadOnly bitcode_new) = (h', s', c', Ready (Returns (Err (io_error_from ConnectionRefused)))) ∧
    Peer.handle s' = Peer.handle example_peer ∧
    handle (complete true (Err (io_error_from ConnectionRefused)) refused_task) = [].
Proof.
  destruct (udp_send_failure_at_close_is_uncounted (Ser:=bool_serializer) true [1] refused_write
    {| pacer := DataPacer_new |} example_peer (ReadOnly bitcode_new) (ReadOnly bitcode_new) 1
    (Err (io_error_from ConnectionRefused)) [] (io_error_from ConnectionRefused) refused_task)
    as (h' & s' & Hs & Hh & Hhd & _); try done.
  exists h', s', (ReadOnly bitcode_new). split; [exact Hs|]. split; [exact Hh|exact Hhd].
Defined.
