(* ===== verification/Receive.v ===== *)
(** * The receive task

    Models [receive_packets] of src/src/client.rs and src/src/server.rs, which
    are the same task but for the server's last step: it reads packets, hands
    them to the ECS through a channel (streams) or the shared datagram queue,
    and ends with exactly one closing message.

    The task is a state machine; [poll] is one poll of it, given what the rest
    of the program did since the last one. *)

From S2P Require Import Prelude Protocol Lossy Externals Settings Queue Connection.

(** ** Sending to a bounded channel

    [Sender::send], polled until it completes; [waits] is what the rest of the
    program does to the channel between two polls. *)
Fixpoint mpsc_send {Ch : Type → Type} `{Mpsc Ch} {T} (c : Ch T) (x : T) (waits : list (Ch T → Ch T))
    : Ch T * Poll (result () T) :=
  match mpsc_poll_send c x with
  | (c, Ready res) => (c, Ready res)
  | (c, Pending) =>
      match waits with
      | [] => (c, Pending)
      | others :: waits => mpsc_send (others c) x waits
      end
  end.

(** [PacketReceiveEvent]. *)
Record PacketReceiveEvent (P : Type) := {
  event_connection : ConnectionId;
  event_packet : P;
  event_received_at : Z;
}.
Arguments event_connection {P}. Arguments event_packet {P}. Arguments event_received_at {P}.

(** [IncomingMessage]: what the tasks send to the ECS. [E] is the establishment
    event and [D] the closing one. *)
Inductive IncomingMessage (P E D : Type) :=
  | StreamPacket (e : PacketReceiveEvent P)
  | Established (e : E)
  | ClosedMessage (d : D).
Arguments StreamPacket {P E D} e.
Arguments Established {P E D} e.
Arguments ClosedMessage {P E D} d.

Section Receive.
Context `{Target} {Ch : Type → Type} `{Mpsc Ch} {P E D DecErr LenErr Addr store : Type}.

Abbreviation error := (ReceiveError DecErr LenErr).
Abbreviation message := (IncomingMessage P E D).

(** [Config::Protocol::DATAGRAM], the connection, its closing event, how drops
    are recorded on the connections' handles, and the address the server
    notifies its listener of ([None] for a client). *)
Variable datagram : bool.
Variable connection : ConnectionId.
Variable closed_event : error → D.
Variable on_evict : PacketReceiveEvent P → store → store.
Variable record_full : store → store.
Variable notify : option Addr.

(** Where the task is: at the [select!], waiting for room in the ECS channel,
    sending the closing message, notifying the listener, or done. *)
Inductive phase :=
  | Receiving
  | Forwarding (e : PacketReceiveEvent P)
  | Closing (e : error)
  | Notifying
  | Finished.

Record RecvTask := {
  at_ : phase;
  token : bool;
  reader_closed : bool;
  incoming : Ch message;
  datagrams : Shared (PacketReceiveEvent P);
  disconnects : Ch Addr;
  handles : store;
  sent : list message;
  received : list (PacketReceiveEvent P);
  forwarded : list (PacketReceiveEvent P);
}.

(** What a poll sees: whether the connection is cancelled, the error the writer
    has left in the one-shot channel when the [select!] looks and when the loop
    has ended (its sender is dropped unused only after the connection is
    cancelled, since the task itself holds a sender of the outgoing queue), the
    packets (or the failure) the reader completes if the poll gets to it, and
    the others' changes to the shared queues. *)
Record recv_poll := {
  rv_cancelled : bool;
  rv_send_error : option io_error;
  rv_late_error : option io_error;
  rv_reads : list (result (P * Z) error);
  rv_incoming : Ch message → Ch message;
  rv_datagrams : Shared (PacketReceiveEvent P) → Shared (PacketReceiveEvent P);
  rv_disconnects : Ch Addr → Ch Addr;
  rv_handles : store → store;
}.

(** The same poll with the reader completing [reads]. *)
Definition with_reads (reads : list (result (P * Z) error)) (p : recv_poll) : recv_poll :=
  {| rv_cancelled := rv_cancelled p; rv_send_error := rv_send_error p;
     rv_late_error := rv_late_error p; rv_reads := reads; rv_incoming := rv_incoming p;
     rv_datagrams := rv_datagrams p; rv_disconnects := rv_disconnects p; rv_handles := rv_handles p |}.

Definition goto (p : phase) (t : RecvTask) : RecvTask :=
  {| at_ := p; token := token t; reader_closed := reader_closed t; incoming := incoming t;
     datagrams := datagrams t; disconnects := disconnects t; handles := handles t;
     sent := sent t; received := received t; forwarded := forwarded t |}.

(** A message that went into the ECS channel. *)
Definition with_incoming (c : Ch message) (m : option message) (t : RecvTask) : RecvTask :=
  {| at_ := at_ t; token := token t; reader_closed := reader_closed t; incoming := c;
     datagrams := datagrams t; disconnects := disconnects t; handles := handles t;
     sent := sent t ++ option_list m; received := received t; forwarded := forwarded t |}.

Definition with_received (e : PacketReceiveEvent P) (t : RecvTask) : RecvTask :=
  {| at_ := at_ t; token := token t; reader_closed := reader_closed t; incoming := incoming t;
     datagrams := datagrams t; disconnects := disconnects t; handles := handles t;
     sent := sent t; received := received t ++ [e]; forwarded := forwarded t |}.

Definition with_forward (q : Shared (PacketReceiveEvent P)) (h : store)
    (e : option (PacketReceiveEvent P)) (t : RecvTask) : RecvTask :=
  {| at_ := at_ t; token := token t; reader_closed := reader_closed t; incoming := incoming t;
     datagrams := q; disconnects := disconnects t; handles := h;
     sent := sent t; received := received t; forwarded := forwarded t ++ option_list e |}.

(** After the loop: the error of a failed writer takes precedence, the
    connection is cancelled and the reader closed. *)
Definition break_with (late_error : option io_error) (e : error) (t : RecvTask) : RecvTask :=
  {| at_ := Closing match late_error with Some err => Io err | None => e end;
     token := true; reader_closed := true; incoming := incoming t; datagrams := datagrams t;
     disconnects := disconnects t; handles := handles t; sent := sent t; received := received t;
     forwarded := forwarded t |}.

(** [incoming.send(StreamPacket(event))] polled inside its biased [select!]:
    [None] while it waits, else whether it was forwarded. *)
Definition poll_stream_send (cancelled : bool) (e : PacketReceiveEvent P) (t : RecvTask)
    : RecvTask * option bool :=
  if cancelled then (t, Some false)
  else match mpsc_poll_send (incoming t) (StreamPacket e) with
       | (c, Pending) => (with_incoming c None t, None)
       | (c, Ready (Ok _)) =>
           (with_forward (datagrams t) (handles t) (Some e)
              (with_incoming c (Some (StreamPacket e)) t), Some true)
       | (c, Ready (Err _)) => (with_incoming c None t, Some false)
       end.

(** Handing one packet over; datagrams never wait. *)
Definition hand_over (cancelled : bool) (e : PacketReceiveEvent P) (t : RecvTask)
    : RecvTask * option bool :=
  if datagram then
    match forward on_evict record_full true (datagrams t) cancelled e (handles t) [] with
    | (q, h, Ready ok) => (with_forward q h (if ok then Some e else None) t, Some ok)
    | (q, h, Pending) => (with_forward q h None t, None)
    end
  else poll_stream_send cancelled e t.

(** The loop at its [select!], over the reads the poll completes. Taking the
    writer's error leaves the one-shot channel empty. *)
Fixpoint receive_loop (cancelled : bool) (send_error late_error : option io_error)
    (reads : list (result (P * Z) error)) (t : RecvTask) : RecvTask :=
  match send_error with
  | Some err => break_with None (Io err) t
  | None =>
      if cancelled then break_with late_error IntentionalDisconnection t
      else match reads with
      | [] => goto Receiving t
      | Err e :: _ => break_with late_error e t
      | Ok (packet, received_at) :: reads =>
          let e := {| event_connection := connection; event_packet := packet;
                      event_received_at := received_at |} in
          match hand_over cancelled e (with_received e t) with
          | (t, None) => goto (Forwarding e) t
          | (t, Some true) => receive_loop cancelled send_error late_error reads t
          | (t, Some false) => break_with late_error IntentionalDisconnection t
          end
      end
  end.

(** [disconnect_sender.send(peer_addr)]: the server's last step. *)
Definition poll_notifying (t : RecvTask) : RecvTask :=
  match notify with
  | None => goto Finished t
  | Some addr =>
      match mpsc_poll_send (disconnects t) addr with
      | (c, res) =>
          {| at_ := match res with Pending => Notifying | Ready _ => Finished end;
             token := token t; reader_closed := reader_closed t; incoming := incoming t;
             datagrams := datagrams t; disconnects := c; handles := handles t;
             sent := sent t; received := received t; forwarded := forwarded t |}
      end
  end.

(** [incoming.send(Closed(..))]. *)
Definition poll_closing (e : error) (t : RecvTask) : RecvTask :=
  match mpsc_poll_send (incoming t) (ClosedMessage (closed_event e)) with
  | (c, Pending) => with_incoming c None t
  | (c, Ready (Ok _)) => poll_notifying (with_incoming c (Some (ClosedMessage (closed_event e))) t)
  | (c, Ready (Err _)) => poll_notifying (with_incoming c None t)
  end.

(** Past the loop, the closing message is sent in the same poll. *)
Definition settle (t : RecvTask) : RecvTask :=
  match at_ t with Closing e => poll_closing e t | _ => t end.

Definition observe_others (p : recv_poll) (t : RecvTask) : RecvTask :=
  {| at_ := at_ t; token := token t || rv_cancelled p; reader_closed := reader_closed t;
     incoming := rv_incoming p (incoming t); datagrams := rv_datagrams p (datagrams t);
     disconnects := rv_disconnects p (disconnects t); handles := rv_handles p (handles t);
     sent := sent t; received := received t; forwarded := forwarded t |}.

Definition poll (p : recv_poll) (t : RecvTask) : RecvTask :=
  let t := observe_others p t in
  match at_ t with
  | Receiving => settle (receive_loop (token t) (rv_send_error p) (rv_late_error p) (rv_reads p) t)
  | Forwarding e =>
      match poll_stream_send (token t) e t with
      | (t, None) => t
      | (t, Some true) => settle (receive_loop (token t) (rv_send_error p) (rv_late_error p) (rv_reads p) t)
      | (t, Some false) => settle (break_with (rv_late_error p) IntentionalDisconnection t)
      end
  | Closing e => poll_closing e t
  | Notifying => poll_notifying t
  | Finished => t
  end.

Definition receive_packets (polls : list recv_poll) (c : Ch message)
    (q : Shared (PacketReceiveEvent P)) (dis : Ch Addr) (h : store) : RecvTask :=
  foldl (λ t p, poll p t)
    {| at_ := Receiving; token := false; reader_closed := false; incoming := c; datagrams := q;
       disconnects := dis; handles := h; sent := []; received := []; forwarded := [] |} polls.
End Receive.
Arguments phase P DecErr LenErr : clear implicits.
Arguments RecvTask Ch P E D DecErr LenErr Addr store : clear implicits.
Arguments recv_poll Ch P E D DecErr LenErr Addr store : clear implicits.

(** ** Properties *)

Section Properties.
Context `{Target} {Ch : Type → Type} `{MpscLaws Ch} {P E D DecErr LenErr Addr store : Type}.
Variable datagram : bool.
Variable connection : ConnectionId.
Variable closed_event : ReceiveError DecErr LenErr → D.
Variable on_evict : PacketReceiveEvent P → store → store.
Variable record_full : store → store.
Variable notify : option Addr.

Abbreviation task := (RecvTask Ch P E D DecErr LenErr Addr store).
Abbreviation poll_with := (recv_poll Ch P E D DecErr LenErr Addr store).
Abbreviation do_poll := (poll datagram connection closed_event on_evict record_full notify).
Abbreviation run_task := (receive_packets datagram connection closed_event on_evict record_full notify).
Implicit Types (t : task) (p : poll_with).

(** The packets the task has put into the ECS channel. *)
Definition streams t : list (IncomingMessage P E D) :=
  if datagram then [] else StreamPacket <$> forwarded t.

Definition ended t : bool :=
  match at_ t with Notifying | Finished => true | _ => false end.

(** The packets handed over are the packets received, in order, up to the one
    being handed over or given up. *)
Definition order_ok t : Prop :=
  match at_ t with
  | Receiving => received t = forwarded t
  | Forwarding e => received t = forwarded t ++ [e] ∧ datagram = false
  | _ => received t = forwarded t ∨ ∃ e, received t = forwarded t ++ [e]
  end.

Definition sent_ok t : Prop :=
  if ended t
  then (∃ e, sent t = streams t ++ [ClosedMessage (closed_event e)]) ∨
       (sent t = streams t ∧ mpsc_is_closed (incoming t) = true)
  else sent t = streams t.

Definition flags_ok t : Prop :=
  match at_ t with
  | Receiving | Forwarding _ => reader_closed t = false
  | _ => token t = true ∧ reader_closed t = true
  end.

(** Every packet received is attributed to the connection. *)
Definition ids t : Prop := Forall (λ e, event_connection e = connection) (received t).

Record task_ok t : Prop := {
  ok_ids : ids t;
  ok_order : order_ok t;
  ok_sent : sent_ok t;
  ok_flags : flags_ok t;
}.

(** The rest of the program may fill, drain and close the ECS channel, not
    reopen it. *)
Definition no_reopen p : Prop :=
  ∀ c, mpsc_is_closed c = true → mpsc_is_closed (rv_incoming p c) = true.

Ltac ok := split; unfold ids, order_ok, sent_ok, flags_ok, ended, streams in *; cbn in *.

Lemma observe_ok p t : no_reopen p → task_ok t → task_ok (observe_others p t).
Proof.
  intros Hp [Hi Ho Hs Hf]. ok; try done; destruct (at_ t); try done.
  all: try (by destruct Hf as [-> ->]).
  all: destruct Hs as [Hs|Hs]; [by left | right; destruct Hs; auto].
Qed.

(** In a task whose packets are all accounted for, one more is being handed
    over. *)
Definition handing e t : Prop :=
  received t = forwarded t ++ [e] ∧ sent t = streams t ∧ reader_closed t = false ∧ ids t.

Definition level t : Prop :=
  received t = forwarded t ∧ sent t = streams t ∧ reader_closed t = false ∧ ids t.

Lemma poll_stream_send_ok c e t : datagram = false → handing e t →
  match poll_stream_send c e t with
  | (t', None) => handing e t'
  | (t', Some true) => level t'
  | (t', Some false) => handing e t'
  end.
Proof.
  intros Hd (Hr & Hs & Hc & Hi). unfold poll_stream_send, handing, level, ids, streams in *. rewrite Hd in *.
  destruct c; [done|].
  destruct (mpsc_poll_send (incoming t) (StreamPacket e)) as [ch [[u|m]|]]; cbn;
    rewrite ?app_nil_r; try done.
  split_and!; try done. by rewrite Hs, fmap_app.
Qed.

Lemma hand_over_ok c e t : handing e t →
  match hand_over datagram on_evict record_full c e t with
  | (t', None) => datagram = false ∧ handing e t'
  | (t', Some true) => level t'
  | (t', Some false) => handing e t'
  end.
Proof.
  intros He. unfold hand_over. destruct datagram eqn:Hd.
  - destruct He as (Hr & Hs & Hc & Hi). unfold handing, level, ids, streams in *. rewrite Hd in *. unfold forward.
    destruct (try_send (datagrams t) e 1) as [[q sg] [ev|[x|x]]]; cbn; rewrite ?app_nil_r; done.
  - pose proof (poll_stream_send_ok c e t Hd He) as Hp.
    destruct (poll_stream_send c e t) as [t' [[]|]]; auto.
Qed.

Lemma break_ok l err t :
  (received t = forwarded t ∨ ∃ e, received t = forwarded t ++ [e]) → sent t = streams t → ids t →
  task_ok (break_with l err t).
Proof. by intros Ho Hs Hi; ok. Qed.

Lemma receive_loop_ok c se le reads t :
  level t →
  task_ok (receive_loop datagram connection on_evict record_full c se le reads t).
Proof.
  revert t. induction reads as [|[[pk at0]|err] reads IH]; intros t (Hr & Hs & Hc & Hi); cbn;
    (destruct se; [apply break_ok; auto|]); (destruct c; [apply break_ok; auto|]).
  - by ok.
  - set (e := Build_PacketReceiveEvent _ _ _ _).
    assert (Hh : handing e (with_received e t)).
    { unfold handing, ids in *. cbn. rewrite Hr in *. split_and!; try done.
      apply Forall_app. split; [done|by constructor]. }
    apply (hand_over_ok false) in Hh.
    destruct (hand_over _ _ _ _ _ _) as [t' [[]|]].
    + by apply IH.
    + apply break_ok; [right; eexists| |]; apply Hh.
    + destruct Hh as (Hd & Hh & Hh' & Hh'' & Hi'). by ok; rewrite Hd in *.
  - apply break_ok; auto.
Qed.

(** Everything the closing message leaves to do is the notification. *)
Record closing_done t : Prop := {
  cd_ids : ids t;
  cd_order : received t = forwarded t ∨ ∃ e, received t = forwarded t ++ [e];
  cd_sent : (∃ e, sent t = streams t ++ [ClosedMessage (closed_event e)]) ∨
            (sent t = streams t ∧ mpsc_is_closed (incoming t) = true);
  cd_flags : token t = true ∧ reader_closed t = true;
}.

Lemma ended_closing_done t : ended t = true → task_ok t → closing_done t.
Proof.
  unfold ended. intros He [Hi Ho Hs Hf]. unfold order_ok, sent_ok, flags_ok, ended in *.
  by destruct (at_ t).
Qed.

Lemma poll_notifying_ok t : closing_done t →
  task_ok (poll_notifying notify t) ∧ ended (poll_notifying notify t) = true.
Proof.
  intros [Hi Ho Hs Hf]. unfold poll_notifying. destruct notify as [a|]; [|by split; [ok|]].
  by destruct (mpsc_poll_send (disconnects t) a) as [c []]; split; [ok| |ok|].
Qed.

Lemma poll_closing_ok e t : at_ t = Closing e → task_ok t →
  task_ok (poll_closing closed_event notify e t).
Proof.
  intros Ha [Hi Ho Hs Hf]. unfold order_ok, sent_ok, flags_ok, ended in *. rewrite Ha in *.
  unfold poll_closing.
  destruct (mpsc_poll_send (incoming t) (ClosedMessage (closed_event e))) as [c r] eqn:Hp.
  apply mpsc_poll_send_view in Hp as (Hc & _ & _ & Hv).
  destruct r as [[[]|m]|].
  - apply poll_notifying_ok. split; cbn; [done|done| |done].
    left. exists e. by rewrite Hs.
  - apply poll_notifying_ok. split; cbn; [done|done| |done].
    right. rewrite app_nil_r, Hc. split; [done|].
    destruct (mpsc_is_closed (incoming t)); [done|].
    by destruct (_ <=? _), Hv.
  - ok; rewrite ?Ha, ?app_nil_r; done.
Qed.

Lemma settle_ok t : task_ok t → task_ok (settle closed_event notify t).
Proof.
  intros Hok. unfold settle. destruct (at_ t) eqn:Ha; try done. by apply poll_closing_ok.
Qed.

Lemma poll_ok p t : no_reopen p → task_ok t → task_ok (do_poll p t).
Proof.
  intros Hp Hok. apply (observe_ok p) in Hok; [|done]. unfold poll.
  set (t1 := observe_others p t) in *. clearbody t1.
  pose proof Hok as [Hi Ho Hs Hf]. unfold order_ok, sent_ok, flags_ok in Ho, Hs, Hf.
  unfold ended in Hs. destruct (at_ t1) eqn:Ha.
  - by apply settle_ok, receive_loop_ok; split_and!.
  - destruct Ho as [Ho Hd].
    pose proof (poll_stream_send_ok (token t1) e t1 Hd
      (conj Ho (conj Hs (conj Hf Hi)))) as Hh.
    assert (Hat : at_ (poll_stream_send (token t1) e t1).1 = Forwarding e).
    { unfold poll_stream_send. destruct (token t1); [done|].
      by destruct (mpsc_poll_send _ _) as [? [[]|]]. }
    destruct (poll_stream_send _ _ _) as [t2 [[]|]]; cbn in Hat.
    + by apply settle_ok, receive_loop_ok.
    + apply settle_ok, break_ok; [right; eexists| |]; apply Hh.
    + destruct Hh as (Hr & Hs2 & Hc & Hi2). ok; by rewrite ?Hat.
  - by apply poll_closing_ok.
  - apply poll_notifying_ok, ended_closing_done; [unfold ended; by rewrite Ha | done].
  - done.
Qed.

Lemma receive_packets_ok (polls : list poll_with) c q dis h :
  Forall no_reopen polls → task_ok (run_task polls c q dis h).
Proof.
  intros Hall. unfold receive_packets.
  match goal with |- context [foldl _ ?t0 polls] => assert (Hok : task_ok t0);
    [ok; by destruct datagram|generalize dependent t0] end.
  induction Hall as [|p polls Hp _ IH]; intros t0 Hok; [done|]. by apply IH, poll_ok.
Qed.

(** C11. What the ECS gets from a connection's receive task, whatever the rest of
    the program does: the packets handed over, in the order the transport
    produced them, with none skipped but the last one read; and then exactly one
    closing message, which is only missing when the ECS has gone. Every packet is
    attributed to the connection. Once the
    closing message is out no packet follows it, the connection is cancelled and
    the reader closed. *)
Theorem receive_task_messages (polls : list poll_with) c q dis h :
  Forall no_reopen polls →
  let t := run_task polls c q dis h in
  let packets := if datagram then [] else StreamPacket <$> forwarded t in
  (received t = forwarded t ∨ ∃ e, received t = forwarded t ++ [e]) ∧
  Forall (λ e, event_connection e = connection) (received t) ∧
  match at_ t with
  | Receiving | Forwarding _ | Closing _ => sent t = packets
  | Notifying | Finished =>
      token t = true ∧ reader_closed t = true ∧
      ((∃ e, sent t = packets ++ [ClosedMessage (closed_event e)]) ∨
       (sent t = packets ∧ mpsc_is_closed (incoming t) = true))
  end.
Proof.
  intros Hall. destruct (receive_packets_ok polls c q dis h Hall) as [Hi Ho Hs Hf].
  unfold order_ok, sent_ok, flags_ok, ended, streams in *. cbn zeta.
  destruct (at_ _); split; try done; eauto; [right; destruct Ho; eauto|by destruct Hf..].
Qed.
(** The error a cancelled task reports. *)
Definition final_error p t : ReceiveError DecErr LenErr :=
  let cancelled_error := from_option Io IntentionalDisconnection (rv_late_error p) in
  match at_ t with
  | Receiving => from_option Io cancelled_error (rv_send_error p)
  | Closing e => e
  | _ => cancelled_error
  end.

Lemma poll_closing_outcome e t : at_ t = Closing e → token t = true → reader_closed t = true →
  let t' := poll_closing closed_event notify e t in
  token t' = true ∧ reader_closed t' = true ∧
  received t' = received t ∧ forwarded t' = forwarded t ∧
  if mpsc_is_closed (incoming t) then ended t' = true ∧ sent t' = sent t
  else if mpsc_max_capacity (incoming t) <=? zlen (mpsc_items (incoming t))
  then at_ t' = Closing e ∧ sent t' = sent t
  else ended t' = true ∧ sent t' = sent t ++ [ClosedMessage (closed_event e)].
Proof.
  intros Ha Ht Hr. unfold poll_closing.
  destruct (mpsc_poll_send (incoming t) (ClosedMessage (closed_event e))) as [c r] eqn:Hp.
  apply mpsc_poll_send_view in Hp as (_ & _ & _ & Hv).
  destruct (mpsc_is_closed (incoming t)); [|destruct (_ <=? _)]; destruct Hv as [-> _];
    unfold poll_notifying; destruct notify as [a|];
    cbn; rewrite ?app_nil_r; try (by split_and!);
    by destruct (mpsc_poll_send (disconnects t) a) as [? []].
Qed.

(** Cancelling a connection ends its receive task at the next poll, wherever
    the task is, whatever the reader still has to offer: it reads and hands over
    nothing more, closes the reader, and reports one error, the writer's if it
    has failed by then and [IntentionalDisconnection] otherwise. The message
    goes out in that poll if there is room; a full channel makes the task wait
    with the same error; a channel the ECS has closed makes it give up. *)
Theorem receive_task_cancellation p t :
  token t || rv_cancelled p = true → ended t = false →
  match at_ t with Closing _ => reader_closed t = true | _ => True end →
  let t' := do_poll p t in
  let channel := rv_incoming p (incoming t) in
  token t' = true ∧ reader_closed t' = true ∧
  received t' = received t ∧ forwarded t' = forwarded t ∧
  if mpsc_is_closed channel then ended t' = true ∧ sent t' = sent t
  else if mpsc_max_capacity channel <=? zlen (mpsc_items channel)
  then at_ t' = Closing (final_error p t) ∧ sent t' = sent t
  else ended t' = true ∧ sent t' = sent t ++ [ClosedMessage (closed_event (final_error p t))].
Proof.
  intros Hc He Hr. unfold poll, final_error. cbn [at_ token observe_others]. rewrite Hc.
  unfold ended in He. destruct (at_ t) eqn:Ha; try done.
  - assert (∀ reads t0, receive_loop datagram connection on_evict record_full true
      (rv_send_error p) (rv_late_error p) reads t0 =
      break_with None (from_option Io (from_option Io IntentionalDisconnection (rv_late_error p))
        (rv_send_error p)) t0) as ->.
    { intros reads t0. destruct reads; cbn; by destruct (rv_send_error p), (rv_late_error p). }
    unfold settle. cbn [at_ break_with].
    by refine (poll_closing_outcome _ (break_with None _ (observe_others p t)) _ _ _).
  - unfold poll_stream_send, settle. cbn [at_ break_with].
    replace (match rv_late_error p with Some err => Io err | None => IntentionalDisconnection end)
      with (from_option Io (IntentionalDisconnection (SerializationError:=DecErr)
              (LengthError:=LenErr)) (rv_late_error p)) by (by destruct (rv_late_error p)).
    set (t1 := break_with _ _ _).
    assert (at_ t1 = Closing (from_option Io IntentionalDisconnection (rv_late_error p))) as Ha1.
    { cbn. by destruct (rv_late_error p). }
    by refine (poll_closing_outcome _ t1 Ha1 _ _).
  - by refine (poll_closing_outcome _ (observe_others p t) _ _ _).
Qed.

(** ** What a poll does to the packets received and handed over *)

(** Whether the loop has not been left yet. *)
Definition reading t : bool :=
  match at_ t with Receiving | Forwarding _ => true | _ => false end.

(** [t'] follows [t], having received [new]; once out of the loop it neither
    receives nor hands over. *)
Record follows (new : list (PacketReceiveEvent P)) t t' : Prop := {
  f_received : received t' = received t ++ new;
  f_forwarded : forwarded t `prefix_of` forwarded t';
  f_reading : reading t = false → forwarded t' = forwarded t ∧ reading t' = false;
}.

Lemma follows_refl t : follows [] t t.
Proof. split; [by rewrite app_nil_r|done|done]. Qed.

Lemma follows_trans new1 new2 t1 t2 t3 :
  follows new1 t1 t2 → follows new2 t2 t3 → follows (new1 ++ new2) t1 t3.
Proof.
  intros [Hr1 Hf1 Hn1] [Hr2 Hf2 Hn2]. split.
  - by rewrite Hr2, Hr1, app_assoc.
  - by etrans.
  - intros Hn. destruct (Hn1 Hn) as [Hf Hn']. destruct (Hn2 Hn') as [-> ?]. by split.
Qed.

Ltac follow :=
  split; cbn; rewrite ?app_nil_r;
  [done | first [done | by apply prefix_app_r] | unfold reading in *; cbn in *; first [done | congruence]].

Lemma poll_stream_send_follows c e t : reading t = true →
  let '(t', o) := poll_stream_send c e t in
  follows [] t t' ∧ at_ t' = at_ t.
Proof.
  intros Hr. unfold poll_stream_send. destruct c; [by split; [apply follows_refl|]|].
  destruct (mpsc_poll_send _ _) as [ch [[u|m]|]]; (split; [follow|done]).
Qed.
Lemma hand_over_follows c e t : reading t = true →
  let '(t', o) := hand_over datagram on_evict record_full c e t in
  follows [] t t' ∧ at_ t' = at_ t.
Proof.
  intros Hr. unfold hand_over. destruct datagram; [|by apply poll_stream_send_follows].
  destruct (forward _ _ _ _ _ _ _ _) as [[q h] [[]|]]; (split; [follow|done]).
Qed.

Definition event_of (r : P * Z) : PacketReceiveEvent P :=
  {| event_connection := connection; event_packet := r.1; event_received_at := r.2 |}.

Definition read_events (reads : list (result (P * Z) (ReceiveError DecErr LenErr))) :=
  omap (λ r, event_of <$> result_ok r) reads.

Lemma break_with_follows late e t : reading t = true → follows [] t (break_with late e t).
Proof. intros Hr. follow. Qed.

(** The loop takes a prefix of what the reader completes, at least the first
    packet when it gets to the reader, and leaves on a failure. *)
Definition takes c (se : option io_error) reads t (t' : task) : Prop :=
  ∃ new, follows new t t' ∧ new `prefix_of` read_events reads ∧
    (c = false → se = None →
     match reads with
     | Ok _ :: _ => new ≠ []
     | Err _ :: _ => reading t' = false
     | [] => True
     end).

Lemma receive_loop_follows c se late reads t : reading t = true →
  takes c se reads t (receive_loop datagram connection on_evict record_full c se late reads t).
Proof.
  revert t. induction reads as [|[[pk a]|e] reads IH]; intros t Hr; cbn [receive_loop];
    (destruct se as [err|]; [exists []; split_and!; [by apply break_with_follows|apply prefix_nil|done]|]);
    (destruct c; [exists []; split_and!; [by apply break_with_follows|apply prefix_nil|done]|]).
  - exists []. split_and!; [|done|done]. follow.
  - set (e := Build_PacketReceiveEvent _ _ _ _).
    assert (Hw : follows [e] t (with_received e t)) by (split; cbn; [done|done|by rewrite Hr]).
    pose proof (hand_over_follows false e (with_received e t) Hr) as Hh.
    destruct (hand_over _ _ _ _ _ _) as [t1 o]. destruct Hh as [Hh Ha].
    assert (Hr1 : reading t1 = true) by (unfold reading in *; by rewrite Ha).
    assert (Hf1 : follows [e] t t1) by exact (follows_trans [e] [] _ _ _ Hw Hh).
    destruct o as [[]|].
    + destruct (IH t1 Hr1) as (new & Hn & Hp & _). exists (e :: new). split_and!.
      * exact (follows_trans [e] new _ _ _ Hf1 Hn).
      * by apply prefix_cons.
      * done.
    + exists [e]. split_and!; [|by apply prefix_cons, prefix_nil|done].
      exact (follows_trans [e] [] _ _ _ Hf1 (break_with_follows _ _ t1 Hr1)).
    + exists [e]. split_and!; [|by apply prefix_cons, prefix_nil|done].
      refine (follows_trans [e] [] _ _ _ Hf1 _). follow.
  - exists []. split_and!; [by apply break_with_follows|apply prefix_nil|done].
Qed.

(** Everything after the loop. *)
Lemma poll_notifying_follows t :
  follows [] t (poll_notifying notify t) ∧ reading (poll_notifying notify t) = false.
Proof.
  unfold poll_notifying. destruct notify as [a|]; [|by split; [follow|]].
  by destruct (mpsc_poll_send _ a) as [? []]; split; [follow| |follow|].
Qed.

Lemma poll_closing_follows e t : reading t = false → follows [] t (poll_closing closed_event notify e t).
Proof.
  intros Hr. unfold poll_closing. destruct (mpsc_poll_send _ _) as [ch [[u|m]|]].
  3: by follow.
  all: match goal with |- follows [] _ (poll_notifying _ ?t1) =>
    apply (follows_trans [] [] t t1); [follow|apply poll_notifying_follows] end.
Qed.

Lemma settle_follows t : follows [] t (settle closed_event notify t).
Proof.
  unfold settle. destruct (at_ t) eqn:Ha; try apply follows_refl.
  apply poll_closing_follows. unfold reading. by rewrite Ha.
Qed.

Lemma follows_not_reading new t t' : follows new t t' → reading t = false → reading t' = false.
Proof. intros Hf Hr. by apply Hf. Qed.

Lemma takes_settle c se reads t t' : takes c se reads t t' → takes c se reads t (settle closed_event notify t').
Proof.
  intros (new & Hf & Hp & Hn). exists new. split_and!; [|done|].
  - rewrite <- (app_nil_r new). exact (follows_trans _ _ _ _ _ Hf (settle_follows t')).
  - intros Hc Hs. specialize (Hn Hc Hs). destruct reads as [|[r|e] reads]; try done.
    eapply follows_not_reading; [apply settle_follows|done].
Qed.

(** One poll. *)
Lemma poll_follows p t :
  ∃ new, follows new t (do_poll p t) ∧ new `prefix_of` read_events (rv_reads p) ∧
    (at_ t = Receiving → token t || rv_cancelled p = false → rv_send_error p = None →
     match rv_reads p with
     | Ok _ :: _ => new ≠ []
     | Err _ :: _ => reading (do_poll p t) = false
     | [] => True
     end).
Proof.
  assert (Ho : follows [] t (observe_others p t)) by (by split; cbn; rewrite ?app_nil_r).
  unfold poll. set (t1 := observe_others p t) in *.
  assert (Ha1 : at_ t1 = at_ t) by done. assert (Hk : token t1 = token t || rv_cancelled p) by done.
  assert (Hpre : ∀ new t', follows new t1 t' → follows new t t').
  { intros new t'. exact (follows_trans [] new _ _ _ Ho). }
  clearbody t1. rewrite <- Ha1, <- Hk. clear Ha1 Hk Ho.
  destruct (at_ t1) eqn:Ha.
  - assert (Hr : reading t1 = true) by (unfold reading; by rewrite Ha).
    destruct (takes_settle _ _ _ _ _ (receive_loop_follows (token t1) (rv_send_error p)
      (rv_late_error p) (rv_reads p) t1 Hr)) as (new & Hf & Hp & Hn). exists new. auto.
  - assert (Hr : reading t1 = true) by (unfold reading; by rewrite Ha).
    pose proof (poll_stream_send_follows (token t1) e t1 Hr) as Hh.
    destruct (poll_stream_send _ _ _) as [t2 o]. destruct Hh as [Hh Ha2].
    assert (Hr2 : reading t2 = true) by (unfold reading in *; by rewrite Ha2).
    destruct o as [[]|].
    + destruct (takes_settle _ _ _ _ _ (receive_loop_follows (token t2) (rv_send_error p)
        (rv_late_error p) (rv_reads p) t2 Hr2)) as (new & Hf & Hp & _). exists new.
      split_and!; [|done|done]. apply Hpre. exact (follows_trans [] new _ _ _ Hh Hf).
    + exists []. split_and!; [|apply prefix_nil|done]. apply Hpre.
      refine (follows_trans [] [] _ _ _ Hh _).
      exact (follows_trans [] [] _ _ _ (break_with_follows _ _ t2 Hr2) (settle_follows _)).
    + exists []. split_and!; [by apply Hpre|apply prefix_nil|done].
  - exists []. split_and!; [|apply prefix_nil|done]. apply Hpre, poll_closing_follows.
    unfold reading. by rewrite Ha.
  - exists []. split_and!; [|apply prefix_nil|done]. apply Hpre, poll_notifying_follows.
  - exists []. split_and!; [|apply prefix_nil|done]. apply Hpre, follows_refl.
Qed.

(** ** What a poll puts into the ECS channel *)

(** From [t] to [t'] the channel got what the task sent, at its end, and nothing
    else changed in it. *)
Definition extends t t' : Prop :=
  ∃ new, sent t' = sent t ++ new ∧
    mpsc_items (incoming t') = mpsc_items (incoming t) ++ new ∧
    mpsc_is_closed (incoming t') = mpsc_is_closed (incoming t) ∧
    mpsc_max_capacity (incoming t') = mpsc_max_capacity (incoming t).

#[export] Instance extends_preorder : PreOrder extends.
Proof.
  split.
  - intros t. exists []. by rewrite !app_nil_r.
  - intros t1 t2 t3 (new1 & Hs1 & Hi1 & Hc1 & Hm1) (new2 & Hs2 & Hi2 & Hc2 & Hm2).
    exists (new1 ++ new2). by rewrite Hs2, Hi2, Hc2, Hm2, Hs1, Hi1, !app_assoc.
Qed.

(** Steps that leave the channel and the log alone. *)
Lemma extends_same t t' : sent t' = sent t → incoming t' = incoming t → extends t t'.
Proof. intros Hs Hi. exists []. by rewrite Hs, Hi, !app_nil_r. Qed.

Lemma poll_send_extends m t c r : mpsc_poll_send (incoming t) m = (c, r) →
  extends t (with_incoming c (match r with Ready (Ok _) => Some m | _ => None end) t).
Proof.
  intros Hs. apply mpsc_poll_send_view in Hs as (Hc & Hm & _ & Hv).
  exists (option_list (match r with Ready (Ok _) => Some m | _ => None end)). split_and!; try done. cbn.
  destruct (mpsc_is_closed (incoming t)); [|destruct (_ <=? _)]; destruct Hv as [-> ->]; cbn; by rewrite ?app_nil_r.
Qed.

Lemma poll_stream_send_extends c e t : extends t (poll_stream_send c e t).1.
Proof.
  unfold poll_stream_send. destruct c; [done|].
  destruct (mpsc_poll_send _ _) as [ch r] eqn:Hs. apply poll_send_extends in Hs.
  destruct r as [[u|m]|]; [|exact Hs..]. etrans; [exact Hs|by apply extends_same].
Qed.

Lemma hand_over_extends c e t : extends t (hand_over datagram on_evict record_full c e t).1.
Proof.
  unfold hand_over. destruct datagram; [|apply poll_stream_send_extends].
  destruct (forward _ _ _ _ _ _ _ _) as [[q h] [ok|]]; by apply extends_same.
Qed.

Lemma receive_loop_extends c se late reads t :
  extends t (receive_loop datagram connection on_evict record_full c se late reads t).
Proof.
  revert t. induction reads as [|[[pk a]|e] reads IH]; intros t; cbn [receive_loop];
    destruct se; try (by apply extends_same); destruct c; try (by apply extends_same).
  set (e := Build_PacketReceiveEvent _ _ _ _).
  pose proof (hand_over_extends false e (with_received e t)) as Hh.
  destruct (hand_over _ _ _ _ _ _) as [t1 [[]|]]; (etrans; [exact Hh|]);
    [apply IH|by apply extends_same..].
Qed.

Lemma poll_notifying_extends t : extends t (poll_notifying notify t).
Proof.
  unfold poll_notifying. destruct notify as [a|]; [|by apply extends_same].
  destruct (mpsc_poll_send _ _). by apply extends_same.
Qed.

Lemma poll_closing_extends e t : extends t (poll_closing closed_event notify e t).
Proof.
  unfold poll_closing. destruct (mpsc_poll_send _ _) as [ch r] eqn:Hs. apply poll_send_extends in Hs.
  destruct r as [[u|m]|]; [| |exact Hs]; (etrans; [exact Hs|apply poll_notifying_extends]).
Qed.

Lemma settle_extends t : extends t (settle closed_event notify t).
Proof. unfold settle. destruct (at_ t); try done. apply poll_closing_extends. Qed.

(** A poll between whose steps nobody else uses the channel. *)
Lemma poll_extends p t : (∀ c, rv_incoming p c = c) → extends t (do_poll p t).
Proof.
  intros Hp. assert (Ho : extends t (observe_others p t)) by (apply extends_same; [done|apply Hp]).
  unfold poll. etrans; [exact Ho|]. generalize (observe_others p t) as t1. intros t1.
  destruct (at_ t1); [| |apply poll_closing_extends|apply poll_notifying_extends|done].
  - etrans; [apply receive_loop_extends|apply settle_extends].
  - pose proof (poll_stream_send_extends (token t1) e t1) as Hh.
    destruct (poll_stream_send _ _ _) as [t2 [[]|]]; [| |exact Hh]; (etrans; [exact Hh|]).
    + etrans; [apply receive_loop_extends|apply settle_extends].
    + etrans; [|apply settle_extends]. by apply extends_same.
Qed.

(** ** What a poll puts into the datagram queue *)

(** From [t] to [t'] packets were handed over; what waits in the datagram queue
    is some of what waited before and some of those, in that order. *)
Definition feeds t t' : Prop :=
  wf (datagrams t) → wf (datagrams t') ∧
  ∃ new, forwarded t' = forwarded t ++ new ∧
    (items (state (datagrams t'))).*1 `sublist_of` (items (state (datagrams t))).*1 ++ new.

#[export] Instance feeds_preorder : PreOrder feeds.
Proof.
  split.
  - intros t Hwf. split; [done|]. exists []. by rewrite !app_nil_r.
  - intros t1 t2 t3 H12 H23 Hwf. destruct (H12 Hwf) as (Hwf2 & new1 & Hf1 & Hq1).
    destruct (H23 Hwf2) as (Hwf3 & new2 & Hf2 & Hq2). split; [done|].
    exists (new1 ++ new2). rewrite Hf2, Hf1, !app_assoc. split; [done|].
    etrans; [exact Hq2|]. by apply sublist_app.
Qed.

Lemma feeds_same t t' : datagrams t' = datagrams t → forwarded t `prefix_of` forwarded t' → feeds t t'.
Proof.
  intros Hq [new Hf] Hwf. rewrite Hq. split; [done|]. exists new. split; [done|].
  by apply sublist_inserts_r.
Qed.

Lemma poll_stream_send_feeds c e t : feeds t (poll_stream_send c e t).1.
Proof.
  unfold poll_stream_send. destruct c; [done|].
  destruct (mpsc_poll_send _ _) as [ch [[u|m]|]]; (apply feeds_same; [done|]; cbn); [by apply prefix_app_r|done..].
Qed.

Lemma hand_over_feeds c e t : feeds t (hand_over datagram on_evict record_full c e t).1.
Proof.
  unfold hand_over. destruct datagram; [|apply poll_stream_send_feeds]. intros Hwf. unfold forward.
  pose proof (try_send_items (datagrams t) e 1 Hwf) as Hs. pose proof usize_max_pos.
  destruct (try_send (datagrams t) e 1) as [[q sg] [ev|[x|x]]]; cbn; destruct Hs as [Hwf' Hi]; try lia;
    (split; [done|]).
  - by exists [e].
  - exists [e]. subst q. split; [done|]. by apply sublist_inserts_r.
  - exists []. subst q. by rewrite !app_nil_r.
Qed.

Lemma receive_loop_feeds c se late reads t :
  feeds t (receive_loop datagram connection on_evict record_full c se late reads t).
Proof.
  revert t. induction reads as [|[[pk a]|e] reads IH]; intros t; cbn [receive_loop];
    destruct se; try (by apply feeds_same); destruct c; try (by apply feeds_same).
  set (e := Build_PacketReceiveEvent _ _ _ _).
  pose proof (hand_over_feeds false e (with_received e t)) as Hh.
  assert (Hw : feeds t (with_received e t)) by by apply feeds_same.
  destruct (hand_over _ _ _ _ _ _) as [t1 [[]|]]; (etrans; [exact Hw|]; etrans; [exact Hh|]);
    [apply IH|by apply feeds_same..].
Qed.

Lemma poll_notifying_feeds t : feeds t (poll_notifying notify t).
Proof.
  unfold poll_notifying. destruct notify as [a|]; [|by apply feeds_same].
  destruct (mpsc_poll_send _ _). by apply feeds_same.
Qed.

Lemma poll_closing_feeds e t : feeds t (poll_closing closed_event notify e t).
Proof.
  unfold poll_closing. destruct (mpsc_poll_send _ _) as [ch [[u|m]|]]; [| |by apply feeds_same];
    (etrans; [|apply poll_notifying_feeds]; by apply feeds_same).
Qed.

Lemma settle_feeds t : feeds t (settle closed_event notify t).
Proof. unfold settle. destruct (at_ t); try done. apply poll_closing_feeds. Qed.

Lemma poll_feeds p t : (∀ q, rv_datagrams p q = q) → feeds t (do_poll p t).
Proof.
  intros Hp. assert (Ho : feeds t (observe_others p t)) by (apply feeds_same; [apply Hp|done]).
  unfold poll. etrans; [exact Ho|]. generalize (observe_others p t) as t1. intros t1.
  destruct (at_ t1); [| |apply poll_closing_feeds|apply poll_notifying_feeds|done].
  - etrans; [apply receive_loop_feeds|apply settle_feeds].
  - pose proof (poll_stream_send_feeds (token t1) e t1) as Hh.
    destruct (poll_stream_send _ _ _) as [t2 [[]|]]; [| |exact Hh]; (etrans; [exact Hh|]).
    + etrans; [apply receive_loop_feeds|apply settle_feeds].
    + etrans; [|apply settle_feeds]. by apply feeds_same.
Qed.

(** The messages are all about the connection: its packets, then its closure. *)
Lemma sent_shape t : task_ok t →
  ∃ closing, sent t = streams t ++ closing ∧
    (closing = [] ∨ ∃ e, closing = [ClosedMessage (closed_event e)] ∧ ended t = true).
Proof.
  intros [_ _ Hs _]. unfold sent_ok in Hs. destruct (ended t) eqn:He.
  - destruct Hs as [[e Hs]|[Hs _]]; [|exists []; rewrite app_nil_r; auto].
    exists [ClosedMessage (closed_event e)]. eauto.
  - exists []. rewrite app_nil_r. auto.
Qed.

Lemma forwarded_ids t : task_ok t → Forall (λ e, event_connection e = connection) (forwarded t).
Proof.
  intros [Hi Ho _ _]. unfold ids in Hi.
  assert (forwarded t `prefix_of` received t) as [more Hr].
  { unfold order_ok in Ho. destruct (at_ t); [by rewrite Ho|destruct Ho as [-> _]; by apply prefix_app_r|..];
      (destruct Ho as [->|[e' ->]]; [done|by apply prefix_app_r]). }
  rewrite Hr, Forall_app in Hi. apply Hi.
Qed.
End Properties.

(** ** A concrete task

    A stream client with room for two messages: it hands over two packets, waits
    with the third, and is cancelled by its failed writer. *)

Abbreviation example_task :=
  (RecvTask fifo Z () (ReceiveError () ()) () () nat (list QueueDropReason)).

Definition example_poll (cancelled : bool) (late : option io_error) (packets : list Z)
    (drain : bool) : recv_poll fifo Z () (ReceiveError () ()) () () nat (list QueueDropReason) := {|
  rv_cancelled := cancelled; rv_send_error := None; rv_late_error := late;
  rv_reads := (λ x, Ok (x, 0)) <$> packets;
  rv_incoming c := if drain then fifo_with c [] else c;
  rv_datagrams q := q; rv_disconnects c := c; rv_handles h := h |}.

Definition example_polls :=
  [example_poll false None [1; 2; 3; 4] false;
   example_poll true (Some (io_error_from BrokenPipe)) [4] true].

Definition example_receive (polls : list _) : example_task :=
  receive_packets (Addr:=nat) false {| connection_number := 3 |} (λ e, e) (λ _ h, h) (λ h, h) None
    polls (mpsc_channel 2) (lossy_channel 2 usize_max DropOldest) (mpsc_channel 1) [].

Example example_receive_run :
  (at_ (example_receive example_polls), event_packet <$> forwarded (example_receive example_polls),
   sent (example_receive example_polls)) =
  (Finished, [1; 2],
   [StreamPacket (Build_PacketReceiveEvent _ {| connection_number := 3 |} 1 0);
    StreamPacket (Build_PacketReceiveEvent _ {| connection_number := 3 |} 2 0);
    ClosedMessage (Io (io_error_from BrokenPipe))]).
Proof. by vm_compute. Qed.

Lemma receive_task_messages_witness :
  let t := example_receive example_polls in
  Forall (no_reopen (P:=Z)) example_polls ∧
  (received t = forwarded t ∨ ∃ e, received t = forwarded t ++ [e]) ∧
  Forall (λ e, event_connection e = {| connection_number := 3 |}) (received t) ∧
  match at_ t with
  | Receiving | Forwarding _ | Closing _ => sent t = StreamPacket <$> forwarded t
  | Notifying | Finished =>
      token t = true ∧ reader_closed t = true ∧
      ((∃ e, sent t = (StreamPacket <$> forwarded t) ++ [ClosedMessage e]) ∨
       (sent t = StreamPacket <$> forwarded t ∧ mpsc_is_closed (incoming t) = true))
  end.
Proof.
  assert (Hall : Forall (no_reopen (P:=Z)) example_polls) by (repeat constructor; by intros c Hc).
  split; [exact Hall|].
  exact (receive_task_messages (Addr:=nat) false {| connection_number := 3 |} (λ e, e) (λ _ h, h)
    (λ h, h) None example_polls (mpsc_channel 2) (lossy_channel 2 usize_max DropOldest)
    (mpsc_channel 1) [] Hall).
Defined.

Lemma receive_task_cancellation_witness :
  let t := example_receive (take 1 example_polls) in
  let p := example_poll true (Some (io_error_from BrokenPipe)) [4] true in
  token t || rv_cancelled p = true ∧ ended t = false ∧
  let t' := poll false {| connection_number := 3 |} (λ e, e) (λ _ h, h) (λ h, h) None p t in
  token t' = true ∧ reader_closed t' = true ∧
  received t' = received t ∧ forwarded t' = forwarded t ∧
  ended t' = true ∧ sent t' = sent t ++ [ClosedMessage (Io (io_error_from BrokenPipe))].
Proof.
  split; [reflexivity|]. split; [reflexivity|].
  exact (receive_task_cancellation (Addr:=nat) false {| connection_number := 3 |} (λ e, e)
    (λ _ h, h) (λ h, h) None (example_poll true (Some (io_error_from BrokenPipe)) [4] true)
    (example_receive (take 1 example_polls)) eq_refl eq_refl I).
Defined.
