(* ===== verification/Endpoint.v ===== *)
(** * The ECS side of an endpoint

    Models the systems that src/src/client.rs and src/src/server.rs install in
    [PreUpdate], which are the same on both sides but for the registry they
    maintain ([incoming_system], [receive_datagram_packets]), and the order in
    which src/src/scheduling.rs runs them ([configure_receive]).

    A system only queues commands; they run later, in order, each with the whole
    world. Application observers run inside the commands: they are a parameter
    that may change the world in any way. *)

From stdpp Require Export functions list.
From S2P Require Import Prelude Protocol Lossy Externals Settings Queue Connection Receive.

(** ** What a side of the protocol provides

    [R] is its registry resources, [E] and [D] its establishment and closing
    messages, and [X] the event observers get when a connection ends. *)
Class Endpoint (R E D X : Type) := {
  established_connection : E → ConnectionId;
  register_established : E → R → R;
  register_closed : D → R → R;
  closed_trigger : D → X;
}.

Section Endpoint.
Context `{Target} {L : Type} `{CancellationToken L} {Ch : Type → Type} `{Mpsc Ch}.
Context {Hd T P R E D X : Type} `{TransportHandle Hd} `{Endpoint R E D X}.

(** The world, as the crate's systems see it: the registry, and what the clones
    of each connection share. *)
Record World := {
  resources : R;
  links : ConnectionId → Link L Ch Hd T;
}.

Definition with_resources (f : R → R) (w : World) : World :=
  {| resources := f (resources w); links := links w |}.
Definition update_link (i : ConnectionId) (f : Link L Ch Hd T → Link L Ch Hd T) (w : World) : World :=
  {| resources := resources w; links := alter f i (links w) |}.

(** [disconnect_task.is_cancelled()]. *)
Definition is_cancelled (i : ConnectionId) (w : World) : bool :=
  token_is_cancelled (disconnect_task (links w i)).

(** The events observers are told of. *)
Inductive trigger :=
  | OnEstablished (e : E)
  | OnPacket (e : PacketReceiveEvent P)
  | OnClosed (x : X).

(** The application's observers. *)
Variable observe : trigger → World → World.

(** The queued commands. *)
Inductive command :=
  | EstablishCommand (e : E)
  | PacketCommand (e : PacketReceiveEvent P)
  | CloseCommand (d : D)
  | DatagramCommand (e : PacketReceiveEvent P).

(** [incoming_system]: the messages it takes and the commands it queues. *)
Definition message_command (m : IncomingMessage P E D) : command :=
  match m with
  | Established e => EstablishCommand e
  | StreamPacket e => PacketCommand e
  | ClosedMessage d => CloseCommand d
  end.

Fixpoint incoming_loop (budget : nat) (c : Ch (IncomingMessage P E D))
    : Ch (IncomingMessage P E D) * list command :=
  match budget with
  | O => (c, [])
  | S budget =>
      match mpsc_try_recv c with
      | (c, Ok m) =>
          let '(c, commands) := incoming_loop budget c in (c, message_command m :: commands)
      | (c, Err _) => (c, [])
      end
  end.

Definition incoming_system (c : Ch (IncomingMessage P E D))
    (queues : option NetworkQueueSettings) (settings : option NetworkSettings)
    : Ch (IncomingMessage P E D) * list command :=
  incoming_loop (Z.to_nat (events_per_frame (resolve_queues settings queues))) c.

(** [receive_datagram_packets]. *)
Fixpoint datagram_loop (budget : nat) (q : Shared (PacketReceiveEvent P)) (w : World)
    : Shared (PacketReceiveEvent P) * World * list command :=
  match budget with
  | O => (q, w, [])
  | S budget =>
      match try_recv_if q (λ e, is_published (links w (event_connection e)) ||
                                is_cancelled (event_connection e) w) with
      | (q, _, Ok e) =>
          if is_cancelled (event_connection e) w
          then datagram_loop budget q
                 (update_link (event_connection e) (ecs_record_drop ClosedBeforeDelivery) w)
          else let '(q, w, commands) := datagram_loop budget q w in
               (q, w, DatagramCommand e :: commands)
      | (q, _, Err _) => (q, w, [])
      end
  end.

Definition receive_datagram_packets (q : Shared (PacketReceiveEvent P))
    (queues : option NetworkQueueSettings) (settings : option NetworkSettings) (w : World)
    : Shared (PacketReceiveEvent P) * World * list command :=
  datagram_loop (Z.to_nat (events_per_frame (resolve_queues settings queues))) q w.

(** Running a command: the new world, and what observers were told, with the
    world they saw. *)
Definition run_command (k : command) (w : World) : World * list (trigger * World) :=
  match k with
  | EstablishCommand e =>
      let w := with_resources (register_established e) w in
      let w := update_link (established_connection e) mark_published w in
      (observe (OnEstablished e) w, [(OnEstablished e, w)])
  | PacketCommand e => (observe (OnPacket e) w, [(OnPacket e, w)])
  | CloseCommand d =>
      let w := with_resources (register_closed d) w in
      (observe (OnClosed (closed_trigger d)) w, [(OnClosed (closed_trigger d), w)])
  | DatagramCommand e =>
      if is_cancelled (event_connection e) w
      then (update_link (event_connection e) (ecs_record_drop ClosedBeforeDelivery) w, [])
      else (observe (OnPacket e) w, [(OnPacket e, w)])
  end.

Fixpoint run_commands (ks : list command) (w : World) : World * list (trigger * World) :=
  match ks with
  | [] => (w, [])
  | k :: ks =>
      let '(w, seen) := run_command k w in
      let '(w, seen') := run_commands ks w in
      (w, seen ++ seen')
  end.

(** ** A frame

    [configure_receive]: the lifecycle system and its deferred commands, and for
    datagrams the packet system and its commands after them. Between two steps
    the tasks and other systems do anything. *)

Record Inbox := {
  messages : Ch (IncomingMessage P E D);
  datagrams : Shared (PacketReceiveEvent P);
  world : World;
}.

(** What a frame sees: the settings in force and the others' changes before the
    frame and before each batch of commands and the second system. *)
Record frame_env := {
  fe_queues : option NetworkQueueSettings;
  fe_settings : option NetworkSettings;
  fe_before : Inbox → Inbox;
  fe_commands : Inbox → Inbox;
  fe_between : Inbox → Inbox;
  fe_datagram_commands : Inbox → Inbox;
}.

Definition with_world (b : Inbox) (w : World) : Inbox :=
  {| messages := messages b; datagrams := datagrams b; world := w |}.

Definition lifecycle_step (e : frame_env) (b : Inbox) : Inbox * list (trigger * World) :=
  let b := fe_before e b in
  let '(c, ks) := incoming_system (messages b) (fe_queues e) (fe_settings e) in
  let b := fe_commands e {| messages := c; datagrams := datagrams b; world := world b |} in
  let '(w, seen) := run_commands ks (world b) in
  (with_world b w, seen).

Definition packets_step (e : frame_env) (b : Inbox) : Inbox * list (trigger * World) :=
  let b := fe_between e b in
  let '(q, w, ks) := receive_datagram_packets (datagrams b) (fe_queues e) (fe_settings e) (world b) in
  let b := fe_datagram_commands e {| messages := messages b; datagrams := q; world := w |} in
  let '(w, seen) := run_commands ks (world b) in
  (with_world b w, seen).

Definition frame (datagram : bool) (e : frame_env) (b : Inbox) : Inbox * list (trigger * World) :=
  let '(b, seen) := lifecycle_step e b in
  if datagram then
    let '(b, seen') := packets_step e b in (b, seen ++ seen')
  else (b, seen).

Fixpoint frames (datagram : bool) (es : list frame_env) (b : Inbox)
    : Inbox * list (trigger * World) :=
  match es with
  | [] => (b, [])
  | e :: es =>
      let '(b, seen) := frame datagram e b in
      let '(b, seen') := frames datagram es b in
      (b, seen ++ seen')
  end.
End Endpoint.
Arguments World L Ch Hd T R : clear implicits.
Arguments trigger P E X : clear implicits.
Arguments command P E D : clear implicits.
Arguments Inbox L Ch Hd T P R E D : clear implicits.
Arguments frame_env L Ch Hd T P R E D : clear implicits.

(** ** What the registry of a side is *)
Class EndpointLaws (Addr R E D X : Type) `{Endpoint R E D X} := {
  registry : R → list (EcsConnection Addr);
  established_handle : E → EcsConnection Addr;
  closed_id : D → option ConnectionId;
  trigger_id : X → option ConnectionId;
  established_handle_id e : ecs_id (established_handle e) = established_connection e;
  register_established_appends e r :
    registry (register_established e r) = registry r ++ [established_handle e];
  register_closed_removes d r :
    registry (register_closed d r) = filter (λ c, Some (ecs_id c) ≠ closed_id d) (registry r);
  trigger_id_closed d : trigger_id (closed_trigger d) = closed_id d;
  (** What else the side keeps true of its resources. *)
  resources_ok : R → Prop;
  resources_ok_established e r : resources_ok r → resources_ok (register_established e r);
  resources_ok_closed d r : resources_ok r → resources_ok (register_closed d r);
}.

(** ** The lifecycle system *)

Section Lifecycle.
Context `{Target} {L : Type} `{CancellationToken L} {Ch : Type → Type} `{MpscLaws Ch}.
Context {Hd T P R E D X : Type} `{TransportHandle Hd} `{Endpoint R E D X}.
Variable observe : trigger P E X → World L Ch Hd T R → World L Ch Hd T R.
Implicit Types (w : World L Ch Hd T R) (k : command P E D).

Definition message_trigger (m : IncomingMessage P E D) : trigger P E X :=
  match m with
  | Established e => OnEstablished e
  | StreamPacket e => OnPacket e
  | ClosedMessage d => OnClosed (closed_trigger d)
  end.

Lemma incoming_loop_fifo n (c : Ch (IncomingMessage P E D)) :
  (incoming_loop n c).2 = message_command <$> take n (mpsc_items c) ∧
  mpsc_items (incoming_loop n c).1 = drop n (mpsc_items c).
Proof.
  revert c; induction n as [|n IH]; intros c; [done|]. cbn.
  destruct (mpsc_try_recv c) as [c' r] eqn:Hr.
  apply mpsc_try_recv_view in Hr as (_ & _ & _ & Hv).
  destruct (mpsc_items c) as [|m ms].
  - destruct Hv as [Hi ->]. cbn. by rewrite Hi.
  - destruct Hv as [-> Hi]. specialize (IH c') as [IH1 IH2].
    destruct (incoming_loop n c') as [c2 ks]. cbn in *. by rewrite IH1, IH2, Hi.
Qed.

Lemma run_commands_app ks1 ks2 w :
  run_commands observe (ks1 ++ ks2) w =
  let '(w1, seen1) := run_commands observe ks1 w in
  let '(w2, seen2) := run_commands observe ks2 w1 in (w2, seen1 ++ seen2).
Proof.
  revert w; induction ks1 as [|k ks1 IH]; intros w; cbn.
  { by destruct (run_commands observe ks2 w). }
  destruct (run_command observe k w) as [w1 s1]. rewrite IH.
  destruct (run_commands observe ks1 w1) as [w2 s2].
  destruct (run_commands observe ks2 w2) as [w3 s3]. by rewrite app_assoc.
Qed.

Lemma run_messages_seen ms w :
  (run_commands observe (message_command <$> ms) w).2.*1 = message_trigger <$> ms.
Proof.
  revert w; induction ms as [|m ms IH]; intros w; [done|]. rewrite !fmap_cons. cbn [run_commands].
  destruct m; cbn [message_command run_command].
  all: match goal with |- context [run_commands observe _ ?w1] => specialize (IH w1) end.
  all: destruct (run_commands observe _ _) as [w2 s2]; cbn in *; by rewrite IH.
Qed.

(** The loop leaves the channel's capacity and state alone. *)
Lemma incoming_loop_channel n (c : Ch (IncomingMessage P E D)) :
  mpsc_is_closed (incoming_loop n c).1 = mpsc_is_closed c ∧
  mpsc_max_capacity (incoming_loop n c).1 = mpsc_max_capacity c.
Proof.
  revert c. induction n as [|n IH]; intros c; [done|]. cbn [incoming_loop].
  destruct (mpsc_try_recv c) as [c' r] eqn:Hr. apply mpsc_try_recv_view in Hr as (Hc & Hm & _ & _).
  destruct r as [m|e]; [|done]. specialize (IH c') as [IHc IHm].
  destruct (incoming_loop n c') as [c2 ks]. cbn in *. by rewrite IHc, IHm.
Qed.

(** A command made from a message tells observers of just that message. *)
Lemma run_message_seen m (w : World L Ch Hd T R) :
  (run_command observe (message_command m) w).2.*1 = [message_trigger m].
Proof. by destruct m. Qed.
(** C22. One frame of lifecycle and stream processing is first in, first out
    within its budget: observers are told of exactly the first
    [events_per_frame] messages in the channel, each once, in the order the
    tasks sent them (so a connection's establishment, packets and closure keep
    their order), whatever the observers do; the messages beyond the budget stay
    queued, in order, for the next frame. *)
Theorem lifecycle_step_fifo (e : frame_env L Ch Hd T P R E D) b :
  let b0 := fe_before e b in
  let budget := Z.to_nat (events_per_frame (resolve_queues (fe_settings e) (fe_queues e))) in
  let '(c, commands) := incoming_system (messages b0) (fe_queues e) (fe_settings e) in
  let '(_, seen) := lifecycle_step observe e b in
  mpsc_items c = drop budget (mpsc_items (messages b0)) ∧
  length commands = (budget `min` length (mpsc_items (messages b0)))%nat ∧
  seen.*1 = message_trigger <$> take budget (mpsc_items (messages b0)).
Proof.
  cbn zeta. unfold lifecycle_step, incoming_system.
  set (n := Z.to_nat _). destruct (incoming_loop_fifo n (messages (fe_before e b))) as [Hk Hi].
  destruct (incoming_loop n _) as [c ks]. cbn in Hk, Hi. subst ks.
  match goal with |- context [run_commands observe ?ks ?w] =>
    pose proof (run_messages_seen (take n (mpsc_items (messages (fe_before e b)))) w) as Hs;
    destruct (run_commands observe ks w) as [w2 s2] end.
  cbn in Hs. rewrite length_fmap, length_take. by split_and!.
Qed.
End Lifecycle.

(** ** What is about one connection *)

Section About.
Context {P Addr R E D X : Type} `{EndpointLaws Addr R E D X}.

(** An event that tells of the connection with identity [i]. *)
Definition about (i : ConnectionId) (t : trigger P E X) : Prop :=
  match t with
  | OnEstablished e => established_connection e = i
  | OnPacket e => event_connection e = i
  | OnClosed x => trigger_id x = Some i
  end.

#[export] Instance about_dec i t : Decision (about i t).
Proof. destruct t; cbn; apply _. Defined.

(** What observers were told of it, in order. *)
Definition life {W} (i : ConnectionId) (told : list (trigger P E X * W)) : list (trigger P E X) :=
  filter (about i) told.*1.
End About.

(** ** The datagram system *)

Section Datagrams.
Context `{Target} {L : Type} `{CancellationToken L} {Ch : Type → Type} `{MpscLaws Ch}.
Context {Hd T P R E D X : Type} `{TransportHandle Hd} `{Endpoint R E D X}.
Implicit Types (w : World L Ch Hd T R) (q : Shared (PacketReceiveEvent P)).

(** A packet the system may take: its connection is known to ECS, or gone. *)
Definition ready w (e : PacketReceiveEvent P) : bool :=
  is_published (links w (event_connection e)) || is_cancelled (event_connection e) w.

Definition gone w (e : PacketReceiveEvent P) : bool := is_cancelled (event_connection e) w.

(** Counting the packets of cancelled connections. *)
Definition count_gone w (es : list (PacketReceiveEvent P)) : World L Ch Hd T R :=
  foldl (λ w e, update_link (event_connection e) (ecs_record_drop ClosedBeforeDelivery) w) w es.

(** Two worlds that differ by statistics only. *)
Definition same_status w w' : Prop :=
  resources w' = resources w ∧
  ∀ i, is_published (links w' i) = is_published (links w i) ∧ is_cancelled i w' = is_cancelled i w.

Lemma same_status_refl w : same_status w w.
Proof. by split. Qed.
Lemma same_status_trans w1 w2 w3 : same_status w1 w2 → same_status w2 w3 → same_status w1 w3.
Proof.
  intros [Hr1 H12] [Hr2 H23]. split; [congruence|]. intros i.
  destruct (H12 i), (H23 i). split; congruence.
Qed.

Lemma record_drop_status i r w : same_status w (update_link i (ecs_record_drop r) w).
Proof.
  split; [done|]. intros j. unfold is_cancelled, is_published. cbn.
  destruct (decide (i = j)) as [->|Hij];
    [by rewrite fn_lookup_alter | by rewrite fn_lookup_alter_ne].
Qed.

Lemma count_gone_status es w : same_status w (count_gone w es).
Proof.
  revert w; induction es as [|e es IH]; intros w; [apply same_status_refl|].
  eapply same_status_trans; [apply record_drop_status|apply IH].
Qed.

Lemma same_status_ready w w' e : same_status w w' → ready w' e = ready w e ∧ gone w' e = gone w e.
Proof.
  intros [_ Hs]. unfold ready, gone. destruct (Hs (event_connection e)) as [-> ->]. done.
Qed.

Lemma filter_same_status w w' (b : bool) (es : list (PacketReceiveEvent P)) : same_status w w' →
  filter (λ e, gone w' e = b) es = filter (λ e, gone w e = b) es.
Proof.
  intros Hs. apply list_filter_iff. intros e. by rewrite (proj2 (same_status_ready w w' e Hs)).
Qed.

Lemma datagram_loop_outcome n q w q' w' ks :
  wf q → datagram_loop (E:=E) (D:=D) n q w = (q', w', ks) →
  ∃ taken,
    (items (state q)).*1 = taken ++ (items (state q')).*1 ∧ (length taken ≤ n)%nat ∧
    Forall (λ e, ready w e = true) taken ∧
    ks = DatagramCommand <$> filter (λ e, gone w e = false) taken ∧
    w' = count_gone w (filter (λ e, gone w e = true) taken) ∧
    (length taken = n ∨ ∀ e, head (items (state q')).*1 = Some e → ready w e = false).
Proof.
  revert q w q' w' ks; induction n as [|n IH]; intros q w q' w' ks Hwf.
  { intros [= <- <- <-]. exists []. split_and!; try done. by left. }
  cbn [datagram_loop]. rewrite try_recv_if_form by done.
  pose proof (run_op_wf q (OpTryRecv (ready w)) Hwf I) as Hwf'.
  cbn [run_op] in Hwf'. rewrite try_recv_if_form in Hwf' by done.
  destruct (items (state q)) as [|[e b] rest] eqn:Hi.
  { assert (Hend : ∃ r, (if (senders (state q) =? 0) || negb (receiver_open (state q))
        then (q, @nil Signal, Err (T:=PacketReceiveEvent P) Disconnected) else (q, [], Err Empty))
        = (q, [], Err r)) by (destruct (_ || _); eauto).
    destruct Hend as [r ->]. intros [= <- <- <-]. exists []. rewrite Hi.
    split_and!; try done; [cbn; lia|by right]. }
  change (is_published (links w (event_connection e)) || is_cancelled (event_connection e) w)
    with (ready w e).
  destruct (ready w e) eqn:Hr.
  2: { intros [= <- <- <-]. exists []. rewrite Hi.
       split_and!; try done; [cbn; lia|]. right. by intros e' [= <-]. }
  cbn in Hwf'. set (q1 := with_state q _) in *.
  assert (Hq1 : (items (state q1)).*1 = rest.*1) by done.
  change (is_cancelled (event_connection e) w) with (gone w e).
  destruct (gone w e) eqn:Hg.
  - intros Hloop. set (w1 := update_link _ _ w) in *.
    assert (Hs : same_status w w1) by apply record_drop_status.
    apply IH in Hloop as (taken & Ht & Hn & Hready & -> & -> & Hend); [|done].
    exists (e :: taken). rewrite !filter_cons, Hg. cbn. rewrite <- Hq1, Ht.
    rewrite !(filter_same_status w w1) by done. split_and!; try done; [lia| |].
    + constructor; [done|]. eapply Forall_impl; [exact Hready|]. cbn.
      intros e' <-. symmetry. by apply same_status_ready.
    + destruct Hend as [<-|Hend]; [by left|]. right. intros e' He'.
      rewrite <- (Hend e' He'). symmetry. by apply same_status_ready.
  - destruct (datagram_loop n q1 w) as [[q2 w2] ks2] eqn:Hloop. intros [= <- <- <-].
    apply IH in Hloop as (taken & Ht & Hn & Hready & -> & -> & Hend); [|done].
    exists (e :: taken). rewrite !filter_cons, Hg. cbn. rewrite <- Hq1, Ht.
    split_and!; try done; [lia|by constructor|].
    destruct Hend as [<-|Hend]; auto.
Qed.

Lemma datagram_loop_wf n q w : wf q → wf (datagram_loop (E:=E) (D:=D) n q w).1.1.
Proof.
  revert q w; induction n as [|n IH]; intros q w Hwf; [done|]. cbn [datagram_loop].
  match goal with |- context [try_recv_if q ?r] =>
    pose proof (run_op_wf q (OpTryRecv r) Hwf I) as Hwf' end.
  cbn [run_op] in Hwf'. destruct (try_recv_if q _) as [[q1 sg] [e|e]]; [|done].
  cbn in Hwf'. destruct (is_cancelled _ _); [by apply IH|].
  specialize (IH q1 w Hwf'). by destruct (datagram_loop n q1 w) as [[q2 w2] ks].
Qed.

Lemma datagram_loop_takes_alone n q w m : wf q → takes_alone q m →
  takes_alone (datagram_loop (E:=E) (D:=D) n q w).1.1 m.
Proof.
  revert q w; induction n as [|n IH]; intros q w Hwf Hq; [done|]. cbn [datagram_loop].
  match goal with |- context [try_recv_if q ?r] =>
    pose proof (run_op_wf q (OpTryRecv r) Hwf I) as Hwf';
    pose proof (try_recv_takes_alone q r m Hwf Hq) as Hq' end.
  cbn [run_op] in Hwf'. destruct (try_recv_if q _) as [[q1 sg] [e|e]]; [|done].
  cbn in Hwf', Hq'. destruct (is_cancelled _ _); [by apply IH|].
  specialize (IH q1 w Hwf' Hq'). by destruct (datagram_loop n q1 w) as [[q2 w2] ks].
Qed.

(** The datagram system loses nothing and reorders nothing: it takes the
    longest prefix of the queue, within its budget, whose packets' connections
    are known to ECS or already gone; it counts those that are gone, each as one
    [ClosedBeforeDelivery] of its own connection, and queues a command for each
    of the others, in order; and it stops before the first packet of a connection
    whose establishment ECS has not processed, leaving it and everything behind
    it in the queue. *)
Theorem datagram_system_outcome q w (queues : option NetworkQueueSettings)
    (settings : option NetworkSettings) q' w' ks :
  wf q → receive_datagram_packets (E:=E) (D:=D) q queues settings w = (q', w', ks) →
  let budget := Z.to_nat (events_per_frame (resolve_queues settings queues)) in
  ∃ taken,
    (items (state q)).*1 = taken ++ (items (state q')).*1 ∧ (length taken ≤ budget)%nat ∧
    Forall (λ e, ready w e = true) taken ∧
    ks = DatagramCommand <$> filter (λ e, gone w e = false) taken ∧
    w' = count_gone w (filter (λ e, gone w e = true) taken) ∧ same_status w w' ∧
    (length taken = budget ∨ ∀ e, head (items (state q')).*1 = Some e → ready w e = false).
Proof.
  intros Hwf Hrun. apply datagram_loop_outcome in Hrun as (taken & ? & ? & ? & ? & -> & ?); [|done].
  exists taken. split_and!; try done. apply count_gone_status.
Qed.
End Datagrams.

(** ** Whole frames *)

Section Frames.
Context `{Target} {L : Type} `{CancellationToken L} {Ch : Type → Type} `{MpscLaws Ch}.
Context {Hd T P Addr R E D X : Type} `{TransportHandle Hd} `{EndpointLaws Addr R E D X}.
Variable observe : trigger P E X → World L Ch Hd T R → World L Ch Hd T R.
Variable datagram : bool.
Abbreviation log := (list (trigger P E X * World L Ch Hd T R)).
Implicit Types (w : World L Ch Hd T R) (k : command P E D) (l : log).

(** What the rest of the program does to a world: a connection stays cancelled,
    and the registry and the [published] flags, which are the crate's own, stay
    as they are. *)
Record evolves w w' : Prop := {
  ev_resources : resources w' = resources w;
  ev_published i : is_published (links w' i) = is_published (links w i);
  ev_cancelled i : is_cancelled i w = true → is_cancelled i w' = true;
}.

(** What it does to the queues: they stay well formed, and the tasks of datagram
    connections do not use the channel for packets. *)
Definition inbox_ok (b : Inbox L Ch Hd T P R E D) : Prop :=
  wf (datagrams b) ∧
  (datagram = true →
    Forall (λ m, match m with StreamPacket _ => False | _ => True end) (mpsc_items (messages b))).

Definition change_ok (f : Inbox L Ch Hd T P R E D → Inbox L Ch Hd T P R E D) : Prop :=
  ∀ b, inbox_ok b → inbox_ok (f b) ∧ evolves (world b) (world (f b)).

Record env_ok (e : frame_env L Ch Hd T P R E D) : Prop := {
  eo_before : change_ok (fe_before e);
  eo_commands : change_ok (fe_commands e);
  eo_between : change_ok (fe_between e);
  eo_datagram_commands : change_ok (fe_datagram_commands e);
}.

(** The connections observers have been told of, and the handles of those that
    were not closed since. *)
Definition established_in l (i : ConnectionId) : Prop :=
  ∃ e w, (OnEstablished e, w) ∈ l ∧ established_connection e = i.

Definition closes (x : trigger P E X * World L Ch Hd T R) (i : ConnectionId) : Prop :=
  match x.1 with OnClosed x => trigger_id x = Some i | _ => False end.

Definition open_in l (c : EcsConnection Addr) : Prop :=
  ∃ l1 e w l2, l = l1 ++ (OnEstablished e, w) :: l2 ∧ established_handle e = c ∧
    Forall (λ x, ¬ closes x (ecs_id c)) l2.

(** What an observer sees when it is told of something, after [l]. *)
Definition entry_ok l (x : trigger P E X * World L Ch Hd T R) : Prop :=
  let '(t, w) := x in
  match t with
  | OnEstablished e =>
      established_handle e ∈ registry (resources w) ∧
      is_published (links w (established_connection e)) = true
  | OnPacket e =>
      datagram = true →
      established_in l (event_connection e) ∧ is_cancelled (event_connection e) w = false ∧
      ∀ t' w', (t', w') ∈ l → is_cancelled (event_connection e) w' = false
  | OnClosed x => ∀ c, c ∈ registry (resources w) → trigger_id x ≠ Some (ecs_id c)
  end.

Record log_inv w l : Prop := {
  li_published i : is_published (links w i) = true → established_in l i;
  li_cancelled t w' i : (t, w') ∈ l → is_cancelled i w' = true → is_cancelled i w = true;
  li_registry c : c ∈ registry (resources w) ↔ open_in l c;
  li_entries l1 x l2 : l = l1 ++ x :: l2 → entry_ok l1 x;
  li_resources : resources_ok (resources w) ∧ Forall (λ x, resources_ok (resources x.2)) l;
}.

Lemma log_inv_evolves w w' l : evolves w w' → log_inv w l → log_inv w' l.
Proof.
  intros [Hr Hp Hc] [Hpub Hcan Hreg Hent Hres]. split; [| | |done|by rewrite Hr].
  - intros i. rewrite Hp. apply Hpub.
  - eauto.
  - intros c. by rewrite Hr.
Qed.

Lemma same_status_evolves w w' : same_status w w' → evolves w w'.
Proof. intros [Hr Hs]. split; [done|apply Hs|]. intros i. by rewrite (proj2 (Hs i)). Qed.

Lemma established_in_app l1 l2 i : established_in l1 i → established_in (l1 ++ l2) i.
Proof. intros (e & w & Hin & He). exists e, w. by rewrite elem_of_app; auto. Qed.

Lemma open_in_snoc l x c :
  open_in (l ++ [x]) c ↔
  (∃ e, x.1 = OnEstablished e ∧ established_handle e = c) ∨ (open_in l c ∧ ¬ closes x (ecs_id c)).
Proof.
  split.
  - intros (l1 & e & w & l2 & Heq & He & Hl2).
    destruct l2 as [|y l2 _] using rev_ind.
    + apply app_inj_tail in Heq as [_ ->]. left. by exists e.
    + rewrite app_comm_cons, app_assoc in Heq. apply app_inj_tail in Heq as [-> ->].
      apply Forall_app in Hl2 as [Hl2 Hy]. apply Forall_cons in Hy as [Hy _].
      right. split; [|exact Hy]. by exists l1, e, w, l2.
  - intros [(e & Hx & He)|[(l1 & e & w & l2 & -> & He & Hl2) Hx]].
    + destruct x as [t w]. cbn in Hx. subst t. exists l, e, w, []. split_and!; done.
    + exists l1, e, w, (l2 ++ [x]). rewrite <- app_assoc. split_and!; try done.
      apply Forall_app; split; [done|]. by constructor.
Qed.

(** One observed trigger more, in a world [w0] in which the crate has made its
    own changes. *)
Lemma log_inv_snoc w0 w l t :
  (∀ i, is_published (links w0 i) = true → established_in (l ++ [(t, w0)]) i) →
  (∀ t' w' i, (t', w') ∈ l → is_cancelled i w' = true → is_cancelled i w0 = true) →
  (∀ c, c ∈ registry (resources w0) ↔ open_in (l ++ [(t, w0)]) c) →
  (∀ l1 x l2, l = l1 ++ x :: l2 → entry_ok l1 x) → entry_ok l (t, w0) →
  resources_ok (resources w0) ∧ Forall (λ x, resources_ok (resources x.2)) l →
  evolves w0 w → log_inv w (l ++ [(t, w0)]).
Proof.
  intros Hpub Hcan Hreg Hent Hx [Hres Hseen] Hev.
  apply (log_inv_evolves w0); [done|]. split; try done.
  - intros t' w' i Hin Hc. apply elem_of_app in Hin as [Hin|Hin]; [by eapply Hcan|].
    apply list_elem_of_singleton in Hin. by simplify_eq.
  - intros l1 x l2 Heq. destruct l2 as [|y l2 _] using rev_ind.
    + by apply app_inj_tail in Heq as [-> <-].
    + rewrite app_comm_cons, app_assoc in Heq. apply app_inj_tail in Heq as [-> _]. by eapply Hent.
  - split; [done|]. apply Forall_app. split; [done|by constructor].
Qed.

Definition grows w w' : Prop :=
  ∀ i, (is_published (links w i) = true → is_published (links w' i) = true) ∧
       (is_cancelled i w = true → is_cancelled i w' = true).

Definition command_ok w k : Prop :=
  match k with
  | DatagramCommand e => is_published (links w (event_connection e)) = true
  | PacketCommand _ => datagram = false
  | _ => True
  end.

Lemma evolves_grows w w' : evolves w w' → grows w w'.
Proof. intros [Hr Hp Hc] i. by rewrite Hp; auto. Qed.
Lemma grows_trans w1 w2 w3 : grows w1 w2 → grows w2 w3 → grows w1 w3.
Proof. intros H12 H23 i. destruct (H12 i), (H23 i). auto. Qed.
Lemma command_ok_grows w w' k : grows w w' → command_ok w k → command_ok w' k.
Proof. intros Hg. destruct k; cbn; auto. apply Hg. Qed.

Lemma mark_published_status i j w :
  is_published (links (update_link i mark_published w) j) =
    bool_decide (i = j) || is_published (links w j) ∧
  is_cancelled j (update_link i mark_published w) = is_cancelled j w.
Proof.
  unfold is_cancelled, is_published. cbn. case_bool_decide as Hij.
  - subst j. by rewrite fn_lookup_alter.
  - by rewrite fn_lookup_alter_ne.
Qed.

Hypothesis Hobserve : ∀ t w, evolves w (observe t w).

Lemma packet_inv e w l : log_inv w l →
  (datagram = true → is_published (links w (event_connection e)) = true ∧
                     is_cancelled (event_connection e) w = false) →
  log_inv (observe (OnPacket e) w) (l ++ [(OnPacket e, w)]).
Proof.
  intros [Hpub Hcan Hreg Hent] He. apply (log_inv_snoc w); auto.
  - intros i Hi. apply established_in_app. auto.
  - intros c. rewrite open_in_snoc, Hreg. unfold closes. cbn. naive_solver.
  - intros Hdg. destruct (He Hdg) as [Hp Hc]. split_and!; auto.
    intros t' w' Hin. apply not_true_iff_false. intros Hc'.
    by rewrite (Hcan _ _ _ Hin Hc') in Hc.
Qed.

Lemma establish_inv e w l : log_inv w l →
  let w1 := update_link (established_connection e) mark_published
              (with_resources (register_established e) w) in
  log_inv (observe (OnEstablished e) w1) (l ++ [(OnEstablished e, w1)]).
Proof.
  intros [Hpub Hcan Hreg Hent [Hres Hseen]]. cbn zeta. set (w0 := with_resources _ w).
  eapply log_inv_snoc; auto.
  - intros i. rewrite (proj1 (mark_published_status _ i w0)). case_bool_decide as Hi; cbn.
    + intros _. exists e, (update_link (established_connection e) mark_published w0).
      split; [|done]. apply elem_of_app. right. by apply list_elem_of_singleton.
    + intros Hp. by apply established_in_app, Hpub.
  - intros t' w' i Hin Hc. rewrite (proj2 (mark_published_status _ i w0)).
    exact (Hcan t' w' i Hin Hc).
  - intros c. rewrite open_in_snoc. cbn [resources update_link with_resources].
    unfold w0. cbn [resources with_resources].
    rewrite register_established_appends, elem_of_app, Hreg, list_elem_of_singleton.
    unfold closes. cbn. naive_solver.
  - split.
    + unfold w0. cbn. rewrite register_established_appends. apply elem_of_app. right.
      by apply list_elem_of_singleton.
    + by rewrite (proj1 (mark_published_status _ _ w0)), bool_decide_true.
  - split; [|done]. by apply resources_ok_established.
Qed.

Lemma close_inv d w l : log_inv w l →
  let w1 := with_resources (register_closed d) w in
  log_inv (observe (OnClosed (closed_trigger d)) w1) (l ++ [(OnClosed (closed_trigger d), w1)]).
Proof.
  intros [Hpub Hcan Hreg Hent [Hres Hseen]]. cbn zeta. eapply log_inv_snoc; auto.
  - intros i Hi. apply established_in_app. by apply Hpub.
  - intros c. rewrite open_in_snoc. cbn. rewrite register_closed_removes, list_elem_of_filter, Hreg.
    unfold closes. cbn. rewrite trigger_id_closed. naive_solver.
  - cbn. intros c. rewrite register_closed_removes, list_elem_of_filter, trigger_id_closed.
    naive_solver.
  - split; [|done]. by apply resources_ok_closed.
Qed.

Lemma run_command_inv k w l : log_inv w l → command_ok w k →
  log_inv (run_command observe k w).1 (l ++ (run_command observe k w).2) ∧
  grows w (run_command observe k w).1.
Proof.
  intros Hinv Hk. destruct k as [e|e|d|e]; cbn [run_command fst snd].
  - split; [by apply establish_inv|]. set (w0 := with_resources _ w).
    apply (grows_trans _ (update_link (established_connection e) mark_published w0)).
    + intros i. destruct (mark_published_status (established_connection e) i w0) as [-> ->].
      split; [|done]. intros Hp. apply orb_true_intro. by right.
    + apply evolves_grows, Hobserve.
  - split; [|apply evolves_grows, Hobserve]. apply packet_inv; [done|].
    intros Hdg. cbn in Hk. congruence.
  - split; [by apply close_inv|].
    apply (grows_trans _ (with_resources (register_closed d) w)); [done|].
    apply evolves_grows, Hobserve.
  - destruct (is_cancelled (event_connection e) w) eqn:Hc; cbn.
    + rewrite app_nil_r.
      pose proof (same_status_evolves _ _ (record_drop_status (event_connection e)
        ClosedBeforeDelivery w)).
      split; [by eapply log_inv_evolves|by apply evolves_grows].
    + split; [|apply evolves_grows, Hobserve]. by apply packet_inv.
Qed.

(** What a command does to a connection: only its establishment publishes it, and
    nothing revives it. *)
Lemma run_command_world i k w :
  let w' := (run_command observe k w).1 in
  (is_published (links w i) = true → is_published (links w' i) = true) ∧
  (is_cancelled i w = true → is_cancelled i w' = true) ∧
  (is_published (links w' i) = true ↔
   is_published (links w i) = true ∨ ∃ e, k = EstablishCommand e ∧ established_connection e = i).
Proof.
  assert (Hev : ∀ t w1, (is_published (links (observe t w1) i) = is_published (links w1 i)) ∧
    (is_cancelled i w1 = true → is_cancelled i (observe t w1) = true)).
  { intros t w1. destruct (Hobserve t w1) as [_ Hp Hc]. auto. }
  destruct k as [e|e|d|e]; cbn [run_command fst].
  - set (w1 := with_resources _ w). destruct (mark_published_status (established_connection e) i w1) as [Hp Hc].
    destruct (Hev (OnEstablished e) (update_link (established_connection e) mark_published w1)) as [-> Hcan].
    rewrite Hp. split_and!.
    + intros Hw. change (is_published (links w1 i)) with (is_published (links w i)).
      rewrite Hw. apply orb_true_r.
    + intros Hw. apply Hcan. by rewrite Hc.
    + change (is_published (links w1 i)) with (is_published (links w i)).
      case_bool_decide as He; cbn; [|naive_solver]. split; [|done]. right. by exists e.
  - destruct (Hev (OnPacket e) w) as [-> Hcan]. naive_solver.
  - destruct (Hev (OnClosed (closed_trigger d)) (with_resources (register_closed d) w)) as [-> Hcan]. naive_solver.
  - destruct (is_cancelled (event_connection e) w); cbn [fst].
    + destruct (record_drop_status (event_connection e) ClosedBeforeDelivery w) as [_ Hst].
      destruct (Hst i) as [-> ->]. naive_solver.
    + destruct (Hev (OnPacket e) w) as [-> Hcan]. naive_solver.
Qed.

Lemma run_commands_inv ks w l : log_inv w l → Forall (command_ok w) ks →
  log_inv (run_commands observe ks w).1 (l ++ (run_commands observe ks w).2).
Proof.
  revert w l; induction ks as [|k ks IH]; intros w l Hinv Hks; cbn; [by rewrite app_nil_r|].
  apply Forall_cons in Hks as [Hk Hks].
  destruct (run_command_inv k w l Hinv Hk) as [Hinv' Hg].
  destruct (run_command observe k w) as [w1 s1]. cbn in *.
  specialize (IH w1 (l ++ s1) Hinv'). destruct (run_commands observe ks w1) as [w2 s2].
  cbn in *. rewrite app_assoc. apply IH. eapply Forall_impl; [exact Hks|].
  intros k'. by apply command_ok_grows.
Qed.

(** Frames keep the invariant. *)
Lemma lifecycle_step_inv e b l : env_ok e → inbox_ok b → log_inv (world b) l →
  let '(b', seen) := lifecycle_step observe e b in
  inbox_ok b' ∧ log_inv (world b') (l ++ seen).
Proof.
  intros He Hb Hl. unfold lifecycle_step, incoming_system.
  destruct (eo_before _ He _ Hb) as [Hb1 Hev]. apply (log_inv_evolves _ _ _ Hev) in Hl.
  set (b1 := fe_before e b) in *.
  destruct (incoming_loop_fifo (P:=P) (Z.to_nat (events_per_frame (resolve_queues (fe_settings e) (fe_queues e))))
    (messages b1)) as [Hks Hi].
  destruct (incoming_loop _ (messages b1)) as [c ks]. cbn in Hks, Hi.
  set (b2 := {| messages := c; datagrams := datagrams b1; world := world b1 |}).
  assert (Hb2 : inbox_ok b2).
  { destruct Hb1 as [Hwf Hs]. split; [done|]. intros Hdg. cbn. rewrite Hi. by apply Forall_drop, Hs. }
  destruct (eo_commands _ He b2 Hb2) as [Hb3 Hev3]. apply (log_inv_evolves _ _ _ Hev3) in Hl.
  set (b3 := fe_commands e b2) in *.
  assert (Hok : Forall (command_ok (world b3)) ks).
  { rewrite Hks, Forall_fmap. destruct Hb1 as [_ Hs]. destruct (decide (datagram = true)) as [Hdg|Hdg].
    - eapply Forall_impl; [apply Forall_take, Hs, Hdg|]. by intros [].
    - apply Forall_forall. intros [] _; cbn; try done. by apply not_true_is_false. }
  pose proof (run_commands_inv ks _ l Hl Hok) as Hrun.
  by destruct (run_commands observe ks (world b3)) as [w3 s3].
Qed.

Lemma packets_step_inv e b l : env_ok e → inbox_ok b → log_inv (world b) l →
  let '(b', seen) := packets_step observe e b in
  inbox_ok b' ∧ log_inv (world b') (l ++ seen).
Proof.
  intros He Hb Hl. unfold packets_step, receive_datagram_packets.
  destruct (eo_between _ He _ Hb) as [Hb1 Hev]. apply (log_inv_evolves _ _ _ Hev) in Hl.
  set (b1 := fe_between e b) in *. set (n := Z.to_nat _).
  destruct (datagram_loop n (datagrams b1) (world b1)) as [[q w] ks] eqn:Hloop.
  pose proof (datagram_loop_wf (E:=E) (D:=D) n (datagrams b1) (world b1) (proj1 Hb1)) as Hq.
  rewrite Hloop in Hq. cbn in Hq.
  apply datagram_loop_outcome in Hloop as (taken & _ & _ & Hready & -> & -> & _); [|apply Hb1].
  set (w := count_gone _ _). set (b2 := {| messages := messages b1; datagrams := q; world := w |}).
  pose proof (count_gone_status (filter (λ e, gone (world b1) e = true) taken) (world b1)) as Hst.
  fold w in Hst. apply (log_inv_evolves _ _ _ (same_status_evolves _ _ Hst)) in Hl.
  assert (Hb2 : inbox_ok b2) by (split; [done|apply Hb1]).
  destruct (eo_datagram_commands _ He b2 Hb2) as [Hb3 Hev3].
  apply (log_inv_evolves _ _ _ Hev3) in Hl. set (b3 := fe_datagram_commands e b2) in *.
  assert (Hok : Forall (command_ok (world b3))
    (DatagramCommand (D:=D) (E:=E) <$> filter (λ e, gone (world b1) e = false) taken)).
  { rewrite Forall_fmap. apply Forall_forall. intros p Hp. apply list_elem_of_filter in Hp as [Hg Hp].
    apply (proj1 (Forall_forall _ _) Hready) in Hp. cbn. rewrite (ev_published _ _ Hev3).
    cbn. rewrite (proj1 (proj2 Hst _)). unfold ready in Hp. unfold gone in Hg.
    rewrite Hg in Hp. by rewrite orb_false_r in Hp. }
  pose proof (run_commands_inv _ _ l Hl Hok) as Hrun.
  by destruct (run_commands observe _ (world b3)) as [w3 s3].
Qed.

Lemma frames_inv es b l : Forall env_ok es → inbox_ok b → log_inv (world b) l →
  log_inv (world (frames observe datagram es b).1) (l ++ (frames observe datagram es b).2).
Proof.
  intros Hes. revert b l. induction Hes as [|e es He _ IH]; intros b l Hb Hl; cbn.
  { by rewrite app_nil_r. }
  assert (Hf : let '(b', seen) := frame observe datagram e b in
    inbox_ok b' ∧ log_inv (world b') (l ++ seen)).
  { unfold frame. pose proof (lifecycle_step_inv e b l He Hb Hl) as Hs.
    destruct (lifecycle_step observe e b) as [b1 s1]. destruct datagram; [|done].
    destruct Hs as [Hb1 Hl1]. pose proof (packets_step_inv e b1 (l ++ s1) He Hb1 Hl1) as Hs.
    destruct (packets_step observe e b1) as [b2 s2]. by rewrite app_assoc. }
  destruct (frame observe datagram e b) as [b1 s1]. destruct Hf as [Hb1 Hl1].
  specialize (IH b1 (l ++ s1) Hb1 Hl1).
  destruct (frames observe datagram es b1) as [b2 s2]. cbn in *. by rewrite app_assoc.
Qed.

(** Before the first frame: nothing published, nothing registered. *)
Definition fresh (b : Inbox L Ch Hd T P R E D) : Prop :=
  inbox_ok b ∧ registry (resources (world b)) = [] ∧ resources_ok (resources (world b)) ∧
  ∀ i, is_published (links (world b) i) = false.

Lemma fresh_inv b : fresh b → log_inv (world b) [].
Proof.
  intros (_ & Hr & Hok & Hp). split.
  - intros i. by rewrite Hp.
  - by intros ??? ?%not_elem_of_nil.
  - intros c. rewrite Hr. split; [by intros ?%not_elem_of_nil|].
    intros (l1 & e & w & l2 & Heq & _). by destruct l1.
  - by intros [] ???.
  - by split.
Qed.

(** C9. The registry resource always lists exactly the connections the
    application has been told of and not yet told the end of, whatever the
    transports, the tasks and the observers do; and an observer that is told of
    a connection finds it registered and published, while one that is told of
    its end no longer finds it. *)
Theorem registry_is_open_connections es b :
  Forall env_ok es → fresh b →
  let '(b', seen) := frames observe datagram es b in
  (∀ c, c ∈ registry (resources (world b')) ↔ open_in seen c) ∧
  ∀ l1 t w l2, seen = l1 ++ (t, w) :: l2 →
    match t with
    | OnEstablished e => established_handle e ∈ registry (resources w) ∧
                         is_published (links w (established_connection e)) = true
    | OnPacket _ => True
    | OnClosed x => ∀ c, c ∈ registry (resources w) → trigger_id x ≠ Some (ecs_id c)
    end.
Proof.
  intros Hes Hb. pose proof (frames_inv es b [] Hes (proj1 Hb) (fresh_inv b Hb)) as Hinv.
  destruct (frames observe datagram es b) as [b' seen]. cbn in Hinv. destruct Hinv as [_ _ Hr Hent _].
  split; [done|]. intros l1 [] w l2 Heq; [apply (Hent _ _ _ Heq)|done|apply (Hent _ _ _ Heq)].
Qed.

(** C10. Over datagrams, where packets do not share the lifecycle channel, an
    observer is still told of a connection's packet only after it has been told
    of the connection; and never once the connection is cancelled: the packet's
    connection is live when the observer runs, and was live whenever any observer
    ran before it. *)
Theorem datagrams_follow_establishment es b l1 e w l2 :
  Forall env_ok es → fresh b → datagram = true →
  (frames observe datagram es b).2 = l1 ++ (OnPacket e, w) :: l2 →
  established_in l1 (event_connection e) ∧
  is_cancelled (event_connection e) w = false ∧
  ∀ t' w', (t', w') ∈ l1 → is_cancelled (event_connection e) w' = false.
Proof.
  intros Hes Hb Hdg Heq. pose proof (frames_inv es b [] Hes (proj1 Hb) (fresh_inv b Hb)) as Hinv.
  cbn in Hinv. by apply (li_entries _ _ Hinv _ _ _ Heq).
Qed.
End Frames.
