(* ===== verification/Establish.v ===== *)
(** * From an accepted or connected stream to its tasks

    Models the part of a connection's life that src/src/client.rs and
    src/src/server.rs share before its receive task runs: announcing the
    connection to ECS and handing it to the transport task
    ([ConnectionAttempt::publish], [ConnectedTransport::establish]), and
    splitting it and starting its tasks ([ConnectedTransport::run]). *)

From S2P Require Import Prelude Protocol Lossy Externals Settings Queue Connection Receive Endpoint.

(** [ConnectedTransport]: a connection on its way to the transport task. *)
Record ConnectedTransport (NS Ser LS Addr : Type) := {
  connection : RawConnection NS Ser LS;
  ecs_side : EcsConnection Addr;
}.
Arguments connection {NS Ser LS Addr}. Arguments ecs_side {NS Ser LS Addr}.
Arguments Build_ConnectedTransport {NS Ser LS Addr}.

Section Establish.
Context `{Target} {L : Type} `{CancellationToken L} {Ch : Type → Type} `{Mpsc Ch}.
Context {NS Hd Addr : Type} `{TransportHandle Hd} `{NetworkStream NS Hd Addr}.
Context {T P E D Ser LS DecErr LenErr : Type}.

Abbreviation message := (IncomingMessage P E D).
Abbreviation link := (Link L Ch Hd T).

(** Dropping a handle, which is a sender of the outgoing queue; and dropping a
    connection, whose receiver records what is left in the queue. *)
Definition drop_handle (k : link) : link :=
  {| disconnect_task := disconnect_task k; published := published k;
     packet_tx := sender_drop (packet_tx k); transport := transport k |}.
Definition drop_connection (raw : RawConnection NS Ser LS) (k : link) : link := (into_stream raw k).2.

(** The outcome of an announcement: the channels, what the connection's handles
    share, the message that went out, what [publish] answers, and whether the
    transport task has the connection. *)
Record announcement := {
  an_incoming : Ch message;
  an_transports : Ch (ConnectedTransport NS Ser LS Addr);
  an_link : link;
  an_sent : list message;
  an_answer : Poll bool;
  an_transport : option (ConnectedTransport NS Ser LS Addr);
}.

(** [incoming.send(Established(..))] and then [connection_sender.send(..)]:
    [false] when the establishment channel is closed. [established] builds the
    event from the handle; the waits are the others' changes while a send
    waits for room. *)
Definition announce (raw : RawConnection NS Ser LS) (token : L) (packets : Outgoing Ch T)
    (established : EcsConnection Addr → E) (incoming : Ch message)
    (transports : Ch (ConnectedTransport NS Ser LS Addr))
    (waits : list (Ch message → Ch message))
    (transport_waits : list (Ch (ConnectedTransport NS Ser LS Addr) → Ch (ConnectedTransport NS Ser LS Addr)))
    : announcement :=
  let '(ecs, k) := ecs_connection raw token packets in
  let '(clone, k) := ecs_clone ecs k in
  let m := Established (established clone) in
  let t := {| connection := raw; ecs_side := ecs |} in
  match mpsc_send incoming m waits with
  | (c, Pending) =>
      {| an_incoming := c; an_transports := transports; an_link := k; an_sent := [];
         an_answer := Pending; an_transport := None |}
  | (c, Ready (Err _)) =>
      {| an_incoming := c; an_transports := transports; an_link := drop_handle (drop_handle (drop_connection raw k)); an_sent := [];
         an_answer := Ready false; an_transport := None |}
  | (c, Ready (Ok _)) =>
      match mpsc_send transports t transport_waits with
      | (d, Pending) =>
          {| an_incoming := c; an_transports := d; an_link := k; an_sent := [m];
             an_answer := Pending; an_transport := None |}
      | (d, Ready (Err _)) =>
          {| an_incoming := c; an_transports := d; an_link := drop_handle (drop_connection raw k); an_sent := [m];
             an_answer := Ready true; an_transport := None |}
      | (d, Ready (Ok _)) =>
          {| an_incoming := c; an_transports := d; an_link := k; an_sent := [m];
             an_answer := Ready true; an_transport := Some t |}
      end
  end.

(** ** [ConnectedTransport::run]

    The transport task takes the connection and splits its stream. [closed_event]
    is how the side reports a closure, [moves_handle] whether the closing event
    owns the handle (the server's does), [notify] the address the server tells
    its listener of; dropped datagrams are recorded on their own connections. *)

Variable datagram : bool.
Variable closed_event : EcsConnection Addr → ReceiveError DecErr LenErr → D.
Variable moves_handle : bool.
Variable notify : ConnectedTransport NS Ser LS Addr → option Addr.

Abbreviation store := (ConnectionId → link).

Definition on_evict (e : PacketReceiveEvent P) (s : store) : store :=
  alter (ecs_record_drop ReceiveQueueEvicted) (event_connection e) s.
Definition record_full (i : ConnectionId) (s : store) : store :=
  alter (ecs_record_drop ReceiveQueueFull) i s.

Definition receive_task (t : ConnectedTransport NS Ser LS Addr) :=
  receive_packets (Ch:=Ch) (E:=E) datagram (raw_id (connection t)) (closed_event (ecs_side t))
    on_evict (record_full (raw_id (connection t))) (notify t).

(** The messages the connection's transport side sends: the task's, or one
    closure if the stream does not split. *)
Definition run (t : ConnectedTransport NS Ser LS Addr) (split : result () io_error)
    (incoming : Ch message) (waits : list (Ch message → Ch message))
    (polls : list (recv_poll Ch P E D DecErr LenErr Addr store))
    (q : Shared (PacketReceiveEvent P)) (disconnects : Ch Addr) (handles : store)
    : store * list message :=
  match split with
  | Err err =>
      let handles := alter disconnect (raw_id (connection t)) handles in
      let m := ClosedMessage (closed_event (ecs_side t) (Io err)) in
      match mpsc_send incoming m waits with
      | (_, Pending) => (handles, [])
      | (_, Ready r) =>
          let release k := if moves_handle && is_ok r then k else drop_handle k in
          (alter (release ∘ drop_connection (connection t)) (raw_id (connection t)) handles,
           match r with Ok _ => [m] | Err _ => [] end)
      end
  | Ok _ =>
      let task := receive_task t polls incoming q disconnects handles in
      (Receive.handles task, sent task)
  end.

(** Everything one connection sends to ECS, from its announcement on. *)
Definition connection_messages (raw : RawConnection NS Ser LS) (token : L) (packets : Outgoing Ch T)
    (established : EcsConnection Addr → E) incoming transports waits transport_waits
    (split : result () io_error) incoming' waits' polls q disconnects handles : list message :=
  let a := announce raw token packets established incoming transports waits transport_waits in
  an_sent a ++
  match an_transport a with
  | None => []
  | Some t => (run t split incoming' waits' polls q disconnects handles).2
  end.
End Establish.
Arguments announcement L Ch NS Hd Addr T P E D Ser LS : clear implicits.

(** ** Properties *)

Section Properties.
Context `{Target} {L : Type} `{CancellationToken L} {Ch : Type → Type} `{MpscLaws Ch}.
Context {NS Hd Addr : Type} `{TransportHandle Hd} `{NetworkStream NS Hd Addr}.
Context {T P E D Ser LS DecErr LenErr : Type}.
Variable datagram : bool.
Variable closed_event : EcsConnection Addr → ReceiveError DecErr LenErr → D.
Variable moves_handle : bool.
Variable notify : ConnectedTransport NS Ser LS Addr → option Addr.

(** What a completed or pending send did: the message went in exactly when the
    send answered [Ok]. *)
Lemma poll_send_cases {M} (c : Ch M) m c' r : mpsc_poll_send c m = (c', r) →
  match r with
  | Ready (Ok _) => mpsc_is_closed c = false ∧ mpsc_items c' = mpsc_items c ++ [m]
  | Ready (Err x) => x = m ∧ mpsc_is_closed c' = true
  | Pending => mpsc_is_closed c' = false
  end.
Proof.
  intros Hp. apply mpsc_poll_send_view in Hp as (Hc & _ & _ & Hv).
  destruct (mpsc_is_closed c); [by destruct Hv as [-> _]|].
  case_match; by destruct Hv as [-> Hi].
Qed.

Lemma mpsc_send_outcome {M} (c : Ch M) m waits c' r : mpsc_send c m waits = (c', r) →
  match r with
  | Ready (Ok _) => ∃ c0, mpsc_is_closed c0 = false ∧ mpsc_items c' = mpsc_items c0 ++ [m] ∧
                          (waits = [] → c0 = c)
  | Ready (Err x) => x = m ∧ mpsc_is_closed c' = true
  | Pending => mpsc_is_closed c' = false
  end.
Proof.
  revert c; induction waits as [|f waits IH]; intros c; cbn;
    destruct (mpsc_poll_send c m) as [c1 [r1|]] eqn:Hp; apply poll_send_cases in Hp.
  2: by intros [= <- <-].
  1,2: intros [= <- <-]; destruct r1; [destruct Hp; eauto|done].
  intros Hs. apply IH in Hs. destruct r as [[]|]; [|done..].
  destruct Hs as (c0 & ? & ? & _). by exists c0.
Qed.

(** Once its receiver is dropped, a connection's queue refuses every packet. *)
Lemma drop_connection_closed raw (k : Link L Ch Hd T) :
  sender_is_closed (packet_tx (drop_connection (NS:=NS) (Ser:=Ser) (LS:=LS) raw k)) = true.
Proof.
  unfold drop_connection, into_stream, receiver_drop.
  destruct (packet_tx k) as [c|q]; destruct (negb _).
  - cbn. apply mpsc_drop_receiver_view.
  - cbn [fst snd]. destruct (drain_loop _ _ _) as [c' h']. cbn. apply mpsc_drop_receiver_view.
  - done.
  - done.
Qed.

Lemma drop_handle_closed (k : Link L Ch Hd T) :
  sender_is_closed (packet_tx (drop_handle k)) = sender_is_closed (packet_tx k).
Proof.
  unfold drop_handle. cbn. destruct (packet_tx k) as [c|q]; cbn; [|done].
  apply mpsc_drop_sender_view.
Qed.

(** What [announce] did, by its answer. *)
Lemma announce_outcome (raw : RawConnection NS Ser LS) (token : L) (packets : Outgoing Ch T)
    (established : EcsConnection Addr → E) (incoming : Ch (IncomingMessage P E D))
    transports waits transport_waits :
  let n := announce raw token packets established incoming transports waits transport_waits in
  let ecs := (ecs_connection raw token packets).1 in
  match an_answer n with
  | Ready true => an_sent n = [Established (established ecs)]
  | Ready false => an_sent n = [] ∧ mpsc_is_closed (an_incoming n) = true
  | Pending => an_sent n = [] ∨ an_sent n = [Established (established ecs)]
  end ∧
  match an_transport n with
  | Some t => connection t = raw ∧ ecs_side t = ecs ∧ an_answer n = Ready true ∧
              an_link n = (ecs_clone ecs (ecs_connection raw token packets).2).2
  | None => an_answer n = Pending ∨ sender_is_closed (packet_tx (an_link n)) = true
  end.
Proof.
  unfold announce. cbn [ecs_connection ecs_clone fst snd].
  destruct (mpsc_send incoming _ waits) as [c [[u|m]|]] eqn:Hs;
    cbn [an_answer an_sent an_incoming an_transport an_link].
  2: { apply mpsc_send_outcome in Hs as [_ Hs]. split; [done|]. right.
       by rewrite !drop_handle_closed, drop_connection_closed. }
  2: { split; by left. }
  destruct (mpsc_send transports _ transport_waits) as [d [[v|t]|]];
    cbn [an_answer an_sent an_incoming an_transport an_link];
    split; try done; try (by right); try (by left).
  right. by rewrite drop_handle_closed, drop_connection_closed.
Qed.

Lemma run_messages (t : ConnectedTransport NS Ser LS Addr) split incoming waits polls q dis handles :
  Forall (no_reopen (P:=P) (E:=E) (D:=D)) polls →
  ∃ packets closing,
    (run (T:=T) (Hd:=Hd) (L:=L) datagram closed_event moves_handle notify t split incoming waits polls q dis handles).2 =
      (StreamPacket <$> packets) ++ (ClosedMessage ∘ closed_event (ecs_side t) <$> closing) ∧
    (length closing ≤ 1)%nat ∧ Forall (λ e, event_connection e = raw_id (connection t)) packets ∧
    (datagram = true → packets = []).
Proof.
  intros Hall. unfold run. destruct split as [u|err].
  - destruct (receive_packets_ok datagram (raw_id (connection t)) (closed_event (ecs_side t)) on_evict
      (record_full (raw_id (connection t))) (notify t) polls incoming q dis handles Hall) as [Hi Ho Hs Hf].
    cbn [snd]. change (receive_packets datagram _ _ _ _ _ _ _ _ _ _) with
      (receive_task datagram closed_event notify t polls incoming q dis handles) in *.
    set (task := receive_task _ _ _ _ _ _ _ _ _) in *.
    exists (if datagram then [] else forwarded task).
    assert (Hst : streams datagram task = StreamPacket <$> (if datagram then [] else forwarded task))
      by (unfold streams; by destruct datagram).
    assert (Hids : Forall (λ e, event_connection e = raw_id (connection t))
      (if datagram then [] else forwarded task)).
    { destruct datagram; [done|]. unfold ids, order_ok in *.
      destruct (at_ task); [rewrite Ho in Hi; done| destruct Ho as [Ho _]; rewrite Ho in Hi| | |].
      1: by apply Forall_app in Hi as [Hi _].
      all: destruct Ho as [Ho|[? Ho]]; rewrite Ho in Hi; [done|]; by apply Forall_app in Hi as [Hi _]. }
    rewrite <- Hst. unfold sent_ok in Hs. destruct (ended task); [destruct Hs as [[e Hs]|[Hs _]]|];
      [exists [e] | exists [] | exists []]; rewrite Hs; cbn; rewrite ?app_nil_r;
      split_and!; try done; try lia; by intros ->.
  - exists []. destruct (mpsc_send _ _ _) as [c [[u|m]|]]; [exists [Io err] | exists [] | exists []];
      cbn; split_and!; done || lia.
Qed.

(** C8. The life of a connection as ECS hears of it, on either side, streams and
    datagrams: nothing; or its establishment first, then packets of this
    connection in order (none over datagrams, which travel apart), then at most
    one closure, carrying this connection's own handle, and nothing after. No
    message of a connection ever precedes its establishment, whatever the channel
    capacities, the split and the rest of the program do. *)
Theorem connection_messages_shape (raw : RawConnection NS Ser LS) (token : L) (packets_tx : Outgoing Ch T)
    (established : EcsConnection Addr → E) incoming transports waits transport_waits
    split incoming' waits' polls q dis handles :
  Forall (no_reopen (P:=P) (E:=E) (D:=D)) polls →
  let ecs := (ecs_connection raw token packets_tx).1 in
  let messages := connection_messages datagram closed_event moves_handle notify raw token packets_tx
    established incoming transports waits transport_waits split incoming' waits' polls q dis handles in
  messages = [] ∨
  ∃ packets closing,
    messages = Established (established ecs) :: (StreamPacket <$> packets) ++
                 (ClosedMessage ∘ closed_event ecs <$> closing) ∧
    (length closing ≤ 1)%nat ∧ Forall (λ e, event_connection e = ecs_id ecs) packets ∧
    (datagram = true → packets = []).
Proof.
  intros Hall. cbn zeta. unfold connection_messages, announce. cbn [ecs_connection ecs_clone fst].
  destruct (mpsc_send incoming _ waits) as [c [[u|m]|]]; cbn; [|by left..].
  right. destruct (mpsc_send transports _ transport_waits) as [d [[v|t]|]]; cbn.
  - set (t := Build_ConnectedTransport raw _).
    destruct (run_messages t split incoming' waits' polls q dis handles Hall)
      as (packets & closing & Hm & Hc & Hids & Hdg).
    exists packets, closing. rewrite Hm. by split_and!.
  - exists [], []. split_and!; done || (cbn; lia).
  - exists [], []. split_and!; done || (cbn; lia).
Qed.
End Properties.
