(* ===== verification/Client.v ===== *)
(** * The client

    Models src/src/client.rs on top of the shared parts: the client's events and
    registry, connection requests and attempts, and what [setup] creates. *)

From S2P Require Import Prelude Protocol Lossy Externals Settings Queue Serializer Connection Receive Endpoint Establish.

Local Open Scope Z_scope.

Definition MAX_CONNECTION_ATTEMPTS : Z := 8.

(** ** Addresses

    [ConnectionRequestEvent::new] and [ClientPlugin::connect] take the first
    address a name resolves to, and panic when there is none; [resolved] is what
    [to_socket_addrs] answers. *)
Definition first_address {Addr} (resolved : result (list Addr) io_error) : outcome Addr :=
  match resolved with
  | Ok (a :: _) => Returns a
  | Ok [] | Err _ => Panics
  end.

Section Events.
Context {Addr DecErr LenErr : Type}.

(** [ConnectionRequestEvent], and its clone, which resolves the address again:
    a socket address resolves to itself. *)
Record ConnectionRequestEvent := { request_address : Addr }.
Definition request_new (resolved : result (list Addr) io_error) : outcome ConnectionRequestEvent :=
  match first_address resolved with
  | Returns a => Returns {| request_address := a |}
  | Panics => Panics
  end.
Definition request_clone (e : ConnectionRequestEvent) : outcome ConnectionRequestEvent :=
  request_new (Ok [request_address e]).

Record ConnectionEstablishEvent := { address : Addr; handle : EcsConnection Addr }.

Record DisconnectionEvent := {
  error : ReceiveError DecErr LenErr;
  server_address : Addr;
  connection_id : option ConnectionId;
}.

(** [ConnectionClosed]: the closing message of a connection, or of an attempt.
    [new] is its only constructor, which makes the two identities equal. *)
Record ConnectionClosed := {
  event : DisconnectionEvent;
  id : option ConnectionId;
  same_id : connection_id event = id;
}.

Definition closed_new (error : ReceiveError DecErr LenErr) (address : Addr)
    (id : option ConnectionId) : ConnectionClosed :=
  {| event := {| error := error; server_address := address; connection_id := id |};
     id := id; same_id := eq_refl |}.

(** ** The registry

    [ClientConnections] and the [ClientConnection] resource, which the systems
    keep at the latest connection. *)

Definition ClientConnections := list (EcsConnection Addr).

Definition register (c : EcsConnection Addr) (l : ClientConnections) : ClientConnections := l ++ [c].

Definition remove_connection (i : ConnectionId) (l : ClientConnections)
    : ClientConnections * option (EcsConnection Addr) :=
  let l := filter (λ c, ecs_id c ≠ i) l in (l, last l).

Record ClientResources := {
  client_connection : option (EcsConnection Addr);
  client_connections : ClientConnections;
}.

(** What [incoming_system]'s commands do to the resources. *)
Definition client_established (e : ConnectionEstablishEvent) (r : ClientResources) : ClientResources :=
  {| client_connection := Some (handle e);
     client_connections := register (handle e) (client_connections r) |}.

Definition client_closed (d : ConnectionClosed) (r : ClientResources) : ClientResources :=
  match id d with
  | None => r
  | Some i =>
      let '(l, fallback) := remove_connection i (client_connections r) in
      {| client_connection := fallback; client_connections := l |}
  end.
End Events.
Arguments ConnectionRequestEvent Addr : clear implicits.
Arguments ConnectionEstablishEvent Addr : clear implicits.
Arguments ConnectionClosed Addr DecErr LenErr : clear implicits.
Arguments DisconnectionEvent Addr DecErr LenErr : clear implicits.
Arguments ClientResources Addr : clear implicits.

#[export] Instance client_endpoint {Addr DecErr LenErr} :
  Endpoint (ClientResources Addr) (ConnectionEstablishEvent Addr)
    (ConnectionClosed Addr DecErr LenErr) (DisconnectionEvent Addr DecErr LenErr) := {
  established_connection e := ecs_id (handle e);
  register_established := client_established;
  register_closed := client_closed;
  closed_trigger := event;
}.

Section Client.
Context `{Target} {L : Type} `{CancellationToken L} {Ch : Type → Type} `{Mpsc Ch}.
Context {NS Hd Addr : Type} `{TransportHandle Hd} `{NetworkStream NS Hd Addr}.
Context {T P Ser LS DecErr LenErr : Type}.

Abbreviation client_message :=
  (IncomingMessage P (ConnectionEstablishEvent Addr) (ConnectionClosed Addr DecErr LenErr)).

(** ** [setup]: the channels of a client, at the capacities of its queues *)

Record ClientSetup := {
  request_channel : Ch Addr;
  incoming_messages : Ch client_message;
  connection_channel : Ch (ConnectedTransport NS Ser LS Addr);
  datagram_packets : Shared (PacketReceiveEvent P);
  has_datagram_system : bool;
}.

Definition setup (datagram : bool) (queues : NetworkQueueSettings) : ClientSetup := {|
  request_channel := incoming_channel queues;
  incoming_messages := incoming_channel queues;
  connection_channel := incoming_channel queues;
  datagram_packets := lossy_channel (Z.max (receive_capacity queues) 1) usize_max
                        (datagram_receive_overflow queues);
  has_datagram_system := datagram |}.

Definition setup_system (datagram : bool) (e : EndpointSetup) : ClientSetup * ReceiveLimits :=
  (setup datagram (setup_queues e), setup_receive_limits e).

(** ** Connection requests

    The observer of [ConnectionRequestEvent]: a request that does not fit is
    answered by an event at once. *)
Definition observe_request (e : ConnectionRequestEvent Addr) (requests : Ch Addr)
    : Ch Addr * option (DisconnectionEvent Addr DecErr LenErr) :=
  match mpsc_try_send requests (request_address e) with
  | (requests, Ok _) => (requests, None)
  | (requests, Err err) =>
      let kind := match err with Full _ => WouldBlock | Closed _ => BrokenPipe end in
      (requests, Some (event (closed_new (NoConnection (io_error_from kind)) (request_address e) None)))
  end.

(** ** Attempts *)

Record ConnectionAttempt := {
  attempt_address : Addr;
  packets : Outgoing Ch T;
  attempt : result (RawConnection NS Ser LS) io_error;
}.

(** [create_connection]: [connected] is what [connect_to_server] answers. *)
Definition create_connection (connected : result NS io_error) (ser : Ser) (pls : LS)
    (packet_rx : OutgoingReceiver) (limits : ReceiveLimits) (counter : Z)
    : result (RawConnection NS Ser LS) io_error * Z :=
  match connected with
  | Err err => (Err err, counter)
  | Ok stream =>
      let '(raw, counter) := with_limits stream ser pls packet_rx limits counter in (Ok raw, counter)
  end.

(** One request of [process_connection_requests], from its address to its
    attempt. *)
Definition request_attempt (queues : NetworkQueueSettings) (datagram : bool) (limits : ReceiveLimits)
    (addr : Addr) (connected : result NS io_error) (ser : Ser) (pls : LS) (counter : Z)
    : ConnectionAttempt * Z :=
  let '(tx, rx) := outgoing_channel queues datagram in
  let '(res, counter) := create_connection connected ser pls rx limits counter in
  ({| attempt_address := addr; packets := tx; attempt := res |}, counter).

(** [ConnectionAttempt::publish]. *)
Definition publish (a : ConnectionAttempt) (token : L) (incoming : Ch client_message)
    (transports : Ch (ConnectedTransport NS Ser LS Addr))
    (waits : list (Ch client_message → Ch client_message))
    (transport_waits : list (Ch (ConnectedTransport NS Ser LS Addr) → Ch (ConnectedTransport NS Ser LS Addr)))
    : Ch client_message * Poll bool * list client_message *
      option (announcement L Ch NS Hd Addr T P (ConnectionEstablishEvent Addr)
                (ConnectionClosed Addr DecErr LenErr) Ser LS) :=
  match attempt a with
  | Ok raw =>
      let n := announce raw token (packets a)
        (λ ecs, {| address := attempt_address a; handle := ecs |})
        incoming transports waits transport_waits in
      (an_incoming n, an_answer n, an_sent n, Some n)
  | Err err =>
      let m := ClosedMessage (closed_new (NoConnection err) (attempt_address a) None) in
      match mpsc_send incoming m waits with
      | (c, Pending) => (c, Pending, [], None)
      | (c, Ready (Err _)) => (c, Ready true, [], None)
      | (c, Ready (Ok _)) => (c, Ready true, [m], None)
      end
  end.

(** How a client reports a connection's closure ([run] and [receive_packets]),
    and its side of the tasks: no listener to notify, and the handle is dropped. *)
Definition client_closed_event (ecs : EcsConnection Addr) (e : ReceiveError DecErr LenErr)
    : ConnectionClosed Addr DecErr LenErr :=
  closed_new e (ecs_peer_addr ecs) (Some (ecs_id ecs)).

Definition client_run (datagram : bool) (t : ConnectedTransport NS Ser LS Addr) :=
  run (L:=L) (T:=T) (Hd:=Hd) (Ch:=Ch) (P:=P) (E:=ConnectionEstablishEvent Addr)
    datagram client_closed_event false (λ _, None) t.

Definition client_receive_packets (datagram : bool) (t : ConnectedTransport NS Ser LS Addr) :=
  receive_task (L:=L) (T:=T) (Hd:=Hd) (Ch:=Ch) (P:=P) (E:=ConnectionEstablishEvent Addr)
    datagram client_closed_event (λ _, None) t.

(** ** The systems *)

Definition client_incoming_system :=
  incoming_system (Ch:=Ch) (P:=P) (E:=ConnectionEstablishEvent Addr)
    (D:=ConnectionClosed Addr DecErr LenErr).

Definition client_receive_datagram_packets :=
  receive_datagram_packets (L:=L) (Ch:=Ch) (Hd:=Hd) (T:=T) (P:=P) (R:=ClientResources Addr)
    (E:=ConnectionEstablishEvent Addr) (D:=ConnectionClosed Addr DecErr LenErr).
End Client.
Arguments ClientSetup Ch NS Addr P Ser LS DecErr LenErr : clear implicits.
Arguments ConnectionAttempt Ch NS Addr T Ser LS : clear implicits.

(** ** The registry's laws *)

Lemma client_closed_connections {Addr DecErr LenErr} (d : ConnectionClosed Addr DecErr LenErr)
    (r : ClientResources Addr) :
  client_connections (client_closed d r) =
    filter (λ c, Some (ecs_id c) ≠ id d) (client_connections r).
Proof.
  unfold client_closed. destruct (id d) as [i|]; cbn.
  - apply list_filter_iff. intros c. split; congruence.
  - symmetry. by apply filter_all, Forall_true.
Qed.

#[export] Program Instance client_endpoint_laws {Addr DecErr LenErr} :
  EndpointLaws Addr (ClientResources Addr) (ConnectionEstablishEvent Addr)
    (ConnectionClosed Addr DecErr LenErr) (DisconnectionEvent Addr DecErr LenErr) := {
  registry := client_connections;
  established_handle := handle;
  closed_id := id;
  trigger_id := connection_id;
  resources_ok r := client_connection r = last (client_connections r);
}.
Next Obligation. done. Qed.
Next Obligation. done. Qed.
Next Obligation. intros. apply client_closed_connections. Qed.
Next Obligation. intros. apply same_id. Qed.
Next Obligation. intros Addr DecErr LenErr e r _. cbn. unfold register. by rewrite last_snoc. Qed.
Next Obligation.
  intros Addr DecErr LenErr d r Hr. cbn. unfold client_closed. by destruct (id d).
Qed.

(** ** Properties *)

Section Properties.
Context `{Target} {L : Type} `{CancellationToken L} {Ch : Type → Type} `{MpscLaws Ch}.
Context {NS Hd Addr : Type} `{TransportHandle Hd} `{NetworkStream NS Hd Addr}.
Context {T P Ser LS DecErr LenErr : Type}.

(** C21. The [ClientConnection] resource is always the latest connection still
    open: in every world an observer sees, and between frames, it is the last
    entry of the registry, so it is there exactly while some announced connection
    has not been reported closed; a failed attempt changes nothing, and closing
    the latest connection falls back to the one before. *)
Theorem client_resource_is_latest datagram
    (observe : trigger P (ConnectionEstablishEvent Addr) (DisconnectionEvent Addr DecErr LenErr) →
               World L Ch Hd T (ClientResources Addr) → World L Ch Hd T (ClientResources Addr))
    (es : list (frame_env L Ch Hd T P (ClientResources Addr) (ConnectionEstablishEvent Addr)
                  (ConnectionClosed Addr DecErr LenErr))) b :
  (∀ t w, evolves w (observe t w)) → Forall (env_ok datagram) es → fresh datagram b →
  let '(b', seen) := frames observe datagram es b in
  (∀ w, w = world b' ∨ (∃ t, (t, w) ∈ seen) →
     client_connection (resources w) = last (client_connections (resources w))) ∧
  match client_connection (resources (world b')) with
  | Some c => open_in seen c
  | None => ∀ c, ¬ open_in seen c
  end.
Proof.
  intros Hobs Hes Hb.
  pose proof (frames_inv observe datagram Hobs es b [] Hes (proj1 Hb) (fresh_inv datagram b Hb)) as Hinv.
  destruct (frames observe datagram es b) as [b' seen]. cbn in Hinv.
  destruct Hinv as [_ _ Hreg _ [Hlast Hseen]]. cbn in *. split.
  { intros w [->|[t Hin]]; [done|]. by apply (proj1 (Forall_forall _ _) Hseen) in Hin. }
  rewrite Hlast. destruct (last _) as [c|] eqn:Hl.
  - apply Hreg. apply last_Some in Hl as [l' ->]. apply elem_of_app. right. by constructor.
  - apply last_None in Hl. intros c Hc. apply Hreg in Hc. rewrite Hl in Hc.
    by apply not_elem_of_nil in Hc.
Qed.

(** Every connection attempt is answered, once. A failed one is reported to
    ECS as [NoConnection] without an identity, and never stops the request loop.
    A successful one is announced before its transport task gets it, with the
    handle ECS will use; if the ECS has gone the loop stops, and a connection
    that no task gets is closed: every packet sent on it comes back. *)
Theorem publish_outcome (a : ConnectionAttempt Ch NS Addr T Ser LS) (token : L)
    (incoming : Ch (IncomingMessage P (ConnectionEstablishEvent Addr) (ConnectionClosed Addr DecErr LenErr)))
    transports waits transport_waits c answer sent n :
  publish a token incoming transports waits transport_waits = (c, answer, sent, n) →
  match attempt a with
  | Err err =>
      answer ≠ Ready false ∧
      (sent = [] ∨ sent = [ClosedMessage (closed_new (NoConnection err) (attempt_address a) None)]) ∧
      (answer = Ready true → sent = [] → mpsc_is_closed c = true)
  | Ok raw =>
      let ecs := (ecs_connection raw token (packets a)).1 in
      let m := Established {| address := attempt_address a; handle := ecs |} in
      match answer with
      | Ready true => sent = [m]
      | Ready false => sent = [] ∧ mpsc_is_closed c = true
      | Pending => sent = [] ∨ sent = [m]
      end ∧
      ∃ n', n = Some n' ∧
      match an_transport n' with
      | Some t => connection t = raw ∧ ecs_side t = ecs ∧ sent = [m]
      | None => answer = Pending ∨
                ∀ packet, ∃ k, Connection.send packet (an_link n') = (k, Err (SendClosed packet))
      end
  end.
Proof.
  unfold publish. destruct (attempt a) as [raw|err].
  - intros [= <- <- <- <-].
    destruct (announce_outcome raw token (packets a)
      (λ ecs, {| address := attempt_address a; handle := ecs |}) incoming transports waits
      transport_waits) as [Hans Htr]. cbn zeta in *. split; [done|]. eexists. split; [done|].
    destruct (an_transport _) as [t|].
    + destruct Htr as (-> & -> & Ha & _). by rewrite Ha in Hans.
    + destruct Htr as [Ha|Hc]; [by left|]. right. intros packet. by apply send_closed_queue.
  - destruct (mpsc_send incoming _ waits) as [c1 [[u|x]|]] eqn:Hs; intros [= <- <- <- <-];
      apply mpsc_send_outcome in Hs; split_and!; try done; auto. by destruct Hs.
Qed.
End Properties.

(** ** A concrete client

    Connections 1 and 2 are established, an attempt fails and 2 is closed;
    packets of 1, 1 and 3 are queued, and the observer disconnects a connection
    when it gets a packet of it. *)

Definition example_handle (n : Z) : EcsConnection nat :=
  {| ecs_id := {| connection_number := n |}; ecs_local_addr := 0%nat; ecs_peer_addr := 80%nat |}.

Abbreviation example_establish := (ConnectionEstablishEvent nat).
Abbreviation example_closed := (ConnectionClosed nat () ()).
Abbreviation example_world := (World bool fifo (list QueueDropReason) Z (ClientResources nat)).
Abbreviation example_inbox :=
  (Inbox bool fifo (list QueueDropReason) Z Z (ClientResources nat) example_establish example_closed).

Definition example_messages : list (IncomingMessage Z example_establish example_closed) :=
  [Established {| address := 80%nat; handle := example_handle 1 |};
   Established {| address := 80%nat; handle := example_handle 2 |};
   ClosedMessage (closed_new (NoConnection (io_error_from ConnectionRefused)) 81%nat None);
   ClosedMessage (client_closed_event (example_handle 2) IntentionalDisconnection)].

Definition example_packet (n x : Z) : PacketReceiveEvent Z :=
  {| event_connection := {| connection_number := n |}; event_packet := x; event_received_at := 0 |}.

Definition example_datagrams : Shared (PacketReceiveEvent Z) :=
  foldl (λ q e, (try_send q e 1).1.1) (lossy_channel 4 usize_max DropNewest)
    [example_packet 1 10; example_packet 1 11; example_packet 3 12].

Definition example_start : example_inbox := {|
  messages := Build_fifo example_messages 8 false 1;
  datagrams := example_datagrams;
  world := {| resources := {| client_connection := None; client_connections := [] |};
              links _ := {| disconnect_task := false; published := false;
                            packet_tx := Reliable (mpsc_channel 4); transport := [] |} |} |}.

Definition example_observer (t : trigger Z example_establish (DisconnectionEvent nat () ()))
    (w : example_world) : example_world :=
  match t with OnPacket e => update_link (event_connection e) disconnect w | _ => w end.

Definition quiet : frame_env bool fifo (list QueueDropReason) Z Z (ClientResources nat)
    example_establish example_closed := {|
  fe_queues := None; fe_settings := None; fe_before b := b; fe_commands b := b;
  fe_between b := b; fe_datagram_commands b := b |}.

Example example_frames_run :
  let '(b, seen) := frames example_observer true [quiet] example_start in
  (client_connection (resources (world b)), length seen,
   transport (links (world b) {| connection_number := 1 |}), length (items (state (datagrams b)))) =
  (Some (example_handle 1), 5%nat, [ClosedBeforeDelivery], 1%nat).
Proof. by vm_compute. Qed.

Lemma quiet_ok d : env_ok d quiet.
Proof. by split; intros b Hb; split. Qed.

Lemma example_observer_ok t w : evolves w (example_observer t w).
Proof.
  assert (Hid : evolves w w) by by split. destruct t as [e|e|x]; cbn; [done| |done].
  split; [done| |]; intros i; unfold is_cancelled, is_published; cbn;
    destruct (decide (event_connection e = i)) as [->|Hi];
    by rewrite ?fn_lookup_alter, ?fn_lookup_alter_ne by done.
Qed.

Lemma example_datagrams_wf : wf example_datagrams.
Proof.
  assert (Hpush : ∀ (q : Shared (PacketReceiveEvent Z)) e, wf q → max_bytes q = usize_max →
    wf (try_send q e 1).1.1 ∧ max_bytes (try_send q e 1).1.1 = usize_max).
  { intros q e Hwf Hm. pose proof usize_max_ge.
    pose proof (run_op_wf q (OpTrySend e 1 (λ _, true)) Hwf ltac:(cbn; lia)) as Hq.
    pose proof (run_op_limits q (OpTrySend e 1 (λ _, true)) Hwf ltac:(cbn; lia)) as Hl.
    cbn in Hq, Hl. unfold try_send. destruct (try_send_where q e 1 _) as [[q' sg] r]. cbn in *.
    split; [done|]. destruct Hl as (? & ? & ?). congruence. }
  assert (H0 : wf (lossy_channel (T:=PacketReceiveEvent Z) 4 usize_max DropNewest)).
  { apply lossy_channel_wf; pose proof usize_max_ge; lia. }
  unfold example_datagrams. cbn [foldl].
  destruct (Hpush _ (example_packet 1 10) H0 eq_refl) as [H1 E1].
  destruct (Hpush _ (example_packet 1 11) H1 E1) as [H2 E2].
  exact (proj1 (Hpush _ (example_packet 3 12) H2 E2)).
Qed.

Lemma example_start_fresh : fresh true example_start.
Proof.
  split_and!; try done. split; [exact example_datagrams_wf|]. intros _. by repeat constructor.
Qed.

Definition example_seen := (frames example_observer true [quiet] example_start).2.

Lemma client_resource_is_latest_witness :
  Forall (env_ok true) [quiet] ∧ fresh true example_start ∧
  let '(b', seen) := frames example_observer true [quiet] example_start in
  (∀ w, w = world b' ∨ (∃ t, (t, w) ∈ seen) →
     client_connection (resources w) = last (client_connections (resources w))) ∧
  match client_connection (resources (world b')) with
  | Some c => open_in seen c
  | None => ∀ c, ¬ open_in seen c
  end.
Proof.
  assert (He : Forall (env_ok true) [quiet]) by (constructor; [apply quiet_ok|done]).
  split; [exact He|]. split; [exact example_start_fresh|].
  exact (client_resource_is_latest true example_observer [quiet] example_start
    example_observer_ok He example_start_fresh).
Defined.

Lemma registry_is_open_connections_witness :
  Forall (env_ok true) [quiet] ∧ fresh true example_start ∧
  let '(b', seen) := frames example_observer true [quiet] example_start in
  (∀ c, c ∈ client_connections (resources (world b')) ↔ open_in seen c) ∧
  ∀ l1 t w l2, seen = l1 ++ (t, w) :: l2 →
    match t with
    | OnEstablished e => handle e ∈ client_connections (resources w) ∧
                         is_published (links w (ecs_id (handle e))) = true
    | OnPacket _ => True
    | OnClosed x => ∀ c, c ∈ client_connections (resources w) → connection_id x ≠ Some (ecs_id c)
    end.
Proof.
  assert (He : Forall (env_ok true) [quiet]) by (constructor; [apply quiet_ok|done]).
  split; [exact He|]. split; [exact example_start_fresh|].
  exact (registry_is_open_connections example_observer true example_observer_ok [quiet] example_start
    He example_start_fresh).
Defined.

Lemma datagrams_follow_establishment_witness :
  let e := example_packet 1 10 in
  let w := from_option snd (world example_start) (example_seen !! 4%nat) in
  (frames example_observer true [quiet] example_start).2 =
    take 4 example_seen ++ (OnPacket e, w) :: drop 5 example_seen ∧
  established_in (take 4 example_seen) (event_connection e) ∧
  is_cancelled (event_connection e) w = false ∧
  ∀ t' w', (t', w') ∈ take 4 example_seen → is_cancelled (event_connection e) w' = false.
Proof.
  assert (He : Forall (env_ok true) [quiet]) by (constructor; [apply quiet_ok|done]).
  assert (Heq : (frames example_observer true [quiet] example_start).2 =
    take 4 example_seen ++
    (OnPacket (example_packet 1 10), from_option snd (world example_start) (example_seen !! 4%nat))
    :: drop 5 example_seen) by by vm_compute.
  split; [exact Heq|].
  exact (datagrams_follow_establishment example_observer true example_observer_ok [quiet]
    example_start _ _ _ _ He example_start_fresh eq_refl Heq).
Defined.

Lemma lifecycle_step_fifo_witness :
  let '(c, commands) := incoming_system (messages example_start) None None in
  let '(_, seen) := lifecycle_step example_observer quiet example_start in
  mpsc_items c = drop 256 example_messages ∧
  length commands = (256 `min` length example_messages)%nat ∧
  seen.*1 = message_trigger <$> take 256 example_messages.
Proof. exact (lifecycle_step_fifo example_observer quiet example_start). Defined.

Lemma datagram_system_outcome_witness :
  ∃ q' w' ks,
    receive_datagram_packets (E:=example_establish) (D:=example_closed) example_datagrams None None
      (world example_start) = (q', w', ks) ∧
    ∃ taken,
      (items (state example_datagrams)).*1 = taken ++ (items (state q')).*1 ∧ (length taken ≤ 256)%nat ∧
      Forall (λ e, ready (world example_start) e = true) taken ∧
      ks = DatagramCommand <$> filter (λ e, gone (world example_start) e = false) taken ∧
      w' = count_gone (world example_start) (filter (λ e, gone (world example_start) e = true) taken) ∧
      same_status (world example_start) w' ∧
      (length taken = 256%nat ∨
       ∀ e, head (items (state q')).*1 = Some e → ready (world example_start) e = false).
Proof.
  do 3 eexists. split; [apply pair3_eta|].
  exact (datagram_system_outcome example_datagrams (world example_start) None None _ _ _
    example_datagrams_wf (pair3_eta _)).
Defined.

Definition example_attempt (connected : result nat io_error) : ConnectionAttempt fifo nat nat Z () () :=
  (request_attempt (T:=Z) NetworkQueueSettings_default false {| limit_cell := 0 |} 80%nat connected
     () () 7).1.

Lemma publish_outcome_witness :
  let a := example_attempt (Ok 4%nat) in
  let incoming : fifo (IncomingMessage Z example_establish example_closed) := mpsc_channel 4 in
  let transports : fifo (ConnectedTransport nat () () nat) := mpsc_channel 1 in
  ∃ c sent n raw, publish a false incoming transports [] [] = (c, Ready true, sent, n) ∧
    attempt a = Ok raw ∧
    let ecs := (ecs_connection raw false (packets a)).1 in
    let m := Established {| address := 80%nat; handle := ecs |} in
    sent = [m] ∧
    ∃ n', n = Some n' ∧
      match an_transport n' with
      | Some t => connection t = raw ∧ ecs_side t = ecs ∧ sent = [m]
      | None => Ready true = Pending ∨
                ∀ packet, ∃ k, Connection.send packet (an_link n') = (k, Err (SendClosed packet))
      end.
Proof.
  do 4 eexists. split; [reflexivity|]. split; [reflexivity|].
  exact (publish_outcome (example_attempt (Ok 4%nat)) false
    (mpsc_channel 4 : fifo (IncomingMessage Z example_establish example_closed))
    (mpsc_channel 1 : fifo (ConnectedTransport nat () () nat)) [] [] _ _ _ _ eq_refl).
Defined.

(** The life of one connection: established, two packets, disconnected. *)
Definition example_raw : RawConnection nat () () :=
  (with_limits 4%nat () () receiver_new {| limit_cell := 0 |} 7).1.

Definition example_link : Link bool fifo (list QueueDropReason) Z :=
  {| disconnect_task := false; published := false; packet_tx := Reliable (mpsc_channel 4); transport := [] |}.

Definition life_poll (cancelled : bool) (reads : list Z)
    : recv_poll fifo Z example_establish example_closed () () nat
        (ConnectionId → Link bool fifo (list QueueDropReason) Z) := {|
  rv_cancelled := cancelled; rv_send_error := None; rv_late_error := None;
  rv_reads := map (λ x, Ok (x, 0%Z)) reads;
  rv_incoming c := c; rv_datagrams q := q; rv_disconnects c := c; rv_handles h := h |}.

Definition example_life : list (IncomingMessage Z example_establish example_closed) :=
  connection_messages (Hd:=list QueueDropReason) (T:=Z) false client_closed_event false (λ _, None)
    example_raw false (Reliable (mpsc_channel 4)) (λ ecs, {| address := 80%nat; handle := ecs |})
    (mpsc_channel 1) (mpsc_channel 1) [] [] (Ok ()) (mpsc_channel 4) []
    [life_poll false [1]; life_poll false [2]; life_poll true []]
    (lossy_channel 1 usize_max DropNewest) (mpsc_channel 1) (λ _, example_link).

Example example_life_run : length example_life = 4%nat.
Proof. by vm_compute. Qed.

Lemma connection_messages_shape_witness :
  let ecs := (ecs_connection example_raw false
                (Reliable (mpsc_channel 4) : Outgoing fifo Z)).1 in
  Forall (no_reopen (P:=Z)) [life_poll false [1]; life_poll false [2]; life_poll true []] ∧
  (example_life = [] ∨
   ∃ packets closing,
     example_life = Established {| address := 80%nat; handle := ecs |} :: (StreamPacket <$> packets) ++
                      (ClosedMessage ∘ client_closed_event ecs <$> closing) ∧
     (length closing ≤ 1)%nat ∧ Forall (λ e, event_connection e = ecs_id ecs) packets ∧
     (false = true → packets = [])).
Proof.
  assert (Hall : Forall (no_reopen (P:=Z)) [life_poll false [1]; life_poll false [2]; life_poll true []])
    by (repeat constructor; by intros c Hc).
  split; [exact Hall|].
  exact (connection_messages_shape (Hd:=list QueueDropReason) (T:=Z) false client_closed_event false
    (λ _, None) example_raw false (Reliable (mpsc_channel 4))
    (λ ecs, {| address := 80%nat; handle := ecs |}) (mpsc_channel 1) (mpsc_channel 1) [] [] (Ok ())
    (mpsc_channel 4) [] _ (lossy_channel 1 usize_max DropNewest) (mpsc_channel 1) (λ _, example_link)
    Hall).
Defined.
