(* ===== verification/Server.v ===== *)
(** * The server

    Models src/src/server.rs on top of the shared parts: the server's events and
    registry, the accept loop with its bound on connections being established,
    and what [setup] creates. *)

From S2P Require Import Prelude Protocol Lossy Externals Settings Queue Serializer Connection Receive Endpoint Establish.

Local Open Scope Z_scope.

(** ** Events and registry *)

Section Events.
Context {Addr DecErr LenErr : Type}.

Record NewConnectionEvent := { new_connection : EcsConnection Addr; new_address : Addr }.

Record DisconnectionEvent := {
  disconnection_error : ReceiveError DecErr LenErr;
  disconnected : EcsConnection Addr;
}.

Definition ServerConnections := list (EcsConnection Addr).

Definition register (c : EcsConnection Addr) (l : ServerConnections) : ServerConnections := l ++ [c].

Definition remove_connection (i : ConnectionId) (l : ServerConnections) : ServerConnections :=
  filter (λ c, ecs_id c ≠ i) l.

(** What [incoming_system]'s commands do to the registry. *)
Definition server_established (e : NewConnectionEvent) : ServerConnections → ServerConnections :=
  register (new_connection e).
Definition server_closed (d : DisconnectionEvent) : ServerConnections → ServerConnections :=
  remove_connection (ecs_id (disconnected d)).
End Events.
Arguments NewConnectionEvent Addr : clear implicits.
Arguments DisconnectionEvent Addr DecErr LenErr : clear implicits.
Arguments ServerConnections Addr : clear implicits.

#[export] Instance server_endpoint {Addr DecErr LenErr} :
  Endpoint (ServerConnections Addr) (NewConnectionEvent Addr)
    (DisconnectionEvent Addr DecErr LenErr) (DisconnectionEvent Addr DecErr LenErr) := {
  established_connection e := ecs_id (new_connection e);
  register_established := server_established;
  register_closed := server_closed;
  closed_trigger d := d;
}.

#[export] Program Instance server_endpoint_laws {Addr DecErr LenErr} :
  EndpointLaws Addr (ServerConnections Addr) (NewConnectionEvent Addr)
    (DisconnectionEvent Addr DecErr LenErr) (DisconnectionEvent Addr DecErr LenErr) := {
  registry r := r;
  established_handle := new_connection;
  closed_id d := Some (ecs_id (disconnected d));
  trigger_id d := Some (ecs_id (disconnected d));
  resources_ok _ := True;
}.
Next Obligation. done. Qed.
Next Obligation. done. Qed.
Next Obligation.
  intros. cbn. unfold server_closed, remove_connection. apply list_filter_iff.
  intros c. split; congruence.
Qed.
Next Obligation. done. Qed.
Next Obligation. done. Qed.
Next Obligation. done. Qed.

(** [ServerAddress]: the address the server listens on. *)
Record ServerAddress (Addr : Type) := { address : Addr }.
Arguments address {Addr}. Arguments Build_ServerAddress {Addr}.

(** [ServerPlugin::bind]: the first address a name resolves to. *)
Definition bind {Addr} (resolved : result (list Addr) io_error) : outcome Addr :=
  match resolved with
  | Ok (a :: _) => Returns a
  | Ok [] | Err _ => Panics
  end.

Section Setup.
Context `{Target} {L : Type} `{CancellationToken L} {Ch : Type → Type} `{Mpsc Ch}.
Context {NS Hd Addr : Type} `{TransportHandle Hd} `{NetworkStream NS Hd Addr}.
Context {T P Ser LS DecErr LenErr : Type}.

Abbreviation server_message :=
  (IncomingMessage P (NewConnectionEvent Addr) (DisconnectionEvent Addr DecErr LenErr)).

(** ** [setup]: the channels of a server, its setup limit, and its address

    Natively it waits for [bind], whose address arrives through a channel that
    closes when binding fails. *)

Record ServerSetup := {
  incoming_messages : Ch server_message;
  connection_channel : Ch (ConnectedTransport NS Ser LS Addr);
  disconnect_channel : Ch Addr;
  datagram_packets : Shared (PacketReceiveEvent P);
  has_datagram_system : bool;
  setup_limit : Z;
  server_address : option (ServerAddress Addr);
}.

Definition setup (datagram : bool) (queues : NetworkQueueSettings) (bound : result Addr io_error)
    : ServerSetup := {|
  incoming_messages := incoming_channel queues;
  connection_channel := incoming_channel queues;
  disconnect_channel := incoming_channel queues;
  datagram_packets := lossy_channel (Z.max (receive_capacity queues) 1) usize_max
                        (datagram_receive_overflow queues);
  has_datagram_system := datagram;
  setup_limit := Z.max (receive_capacity queues) 1;
  server_address := match bound with Ok a => Some {| address := a |} | Err _ => None end |}.

(** ** The address in a browser

    A browser cannot wait: [setup] keeps the receiver of the address channel, a
    [sync_channel] of the standard library, and a system reads it on every frame.
    [pending_address] is the [PendingServerAddress] resource. *)

Record AddressChannel := { address_slot : option Addr; address_sender : bool }.
Inductive TryRecvError := TryRecvEmpty | TryRecvDisconnected.

Definition address_try_recv (c : AddressChannel) : AddressChannel * result Addr TryRecvError :=
  match address_slot c with
  | Some a => ({| address_slot := None; address_sender := address_sender c |}, Ok a)
  | None => (c, Err (if address_sender c then TryRecvEmpty else TryRecvDisconnected))
  end.

Record AddressResources := {
  pending_address : option AddressChannel;
  published_address : option (ServerAddress Addr);
}.

(** What the browser's [setup] inserts. *)
Definition browser_address : AddressResources := {|
  pending_address := Some {| address_slot := None; address_sender := true |};
  published_address := None |}.

Definition publish_server_address (w : AddressResources) : AddressResources :=
  match pending_address w with
  | None => w
  | Some c =>
      match address_try_recv c with
      | (_, Ok a) => {| pending_address := None; published_address := Some {| address := a |} |}
      | (_, Err TryRecvDisconnected) =>
          {| pending_address := None; published_address := published_address w |}
      | (c, Err TryRecvEmpty) => {| pending_address := Some c; published_address := published_address w |}
      end
  end.

(** What [accept_connections] does to the channel: it sends the address it is
    bound to, and drops the sender when it returns. *)
Inductive address_event := BindReturns (bound : result Addr io_error) | ListenerEnds | Frame.

Definition address_step (w : AddressResources) (e : address_event) : AddressResources :=
  let on_channel f :=
    {| pending_address := f <$> pending_address w; published_address := published_address w |} in
  match e with
  | BindReturns (Ok a) => on_channel (λ c, {| address_slot := Some a; address_sender := address_sender c |})
  | BindReturns (Err _) | ListenerEnds =>
      on_channel (λ c, {| address_slot := address_slot c; address_sender := false |})
  | Frame => publish_server_address w
  end.

Definition address_run (es : list address_event) (w : AddressResources) : AddressResources :=
  foldl address_step w es.

Definition setup_system (datagram : bool) (e : EndpointSetup) (bound : result Addr io_error)
    : ServerSetup * ReceiveLimits :=
  (setup datagram (setup_queues e) bound, setup_receive_limits e).

(** ** [ConnectedTransport::establish] *)
Definition establish (st : NS) (ser : Ser) (pls : LS) (queues : NetworkQueueSettings)
    (limits : ReceiveLimits) (datagram : bool) (token : L) (counter : Z)
    (incoming : Ch server_message) (transports : Ch (ConnectedTransport NS Ser LS Addr))
    (waits : list (Ch server_message → Ch server_message))
    (transport_waits : list (Ch (ConnectedTransport NS Ser LS Addr) → Ch (ConnectedTransport NS Ser LS Addr)))
    : announcement L Ch NS Hd Addr T P (NewConnectionEvent Addr)
        (DisconnectionEvent Addr DecErr LenErr) Ser LS * Z :=
  let '(tx, rx) := outgoing_channel queues datagram in
  let '(raw, counter) := with_limits st ser pls rx limits counter in
  (announce raw token tx
     (λ ecs, {| new_connection := ecs; new_address := ecs_peer_addr ecs |})
     incoming transports waits transport_waits, counter).

(** How a server reports a closure, and its side of the tasks: the closing event
    owns the handle, and the listener is told of the peer's address. *)
Definition server_closed_event (ecs : EcsConnection Addr) (e : ReceiveError DecErr LenErr)
    : DisconnectionEvent Addr DecErr LenErr :=
  {| disconnection_error := e; disconnected := ecs |}.

Definition server_run (datagram : bool) (t : ConnectedTransport NS Ser LS Addr) :=
  run (L:=L) (T:=T) (Hd:=Hd) (Ch:=Ch) (P:=P) (E:=NewConnectionEvent Addr)
    datagram server_closed_event true (λ t, Some (ecs_peer_addr (ecs_side t))) t.

Definition server_receive_packets (datagram : bool) (t : ConnectedTransport NS Ser LS Addr) :=
  receive_task (L:=L) (T:=T) (Hd:=Hd) (Ch:=Ch) (P:=P) (E:=NewConnectionEvent Addr)
    datagram server_closed_event (λ t, Some (ecs_peer_addr (ecs_side t))) t.

(** ** The systems *)

Definition server_incoming_system :=
  incoming_system (Ch:=Ch) (P:=P) (E:=NewConnectionEvent Addr)
    (D:=DisconnectionEvent Addr DecErr LenErr).

Definition server_receive_datagram_packets :=
  receive_datagram_packets (L:=L) (Ch:=Ch) (Hd:=Hd) (T:=T) (P:=P) (R:=ServerConnections Addr)
    (E:=NewConnectionEvent Addr) (D:=DisconnectionEvent Addr DecErr LenErr).
End Setup.
Arguments ServerSetup Ch NS Addr P Ser LS DecErr LenErr : clear implicits.

(** ** The accept loop *)

(** [NetworkListener], for what the loop asks of it besides [accept]. *)
Class NetworkListener (Lis NS Addr : Type) := {
  handle_disconnection : Addr → Lis → Lis;
  drop_stream : NS → Lis → Lis;
}.

Section Accept.
Context `{Target} {Sem : Type} `{Semaphore Sem} {Lis NS Addr R M : Type} `{NetworkListener Lis NS Addr}.

(** The loop: the semaphore of pending connections, the listener, whether the
    serializer warning was given (and how often), the connections whose
    [establish] task holds a permit, those whose task is over, and the excess
    streams, which are dropped. *)
Record Acceptor := {
  pending : Sem;
  listener : Lis;
  warned : bool;
  warnings : nat;
  establishing : list NS;
  established : list NS;
  rejected : list NS;
  accepting : bool;
}.

(** What the loop wakes up for: an [accept] (with the listener it leaves, and the
    serializer the application builds), an address from the disconnect channel;
    and, in between, the end of the [n]th [establish] task, which drops its
    permit whichever way the task ends. *)
Inductive accept_event :=
  | Accepted (lis : Lis) (res : result NS io_error) (ser : SerializerAdapter R M)
  | Disconnected (addr : Addr)
  | EstablishEnded (n : nat).

Definition transient (k : ErrorKind) : bool :=
  bool_decide (k = Interrupted) || bool_decide (k = ConnectionAborted) ||
  bool_decide (k = ConnectionReset).

Definition accept_start (queues : NetworkQueueSettings) (lis : Lis) : Acceptor := {|
  pending := sem_new (Z.max (receive_capacity queues) 1); listener := lis; warned := false;
  warnings := 0; establishing := []; established := []; rejected := []; accepting := true |}.

(** The branch of an accepted stream. *)
Definition accept_stream (datagram : bool) (stream : NS) (ser : SerializerAdapter R M)
    (a : Acceptor) : Acceptor :=
  match sem_try_acquire (pending a) with
  | None =>
      {| pending := pending a; listener := drop_stream stream (listener a); warned := warned a;
         warnings := warnings a; establishing := establishing a; established := established a;
         rejected := rejected a ++ [stream]; accepting := accepting a |}
  | Some pending =>
      let '(warned, logs) := warn_if_stateful_over_datagrams datagram ser (warned a) in
      {| pending := pending; listener := listener a; warned := warned;
         warnings := if logs then S (warnings a) else warnings a;
         establishing := establishing a ++ [stream]; established := established a;
         rejected := rejected a; accepting := accepting a |}
  end.

Definition with_listener (lis : Lis) (go : bool) (a : Acceptor) : Acceptor :=
  {| pending := pending a; listener := lis; warned := warned a; warnings := warnings a;
     establishing := establishing a; established := established a; rejected := rejected a;
     accepting := go |}.

Definition establish_ended (n : nat) (a : Acceptor) : Acceptor :=
  match establishing a !! n with
  | None => a
  | Some stream =>
      {| pending := sem_release (pending a); listener := listener a; warned := warned a;
         warnings := warnings a; establishing := delete n (establishing a);
         established := established a ++ [stream]; rejected := rejected a;
         accepting := accepting a |}
  end.

(** [accept_connections], one event at a time; after the loop has ended only the
    tasks go on. *)
Definition accept_step (datagram : bool) (a : Acceptor) (e : accept_event) : Acceptor :=
  match e with
  | EstablishEnded n => establish_ended n a
  | Disconnected addr =>
      if accepting a then with_listener (handle_disconnection addr (listener a)) true a else a
  | Accepted lis res ser =>
      if accepting a then
        match res with
        | Err err => with_listener lis (transient (kind err)) a
        | Ok stream => accept_stream datagram stream ser (with_listener lis true a)
        end
      else a
  end.

Definition accept_connections (datagram : bool) (queues : NetworkQueueSettings) (lis : Lis)
    (events : list accept_event) : Acceptor :=
  foldl (accept_step datagram) (accept_start queues lis) events.
End Accept.
Arguments Acceptor Sem Lis NS : clear implicits.
Arguments accept_event Lis NS Addr R M : clear implicits.

(** ** Properties *)

Section AddressProperties.
Context `{Target} {L : Type} `{CancellationToken L} {Ch : Type → Type} `{Mpsc Ch}.
Context {NS Hd Addr : Type} `{TransportHandle Hd} `{NetworkStream NS Hd Addr}.
Context {T P Ser LS DecErr LenErr : Type}.
Implicit Types (w : AddressResources (Addr:=Addr)) (es : list (address_event (Addr:=Addr))).

(** Once taken, the address stays: the resource that is read is gone. *)
Lemma address_run_done es w : pending_address w = None → address_run es w = w.
Proof.
  revert w. induction es as [|e es IH]; intros w Hw; [done|]. cbn.
  change (foldl address_step ?x es) with (address_run es x).
  assert (address_step w e = w) as ->; [|by apply IH].
  destruct w as [p a]. cbn in Hw. subst p. by destruct e as [[]| |].
Qed.

Lemma address_run_frames es : Forall (λ e, e = Frame) es → address_run es browser_address = browser_address.
Proof. by induction 1 as [|e es -> _ IH]. Qed.

(** What the channel gives once [bind] has returned, for as long as it is not
    read. *)
Lemma address_run_bound es c : Forall (λ e, e = Frame ∨ e = ListenerEnds) es →
  is_Some (address_slot c) ∨ address_sender c = false →
  let w := address_run es {| pending_address := Some c; published_address := None |} in
  (Frame ∈ es → w = {| pending_address := None;
                       published_address := (λ a, {| address := a |}) <$> address_slot c |}) ∧
  (Frame ∉ es → published_address w = None).
Proof.
  intros Hes. revert c. induction Hes as [|e es He Hes IH]; intros c Hc; cbn.
  { split; [by intros ?%elem_of_nil|done]. }
  change (foldl address_step ?x es) with (address_run es x). destruct He as [->| ->]; cbn.
  - split; [intros _|intros Hn; by exfalso; apply Hn; left].
    unfold publish_server_address, address_try_recv. cbn. destruct (address_slot c) as [a|].
    + by rewrite address_run_done.
    + destruct Hc as [[? ?]| ->]; [done|]. by rewrite address_run_done.
  - destruct (IH {| address_slot := address_slot c; address_sender := false |}) as [IH1 IH2]; [by right|].
    split; [intros [?|Hin]%elem_of_cons; [done|by apply IH1]|].
    intros [_ Hn]%not_elem_of_cons. by apply IH2.
Qed.

(** A browser publishes the address a native server has at once: from the first
    frame after [bind] has returned the resource is what the native [setup]
    inserts, whatever the listener does later; until then there is none. *)
Theorem browser_address_agrees datagram queues bound before after :
  Forall (λ e, e = Frame) before → Forall (λ e, e = Frame ∨ e = ListenerEnds) after →
  let native : ServerSetup Ch NS Addr P Ser LS DecErr LenErr := setup datagram queues bound in
  let w := address_run (before ++ BindReturns bound :: after) browser_address in
  (Frame ∈ after → w = {| pending_address := None; published_address := server_address native |}) ∧
  (Frame ∉ after → published_address w = None).
Proof.
  intros Hb Ha. unfold address_run. rewrite foldl_app. cbn [foldl].
  change (foldl address_step ?x before) with (address_run before x). rewrite address_run_frames by done.
  destruct bound as [a|err]; cbn.
  - apply (address_run_bound after {| address_slot := Some a; address_sender := true |} Ha). by left.
  - apply (address_run_bound after {| address_slot := None; address_sender := false |} Ha). by right.
Qed.
End AddressProperties.

Section Properties.
Context `{Target} {Sem : Type} `{SemaphoreLaws Sem} {Lis NS Addr R M : Type} `{NetworkListener Lis NS Addr}.
Implicit Types (a : Acceptor Sem Lis NS) (e : accept_event Lis NS Addr R M).

(** The streams the loop takes from the listener: up to the first error that is
    not transient. *)
Fixpoint taken (es : list (accept_event Lis NS Addr R M)) : list NS :=
  match es with
  | [] => []
  | Accepted _ (Ok s) _ :: es => s :: taken es
  | Accepted _ (Err err) _ :: es => if transient (kind err) then taken es else []
  | _ :: es => taken es
  end.

Record accept_inv (capacity : Z) a : Prop := {
  ai_permits : sem_available (pending a) + zlen (establishing a) = capacity;
  ai_available : 0 ≤ sem_available (pending a);
  ai_warnings : warnings a = if warned a then 1%nat else 0%nat;
}.

Definition streams_of a : list NS := establishing a ++ established a ++ rejected a.

Lemma accept_stream_inv datagram capacity s ser a : accept_inv capacity a →
  let a' := accept_stream (M:=M) (R:=R) datagram s ser a in
  accept_inv capacity a' ∧ accepting a' = accepting a ∧ streams_of a' ≡ₚ s :: streams_of a ∧
  established a' = established a ∧
  if zlen (establishing a) <? capacity
  then establishing a' = establishing a ++ [s] ∧ rejected a' = rejected a
  else establishing a' = establishing a ∧ rejected a' = rejected a ++ [s] ∧
       listener a' = drop_stream s (listener a).
Proof.
  intros [Hp Ha Hw]. unfold accept_stream, streams_of.
  destruct (sem_try_acquire (pending a)) as [p|] eqn:Hs.
  - apply sem_acquire_some in Hs as [Hpos Hav].
    rewrite (proj2 (Z.ltb_lt _ _)) by lia.
    destruct (warn_if_stateful_over_datagrams datagram ser (warned a)) as [w logs] eqn:Hwarn.
    cbn. split_and!; try done.
    + split; cbn; [rewrite zlen_app, zlen_cons, zlen_nil; lia|lia|].
      unfold warn_if_stateful_over_datagrams in Hwarn. rewrite Hw.
      destruct (_ && _)%bool; simplify_eq; by destruct (warned a).
    + rewrite <- app_assoc. cbn. by rewrite <- Permutation_middle.
  - apply sem_acquire_none in Hs. rewrite (proj2 (Z.ltb_ge _ _)) by lia. cbn. split_and!; try done.
    rewrite !app_assoc, Permutation_app_comm. done.
Qed.

Lemma accept_step_inv datagram capacity e a : accept_inv capacity a →
  accept_inv capacity (accept_step datagram a e) ∧
  streams_of (accept_step datagram a e) ≡ₚ
    (if accepting a then match e with Accepted _ (Ok s) _ => [s] | _ => [] end else []) ++ streams_of a ∧
  accepting (accept_step datagram a e) =
    accepting a && match e with Accepted _ (Err err) _ => transient (kind err) | _ => true end.
Proof.
  intros Hinv. destruct e as [lis [s|err] ser|addr|n]; cbn.
  - destruct (accepting a) eqn:Hacc; [|done].
    assert (Hinv' : accept_inv capacity (with_listener lis true a)) by (by destruct Hinv).
    destruct (accept_stream_inv datagram capacity s ser _ Hinv') as (? & -> & ? & _). by split_and!.
  - destruct (accepting a) eqn:Hacc; [|done]. destruct Hinv. by split_and!.
  - destruct (accepting a) eqn:Hacc; [|done]. destruct Hinv. by split_and!.
  - unfold establish_ended. destruct (establishing a !! n) as [s|] eqn:Hn.
    + destruct Hinv as [Hp Ha Hw]. pose proof (delete_Permutation _ _ _ Hn) as Hperm.
      assert (Hlen : zlen (establishing a) = zlen (delete n (establishing a)) + 1).
      { unfold zlen. apply Permutation_length in Hperm. cbn in Hperm. lia. }
      split_and!.
      * split; cbn; [rewrite sem_release_available; lia|rewrite sem_release_available; lia|done].
      * assert (Hst : streams_of (establish_ended n a) ≡ₚ streams_of a).
        { unfold streams_of, establish_ended. rewrite Hn. cbn.
          etrans; [|exact (Permutation_app_tail (established a ++ rejected a) (symmetry Hperm))].
          rewrite <- app_assoc. cbn. by rewrite <- !Permutation_middle. }
        unfold establish_ended in Hst. rewrite Hn in Hst. by destruct (accepting a).
      * by rewrite andb_true_r.
    + rewrite andb_true_r. by destruct (accepting a).
Qed.

Lemma accept_run_inv datagram capacity es a : accept_inv capacity a →
  accept_inv capacity (foldl (accept_step datagram) a es) ∧
  streams_of (foldl (accept_step datagram) a es) ≡ₚ
    (if accepting a then taken es else []) ++ streams_of a.
Proof.
  revert a; induction es as [|e es IH]; intros a Hinv; cbn [foldl taken].
  { by destruct (accepting a). }
  destruct (accept_step_inv datagram capacity e a Hinv) as (Hinv' & Hst & Hacc).
  destruct (IH _ Hinv') as [Hinv'' Hst']. split; [done|]. rewrite Hst', Hst, Hacc.
  destruct (accepting a); [|done].
  destruct e as [lis [s|err] ser|addr|n]; cbn; [|by destruct (transient _)|done..].
  by rewrite Permutation_middle.
Qed.

Lemma accept_stopped datagram (es : list (accept_event Lis NS Addr R M)) a :
  accepting a = false → accepting (foldl (accept_step datagram) a es) = false.
Proof.
  revert a; induction es as [|e es IH]; intros a Ha; [done|]. apply IH.
  destruct e as [lis res ser|addr|n]; cbn; rewrite ?Ha; try done.
  unfold establish_ended. by destruct (establishing a !! n).
Qed.

Lemma accept_start_inv queues lis :
  accept_inv (Z.max (receive_capacity queues) 1) (accept_start queues lis).
Proof. split; cbn; [|by rewrite sem_new_available by lia; lia|done]. rewrite zlen_nil, sem_new_available; lia. Qed.

(** C16. Whatever the listener, the disconnects and the tasks do, never more
    connections are being established at once than the receive capacity (at
    least one): each holds a permit from its acceptance to the end of its task,
    and permits are neither lost nor created. Every stream taken from the
    listener is one of three things: being established, past its establishment,
    or rejected; and the serializer warning is given at most once. *)
Theorem accept_bounds_setup datagram queues (lis : Lis) (es : list (accept_event Lis NS Addr R M)) :
  let a : Acceptor Sem Lis NS := accept_connections datagram queues lis es in
  sem_available (pending a) + zlen (establishing a) = Z.max (receive_capacity queues) 1 ∧
  zlen (establishing a) ≤ Z.max (receive_capacity queues) 1 ∧
  establishing a ++ established a ++ rejected a ≡ₚ taken es ∧ (warnings a ≤ 1)%nat.
Proof.
  destruct (accept_run_inv datagram _ es _ (accept_start_inv queues lis)) as [[Hp Ha Hw] Hst].
  cbn zeta. unfold accept_connections. split_and!; [done|lia| |].
  - rewrite app_nil_r in Hst. exact Hst.
  - rewrite Hw. destruct (warned _); auto.
Qed.

(** The loop never pauses acceptance (over UDP accepting also dispatches to
    the existing peers): a stream is rejected exactly when the permits are all
    taken, and dropped at once; [Interrupted], [ConnectionAborted] and
    [ConnectionReset] do not end the loop, and any other error does, for good. *)
Theorem accept_never_pauses datagram queues (lis : Lis) (es : list (accept_event Lis NS Addr R M))
    (lis' : Lis) (res : result NS io_error) (ser : SerializerAdapter R M) :
  let a : Acceptor Sem Lis NS := accept_connections datagram queues lis es in
  let a' := accept_step datagram a (Accepted lis' res ser : accept_event Lis NS Addr R M) in
  accepting a = true →
  match res with
  | Ok s =>
      accepting a' = true ∧
      if zlen (establishing a) <? Z.max (receive_capacity queues) 1
      then establishing a' = establishing a ++ [s] ∧ rejected a' = rejected a
      else establishing a' = establishing a ∧ rejected a' = rejected a ++ [s] ∧
           listener a' = drop_stream s lis'
  | Err err =>
      establishing a' = establishing a ∧ rejected a' = rejected a ∧ listener a' = lis' ∧
      (accepting a' = true ↔ kind err = Interrupted ∨ kind err = ConnectionAborted ∨
                              kind err = ConnectionReset)
  end.
Proof.
  cbn zeta. intros Hacc.
  destruct (accept_run_inv datagram _ es _ (accept_start_inv queues lis)) as [Hinv _].
  change (foldl (accept_step datagram) (accept_start queues lis) es)
    with (accept_connections datagram queues lis es : Acceptor Sem Lis NS) in Hinv.
  set (a := accept_connections datagram queues lis es) in *. cbn. rewrite Hacc.
  destruct res as [s|err].
  - assert (Hinv' : accept_inv (Z.max (receive_capacity queues) 1) (with_listener lis' true a))
      by (by destruct Hinv).
    destruct (accept_stream_inv datagram _ s ser _ Hinv') as (_ & -> & _ & _ & Hs). by split.
  - cbn. split_and!; try done. unfold transient.
    rewrite !orb_true_iff, !bool_decide_eq_true. tauto.
Qed.
End Properties.

(** ** A concrete server

    A receive capacity of two: the third stream is rejected, and accepted again
    once an establishment is over. *)

#[export] Instance plain_listener : NetworkListener (list nat) nat nat :=
  { handle_disconnection _ l := l; drop_stream s l := l ++ [s] }.

Abbreviation example_event := (accept_event (list nat) nat nat unit unit).
Definition accepted (s : nat) : example_event := Accepted [] (Ok s) (Mutable {| contents := tt; poisoned := false |}).

Definition example_accepts : list example_event :=
  [accepted 1; accepted 2; accepted 3; EstablishEnded 0; Disconnected 7%nat;
   Accepted [] (Err (io_error_from Interrupted)) (ReadOnly tt); accepted 4].

Definition example_acceptor : Acceptor Z (list nat) nat :=
  accept_connections true example_settings [] example_accepts.

Example example_accept_run :
  (establishing example_acceptor, established example_acceptor, rejected example_acceptor,
   accepting example_acceptor, warnings example_acceptor) =
  ([2; 4]%nat, [1]%nat, [3]%nat, true, 1%nat).
Proof. by vm_compute. Qed.

Lemma accept_bounds_setup_witness :
  let a := example_acceptor in
  sem_available (pending a) + zlen (establishing a) = Z.max (receive_capacity example_settings) 1 ∧
  zlen (establishing a) ≤ Z.max (receive_capacity example_settings) 1 ∧
  establishing a ++ established a ++ rejected a ≡ₚ taken example_accepts ∧ (warnings a ≤ 1)%nat.
Proof. exact (accept_bounds_setup true example_settings [] example_accepts). Defined.

Lemma accept_never_pauses_witness :
  accepting example_acceptor = true ∧
  let a' := accept_step true example_acceptor (accepted 5) in
  accepting a' = true ∧
  if zlen (establishing example_acceptor) <? Z.max (receive_capacity example_settings) 1
  then establishing a' = establishing example_acceptor ++ [5%nat] ∧
       rejected a' = rejected example_acceptor
  else establishing a' = establishing example_acceptor ∧
       rejected a' = rejected example_acceptor ++ [5%nat] ∧ listener a' = drop_stream 5%nat [].
Proof.
  split; [reflexivity|].
  exact (accept_never_pauses true example_settings [] example_accepts [] (Ok 5%nat)
    (Mutable {| contents := tt; poisoned := false |}) eq_refl).
Defined.
