(* ===== verification/Tcp.v ===== *)
(** * TCP

    Models src/src/protocols/tcp.rs over tokio's sockets, which are a parameter,
    with the default methods of the traits of src/src/protocols/protocol.rs, and
    what its failures mean for the accept loop of src/src/server.rs. *)

From S2P Require Import Prelude Protocol Lossy Externals Settings Queue Serializer Framing Connection Server.

Local Open Scope Z_scope.

(** ** Sockets

    [tokio::net::TcpStream], its halves and [TcpListener]. *)
Class TcpSockets (S L Rh Wh Addr : Type) := {
  socket_peer_addr : S → result Addr io_error;
  socket_local_addr : S → result Addr io_error;
  socket_set_nodelay : bool → S → S * result () io_error;
  socket_into_split : S → Rh * Wh;
  listener_local_addr : L → result Addr io_error;
}.

Section Tcp.
Context {S L Rh Wh Addr : Type} `{TcpSockets S L Rh Wh Addr}.

(** [TcpNetworkStream] and [TcpNetworkListener]. *)
Record TcpNetworkStream := { socket : S; tcp_peer_addr : Addr; tcp_local_addr : Addr }.

Record TcpNetworkListener := { listener_socket : L; tcp_address : Addr; nodelay : option bool }.

Definition from_listener (s : L) : result TcpNetworkListener io_error :=
  try! a := listener_local_addr s in
  Ok {| listener_socket := s; tcp_address := a; nodelay := None |}.

Definition with_nodelay (value : bool) (l : TcpNetworkListener) : TcpNetworkListener :=
  {| listener_socket := listener_socket l; tcp_address := tcp_address l; nodelay := Some value |}.

(** [TcpProtocol::bind]: [bound] is what [TcpListener::bind] answers. *)
Definition tcp_bind (bound : result L io_error) : result TcpNetworkListener io_error :=
  try! l := bound in from_listener l.

Definition from_stream (s : S) : result TcpNetworkStream io_error :=
  try! peer := socket_peer_addr s in
  try! local := socket_local_addr s in
  Ok {| socket := s; tcp_peer_addr := peer; tcp_local_addr := local |}.

(** [accept]: [accepted] is what the socket's [accept] answers. *)
Definition tcp_accept (l : TcpNetworkListener) (accepted : result S io_error)
    : result TcpNetworkStream io_error :=
  try! s := accepted in
  match nodelay l with
  | None => from_stream s
  | Some value =>
      let '(s, res) := socket_set_nodelay value s in
      try! _ := res in from_stream s
  end.

(** [ClientStream::connect]; [Protocol::connect_to_server] only logs besides. *)
Definition tcp_connect (connected : result S io_error) : result TcpNetworkStream io_error :=
  try! s := connected in from_stream s.

Definition tcp_into_split (s : TcpNetworkStream) : result (FramedReader Rh * FramedWriter Wh) io_error :=
  let '(r, w) := socket_into_split (socket s) in
  Ok ({| reader_inner := r |}, {| writer_inner := w |}).

(** TCP connections carry no shared controls: the handle is [()]. *)
#[export] Instance unit_handle : TransportHandle () := { record_drop _ h := h }.

#[export] Instance tcp_network_stream : NetworkStream TcpNetworkStream () Addr :=
  { ns_transport _ := (); ns_local_addr := tcp_local_addr; ns_peer_addr := tcp_peer_addr }.

(** [Listener::handle_disconnection] does nothing by default; a dropped stream
    only closes its socket. *)
#[export] Instance tcp_network_listener : NetworkListener TcpNetworkListener TcpNetworkStream Addr :=
  { handle_disconnection _ l := l; drop_stream _ l := l }.
End Tcp.
Arguments TcpNetworkStream S Addr : clear implicits.
Arguments TcpNetworkListener L Addr : clear implicits.

(** ** Properties *)

Section Properties.
Context `{Target} {S L Rh Wh Addr : Type} `{TcpSockets S L Rh Wh Addr}.

(** An accepted stream has the listener's [TCP_NODELAY] override and the
    addresses of its socket; every failure on the way is the answer. *)
Theorem tcp_accept_outcome (l : TcpNetworkListener L Addr) (accepted : result S io_error) :
  let configured s := match nodelay l with
                      | None => (s, Ok ())
                      | Some value => socket_set_nodelay value s
                      end in
  match tcp_accept l accepted with
  | Ok stream =>
      ∃ s, accepted = Ok s ∧ configured s = (socket stream, Ok ()) ∧
           socket_peer_addr (socket stream) = Ok (tcp_peer_addr stream) ∧
           socket_local_addr (socket stream) = Ok (tcp_local_addr stream)
  | Err err =>
      accepted = Err err ∨
      ∃ s, accepted = Ok s ∧
           ((configured s).2 = Err err ∨
            socket_peer_addr (configured s).1 = Err err ∨ socket_local_addr (configured s).1 = Err err)
  end.
Proof.
  cbn zeta. unfold tcp_accept, from_stream. destruct accepted as [s|e]; cbn; [|by left].
  assert (Hs : ∀ s', (match socket_peer_addr s' with
      | Ok peer => match socket_local_addr s' with
                   | Ok local => Ok {| socket := s'; tcp_peer_addr := peer; tcp_local_addr := local |}
                   | Err e => Err e end
      | Err e => Err e end : result (TcpNetworkStream S Addr) io_error) = from_stream s').
  { intros s'. unfold from_stream. by destruct (socket_peer_addr s'), (socket_local_addr s'). }
  destruct (nodelay l) as [v|].
  - destruct (socket_set_nodelay v s) as [s' [[]|e]] eqn:Hn; cbn; [|right; exists s; rewrite Hn; by auto].
    destruct (socket_peer_addr s') as [p|e] eqn:Hp; cbn; [|right; exists s; rewrite Hn; by auto].
    destruct (socket_local_addr s') as [a|e] eqn:Ha; cbn; [|right; exists s; rewrite Hn; by auto].
    exists s. by rewrite Hn.
  - destruct (socket_peer_addr s) as [p|e] eqn:Hp; cbn; [|right; exists s; by auto].
    destruct (socket_local_addr s) as [a|e] eqn:Ha; cbn; [|right; exists s; by auto].
    by exists s.
Qed.

(** C20. One client can stop a TCP server from accepting any other, for good. When
    the listener's own [accept] succeeds but the accepted socket cannot name its
    peer (which may already have reset the connection), that connection's failure
    is answered as the listener's; unless its kind is one of the three transient
    ones, the accept loop ends, and no stream is ever taken again. *)
Theorem tcp_peer_failure_ends_accepting {Sem R M : Type} `{SemaphoreLaws Sem} datagram queues
    (lis : TcpNetworkListener L Addr)
    (before after : list (accept_event (TcpNetworkListener L Addr) (TcpNetworkStream S Addr) Addr R M))
    (s : S) err (ser : SerializerAdapter R M) :
  let a : Acceptor Sem _ _ := accept_connections datagram queues lis before in
  accepting a = true → nodelay (listener a) = None →
  socket_peer_addr s = Err err → transient (kind err) = false →
  let a' := foldl (accept_step datagram) a
              (Accepted (listener a) (tcp_accept (listener a) (Ok s)) ser :: after) in
  accepting a' = false ∧ streams_of a' ≡ₚ streams_of a.
Proof.
  cbn zeta. intros Hacc Hn Hp Ht.
  destruct (accept_run_inv datagram _ before _ (accept_start_inv queues lis)) as [Hinv _].
  set (a := foldl (accept_step datagram) (accept_start queues lis) before) in *.
  change (accept_connections datagram queues lis before) with a in *.
  assert (Hacc' : tcp_accept (listener a) (Ok s) = Err err).
  { unfold tcp_accept, from_stream. cbn. by rewrite Hn, Hp. }
  rewrite Hacc'. cbn [foldl].
  destruct (accept_step_inv datagram _ (Accepted (listener a) (Err err) ser
    : accept_event _ _ Addr R M) a Hinv) as (Hinv1 & Hs1 & Ha1).
  rewrite Ht, andb_false_r in Ha1.
  set (a1 := accept_step datagram a _) in *.
  destruct (accept_run_inv datagram _ after a1 Hinv1) as [_ Hst]. rewrite Ha1 in Hst.
  split; [by apply accept_stopped|]. rewrite Hst, Hs1. by destruct (accepting a).
Qed.
End Properties.

(** ** A concrete listener: a socket is a number; the peer of 0 is
    gone, which the system reports as [ENOTCONN]. *)
#[export] Instance plain_sockets : TcpSockets nat () () () nat := {
  socket_peer_addr s := match s with O => Err (io_error_from (OtherKind 107)) | _ => Ok s end;
  socket_local_addr _ := Ok 9%nat;
  socket_set_nodelay _ s := (s, Ok ());
  socket_into_split _ := ((), ());
  listener_local_addr _ := Ok 9%nat;
}.

Definition example_listener : TcpNetworkListener () nat :=
  {| listener_socket := (); tcp_address := 9%nat; nodelay := None |}.

Lemma tcp_peer_failure_ends_accepting_witness :
  let a : Acceptor Z (TcpNetworkListener () nat) (TcpNetworkStream nat nat) :=
    accept_connections true example_settings example_listener
      ([] : list (accept_event _ _ nat () ())) in
  accepting a = true ∧ nodelay (listener a) = None ∧
  socket_peer_addr 0%nat = Err (io_error_from (OtherKind 107)) ∧
  let a' := foldl (accept_step true) a
              [Accepted (listener a) (tcp_accept (listener a) (Ok 0%nat))
                 (ReadOnly () : SerializerAdapter () ());
               Accepted (listener a) (tcp_accept (listener a) (Ok 1%nat)) (ReadOnly ())] in
  accepting a' = false ∧ streams_of a' ≡ₚ streams_of a.
Proof.
  split; [reflexivity|]. split; [reflexivity|]. split; [reflexivity|].
  exact (tcp_peer_failure_ends_accepting true example_settings example_listener []
    [Accepted example_listener (tcp_accept example_listener (Ok 1%nat))
       (ReadOnly () : SerializerAdapter () ())]
    0%nat (io_error_from (OtherKind 107)) (ReadOnly ()) eq_refl eq_refl eq_refl eq_refl).
Defined.
