(* ===== verification/Runtime.v ===== *)
(** * The runtime

    Models src/src/runtime/mod.rs and src/src/runtime/task.rs: the tasks of one
    app, their cancellation, the local thread and the shutdown. tokio's executor,
    its task tracker and the operating system's threads are the steps of the
    model: any task may be polled at any time, in any order. *)

From S2P Require Import Prelude Protocol Lossy Externals.

Local Open Scope Z_scope.

(** ** tokio_util::task::TaskTracker *)
Class TaskTracker (Tr : Type) := {
  tracker_new : Tr;
  tracker_enter : Tr → Tr;
  tracker_exit : Tr → Tr;
  tracker_close : Tr → Tr;
  tracker_poll_wait : Tr → Poll ();
  tracker_count : Tr → nat;
  tracker_closed : Tr → bool;
}.

Class TaskTrackerLaws (Tr : Type) `{TaskTracker Tr} : Prop := {
  tracker_new_view : tracker_count tracker_new = 0%nat ∧ tracker_closed tracker_new = false;
  tracker_enter_view t :
    tracker_count (tracker_enter t) = S (tracker_count t) ∧
    tracker_closed (tracker_enter t) = tracker_closed t;
  tracker_exit_view t :
    tracker_count (tracker_exit t) = pred (tracker_count t) ∧
    tracker_closed (tracker_exit t) = tracker_closed t;
  tracker_close_view t :
    tracker_count (tracker_close t) = tracker_count t ∧ tracker_closed (tracker_close t) = true;
  tracker_wait_view t :
    tracker_poll_wait t =
      if tracker_closed t && (tracker_count t =? 0)%nat then Ready () else Pending;
}.

(** ** Futures

    One poll of an application future: it goes on, completes or panics. *)
Inductive polled (F : Type) := StillPending (f : F) | Completed | Panicked.
Arguments StillPending {F} f. Arguments Completed {F}. Arguments Panicked {F}.

Class UserFuture (F : Type) := { future_poll : F → polled F }.

(** ** Settings *)

(** [NetworkRuntimeMode]: an owned runtime, whose creation may fail, or the
    caller's, which must be multi-threaded. *)
Inductive NetworkRuntimeMode :=
  | Owned (worker_threads : Z)
  | External (multi_thread : bool).

Record NetworkRuntimeSettings := { mode : NetworkRuntimeMode; shutdown_timeout : Z }.

Definition NetworkRuntimeSettings_default : NetworkRuntimeSettings :=
  {| mode := Owned 2; shutdown_timeout := 1000000000 |}.

Section Runtime.
Context {L : Type} `{CancellationToken L} {Tr : Type} `{TaskTracker Tr} {F : Type} `{UserFuture F}.

(** [until_cancelled]: a biased [select!]; a future that is not kept is
    dropped. *)
Definition until_cancelled (stop : L) (f : F) : polled F :=
  if token_is_cancelled stop then Completed else future_poll f.

(** [run_task]: a panic is caught. [None]: the task is over. *)
Definition run_task (stop : L) (f : F) : option F :=
  match until_cancelled stop f with
  | StillPending f => Some f
  | Completed | Panicked => None
  end.

(** A spawned task: its future until it is dropped, whether it lives on the local
    thread, and how often the application's code in it was run. *)
Record Task := { future : option F; local : bool; runs : nat }.

Definition new_task (local : bool) (f : F) : Task := {| future := Some f; local := local; runs := 0 |}.

(** The local thread: at its [select!], waiting for the tasks, or gone. *)
Inductive thread_phase := Looping | Waiting | Gone.

(** [Inner] and [NetworkRuntime]: [owner] is whether the resource still holds
    [inner], [local_queue] the commands sent to the local thread until it drops
    its receiver. *)
Record NetworkRuntime := {
  owner : bool;
  stop : L;
  tracker : Tr;
  tasks : list Task;
  local_queue : option (list F);
  thread : thread_phase;
}.

Definition running_runtime : NetworkRuntime := {|
  owner := true; stop := token_new; tracker := tracker_new; tasks := [];
  local_queue := Some []; thread := Looping |}.

(** [NetworkRuntime::unavailable]. *)
Definition unavailable : NetworkRuntime := {|
  owner := false; stop := token_new; tracker := tracker_new; tasks := [];
  local_queue := None; thread := Gone |}.

(** [NetworkRuntime::new]: [built] and [thread_spawned] are whether tokio could
    build a runtime and the system could start a thread. *)
Definition runtime_new (settings : NetworkRuntimeSettings) (built thread_spawned : bool) : NetworkRuntime :=
  let usable := match mode settings with Owned _ => built | External multi_thread => multi_thread end in
  if usable && thread_spawned then running_runtime else unavailable.

Definition is_available (r : NetworkRuntime) : bool :=
  owner r && negb (token_is_cancelled (stop r)) &&
  match local_queue r with Some _ => true | None => false end.

Definition with_task (t : Task) (r : NetworkRuntime) : NetworkRuntime :=
  {| owner := owner r; stop := stop r; tracker := tracker_enter (tracker r);
     tasks := tasks r ++ [t]; local_queue := local_queue r; thread := thread r |}.

(** [spawn_on], and through it [spawn] from inside a task. *)
Definition spawn_on (f : F) (r : NetworkRuntime) : NetworkRuntime :=
  if token_is_cancelled (stop r) then r else with_task (new_task false f) r.

(** [NetworkRuntime::spawn] and [NetworkRuntime::spawn_local]. *)
Definition spawn (f : F) (r : NetworkRuntime) : NetworkRuntime :=
  if owner r then spawn_on f r else r.

Definition with_local_queue (q : option (list F)) (r : NetworkRuntime) : NetworkRuntime :=
  {| owner := owner r; stop := stop r; tracker := tracker r; tasks := tasks r;
     local_queue := q; thread := thread r |}.

Definition spawn_local (f : F) (r : NetworkRuntime) : NetworkRuntime :=
  if owner r then
    match local_queue r with
    | Some q => with_local_queue (Some (q ++ [f])) r
    | None => r
    end
  else r.

(** [connection_token]: the child of the current runtime's token, or a token of
    its own outside a task. *)
Definition connection_token (current : option L) : L := default token_new current.

(** ** The local thread *)

(** A command received by the loop. *)
Definition local_command (r : NetworkRuntime) : NetworkRuntime :=
  match thread r, local_queue r with
  | Looping, Some (f :: q) => with_local_queue (Some q) (with_task (new_task true f) r)
  | _, _ => r
  end.

(** Dropping the local set drops the futures of its tasks, and their tracker
    tokens with them. *)
Fixpoint drop_local (ts : list Task) (tr : Tr) : list Task * Tr :=
  match ts with
  | [] => ([], tr)
  | t :: ts =>
      let '(t, tr) :=
        match future t with
        | Some _ => if local t then ({| future := None; local := true; runs := runs t |}, tracker_exit tr)
                    else (t, tr)
        | None => (t, tr)
        end in
      let '(ts, tr) := drop_local ts tr in (t :: ts, tr)
  end.

(** The end of the loop: when the token is cancelled, or the executor panicked. *)
Definition local_stop (panicked : bool) (r : NetworkRuntime) : NetworkRuntime :=
  match thread r with
  | Looping =>
      if token_is_cancelled (stop r) || panicked then
        let '(ts, tr) := drop_local (tasks r) (tracker_close (tracker r)) in
        {| owner := owner r; stop := token_cancel (stop r); tracker := tr; tasks := ts;
           local_queue := None; thread := Waiting |}
      else r
  | _ => r
  end.

(** [wait_for_tasks]: each element is what one poll of the tracker answers and
    the time elapsed when it is examined; [None] when it is still waiting. *)
Fixpoint wait_for_tasks (timeout : Z) (polls : list (Poll () * Z)) : option bool :=
  match polls with
  | [] => None
  | (Ready _, _) :: _ => Some true
  | (Pending, elapsed) :: polls =>
      if Z.max (timeout - elapsed) 0 =? 0 then Some false else wait_for_tasks timeout polls
  end.

(** One poll of the thread's wait. *)
Definition thread_wait (timed_out : bool) (r : NetworkRuntime) : NetworkRuntime :=
  match thread r with
  | Waiting =>
      let over := match tracker_poll_wait (tracker r) with Ready _ => true | Pending => timed_out end in
      {| owner := owner r; stop := stop r; tracker := tracker r; tasks := tasks r;
         local_queue := local_queue r; thread := if over then Gone else Waiting |}
  | _ => r
  end.

(** ** Polling tasks

    The pool's workers poll its tasks at any time; the local thread polls its
    own while it loops. *)
Definition poll_task (i : nat) (r : NetworkRuntime) : NetworkRuntime :=
  match tasks r !! i with
  | None => r
  | Some t =>
      match future t with
      | None => r
      | Some f =>
          if local t && match thread r with Looping => false | _ => true end then r
          else
            let rest := run_task (stop r) f in
            {| owner := owner r; stop := stop r;
               tracker := match rest with Some _ => tracker r | None => tracker_exit (tracker r) end;
               tasks := <[i := {| future := rest; local := local t;
                                  runs := if token_is_cancelled (stop r) then runs t else S (runs t) |}]>
                          (tasks r);
               local_queue := local_queue r; thread := thread r |}
      end
  end.

(** ** [shutdown]

    Its first part; the rest waits for the thread, at most the timeout. *)
Definition shutdown (r : NetworkRuntime) : NetworkRuntime :=
  if owner r then
    {| owner := false; stop := token_cancel (stop r); tracker := tracker_close (tracker r);
       tasks := tasks r; local_queue := local_queue r; thread := thread r |}
  else r.

(** [Drop for NetworkRuntime]. *)
Definition runtime_drop (r : NetworkRuntime) : NetworkRuntime := shutdown r.

(** [initialize]: the app's resource, whatever it was before. *)
Definition initialize (settings : NetworkRuntimeSettings) (built thread_spawned : bool)
    (r : option NetworkRuntime) : option NetworkRuntime :=
  Some (runtime_new settings built thread_spawned).

(** [stop_on_exit]. *)
Definition stop_on_exit (exits : list ()) (r : option NetworkRuntime) : option NetworkRuntime :=
  match exits with [] => r | _ :: _ => shutdown <$> r end.

(** What is left of [shutdown] once the done channel answered: whether the thread
    is joined. *)
Inductive done_answer := DoneSent | DoneTimeout | DoneDisconnected.
Definition joins_thread (answer : done_answer) (finished : bool) : bool :=
  match answer with DoneTimeout => finished | _ => true end.

(** ** Executions *)

Inductive runtime_op :=
  | Spawn (f : F) | ChildSpawn (f : F) | SpawnLocal (f : F)
  | LocalCommand | LocalStop (panicked : bool) | ThreadWait (timed_out : bool)
  | PollTask (i : nat) | Shutdown.

Definition runtime_step (r : NetworkRuntime) (o : runtime_op) : NetworkRuntime :=
  match o with
  | Spawn f => spawn f r
  | ChildSpawn f => spawn_on f r
  | SpawnLocal f => spawn_local f r
  | LocalCommand => local_command r
  | LocalStop panicked => local_stop panicked r
  | ThreadWait timed_out => thread_wait timed_out r
  | PollTask i => poll_task i r
  | Shutdown => shutdown r
  end.

Definition runtime_run (os : list runtime_op) (r : NetworkRuntime) : NetworkRuntime :=
  foldl runtime_step r os.
End Runtime.
Arguments Task F : clear implicits.
Arguments NetworkRuntime L Tr F : clear implicits.
Arguments runtime_op F : clear implicits.

(** ** Lemmas *)

Section Lemmas.
Context {L : Type} `{CancellationTokenLaws L} {Tr : Type} `{TaskTrackerLaws Tr} {F : Type} `{UserFuture F}.
Implicit Types (r : NetworkRuntime L Tr F) (ts : list (Task F)).

Fixpoint alive ts : nat :=
  match ts with
  | [] => 0
  | t :: ts => (match future t with Some _ => 1 | None => 0 end + alive ts)%nat
  end.

Lemma alive_app ts1 ts2 : alive (ts1 ++ ts2) = (alive ts1 + alive ts2)%nat.
Proof. induction ts1 as [|t ts1 IH]; [done|]. cbn. rewrite IH. lia. Qed.

Lemma alive_lookup ts i t f : ts !! i = Some t → future t = Some f → (0 < alive ts)%nat.
Proof.
  revert i; induction ts as [|t0 ts IH]; intros [|i] Hi Hf; simplify_eq/=; [rewrite Hf; lia|].
  specialize (IH i Hi Hf). lia.
Qed.

Lemma alive_insert ts i t t' f : ts !! i = Some t → future t = Some f →
  alive (<[i:=t']> ts) = match future t' with Some _ => alive ts | None => pred (alive ts) end.
Proof.
  revert i; induction ts as [|t0 ts IH]; intros [|i] Hi Hf; simplify_eq/=.
  - rewrite Hf. by destruct (future t').
  - rewrite (IH i Hi Hf). pose proof (alive_lookup ts i t f Hi Hf). destruct (future t'); lia.
Qed.

Lemma alive_0 ts : alive ts = 0%nat ↔ Forall (λ t, future t = None) ts.
Proof.
  induction ts as [|t ts IH]; [by split|]. rewrite Forall_cons, <- IH. cbn.
  destruct (future t); split; [lia|by intros []|by intros Hts|by intros []].
Qed.

Lemma drop_local_spec ts (tr : Tr) :
  let '(ts', tr') := drop_local ts tr in
  length ts' = length ts ∧ tracker_closed tr' = tracker_closed tr ∧
  (alive ts ≤ tracker_count tr → tracker_count tr' = tracker_count tr - (alive ts - alive ts') ∧
   alive ts' ≤ alive ts)%nat ∧
  ∀ i t', ts' !! i = Some t' → ∃ t, ts !! i = Some t ∧ runs t' = runs t ∧ local t' = local t ∧
    (local t' = true → future t' = None) ∧ (local t = false → t' = t).
Proof.
  revert tr; induction ts as [|t ts IH]; intros tr; cbn; [split_and!; done || lia|].
  destruct (future t) as [f|] eqn:Hf; [destruct (local t) eqn:Hl|];
    match goal with |- context [drop_local ts ?tr1] =>
      specialize (IH tr1); destruct (drop_local ts tr1) as [ts' tr'] end;
    destruct IH as (Hlen & Hcl & Hcnt & Hi).
  - destruct (tracker_exit_view tr) as [Hc Hx]. split_and!; [cbn; congruence..| |].
    + intros Hle. rewrite Hc in Hcnt. cbn. destruct Hcnt; lia.
    + intros [|i] t' Ht'; [|by apply Hi]. simplify_eq/=. exists t. split_and!; done || congruence.
  - split_and!; [cbn; congruence|done| |].
    + intros Hle. cbn. rewrite Hf. destruct Hcnt; lia.
    + intros [|i] t' Ht'; [|by apply Hi]. simplify_eq/=. exists t'. split_and!; done || congruence.
  - split_and!; [cbn; congruence|done| |].
    + intros Hle. cbn. rewrite Hf. destruct Hcnt; lia.
    + intros [|i] t' Ht'; [|by apply Hi]. simplify_eq/=. by exists t'.
Qed.

(** What holds of every runtime that started: the tracker counts the tasks whose
    future is alive; it is closed, the resource given up and the local thread out
    of its loop only once the token is cancelled; and out of the loop no local
    task is left. *)
Record runtime_inv r : Prop := {
  ri_count : tracker_count (tracker r) = alive (tasks r);
  ri_owner : owner r = false → token_is_cancelled (stop r) = true ∧ tracker_closed (tracker r) = true;
  ri_thread : thread r ≠ Looping →
    token_is_cancelled (stop r) = true ∧ tracker_closed (tracker r) = true ∧ local_queue r = None ∧
    Forall (λ t, local t = true → future t = None) (tasks r);
}.

Lemma with_task_inv t r : runtime_inv r → (∃ f, future t = Some f) →
  (thread r = Looping ∨ local t = false) → runtime_inv (with_task t r).
Proof.
  intros [Hc Ho Ht] [f Hf] Hl. destruct (tracker_enter_view (tracker r)) as [He Hcl].
  split; cbn.
  - rewrite He, Hc, alive_app. cbn. rewrite Hf. lia.
  - rewrite Hcl. apply Ho.
  - intros Hth. destruct (Ht Hth) as (? & ? & ? & Hfa). rewrite Hcl. split_and!; try done.
    apply Forall_app. split; [done|]. constructor; [|done]. destruct Hl; congruence.
Qed.

Lemma step_inv o r : runtime_inv r → runtime_inv (runtime_step r o).
Proof.
  intros Hinv. destruct o as [f|f|f| |p|to|i|]; cbn [runtime_step].
  - unfold spawn, spawn_on. destruct (owner r); [|done]. destruct (token_is_cancelled _); [done|].
    apply with_task_inv; [done|by eexists|by right].
  - unfold spawn_on. destruct (token_is_cancelled _); [done|].
    apply with_task_inv; [done|by eexists|by right].
  - unfold spawn_local. destruct (owner r) eqn:Ho; [|done].
    destruct (local_queue r) eqn:Hq; [|done]. destruct Hinv as [Hc How Hth]. split; cbn; auto.
    intros Ht. destruct (Hth Ht) as (_ & _ & Hn & _). congruence.
  - unfold local_command. destruct (thread r) eqn:Hth; try done.
    destruct (local_queue r) as [[|f q]|]; try done.
    pose proof (with_task_inv (new_task true f) r Hinv ltac:(by eexists) ltac:(by left)) as [? ? Ht].
    split; cbn in *; auto. congruence.
  - unfold local_stop. destruct (thread r) eqn:Hth; try done. destruct (_ || _); [|done].
    destruct Hinv as [Hc Ho _]. destruct (tracker_close_view (tracker r)) as [Hcl1 Hcl2].
    pose proof (drop_local_spec (tasks r) (tracker_close (tracker r))) as Hd.
    destruct (drop_local _ _) as [ts tr]. destruct Hd as (_ & Hcl & Hcnt & Hi).
    destruct Hcnt as [Hcnt Hle]; [lia|]. rewrite Hcl2 in Hcl.
    split; cbn.
    + lia.
    + intros _. split; [apply token_cancel_cancels|done].
    + intros _. split_and!; [apply token_cancel_cancels|done|done|].
      apply Forall_lookup. intros i t Ht. by destruct (Hi i t Ht) as (? & _ & _ & _ & ? & _).
  - unfold thread_wait. destruct (thread r) eqn:Hth; try done. destruct Hinv as [Hc Ho Ht].
    split; cbn; auto. intros _. apply Ht. congruence.
  - unfold poll_task. destruct (tasks r !! i) as [t|] eqn:Hi; [|done].
    destruct (future t) as [f|] eqn:Hf; [|done]. destruct (_ && _) eqn:Hlocal; [done|].
    destruct Hinv as [Hc Ho Ht]. destruct (tracker_exit_view (tracker r)) as [He1 He2].
    split; cbn.
    + rewrite (alive_insert _ _ _ _ _ Hi Hf). cbn. destruct (run_task _ _); [done|]. congruence.
    + intros Hw. destruct (Ho Hw). split; [done|]. destruct (run_task _ _); congruence.
    + intros Hth. destruct (Ht Hth) as (? & ? & ? & Hfa). split_and!; try done.
      * destruct (run_task _ _); congruence.
      * apply Forall_insert; [done|]. cbn. intros Hl. rewrite Hl in Hlocal.
        destruct (thread r); done.
  - unfold shutdown. destruct (owner r); [|done]. destruct Hinv as [Hc _ Ht].
    destruct (tracker_close_view (tracker r)) as [Hcl1 Hcl2]. split; cbn.
    + congruence.
    + intros _. split; [apply token_cancel_cancels|done].
    + intros Hth. destruct (Ht Hth) as (_ & _ & ? & ?). split_and!; try done. apply token_cancel_cancels.
Qed.

Lemma run_inv os r : runtime_inv r → runtime_inv (runtime_run os r).
Proof.
  revert r; induction os as [|o os IH]; intros r Hr; [done|]. by apply IH, step_inv.
Qed.

Lemma running_inv : runtime_inv (running_runtime (L:=L) (Tr:=Tr) (F:=F)).
Proof. split; cbn; [apply tracker_new_view|done|done]. Qed.
End Lemmas.

(** ** Properties *)

Section Properties.
Context {L : Type} `{CancellationTokenLaws L} {Tr : Type} `{TaskTrackerLaws Tr} {F : Type} `{UserFuture F}.
Implicit Types (r : NetworkRuntime L Tr F).

(** What one step after cancellation leaves of the tasks: nothing runs again, no
    pool task appears. *)
Definition unrun r r' : Prop :=
  (length (tasks r) ≤ length (tasks r'))%nat ∧
  ∀ i t', tasks r' !! i = Some t' →
    match tasks r !! i with
    | Some t => runs t' = runs t ∧ local t' = local t ∧ (future t = None → future t' = None)
    | None => runs t' = 0%nat ∧ local t' = true
    end.

Lemma unrun_same r r' : tasks r' = tasks r → unrun r r'.
Proof. intros Ht. split; [by rewrite Ht|]. intros i t'. rewrite Ht. by intros ->. Qed.

Lemma unrun_trans r1 r2 r3 : unrun r1 r2 → unrun r2 r3 → unrun r1 r3.
Proof.
  intros [Hl1 H12] [Hl2 H23]. split; [lia|]. intros i t3 Hi. specialize (H23 i t3 Hi).
  specialize (H12 i). destruct (tasks r2 !! i) as [t2|] eqn:Ht2.
  - specialize (H12 t2 eq_refl). destruct (tasks r1 !! i); destruct H12 as (? & ? ); naive_solver congruence.
  - apply lookup_ge_None in Ht2. destruct (tasks r1 !! i) eqn:Ht1; [|done].
    apply lookup_lt_Some in Ht1. lia.
Qed.

Ltac same := split; [|split; [|apply unrun_same]]; auto; try (intros; cbn in *; congruence).

Lemma stopped_step o r : token_is_cancelled (stop r) = true →
  token_is_cancelled (stop (runtime_step r o)) = true ∧
  (owner r = false → owner (runtime_step r o) = false) ∧ unrun r (runtime_step r o).
Proof.
  intros Hc. destruct o as [f|f|f| |p|to|i|]; cbn [runtime_step].
  - unfold spawn, spawn_on. rewrite Hc. destruct (owner r) eqn:Ho; same.
  - unfold spawn_on. rewrite Hc. same.
  - unfold spawn_local. destruct (owner r) eqn:Ho; [destruct (local_queue r)|]; same.
  - unfold local_command. destruct (thread r); try (by same).
    destruct (local_queue r) as [[|f q]|]; try (by same).
    split; [done|]. split; [done|]. split; [cbn; rewrite length_app; lia|]. cbn. intros i t' Ht.
    destruct (tasks r !! i) as [t|] eqn:Hi.
    + rewrite lookup_app_l in Ht by (by eapply lookup_lt_Some). by simplify_eq.
    + apply lookup_ge_None in Hi. rewrite lookup_app_r in Ht by done.
      apply list_lookup_singleton_Some in Ht as [_ <-]. done.
  - unfold local_stop. destruct (thread r); try (by same). rewrite Hc. cbn.
    pose proof (drop_local_spec (tasks r) (tracker_close (tracker r))) as Hd.
    destruct (drop_local _ _) as [ts tr]. destruct Hd as (Hlen & _ & _ & Hi). cbn.
    split; [apply token_cancel_cancels|]. split; [done|]. split; [cbn; lia|]. cbn.
    intros i t' Ht. destruct (Hi i t' Ht) as (t & -> & ? & ? & Hl & Hp). split_and!; try done.
    intros Hn. destruct (local t') eqn:Hlt; [by apply Hl|]. rewrite Hp by congruence. done.
  - unfold thread_wait. destruct (thread r); same.
  - unfold poll_task. destruct (tasks r !! i) as [t|] eqn:Hi; [|by same].
    destruct (future t) as [f|] eqn:Hf; [|by same].
    destruct (_ && _); [by same|]. cbn. rewrite Hc.
    split; [done|]. split; [done|]. split; [cbn; by rewrite length_insert|]. cbn. intros j t' Ht.
    destruct (decide (i = j)) as [<-|Hij].
    + rewrite list_lookup_insert_eq in Ht by (by eapply lookup_lt_Some). simplify_eq. rewrite Hi. cbn.
      split_and!; try done. congruence.
    + rewrite list_lookup_insert_ne in Ht by done. by rewrite Ht.
  - unfold shutdown. destruct (owner r) eqn:Ho; same; apply token_cancel_cancels.
Qed.

Lemma stopped_run os r : token_is_cancelled (stop r) = true →
  token_is_cancelled (stop (runtime_run os r)) = true ∧
  (owner r = false → owner (runtime_run os r) = false) ∧ unrun r (runtime_run os r).
Proof.
  revert r; induction os as [|o os IH]; intros r Hc; [by same|].
  destruct (stopped_step o r Hc) as (Hc' & Ho & Hu). destruct (IH _ Hc') as (Hc2 & Ho2 & Hu2).
  split; [done|]. split; [auto|by eapply unrun_trans].
Qed.

Lemma shutdown_stops r : runtime_inv r →
  token_is_cancelled (stop (shutdown r)) = true ∧ owner (shutdown r) = false ∧
  tracker_closed (tracker (shutdown r)) = true ∧ tasks (shutdown r) = tasks r ∧
  thread (shutdown r) = thread r.
Proof.
  intros Hinv. unfold shutdown. destruct (owner r) eqn:Ho; cbn.
  - split_and!; try done; [apply token_cancel_cancels | apply tracker_close_view].
  - destruct (ri_owner _ Hinv Ho). by split_and!.
Qed.

Lemma poll_task_thread i r : thread (poll_task i r) = thread r ∧
  length (tasks (poll_task i r)) = length (tasks r).
Proof.
  unfold poll_task. destruct (tasks r !! i) as [t|]; [|done]. destruct (future t); [|done].
  destruct (_ && _); [done|]. cbn. by rewrite length_insert.
Qed.

(** The factories the local thread has not taken yet. *)
Definition queued r : nat := length (default [] (local_queue r)).

(** Given up and stopped, a runtime's tasks grow by what leaves that queue only. *)
Lemma given_up_step o r : token_is_cancelled (stop r) = true → owner r = false →
  (length (tasks (runtime_step r o)) + queued (runtime_step r o) ≤ length (tasks r) + queued r)%nat.
Proof.
  intros Hc Ho. unfold queued. destruct o as [f|f|f| |p|to|i|]; cbn [runtime_step].
  - unfold spawn. by rewrite Ho.
  - unfold spawn_on. by rewrite Hc.
  - unfold spawn_local. by rewrite Ho.
  - unfold local_command. destruct (thread r); try done. destruct (local_queue r) as [[|f q]|] eqn:Hq; try by rewrite Hq.
    cbn. rewrite length_app. cbn. lia.
  - unfold local_stop. destruct (thread r); try done. destruct (_ || _); [|done].
    pose proof (drop_local_spec (tasks r) (tracker_close (tracker r))) as Hd.
    destruct (drop_local _ _) as [ts tr]. destruct Hd as (Hlen & _). cbn. lia.
  - unfold thread_wait. by destruct (thread r).
  - destruct (poll_task_thread i r) as [_ Hl]. rewrite Hl. unfold poll_task.
    destruct (tasks r !! i) as [t|]; [|done]. destruct (future t); [|done]. by destruct (_ && _).
  - unfold shutdown. by rewrite Ho.
Qed.

Lemma given_up_run os r : token_is_cancelled (stop r) = true → owner r = false →
  (length (tasks (runtime_run os r)) + queued (runtime_run os r) ≤ length (tasks r) + queued r)%nat.
Proof.
  revert r; induction os as [|o os IH]; intros r Hc Ho; [done|].
  destruct (stopped_step o r Hc) as (Hc' & Ho' & _). pose proof (given_up_step o r Hc Ho).
  specialize (IH _ Hc' (Ho' Ho)). change (runtime_run (o :: os) r) with (runtime_run os (runtime_step r o)). lia.
Qed.

Lemma queued_shutdown r : queued (shutdown r) = queued r.
Proof. unfold queued, shutdown. by destruct (owner r). Qed.

(** C17. Shutting down is final: from the moment it starts, and through anything
    the tasks, the local thread and callers still do, the runtime reports itself
    unavailable and no application future is run again, those already spawned
    included. Nothing is added to the worker pool. The local thread may still make
    tasks of the factories that were queued for it, and of those only, until it sees
    the cancellation; they are never run either. *)
Theorem shutdown_is_final (os os' : list (runtime_op F)) :
  let r := runtime_run os (running_runtime (L:=L) (Tr:=Tr)) in
  let r' := runtime_run os' (shutdown r) in
  is_available r' = false ∧
  (∀ i t', tasks r' !! i = Some t' →
    match tasks r !! i with
    | Some t => runs t' = runs t
    | None => runs t' = 0%nat ∧ local t' = true
    end) ∧
  (length (tasks r) ≤ length (tasks r') ≤ length (tasks r) + queued r)%nat.
Proof.
  cbn zeta. destruct (shutdown_stops (runtime_run os running_runtime) (run_inv os _ running_inv))
    as (Hc & Ho & _ & Ht & _).
  destruct (stopped_run os' _ Hc) as (_ & Ho' & Hlen & Hu). rewrite Ht in Hu, Hlen.
  pose proof (given_up_run os' _ Hc Ho) as Hle. rewrite Ht in Hle.
  split; [unfold is_available; by rewrite Ho'|]. split.
  - intros i t' Hi. specialize (Hu i t' Hi). destruct (tasks _ !! i); [by apply Hu|done].
  - rewrite queued_shutdown in Hle. lia.
Qed.

(** Polling a task of a stopped runtime drops its future. *)
Lemma poll_stopped i r t : token_is_cancelled (stop r) = true → tasks r !! i = Some t →
  (local t = true → future t = None) →
  ∃ t', tasks (poll_task i r) !! i = Some t' ∧ future t' = None.
Proof.
  intros Hc Hi Hl. unfold poll_task. rewrite Hi. destruct (future t) as [f|] eqn:Hf; [|by exists t].
  destruct (local t) eqn:Hlo; [by specialize (Hl eq_refl)|]. cbn.
  rewrite list_lookup_insert_eq by (by eapply lookup_lt_Some). eexists. split; [done|].
  unfold run_task, until_cancelled. by rewrite Hc.
Qed.

(** Polling every task of a stopped runtime whose local tasks are gone leaves no
    future alive. *)
Lemma poll_all_stopped order r :
  token_is_cancelled (stop r) = true → runtime_inv r → thread r = Waiting →
  let r' := runtime_run (PollTask <$> order) r in
  runtime_inv r' ∧ thread r' = Waiting ∧ length (tasks r') = length (tasks r) ∧
  ∀ i t', tasks r' !! i = Some t' →
    i ∈ order ∨ (∃ t, tasks r !! i = Some t ∧ future t = None) → future t' = None.
Proof.
  revert r; induction order as [|j order IH]; intros r Hc Hinv Hth; cbn zeta.
  { split_and!; try done. intros i t' Hi [Hin|(t & Ht & Hf)]; [by apply not_elem_of_nil in Hin|].
    cbn in Hi. by simplify_eq. }
  cbn [fmap list_fmap runtime_run foldl runtime_step].
  destruct (stopped_step (PollTask j) r Hc) as (Hc' & _ & Hlen & Hu). cbn [runtime_step] in *.
  destruct (poll_task_thread j r) as [Hth' Hlen'].
  pose proof (step_inv (PollTask j) r Hinv) as Hinv'. cbn [runtime_step] in Hinv'.
  destruct (IH (poll_task j r) Hc' Hinv' ltac:(congruence)) as (Hi2 & Ht2 & Hl2 & Hdead).
  split_and!; [done|done|unfold runtime_run in *; congruence|].
  intros i t' Hi Hor. apply (Hdead i t' Hi).
  destruct (decide (i ∈ order)) as [Hin|Hnin]; [by left|]. right.
  assert (Hlt : (i < length (tasks r))%nat).
  { apply lookup_lt_Some in Hi. unfold runtime_run in *. lia. }
  destruct (lookup_lt_is_Some_2 (tasks r) i Hlt) as [t Ht].
  destruct (ri_thread _ Hinv ltac:(congruence)) as (_ & _ & _ & Hloc).
  destruct Hor as [Hin|(t1 & Ht1 & Hf1)].
  - apply elem_of_cons in Hin as [->|]; [|done].
    apply (poll_stopped j r t Hc Ht). by apply (proj1 (Forall_lookup _ _) Hloc _ _ Ht).
  - destruct (lookup_lt_is_Some_2 (tasks (poll_task j r)) i ltac:(lia)) as [t2 Ht2'].
    specialize (Hu i t2 Ht2'). rewrite Ht1 in Hu. exists t2. split; [done|]. by apply Hu.
Qed.

(** C18. Shutting down completes: once the local thread has left its loop and
    every task has been polled once more, in whatever order, every future has
    been dropped without running, the tracker is empty, and the thread's wait
    ends without a timeout. Nothing a task awaits can delay it. *)
Theorem shutdown_completes (os : list (runtime_op F)) (order : list nat) :
  let r := runtime_run os (running_runtime (L:=L) (Tr:=Tr)) in
  thread r = Looping → (∀ i, (i < length (tasks r))%nat → i ∈ order) →
  let r' := runtime_run (LocalStop false :: (PollTask <$> order) ++ [ThreadWait false]) (shutdown r) in
  thread r' = Gone ∧ Forall (λ t, future t = None) (tasks r') ∧ tracker_count (tracker r') = 0%nat.
Proof.
  cbn zeta. set (r := runtime_run os running_runtime). intros Hth Hall.
  pose proof (run_inv os _ running_inv : runtime_inv r) as Hinv.
  destruct (shutdown_stops r Hinv) as (Hc & _ & _ & Htasks & Hth').
  pose proof (step_inv Shutdown r Hinv) as Hinv1. cbn [runtime_step] in Hinv1.
  set (r1 := shutdown r) in *.
  pose proof (step_inv (LocalStop false) r1 Hinv1) as Hinv2.
  destruct (stopped_step (LocalStop false) r1 Hc) as (Hc2 & _ & Hlen & _).
  assert (Hth2 : thread (local_stop false r1) = Waiting ∧
                 length (tasks (local_stop false r1)) = length (tasks r1)).
  { unfold local_stop. rewrite Hth', Hth, Hc. cbn.
    pose proof (drop_local_spec (tasks r1) (tracker_close (tracker r1))) as Hd.
    destruct (drop_local _ _) as [ts tr]. cbn. by destruct Hd. }
  destruct Hth2 as [Hth2 Hlen2]. cbn [runtime_step] in *.
  unfold runtime_run. cbn [foldl runtime_step]. rewrite foldl_app. cbn [foldl runtime_step].
  destruct (poll_all_stopped order _ Hc2 Hinv2 Hth2) as (Hinv3 & Hth3 & Hlen3 & Hdead).
  unfold runtime_run in *. set (r3 := foldl _ (local_stop false r1) _) in *.
  assert (Hdead' : Forall (λ t, future t = None) (tasks r3)).
  { apply Forall_lookup. intros i t Hi. apply (Hdead i t Hi). left. apply Hall.
    apply lookup_lt_Some in Hi. rewrite <- Htasks. lia. }
  assert (Hcount : tracker_count (tracker r3) = 0%nat).
  { rewrite (ri_count _ Hinv3). by apply alive_0. }
  destruct (ri_thread _ Hinv3 ltac:(congruence)) as (_ & Hcl & _).
  unfold thread_wait. rewrite Hth3. cbn. split_and!; [|done|done].
  by rewrite tracker_wait_view, Hcl, Hcount.
Qed.

(** [wait_for_tasks] answers [true] only when the tracker is done, [false] only
    when the timeout has passed, and does not wait beyond the first poll at or
    after it. *)
Theorem wait_for_tasks_outcome timeout (polls : list (Poll () * Z)) :
  match wait_for_tasks timeout polls with
  | Some true => ∃ l e l', polls = l ++ (Ready (), e) :: l' ∧ Forall (λ p, p.1 = Pending ∧ p.2 < timeout) l
  | Some false => ∃ l e l', polls = l ++ (Pending, e) :: l' ∧ timeout ≤ e ∧
                            Forall (λ p, p.1 = Pending ∧ p.2 < timeout) l
  | None => Forall (λ p, p.1 = Pending ∧ p.2 < timeout) polls
  end.
Proof.
  induction polls as [|[[[]|] e] polls IH]; cbn; [done|by exists [], e, polls|].
  destruct (Z.max (timeout - e) 0 =? 0) eqn:He.
  - exists [], e, polls. split_and!; [done|lia|done].
  - assert (e < timeout) by lia. destruct (wait_for_tasks timeout polls) as [[]|].
    + destruct IH as (l & e' & l' & -> & Hl). exists ((Pending, e) :: l), e', l'. by repeat constructor.
    + destruct IH as (l & e' & l' & -> & ? & Hl). exists ((Pending, e) :: l), e', l'.
      split_and!; [done|done|by repeat constructor].
    + by constructor.
Qed.
End Properties.

(** ** A concrete runtime

    The tracker is its counter; a future completes when its number reaches 0. *)

#[export] Instance counter_tracker : TaskTracker (nat * bool) := {
  tracker_new := (0%nat, false);
  tracker_enter t := (S t.1, t.2);
  tracker_exit t := (pred t.1, t.2);
  tracker_close t := (t.1, true);
  tracker_poll_wait t := if t.2 && (t.1 =? 0)%nat then Ready () else Pending;
  tracker_count t := t.1;
  tracker_closed t := t.2;
}.
#[export] Instance counter_tracker_laws : TaskTrackerLaws (nat * bool).
Proof. by split. Qed.

#[export] Instance countdown : UserFuture nat :=
  { future_poll n := match n with O => Completed | S n => StillPending n end }.

Definition example_runtime_ops : list (runtime_op nat) :=
  [Spawn 3; SpawnLocal 5; LocalCommand; PollTask 0; PollTask 1; ChildSpawn 7]%nat.

Example example_runtime_run :
  let r := runtime_run example_runtime_ops (running_runtime (L:=bool) (Tr:=nat * bool)) in
  (tracker_count (tracker r), runs <$> tasks r, is_available r) = (3, [1; 1; 0], true)%nat.
Proof. by vm_compute. Qed.

(** A factory still queued becomes a local task that never runs. *)
Lemma shutdown_is_final_witness :
  let r := runtime_run (example_runtime_ops ++ [SpawnLocal 4%nat]) (running_runtime (L:=bool) (Tr:=nat * bool)) in
  let r' := runtime_run [PollTask 0; Spawn 2; LocalCommand; PollTask 3; PollTask 2]%nat (shutdown r) in
  (length (tasks r), queued r, length (tasks r')) = (3, 1, 4)%nat ∧
  is_available r' = false ∧
  (∀ i t', tasks r' !! i = Some t' →
    match tasks r !! i with
    | Some t => runs t' = runs t
    | None => runs t' = 0%nat ∧ local t' = true
    end) ∧
  (length (tasks r) ≤ length (tasks r') ≤ length (tasks r) + queued r)%nat.
Proof.
  split; [by vm_compute|].
  exact (shutdown_is_final (example_runtime_ops ++ [SpawnLocal 4%nat])
    [PollTask 0; Spawn 2; LocalCommand; PollTask 3; PollTask 2]%nat).
Defined.

Lemma shutdown_completes_witness :
  let r := runtime_run example_runtime_ops (running_runtime (L:=bool) (Tr:=nat * bool)) in
  thread r = Looping ∧ (∀ i, (i < length (tasks r))%nat → i ∈ [2; 0; 1]%nat) ∧
  let r' := runtime_run (LocalStop false :: (PollTask <$> [2; 0; 1]%nat) ++ [ThreadWait false]) (shutdown r) in
  thread r' = Gone ∧ Forall (λ t, future t = None) (tasks r') ∧ tracker_count (tracker r') = 0%nat.
Proof.
  assert (Hall : ∀ i, (i < length (tasks (runtime_run example_runtime_ops
    (running_runtime (L:=bool) (Tr:=nat * bool)))))%nat → i ∈ [2; 0; 1]%nat).
  { intros i Hi. change (i < 3)%nat in Hi.
    destruct i as [|[|[|i]]]; [by do 2 constructor|by do 3 constructor|by constructor|lia]. }
  split; [reflexivity|]. split; [exact Hall|].
  exact (shutdown_completes example_runtime_ops [2; 0; 1]%nat eq_refl Hall).
Defined.
