(* ===== verification/Browser.v ===== *)
(** * The browser runtime

    Models src/src/runtime/wasm.rs: the tasks of one app on the JavaScript event
    loop, over the [until_cancelled] the native runtime uses. The event loop is a
    step of the model: it may poll any task at any time. *)

From S2P Require Import Prelude Protocol Lossy Externals Runtime.

Local Open Scope Z_scope.

(** What the event loop keeps of a future that panicked. *)
Class EventLoop (F : Type) := { after_panic : F → option F }.

Section Browser.
Context {L : Type} `{CancellationToken L} {F : Type} `{UserFuture F} `{EventLoop F}.

(** A future given to the event loop, until it is dropped, and how often the
    application's code in it was run. *)
Record BrowserTask := { task_future : option F; task_runs : nat }.

(** [NetworkRuntime]: its token, and the tasks that hold clones of it. [resource]
    is whether the app still has it. *)
Record BrowserRuntime := { resource : bool; stop_token : L; event_loop : list BrowserTask }.

(** [NetworkRuntime::default], as [initialize] inserts it when there is none. *)
Definition browser_default : BrowserRuntime :=
  {| resource := true; stop_token := token_new; event_loop := [] |}.
Definition browser_initialize (r : option BrowserRuntime) : option BrowserRuntime :=
  Some (default browser_default r).

Definition browser_is_available (r : BrowserRuntime) : bool := negb (token_is_cancelled (stop_token r)).

(** [spawn_on], and through it [spawn] from inside a task, whose [CURRENT] is a
    clone of the runtime's token. *)
Definition browser_spawn_on (f : F) (r : BrowserRuntime) : BrowserRuntime :=
  if token_is_cancelled (stop_token r) then r
  else {| resource := resource r; stop_token := stop_token r;
          event_loop := event_loop r ++ [{| task_future := Some f; task_runs := 0 |}] |}.

(** [NetworkRuntime::spawn]; [spawn_local] is the same on the future that first
    calls the factory. *)
Definition browser_spawn (f : F) (r : BrowserRuntime) : BrowserRuntime :=
  if resource r then browser_spawn_on f r else r.
Definition browser_spawn_local (f : F) (r : BrowserRuntime) : BrowserRuntime :=
  if resource r then browser_spawn_on f r else r.

(** [connection_token]. *)
Definition browser_connection_token (current : option L) : L := default token_new current.

Definition browser_cancel (keep : bool) (r : BrowserRuntime) : BrowserRuntime :=
  {| resource := keep; stop_token := token_cancel (stop_token r); event_loop := event_loop r |}.

(** [Drop]. *)
Definition browser_drop (r : BrowserRuntime) : BrowserRuntime := browser_cancel false r.

(** [stop_on_exit]. *)
Definition browser_stop_on_exit (exits : list ()) (r : option BrowserRuntime) : option BrowserRuntime :=
  match exits with [] => r | _ :: _ => (λ r, browser_cancel (resource r) r) <$> r end.

(** The event loop polls a task, which is [until_cancelled] of its future. *)
Definition browser_poll (i : nat) (r : BrowserRuntime) : BrowserRuntime :=
  match event_loop r !! i with
  | Some {| task_future := Some f; task_runs := n |} =>
      {| resource := resource r; stop_token := stop_token r;
         event_loop := <[i := {| task_future := match until_cancelled (stop_token r) f with
                                                 | StillPending f => Some f
                                                 | Completed => None
                                                 | Panicked => after_panic f
                                                 end;
                                 task_runs := if token_is_cancelled (stop_token r) then n else S n |}]> (event_loop r) |}
  | _ => r
  end.

Inductive browser_op :=
  | BrowserSpawn (f : F) | BrowserChildSpawn (f : F) | BrowserSpawnLocal (f : F)
  | BrowserPoll (i : nat) | BrowserDrop | BrowserExit.

Definition browser_step (r : BrowserRuntime) (o : browser_op) : BrowserRuntime :=
  match o with
  | BrowserSpawn f => browser_spawn f r
  | BrowserChildSpawn f => browser_spawn_on f r
  | BrowserSpawnLocal f => browser_spawn_local f r
  | BrowserPoll i => browser_poll i r
  | BrowserDrop => browser_drop r
  | BrowserExit => default r (browser_stop_on_exit [()] (if resource r then Some r else None))
  end.

Definition browser_run (os : list browser_op) (r : BrowserRuntime) : BrowserRuntime := foldl browser_step r os.

(** The same events of a native runtime, whose local thread takes each local
    future at once. *)
Definition native_ops (o : browser_op) : list (runtime_op F) :=
  match o with
  | BrowserSpawn f => [Spawn f]
  | BrowserChildSpawn f => [ChildSpawn f]
  | BrowserSpawnLocal f => [SpawnLocal f; LocalCommand]
  | BrowserPoll i => [PollTask i]
  | BrowserDrop | BrowserExit => [Shutdown]
  end.
End Browser.
Arguments BrowserTask F : clear implicits.
Arguments BrowserRuntime L F : clear implicits.
Arguments browser_op F : clear implicits.

(** ** Lemmas *)

Section Lemmas.
Context {L : Type} `{CancellationTokenLaws L} {Tr : Type} `{TaskTracker Tr} {F : Type} `{UserFuture F} `{EventLoop F}.
Implicit Types (n : NetworkRuntime L Tr F) (b : BrowserRuntime L F) (o : browser_op F).

Definition native_task (t : Task F) : BrowserTask F := {| task_future := future t; task_runs := runs t |}.

(** The two runtimes hold the same tasks and are both stopped or both not. *)
Record agree n b : Prop := {
  ag_tasks : native_task <$> tasks n = event_loop b;
  ag_stopped : token_is_cancelled (stop n) = token_is_cancelled (stop_token b);
  ag_owner : owner n = negb (token_is_cancelled (stop n));
  ag_resource : token_is_cancelled (stop_token b) = false → resource b = true;
  ag_queue : local_queue n = Some [];
  ag_thread : thread n = Looping;
}.

Lemma start_agrees : agree running_runtime browser_default.
Proof. split; try done. cbn. by rewrite token_new_live. Qed.

Lemma stopped_agrees n b : agree n b → token_is_cancelled (stop_token b) = true → owner n = false.
Proof. intros [_ Hs Ho _ _ _] Hc. by rewrite Ho, Hs, Hc. Qed.

Lemma spawn_on_agrees f n b : agree n b → agree (spawn_on f n) (browser_spawn_on f b).
Proof.
  intros [Ht Hs Ho Hr Hq Hth]. unfold spawn_on, browser_spawn_on. rewrite Hs.
  destruct (token_is_cancelled (stop_token b)) eqn:Hc; split; cbn; rewrite ?Hs, ?Hc; auto; try congruence.
  by rewrite fmap_app, Ht.
Qed.

Lemma spawn_agrees f n b : agree n b → agree (spawn f n) (browser_spawn f b).
Proof.
  intros Ha. unfold spawn, browser_spawn. destruct (token_is_cancelled (stop_token b)) eqn:Hc.
  - rewrite (stopped_agrees n b Ha Hc). unfold browser_spawn_on. rewrite Hc. by destruct (resource b).
  - rewrite (ag_owner _ _ Ha), (ag_stopped _ _ Ha), Hc, (ag_resource _ _ Ha Hc). by apply spawn_on_agrees.
Qed.

Lemma spawn_local_agrees f n b : agree n b → agree (local_command (spawn_local f n)) (browser_spawn_local f b).
Proof.
  intros Ha. pose proof Ha as [Ht Hs Ho Hr Hq Hth].
  unfold spawn_local, browser_spawn_local, browser_spawn_on. destruct (token_is_cancelled (stop_token b)) eqn:Hc.
  - rewrite (stopped_agrees n b Ha Hc). unfold local_command. rewrite Hth, Hq. by destruct (resource b).
  - rewrite Ho, Hs, (Hr eq_refl), Hq. cbn. unfold local_command. cbn. rewrite Hth.
    split; cbn; try congruence; auto. by rewrite fmap_app, Ht.
Qed.

Lemma poll_agrees i n b : (∀ f : F, future_poll f ≠ Panicked) → agree n b →
  agree (poll_task i n) (browser_poll i b).
Proof.
  intros Hpanic [Ht Hs Ho Hr Hq Hth]. unfold poll_task, browser_poll. rewrite <- Ht, list_lookup_fmap.
  destruct (tasks n !! i) as [[[f|] l k]|] eqn:Hi; cbn; [|by split..].
  rewrite Hth, andb_false_r. split; cbn; auto. rewrite list_fmap_insert. cbn. f_equal.
  unfold native_task. cbn. rewrite Hs. f_equal. unfold run_task, until_cancelled. rewrite Hs.
  destruct (token_is_cancelled (stop_token b)); [done|]. destruct (future_poll f) eqn:Hp; [done..|by destruct (Hpanic f)].
Qed.

Lemma shutdown_agrees keep n b : agree n b → agree (shutdown n) (browser_cancel keep b).
Proof.
  intros Ha. pose proof Ha as [Ht Hs Ho Hr Hq Hth]. unfold shutdown. destruct (owner n) eqn:Hown.
  - split; cbn; rewrite ?token_cancel_cancels; auto; congruence.
  - symmetry in Ho. apply negb_false_iff in Ho. split; cbn; rewrite ?token_cancel_cancels, ?Ho; auto; congruence.
Qed.

Lemma step_agrees o n b : (∀ f : F, future_poll f ≠ Panicked) → agree n b →
  agree (runtime_run (native_ops o) n) (browser_step b o).
Proof.
  intros Hp Ha. destruct o as [f|f|f|i| |]; cbn.
  - by apply spawn_agrees.
  - by apply spawn_on_agrees.
  - by apply spawn_local_agrees.
  - by apply poll_agrees.
  - by apply shutdown_agrees.
  - destruct (resource b) eqn:Hr; [by apply shutdown_agrees|].
    pose proof Ha as [Ht Hs Ho Hres Hq Hth]. cbn.
    destruct (token_is_cancelled (stop_token b)) eqn:Hc; [|by rewrite Hres in Hr].
    unfold shutdown. by rewrite (stopped_agrees n b Ha Hc).
Qed.

Lemma run_agrees os n b : (∀ f : F, future_poll f ≠ Panicked) → agree n b →
  agree (runtime_run (mjoin (native_ops <$> os)) n) (browser_run os b).
Proof.
  intros Hp. revert n b. induction os as [|o os IH]; intros n b Ha; [done|]. cbn.
  unfold runtime_run. rewrite foldl_app. by apply IH, step_agrees.
Qed.
End Lemmas.

(** ** Properties *)

Section Properties.
Context {L : Type} `{CancellationTokenLaws L} {Tr : Type} `{TaskTracker Tr} {F : Type} `{UserFuture F} `{EventLoop F}.

(** C19. The browser runtime is the native one: over any sequence of spawns,
    polls, exits and drops, the same futures have been run the same number of
    times and are in the same state, local futures included, and the runtimes
    are available together, as long as no future panics. *)
Theorem browser_runtime_agrees (os : list (browser_op F)) : (∀ f : F, future_poll f ≠ Panicked) →
  let n := runtime_run (mjoin (native_ops <$> os)) (running_runtime (L:=L) (Tr:=Tr)) in
  let b := browser_run os (browser_default (L:=L)) in
  native_task <$> tasks n = event_loop b ∧ is_available n = browser_is_available b.
Proof.
  intros Hp n b. destruct (run_agrees os _ _ Hp (start_agrees (L:=L) (Tr:=Tr) (F:=F))) as [Ht Hs Ho _ Hq _].
  fold n in Ht, Hs, Ho, Hq. fold b in Ht, Hs. split; [done|].
  unfold is_available, browser_is_available. rewrite Ho, Hq, Hs. by destruct (token_is_cancelled (stop_token b)).
Qed.

Lemma browser_stopped_step o (r : BrowserRuntime L F) : token_is_cancelled (stop_token r) = true →
  let r' := browser_step r o in
  token_is_cancelled (stop_token r') = true ∧ task_runs <$> event_loop r' = task_runs <$> event_loop r.
Proof.
  intros Hc. destruct o as [f|f|f|i| |]; cbn.
  - unfold browser_spawn, browser_spawn_on. rewrite Hc. by destruct (resource r).
  - unfold browser_spawn_on. by rewrite Hc.
  - unfold browser_spawn_local, browser_spawn_on. rewrite Hc. by destruct (resource r).
  - unfold browser_poll. destruct (event_loop r !! i) as [[[f|] k]|] eqn:Hi; [|done..]. cbn. split; [done|].
    rewrite Hc, list_fmap_insert. apply list_insert_id. by rewrite list_lookup_fmap, Hi.
  - by split; [apply token_cancel_cancels|].
  - destruct (resource r); [by split; [apply token_cancel_cancels|]|done].
Qed.

(** Once the app exits or drops the runtime, no application future is run again,
    whatever the event loop polls, and none is added. *)
Theorem browser_shutdown_is_final (os : list (browser_op F)) (r : BrowserRuntime L F) keep :
  let r' := browser_run os (browser_cancel keep r) in
  browser_is_available r' = false ∧ task_runs <$> event_loop r' = task_runs <$> event_loop r.
Proof.
  assert (Hrun : ∀ (r : BrowserRuntime L F), token_is_cancelled (stop_token r) = true →
    token_is_cancelled (stop_token (browser_run os r)) = true ∧
    task_runs <$> event_loop (browser_run os r) = task_runs <$> event_loop r).
  { induction os as [|o os' IH]; intros r0 Hc; [done|].
    destruct (browser_stopped_step o r0 Hc) as [Hc' Hr]. destruct (IH _ Hc') as [Hc2 Hr2]. cbn.
    split; [exact Hc2|]. by rewrite <- Hr. }
  destruct (Hrun (browser_cancel keep r)) as [Hc Hr]; [apply token_cancel_cancels|].
  split; [|exact Hr]. unfold browser_is_available. by rewrite Hc.
Qed.
End Properties.

(** ** A concrete run

    A spawned and a local future, polled before and after the app exits. *)

#[local] Instance forget_panicked {F} : EventLoop F := { after_panic _ := None }.

Definition example_browser_ops : list (browser_op nat) :=
  [BrowserSpawn 3; BrowserPoll 0; BrowserSpawnLocal 1; BrowserPoll 1; BrowserPoll 1; BrowserExit;
   BrowserPoll 0; BrowserChildSpawn 2; BrowserDrop]%nat.

Lemma browser_runtime_agrees_witness :
  event_loop (browser_run example_browser_ops (browser_default (L:=bool))) =
    [{| task_future := None; task_runs := 1 |}; {| task_future := None; task_runs := 2 |}] ∧
  native_task <$> tasks (runtime_run (mjoin (native_ops <$> example_browser_ops))
    (running_runtime (L:=bool) (Tr:=nat * bool))) =
    event_loop (browser_run example_browser_ops (browser_default (L:=bool))).
Proof.
  split; [by vm_compute|].
  refine (proj1 (browser_runtime_agrees (L:=bool) (Tr:=nat * bool) example_browser_ops _)). by intros [].
Defined.
