(* ===== verification/Pipeline.v ===== *)
(** * A stream connection from end to end

    Composes the components a packet of a stream connection goes through: the
    ECS handle and its outgoing queue ([Connection], [Queue]), the send task
    ([Tasks]), the framed writer and reader ([Framing]) over a network that
    carries bytes in order and may fail, and the receive task ([Receive]); and
    states what the whole promises as an abstract channel it refines. This is one
    direction of a connection: the serializers of its two ends are touched by this
    direction only. [Duplex] runs both directions on one serializer per end. *)

From S2P Require Import Prelude Protocol Lossy Externals Diagnostics Settings Queue Codec Serializer Framing Connection Tasks Receive.

Local Open Scope Z_scope.

(** ** The specification: a first-in first-out channel

    It accepts packets and, until it closes, delivers them in order, each at most
    once. *)
Record channel (P : Type) := { c_accepted : list P; c_delivered : list P; c_open : bool }.
Arguments c_accepted {P}. Arguments c_delivered {P}. Arguments c_open {P}.
Arguments Build_channel {P}.

Inductive channel_step {P} : channel P → channel P → Prop :=
  | channel_accept p acc del o :
      channel_step (Build_channel acc del o) (Build_channel (acc ++ [p]) del o)
  | channel_deliver p rest del :
      channel_step (Build_channel (del ++ p :: rest) del true)
                   (Build_channel (del ++ p :: rest) (del ++ [p]) true)
  | channel_close acc del :
      channel_step (Build_channel acc del true) (Build_channel acc del false).

(** ** The network

    What the writer's socket holds on its way to the peer; [fault] is how many
    bytes of the next write get out before it fails. *)
Record NetSink := { in_flight : list Z; fault : option (nat * io_error) }.

#[export] Instance net_write : WriteStream NetSink := {
  write_all bs w :=
    match fault w with
    | None => ({| in_flight := in_flight w ++ bs; fault := None |}, Ok ())
    | Some (n, e) => ({| in_flight := in_flight w ++ take n bs; fault := fault w |}, Err e)
    end;
}.

Section Pipeline.
Context `{Target} {L : Type} `{CancellationToken L} {Ch : Type → Type} `{Mpsc Ch}.
Context {Hd : Type} `{TransportHandle Hd}.
Context {LS} `{PacketLengthSerializer LS} `{Display ls_error}.
Context {S1 S2 P Q : Type} `{Out : Serializer S1 Q P} `{Inc : Serializer S2 P Q}.
Context {E D Addr store : Type}.

(** The receiving end's connection, as [Receive] has it. *)
Variable ls : LS.
Variable connection : ConnectionId.
Variable closed_event : ReceiveError (DecodeError (Serializer:=Inc)) (ls_error (LS:=LS)) → D.
Variable on_evict : PacketReceiveEvent P → store → store.
Variable record_full : store → store.
Variable notify : option Addr.

Abbreviation receive_task :=
  (RecvTask Ch P E D (DecodeError (Serializer:=Inc)) (ls_error (LS:=LS)) Addr store).
Abbreviation poll_env :=
  (recv_poll Ch P E D (DecodeError (Serializer:=Inc)) (ls_error (LS:=LS)) Addr store).

(** Both ends and what is between them; [accepted] logs the packets [send] took. *)
Record Pipe := {
  cancel_token : L;
  sender : SendTask Ch Hd P;
  stopped : bool;
  writer : FramedWriter NetSink;
  encoder : S1;
  reader : FramedReader (list Z);
  decoder : S2;
  receiver : receive_task;
  accepted : list P;
}.

Definition with_sender (token : L) (t : SendTask Ch Hd P) (stop : bool) (w : FramedWriter NetSink)
    (enc : S1) (acc : list P) (s : Pipe) : Pipe :=
  {| cancel_token := token; sender := t; stopped := stop; writer := w; encoder := enc;
     reader := reader s; decoder := decoder s; receiver := receiver s; accepted := acc |}.

Definition with_receiver (r : FramedReader (list Z)) (dec : S2) (t : receive_task) (s : Pipe) : Pipe :=
  {| cancel_token := cancel_token s; sender := sender s; stopped := stopped s; writer := writer s;
     encoder := encoder s; reader := r; decoder := dec; receiver := t; accepted := accepted s |}.

(** [EcsConnection::send] on the sending end. *)
Definition pipe_send (p : P) (s : Pipe) : Pipe :=
  let t := sender s in
  let k := {| disconnect_task := cancel_token s; published := true; packet_tx := queue t;
              transport := handle t |} in
  let '(k, res) := send p k in
  with_sender (cancel_token s)
    {| queue := packet_tx k; cancelled := cancelled t; handle := transport k;
       send_error := send_error t; current := current t; log := log t |}
    (stopped s) (writer s) (encoder s)
    (match res with Ok _ => accepted s ++ [p] | Err _ => accepted s end) s.

(** The end of the send task: its guard cancels the connection, and the queue's
    receiver is dropped. *)
Definition finish (t : SendTask Ch Hd P) (w : FramedWriter NetSink) (enc : S1) (s : Pipe) : Pipe :=
  let '(q, h) := receiver_drop (set_transport receiver_new) (queue t) (handle t) in
  with_sender (token_cancel (cancel_token s))
    {| queue := q; cancelled := true; handle := h; send_error := send_error t;
       current := None; log := log t |} true w enc (accepted s) s.

(** One iteration of the send task's loop, over the framed writer. *)
Definition pipe_write (s : Pipe) : Pipe :=
  if stopped s then s
  else match take_next (token_is_cancelled (cancel_token s)) (sender s) with
  | (t, Stop) => finish t (writer s) (encoder s) s
  | (t, Wait) => with_sender (cancel_token s) t false (writer s) (encoder s) (accepted s) s
  | (t, Write) =>
      match current t with
      | None => s
      | Some packet =>
          match framed_send ls packet (writer s) (encoder s) with
          | (w, enc, Panics) => finish (interrupt t) w enc s
          | (w, enc, Returns (Ok u)) =>
              with_sender (cancel_token s) (complete packet (Ok u) t) false w enc (accepted s) s
          | (w, enc, Returns (Err e)) => finish (complete packet (Err e) t) w enc s
          end
      end
  end.

(** [disconnect] on the sending end, and the biased [select!] seeing it. *)
Definition pipe_disconnect (s : Pipe) : Pipe :=
  let s := with_sender (token_cancel (cancel_token s)) (sender s) (stopped s) (writer s)
             (encoder s) (accepted s) s in
  if stopped s then s else finish (interrupt (sender s)) (writer s) (encoder s) s.

(** The network: bytes arrive, and the next write may be made to fail. *)
Definition pipe_deliver (n : nat) (s : Pipe) : Pipe :=
  let w := writer_inner (writer s) in
  {| cancel_token := cancel_token s; sender := sender s; stopped := stopped s;
     writer := {| writer_inner := {| in_flight := drop n (in_flight w); fault := fault w |} |};
     encoder := encoder s;
     reader := {| reader_inner := reader_inner (reader s) ++ take n (in_flight w) |};
     decoder := decoder s; receiver := receiver s; accepted := accepted s |}.

Definition pipe_fault (f : option (nat * io_error)) (s : Pipe) : Pipe :=
  {| cancel_token := cancel_token s; sender := sender s; stopped := stopped s;
     writer := {| writer_inner := {| in_flight := in_flight (writer_inner (writer s)); fault := f |} |};
     encoder := encoder s; reader := reader s; decoder := decoder s; receiver := receiver s;
     accepted := accepted s |}.

(** Whether the read of this poll ended for want of bytes: it then waits for
    more, unless the peer has closed the stream ([eof]). *)
Definition starved {A} (eof : bool)
    (res : outcome (result A (ReceiveError (DecodeError (Serializer:=Inc)) (ls_error (LS:=LS))))) : bool :=
  match res with
  | Returns (Err (Io e)) => negb eof && bool_decide (kind e = UnexpectedEof)
  | _ => false
  end.

(** A poll of the receive task: the reader is polled only at the [select!], when
    neither the writer's error nor a cancellation comes first. [limit] is the
    receive limit, [now] the time, [eof] whether the peer has closed. The bytes
    that have arrived bound the reader's loop. A panic of the codec leaves the
    task where it is: it says nothing more. *)
Definition pipe_poll (limit now : Z) (eof : bool) (p : poll_env) (s : Pipe) : Pipe :=
  let t := receiver s in
  let idle := with_receiver (reader s) (decoder s)
    (poll false connection closed_event on_evict record_full notify (with_reads [] p) t) s in
  match at_ t with
  | Receiving =>
      if (token t || rv_cancelled p) || match rv_send_error p with Some _ => true | None => false end
      then idle
      else match receive_with_timestamp (S (S (length (reader_inner (reader s))))) ls limit now
                   (reader s) (decoder s) with
      | None => idle
      | Some (r, dec, res) =>
          if starved eof res then idle
          else match res with
          | Panics => s
          | Returns res =>
              with_receiver r dec (poll false connection closed_event on_evict record_full notify
                                     (with_reads [res] p) t) s
          end
      end
  | _ => idle
  end.

Inductive pipe_op :=
  | PipeSend (p : P)
  | PipeWrite
  | PipeDisconnect
  | PipeDeliver (n : nat)
  | PipeFault (f : option (nat * io_error))
  | PipePoll (limit now : Z) (eof : bool) (p : poll_env).

Definition pipe_step (s : Pipe) (o : pipe_op) : Pipe :=
  match o with
  | PipeSend p => pipe_send p s
  | PipeWrite => pipe_write s
  | PipeDisconnect => pipe_disconnect s
  | PipeDeliver n => pipe_deliver n s
  | PipeFault f => pipe_fault f s
  | PipePoll limit now eof p => pipe_poll limit now eof p s
  end.

Definition pipe_run (os : list pipe_op) (s : Pipe) : Pipe := foldl pipe_step s os.

(** A new connection: empty queue, empty network, tasks at their start. *)
Definition pipe_start (capacity : Z) (token : L) (h : Hd) (enc : S1) (dec : S2)
    (incoming : Ch (IncomingMessage P E D)) (datagrams : Shared (PacketReceiveEvent P))
    (disconnects : Ch Addr) (handles : store) : Pipe := {|
  cancel_token := token;
  sender := task_start (Reliable (mpsc_channel capacity)) h;
  stopped := false;
  writer := {| writer_inner := {| in_flight := []; fault := None |} |};
  encoder := enc;
  reader := {| reader_inner := [] |};
  decoder := dec;
  receiver := receive_packets false connection closed_event on_evict record_full notify []
                incoming datagrams disconnects handles;
  accepted := [] |}.

(** What the specification sees of it. *)
Definition channel_of (s : Pipe) : channel P :=
  {| c_accepted := accepted s; c_delivered := event_packet <$> forwarded (receiver s);
     c_open := reading (receiver s) |}.
End Pipeline.

(** ** Runs of the specification *)

Lemma channel_accepts {P} (new acc del : list P) o :
  rtc channel_step (Build_channel acc del o) (Build_channel (acc ++ new) del o).
Proof.
  revert acc. induction new as [|p new IH]; intros acc; [by rewrite app_nil_r|].
  eapply rtc_l; [apply channel_accept|]. specialize (IH (acc ++ [p])).
  by rewrite <- app_assoc in IH.
Qed.

Lemma channel_delivers {P} (new del rest : list P) :
  rtc channel_step (Build_channel (del ++ new ++ rest) del true)
                   (Build_channel (del ++ new ++ rest) (del ++ new) true).
Proof.
  revert del. induction new as [|p new IH]; intros del; [by rewrite app_nil_r|].
  eapply rtc_l; [apply (channel_deliver p (new ++ rest))|].
  specialize (IH (del ++ [p])). by rewrite <- !(app_assoc del) in IH.
Qed.

(** Whatever only accepts more, delivers more of what it accepted while open, and
    does not reopen, is a run of the channel. *)
Lemma channel_reaches {P} (acc acc' del del' : list P) (o o' : bool) :
  acc `prefix_of` acc' → del `prefix_of` del' → del' `prefix_of` acc' →
  (o = false → del' = del ∧ o' = false) →
  rtc channel_step (Build_channel acc del o) (Build_channel acc' del' o').
Proof.
  intros [more ->] [new ->] [rest Ha] Hclosed.
  etrans; [apply (channel_accepts more)|]. rewrite Ha. destruct o.
  - rewrite <- app_assoc. etrans; [apply channel_delivers|].
    destruct o'; [done|]. eapply rtc_l; [apply channel_close|done].
  - destruct (Hclosed eq_refl) as [Hn ->]. rewrite <- (app_nil_r del) in Hn at 2.
    apply app_inv_head in Hn as ->. by rewrite !app_nil_r.
Qed.

(** ** What is on the wire *)

Section Refinement.
Context `{Target} {L : Type} `{CancellationToken L} {Ch : Type → Type} `{MpscLaws Ch}.
Context {Hd : Type} `{TransportHandle Hd}.
Context {LS} `{PacketLengthSerializer LS} `{!PrefixCodec LS} `{Display ls_error}.
Context {S1 S2 P Q : Type} `{Out : Serializer S1 Q P} `{Inc : Serializer S2 P Q}.
Context {E D Addr store : Type}.
Context {sendable : P → Prop} {max_payload : Z} {synced : S1 → S2 → Prop}
  `{!SerializerPair Out Inc sendable max_payload synced}.

Variable ls : LS.
Variable connection : ConnectionId.
Variable closed_event : ReceiveError (DecodeError (Serializer:=Inc)) (ls_error (LS:=LS)) → D.
Variable on_evict : PacketReceiveEvent P → store → store.
Variable record_full : store → store.
Variable notify : option Addr.

Abbreviation pipe := (Pipe (L:=L) (Ch:=Ch) (Hd:=Hd) (LS:=LS) (S1:=S1) (S2:=S2) (P:=P) (Inc:=Inc)
  (E:=E) (D:=D) (Addr:=Addr) (store:=store)).
Abbreviation op := (pipe_op (Ch:=Ch) (LS:=LS) (P:=P) (Inc:=Inc) (E:=E) (D:=D) (Addr:=Addr) (store:=store)).
Abbreviation env :=
  (recv_poll Ch P E D (DecodeError (Serializer:=Inc)) (ls_error (LS:=LS)) Addr store).
Abbreviation rtask :=
  (RecvTask Ch P E D (DecodeError (Serializer:=Inc)) (ls_error (LS:=LS)) Addr store).
Abbreviation step := (pipe_step ls connection closed_event on_evict record_full notify).
Implicit Types (s : pipe) (unread tail : list P).

(** [bytes] are the frames of [ps], which a decoder in state [d] reads back,
    ending in [d']. *)
Inductive carries : S2 → list P → list Z → S2 → Prop :=
  | carries_nil d : carries d [] [] d
  | carries_cons d d1 d' p ps payload frame bytes :
      frame_of ls payload frame → zlen payload ≤ max_payload →
      deserialize payload d = (d1, Returns (Ok p)) → carries d1 ps bytes d' →
      carries d (p :: ps) (frame ++ bytes) d'.

Lemma carries_snoc d d' d2 ps bytes p payload frame :
  carries d ps bytes d' → frame_of ls payload frame → zlen payload ≤ max_payload →
  deserialize payload d' = (d2, Returns (Ok p)) → carries d (ps ++ [p]) (bytes ++ frame) d2.
Proof.
  intros Hc Hf Hm Hde. induction Hc as [d|d d1 d' q ps pl fr bytes Hf' Hm' Hde' _ IH].
  - cbn. rewrite <- (app_nil_r frame). econstructor; try done. constructor.
  - rewrite <- app_assoc. cbn. econstructor; eauto.
Qed.

(** A frame of which only the beginning was written. *)
Definition cut (part : list Z) : Prop :=
  part = [] ∨ ∃ payload frame t, frame_of ls payload frame ∧ zlen payload ≤ max_payload ∧
    (t < length frame)%nat ∧ part = take t frame.

(** Between the two ends are the frames of [unread], and at most one cut frame,
    after which the writer has stopped; what a running sender has not written
    yet, [tail], is in its queue, and the serializers are in step. *)
Definition wire s unread tail : Prop :=
  ∃ bytes part d,
    carries (decoder s) unread bytes d ∧
    reader_inner (reader s) ++ in_flight (writer_inner (writer s)) = bytes ++ part ∧ cut part ∧
    (stopped s = false → part = [] ∧ tail = queue_items (queue (sender s)) ∧ synced (encoder s) d).

Record pipe_inv s : Prop := {
  i_task : task_ok false connection closed_event (receiver s);
  i_sendable : Forall sendable (accepted s);
  i_kind : ∃ c, queue (sender s) = Reliable c;
  i_received : ∃ rest, accepted s = (event_packet <$> received (receiver s)) ++ rest ∧
    (reading (receiver s) = true → ∃ unread tail, rest = unread ++ tail ∧ wire s unread tail);
}.

(** The sending end and the network, with the receiving task untouched. *)
Record sends (new : list P) s s' : Prop := {
  s_receiver : receiver s' = receiver s;
  s_accepted : accepted s' = accepted s ++ new;
  s_new : Forall sendable new;
  s_kind : ∃ c, queue (sender s') = Reliable c;
  s_wire : ∀ unread tail, Forall sendable tail → wire s unread tail →
    ∃ unread' tail', unread ++ tail ++ new = unread' ++ tail' ∧ wire s' unread' tail';
}.

Lemma sends_inv new s s' : pipe_inv s → sends new s s' → pipe_inv s'.
Proof.
  intros [Ht Hs Hk (rest & Ha & Hw)] [Hr Ha' Hn Hk' Hw']. split; [by rewrite Hr| |done|].
  - rewrite Ha'. by apply Forall_app.
  - exists (rest ++ new). rewrite Hr, Ha', Ha, app_assoc. split; [done|]. intros Hrd.
    destruct (Hw Hrd) as (unread & tail & -> & Hwire).
    rewrite Ha, !Forall_app in Hs. destruct Hs as (_ & _ & Htail).
    destruct (Hw' unread tail Htail Hwire) as (unread' & tail' & He & Hwire').
    exists unread', tail'. by rewrite <- app_assoc.
Qed.

(** Steps that keep the wire as it is. *)
Lemma sends_same s s' :
  receiver s' = receiver s → accepted s' = accepted s →
  queue_items (queue (sender s')) = queue_items (queue (sender s)) →
  (∃ c, queue (sender s') = Reliable c) → decoder s' = decoder s →
  reader_inner (reader s') ++ in_flight (writer_inner (writer s')) =
  reader_inner (reader s) ++ in_flight (writer_inner (writer s)) →
  stopped s' = stopped s → encoder s' = encoder s → sends [] s s'.
Proof.
  intros Hr Ha Hq Hk Hde Hb Hst He. split; try done; [by rewrite app_nil_r|].
  intros unread tail _ (bytes & part & d & Hc & Hbytes & Hcut & Hlive).
  exists unread, tail. rewrite app_nil_r. split; [done|]. exists bytes, part, d.
  by rewrite Hde, Hb, Hq, Hst, He.
Qed.

Lemma pipe_send_sends p s : sendable p → (∃ c, queue (sender s) = Reliable c) →
  ∃ new, sends new s (pipe_send p s).
Proof.
  intros Hp [c Hc]. unfold pipe_send, send. cbn [disconnect_task packet_tx transport].
  destruct (token_is_cancelled _).
  { exists []. by apply sends_same; try done; exists c. }
  rewrite Hc. unfold sender_try_send. destruct (mpsc_try_send c p) as [c' r] eqn:Hs.
  apply mpsc_try_send_view in Hs as (_ & _ & _ & Hs).
  assert (Hfail : r ≠ Ok () → mpsc_items c' = mpsc_items c).
  { intros Hr. destruct (mpsc_is_closed c); [by destruct Hs|]. destruct (_ <=? _); by destruct Hs. }
  destruct r as [[]|e].
  - exists [p]. split; cbn; try done; [by constructor|by exists c'|].
    intros unread tail _ (bytes & part & d & Hcar & Hb & Hcut & Hlive).
    exists unread, (tail ++ [p]). split; [done|]. exists bytes, part, d. split_and!; try done.
    cbn. intros Hst. destruct (Hlive Hst) as (Hpart & Htail & Hsync). split_and!; try done.
    rewrite Htail, Hc. cbn. destruct (mpsc_is_closed c); [by destruct Hs|].
    destruct (_ <=? _); [by destruct Hs|]. by destruct Hs as [_ ->].
  - exists []. assert (Hi : mpsc_items c' = mpsc_items c) by by apply Hfail.
    destruct e as [x|x]; (apply sends_same; try done; [cbn; by rewrite Hc, Hi|by exists c']).
Qed.

(** The task's end: what is on the wire stays, what was queued is not delivered. *)
Lemma finish_sends (t : SendTask Ch Hd P) w enc s :
  (∃ c, queue t = Reliable c) →
  (∀ unread tail, Forall sendable tail → wire s unread tail →
    ∃ unread' tail' bytes part d, unread ++ tail = unread' ++ tail' ∧
      carries (decoder s) unread' bytes d ∧
      reader_inner (reader s) ++ in_flight (writer_inner w) = bytes ++ part ∧ cut part) →
  sends [] s (finish t w enc s).
Proof.
  intros [c Hc] Hw. unfold finish, receiver_drop. rewrite Hc. cbn [negb transport_set set_transport].
  destruct (drain_loop _ _ _) as [c' h'].
  split; cbn; try done; [by rewrite app_nil_r|by eexists|].
  intros unread tail Ht Hwire.
  destruct (Hw unread tail Ht Hwire) as (unread' & tail' & bytes & part & d & He & Hcar & Hb & Hcut).
  exists unread', tail'. rewrite app_nil_r. split; [done|]. by exists bytes, part, d.
Qed.

(** The writer's own state plays no part: nothing more was written. *)
Lemma finish_sends_same (t : SendTask Ch Hd P) w enc s :
  (∃ c, queue t = Reliable c) → in_flight (writer_inner w) = in_flight (writer_inner (writer s)) →
  sends [] s (finish t w enc s).
Proof.
  intros Hc Hf. apply finish_sends; [done|].
  intros unread tail _ (bytes & part & d & Hcar & Hb & Hcut & _).
  exists unread, tail, bytes, part, d. by rewrite Hf.
Qed.

Lemma take_next_queue checked (t : SendTask Ch Hd P) c : queue t = Reliable c →
  let '(t', st) := take_next checked t in
  (∃ c', queue t' = Reliable c') ∧
  match st with
  | Write => ∃ p, current t' = Some p ∧ queue_items (queue t) = p :: queue_items (queue t')
  | Wait => queue_items (queue t') = queue_items (queue t)
  | Stop => True
  end.
Proof.
  intros Hc. unfold take_next. rewrite Hc. cbn [receiver_poll_recv].
  destruct (mpsc_poll_recv c) as [c' r] eqn:Hr. apply mpsc_poll_recv_view in Hr as (_ & _ & _ & Hr).
  cbn [queue_items]. destruct (mpsc_items c) as [|x xs].
  - destruct Hr as [Hi ->]. destruct (_ || _); cbn; (split; [by eexists|done]).
  - destruct Hr as [-> <-]. destruct checked; cbn; (split; [by eexists|]); [done|by exists x].
Qed.

(** What the framed writer puts on the network. *)
Lemma framed_send_net (p : P) (w w' : FramedWriter NetSink) (enc enc' : S1) res :
  framed_send ls p w enc = (w', enc', res) →
  (in_flight (writer_inner w') = in_flight (writer_inner w) ∧ res ≠ Returns (Ok ())) ∨
  ∃ payload frame, serialize p enc = (enc', Returns (Ok payload)) ∧ frame_of ls payload frame ∧
    (res = Returns (Ok ()) ∧ in_flight (writer_inner w') = in_flight (writer_inner w) ++ frame ∨
     ∃ n, res ≠ Returns (Ok ()) ∧
       in_flight (writer_inner w') = in_flight (writer_inner w) ++ take n frame).
Proof.
  unfold framed_send. destruct (serialize p enc) as [enc1 [[payload|e]|]] eqn:Hser.
  2-3: intros [= <- <- <-]; by left.
  destruct (serialize_packet_length ls (zlen payload)) as [buf|e] eqn:Hl.
  2: intros [= <- <- <-]; by left.
  cbn. destruct (fault (writer_inner w)) as [[n e]|]; intros [= <- <- <-]; right;
    exists payload, (buf ++ payload); (split; [done|]; split; [by exists buf|]).
  - right. by exists n.
  - by left.
Qed.

(** One packet written, whole or in part. *)
Lemma wire_write s c p items w' enc' res :
  queue (sender s) = Reliable c → stopped s = false → mpsc_items c = p :: items →
  framed_send ls p (writer s) (encoder s) = (w', enc', res) →
  ∀ unread tail, Forall sendable tail → wire s unread tail →
  ∃ unread' tail' bytes part d, unread ++ tail = unread' ++ tail' ∧
    carries (decoder s) unread' bytes d ∧
    reader_inner (reader s) ++ in_flight (writer_inner w') = bytes ++ part ∧ cut part ∧
    (res = Returns (Ok ()) → part = [] ∧ tail' = items ∧ synced enc' d).
Proof.
  intros Hc Hst Hi Hs unread tail Htail (bytes & part & d & Hcar & Hb & Hcut & Hlive).
  destruct (Hlive Hst) as (-> & -> & Hsync). rewrite Hc in *. cbn in Htail |- *. rewrite Hi in *.
  apply Forall_cons in Htail as [Hp Htail]. rewrite app_nil_r in Hb.
  destruct (framed_send_net _ _ _ _ _ _ Hs) as [[Hf Hres]|(payload & frame & Hser & Hframe & Hout)].
  { exists unread, (p :: items), bytes, [], d. rewrite Hf, app_nil_r. split_and!; try done. }
  destruct (pair_roundtrip p _ _ _ _ Hp Hsync Hser) as (Hmax & d2 & Hde & Hsync').
  pose proof (carries_snoc _ _ _ _ _ _ _ _ Hcar Hframe Hmax Hde) as Hcar'.
  assert (Hwhole : ∀ fl, fl = in_flight (writer_inner (writer s)) ++ frame →
    reader_inner (reader s) ++ fl = bytes ++ frame) by (intros fl ->; by rewrite app_assoc, Hb).
  destruct Hout as [[_ Hf]|(n & Hres & Hf)].
  - exists (unread ++ [p]), items, (bytes ++ frame), [], d2. rewrite app_nil_r, <- app_assoc.
    split_and!; try done; by apply Hwhole.
  - destruct (decide (n < length frame)%nat) as [Hn|Hn].
    + exists unread, (p :: items), bytes, (take n frame), d. rewrite Hf, app_assoc, Hb.
      split_and!; try done. right. by exists payload, frame, n.
    + rewrite take_ge in Hf by lia.
      exists (unread ++ [p]), items, (bytes ++ frame), [], d2. rewrite app_nil_r, <- app_assoc.
      split_and!; try done; by apply Hwhole.
Qed.

Lemma pipe_write_sends s : (∃ c, queue (sender s) = Reliable c) → sends [] s (pipe_write ls s).
Proof.
  intros [c Hc]. unfold pipe_write. destruct (stopped s) eqn:Hst; [by apply sends_same; try done; exists c|].
  pose proof (take_next_queue (token_is_cancelled (cancel_token s)) _ c Hc) as Hn.
  destruct (take_next _ (sender s)) as [t st]. destruct Hn as [[c' Hc'] Hn]. destruct st.
  - apply finish_sends_same; [by exists c'|done].
  - by apply sends_same; try done; exists c'.
  - destruct Hn as (p & Hcur & Hi). rewrite Hcur.
    destruct (framed_send ls p (writer s) (encoder s)) as [[w enc] res] eqn:Hs.
    rewrite Hc in Hi. cbn in Hi.
    pose proof (wire_write s c p _ w enc res Hc Hst Hi Hs) as Hw.
    destruct res as [[[]|e]|].
    + split; cbn; try done; [by rewrite app_nil_r|by exists c'|].
      intros unread tail Ht Hwire.
      destruct (Hw unread tail Ht Hwire) as (unread' & tail' & bytes & part & d & He & Hcar & Hb & Hcut & Hok).
      exists unread', tail'. rewrite app_nil_r. split; [done|]. exists bytes, part, d.
      split_and!; try done. intros _. by apply Hok.
    + apply finish_sends; [by exists c'|]. intros unread tail Ht Hwire.
      destruct (Hw unread tail Ht Hwire) as (unread' & tail' & bytes & part & d & ? & ? & ? & ? & _).
      by exists unread', tail', bytes, part, d.
    + apply finish_sends; [unfold interrupt; rewrite Hcur; by exists c'|]. intros unread tail Ht Hwire.
      destruct (Hw unread tail Ht Hwire) as (unread' & tail' & bytes & part & d & ? & ? & ? & ? & _).
      by exists unread', tail', bytes, part, d.
Qed.

Lemma pipe_disconnect_sends s : (∃ c, queue (sender s) = Reliable c) → sends [] s (pipe_disconnect s).
Proof.
  intros Hk. unfold pipe_disconnect. cbn [stopped sender writer encoder with_sender].
  destruct (stopped s) eqn:Hst; [by apply sends_same; rewrite ?Hst|].
  match goal with |- sends _ _ (finish ?t ?w ?enc ?s1) =>
    destruct (finish_sends_same t w enc s1) as [Hr Ha Hn Hk' Hw] end;
    [unfold interrupt; by destruct (current (sender s)), Hk as [c Hc]; exists c|done|].
  split; try done. intros unread tail Ht Hwire. apply (Hw unread tail Ht).
  destruct Hwire as (bytes & part & d & ? & ? & ? & Hlive). exists bytes, part, d.
  split_and!; try done. cbn. intros _. by apply Hlive.
Qed.

Lemma pipe_deliver_sends n s : (∃ c, queue (sender s) = Reliable c) → sends [] s (pipe_deliver n s).
Proof.
  intros Hk. apply sends_same; try done. cbn.
  by rewrite <- app_assoc, take_drop.
Qed.

Lemma pipe_fault_sends f s : (∃ c, queue (sender s) = Reliable c) → sends [] s (pipe_fault f s).
Proof. intros Hk. by apply sends_same. Qed.

(** ** The receiving end *)

Context (Hsize : (0 < SIZE (LS:=LS))%nat) (Hmax : max_payload ≤ usize_max).

Lemma app_prefix_cases {A} (l fl m n : list A) : l ++ fl = m ++ n →
  (∃ rest, l = m ++ rest ∧ rest ++ fl = n) ∨ (length l < length m)%nat ∧ l = take (length l) m.
Proof.
  intros He. destruct (decide (length m ≤ length l)%nat) as [Hle|Hgt].
  - left. exists (drop (length m) l). assert (l = m ++ drop (length m) l) as Hl.
    { rewrite <- (take_drop (length m) l) at 1. f_equal.
      by rewrite <- (take_app_le l fl), He, take_app_length. }
    split; [done|]. rewrite Hl, <- app_assoc in He. by apply app_inv_head in He.
  - right. split; [lia|]. rewrite <- (take_app_le m n), <- He by lia. by rewrite take_app_length.
Qed.

Lemma receive_cut payload frame t limit now (r : list Z) (d : S2) f' d' res :
  frame_of ls payload frame → zlen payload ≤ max_payload → (t < length frame)%nat → r = take t frame →
  receive_with_timestamp (S (S (length r))) ls limit (now : Z) {| reader_inner := r |} d = Some (f', d', res) →
  ∃ e, res = Returns (Err e).
Proof.
  intros Hf Hm Ht Hr Hres.
  apply (receive_mono _ (S (S (length r)) + S (length frame))) in Hres; [|lia].
  destruct (receive_truncated (Ser:=Inc) ls limit now payload frame t d
    (S (S (length r)) + S (length frame)) {| reader_inner := r |}) as (f2 & e & He & _); try done; try lia.
  rewrite He in Hres. simplify_eq. by eexists.
Qed.

(** The reader returns the next packet on the wire, or fails for want of bytes. *)
Lemma receive_wire limit now (r fl : list Z) d unread bytes part dn f' d' res :
  max_payload ≤ limit → carries d unread bytes dn → r ++ fl = bytes ++ part → cut part →
  receive_with_timestamp (S (S (length r))) ls limit (now : Z) {| reader_inner := r |} d = Some (f', d', res) →
  (∃ e, res = Returns (Err e)) ∨
  ∃ p rest bytes', unread = p :: rest ∧ res = Returns (Ok (p, now)) ∧ carries d' rest bytes' dn ∧
    reader_inner f' ++ fl = bytes' ++ part.
Proof.
  intros Hlim Hcar Hb Hcut Hres. destruct Hcar as [d|d d1 dn p ps payload frame bytes Hf Hm Hde Hcar].
  - left. destruct Hcut as [->|(payload & frame & t & Hf & Hm & Ht & ->)].
    + apply app_nil in Hb as [-> _].
      destruct (receive_empty (Ser:=Inc) ls limit now d 1 {| reader_inner := [] |})
        as (f2 & e & He & _); [done..|]. cbn in Hres. rewrite He in Hres. simplify_eq. by eexists.
    + apply (receive_cut payload frame (length r) limit now r d f' d'); try done;
        apply (f_equal length) in Hb as Hl; rewrite ?length_app, ?length_take in Hl; cbn in Hl; [lia|].
      apply (f_equal (take (length r))) in Hb. rewrite take_app_length in Hb. cbn in Hb.
      rewrite take_take in Hb. rewrite Hb at 1. f_equal. lia.
  - rewrite <- app_assoc in Hb. apply app_prefix_cases in Hb as [(rest & -> & Hb)|[Hlt Ht]].
    + right. destruct (receive_frame (Ser:=Inc) ls limit now payload frame rest
        {| reader_inner := frame ++ rest |} d (S (S (length (frame ++ rest))))) as (f2 & Hp & He);
        [lia|done|rewrite length_app; lia|done|].
      rewrite (proj2 (Z.ltb_ge _ _)) in Hp, He by lia. rewrite Hde, Hres in He. simplify_eq.
      by exists p, ps, bytes.
    + left. by apply (receive_cut payload frame (length r) limit now r d f' d').
Qed.

Abbreviation poll_pipe := (pipe_poll ls connection closed_event on_evict record_full notify).

(** A poll after which the wire and the packets received account for each other
    again. *)
Lemma polled_inv s r dec p new :
  pipe_inv s → no_reopen p →
  let t' := poll false connection closed_event on_evict record_full notify p (receiver s) in
  follows new (receiver s) t' →
  (reading (receiver s) = true → ∀ unread tail, wire s unread tail →
     new = [] ∧ (reading t' = true → wire (with_receiver r dec t' s) unread tail) ∨
     ∃ e unread', new = [e] ∧ unread = event_packet e :: unread' ∧
       wire (with_receiver r dec t' s) unread' tail) →
  (reading (receiver s) = false → new = []) →
  pipe_inv (with_receiver r dec t' s) ∧ accepted (with_receiver r dec t' s) = accepted s ∧
  ∃ new, follows new (receiver s) (receiver (with_receiver r dec t' s)).
Proof.
  intros [Ht Hs Hk (rest & Ha & Hw)] Hp t' Hf Hrd Hnr. split; [|split; [done|by exists new]].
  split; cbn; [by apply poll_ok|done|done|]. rewrite (f_received _ _ _ Hf), fmap_app, Ha.
  destruct (reading (receiver s)) eqn:Hr.
  - destruct (Hw eq_refl) as (unread & tail & -> & Hwire).
    destruct (Hrd eq_refl unread tail Hwire) as [[-> Hw']|(e & unread' & -> & -> & Hw')].
    + exists (unread ++ tail). rewrite app_nil_r. split; [done|]. intros Hr'. exists unread, tail. auto.
    + exists (unread' ++ tail). rewrite <- app_assoc. split; [done|]. by exists unread', tail.
  - rewrite (Hnr eq_refl). exists rest. rewrite app_nil_r. split; [done|].
    destruct (f_reading _ _ _ Hf Hr) as [_ ->]. done.
Qed.

Lemma pipe_poll_inv limit now eof p s :
  max_payload ≤ limit → no_reopen p → pipe_inv s →
  let s' := poll_pipe limit now eof p s in
  pipe_inv s' ∧ accepted s' = accepted s ∧ ∃ new, follows new (receiver s) (receiver s').
Proof.
  intros Hlim Hp Hinv. unfold pipe_poll.
  match goal with |- context [with_receiver (reader s) (decoder s) ?t' s] =>
    set (idle := with_receiver (reader s) (decoder s) t' s) end.
  assert (Hidle : pipe_inv idle ∧ accepted idle = accepted s ∧
    ∃ new, follows new (receiver s) (receiver idle)).
  { destruct (poll_follows false connection closed_event on_evict record_full notify (with_reads [] p)
      (receiver s)) as (new & Hf & Hnew & _). cbn in Hnew. apply prefix_nil_inv in Hnew as ->.
    apply (polled_inv s _ _ (with_reads [] p) [] Hinv Hp Hf); [|done]. intros _ unread tail Hw. left. split; [done|].
    intros _. exact Hw. }
  clearbody idle.
  destruct (at_ (receiver s)) eqn:Ha; try done.
  destruct (token _ || _) eqn:Hc; [done|]. destruct (rv_send_error p) eqn:He; [done|]. cbn [orb].
  destruct (receive_with_timestamp _ _ _ _ _ _) as [[[r dec] res]|] eqn:Hres; [|done].
  destruct (starved eof res); [done|]. destruct res as [res|]; [|split; [done|split; [done|]]].
  2: exists []; apply follows_refl.
  destruct (poll_follows false connection closed_event on_evict record_full notify (with_reads [res] p)
    (receiver s)) as (new & Hf & Hnew & Hgo). specialize (Hgo Ha Hc He). cbn in Hgo, Hnew.
  assert (Hr : reading (receiver s) = true) by (unfold reading; by rewrite Ha).
  apply (polled_inv s r dec (with_reads [res] p) new Hinv Hp Hf); [|by rewrite Hr].
  intros _ unread tail (bytes & part & d & Hcar & Hb & Hcut & Hlive).
  destruct (receive_wire limit now _ _ _ _ _ _ _ _ _ _ Hlim Hcar Hb Hcut
    ltac:(by destruct (reader s))) as [[e [= ->]]|(pk & rest & bytes' & -> & [= ->] & Hcar' & Hb')].
  - left. cbn in Hnew. apply prefix_nil_inv in Hnew as ->. split; [done|]. by rewrite Hgo.
  - right. exists (event_of connection (pk, now)), rest. split_and!.
    + cbn in Hnew. destruct new as [|e new]; [done|].
      apply prefix_cons_inv_1 in Hnew as Heq. subst e.
      apply prefix_cons_inv_2 in Hnew. by apply prefix_nil_inv in Hnew as ->.
    + done.
    + exists bytes', part, d. split_and!; try done.
Qed.

(** ** One step *)

(** What the rest of the program may do: submit packets the pair of serializers
    agrees on, poll with a limit they meet, and not reopen the ECS channel. *)
Definition allowed (o : op) : Prop :=
  match o with
  | PipeSend p => sendable p
  | PipePoll limit _ _ p => max_payload ≤ limit ∧ no_reopen p
  | _ => True
  end.

Lemma pipe_step_inv s (o : op) : allowed o → pipe_inv s →
  pipe_inv (step s o) ∧ (accepted s `prefix_of` accepted (step s o)) ∧
  ∃ new, follows new (receiver s) (receiver (step s o)).
Proof.
  intros Ho Hinv. pose proof (i_kind _ Hinv) as Hk.
  assert (Hsends : ∀ new s', sends new s s' →
    pipe_inv s' ∧ (accepted s `prefix_of` accepted s') ∧ ∃ new, follows new (receiver s) (receiver s')).
  { intros new s' Hs. split; [by eapply sends_inv|]. destruct Hs as [-> -> _ _ _].
    split; [by apply prefix_app_r|]. exists []. apply follows_refl. }
  destruct o as [p| | |n|f|limit now eof p]; cbn in Ho |- *.
  - destruct (pipe_send_sends p s Ho Hk) as [new Hs]. exact (Hsends new _ Hs).
  - exact (Hsends [] _ (pipe_write_sends s Hk)).
  - exact (Hsends [] _ (pipe_disconnect_sends s Hk)).
  - exact (Hsends [] _ (pipe_deliver_sends n s Hk)).
  - exact (Hsends [] _ (pipe_fault_sends f s Hk)).
  - destruct Ho as [Hlim Hp]. destruct (pipe_poll_inv limit now eof p s Hlim Hp Hinv) as (Hi & -> & Hf).
    by split.
Qed.

Lemma delivered_accepted s : pipe_inv s →
  event_packet <$> forwarded (receiver s) `prefix_of` accepted s.
Proof.
  intros [Ht _ _ (rest & Ha & _)]. rewrite Ha. apply prefix_app_r.
  pose proof (ok_order _ _ _ _ Ht) as Ho. unfold order_ok in Ho.
  assert (forwarded (receiver s) `prefix_of` received (receiver s)) as [more ->].
  { destruct (at_ _); [by rewrite Ho|destruct Ho as [-> _]; by apply prefix_app_r|..];
      (destruct Ho as [->|[? ->]]; [done|by apply prefix_app_r]). }
  rewrite fmap_app. by apply prefix_app_r.
Qed.

Lemma pipe_step_simulates s (o : op) : allowed o → pipe_inv s →
  rtc channel_step (channel_of s) (channel_of (step s o)).
Proof.
  intros Ho Hinv. destruct (pipe_step_inv s o Ho Hinv) as (Hinv' & Hacc & new & [_ Hf Hr]).
  apply channel_reaches; [done| |by apply delivered_accepted|].
  - destruct Hf as [more ->]. rewrite fmap_app. by apply prefix_app_r.
  - intros Hc. by destruct (Hr Hc) as [-> ->].
Qed.

Lemma pipe_start_inv capacity token h enc dec incoming datagrams disconnects handles :
  synced enc dec → 0 < capacity →
  pipe_inv (pipe_start connection closed_event on_evict record_full notify capacity token h enc dec
    incoming datagrams disconnects handles).
Proof.
  intros Hsync Hcap. split; cbn.
  - by apply (receive_packets_ok false connection closed_event on_evict record_full notify []).
  - done.
  - by eexists.
  - exists []. split; [done|]. intros _. exists [], []. split; [done|]. exists [], [], dec. split_and!; try done.
    + constructor.
    + by left.
    + intros _. destruct (mpsc_channel_view (Ch:=Ch) (T:=P) capacity Hcap) as [Hi _]. cbn. by rewrite Hi.
Qed.

(** C1. A stream connection, from [send] on one end to the ECS on the other, is a
    first-in first-out channel: every step of a connection is a run of the
    specification. *)
Theorem connection_refines_channel (os : list op) capacity token h enc dec
    incoming datagrams disconnects handles :
  Forall allowed os → synced enc dec → 0 < capacity →
  let start := pipe_start connection closed_event on_evict record_full notify capacity token h enc dec
    incoming datagrams disconnects handles in
  rtc channel_step (Build_channel [] [] true)
    (channel_of (pipe_run ls connection closed_event on_evict record_full notify os start)).
Proof.
  intros Hall Hsync Hcap start.
  assert (Hinv : pipe_inv start) by by apply pipe_start_inv.
  change (Build_channel [] [] true) with (channel_of start). clearbody start. revert start Hinv.
  induction Hall as [|o os Ho _ IH]; intros s Hinv; [done|].
  etrans; [by apply pipe_step_simulates|]. by apply IH, pipe_step_inv.
Qed.

(** ** A connection left alone delivers *)

Abbreviation run := (pipe_run ls connection closed_event on_evict record_full notify).

Lemma pipe_run_inv s (os : list op) : Forall allowed os → pipe_inv s → pipe_inv (run os s).
Proof.
  intros Hall. revert s. induction Hall as [|o os Ho _ IH]; intros s Hinv; [done|].
  by apply IH, pipe_step_inv.
Qed.

Lemma pipe_run_app s (os1 os2 : list op) : run (os1 ++ os2) s = run os2 (run os1 s).
Proof. apply foldl_app. Qed.

(** The writer empties its queue. *)
Lemma writes_drain ps : ∀ s c w enc,
  stopped s = false → token_is_cancelled (cancel_token s) = false →
  queue (sender s) = Reliable c → mpsc_items c = ps →
  send_all ls ps (writer s) (encoder s) = Some (w, enc) →
  let s' := run (replicate (length ps) PipeWrite) s in
  stopped s' = false ∧ queue_items (queue (sender s')) = [] ∧
  receiver s' = receiver s ∧ accepted s' = accepted s.
Proof.
  induction ps as [|p ps IH]; intros s c w enc Hst Htok Hc Hi Hall; cbn zeta; [cbn; by rewrite Hc|].
  cbn [send_all] in Hall.
  destruct (framed_send ls p (writer s) (encoder s)) as [[w1 enc1] [[u|e]|]] eqn:Hs; try done.
  cbn [length replicate pipe_run foldl].
  assert (Hstep : ∃ t c', step s PipeWrite = with_sender (cancel_token s) t false w1 enc1 (accepted s) s ∧
    queue t = Reliable c' ∧ mpsc_items c' = ps).
  { cbn. unfold pipe_write, take_next. rewrite Hst, Htok, Hc. cbn [receiver_poll_recv].
    destruct (mpsc_poll_recv c) as [c' r] eqn:Hr. apply mpsc_poll_recv_view in Hr as (_ & _ & _ & Hr).
    rewrite Hi in Hr. destruct Hr as [-> Hi']. cbn [current]. rewrite Hs. by eexists _, c'. }
  destruct Hstep as (t & c' & -> & Hc' & Hi').
  destruct (IH (with_sender (cancel_token s) t false w1 enc1 (accepted s) s) c' w enc) as (? & ? & ? & ?);
    by try apply Hall.
Qed.

(** What a poll with room in the ECS channel and nothing else to do is. *)
Record ready (p : env) : Prop := {
  ready_alive : rv_cancelled p = false;
  ready_writer : rv_send_error p = None;
  ready_room c : mpsc_is_closed c = false → 0 < mpsc_max_capacity c →
    mpsc_is_closed (rv_incoming p c) = false ∧
    mpsc_max_capacity (rv_incoming p c) = mpsc_max_capacity c ∧
    zlen (mpsc_items (rv_incoming p c)) < mpsc_max_capacity (rv_incoming p c);
}.

(** The receive task at its [select!], alive, with the ECS listening. *)
Definition receiving (t : rtask) : Prop :=
  at_ t = Receiving ∧ token t = false ∧ mpsc_is_closed (incoming t) = false ∧
  0 < mpsc_max_capacity (incoming t).

(** A poll that finds a packet, and room for it in the ECS channel. *)
Lemma poll_forwards (p : env) (t : rtask) pk now :
  rv_cancelled p = false → rv_send_error p = None → at_ t = Receiving → token t = false →
  let c := rv_incoming p (incoming t) in
  mpsc_is_closed c = false → zlen (mpsc_items c) < mpsc_max_capacity c →
  let e := event_of connection (pk, now) in
  let t' := poll false connection closed_event on_evict record_full notify (with_reads [Ok (pk, now)] p) t in
  at_ t' = Receiving ∧ token t' = false ∧ forwarded t' = forwarded t ++ [e] ∧
  mpsc_is_closed (incoming t') = false ∧ mpsc_max_capacity (incoming t') = mpsc_max_capacity c ∧
  mpsc_items (incoming t') = mpsc_items c ++ [StreamPacket e].
Proof.
  intros Hal Hwr Ha Htok c Hopen Hfree e.
  unfold poll. cbn [at_ observe_others]. rewrite Ha. cbn [receive_loop with_reads rv_send_error
    rv_reads token rv_cancelled observe_others]. rewrite Hwr, Htok, Hal. cbn [orb hand_over].
  unfold poll_stream_send. cbn [incoming with_received observe_others rv_incoming with_reads].
  fold c. destruct (mpsc_poll_send c _) as [c' r] eqn:Hs.
  apply mpsc_poll_send_view in Hs as (Hc & Hm & _ & Hs). rewrite Hopen in Hc, Hs.
  rewrite (proj2 (Z.leb_gt _ _) Hfree) in Hs. destruct Hs as [-> Hi]. cbn. by rewrite Htok, Hal, Hc, Hm, Hi.
Qed.

Lemma poll_hands_over p t pk now : ready p → receiving t →
  let t' := poll false connection closed_event on_evict record_full notify (with_reads [Ok (pk, now)] p) t in
  receiving t' ∧ forwarded t' = forwarded t ++ [event_of connection (pk, now)].
Proof.
  intros [Hal Hwr Hroom] (Ha & Htok & Hopen & Hpos).
  destruct (Hroom _ Hopen Hpos) as (Hopen' & Hcap & Hfree).
  destruct (poll_forwards p t pk now Hal Hwr Ha Htok Hopen') as (? & ? & ? & ? & Hm & _).
  - done.
  - unfold receiving. split_and!; try done. lia.
Qed.

(** A task at its [select!] reads the next packet whose bytes have arrived. *)
Lemma pipe_poll_reads limit now (p : env) dn pk unread s :
  max_payload ≤ limit → rv_cancelled p = false → rv_send_error p = None →
  at_ (receiver s) = Receiving → token (receiver s) = false →
  carries (decoder s) (pk :: unread) (reader_inner (reader s)) dn →
  ∃ f d, step s (PipePoll limit now false p) =
      with_receiver f d (poll false connection closed_event on_evict record_full notify
        (with_reads [Ok (pk, now)] p) (receiver s)) s ∧
    carries d unread (reader_inner f) dn.
Proof.
  intros Hlim Hal Hwr Ha Htok Hcar. inversion Hcar as [|? d1 ? ? ? payload frame bytes Hf Hm Hde Hcar' Hd0 Hps Hb];
    subst. cbn. unfold pipe_poll. rewrite Ha, Htok, Hal, Hwr. cbn [orb].
  destruct (receive_frame (Ser:=Inc) ls limit now payload frame bytes (reader s) (decoder s)
    (S (S (length (frame ++ bytes))))) as (f' & Hpend & Hr);
    [lia|done|rewrite length_app; lia|done|].
  rewrite (proj2 (Z.ltb_ge _ _)) in Hr, Hpend by lia. rewrite Hde in Hr. rewrite <- Hb, Hr. cbn [starved].
  exists f', d1. split; [done|]. cbn in Hpend. by rewrite Hpend.
Qed.

(** Every packet whose bytes have arrived is handed over. *)
Lemma polls_deliver limit now p dn unread :
  max_payload ≤ limit → ready p → ∀ s,
  carries (decoder s) unread (reader_inner (reader s)) dn → receiving (receiver s) →
  let s' := run (replicate (length unread) (PipePoll limit now false p)) s in
  event_packet <$> forwarded (receiver s') = (event_packet <$> forwarded (receiver s)) ++ unread.
Proof.
  intros Hlim Hp. induction unread as [|pk unread IH]; intros s Hcar Hrc; [cbn; by rewrite app_nil_r|].
  cbn [length replicate pipe_run foldl]. pose proof Hrc as (Ha & Htok & _).
  destruct (pipe_poll_reads limit now p dn pk unread s Hlim (ready_alive _ Hp) (ready_writer _ Hp) Ha Htok Hcar)
    as (f & d & -> & Hcar').
  destruct (poll_hands_over p (receiver s) pk now Hp Hrc) as [Hrc' Hfw].
  etrans; [by apply IH|]. cbn. by rewrite Hfw, fmap_app, <- app_assoc.
Qed.

(** The sending end left alone: the queue is written out and its bytes arrive; what
    the receive task has not read yet is then in front of its reader. *)
Lemma sender_empties s w enc' :
  pipe_inv s → stopped s = false → token_is_cancelled (cancel_token s) = false →
  at_ (receiver s) = Receiving →
  send_all ls (queue_items (queue (sender s))) (writer s) (encoder s) = Some (w, enc') →
  ∃ writes bytes unread dn,
    let s' := run (replicate writes PipeWrite ++ [PipeDeliver bytes]) s in
    receiver s' = receiver s ∧ accepted s' = accepted s ∧
    carries (decoder s') unread (reader_inner (reader s')) dn ∧
    accepted s = (event_packet <$> forwarded (receiver s)) ++ unread.
Proof.
  intros Hinv Hst Htok Ha Hsend. destruct (i_kind _ Hinv) as [c Hc]. rewrite Hc in Hsend.
  destruct (writes_drain _ s c w enc' Hst Htok Hc eq_refl Hsend) as (Hst1 & Hq1 & Hrc1 & Hacc1).
  set (n := length (mpsc_items c)) in *. set (s1 := run (replicate n PipeWrite) s) in *.
  assert (Hinv1 : pipe_inv s1) by (apply pipe_run_inv; [by apply Forall_replicate|done]).
  destruct (i_received _ Hinv1) as (rest & Hacc & Hwire). rewrite Hrc1 in Hacc, Hwire.
  assert (Hrd : reading (receiver s) = true) by (unfold reading; by rewrite Ha).
  destruct (Hwire Hrd) as (unread & tail & -> & bytes & part & dn & Hcar & Hb & _ & Hlive).
  destruct (Hlive Hst1) as (-> & -> & _). rewrite Hq1, app_nil_r in *.
  exists n, (length (in_flight (writer_inner (writer s1)))), unread, dn. cbn zeta.
  rewrite pipe_run_app. fold s1. cbn. rewrite take_ge, Hb by done. split_and!; try done.
  pose proof (ok_order _ _ _ _ (i_task _ Hinv)) as Ho. unfold order_ok in Ho. rewrite Ha in Ho.
  by rewrite <- Hacc1, Hacc, Ho.
Qed.

(** A connection left alone delivers everything: in any state the connection
    can reach in which its two tasks are still running and the ECS listening, if
    the queued packets encode and the network takes their bytes, then writing
    the queue out, letting the bytes arrive and polling the receive task delivers
    every packet accepted so far, in order. *)
Theorem connection_delivers (os : list op) capacity token h enc dec
    incoming datagrams disconnects handles limit now p :
  Forall allowed os → synced enc dec → 0 < capacity → max_payload ≤ limit → no_reopen p → ready p →
  let s := run os (pipe_start connection closed_event on_evict record_full notify capacity token h enc dec
    incoming datagrams disconnects handles) in
  stopped s = false → token_is_cancelled (cancel_token s) = false → receiving (receiver s) →
  is_Some (send_all ls (queue_items (queue (sender s))) (writer s) (encoder s)) →
  ∃ writes bytes polls,
    c_delivered (channel_of (run (replicate writes PipeWrite ++ PipeDeliver bytes ::
      replicate polls (PipePoll limit now false p)) s)) = accepted s.
Proof.
  intros Hall Hsync Hcap Hlim Hno Hp s Hst Htok Hrc [[w enc'] Hsend].
  assert (Hinv : pipe_inv s) by by apply pipe_run_inv, pipe_start_inv. clearbody s.
  destruct (sender_empties s w enc' Hinv Hst Htok (proj1 Hrc) Hsend)
    as (n & k & unread & dn & Hrc' & _ & Hcar & Hacc).
  exists n, k, (length unread). rewrite cons_middle, app_assoc, pipe_run_app. unfold channel_of. cbn [c_delivered].
  rewrite (polls_deliver limit now p dn unread Hlim Hp) by (done || by rewrite Hrc').
  by rewrite Hrc', Hacc.
Qed.
End Refinement.

(** ** A concrete connection

    Booleans over a two-byte prefix: the first packet arrives, the second is cut
    by a network fault, and the peer's stream ends. *)

Abbreviation demo_error :=
  (ReceiveError (DecodeError (Serializer:=bool_serializer)) (ls_error (LS:=LittleEndian u16))).
Abbreviation demo_op :=
  (pipe_op (Ch:=fifo) (LS:=LittleEndian u16) (P:=bool) (Inc:=bool_serializer) (E:=unit) (D:=demo_error)
     (Addr:=nat) (store:=list QueueDropReason)).

Definition demo_env : recv_poll fifo bool unit demo_error (DecodeError (Serializer:=bool_serializer))
    (ls_error (LS:=LittleEndian u16)) nat (list QueueDropReason) := {|
  rv_cancelled := false; rv_send_error := None; rv_late_error := None; rv_reads := [];
  rv_incoming c := fifo_with c []; rv_datagrams q := q; rv_disconnects c := c; rv_handles h := h |}.

Definition demo_id : ConnectionId := {| connection_number := 3 |}.

Definition demo_start := pipe_start (L:=bool) (Ch:=fifo) (LS:=LittleEndian u16) (Inc:=bool_serializer)
  (E:=unit) (D:=demo_error) (Addr:=nat) demo_id (λ e, e) (λ _ (h : list QueueDropReason), h) (λ h, h) None 4 false
  ([] : list QueueDropReason) bool_adapter bool_adapter (mpsc_channel 2)
  (lossy_channel 2 usize_max DropOldest) (mpsc_channel 1) [].

Definition demo_run (os : list demo_op) :=
  pipe_run (Out:=bool_serializer) (D:=demo_error) u16le demo_id (λ e, e) (λ _ h, h) (λ h, h) None os demo_start.

Definition demo_healthy : list demo_op :=
  [PipeSend true; PipeWrite; PipeSend false; PipeDeliver 2; PipePoll 64 0 false demo_env;
   PipeDeliver 1; PipePoll 64 0 false demo_env].

Definition demo_ops : list demo_op :=
  demo_healthy ++ [PipeFault (Some (2%nat, io_error_from BrokenPipe)); PipeWrite; PipeDeliver 9;
                   PipePoll 64 0 true demo_env].

Example demo_channel : channel_of (demo_run demo_ops) = Build_channel [true; false] [true] false.
Proof. by vm_compute. Qed.

Lemma demo_env_quiet : no_reopen demo_env ∧ ready (Inc:=bool_serializer) (LS:=LittleEndian u16) demo_env.
Proof. split; [intros c Hc; exact Hc|]. split; [done|done|]. intros c Hc Hpos. split_and!; [exact Hc|done|exact Hpos]. Qed.

Lemma demo_allowed (os : list demo_op) :
  Forall (λ o, match o with PipePoll limit _ _ p => limit = 64 ∧ p = demo_env | _ => True end) os →
  Forall (allowed (sendable:=λ _, True) (max_payload:=1)) os.
Proof.
  intros Hall. eapply Forall_impl; [exact Hall|]. intros [| | | | |limit now eof p]; cbn; try done.
  intros [-> ->]. split; [lia|apply demo_env_quiet].
Qed.

Lemma connection_refines_channel_witness :
  (∃ r, bool_adapter = ReadOnly r) ∧
  rtc channel_step (Build_channel [] [] true) (channel_of (demo_run demo_ops)).
Proof.
  assert (Hr : ∃ r, bool_adapter = ReadOnly r) by by exists bitcode_new.
  split; [exact Hr|].
  refine (connection_refines_channel (Out:=bool_serializer) (sendable:=λ _, True) (max_payload:=1)
    (synced:=λ s1 s2, s1 = s2 ∧ ∃ r, s1 = ReadOnly r) u16le demo_id (λ e, e) (λ _ h, h) (λ h, h) None
    _ _ demo_ops 4 false [] bool_adapter bool_adapter (mpsc_channel 2)
    (lossy_channel 2 usize_max DropOldest) (mpsc_channel 1) [] _ (conj eq_refl Hr) _).
  - apply Nat.ltb_lt. by vm_compute.
  - apply Z.leb_le. by vm_compute.
  - apply demo_allowed. by repeat constructor.
  - lia.
Defined.

Lemma connection_delivers_witness :
  accepted (demo_run demo_healthy) = [true; false] ∧
  ∃ writes bytes polls,
    c_delivered (channel_of (pipe_run (Out:=bool_serializer) (D:=demo_error) u16le demo_id (λ e, e) (λ _ h, h)
      (λ h, h) None (replicate writes PipeWrite ++ PipeDeliver bytes ::
        replicate polls (PipePoll 64 0 false demo_env)) (demo_run demo_healthy))) =
    accepted (demo_run demo_healthy).
Proof.
  split; [by vm_compute|].
  refine (connection_delivers (Out:=bool_serializer) (sendable:=λ _, True) (max_payload:=1)
    (synced:=λ s1 s2, s1 = s2 ∧ ∃ r, s1 = ReadOnly r) u16le demo_id (λ e, e) (λ _ h, h) (λ h, h) None
    _ _ demo_healthy 4 false [] bool_adapter bool_adapter (mpsc_channel 2)
    (lossy_channel 2 usize_max DropOldest) (mpsc_channel 1) [] 64 0 demo_env
    _ (conj eq_refl (ex_intro _ bitcode_new eq_refl)) _ _ _ _ _ _ _ _).
  - apply Nat.ltb_lt. by vm_compute.
  - apply Z.leb_le. by vm_compute.
  - apply demo_allowed. by repeat constructor.
  - lia.
  - lia.
  - apply demo_env_quiet.
  - apply demo_env_quiet.
  - by vm_compute.
  - by vm_compute.
  - by vm_compute.
  - by eexists.
Defined.
