(* ===== verification/Datagrams.v ===== *)
(** * A datagram connection from end to end

    Composes what a packet of a UDP connection goes through: the ECS handle and
    its lossy outgoing queue ([Connection], [Queue]), the send task ([Tasks]), the
    paced write half ([UdpStream]), a network that loses, repeats and reorders
    datagrams and brings foreign ones, the peer's queue or socket ([Peer],
    [UdpStream]) and the receive task ([Receive]); and states what the whole
    promises as an abstract channel it refines. *)

From stdpp Require Import sorting.
From S2P Require Import Prelude Protocol Lossy Externals Diagnostics Settings Queue Serializer Pacing Peer UdpStream Connection Tasks Receive.

Local Open Scope Z_scope.

(** ** The specification: a channel of datagrams

    It accepts packets, may discard any of those that wait, and puts the others on
    the network in order. An arrival is the index of a packet that was put on the
    network: it may be of any of them, any number of times. Arrivals wait in order;
    any may be lost; the others are delivered until the channel closes. *)
Record dchannel (P : Type) := {
  d_accepted : list P;
  d_queue : list P;
  d_transmitted : list P;
  d_arrived : list nat;
  d_inbox : list nat;
  d_delivered : list nat;
  d_open : bool;
}.
Arguments d_accepted {P}. Arguments d_queue {P}. Arguments d_transmitted {P}. Arguments d_arrived {P}.
Arguments d_inbox {P}. Arguments d_delivered {P}. Arguments d_open {P}. Arguments Build_dchannel {P}.

Inductive dchannel_step {P} : dchannel P → dchannel P → Prop :=
  | dchannel_accept p acc q tr arr box del o :
      dchannel_step (Build_dchannel acc q tr arr box del o) (Build_dchannel (acc ++ [p]) (q ++ [p]) tr arr box del o)
  | dchannel_discard q' acc q tr arr box del o :
      q' `sublist_of` q →
      dchannel_step (Build_dchannel acc q tr arr box del o) (Build_dchannel acc q' tr arr box del o)
  | dchannel_transmit p acc q tr arr box del o :
      dchannel_step (Build_dchannel acc (p :: q) tr arr box del o) (Build_dchannel acc q (tr ++ [p]) arr box del o)
  | dchannel_arrive i acc q tr arr box del o :
      (i < length tr)%nat →
      dchannel_step (Build_dchannel acc q tr arr box del o) (Build_dchannel acc q tr (arr ++ [i]) (box ++ [i]) del o)
  | dchannel_lose box' acc q tr arr box del o :
      box' `sublist_of` box →
      dchannel_step (Build_dchannel acc q tr arr box del o) (Build_dchannel acc q tr arr box' del o)
  | dchannel_deliver i acc q tr arr box del :
      dchannel_step (Build_dchannel acc q tr arr (i :: box) del true)
                    (Build_dchannel acc q tr arr box (del ++ [i]) true)
  | dchannel_close acc q tr arr box del o :
      dchannel_step (Build_dchannel acc q tr arr box del o) (Build_dchannel acc q tr arr box del false).

Definition dchannel_start {P} : dchannel P := Build_dchannel [] [] [] [] [] [] true.

(** The packets delivered. *)
Definition d_packets {P} (a : dchannel P) : list P := omap (λ i, d_transmitted a !! i) (d_delivered a).

(** ** What a write puts on the network

    A datagram socket sends whole datagrams: the one whose [send] it answered. *)
Section Writes.
Context {W : Type → Type} `{Watch W} {L : Type} `{CancellationToken L}.

Fixpoint select_sends (polls : list (bool * option (result Z io_error))) (s : PeerState W L) : bool :=
  match polls with
  | [] => false
  | (cancelled, answer) :: polls =>
      let s := observe cancelled s in
      if Peer.is_closed s then false
      else match answer with
      | None => select_sends polls s
      | Some res => is_ok res
      end
  end.

Definition write_puts `{Out : Serializer S1 Q P} (packet : P) (e : write_env) (h : UdpWriteHalf)
    (s : PeerState W L) (c : S1) : list (list Z) :=
  match serialize packet c with
  | (_, Returns (Ok payload)) =>
      if validated_max_payload_size (Peer.options s) <? zlen payload then []
      else match wait (pacer h) (we_first e) (we_waits e) with
      | Ready (Ok _) =>
          if negb (Peer.is_closed s) && select_sends (we_sends e) s then [payload] else []
      | _ => []
      end
  | _ => []
  end.
End Writes.

(** ** The receiving side of the network

    A client's socket buffer, or the queue the server's listener fills. *)
Inductive Inbox := Socket (datagrams : list (list Z)) | PeerQueue (q : Shared QueuedDatagram).

Section Inbox.
Context `{Target} {W : Type → Type} `{Watch W} {L : Type} `{CancellationToken L}.

Definition inbox_arrive (data : list Z) (now : Z) (i : Inbox) (s : PeerState W L) : Inbox * PeerState W L :=
  match i with
  | Socket ds => (Socket (ds ++ [data]), s)
  | PeerQueue q => let '(q, s) := Peer.push data now q s in (PeerQueue q, s)
  end.

(** What the next datagram looks like to the read half: through the socket, after
    [errs] and cut at the size of the buffer, or from the queue. *)
Definition inbox_next (errs : list io_error) (now : Z) (i : Inbox) : Incoming :=
  match i with
  | Socket ds =>
      FromSocket ((Err <$> errs) ++
        match ds with
        | data :: _ =>
            let buffer := take (Z.to_nat BUFFER_SIZE) data in
            [Ok {| recv_len := zlen buffer; recv_buffer := buffer; recv_now := now |}]
        | [] => []
        end)
  | PeerQueue q => FromQueue q
  end.

Definition inbox_pop (i : Inbox) : Inbox :=
  match i with
  | Socket ds => Socket (drop 1 ds)
  | PeerQueue q => PeerQueue (recv_attempt q).1.1
  end.

(** The datagrams that wait. *)
Definition inbox_items (i : Inbox) : list (list Z) :=
  match i with Socket ds => ds | PeerQueue q => Peer.bytes <$> (items (state q)).*1 end.
End Inbox.

Section Connection.
Context `{Target} {W : Type → Type} `{Watch W} {L : Type} `{CancellationToken L}.
Context {Ch : Type → Type} `{Mpsc Ch}.
Context {S1 S2 P Q : Type} `{Out : Serializer S1 Q P} `{Inc : Serializer S2 P Q}.
Context {E D Addr store LenErr : Type}.

Variable connection : ConnectionId.
Variable closed_event : ReceiveError (DecodeError (Serializer:=Inc)) LenErr → D.
Variable on_evict : PacketReceiveEvent P → store → store.
Variable record_full : store → store.
Variable notify : option Addr.

Abbreviation receive_task := (RecvTask Ch P E D (DecodeError (Serializer:=Inc)) LenErr Addr store).
Abbreviation poll_env := (recv_poll Ch P E D (DecodeError (Serializer:=Inc)) LenErr Addr store).
Abbreviation send_task := (SendTask Ch (UdpConnectionHandle W) P).

(** Both ends and what is between them. The send task's transport handle is the
    one of the sending peer's state. [wire], [accepted] and [arrivals] log the
    datagrams put on the network, the packets [send] took and which of the
    datagrams arrived. *)
Record DPipe := {
  cancel_token : L;
  sender : send_task;
  stopped : bool;
  write_half : UdpWriteHalf;
  local_peer : PeerState W L;
  encoder : S1;
  wire : list (list Z);
  inbox : Inbox;
  remote_peer : PeerState W L;
  decoder : S2;
  receiver : receive_task;
  accepted : list P;
  arrivals : list nat;
}.

Definition with_task_handle (h : UdpConnectionHandle W) (t : send_task) : send_task :=
  {| queue := queue t; cancelled := cancelled t; Tasks.handle := h; send_error := send_error t;
     current := current t; log := log t |}.

(** The handle the task changed is the peer's. *)
Definition after_task (t : send_task) (s : PeerState W L) : PeerState W L :=
  with_handle (λ _, Tasks.handle t) s.

Definition with_sender (token : L) (t : send_task) (stop : bool) (h : UdpWriteHalf) (ps : PeerState W L)
    (enc : S1) (sent : list (list Z)) (acc : list P) (s : DPipe) : DPipe :=
  {| cancel_token := token; sender := with_task_handle (Peer.handle ps) t; stopped := stop; write_half := h;
     local_peer := ps; encoder := enc; wire := wire s ++ sent; inbox := inbox s;
     remote_peer := remote_peer s; decoder := decoder s; receiver := receiver s; accepted := acc;
     arrivals := arrivals s |}.

(** Leaving its loop, the receive task has closed the reader, and with it the
    peer. *)
Definition with_receiver (box : Inbox) (ps : PeerState W L) (dec : S2) (t : receive_task) (s : DPipe) : DPipe :=
  {| cancel_token := cancel_token s; sender := sender s; stopped := stopped s; write_half := write_half s;
     local_peer := local_peer s; encoder := encoder s; wire := wire s; inbox := box;
     remote_peer := if reader_closed t then Peer.close ps else ps; decoder := dec; receiver := t;
     accepted := accepted s; arrivals := arrivals s |}.

(** [EcsConnection::send] on the sending end. *)
Definition dg_send (p : P) (s : DPipe) : DPipe :=
  let t := sender s in
  let k := {| disconnect_task := cancel_token s; published := true; packet_tx := queue t;
              transport := Tasks.handle t |} in
  let '(k, res) := send p k in
  let t := {| queue := packet_tx k; cancelled := cancelled t; Tasks.handle := transport k;
              send_error := send_error t; current := current t; log := log t |} in
  with_sender (cancel_token s) t (stopped s) (write_half s) (after_task t (local_peer s)) (encoder s) []
    (match res with Ok _ => accepted s ++ [p] | Err _ => accepted s end) s.

(** The end of the send task. *)
Definition dg_finish (t : send_task) (h : UdpWriteHalf) (ps : PeerState W L) (enc : S1)
    (sent : list (list Z)) (s : DPipe) : DPipe :=
  let '(q, hd) := receiver_drop (set_transport receiver_new) (queue t) (Tasks.handle t) in
  let t := {| queue := q; cancelled := true; Tasks.handle := hd; send_error := send_error t;
              current := None; log := log t |} in
  with_sender (token_cancel (cancel_token s)) t true h (after_task t ps) enc sent (accepted s) s.

(** One iteration of the send task's loop over the write half. [e] is what the
    write meets until it completes; while it has not, the packet stays in flight. *)
Definition dg_write (e : write_env) (s : DPipe) : DPipe :=
  if stopped s then s
  else
    let '(t, st) := match current (sender s) with
                    | Some _ => (sender s, Write)
                    | None => take_next (token_is_cancelled (cancel_token s)) (sender s)
                    end in
    let ps := after_task t (local_peer s) in
    match st with
    | Stop => dg_finish t (write_half s) ps (encoder s) [] s
    | Wait => with_sender (cancel_token s) t false (write_half s) ps (encoder s) [] (accepted s) s
    | Write =>
        match current t with
        | None => s
        | Some packet =>
            let puts := write_puts packet e (write_half s) ps (encoder s) in
            match udp_send packet e (write_half s) ps (encoder s) with
            | (_, _, _, Pending) =>
                with_sender (cancel_token s) t false (write_half s) ps (encoder s) [] (accepted s) s
            | (h, ps, enc, Ready Panics) =>
                dg_finish (interrupt (with_task_handle (Peer.handle ps) t)) h ps enc [] s
            | (h, ps, enc, Ready (Returns (Ok u))) =>
                let t := complete packet (Ok u) (with_task_handle (Peer.handle ps) t) in
                with_sender (cancel_token s) t false h (after_task t ps) enc puts (accepted s) s
            | (h, ps, enc, Ready (Returns (Err err))) =>
                dg_finish (complete packet (Err err) (with_task_handle (Peer.handle ps) t)) h ps enc puts s
            end
        end
    end.

(** [disconnect] on the sending end, and the biased [select!] seeing it. *)
Definition dg_disconnect (s : DPipe) : DPipe :=
  let s := with_sender (token_cancel (cancel_token s)) (sender s) (stopped s) (write_half s)
             (local_peer s) (encoder s) [] (accepted s) s in
  if stopped s then s
  else dg_finish (interrupt (sender s)) (write_half s) (local_peer s) (encoder s) [] s.

(** The network: the datagram with index [i] arrives, or a foreign one does. *)
Definition dg_inbox (data : list Z) (now : Z) (arrived : list nat) (s : DPipe) : DPipe :=
  let '(box, ps) := inbox_arrive data now (inbox s) (remote_peer s) in
  {| cancel_token := cancel_token s; sender := sender s; stopped := stopped s; write_half := write_half s;
     local_peer := local_peer s; encoder := encoder s; wire := wire s; inbox := box;
     remote_peer := ps; decoder := decoder s; receiver := receiver s; accepted := accepted s;
     arrivals := arrivals s ++ arrived |}.

Definition dg_arrive (i : nat) (now : Z) (s : DPipe) : DPipe :=
  match wire s !! i with Some data => dg_inbox data now [i] s | None => s end.

(** A poll of the receive task: the read half is polled only at the [select!],
    when neither the writer's error nor a cancellation comes first. [cancelled] is
    whether the peer has been closed by then. A panic of the codec leaves the task
    where it is: it says nothing more. *)
Definition dg_poll (cancelled : bool) (errs : list io_error) (limit now : Z) (p : poll_env) (s : DPipe) : DPipe :=
  let t := receiver s in
  let polled reads := poll true connection closed_event on_evict record_full notify (with_reads reads p) t in
  let idle := with_receiver (inbox s) (remote_peer s) (decoder s) (polled []) s in
  match at_ t with
  | Receiving =>
      if (token t || rv_cancelled p) || match rv_send_error p with Some _ => true | None => false end
      then idle
      else
        let view := inbox_next errs now (inbox s) in
        let box := if Peer.is_closed (observe cancelled (remote_peer s)) then inbox s
                   else match next view with Ready (Ok _) => inbox_pop (inbox s) | _ => inbox s end in
        match udp_receive_with_timestamp
          [{| rp_cancelled := cancelled; rp_incoming := view; rp_limit := limit |}]
          (remote_peer s) (decoder s) with
        | (ps, dec, Pending) => with_receiver box ps dec (polled []) s
        | (ps, dec, Ready Panics) => with_receiver box ps dec t s
        | (ps, dec, Ready (Returns res)) => with_receiver box ps dec (polled [res]) s
        end
  | _ => idle
  end.

Inductive dg_op :=
  | DgSend (p : P)
  | DgWrite (e : write_env)
  | DgDisconnect
  | DgArrive (i : nat) (now : Z)
  | DgForeign (data : list Z) (now : Z)
  | DgPoll (cancelled : bool) (errs : list io_error) (limit now : Z) (p : poll_env).

Definition dg_step (s : DPipe) (o : dg_op) : DPipe :=
  match o with
  | DgSend p => dg_send p s
  | DgWrite e => dg_write e s
  | DgDisconnect => dg_disconnect s
  | DgArrive i now => dg_arrive i now s
  | DgForeign data now => dg_inbox data now [] s
  | DgPoll cancelled errs limit now p => dg_poll cancelled errs limit now p s
  end.

Definition dg_run (os : list dg_op) (s : DPipe) : DPipe := foldl dg_step s os.

(** A new connection: empty queues, tasks at their start. *)
Definition dg_start (queues : NetworkQueueSettings) (token : L) (local remote : PeerState W L) (enc : S1) (dec : S2)
    (box : Inbox) (incoming : Ch (IncomingMessage P E D)) (datagrams : Shared (PacketReceiveEvent P))
    (disconnects : Ch Addr) (handles : store) : DPipe := {|
  cancel_token := token;
  sender := task_start (outgoing_channel queues true).1 (Peer.handle local);
  stopped := false;
  write_half := {| pacer := DataPacer_new |};
  local_peer := local;
  encoder := enc;
  wire := [];
  inbox := box;
  remote_peer := remote;
  decoder := dec;
  receiver := receive_packets true connection closed_event on_evict record_full notify []
                incoming datagrams disconnects handles;
  accepted := [];
  arrivals := [] |}.
End Connection.

(** ** Runs of the specification *)

Section Spec.
Context {P : Type}.
Implicit Types (a : dchannel P).

(** What was put on the network and what waits was accepted, in that order; what
    is delivered and what waits arrived, in that order. *)
Record d_inv a : Prop := {
  di_sent : d_transmitted a ++ d_queue a `sublist_of` d_accepted a;
  di_arrived : d_delivered a ++ d_inbox a `sublist_of` d_arrived a;
  di_indices : Forall (λ i, (i < length (d_transmitted a))%nat) (d_arrived a);
}.

Lemma dchannel_step_inv a a' : dchannel_step a a' → d_inv a → d_inv a'.
Proof.
  intros Hs [Hsent Harr Hix]. destruct Hs as [p|q'|p|i ??????? Hi|box'|i|]; split; cbn in *; try done.
  - rewrite app_assoc. by apply sublist_app.
  - etrans; [|exact Hsent]. by apply sublist_app.
  - by rewrite <- app_assoc.
  - eapply Forall_impl; [exact Hix|]. cbn. intros i Hi. rewrite length_app. lia.
  - rewrite app_assoc. by apply sublist_app.
  - apply Forall_app. split; [done|]. by repeat constructor.
  - etrans; [|exact Harr]. by apply sublist_app.
  - by rewrite <- app_assoc.
Qed.

Lemma dchannel_reachable_inv a : rtc dchannel_step dchannel_start a → d_inv a.
Proof.
  intros Hr. remember dchannel_start as a0 eqn:Ha. assert (Hinv : d_inv a0).
  { subst a0. split; cbn; [done|done|constructor]. }
  clear Ha. induction Hr as [|a0 a1 a2 Hs _ IH]; [done|]. by eapply IH, dchannel_step_inv.
Qed.

Lemma omap_lookup_sublist (l : list nat) (m : list P) k :
  StronglySorted lt l → Forall (λ i, (k ≤ i)%nat) l → omap (λ i, m !! i) l `sublist_of` drop k m.
Proof.
  intros Hs. revert k. induction Hs as [|i l _ IH Hi]; intros k Hk; cbn; [apply sublist_nil_l|].
  apply Forall_cons in Hk as [Hk _].
  assert (Hrest : omap (λ i, m !! i) l `sublist_of` drop (S i) m) by (apply IH; eapply Forall_impl; [exact Hi|]; cbn; lia).
  assert (Hdrop : drop i m `sublist_of` drop k m).
  { replace i with (k + (i - k))%nat by lia. rewrite <- drop_drop. apply sublist_drop. }
  etrans; [|exact Hdrop]. destruct (m !! i) as [x|] eqn:Hx.
  - rewrite (drop_S m x i Hx). by apply sublist_skip.
  - etrans; [exact Hrest|]. rewrite <- Nat.add_1_r, <- drop_drop. apply sublist_drop.
Qed.

Lemma omap_lookup_submseteq (l : list nat) (m : list P) :
  NoDup l → Forall (λ i, (i < length m)%nat) l → omap (λ i, m !! i) l ⊆+ m.
Proof.
  intros Hnd Hlt. assert (Hsub : l ⊆+ seq 0 (length m)).
  { apply NoDup_submseteq; [done|]. intros i Hi. rewrite Forall_forall in Hlt. apply elem_of_seq.
    specialize (Hlt i Hi). lia. }
  apply submseteq_Permutation in Hsub as [rest Hp].
  assert (Hall : omap (λ i, m !! i) (seq 0 (length m)) = m).
  { clear. induction m as [|x m IH] using rev_ind; [done|].
    rewrite length_app, Nat.add_1_r, seq_S, omap_app. cbn. rewrite lookup_app_r, Nat.sub_diag by lia. f_equal.
    etrans; [|exact IH]. apply list_omap_ext, Forall2_same_length_lookup_2; [done|].
    intros i j1 j2 H1 H2. simplify_eq. apply lookup_seq in H1 as [-> Hi]. by rewrite lookup_app_l. }
  assert (Hsub : omap (λ i, m !! i) l ⊆+ omap (λ i, m !! i) (seq 0 (length m)))
    by (rewrite Hp, omap_app; by apply submseteq_inserts_r).
  by rewrite Hall in Hsub.
Qed.

Lemma sublist_forall (f : nat → Prop) l1 l2 : l1 `sublist_of` l2 → Forall f l2 → Forall f l1.
Proof. intros Hs. rewrite !Forall_forall. intros Hall x Hx. by eapply Hall, elem_of_sublist. Qed.

Lemma sublist_sorted (l1 l2 : list nat) : l1 `sublist_of` l2 → StronglySorted lt l2 → StronglySorted lt l1.
Proof.
  induction 1 as [|x l1 l2 Hs IH|x l1 l2 Hs IH]; intros Hl; [done| |].
  - apply StronglySorted_inv in Hl as [Hl Hx]. constructor; [by apply IH|]. by eapply sublist_forall.
  - apply StronglySorted_inv in Hl as [Hl _]. by apply IH.
Qed.

(** What the channel promises: only what was accepted is delivered; once per
    packet if no datagram arrives twice; in order if they arrive in order. *)
Lemma d_packets_accepted a : rtc dchannel_step dchannel_start a →
  (∀ p, p ∈ d_packets a → p ∈ d_accepted a) ∧
  (NoDup (d_arrived a) → d_packets a ⊆+ d_accepted a) ∧
  (StronglySorted lt (d_arrived a) → d_packets a `sublist_of` d_accepted a).
Proof.
  intros Hr. destruct (dchannel_reachable_inv a Hr) as [Hsent Harr Hix]. unfold d_packets.
  assert (Hdel : d_delivered a `sublist_of` d_arrived a).
  { etrans; [|exact Harr]. apply sublist_inserts_r. done. }
  assert (Htr : d_transmitted a `sublist_of` d_accepted a).
  { etrans; [|exact Hsent]. apply sublist_inserts_r. done. }
  split_and!.
  - intros p (i & Hi & Hp)%list_elem_of_omap. eapply elem_of_sublist; [|exact Htr].
    by eapply list_elem_of_lookup_2.
  - intros Hnd. etrans; [|by apply sublist_submseteq]. apply omap_lookup_submseteq.
    + by eapply sublist_NoDup.
    + by eapply sublist_forall.
  - intros Hs. etrans; [|exact Htr]. apply (omap_lookup_sublist _ _ 0).
    + by eapply sublist_sorted.
    + apply Forall_true. lia.
Qed.
End Spec.

(** ** Views of the operations *)

Section Views.
Context `{Target} {Ch : Type → Type} `{MpscLaws Ch} {Hd : Type} `{TransportHandle Hd} {P : Type}.
Implicit Types (q : Outgoing Ch P) (h : Hd).

(** What an accepted submission leaves of the queue, before the packet. *)
Lemma sender_try_send_view q p h :
  outgoing_wf q →
  let '(q', _, res) := sender_try_send q p h in
  outgoing_wf q' ∧
  match res with
  | Ok _ => ∃ kept, kept `sublist_of` queue_items q ∧ queue_items q' = kept ++ [p]
  | Err _ => queue_items q' = queue_items q
  end.
Proof.
  intros Hwf. pose proof (out_step_conserves q h (OutSend p) Hwf) as Hs. cbn [out_step] in Hs.
  destruct (sender_try_send q p h) as [[q' h'] res] eqn:Heq. destruct Hs as (Hwf' & _ & _). split; [done|].
  unfold sender_try_send in Heq. destruct q as [c|sh].
  - destruct (mpsc_try_send c p) as [c' r] eqn:Hs. apply mpsc_try_send_view in Hs as (_ & _ & _ & Hs).
    destruct (mpsc_is_closed c); [|destruct (_ <=? _)]; destruct Hs as [-> Hi]; simplify_eq/=; [done..|].
    by exists (mpsc_items c).
  - unfold try_send in Heq. destruct (try_send_where sh p 1 _) as [[sh' sg] r] eqn:Hs.
    apply try_send_where_step in Hs; [|apply Hwf|lia]. destruct r as [ev|e].
    + destruct Hs as (k & _ & _ & -> & _). simplify_eq/=. exists (drop k (items (state sh))).*1.
      rewrite fmap_app. split; [|done]. rewrite fmap_drop. apply sublist_drop.
    + destruct Hs as (-> & _ & ->). by destruct (receiver_open _); simplify_eq/=.
Qed.

Lemma receiver_poll_recv_view q :
  outgoing_wf q →
  let '(q', res) := receiver_poll_recv q in
  outgoing_wf q' ∧
  match res with
  | Ready (Some p) => queue_items q = p :: queue_items q'
  | _ => queue_items q' = queue_items q
  end.
Proof.
  intros Hwf. pose proof (poll_recv_wf q Hwf) as Hwf'. destruct q as [c|sh]; cbn in *.
  - destruct (mpsc_poll_recv c) as [c' r] eqn:Hr. apply mpsc_poll_recv_view in Hr as (_ & _ & _ & Hr).
    cbn in *. split; [done|]. destruct (mpsc_items c) as [|x xs].
    + destruct Hr as [Hi ->]. by destruct (_ || _).
    + by destruct Hr as [-> ->].
  - destruct Hwf as [Hwf _]. unfold recv_attempt, try_recv in *. rewrite try_recv_if_form in * by done.
    destruct (items (state sh)) as [|[x b] rest] eqn:Hi; [|by split].
    destruct (_ || _); cbn in *; by rewrite Hi.
Qed.

Lemma receiver_drop_view q h : outgoing_wf q →
  let '(q', _) := receiver_drop (set_transport receiver_new) q h in
  outgoing_wf q' ∧ queue_items q' = [].
Proof.
  intros Hwf. pose proof (out_step_conserves q h OutDropReceiver Hwf) as Hs.
  pose proof (receiver_drop_counts q h Hwf) as [_ Hi]. cbn [out_step] in Hs.
  unfold set_transport in *. destruct (receiver_drop _ q h) as [q' h']. by destruct Hs as (? & _).
Qed.

(** The head of the send task's loop. *)
Lemma take_next_view checked (t : SendTask Ch Hd P) : outgoing_wf (queue t) →
  let '(t', st) := take_next checked t in
  outgoing_wf (queue t') ∧
  match st with
  | Write => ∃ p, current t' = Some p ∧ queue_items (queue t) = p :: queue_items (queue t')
  | Wait => current t' = None ∧ queue_items (queue t') = queue_items (queue t)
  | Stop => True
  end.
Proof.
  intros Hwf. unfold take_next. pose proof (receiver_poll_recv_view (queue t) Hwf) as Hv.
  destruct (receiver_poll_recv (queue t)) as [q' [[p|]|]]; destruct Hv as [Hwf' Hi]; [|done..].
  destruct checked; split; try done. by exists p.
Qed.
End Views.

(** ** Writes *)

Section WriteLemmas.
Context `{Target} {W : Type → Type} `{Watch W} {L : Type} `{CancellationToken L}.
Context {S1 P Q : Type} `{Out : Serializer S1 Q P}.

Lemma observe_options b (s : PeerState W L) : Peer.options (observe b s) = Peer.options s.
Proof. by destruct b. Qed.

Lemma send_datagram_options data polls (s : PeerState W L) :
  Peer.options (send_datagram data polls s).1 = Peer.options s.
Proof.
  unfold send_datagram. destruct (Peer.is_closed s); [done|]. revert s.
  induction polls as [|[c answer] polls IH]; intros s; [done|]. cbn [send_select].
  rewrite <- (observe_options c s). destruct (Peer.is_closed _); [done|].
  destruct answer as [[n|e]|]; [by destruct (_ =? _)|done|apply IH].
Qed.

(** A write runs the codec once and leaves the peer's options alone. *)
Lemma udp_send_encoder (packet : P) e h (s : PeerState W L) (c : S1) h' s' c' r :
  udp_send packet e h s c = (h', s', c', r) →
  (∃ res, serialize packet c = (c', res)) ∧ Peer.options s' = Peer.options s.
Proof.
  unfold udp_send. destruct (serialize packet c) as [c1 [[payload|err]|]]; cbn zeta.
  2: { intros [= <- <- <- <-]. split; [by exists (Returns (Err err))|done]. }
  2: { intros [= <- <- <- <-]. split; [by exists Panics|done]. }
  assert (Hs : ∃ res : outcome (result (list Z) EncodeError), (c1, Returns (Ok payload)) = (c1, res)) by by eexists.
  destruct (_ <? _); [by intros [= <- <- <- <-]|].
  destruct (wait _ _ _) as [[u|err]|]; [|by intros [= <- <- <- <-]..].
  pose proof (send_datagram_options payload (we_sends e) s) as Ho.
  destruct (send_datagram _ _ _) as [s1 [[u1|err]|]]; cbn in Ho;
    [by intros [= <- <- <- <-]| |by intros [= <- <- <- <-]].
  destruct (Peer.is_closed _); intros [= <- <- <- <-]; (split; [done|]); cbn;
    by rewrite observe_options.
Qed.

Lemma write_puts_view (packet : P) e h (s : PeerState W L) (c : S1) :
  write_puts packet e h s c = [] ∨
  ∃ payload c', serialize packet c = (c', Returns (Ok payload)) ∧
    zlen payload ≤ validated_max_payload_size (Peer.options s) ∧ write_puts packet e h s c = [payload].
Proof.
  unfold write_puts. destruct (serialize packet c) as [c1 [[payload|err]|]]; [|by left..].
  destruct (_ <? _) eqn:Hlen; [by left|]. bools. destruct (wait _ _ _) as [[]|]; [|by left..].
  destruct (_ && _); [|by left]. right. by exists payload, c1.
Qed.
End WriteLemmas.

(** ** Reads *)

Section ReadLemmas.
Context `{Target} {W : Type → Type} `{Watch W} {L : Type} `{CancellationToken L}.

Definition inbox_wf (i : Inbox) : Prop := match i with Socket _ => True | PeerQueue q => wf q end.

Lemma socket_next_errors (errs : list io_error) polls :
  (∀ d, socket_next polls ≠ Ready (Ok d)) → ∀ d, socket_next ((Err <$> errs) ++ polls) ≠ Ready (Ok d).
Proof.
  intros Hp. induction errs as [|e errs IH]; [done|]. cbn. by destruct (is_icmp e).
Qed.

Lemma socket_next_ok (errs : list io_error) r d :
  socket_next ((Err <$> errs) ++ [Ok r]) = Ready (Ok d) → received_slice r = Ok (Peer.bytes d).
Proof.
  induction errs as [|e errs IH]; cbn.
  - destruct (received_slice r) as [bs|e]; cbn; [|done]. by intros [= <-].
  - by destruct (is_icmp e).
Qed.

(** The datagram the read half gets is the first that waits, cut at the size of
    the buffer; popping the inbox removes it. *)
Lemma inbox_next_view errs now (i : Inbox) d : inbox_wf i →
  next (inbox_next errs now i) = Ready (Ok d) →
  ∃ data rest, inbox_items i = data :: rest ∧ inbox_items (inbox_pop i) = rest ∧ inbox_wf (inbox_pop i) ∧
    (Peer.bytes d = data ∨ MAX_DATAGRAM_SIZE < zlen (Peer.bytes d)).
Proof.
  intros Hwf Hn. destruct i as [[|data ds]|q]; cbn in *.
  - rewrite app_nil_r in Hn. exfalso. revert Hn. rewrite <- (app_nil_r (Err <$> errs)).
    by apply socket_next_errors.
  - apply socket_next_ok in Hn. exists data, ds. split_and!; [done|done|done|].
    unfold received_slice in Hn. cbn in Hn.
    rewrite slice_get_to_le in Hn by (unfold zlen; lia). injection Hn as <-.
    destruct (decide (zlen data ≤ BUFFER_SIZE)) as [Hle|Hgt].
    + left. rewrite (take_ge data) by (unfold zlen in *; lia). apply take_ge. unfold zlen. lia.
    + right. rewrite take_ge by (unfold zlen; lia).
      unfold zlen in *. rewrite length_take. unfold BUFFER_SIZE, MAX_DATAGRAM_SIZE in *. lia.
  - unfold recv_attempt, try_recv in *. rewrite try_recv_if_form in * by done.
    pose proof (run_op_wf q (OpTryRecv (λ _, true)) Hwf I) as Hwf'. cbn [run_op] in Hwf'.
    rewrite try_recv_if_form in Hwf' by done.
    destruct (items (state q)) as [|[x b] rest]; [by destruct (_ || _)|].
    cbn in *. injection Hn as <-. exists (Peer.bytes x), (Peer.bytes <$> rest.*1). auto.
Qed.

Lemma inbox_arrive_view data now (i : Inbox) (s : PeerState W L) : inbox_wf i → zlen data ≤ usize_max →
  let '(i', _) := inbox_arrive data now i s in
  inbox_wf i' ∧ (inbox_items i' = inbox_items i ∨
    ∃ kept, kept `suffix_of` inbox_items i ∧ inbox_items i' = kept ++ [data]).
Proof.
  intros Hwf Hlen. destruct i as [ds|q]; cbn; [split; [done|]; right; by exists ds|].
  pose proof (push_conserves data now q s Hwf Hlen) as Hc. unfold Peer.push in *.
  destruct (Peer.is_closed s); [split; [done|by left]|].
  unfold try_send in *. destruct (try_send_where q _ (zlen data) _) as [[q' sg] r] eqn:Hs.
  apply try_send_where_step in Hs; [|done|unfold zlen; lia]. destruct r as [ev|e].
  - destruct Hs as (k & _ & _ & -> & _). destruct Hc as [Hwf' _]. split; [done|]. right.
    exists (drop k (Peer.bytes <$> (items (state q)).*1)). split; [apply suffix_drop|].
    cbn. by rewrite !fmap_app, !fmap_drop.
  - destruct Hs as (-> & _ & ->). by destruct (receiver_open _); (split; [|left]).
Qed.
End ReadLemmas.

(** ** The simulation *)

Section Refinement.
Context `{Target} {W : Type → Type} `{Watch W} {L : Type} `{CancellationToken L}.
Context {Ch : Type → Type} `{MpscLaws Ch}.
Context {S1 S2 P Q : Type} `{Out : Serializer S1 Q P} `{Inc : Serializer S2 P Q}.
Context {E D Addr store LenErr : Type}.
Context {sendable : P → Prop} {enc_ok : S1 → Prop} {dec_ok : S2 → Prop}
  `{!DatagramPair Out Inc sendable enc_ok dec_ok}.

Variable connection : ConnectionId.
Variable closed_event : ReceiveError (DecodeError (Serializer:=Inc)) LenErr → D.
Variable on_evict : PacketReceiveEvent P → store → store.
Variable record_full : store → store.
Variable notify : option Addr.

Abbreviation pipe := (DPipe (W:=W) (L:=L) (Ch:=Ch) (S1:=S1) (S2:=S2) (P:=P) (Inc:=Inc) (E:=E) (D:=D)
  (Addr:=Addr) (store:=store) (LenErr:=LenErr)).
Abbreviation op := (dg_op (Ch:=Ch) (P:=P) (Inc:=Inc) (E:=E) (D:=D) (Addr:=Addr) (store:=store) (LenErr:=LenErr)).
Abbreviation env := (recv_poll Ch P E D (DecodeError (Serializer:=Inc)) LenErr Addr store).
Abbreviation rtask := (RecvTask Ch P E D (DecodeError (Serializer:=Inc)) LenErr Addr store).
Abbreviation step := (dg_step connection closed_event on_evict record_full notify).
Implicit Types (s : pipe) (a : dchannel P).

(** A datagram that every decoder reads as [p], and one that none reads. *)
Definition carries (data : list Z) (p : P) : Prop :=
  zlen data ≤ usize_max ∧ ∀ c, dec_ok c → ∃ c', deserialize data c = (c', Returns (Ok p)).
Definition foreign (data : list Z) : Prop :=
  zlen data ≤ usize_max ∧ ∀ c, dec_ok c → ∃ c' e, deserialize data c = (c', Returns (Err e)).

(** The datagrams that wait are those with the indices listed, among foreign
    ones. *)
Inductive holds (sent : list (list Z)) : list (list Z) → list nat → Prop :=
  | holds_nil : holds sent [] []
  | holds_own i data ds ix : sent !! i = Some data → holds sent ds ix → holds sent (data :: ds) (i :: ix)
  | holds_foreign data ds ix : foreign data → holds sent ds ix → holds sent (data :: ds) ix.

Lemma holds_more sent more ds ix : holds sent ds ix → holds (sent ++ more) ds ix.
Proof.
  induction 1 as [|i data ds ix Hi _ IH|data ds ix Hf _ IH]; [constructor| |by apply holds_foreign].
  apply holds_own; [by apply lookup_app_l_Some|done].
Qed.

Lemma holds_app sent ds1 ix1 ds2 ix2 :
  holds sent ds1 ix1 → holds sent ds2 ix2 → holds sent (ds1 ++ ds2) (ix1 ++ ix2).
Proof. induction 1; cbn; [done|intros; by apply holds_own; auto|intros; apply holds_foreign; auto]. Qed.

Lemma holds_suffix sent kept ds ix : kept `suffix_of` ds → holds sent ds ix →
  ∃ ix', ix' `sublist_of` ix ∧ holds sent kept ix'.
Proof.
  intros [gone ->]. revert ix. induction gone as [|data gone IH]; intros ix Hh; [by exists ix|].
  inversion Hh as [|i data' ds ix1 Hi Hh1|data' ds ix1 Hf Hh1]; subst.
  - destruct (IH _ Hh1) as (ix' & Hs & Hk). exists ix'. split; [by apply sublist_cons|done].
  - by apply IH.
Qed.

(** What the specification knows of a state. *)
Record rel s a : Prop := {
  rel_task : task_ok true connection closed_event (receiver s);
  rel_accepted : d_accepted a = accepted s;
  rel_queue : d_queue a = option_list (current (sender s)) ++ queue_items (queue (sender s));
  rel_queue_wf : outgoing_wf (queue (sender s));
  rel_sendable : Forall sendable (d_queue a);
  rel_options : validated_max_payload_size (Peer.options (local_peer s)) ≤ usize_max;
  rel_encoder : enc_ok (encoder s);
  rel_decoder : dec_ok (decoder s);
  rel_wire : Forall2 carries (wire s) (d_transmitted a);
  rel_arrived : d_arrived a = arrivals s;
  rel_inbox : holds (wire s) (inbox_items (inbox s)) (d_inbox a);
  rel_inbox_wf : inbox_wf (inbox s);
  rel_delivered : Forall2 (λ i e, d_transmitted a !! i = Some (event_packet e)) (d_delivered a)
                    (forwarded (receiver s));
  rel_open : d_open a = reading (receiver s);
}.

Lemma delivered_more (tr more : list P) del (l : list (PacketReceiveEvent P)) :
  Forall2 (λ i e, tr !! i = Some (event_packet e)) del l →
  Forall2 (λ i e, (tr ++ more) !! i = Some (event_packet e)) del l.
Proof. intros Hd. eapply Forall2_impl; [exact Hd|]. intros i e Hi. by apply lookup_app_l_Some. Qed.

(** ** The sending end *)

Lemma rel_with_sender s acc q tr arr box del o tok t stop h ps enc sent acc' q' new :
  rel s (Build_dchannel acc q tr arr box del o) → Peer.options ps = Peer.options (local_peer s) →
  outgoing_wf (queue t) → q' = option_list (current t) ++ queue_items (queue t) → Forall sendable q' → enc_ok enc →
  Forall2 carries sent new →
  rel (with_sender tok t stop h ps enc sent acc' s) (Build_dchannel acc' q' (tr ++ new) arr box del o).
Proof.
  intros [] Hopt Hwf Hq Hs He Hnew. split; cbn in *; try done.
  - by rewrite Hopt.
  - by apply Forall2_app.
  - by apply holds_more.
  - by apply delivered_more.
Qed.

(** Nothing written. *)
Lemma rel_with_sender_idle s acc q tr arr box del o tok t stop h ps enc acc' q' :
  rel s (Build_dchannel acc q tr arr box del o) → Peer.options ps = Peer.options (local_peer s) →
  outgoing_wf (queue t) → q' = option_list (current t) ++ queue_items (queue t) → Forall sendable q' → enc_ok enc →
  rel (with_sender tok t stop h ps enc [] acc' s) (Build_dchannel acc' q' tr arr box del o).
Proof. intros. rewrite <- (app_nil_r tr). by eapply rel_with_sender. Qed.

Lemma rel_finish s acc q tr arr box del o t h ps enc sent new :
  rel s (Build_dchannel acc q tr arr box del o) → Peer.options ps = Peer.options (local_peer s) →
  outgoing_wf (queue t) → enc_ok enc → Forall2 carries sent new →
  rel (dg_finish t h ps enc sent s) (Build_dchannel acc [] (tr ++ new) arr box del o).
Proof.
  intros Hrel Hopt Hwf He Hnew. pose proof (rel_accepted _ _ Hrel) as Hacc. cbn in Hacc. rewrite Hacc.
  unfold dg_finish. pose proof (receiver_drop_view (queue t) (Tasks.handle t) Hwf) as Hd.
  destruct (receiver_drop _ _ _) as [q' hd]. destruct Hd as [Hwf' Hi].
  eapply rel_with_sender; [exact Hrel|done|done|by cbn|constructor|done|done].
Qed.

Lemma discard_all acc (q : list P) tr arr box del o :
  rtc dchannel_step (Build_dchannel acc q tr arr box del o) (Build_dchannel acc [] tr arr box del o).
Proof. apply rtc_once, dchannel_discard, sublist_nil_l. Qed.

Lemma finish_simulates s a t h ps enc :
  rel s a → Peer.options ps = Peer.options (local_peer s) → outgoing_wf (queue t) → enc_ok enc →
  ∃ a', rtc dchannel_step a a' ∧ rel (dg_finish t h ps enc [] s) a'.
Proof.
  intros Hrel Hopt Hwf He. destruct a as [acc q tr arr box del o].
  eexists. split; [apply discard_all|]. rewrite <- (app_nil_r tr). by eapply rel_finish.
Qed.

Lemma dg_send_simulates s a p : rel s a → sendable p →
  ∃ a', rtc dchannel_step a a' ∧ rel (dg_send p s) a'.
Proof.
  intros Hrel Hp. destruct a as [acc q tr arr box del o]. pose proof Hrel as [_ Hacc Hq Hwf Hs Hmax He _ _ _ _ _ _ _].
  cbn in Hacc, Hq, Hs. subst acc.
  assert (Hsame : ∀ tok t h ps, Peer.options ps = Peer.options (local_peer s) → outgoing_wf (queue t) → current t = current (sender s) →
    queue_items (queue t) = queue_items (queue (sender s)) →
    rel (with_sender tok t (stopped s) h ps (encoder s) [] (accepted s) s)
        (Build_dchannel (accepted s) q tr arr box del o)).
  { intros tok t h ps Hopt Hwf' Hc Hi. eapply rel_with_sender_idle; [exact Hrel|done|done|by rewrite Hc, Hi|done|done]. }
  unfold dg_send, send. cbn [disconnect_task packet_tx transport].
  destruct (token_is_cancelled _).
  { eexists. split; [done|]. by apply Hsame. }
  pose proof (sender_try_send_view (queue (sender s)) p (Tasks.handle (sender s)) Hwf) as Hv.
  destruct (sender_try_send _ _ _) as [[q' h'] res]. destruct Hv as [Hwf' Hi]. destruct res as [u|err].
  - destruct Hi as (kept & Hkept & Hi).
    exists (Build_dchannel (accepted s ++ [p]) ((option_list (current (sender s)) ++ kept) ++ [p]) tr arr box del o).
    split.
    + eapply rtc_l; [apply (dchannel_discard (option_list (current (sender s)) ++ kept))|].
      { rewrite Hq. by apply sublist_app. }
      apply rtc_once, dchannel_accept.
    + eapply rel_with_sender_idle; [exact Hrel|done|done|cbn; by rewrite Hi, <- app_assoc| |done].
      apply Forall_app. split; [|by constructor]. rewrite Hq in Hs. apply Forall_app in Hs as [Hs1 Hs2].
      apply Forall_app. split; [done|]. rewrite Forall_forall in Hs2 |- *. intros x Hx.
      by eapply Hs2, elem_of_sublist.
  - eexists. split; [done|]. by apply Hsame.
Qed.

Lemma interrupt_queue (t : SendTask Ch (UdpConnectionHandle W) P) : queue (interrupt t) = queue t.
Proof. unfold interrupt. by destruct (current t). Qed.

(** The packet in flight is put on the network or not at all. *)
Lemma write_simulates s acc packet rest tr arr box del o e h (ps : PeerState W L) :
  Peer.options ps = Peer.options (local_peer s) →
  rel s (Build_dchannel acc (packet :: rest) tr arr box del o) →
  ∃ new, Forall2 carries (write_puts packet e h ps (encoder s)) new ∧
    rtc dchannel_step (Build_dchannel acc (packet :: rest) tr arr box del o)
                      (Build_dchannel acc rest (tr ++ new) arr box del o).
Proof.
  intros Hopt [_ _ _ _ Hs Hmax He _ _ _ _ _ _ _]. cbn in Hs. apply Forall_cons in Hs as [Hp _].
  destruct (write_puts_view packet e h ps (encoder s)) as [->|(payload & enc' & Hser & Hlen & ->)].
  - exists []. split; [constructor|]. rewrite app_nil_r. apply rtc_once, dchannel_discard. by apply sublist_cons.
  - exists [packet]. split; [|apply rtc_once, dchannel_transmit]. constructor; [|constructor].
    split; [rewrite Hopt in Hlen; lia|]. intros c Hc. by eapply (datagram_roundtrip packet).
Qed.

Lemma dg_write_simulates s a e : rel s a →
  ∃ a', rtc dchannel_step a a' ∧ rel (dg_write e s) a'.
Proof.
  intros Hrel. unfold dg_write. destruct (stopped s); [by exists a|].
  destruct a as [acc q tr arr box del o]. pose proof Hrel as [_ Hacc Hq Hwf Hs Hmax He _ _ _ _ _ _ _].
  cbn in Hacc, Hq, Hs. subst acc.
  match goal with |- context [let '(t, st) := ?x in _] => destruct x as [t st] eqn:Ht end.
  assert (Hv : outgoing_wf (queue t) ∧ match st with
    | Write => ∃ p, current t = Some p ∧ q = p :: queue_items (queue t)
    | Wait => current t = None ∧ q = queue_items (queue t) | Stop => True end).
  { destruct (current (sender s)) as [p|] eqn:Hc.
    - injection Ht as <- <-. split; [done|]. by exists p.
    - pose proof (take_next_view (token_is_cancelled (cancel_token s)) (sender s) Hwf) as Hv.
      rewrite Ht in Hv. destruct Hv as [Hwf' Hv]. split; [done|]. destruct st; [done| |].
      + destruct Hv as [Hct Hi]. split; [done|]. by rewrite Hq, Hi.
      + destruct Hv as (p & Hct & Hi). exists p. split; [done|]. by rewrite Hq, Hi. }
  clear Ht. destruct Hv as [Hwf' Hv]. destruct st.
  - by apply finish_simulates.
  - destruct Hv as [Hct ->]. eexists. split; [apply rtc_refl|]. eapply rel_with_sender_idle; [exact Hrel|done|done|by rewrite Hct|done|done].
  - destruct Hv as (packet & Hct & ->). rewrite Hct. set (ps := after_task t (local_peer s)).
    destruct (write_simulates s _ packet _ tr arr box del o e (write_half s) ps eq_refl Hrel) as (new & Hnew & Hrun).
    destruct (udp_send packet e (write_half s) ps (encoder s)) as [[[h ps'] enc] r] eqn:Hu.
    apply udp_send_encoder in Hu as [[res Hser] Hopt].
    pose proof (datagram_encode packet _ _ _ He Hser) as He'.
    destruct r as [[[u|err]|]|].
    + eexists. split; [exact Hrun|].
      eapply rel_with_sender; [exact Hrel|done|done|done| |done|done]. by apply Forall_cons in Hs as [_ ?].
    + eexists. split; [etrans; [exact Hrun|apply discard_all]|]. by eapply rel_finish.
    + apply finish_simulates; [done|done|by rewrite interrupt_queue|done].
    + eexists. split; [apply rtc_refl|]. eapply rel_with_sender_idle; [exact Hrel|done|done|by rewrite Hct|done|done].
Qed.

Lemma dg_disconnect_simulates s a : rel s a →
  ∃ a', rtc dchannel_step a a' ∧ rel (dg_disconnect s) a'.
Proof.
  intros Hrel. pose proof Hrel as [_ Hacc Hq Hwf Hs Hmax He _ _ _ _ _ _ _]. destruct a as [acc q tr arr box del o].
  cbn in Hacc, Hq, Hs. subst acc. unfold dg_disconnect.
  set (s1 := with_sender _ _ _ _ _ _ _ _ _).
  assert (Hrel1 : rel s1 (Build_dchannel (accepted s) q tr arr box del o)).
  { eapply rel_with_sender_idle; [exact Hrel|done|done|done|done|done]. }
  destruct (stopped s1); [by eexists|]. apply finish_simulates; [done|done|by rewrite interrupt_queue|done].
Qed.

(** ** The network *)

Lemma dg_inbox_simulates s acc q tr arr box del o data now arrived :
  rel s (Build_dchannel acc q tr arr box del o) → zlen data ≤ usize_max →
  holds (wire s) [data] arrived → Forall (λ i, (i < length tr)%nat) arrived →
  (length arrived ≤ 1)%nat →
  ∃ a', rtc dchannel_step (Build_dchannel acc q tr arr box del o) a' ∧ rel (dg_inbox data now arrived s) a'.
Proof.
  intros Hrel Hlen Hdata Hix Hone. pose proof Hrel as [].
  unfold dg_inbox. pose proof (inbox_arrive_view data now (inbox s) (remote_peer s) rel_inbox_wf0 Hlen) as Hv.
  destruct (inbox_arrive _ _ _ _) as [i' ps]. destruct Hv as [Hwf Hv]. cbn in rel_inbox0.
  assert (Harr : rtc dchannel_step (Build_dchannel acc q tr arr box del o)
    (Build_dchannel acc q tr (arr ++ arrived) (box ++ arrived) del o)).
  { destruct arrived as [|i [|]]; [by rewrite !app_nil_r| |cbn in Hone; lia].
    apply Forall_cons in Hix as [Hi _]. by apply rtc_once, dchannel_arrive. }
  destruct Hv as [Hi|(kept & Hkept & Hi)].
  - exists (Build_dchannel acc q tr (arr ++ arrived) box del o). split.
    + etrans; [exact Harr|]. apply rtc_once, dchannel_lose. by apply sublist_inserts_r.
    + split; cbn in *; try done; [by f_equal|by rewrite Hi].
  - destruct (holds_suffix _ _ _ _ Hkept rel_inbox0) as (box' & Hsub & Hh).
    exists (Build_dchannel acc q tr (arr ++ arrived) (box' ++ arrived) del o). split.
    + etrans; [exact Harr|]. apply rtc_once, dchannel_lose. by apply sublist_app.
    + split; cbn in *; try done; [by f_equal|]. rewrite Hi. by apply holds_app.
Qed.

Lemma dg_arrive_simulates s a i now : rel s a →
  ∃ a', rtc dchannel_step a a' ∧ rel (dg_arrive i now s) a'.
Proof.
  intros Hrel. unfold dg_arrive. destruct (wire s !! i) as [data|] eqn:Hi; [|by exists a].
  destruct a as [acc q tr arr box del o]. apply dg_inbox_simulates; try done.
  - pose proof (rel_wire _ _ Hrel) as Hw. cbn in Hw.
    by destruct (Forall2_lookup_l _ _ _ _ _ Hw Hi) as (p & _ & Hlen & _).
  - apply holds_own; [done|constructor].
  - constructor; [|constructor]. pose proof (rel_wire _ _ Hrel) as Hw. cbn in Hw.
    apply Forall2_length in Hw as <-. by eapply lookup_lt_Some.
Qed.

(** ** The receiving end *)

Abbreviation poll_task := (poll true connection closed_event on_evict record_full notify).

(** What one poll hands over: at most the packet the reader completes. *)
Lemma datagram_poll p (t : rtask) reads :
  task_ok true connection closed_event t → no_reopen p → (length reads ≤ 1)%nat →
  let t' := poll_task (with_reads reads p) t in
  task_ok true connection closed_event t' ∧ (reading t = false → reading t' = false) ∧
  (forwarded t' = forwarded t ∨
   ∃ r, reads = [Ok r] ∧ reading t = true ∧ forwarded t' = forwarded t ++ [event_of connection r]).
Proof.
  intros Hok Hp Hone t'.
  assert (Hok' : task_ok true connection closed_event t') by by apply poll_ok.
  destruct (poll_follows true connection closed_event on_evict record_full notify (with_reads reads p) t)
    as (new & Hf & Hnew & _). fold t' in Hf.
  destruct (reading t) eqn:Hr.
  2: { destruct (f_reading _ _ _ Hf Hr) as [Hfw Hr']. split_and!; [done|done|by left]. }
  split_and!; [done|done|].
  assert (Hrec : received t = forwarded t).
  { pose proof (ok_order _ _ _ _ Hok) as Ho. unfold order_ok in Ho. unfold reading in Hr.
    destruct (at_ t); try done. by destruct Ho. }
  pose proof (f_received _ _ _ Hf) as Hrec'. rewrite Hrec in Hrec'.
  pose proof (f_forwarded _ _ _ Hf) as [more Hmore].
  assert (Hnew' : new = [] ∨ ∃ r, reads = [Ok r] ∧ new = [event_of connection r]).
  { cbn in Hnew. destruct reads as [|[r|e] [|]]; cbn in Hnew, Hone; try lia.
    - left. by apply prefix_nil_inv in Hnew.
    - destruct new as [|x new]; [by left|]. right. exists r. split; [done|].
      apply prefix_cons_inv_1 in Hnew as Heq. subst x.
      apply prefix_cons_inv_2 in Hnew. by apply prefix_nil_inv in Hnew as ->.
    - left. by apply prefix_nil_inv in Hnew. }
  assert (Hall : received t' = forwarded t' ∨ ∃ e, received t' = forwarded t' ++ [e]).
  { pose proof (ok_order _ _ _ _ Hok') as Ho. unfold order_ok in Ho.
    destruct (at_ t'); [by left|destruct Ho as [Ho _]; by right; eexists|done..]. }
  assert (Hmore' : more = new ∨ more = []).
  { destruct Hall as [Ha|[e Ha]].
    - left. rewrite Hrec', Hmore in Ha. by apply app_inv_head in Ha.
    - right. rewrite Hrec', Hmore, <- app_assoc in Ha. apply app_inv_head in Ha.
      destruct more as [|x more]; [done|]. exfalso. destruct Hnew' as [->|(r & _ & ->)]; [done|].
      injection Ha as _ Ha. by destruct more. }
  rewrite Hmore. destruct Hmore' as [->| ->]; [|left; by rewrite app_nil_r].
  destruct Hnew' as [->|(r & -> & ->)]; [left; by rewrite app_nil_r|]. right. by exists r.
Qed.

Lemma rel_with_receiver s acc q tr arr box del o bx ps dec t box' del' :
  rel s (Build_dchannel acc q tr arr box del o) → task_ok true connection closed_event t →
  dec_ok dec → holds (wire s) (inbox_items bx) box' → inbox_wf bx →
  Forall2 (λ i e, tr !! i = Some (event_packet e)) del' (forwarded t) →
  rel (with_receiver bx ps dec t s) (Build_dchannel acc q tr arr box' del' (reading t)).
Proof. intros [] Ht Hd Hh Hwf Hdel. by split. Qed.

(** A poll that delivers nothing may lose a datagram, and may close. *)
Lemma rel_receiver_quiet s acc q tr arr box del o bx ps dec t box' :
  rel s (Build_dchannel acc q tr arr box del o) → task_ok true connection closed_event t →
  dec_ok dec → holds (wire s) (inbox_items bx) box' → inbox_wf bx → box' `sublist_of` box →
  forwarded t = forwarded (receiver s) → (reading (receiver s) = false → reading t = false) →
  ∃ a', rtc dchannel_step (Build_dchannel acc q tr arr box del o) a' ∧ rel (with_receiver bx ps dec t s) a'.
Proof.
  intros Hrel Ht Hd Hh Hwf Hsub Hf Hrd.
  exists (Build_dchannel acc q tr arr box' del (reading t)). split.
  - etrans; [by apply rtc_once, dchannel_lose|].
    pose proof (rel_open _ _ Hrel) as Ho. cbn in Ho. subst o.
    destruct (reading t) eqn:Hr; [|by apply rtc_once, dchannel_close].
    destruct (reading (receiver s)); [done|]. by specialize (Hrd eq_refl).
  - eapply rel_with_receiver; [exact Hrel|done|done|done|done|].
    pose proof (rel_delivered _ _ Hrel) as Hdel. cbn in Hdel. by rewrite Hf.
Qed.

(** The first datagram that waits, taken by the reader. *)
Lemma udp_receive_view cancelled errs limit now s acc q tr arr box del o ps dec r :
  rel s (Build_dchannel acc q tr arr box del o) →
  udp_receive_with_timestamp (LenErr:=LenErr)
    [{| rp_cancelled := cancelled; rp_incoming := inbox_next errs now (inbox s); rp_limit := limit |}]
    (remote_peer s) (decoder s) = (ps, dec, r) →
  let bx := if Peer.is_closed (observe cancelled (remote_peer s)) then inbox s
            else match next (inbox_next errs now (inbox s)) with Ready (Ok _) => inbox_pop (inbox s) | _ => inbox s end in
  dec_ok dec ∧ inbox_wf bx ∧ ∃ box', holds (wire s) (inbox_items bx) box' ∧ box' `sublist_of` box ∧
    ∀ packet at_, r = Ready (Returns (Ok (packet, at_))) → ∃ i, box = i :: box' ∧ tr !! i = Some packet.
Proof.
  intros [_ _ _ _ _ _ _ Hdec Hwire _ Hbox Hwf _ _] Hr bx. cbn in Hwire, Hbox.
  cbn [udp_receive_with_timestamp rp_cancelled rp_incoming rp_limit] in Hr. subst bx.
  destruct (Peer.is_closed (observe _ _)).
  { injection Hr as _ <- <-. split_and!; [done|done|]. by exists box. }
  destruct (next _) as [[d|e]|] eqn:Hn.
  2-3: injection Hr as _ <- <-; split_and!; [done|done|]; by exists box.
  destruct (inbox_next_view errs now (inbox s) d Hwf Hn) as (data & rest & Hi & Hi' & Hwf' & Hdata).
  rewrite Hi in Hbox. rewrite Hi'. clear Hn.
  assert (Hdec' : dec_ok dec ∧ ∀ packet at_, r = Ready (Returns (Ok (packet, at_))) →
    Peer.bytes d = data ∧ (deserialize data (decoder s)).2 = Returns (Ok packet)).
  { revert Hr. destruct (MAX_DATAGRAM_SIZE <? _) eqn:Hmax; [by intros [= _ <- <-]|].
    destruct (limit <? _); [by intros [= _ <- <-]|]. bools.
    destruct (deserialize (Peer.bytes d) (decoder s)) as [c1 res] eqn:Hde.
    pose proof (datagram_decode _ _ _ _ Hdec Hde) as Hc1.
    destruct res as [[packet|e]|]; intros [= _ <- <-]; (split; [done|]); intros pk a [= <- _].
    destruct Hdata as [<-|Hd]; [|lia]. by rewrite Hde. }
  destruct Hdec' as [Hdec' Hpk]. split_and!; [done|done|].
  inversion Hbox as [|i data' ds ix Hwi Hh|data' ds ix Hf Hh]; subst.
  - exists ix. split_and!; [done|by apply sublist_cons|]. intros packet a Hres.
    destruct (Hpk packet a Hres) as [_ Hde]. exists i. split; [done|].
    destruct (Forall2_lookup_l _ _ _ _ _ Hwire Hwi) as (p & Hp & _ & Hcar).
    destruct (Hcar _ Hdec) as [c' Hc']. rewrite Hc' in Hde. cbn in Hde. by injection Hde as <-.
  - exists box. split_and!; [done|done|]. intros packet a Hres.
    destruct (Hpk packet a Hres) as [_ Hde], Hf as [_ Hf]. destruct (Hf _ Hdec) as (c' & e & Hc').
    by rewrite Hc' in Hde.
Qed.

Lemma dg_poll_simulates s a cancelled errs limit now p : rel s a → no_reopen p →
  ∃ a', rtc dchannel_step a a' ∧
    rel (dg_poll connection closed_event on_evict record_full notify cancelled errs limit now p s) a'.
Proof.
  intros Hrel Hp. destruct a as [acc q tr arr box del o]. unfold dg_poll. cbn zeta.
  pose proof (rel_task _ _ Hrel) as Hok.
  assert (Hquiet : ∀ bx ps dec box', dec_ok dec → holds (wire s) (inbox_items bx) box' → inbox_wf bx →
    box' `sublist_of` box →
    ∃ a', rtc dchannel_step (Build_dchannel acc q tr arr box del o) a' ∧
      rel (with_receiver bx ps dec (poll_task (with_reads [] p) (receiver s)) s) a').
  { intros bx ps dec box' Hd Hh Hwf Hsub.
    destruct (datagram_poll p (receiver s) [] Hok Hp ltac:(cbn; lia)) as (Hok' & Hrd & Hf).
    eapply rel_receiver_quiet; try done. by destruct Hf as [Hf|(r & ? & _)]. }
  assert (Hidle : ∃ a', rtc dchannel_step (Build_dchannel acc q tr arr box del o) a' ∧
    rel (with_receiver (inbox s) (remote_peer s) (decoder s) (poll_task (with_reads [] p) (receiver s)) s) a').
  { destruct Hrel. by apply (Hquiet _ _ _ box). }
  destruct (at_ (receiver s)) eqn:Ha; try done. destruct ((_ || _) || _); [done|].
  destruct (udp_receive_with_timestamp _ _ _) as [[ps dec] r] eqn:Hr.
  destruct (udp_receive_view _ _ _ _ _ _ _ _ _ _ _ _ _ _ _ Hrel Hr) as (Hd & Hwf & box' & Hh & Hsub & Hpk).
  match goal with |- context [if Peer.is_closed ?x then ?y else ?z] => set (bx := if Peer.is_closed x then y else z) in * end.
  destruct r as [[res|]|]; [|by eapply rel_receiver_quiet|by eapply Hquiet].
  destruct (datagram_poll p (receiver s) [res] Hok Hp ltac:(cbn; lia)) as (Hok' & Hrd & Hf).
  destruct Hf as [Hf|([packet t0] & [= ->] & Hrt & Hf)]; [by eapply rel_receiver_quiet|].
  destruct (Hpk packet t0 eq_refl) as (i & -> & Hi).
  pose proof (rel_open _ _ Hrel) as Ho. cbn in Ho. rewrite Hrt in Ho. subst o.
  set (t' := poll_task (with_reads [Ok (packet, t0)] p) (receiver s)) in *.
  exists (Build_dchannel acc q tr arr box' (del ++ [i]) (reading t')). split.
  - eapply rtc_l; [apply dchannel_deliver|]. destruct (reading t'); [done|]. apply rtc_once, dchannel_close.
  - eapply rel_with_receiver; [exact Hrel|done..|]. rewrite Hf. apply Forall2_app.
    + apply (rel_delivered _ _ Hrel).
    + by constructor.
Qed.

(** ** The theorems *)

(** What the rest of the program and the network may do: submit packets the two
    serializers agree on, bring foreign datagrams that do not decode, and not
    reopen the ECS channel. *)
Definition allowed (o : op) : Prop :=
  match o with
  | DgSend p => sendable p
  | DgForeign data _ => foreign data
  | DgPoll _ _ _ _ p => no_reopen p
  | _ => True
  end.

Lemma dg_step_simulates s a (o : op) : rel s a → allowed o →
  ∃ a', rtc dchannel_step a a' ∧ rel (step s o) a'.
Proof.
  intros Hrel Ho. destruct o as [p|e| |i now|data now|c errs limit now p]; cbn [dg_step].
  - by apply dg_send_simulates.
  - by apply dg_write_simulates.
  - by apply dg_disconnect_simulates.
  - by apply dg_arrive_simulates.
  - destruct a. apply dg_inbox_simulates; [done|apply Ho| |constructor|cbn; lia].
    apply holds_foreign; [done|constructor].
  - by apply dg_poll_simulates.
Qed.

Lemma dg_run_simulates (os : list op) s a : Forall allowed os → rel s a →
  ∃ a', rtc dchannel_step a a' ∧ rel (dg_run connection closed_event on_evict record_full notify os s) a'.
Proof.
  intros Hall. revert s a. induction Hall as [|o os Ho _ IH]; intros s a Hrel; [by exists a|].
  destruct (dg_step_simulates s a o Hrel Ho) as (a1 & Hr1 & Hrel1).
  destruct (IH _ a1 Hrel1) as (a2 & Hr2 & Hrel2). exists a2. split; [by etrans|done].
Qed.

(** How a connection may start: within its limits, with nothing received. *)
Definition startable (queues : NetworkQueueSettings) (local : PeerState W L) (box : Inbox) : Prop :=
  send_capacity queues ≤ usize_max ∧ validated_max_payload_size (Peer.options local) ≤ usize_max ∧
  inbox_wf box ∧ inbox_items box = [].

Abbreviation start := (dg_start connection closed_event on_evict record_full notify).

Lemma start_rel queues token local remote enc dec box incoming datagrams disconnects handles :
  startable queues local box → enc_ok enc → dec_ok dec →
  rel (start queues token local remote enc dec box incoming datagrams disconnects handles) dchannel_start.
Proof.
  intros (Hcap & Hmax & Hwf & Hempty) He Hd. split; cbn; try done.
  - by apply (receive_packets_ok true connection closed_event on_evict record_full notify []).
  - split; [|pose proof usize_max_ge; lia]. apply (outgoing_channel_wf (Ch:=Ch) (T:=P) queues true Hcap).
  - rewrite Hempty. constructor.
Qed.

(** What the specification says of a state. *)
Lemma rel_observes s a : rel s a →
  d_accepted a = accepted s ∧ d_arrived a = arrivals s ∧ d_open a = reading (receiver s) ∧
  length (d_transmitted a) = length (wire s) ∧ d_packets a = event_packet <$> forwarded (receiver s).
Proof.
  intros []. split_and!; try done.
  - by rewrite (Forall2_length _ _ _ rel_wire0).
  - unfold d_packets. induction rel_delivered0 as [|i e l1 l2 Hi _ IH]; [done|]. cbn. by rewrite Hi, IH.
Qed.

(** C6. A UDP connection, from [send] on one end to the ECS on the other, is a
    channel of datagrams: whatever the network loses, repeats, reorders or brings
    from elsewhere that does not decode, and whenever the queues evict, the writes
    fail or the connection ends, its runs are runs of the specification. *)
Theorem datagrams_refine_channel (os : list op) queues token local remote enc dec box
    incoming datagrams disconnects handles :
  Forall allowed os → startable queues local box → enc_ok enc → dec_ok dec →
  let s := dg_run connection closed_event on_evict record_full notify os
    (start queues token local remote enc dec box incoming datagrams disconnects handles) in
  ∃ a, rtc dchannel_step dchannel_start a ∧
    d_accepted a = accepted s ∧ d_arrived a = arrivals s ∧ d_open a = reading (receiver s) ∧
    length (d_transmitted a) = length (wire s) ∧ d_packets a = event_packet <$> forwarded (receiver s).
Proof.
  intros Hall Hstart He Hd s.
  destruct (dg_run_simulates os _ _ Hall (start_rel queues token local remote enc dec box incoming datagrams
    disconnects handles Hstart He Hd)) as (a & Hr & Hrel).
  exists a. split; [done|]. by apply rel_observes.
Qed.

(** What the application hears over UDP: only packets the other end's [send]
    accepted; each at most as often as it was sent if the network repeats no
    datagram; and in the order they were sent if it does not reorder them
    either. *)
Theorem datagrams_delivered (os : list op) queues token local remote enc dec box
    incoming datagrams disconnects handles :
  Forall allowed os → startable queues local box → enc_ok enc → dec_ok dec →
  let s := dg_run connection closed_event on_evict record_full notify os
    (start queues token local remote enc dec box incoming datagrams disconnects handles) in
  let heard := event_packet <$> forwarded (receiver s) in
  (∀ p, p ∈ heard → p ∈ accepted s) ∧
  (NoDup (arrivals s) → heard ⊆+ accepted s) ∧
  (StronglySorted lt (arrivals s) → heard `sublist_of` accepted s).
Proof.
  intros Hall Hstart He Hd s heard.
  destruct (dg_run_simulates os _ _ Hall (start_rel queues token local remote enc dec box incoming datagrams
    disconnects handles Hstart He Hd)) as (a & Hr & Hrel).
  apply rel_observes in Hrel as (Hacc & Harr & _ & _ & Hpk). fold s in Hacc, Harr, Hpk.
  subst heard. rewrite <- Hacc, <- Harr, <- Hpk. by apply d_packets_accepted.
Qed.
End Refinement.

(** ** A concrete connection

    Booleans from a server to a client's socket. *)

Abbreviation udp_error := (ReceiveError (DecodeError (Serializer:=bool_serializer)) unit).
Abbreviation udp_env := (recv_poll fifo bool unit udp_error (DecodeError (Serializer:=bool_serializer)) unit nat
  (list QueueDropReason)).
Abbreviation udp_op := (dg_op (Ch:=fifo) (P:=bool) (Inc:=bool_serializer) (E:=unit) (D:=udp_error)
  (Addr:=nat) (store:=list QueueDropReason) (LenErr:=unit)).

Definition udp_demo_env : udp_env := {|
  rv_cancelled := false; rv_send_error := None; rv_late_error := None; rv_reads := [];
  rv_incoming c := c; rv_datagrams q := q; rv_disconnects c := c; rv_handles h := h |}.

Definition udp_demo_write : write_env := {|
  we_first := {| Pacing.now := 0; peer_closed := false; Pacing.rate := None; rate_changed := false;
                 rate_sender_gone := false |};
  we_waits := []; we_sends := [(false, Some (Ok 1))]; we_sent_at := 1; we_closed_after := false |}.

Definition udp_demo_codec : SerializerAdapter BitcodeSerializer BitcodeSerializer := ReadOnly bitcode_new.
Definition udp_demo_queues : NetworkQueueSettings := NetworkQueueSettings_default.

Definition udp_demo_start := dg_start (W:=λ A, A) (L:=bool) (Ch:=fifo) (Inc:=bool_serializer)
  (E:=unit) (D:=udp_error) (Addr:=nat) (LenErr:=unit) {| connection_number := 3 |} (λ e, e)
  (λ _ (h : list QueueDropReason), h) (λ h, h) None udp_demo_queues false example_peer example_peer
  udp_demo_codec udp_demo_codec (Socket []) (mpsc_channel 2)
  (lossy_channel 4 usize_max DropOldest) (mpsc_channel 1) [].

Definition udp_demo_run (os : list udp_op) :=
  dg_run (W:=λ A, A) (L:=bool) (Out:=bool_serializer) {| connection_number := 3 |} (λ e, e)
    (λ _ (h : list QueueDropReason), h) (λ h, h) None os udp_demo_start.

Definition udp_demo_heard (os : list udp_op) : list bool :=
  event_packet <$> forwarded (receiver (udp_demo_run os)).

(** Three packets are sent; the network brings the second twice, the first between
    them, and a foreign datagram. *)
Definition udp_demo_sends : list udp_op :=
  [DgSend true; DgSend false; DgSend true; DgWrite udp_demo_write; DgWrite udp_demo_write; DgWrite udp_demo_write].
Definition udp_demo_polls (n : nat) : list udp_op := replicate n (DgPoll false [] 64 0 udp_demo_env).
Definition udp_demo_ops : list udp_op :=
  udp_demo_sends ++ [DgArrive 1 0; DgForeign [7] 0; DgArrive 0 0; DgArrive 1 0] ++ udp_demo_polls 4.

Example udp_demo_result : (udp_demo_heard udp_demo_ops, wire (udp_demo_run udp_demo_ops)) =
  ([false; true; false], [[1]; [0]; [1]]).
Proof. by vm_compute. Qed.

(** The second is lost. *)
Definition udp_demo_ordered : list udp_op :=
  udp_demo_sends ++ [DgArrive 0 0; DgForeign [7] 0; DgArrive 2 0] ++ udp_demo_polls 3.

#[local] Instance udp_demo_pair :
  DatagramPair bool_serializer bool_serializer (λ _, True) (λ s, s = udp_demo_codec) (λ s, s = udp_demo_codec).
Proof. apply read_only_datagrams. by intros [] bs _ [= <-]. Qed.

Lemma udp_demo_foreign : foreign (Inc:=bool_serializer) (dec_ok:=λ s, s = udp_demo_codec) [7].
Proof. split; [by vm_compute|]. intros c ->. by eexists _, _. Qed.

Definition udp_demo_quiet (o : udp_op) : Prop :=
  match o with DgForeign data _ => data = [7] | DgPoll _ _ _ _ p => p = udp_demo_env | _ => True end.

Lemma udp_demo_allowed (os : list udp_op) : Forall udp_demo_quiet os →
  Forall (allowed (sendable:=λ _, True) (dec_ok:=λ s, s = udp_demo_codec)) os.
Proof.
  intros Hall. eapply Forall_impl; [exact Hall|]. intros [| | | | |]; cbn; try done.
  - intros ->. apply udp_demo_foreign.
  - intros ->. by intros c Hc.
Qed.

Ltac udp_quiet := unfold udp_demo_ops, udp_demo_ordered, udp_demo_sends, udp_demo_polls; cbn [app replicate];
  repeat (apply Forall_cons; split; [first [exact I | reflexivity]|]); apply Forall_nil; exact I.

Lemma udp_demo_startable : startable (L:=bool) udp_demo_queues example_peer (Socket []).
Proof.
  split; [by apply Z.leb_le; vm_compute|]. split; [by apply Z.leb_le; vm_compute|]. split; [exact I|reflexivity].
Qed.

Lemma datagrams_refine_channel_witness :
  udp_demo_heard udp_demo_ops = [false; true; false] ∧
  ∃ a, rtc dchannel_step dchannel_start a ∧ d_accepted a = [true; false; true] ∧
    d_arrived a = [1; 0; 1]%nat ∧ d_packets a = [false; true; false].
Proof.
  split; [by vm_compute|].
  destruct (datagrams_refine_channel (W:=λ A, A) (L:=bool) (Ch:=fifo) (Addr:=nat) (Out:=bool_serializer)
    (Inc:=bool_serializer) (sendable:=λ _, True) (enc_ok:=λ s, s = udp_demo_codec)
    (dec_ok:=λ s, s = udp_demo_codec) {| connection_number := 3 |} (λ e, e)
    (λ _ (h : list QueueDropReason), h) (λ h, h) None udp_demo_ops udp_demo_queues false example_peer example_peer
    udp_demo_codec udp_demo_codec (Socket []) (mpsc_channel 2)
    (lossy_channel 4 usize_max DropOldest) (mpsc_channel 1) [])
    as (a & Hr & Hacc & Harr & _ & _ & Hpk).
  - apply udp_demo_allowed. udp_quiet.
  - apply udp_demo_startable.
  - done.
  - done.
  - exists a. split; [exact Hr|]. rewrite Hacc, Harr, Hpk. split_and!; vm_compute; reflexivity.
Defined.

Lemma datagrams_delivered_witness :
  udp_demo_heard udp_demo_ordered = [true; true] ∧
  StronglySorted lt (arrivals (udp_demo_run udp_demo_ordered)) ∧
  udp_demo_heard udp_demo_ordered `sublist_of` accepted (udp_demo_run udp_demo_ordered).
Proof.
  assert (Hs : StronglySorted lt (arrivals (udp_demo_run udp_demo_ordered))).
  { assert (Ha : arrivals (udp_demo_run udp_demo_ordered) = [0; 2]%nat) by by vm_compute.
    rewrite Ha. repeat constructor. }
  split; [by vm_compute|]. split; [exact Hs|]. revert Hs. unfold udp_demo_heard, udp_demo_run, udp_demo_start. intros Hs.
  refine (proj2 (proj2 (datagrams_delivered (W:=λ A, A) (L:=bool) (Ch:=fifo) (Addr:=nat) (Out:=bool_serializer)
    (Inc:=bool_serializer) (sendable:=λ _, True) (enc_ok:=λ s, s = udp_demo_codec)
    (dec_ok:=λ s, s = udp_demo_codec) {| connection_number := 3 |} (λ e, e)
    (λ _ (h : list QueueDropReason), h) (λ h, h) None udp_demo_ordered udp_demo_queues false example_peer example_peer
    udp_demo_codec udp_demo_codec (Socket []) (mpsc_channel 2)
    (lossy_channel 4 usize_max DropOldest) (mpsc_channel 1) [] _ udp_demo_startable eq_refl eq_refl)) Hs).
  apply udp_demo_allowed. udp_quiet.
Defined.
