(* ===== verification/Delivery.v ===== *)
(** * From [send] to the application's observers

    Puts the receiving end's ECS behind the stream connection of [Pipeline]: the
    channel the receive task sends its messages to is the one the lifecycle system
    of [Endpoint] takes them from, shared with the tasks of the endpoint's other
    connections, and the commands it queues run the application's observers.
    Tasks, systems and commands are interleaved one step at a time. *)

From stdpp Require Import list.
From S2P Require Import Prelude Protocol Lossy Externals Diagnostics Settings Queue Codec Serializer Framing Connection Tasks Receive Endpoint Establish Client Pipeline.

Local Open Scope Z_scope.

Section System.
Context `{Target} {L : Type} `{CancellationToken L} {Ch : Type → Type} `{Mpsc Ch}.
Context {Hd Hd' T : Type} `{TransportHandle Hd} `{TransportHandle Hd'}.
Context {LS} `{PacketLengthSerializer LS} `{Display ls_error}.
Context {S1 S2 P Q : Type} `{Out : Serializer S1 Q P} `{Inc : Serializer S2 P Q}.
Context {Addr R E D X store : Type} `{Endpoint R E D X}.

Variable ls : LS.
Variable connection : ConnectionId.
Variable closed_event : ReceiveError (DecodeError (Serializer:=Inc)) (ls_error (LS:=LS)) → D.
Variable on_evict : PacketReceiveEvent P → store → store.
Variable record_full : store → store.
Variable notify : option Addr.
Variable observe : trigger P E X → World L Ch Hd' T R → World L Ch Hd' T R.

Abbreviation pipe_t := (Pipe (L:=L) (Ch:=Ch) (Hd:=Hd) (LS:=LS) (S1:=S1) (S2:=S2) (P:=P) (Inc:=Inc)
  (E:=E) (D:=D) (Addr:=Addr) (store:=store)).
Abbreviation pipe_op_t := (pipe_op (Ch:=Ch) (LS:=LS) (P:=P) (Inc:=Inc) (E:=E) (D:=D) (Addr:=Addr) (store:=store)).
Abbreviation world_t := (World L Ch Hd' T R).

(** The connection, whose receive task holds the endpoint's channel; the world;
    the commands queued; and what observers have been told. *)
Record System := {
  pipe : pipe_t;
  world : world_t;
  pending : list (command P E D);
  told : list (trigger P E X * world_t);
}.

Definition channel (s : System) : Ch (IncomingMessage P E D) := incoming (receiver (pipe s)).

Definition with_channel (c : Ch (IncomingMessage P E D)) (s : pipe_t) : pipe_t :=
  Pipeline.with_receiver (reader s) (decoder s) (with_incoming c None (receiver s)) s.

(** A step of the connection: its handle, its tasks, the network. *)
Definition on_pipe (o : pipe_op_t) (s : System) : System :=
  {| pipe := pipe_step ls connection closed_event on_evict record_full notify (pipe s) o;
     world := world s; pending := pending s; told := told s |}.

(** Another connection's task, or an attempt to connect, puts a message into the
    channel if there is room. *)
Definition other_message (m : IncomingMessage P E D) (s : System) : System :=
  {| pipe := with_channel (mpsc_poll_send (channel s) m).1 (pipe s);
     world := world s; pending := pending s; told := told s |}.

(** The lifecycle system. [incoming_system] is the case of the budget in force; a
    loop that tasks run into is several of these. *)
Definition take_messages (budget : nat) (s : System) : System :=
  let '(c, ks) := incoming_loop budget (channel s) in
  {| pipe := with_channel c (pipe s); world := world s; pending := pending s ++ ks; told := told s |}.

(** One queued command. *)
Definition run_pending (s : System) : System :=
  match pending s with
  | [] => s
  | k :: ks =>
      let '(w, seen) := run_command observe k (world s) in
      {| pipe := pipe s; world := w; pending := ks; told := told s ++ seen |}
  end.

(** The rest of the program changes the world. *)
Definition elsewhere (f : world_t → world_t) (s : System) : System :=
  {| pipe := pipe s; world := f (world s); pending := pending s; told := told s |}.

Inductive op :=
  | OnPipe (o : pipe_op_t)
  | OtherMessage (m : IncomingMessage P E D)
  | TakeMessages (budget : nat)
  | RunPending
  | Elsewhere (f : world_t → world_t).

Definition step (s : System) (o : op) : System :=
  match o with
  | OnPipe o => on_pipe o s
  | OtherMessage m => other_message m s
  | TakeMessages budget => take_messages budget s
  | RunPending => run_pending s
  | Elsewhere f => elsewhere f s
  end.

Definition run (os : list op) (s : System) : System := foldl step s os.

(** A frame with budget [n]: the system, then its commands. *)
Definition frame_ops (n : nat) : list op := TakeMessages n :: replicate n RunPending.

(** The connection's tasks start when its establishment is in the channel. *)
Definition system_start (p : pipe_t) (w : world_t) : System :=
  {| pipe := p; world := w; pending := []; told := [] |}.
End System.

(** ** Properties *)

Section Properties.
Context `{Target} {L : Type} `{CancellationToken L} {Ch : Type → Type} `{MpscLaws Ch}.
Context {Hd Hd' T : Type} `{TransportHandle Hd} `{TransportHandle Hd'}.
Context {LS} `{PacketLengthSerializer LS} `{!PrefixCodec LS} `{Display ls_error}.
Context {S1 S2 P Q : Type} `{Out : Serializer S1 Q P} `{Inc : Serializer S2 P Q}.
Context {Addr R E D X store : Type} `{EndpointLaws Addr R E D X}.
Context {sendable : P → Prop} {max_payload : Z} {synced : S1 → S2 → Prop}
  `{!SerializerPair Out Inc sendable max_payload synced}.

Variable ls : LS.
Variable connection : ConnectionId.
Variable closed_event : ReceiveError (DecodeError (Serializer:=Inc)) (ls_error (LS:=LS)) → D.
Variable on_evict : PacketReceiveEvent P → store → store.
Variable record_full : store → store.
Variable notify : option Addr.
Variable observe : trigger P E X → World L Ch Hd' T R → World L Ch Hd' T R.

(** The connection's establishment event; its closing events name it. *)
Variable opening : E.
Hypothesis Hclosing : ∀ err, closed_id (closed_event err) = Some connection.

Hypothesis Hsize : (0 < SIZE (LS:=LS))%nat.
Hypothesis Hmax : max_payload ≤ usize_max.

Abbreviation system := (System (L:=L) (Ch:=Ch) (Hd:=Hd) (Hd':=Hd') (T:=T) (LS:=LS) (S1:=S1) (S2:=S2)
  (P:=P) (Inc:=Inc) (Addr:=Addr) (R:=R) (E:=E) (D:=D) (X:=X) (store:=store)).
Abbreviation op_t := (op (L:=L) (Ch:=Ch) (Hd':=Hd') (T:=T) (LS:=LS) (P:=P) (Inc:=Inc)
  (Addr:=Addr) (R:=R) (E:=E) (D:=D) (store:=store)).
Abbreviation do_step := (step ls connection closed_event on_evict record_full notify observe).
Abbreviation do_run := (run ls connection closed_event on_evict record_full notify observe).
Abbreviation pipe_good := (pipe_inv (Ch:=Ch) (Hd:=Hd) (E:=E) (D:=D) (Addr:=Addr) (store:=store)
  (Inc:=Inc) (sendable:=sendable) (max_payload:=max_payload) (synced:=synced) ls connection closed_event).
Abbreviation pipe_steps := (pipe_step (Out:=Out) ls connection closed_event on_evict record_full notify).
Implicit Types (s : system).

Abbreviation connection_t := (Pipe (L:=L) (Ch:=Ch) (Hd:=Hd) (LS:=LS) (S1:=S1) (S2:=S2) (P:=P) (Inc:=Inc)
  (E:=E) (D:=D) (Addr:=Addr) (store:=store)).

(** The triggers of messages. *)
Abbreviation triggers ms := (message_trigger (R:=R) (X:=X) <$> ms).

(** Nobody else uses the channel within a step, and the others' messages are not
    about this connection. *)
Definition allowed (o : op_t) : Prop :=
  match o with
  | OnPipe o =>
      Pipeline.allowed (sendable:=sendable) (max_payload:=max_payload) o ∧
      match o with PipePoll _ _ _ p => ∀ c, rv_incoming p c = c | _ => True end
  | OtherMessage m => ¬ about connection (message_trigger (R:=R) (X:=X) m)
  | _ => True
  end.

(** What observers were told of the connection, what is queued and what is in the
    channel are its establishment and the messages of its receive task. *)
Record system_inv s : Prop := {
  inv_pipe : pipe_good (pipe s);
  inv_life : ∃ ms, pending s = message_command <$> ms ∧
    filter (about connection) ((told s).*1 ++ triggers (ms ++ mpsc_items (channel s))) =
    OnEstablished opening :: triggers (sent (receiver (pipe s)));
}.

Lemma with_channel_inv c s : pipe_good (pipe s) →
  mpsc_is_closed c = mpsc_is_closed (channel s) → pipe_good (with_channel c (pipe s)).
Proof.
  intros [[Hi Ho Hs Hf] Hsend Hk Hr] Hc. split; [|exact Hsend|exact Hk|exact Hr].
  split; [exact Hi|exact Ho| |exact Hf]. cbn. unfold sent_ok, ended, streams in *. cbn.
  by rewrite app_nil_r, Hc.
Qed.
(** A step of the connection puts the task's new messages into the channel. *)
Lemma pipe_poll_form limit now eof p (s : connection_t) :
  let s' := pipe_poll ls connection closed_event on_evict record_full notify limit now eof p s in
  receiver s' = receiver s ∨
  ∃ reads, receiver s' =
    poll false connection closed_event on_evict record_full notify (with_reads reads p) (receiver s).
Proof.
  unfold pipe_poll. destruct (at_ (receiver s)); try (right; by eexists).
  destruct (_ || _); [right; by eexists|].
  destruct (receive_with_timestamp _ _ _ _ _ _) as [[[r dec] res]|]; [|right; by eexists].
  destruct (starved eof res); [right; by eexists|]. destruct res as [res|]; [right; by eexists|by left].
Qed.

Lemma pipe_step_extends (o : pipe_op) s : allowed (OnPipe o) → pipe_good (pipe s) →
  extends (receiver (pipe s)) (receiver (pipe_steps (pipe s) o)).
Proof.
  intros [Ho Hsame] Hinv. pose proof (i_kind _ _ _ _ Hinv) as Hk.
  assert (Hsame' : ∀ k : connection_t, receiver k = receiver (pipe s) → extends (receiver (pipe s)) (receiver k)).
  { by intros k ->. }
  destruct o as [p| | |n|f|limit now eof p]; cbn in Ho |- *;
    [apply Hsame'..|].
  - destruct (pipe_send_sends (Inc:=Inc) (max_payload:=max_payload) (synced:=synced) ls p
      (pipe s) Ho Hk) as [new Hs]. apply Hs.
  - apply (s_receiver _ _ _ _ (pipe_write_sends ls (pipe s) Hk)).
  - apply (s_receiver _ _ _ _ (pipe_disconnect_sends (Inc:=Inc) (sendable:=sendable)
      (max_payload:=max_payload) (synced:=synced) ls (pipe s) Hk)).
  - done.
  - done.
  - destruct (pipe_poll_form limit now eof p (pipe s)) as [->|[reads ->]]; [done|].
    by apply poll_extends.
Qed.

Lemma sent_about (t : RecvTask Ch P E D _ _ Addr store) : task_ok false connection closed_event t →
  Forall (about connection) (triggers (sent t)).
Proof.
  intros Ht. destruct (sent_shape _ _ _ _ Ht) as (closing & -> & Hc).
  rewrite fmap_app. apply Forall_app. split.
  - unfold streams. rewrite !Forall_fmap. eapply Forall_impl; [by eapply forwarded_ids|]. done.
  - destruct Hc as [->|(e & -> & _)]; [constructor|]. constructor; [|constructor].
    cbn. by rewrite trigger_id_closed.
Qed.
(** ** Every step keeps the account *)

(** The channel got the messages [new], of which those about the connection are
    what its task sent. *)
Lemma inv_channel s k new own :
  system_inv s → pipe_good (pipe k) → pending k = pending s → told k = told s →
  mpsc_items (channel k) = mpsc_items (channel s) ++ new →
  sent (receiver (pipe k)) = sent (receiver (pipe s)) ++ own →
  filter (about connection) (triggers new) = triggers own → system_inv k.
Proof.
  intros [_ (ms & Hp & Hl)] Hk Hpend Htold Hi Hs Hf. split; [done|]. exists ms. rewrite Hpend, Htold, Hi, Hs.
  split; [done|]. by rewrite (app_assoc ms), fmap_app, (app_assoc _ _ (triggers new)), filter_app, Hl, Hf,
    fmap_app.
Qed.

Lemma system_step_inv s (o : op_t) : allowed o → system_inv s → system_inv (do_step s o).
Proof.
  intros Ho Hinv. pose proof Hinv as [Hpipe (ms & Hp & Hl)].
  destruct o as [o|m|n| |f]; cbn [step].
  - assert (Hpipe' : pipe_good (pipe_steps (pipe s) o)) by (apply pipe_step_inv; [done|done|apply Ho|done]).
    destruct (pipe_step_extends o s Ho Hpipe) as (new & Hs & Hi & _).
    apply (inv_channel s _ new new); try done. apply filter_all.
    assert (Hall := sent_about _ (i_task _ _ _ _ Hpipe')). rewrite Hs, fmap_app in Hall.
    by apply Forall_app in Hall as [_ Hall].
  - destruct (mpsc_poll_send (channel s) m) as [c r] eqn:Hs. unfold other_message. rewrite Hs. cbn [fst].
    apply mpsc_poll_send_view in Hs as (Hc & _ & _ & Hv).
    apply (inv_channel s _ (match r with Ready (Ok _) => [m] | _ => [] end) []); try done.
    + by apply with_channel_inv.
    + destruct (mpsc_is_closed (channel s)); [|destruct (_ <=? _)]; destruct Hv as [-> Hi]; cbn;
        by rewrite ?app_nil_r, Hi.
    + destruct r as [[u|e]|]; try done. by rewrite fmap_cons, filter_cons_False by done.
  - unfold take_messages. destruct (incoming_loop_fifo (P:=P) (E:=E) (D:=D) n (channel s)) as [Hks Hi].
    destruct (incoming_loop_channel n (channel s)) as [Hc _].
    destruct (incoming_loop n (channel s)) as [c ks]. cbn in Hks, Hi, Hc. split; cbn.
    + by apply with_channel_inv.
    + exists (ms ++ take n (mpsc_items (channel s))). rewrite Hp, Hks, fmap_app. split; [done|].
      by rewrite Hi, <- app_assoc, take_drop, app_nil_r.
  - unfold run_pending. destruct ms as [|m ms]; rewrite Hp; [done|]. cbn [fmap list_fmap].
    pose proof (run_message_seen observe m (world s)) as Hm.
    destruct (run_command observe (message_command m) (world s)) as [w seen]. cbn in Hm.
    split; cbn; [done|]. exists ms. split; [done|]. rewrite fmap_app, Hm, <- app_assoc. exact Hl.
  - split; [done|]. by exists ms.
Qed.

Lemma system_run_inv (os : list op_t) s : Forall allowed os → system_inv s → system_inv (do_run os s).
Proof.
  intros Hall. revert s. induction Hall as [|o os Ho _ IH]; intros s Hinv; [done|].
  by apply IH, system_step_inv.
Qed.

(** What observers were told of the connection is the beginning of its messages. *)
Lemma life_prefix s : system_inv s →
  life connection (told s) `prefix_of` OnEstablished opening :: triggers (sent (receiver (pipe s))).
Proof.
  intros [_ (ms & _ & Hl)]. unfold life. rewrite filter_app in Hl. rewrite <- Hl. by apply prefix_app_r.
Qed.

Abbreviation start := (pipe_start connection closed_event on_evict record_full notify).

Lemma system_start_inv capacity token (h : Hd) enc dec incoming datagrams disconnects handles w :
  synced enc dec → 0 < capacity →
  filter (about connection) (triggers (mpsc_items incoming)) = [OnEstablished opening] →
  system_inv (system_start (start capacity token h enc dec incoming datagrams disconnects handles) w).
Proof. intros Hsync Hcap Hin. split; [by apply pipe_start_inv|]. by exists []. Qed.

(** The beginning of the messages of a receive task. *)
Lemma prefix_of_sent (t : RecvTask Ch P E D _ _ Addr store) (l : list (trigger P E X)) :
  task_ok false connection closed_event t → l `prefix_of` triggers (sent t) →
  ∃ heard ending, l = (OnPacket <$> heard) ++ ending ∧ heard `prefix_of` forwarded t ∧
    (ending = [] ∨ heard = forwarded t ∧ ∃ err, ending = [OnClosed (closed_trigger (closed_event err))]).
Proof.
  intros Ht Hl. destruct (sent_shape _ _ _ _ Ht) as (closing & Hs & Hc).
  rewrite Hs, fmap_app in Hl. unfold streams in Hl. rewrite <- list_fmap_compose in Hl.
  destruct (app_prefix_of_cases _ _ _ Hl) as [[rest Hr]|(l2 & -> & Hl2)].
  - apply fmap_app_inv in Hr as (heard & more & -> & _ & Hf). exists heard, []. rewrite app_nil_r.
    split; [done|]. split; [rewrite Hf; by apply prefix_app_r|by left].
  - exists (forwarded t), l2. split_and!; [done|done|]. destruct Hc as [->|(err & -> & _)].
    + left. by apply prefix_nil_inv in Hl2.
    + destruct l2 as [|x l2]; [by left|right]. split; [done|]. exists err.
      apply prefix_cons_inv_1 in Hl2 as Hx. apply prefix_cons_inv_2, prefix_nil_inv in Hl2. by subst.
Qed.

(** C2. What the application hears of a stream connection: first that it is
    established; then packets, which are the first packets the peer's [send]
    accepted, in order and each once; and at its end, once and last, that it is
    closed, when the packets heard are all those the receive task handed over.
    Whatever the network, the other connections' tasks, the frames and the
    observers do, and however their steps are interleaved. *)
Theorem application_hears_connection (os : list op_t) capacity token (h : Hd) enc dec
    incoming datagrams disconnects handles w :
  Forall allowed os → synced enc dec → 0 < capacity →
  filter (about connection) (triggers (mpsc_items incoming)) = [OnEstablished opening] →
  let s := do_run os (system_start (start capacity token h enc dec incoming datagrams disconnects handles) w) in
  life connection (told s) = [] ∨
  ∃ heard ending,
    life connection (told s) = OnEstablished opening :: (OnPacket <$> heard) ++ ending ∧
    event_packet <$> heard `prefix_of` accepted (pipe s) ∧
    (ending = [] ∨
     (∃ err, ending = [OnClosed (closed_trigger (closed_event err))]) ∧
     event_packet <$> heard = c_delivered (channel_of (pipe s))).
Proof.
  intros Hall Hsync Hcap Hin s.
  assert (Hinv : system_inv s) by by apply system_run_inv, system_start_inv. clearbody s.
  pose proof (life_prefix s Hinv) as Hl. destruct Hinv as [Hpipe _].
  destruct (life connection (told s)) as [|x l]; [by left|right].
  apply prefix_cons_inv_1 in Hl as Hx. apply prefix_cons_inv_2 in Hl. subst x.
  destruct (prefix_of_sent _ _ (i_task _ _ _ _ Hpipe) Hl) as (heard & ending & -> & Hh & He).
  exists heard, ending. split_and!; [done| |].
  - etrans; [|by eapply delivered_accepted]. destruct Hh as [more ->]. rewrite fmap_app. by apply prefix_app_r.
  - destruct He as [->|[-> He]]; [by left|by right].
Qed.
(** ** A connection left alone reaches the application *)

(** Two states of the connection that differ by what waits in the channel. *)
Definition still (k k' : connection_t) : Prop :=
  (reader k' = reader k ∧ decoder k' = decoder k ∧ accepted k' = accepted k) ∧
  (at_ (receiver k') = at_ (receiver k) ∧ token (receiver k') = token (receiver k) ∧
   forwarded (receiver k') = forwarded (receiver k)) ∧
  mpsc_is_closed (incoming (receiver k')) = mpsc_is_closed (incoming (receiver k)) ∧
  mpsc_max_capacity (incoming (receiver k')) = mpsc_max_capacity (incoming (receiver k)).

#[local] Instance still_preorder : PreOrder still.
Proof. split; [by intros k|]. unfold still. intros k1 k2 k3. naive_solver congruence. Qed.

Lemma still_receiving k k' : still k k' → receiving (receiver k) → receiving (receiver k').
Proof. unfold still, receiving. intros (_ & (-> & -> & _) & -> & ->). done. Qed.

Lemma with_channel_still c k : mpsc_is_closed c = mpsc_is_closed (incoming (receiver k)) →
  mpsc_max_capacity c = mpsc_max_capacity (incoming (receiver k)) → still k (with_channel c k).
Proof. intros Hc Hm. by repeat split. Qed.

Lemma do_run_app (os1 os2 : list op_t) s : do_run (os1 ++ os2) s = do_run os2 (do_run os1 s).
Proof. apply foldl_app. Qed.

(** Every queued command runs. *)
Lemma commands_run n s : (length (pending s) ≤ n)%nat →
  let s' := do_run (replicate n RunPending) s in pipe s' = pipe s ∧ pending s' = [].
Proof.
  revert s. induction n as [|n IH]; intros s Hn.
  { split; [done|]. apply nil_length_inv. cbn. lia. }
  cbn [replicate run foldl step]. unfold run_pending. destruct (pending s) as [|k ks] eqn:Hp.
  { refine (IH s _). rewrite Hp. cbn. lia. }
  destruct (run_command observe k (world s)) as [w seen].
  refine (IH (Build_System _ w ks _) _). cbn in *. lia.
Qed.

Lemma commands_run_told n s : (length (pending s) ≤ n)%nat →
  let s' := do_run (replicate n RunPending) s in
  (world s', told s') = ((run_commands observe (pending s) (world s)).1,
                         told s ++ (run_commands observe (pending s) (world s)).2).
Proof.
  revert s. induction n as [|n IH]; intros [k w ks l] Hn; cbn in Hn.
  { destruct ks; [|cbn in Hn; lia]. cbn. by rewrite app_nil_r. }
  cbn [replicate run foldl step pending world told]. unfold run_pending. cbn [pending].
  destruct ks as [|c ks]; [refine (IH (Build_System k w [] l) _); cbn; lia|].
  cbn [run_commands pipe world told]. destruct (run_command observe c w) as [w1 seen1].
  etrans; [refine (IH (Build_System k w1 ks _) _); cbn in *; lia|]. cbn.
  destruct (run_commands observe ks w1) as [w2 seen2]. by rewrite <- app_assoc.
Qed.

(** A frame whose tasks stand still is [lifecycle_step] of [Endpoint]. *)
Lemma frame_is_lifecycle_step (e : frame_env L Ch Hd' T P R E D) q s :
  pending s = [] → (∀ b, fe_before e b = b) → (∀ b, fe_commands e b = b) →
  let n := Z.to_nat (events_per_frame (resolve_queues (fe_settings e) (fe_queues e))) in
  let s' := do_run (frame_ops n) s in
  lifecycle_step observe e (Build_Inbox (channel s) q (world s)) =
    (Build_Inbox (channel s') q (world s'), drop (length (told s)) (told s')).
Proof.
  intros Hp Hb Hk. unfold lifecycle_step, incoming_system. rewrite Hb. cbn [messages Endpoint.world Endpoint.datagrams].
  set (n := Z.to_nat _). cbn [frame_ops run foldl step]. unfold take_messages. rewrite Hp.
  destruct (incoming_loop_fifo (P:=P) (E:=E) (D:=D) n (channel s)) as [Hks _].
  destruct (incoming_loop n (channel s)) as [c ks] eqn:Hloop. cbn in Hks. rewrite Hk. cbn [Endpoint.world].
  set (s1 := Build_System _ _ _ _).
  assert (Hl : (length (pending s1) ≤ n)%nat) by (cbn; rewrite Hks, length_fmap, length_take; lia).
  pose proof (commands_run_told n s1 Hl) as Ht. pose proof (proj1 (commands_run n s1 Hl)) as Hpipe. cbn zeta in *.
  fold (run ls connection closed_event on_evict record_full notify observe (replicate n RunPending) s1).
  set (s2 := do_run _ s1) in *. clearbody s2. injection Ht as -> ->. unfold channel. rewrite Hpipe. cbn.
  rewrite drop_app_length. by destruct (run_commands observe ks (world s)).
Qed.

(** A frame takes its budget of messages and runs their commands. *)
Lemma frame_runs n s : pending s = [] →
  let s' := do_run (frame_ops n) s in
  still (pipe s) (pipe s') ∧ pending s' = [] ∧ mpsc_items (channel s') = drop n (mpsc_items (channel s)).
Proof.
  intros Hp. cbn [frame_ops run foldl step]. unfold take_messages.
  destruct (incoming_loop_fifo (P:=P) (E:=E) (D:=D) n (channel s)) as [Hks Hi].
  destruct (incoming_loop_channel n (channel s)) as [Hc Hm].
  destruct (incoming_loop n (channel s)) as [c ks]. cbn in Hks, Hi, Hc, Hm. rewrite Hp, app_nil_l.
  set (s1 := Build_System _ _ _ _).
  destruct (commands_run n s1) as [Hpipe Hpend]; [cbn; rewrite Hks, length_fmap, length_take; lia|].
  cbn zeta in *. fold (run ls connection closed_event on_evict record_full notify observe (replicate n RunPending) s1).
  unfold channel. rewrite Hpipe, Hpend. split_and!; [by apply with_channel_still|done|exact Hi].
Qed.

Lemma frames_empty n m s : (0 < n)%nat → pending s = [] → (length (mpsc_items (channel s)) ≤ m)%nat →
  let s' := do_run (concat (replicate m (frame_ops n))) s in
  still (pipe s) (pipe s') ∧ pending s' = [] ∧ mpsc_items (channel s') = [].
Proof.
  intros Hn. revert s. induction m as [|m IH]; intros s Hp Hl; cbn zeta.
  { split_and!; [done|done|]. apply nil_length_inv. cbn. lia. }
  cbn [replicate concat]. rewrite do_run_app.
  destruct (frame_runs n s Hp) as (Hst & Hp1 & Hi1). cbn zeta in *. set (s1 := do_run (frame_ops n) s) in *.
  destruct (IH s1 Hp1) as (Hst2 & Hp2 & Hi2); [rewrite Hi1, length_drop; lia|].
  split_and!; [by etrans|done|done].
Qed.
(** The receive task at its [select!], with nothing queued between it and the
    observers. *)
Definition caught_up s : Prop :=
  receiving (receiver (pipe s)) ∧ pending s = [] ∧ mpsc_items (channel s) = [].

(** A poll with nothing else to do, and nobody else using the channel. *)
Record calm (p : recv_poll Ch P E D (DecodeError (Serializer:=Inc)) (ls_error (LS:=LS)) Addr store) : Prop := {
  calm_alive : rv_cancelled p = false;
  calm_writer : rv_send_error p = None;
  calm_channel c : rv_incoming p c = c;
}.

Abbreviation carried := (carries (Inc:=Inc) (max_payload:=max_payload) ls).

(** A poll and a frame: the next packet reaches the observers. *)
Lemma round_delivers limit now p n s pk unread dn :
  max_payload ≤ limit → calm p → (0 < n)%nat → caught_up s →
  carried (decoder (pipe s)) (pk :: unread) (reader_inner (reader (pipe s))) dn →
  let s' := do_run (OnPipe (PipePoll limit now false p) :: frame_ops n) s in
  caught_up s' ∧ accepted (pipe s') = accepted (pipe s) ∧
  carried (decoder (pipe s')) unread (reader_inner (reader (pipe s'))) dn ∧
  event_packet <$> forwarded (receiver (pipe s')) = (event_packet <$> forwarded (receiver (pipe s))) ++ [pk].
Proof.
  intros Hlim [Hal Hwr Hch] Hn [(Ha & Htok & Hopen & Hcap) [Hp Hi]] Hcar.
  destruct (pipe_poll_reads ls connection closed_event on_evict record_full notify Hsize Hmax limit now p dn pk unread
    (pipe s) Hlim Hal Hwr Ha Htok Hcar) as (f & d & Hstep & Hcar').
  assert (Hroom : zlen (mpsc_items (channel s)) < mpsc_max_capacity (channel s)) by by rewrite Hi.
  pose proof (poll_forwards connection closed_event on_evict record_full notify p (receiver (pipe s)) pk now
    Hal Hwr Ha Htok) as Hfw. cbn zeta in Hfw. rewrite !Hch in Hfw. fold (channel s) in Hfw.
  destruct (Hfw Hopen Hroom) as (Ha' & Htok' & Hf' & Hopen' & Hcap' & Hi'). clear Hfw.
  set (s1 := do_step s (OnPipe (PipePoll limit now false p))).
  change (do_run (_ :: frame_ops n) s) with (do_run (frame_ops n) s1).
  assert (Hs1 : pipe s1 = Pipeline.with_receiver f d (poll false connection closed_event on_evict record_full
    notify (with_reads [Ok (pk, now)] p) (receiver (pipe s))) (pipe s)) by exact Hstep.
  destruct (frame_runs n s1) as (Hst & Hp2 & Hi2); [done|]. cbn zeta. set (s2 := do_run (frame_ops n) s1) in *.
  assert (Hr1 : receiving (receiver (pipe s1))).
  { rewrite Hs1. unfold receiving. cbn. by rewrite Ha', Htok', Hopen', Hcap'. }
  pose proof (still_receiving _ _ Hst Hr1) as Hr2. destruct Hst as [(Hr & Hde & Hacc) [(_ & _ & Hf) _]].
  assert (Hi3 : mpsc_items (channel s2) = []).
  { rewrite Hi2. unfold channel. rewrite Hs1. cbn. rewrite Hi', Hi. destruct n as [|n]; [lia|apply drop_nil]. }
  clearbody s2. unfold caught_up. rewrite Hr, Hde, Hacc, Hf, Hs1. cbn. by rewrite Hf', fmap_app.
Qed.

Definition rounds limit now p n k : list op_t :=
  concat (replicate k (OnPipe (PipePoll limit now false p) :: frame_ops n)).

Lemma rounds_deliver limit now p n s unread dn :
  max_payload ≤ limit → calm p → (0 < n)%nat → caught_up s →
  carried (decoder (pipe s)) unread (reader_inner (reader (pipe s))) dn →
  let s' := do_run (rounds limit now p n (length unread)) s in
  caught_up s' ∧ event_packet <$> forwarded (receiver (pipe s')) =
    (event_packet <$> forwarded (receiver (pipe s))) ++ unread.
Proof.
  intros Hlim Hp Hn. revert s. induction unread as [|pk unread IH]; intros s Hs Hcar; cbn zeta.
  { cbn. by rewrite app_nil_r. }
  unfold rounds. cbn [length replicate concat]. rewrite do_run_app.
  destruct (round_delivers limit now p n s pk unread dn Hlim Hp Hn Hs Hcar) as (Hs1 & _ & Hcar1 & Hf1).
  cbn zeta in *. set (s1 := do_run (_ :: frame_ops n) s) in *.
  destruct (IH s1 Hs1 Hcar1) as [Hs2 Hf2]. split; [done|].
  fold (rounds limit now p n (length unread)). by rewrite Hf2, Hf1, <- app_assoc.
Qed.

(** Caught up, observers have been told of exactly the packets handed over. *)
Lemma caught_up_life s : system_inv s → caught_up s →
  life connection (told s) = OnEstablished opening :: (OnPacket <$> forwarded (receiver (pipe s))).
Proof.
  intros [[Ht _ _ _] (ms & Hp & Hl)] ((Ha & _) & Hpend & Hi). rewrite Hp in Hpend.
  apply fmap_nil_inv in Hpend as ->. rewrite Hi, app_nil_r in Hl. unfold life. rewrite Hl.
  pose proof (ok_sent _ _ _ _ Ht) as Hs. unfold sent_ok, ended in Hs. rewrite Ha in Hs. rewrite Hs.
  unfold streams. by rewrite <- list_fmap_compose.
Qed.
Lemma on_pipe_run (os : list pipe_op) s :
  let s' := do_run (OnPipe <$> os) s in
  pipe s' = pipe_run (Out:=Out) ls connection closed_event on_evict record_full notify os (pipe s) ∧
  pending s' = pending s.
Proof. revert s. induction os as [|o os IH]; intros s; [done|]. refine (IH (on_pipe _ _ _ _ _ _ o s)). Qed.

(** Sender, network, commands and frames: a schedule that leaves only what the
    receive task has still to read. *)
Definition flush_ops writes bytes commands n frames : list op_t :=
  (OnPipe <$> (replicate writes PipeWrite ++ [PipeDeliver bytes])) ++
  replicate commands RunPending ++ concat (replicate frames (frame_ops n)).

Lemma frame_allowed n : Forall allowed (frame_ops n).
Proof. constructor; [done|]. by apply Forall_replicate. Qed.

Lemma flush_allowed writes bytes commands n frames : Forall allowed (flush_ops writes bytes commands n frames).
Proof.
  unfold flush_ops. rewrite !Forall_app, Forall_fmap, Forall_app. split_and!.
  - by apply Forall_replicate.
  - by repeat constructor.
  - by apply Forall_replicate.
  - apply Forall_concat, Forall_replicate, frame_allowed.
Qed.

Lemma rounds_allowed limit now p n k : max_payload ≤ limit → calm p → Forall allowed (rounds limit now p n k).
Proof.
  intros Hlim [_ _ Hch]. apply Forall_concat, Forall_replicate. constructor; [|apply frame_allowed].
  split; [|exact Hch]. split; [done|]. intros c. by rewrite Hch.
Qed.

(** What the flush leaves. *)
Lemma flush_catches_up n s w enc' :
  (0 < n)%nat → system_inv s → stopped (pipe s) = false → token_is_cancelled (cancel_token (pipe s)) = false →
  receiving (receiver (pipe s)) →
  send_all ls (queue_items (queue (sender (pipe s)))) (writer (pipe s)) (encoder (pipe s)) = Some (w, enc') →
  ∃ writes bytes commands frames unread dn,
    let s' := do_run (flush_ops writes bytes commands n frames) s in
    caught_up s' ∧ carried (decoder (pipe s')) unread (reader_inner (reader (pipe s'))) dn ∧
    (event_packet <$> forwarded (receiver (pipe s'))) ++ unread = accepted (pipe s).
Proof.
  intros Hn [Hpipe _] Hst Htok Hrc Hsend.
  destruct (sender_empties ls connection closed_event on_evict record_full notify Hsize Hmax (pipe s) w enc' Hpipe
    Hst Htok (proj1 Hrc) Hsend) as (writes & bytes & unread & dn & Hr1 & _ & Hcar & Hacc).
  set (os := replicate writes PipeWrite ++ [PipeDeliver bytes]) in *.
  destruct (on_pipe_run os s) as [Hp1 Hpend1]. cbn zeta in *. set (s1 := do_run (OnPipe <$> os) s) in *.
  rewrite <- Hp1 in Hr1, Hcar. set (commands := length (pending s1)).
  destruct (commands_run commands s1) as [Hp2 Hpend2]; [done|]. cbn zeta in *.
  set (s2 := do_run (replicate commands RunPending) s1) in *.
  set (frames := length (mpsc_items (channel s2))).
  destruct (frames_empty n frames s2 Hn Hpend2) as (Hstill & Hpend3 & Hi3); [done|].
  exists writes, bytes, commands, frames, unread, dn. unfold flush_ops. rewrite !do_run_app. fold os s1 s2.
  cbn zeta in *. set (s3 := do_run _ s2) in *. rewrite Hp2 in Hstill.
  assert (Hrc3 : receiving (receiver (pipe s3))) by (apply (still_receiving _ _ Hstill); by rewrite Hr1).
  destruct Hstill as [(Hr & Hde & _) [(_ & _ & Hf) _]]. rewrite Hr, Hde, Hf, Hr1. by split_and!.
Qed.

(** C3. What is sent is heard: in any state the system can reach in which the
    connection's two tasks run and ECS listens, if the queued packets encode and the
    network takes their bytes, then a schedule of writes, arrivals, polls and frames,
    each frame with any budget above zero and the channel with any room, ends with
    the observers told of the connection and of every packet accepted so far, in
    order. *)
Theorem accepted_packets_are_heard (os : list op_t) capacity token (h : Hd) enc dec
    incoming datagrams disconnects handles w limit now p n :
  Forall allowed os → synced enc dec → 0 < capacity →
  filter (about connection) (triggers (mpsc_items incoming)) = [OnEstablished opening] →
  max_payload ≤ limit → calm p → (0 < n)%nat →
  let s := do_run os (system_start (start capacity token h enc dec incoming datagrams disconnects handles) w) in
  stopped (pipe s) = false → token_is_cancelled (cancel_token (pipe s)) = false →
  receiving (receiver (pipe s)) →
  is_Some (send_all ls (queue_items (queue (sender (pipe s)))) (writer (pipe s)) (encoder (pipe s))) →
  ∃ writes bytes commands frames polls heard,
    life connection (told (do_run (flush_ops writes bytes commands n frames ++ rounds limit now p n polls) s)) =
      OnEstablished opening :: (OnPacket <$> heard) ∧
    event_packet <$> heard = accepted (pipe s).
Proof.
  intros Hall Hsync Hcap Hin Hlim Hp Hn s Hst Htok Hrc [[wr enc'] Hsend].
  assert (Hinv : system_inv s) by by apply system_run_inv, system_start_inv. clearbody s.
  destruct (flush_catches_up n s wr enc' Hn Hinv Hst Htok Hrc Hsend)
    as (writes & bytes & commands & frames & unread & dn & Hc1 & Hcar & Hacc).
  cbn zeta in *. set (s1 := do_run _ s) in *.
  assert (Hinv1 : system_inv s1) by (apply system_run_inv; [apply flush_allowed|done]).
  destruct (rounds_deliver limit now p n s1 unread dn Hlim Hp Hn Hc1 Hcar) as [Hc2 Hf2].
  exists writes, bytes, commands, frames, (length unread). rewrite do_run_app. fold s1. cbn zeta in *.
  set (s2 := do_run _ s1) in *. exists (forwarded (receiver (pipe s2))). rewrite Hf2. split; [|done].
  apply caught_up_life; [|done]. apply system_run_inv; [by apply rounds_allowed|done].
Qed.
End Properties.

(** ** A concrete client

    It gets booleans over a two-byte prefix while another of its connections
    closes. *)

Abbreviation heard_decode := (DecodeError (Serializer:=bool_serializer)).
Abbreviation heard_length := (ls_error (LS:=LittleEndian u16)).
Abbreviation heard_closed := (ConnectionClosed nat heard_decode heard_length).
Abbreviation heard_world := (World bool fifo (list QueueDropReason) bool (ClientResources nat)).
Abbreviation heard_op := (op (L:=bool) (Ch:=fifo) (Hd':=list QueueDropReason) (T:=bool) (LS:=LittleEndian u16)
  (P:=bool) (Inc:=bool_serializer) (Addr:=nat) (R:=ClientResources nat) (E:=ConnectionEstablishEvent nat)
  (D:=heard_closed) (store:=list QueueDropReason)).
Abbreviation heard_trigger := (trigger bool (ConnectionEstablishEvent nat)
  (Client.DisconnectionEvent nat heard_decode heard_length)).

Definition heard_opening : ConnectionEstablishEvent nat :=
  {| address := 1%nat; handle := {| ecs_id := demo_id; ecs_local_addr := 0%nat; ecs_peer_addr := 1%nat |} |}.
Definition heard_closing (e : ReceiveError heard_decode heard_length) : heard_closed := closed_new e 1%nat (Some demo_id).
Definition other_closing : heard_closed := closed_new IntentionalDisconnection 2%nat (Some {| connection_number := 7 |}).

Definition heard_env : recv_poll fifo bool (ConnectionEstablishEvent nat) heard_closed heard_decode heard_length
    nat (list QueueDropReason) := {|
  rv_cancelled := false; rv_send_error := None; rv_late_error := None; rv_reads := [];
  rv_incoming c := c; rv_datagrams q := q; rv_disconnects c := c; rv_handles h := h |}.

Definition heard_channel : fifo (IncomingMessage bool (ConnectionEstablishEvent nat) heard_closed) :=
  fifo_with (mpsc_channel 2) [Established heard_opening].

Definition heard_start_world : heard_world :=
  {| resources := {| client_connection := None; client_connections := [] |};
     links _ := {| disconnect_task := false; published := false; packet_tx := Reliable (mpsc_channel 2);
                   transport := [] |} |}.

Definition heard_observe (t : heard_trigger) (w : heard_world) : heard_world := w.

Definition heard_start := system_start (Inc:=bool_serializer) (X:=Client.DisconnectionEvent nat heard_decode heard_length)
  (pipe_start (L:=bool) (Ch:=fifo) (LS:=LittleEndian u16) (Inc:=bool_serializer)
    (E:=ConnectionEstablishEvent nat) (D:=heard_closed) (Addr:=nat) demo_id heard_closing
    (λ _ (h : list QueueDropReason), h) (λ h, h) None 4 false
    ([] : list QueueDropReason) bool_adapter bool_adapter heard_channel
    (lossy_channel 2 usize_max DropOldest) (mpsc_channel 1) []) heard_start_world.

Definition heard_run (os : list heard_op) :=
  run (Out:=bool_serializer) (D:=heard_closed) u16le demo_id heard_closing (λ _ h, h) (λ h, h) None
    heard_observe os heard_start.

Definition heard_poll (eof : bool) : heard_op := OnPipe (PipePoll 64 0 eof heard_env).

(** Two packets are sent; the first arrives in two pieces, while the channel is full. *)
Definition heard_healthy : list heard_op :=
  [OnPipe (PipeSend true); OnPipe PipeWrite; OtherMessage (ClosedMessage other_closing); OnPipe (PipeSend false);
   OnPipe (PipeDeliver 2); heard_poll false; OnPipe (PipeDeliver 1); TakeMessages 1; heard_poll false].

(** Then the second is cut, and the stream ends. *)
Definition heard_ops : list heard_op :=
  heard_healthy ++ [OnPipe (PipeFault (Some (2%nat, io_error_from BrokenPipe))); OnPipe PipeWrite; RunPending;
    TakeMessages 4; OnPipe (PipeDeliver 9); RunPending; heard_poll true; RunPending; TakeMessages 4; RunPending].

Definition heard_life (os : list heard_op) : list heard_trigger :=
  life (R:=ClientResources nat) (D:=heard_closed) demo_id (told (heard_run os)).

Example heard_life_example :
  (heard_life heard_ops, length (told (heard_run heard_ops))) =
  ([OnEstablished heard_opening; OnPacket (Build_PacketReceiveEvent _ demo_id true 0);
    OnClosed (event (heard_closing (Io (io_error_from UnexpectedEof))))], 4%nat).
Proof. by vm_compute. Qed.

Lemma heard_calm : calm (Inc:=bool_serializer) (LS:=LittleEndian u16) heard_env.
Proof. by split. Qed.

Definition heard_quiet (o : heard_op) : Prop :=
  match o with
  | OnPipe (PipePoll limit _ _ p) => limit = 64 ∧ p = heard_env
  | OtherMessage m => m = ClosedMessage other_closing
  | _ => True
  end.

Lemma heard_allowed (os : list heard_op) : Forall heard_quiet os →
  Forall (allowed (X:=Client.DisconnectionEvent nat heard_decode heard_length) (sendable:=λ _, True)
    (max_payload:=1) demo_id) os.
Proof.
  intros Hall. eapply Forall_impl; [exact Hall|]. intros [[| | | | |limit now eof p]|m| | |]; cbn; try done.
  - intros [-> ->]. split; [split; [lia|by intros c Hc]|done].
  - intros ->. done.
Qed.

Ltac heard_quiet := unfold heard_ops, heard_healthy, heard_poll; cbn [app];
  repeat (apply Forall_cons; split; [first [exact I | by split | reflexivity]|]); apply Forall_nil; exact I.

Lemma heard_sizes : (0 < SIZE (LS:=LittleEndian u16))%nat ∧ 1 ≤ usize_max.
Proof. split; [by apply Nat.ltb_lt; vm_compute|by apply Z.leb_le; vm_compute]. Qed.

Lemma application_hears_connection_witness :
  heard_life heard_ops ≠ [] ∧
  (heard_life heard_ops = [] ∨
   ∃ heard ending,
    heard_life heard_ops = OnEstablished heard_opening :: (OnPacket <$> heard) ++ ending ∧
    event_packet <$> heard `prefix_of` accepted (pipe (heard_run heard_ops)) ∧
    (ending = [] ∨
     (∃ err, ending = [OnClosed (event (heard_closing err))]) ∧
     event_packet <$> heard = c_delivered (channel_of (pipe (heard_run heard_ops))))).
Proof.
  split; [by vm_compute|]. unfold heard_life, heard_run, heard_start.
  refine (application_hears_connection (Out:=bool_serializer) (sendable:=λ _, True) (max_payload:=1)
    (synced:=λ s1 s2, s1 = s2 ∧ ∃ r, s1 = ReadOnly r) u16le demo_id heard_closing (λ _ h, h) (λ h, h) None
    heard_observe heard_opening (λ err, eq_refl) (proj1 heard_sizes) (proj2 heard_sizes) heard_ops
    4 false [] bool_adapter bool_adapter heard_channel (lossy_channel 2 usize_max DropOldest) (mpsc_channel 1) []
    heard_start_world _ (conj eq_refl (ex_intro _ bitcode_new eq_refl)) _ _).
  - apply heard_allowed. heard_quiet.
  - lia.
  - by vm_compute.
Defined.

Lemma accepted_packets_are_heard_witness :
  accepted (pipe (heard_run heard_healthy)) = [true; false] ∧
  ∃ writes bytes commands frames polls heard,
    life (R:=ClientResources nat) (D:=heard_closed) demo_id
      (told (run (Out:=bool_serializer) (D:=heard_closed) u16le demo_id heard_closing (λ _ h, h) (λ h, h) None
        heard_observe (flush_ops writes bytes commands 1 frames ++ rounds 64 0 heard_env 1 polls)
        (heard_run heard_healthy))) =
      OnEstablished heard_opening :: (OnPacket <$> heard) ∧
    event_packet <$> heard = accepted (pipe (heard_run heard_healthy)).
Proof.
  split; [by vm_compute|]. unfold heard_run, heard_start.
  refine (accepted_packets_are_heard (Out:=bool_serializer) (sendable:=λ _, True) (max_payload:=1)
    (synced:=λ s1 s2, s1 = s2 ∧ ∃ r, s1 = ReadOnly r) u16le demo_id heard_closing (λ _ h, h) (λ h, h) None
    heard_observe heard_opening (λ err, eq_refl) (proj1 heard_sizes) (proj2 heard_sizes) heard_healthy
    4 false [] bool_adapter bool_adapter heard_channel (lossy_channel 2 usize_max DropOldest) (mpsc_channel 1) []
    heard_start_world 64 0 heard_env 1 _ (conj eq_refl (ex_intro _ bitcode_new eq_refl)) _ _ _ heard_calm _ _ _ _ _).
  - apply heard_allowed. heard_quiet.
  - lia.
  - by vm_compute.
  - lia.
  - lia.
  - by vm_compute.
  - by vm_compute.
  - by vm_compute.
  - by eexists.
Defined.
