(* ===== verification/DatagramDelivery.v ===== *)
(** * From [send] to the application's observers, over UDP

    Puts the receiving end's ECS behind the UDP connection of [Datagrams]: its
    receive task hands packets to the endpoint's datagram queue and its closure to
    the lifecycle channel, both shared with the tasks of the other connections; the
    two systems of [Endpoint] take from them, and their commands run the
    application's observers. The task and ECS share the connection's cancellation
    token: what the task has cancelled, ECS sees cancelled. *)

From stdpp Require Import sorting.
From S2P Require Import Prelude Protocol Lossy Externals Diagnostics Settings Queue Serializer Pacing Peer UdpStream Connection Tasks Receive Endpoint Establish Client Datagrams.

Local Open Scope Z_scope.

Section System.
Context `{Target} {W : Type → Type} `{Watch W} {L : Type} `{CancellationToken L}.
Context {Ch : Type → Type} `{Mpsc Ch} {Hd T : Type} `{TransportHandle Hd}.
Context {S1 S2 P Q : Type} `{Out : Serializer S1 Q P} `{Inc : Serializer S2 P Q}.
Context {Addr R E D X store LenErr : Type} `{Endpoint R E D X}.

Variable connection : ConnectionId.
Variable closed_event : ReceiveError (DecodeError (Serializer:=Inc)) LenErr → D.
Variable on_evict : PacketReceiveEvent P → store → store.
Variable record_full : store → store.
Variable notify : option Addr.
Variable observe : trigger P E X → World L Ch Hd T R → World L Ch Hd T R.

Abbreviation pipe_t := (DPipe (W:=W) (L:=L) (Ch:=Ch) (S1:=S1) (S2:=S2) (P:=P) (Inc:=Inc) (E:=E) (D:=D)
  (Addr:=Addr) (store:=store) (LenErr:=LenErr)).
Abbreviation pipe_op_t := (dg_op (Ch:=Ch) (P:=P) (Inc:=Inc) (E:=E) (D:=D) (Addr:=Addr) (store:=store) (LenErr:=LenErr)).
Abbreviation world_t := (World L Ch Hd T R).

(** The connection, whose receive task holds the endpoint's channel and queue; the
    world; the commands queued; and what observers have been told. *)
Record DSystem := {
  pipe : pipe_t;
  world : world_t;
  pending : list (command P E D);
  told : list (trigger P E X * world_t);
}.

Definition channel (s : DSystem) : Ch (IncomingMessage P E D) := incoming (receiver (pipe s)).
Definition packets (s : DSystem) : Shared (PacketReceiveEvent P) := Receive.datagrams (receiver (pipe s)).

Definition with_queues (c : Ch (IncomingMessage P E D)) (q : Shared (PacketReceiveEvent P)) (k : pipe_t) : pipe_t :=
  let t := receiver k in
  {| cancel_token := cancel_token k; sender := sender k; stopped := stopped k; write_half := write_half k;
     local_peer := local_peer k; encoder := encoder k; wire := wire k; inbox := inbox k;
     remote_peer := remote_peer k; decoder := decoder k;
     receiver := {| at_ := at_ t; token := token t; reader_closed := reader_closed t; incoming := c;
                    Receive.datagrams := q; disconnects := disconnects t; handles := handles t; sent := sent t;
                    received := received t; forwarded := forwarded t |};
     accepted := accepted k; arrivals := arrivals k |}.

(** A step of the connection. When its receive task cancels it, it is cancelled
    for ECS. *)
Definition on_dpipe (o : pipe_op_t) (s : DSystem) : DSystem :=
  let k := dg_step connection closed_event on_evict record_full notify (pipe s) o in
  {| pipe := k;
     world := if token (receiver k) then update_link connection disconnect (world s) else world s;
     pending := pending s; told := told s |}.

(** Another connection's tasks: a message for the lifecycle channel, a packet for
    the datagram queue. *)
Definition other_dmessage (m : IncomingMessage P E D) (s : DSystem) : DSystem :=
  {| pipe := with_queues (mpsc_poll_send (channel s) m).1 (packets s) (pipe s);
     world := world s; pending := pending s; told := told s |}.

Definition other_packet (e : PacketReceiveEvent P) (s : DSystem) : DSystem :=
  {| pipe := with_queues (channel s) (try_send (packets s) e 1).1.1 (pipe s);
     world := world s; pending := pending s; told := told s |}.

(** The two systems. *)
Definition take_dmessages (budget : nat) (s : DSystem) : DSystem :=
  let '(c, ks) := incoming_loop budget (channel s) in
  {| pipe := with_queues c (packets s) (pipe s); world := world s; pending := pending s ++ ks; told := told s |}.

Definition take_datagrams (budget : nat) (s : DSystem) : DSystem :=
  let '(q, w, ks) := datagram_loop budget (packets s) (world s) in
  {| pipe := with_queues (channel s) q (pipe s); world := w; pending := pending s ++ ks; told := told s |}.

(** One queued command. *)
Definition run_dpending (s : DSystem) : DSystem :=
  match pending s with
  | [] => s
  | k :: ks =>
      let '(w, seen) := run_command observe k (world s) in
      {| pipe := pipe s; world := w; pending := ks; told := told s ++ seen |}
  end.

(** The rest of the program changes the world. *)
Definition delsewhere (f : world_t → world_t) (s : DSystem) : DSystem :=
  {| pipe := pipe s; world := f (world s); pending := pending s; told := told s |}.

Inductive dop :=
  | OnDPipe (o : pipe_op_t)
  | OtherDMessage (m : IncomingMessage P E D)
  | OtherPacket (e : PacketReceiveEvent P)
  | TakeDMessages (budget : nat)
  | TakeDatagrams (budget : nat)
  | RunDPending
  | DElsewhere (f : world_t → world_t).

Definition dstep (s : DSystem) (o : dop) : DSystem :=
  match o with
  | OnDPipe o => on_dpipe o s
  | OtherDMessage m => other_dmessage m s
  | OtherPacket e => other_packet e s
  | TakeDMessages n => take_dmessages n s
  | TakeDatagrams n => take_datagrams n s
  | RunDPending => run_dpending s
  | DElsewhere f => delsewhere f s
  end.

Definition drun (os : list dop) (s : DSystem) : DSystem := foldl dstep s os.

(** The connection's tasks start when its establishment is in the channel. *)
Definition dsystem_start (k : pipe_t) (w : world_t) : DSystem :=
  {| pipe := k; world := w; pending := []; told := [] |}.
End System.

(** ** Packets and lifecycle events *)

Section Events.
Context {P Addr R E D X : Type} `{EndpointLaws Addr R E D X}.

(** What running a command tells observers, if it tells them anything. *)
Definition command_trigger (k : command P E D) : trigger P E X :=
  match k with
  | EstablishCommand e => OnEstablished e
  | PacketCommand e | DatagramCommand e => OnPacket e
  | CloseCommand d => OnClosed (closed_trigger d)
  end.

Lemma message_command_trigger (m : IncomingMessage P E D) :
  command_trigger (message_command m) = message_trigger (R:=R) m.
Proof. by destruct m. Qed.

(** The packets of a connection among some events. *)
Definition packets_of (i : ConnectionId) (l : list (trigger P E X)) : list (PacketReceiveEvent P) :=
  filter (λ e, event_connection e = i) (omap (λ t, match t with OnPacket e => Some e | _ => None end) l).

#[global] Arguments packets_of : simpl never.
#[global] Arguments life : simpl never.

Lemma packets_of_app i l1 l2 : packets_of i (l1 ++ l2) = packets_of i l1 ++ packets_of i l2.
Proof. unfold packets_of. by rewrite omap_app, filter_app. Qed.

Lemma packets_of_packets i (es : list (PacketReceiveEvent P)) :
  packets_of i (OnPacket <$> es) = filter (λ e, event_connection e = i) es.
Proof. unfold packets_of. f_equal. induction es as [|e es IH]; [done|]. cbn. by f_equal. Qed.

Lemma packets_of_none i l :
  Forall (λ t, match t with OnPacket e => event_connection e ≠ i | _ => True end) l → packets_of i l = [].
Proof.
  induction 1 as [|t l Ht _ IH]; [done|]. change (t :: l) with ([t] ++ l).
  rewrite packets_of_app, IH, app_nil_r. destruct t as [e|e|x]; try done.
  change (filter (λ e, event_connection e = i) [e] = []). by rewrite filter_cons_False.
Qed.

(** The events of its lifecycle. *)
Definition lifecycle (i : ConnectionId) (t : trigger P E X) : Prop :=
  match t with OnPacket _ => False | _ => about i t end.

#[export] Instance lifecycle_dec i t : Decision (lifecycle i t).
Proof. destruct t; cbn; apply _. Defined.

(** Its life, as observers should see it. *)
Definition shape (opening : E) (endings : X → Prop) (l : list (trigger P E X)) : Prop :=
  l = [] ∨ ∃ heard ending, l = OnEstablished opening :: (OnPacket <$> heard) ++ ending ∧
    (ending = [] ∨ ∃ x, ending = [OnClosed x] ∧ endings x).
(** Seen through its life, a connection's packets and lifecycle are the same. *)
Lemma lifecycle_life {W} i (told : list (trigger P E X * W)) :
  filter (lifecycle i) (life i told) = filter (lifecycle i) told.*1.
Proof.
  unfold life. rewrite list_filter_filter. apply list_filter_iff. intros []; cbn; naive_solver.
Qed.

Lemma packets_of_life {W} i (told : list (trigger P E X * W)) :
  packets_of i (life i told) = packets_of i told.*1.
Proof.
  unfold life. induction told.*1 as [|t l IH]; [done|]. rewrite filter_cons.
  change (t :: l) with ([t] ++ l). rewrite (packets_of_app i [t] l), <- IH. case_decide as Ht; [by apply (packets_of_app i [t])|].
  destruct t as [e|e|x]; try done. change (packets_of i [OnPacket e]) with (filter (λ e, event_connection e = i) [e]).
  by rewrite filter_cons_False.
Qed.

Lemma life_snoc {W} i (told : list (trigger P E X * W)) t w :
  life i (told ++ [(t, w)]) = if decide (about i t) then life i told ++ [t] else life i told.
Proof.
  unfold life. rewrite fmap_app, filter_app, fmap_cons, filter_cons. cbn [fst]. case_decide; [done|]. by rewrite app_nil_r.
Qed.

Variables (i : ConnectionId) (opening : E) (endings : X → Prop).
Hypothesis Hopening : established_connection opening = i.
Hypothesis Hendings : ∀ x, endings x → trigger_id x = Some i.

Lemma lifecycle_packets (heard : list (PacketReceiveEvent P)) :
  filter (lifecycle i) (OnPacket (E:=E) (X:=X) <$> heard) = [].
Proof. by induction heard as [|e heard IH]. Qed.

(** The lifecycle of a life of that shape. *)
Lemma shape_lifecycle (l : list (trigger P E X)) : shape opening endings l →
  l = [] ∧ filter (lifecycle i) l = [] ∨
  ∃ heard, l = OnEstablished opening :: (OnPacket <$> heard) ∧
           filter (lifecycle i) l = [OnEstablished opening] ∨
           ∃ x, l = OnEstablished opening :: (OnPacket <$> heard) ++ [OnClosed x] ∧ endings x ∧
                filter (lifecycle i) l = [OnEstablished opening; OnClosed x].
Proof.
  intros [->|(heard & ending & -> & He)]; [by left|right]. exists heard.
  rewrite filter_cons_True, filter_app, lifecycle_packets by done. cbn.
  destruct He as [->|(x & -> & Hx)].
  - left. by rewrite app_nil_r.
  - right. exists x. split_and!; [done|done|]. by rewrite filter_cons_True by by apply Hendings.
Qed.
End Events.

(** ** Properties *)

Section Properties.
Context `{Target} {W : Type → Type} `{Watch W} {L : Type} `{CancellationTokenLaws L}.
Context {Ch : Type → Type} `{MpscLaws Ch} {Hd T : Type} `{TransportHandle Hd}.
Context {S1 S2 P Q : Type} `{Out : Serializer S1 Q P} `{Inc : Serializer S2 P Q}.
Context {Addr R E D X store LenErr : Type} `{EndpointLaws Addr R E D X}.
Context {sendable : P → Prop} {enc_ok : S1 → Prop} {dec_ok : S2 → Prop}
  `{!DatagramPair Out Inc sendable enc_ok dec_ok}.

Variable connection : ConnectionId.
Variable closed_event : ReceiveError (DecodeError (Serializer:=Inc)) LenErr → D.
Variable on_evict : PacketReceiveEvent P → store → store.
Variable record_full : store → store.
Variable notify : option Addr.
Variable observe : trigger P E X → World L Ch Hd T R → World L Ch Hd T R.
Variable opening : E.
Hypothesis Hopening : established_connection opening = connection.
Hypothesis Hclosing : ∀ err, closed_id (closed_event err) = Some connection.
Hypothesis Hobserve : ∀ t w, evolves w (observe t w).

Abbreviation system := (DSystem (W:=W) (L:=L) (Ch:=Ch) (Hd:=Hd) (T:=T) (S1:=S1) (S2:=S2) (P:=P) (Inc:=Inc)
  (Addr:=Addr) (R:=R) (E:=E) (D:=D) (X:=X) (store:=store) (LenErr:=LenErr)).
Abbreviation op_t := (dop (L:=L) (Ch:=Ch) (Hd:=Hd) (T:=T) (P:=P) (Inc:=Inc) (Addr:=Addr) (R:=R) (E:=E) (D:=D)
  (store:=store) (LenErr:=LenErr)).
Abbreviation connection_t := (DPipe (W:=W) (L:=L) (Ch:=Ch) (S1:=S1) (S2:=S2) (P:=P) (Inc:=Inc) (E:=E) (D:=D)
  (Addr:=Addr) (store:=store) (LenErr:=LenErr)).
Abbreviation do_step := (dstep connection closed_event on_evict record_full notify observe).
Abbreviation do_run := (drun connection closed_event on_evict record_full notify observe).
Abbreviation rel_t := (rel (Inc:=Inc) (E:=E) (D:=D) (sendable:=sendable) (enc_ok:=enc_ok) (dec_ok:=dec_ok)
  connection closed_event).
Abbreviation triggers ms := (message_trigger (R:=R) (X:=X) <$> ms).
Abbreviation commands ks := (command_trigger (R:=R) (X:=X) <$> ks).
Implicit Types (s : system).

Definition ending (x : X) : Prop := ∃ err, x = closed_trigger (closed_event err).

(** Within a step nobody else uses the channel and the queue; what others put there
    is about their own connections; and the rest of the program leaves the registry
    and the [published] flags to the crate, and revives no connection. *)
Definition message_ok (m : IncomingMessage P E D) : Prop := ¬ about connection (message_trigger (R:=R) (X:=X) m).

Definition allowed (o : op_t) : Prop :=
  match o with
  | OnDPipe o =>
      Datagrams.allowed (sendable:=sendable) (dec_ok:=dec_ok) o ∧
      match o with
      | DgPoll _ _ _ _ p => (∀ c, rv_incoming p c = c) ∧ (∀ q, rv_datagrams p q = q)
      | _ => True
      end
  | OtherDMessage m => message_ok m
  | OtherPacket e => event_connection e ≠ connection
  | DElsewhere f => ∀ w, evolves w (f w)
  | _ => True
  end.

(** Commands as the systems make them: packets of the connection come from the
    datagram queue, once ECS knows it. *)
Definition command_ok (w : World L Ch Hd T R) (k : command P E D) : Prop :=
  match k with
  | PacketCommand e => event_connection e ≠ connection
  | DatagramCommand e => event_connection e = connection → is_published (links w connection) = true
  | _ => True
  end.

Record dsystem_inv s : Prop := {
  v_rel : ∃ a, rtc dchannel_step dchannel_start a ∧ rel_t (pipe s) a;
  v_wf : wf (packets s);
  v_packets :
    packets_of connection ((told s).*1 ++ commands (pending s) ++ (OnPacket <$> (items (state (packets s))).*1))
      `sublist_of` forwarded (receiver (pipe s));
  v_lifecycle :
    filter (lifecycle connection) ((told s).*1 ++ commands (pending s) ++ triggers (mpsc_items (channel s))) =
    OnEstablished opening :: triggers (sent (receiver (pipe s)));
  v_messages : Forall (λ m, match m with StreamPacket e => event_connection e ≠ connection | _ => True end)
                 (mpsc_items (channel s));
  v_commands : Forall (command_ok (world s)) (pending s);
  v_published : is_published (links (world s) connection) = true → life connection (told s) ≠ [];
  v_heard : OnEstablished opening ∈ (told s).*1 → is_published (links (world s) connection) = true;
  v_cancelled : sent (receiver (pipe s)) ≠ [] → is_cancelled connection (world s) = true;
  v_shape : shape opening ending (life connection (told s));
}.
(** ** The connection's steps *)

Lemma dg_receiver (o : dg_op) (k : connection_t) :
  let k' := dg_step connection closed_event on_evict record_full notify k o in
  receiver k' = receiver k ∨
  match o with
  | DgPoll _ _ _ _ p => ∃ reads, receiver k' =
      poll true connection closed_event on_evict record_full notify (with_reads reads p) (receiver k)
  | _ => False
  end.
Proof.
  destruct o as [p|e| |i now|data now|c errs limit now p]; cbn [dg_step].
  - left. unfold dg_send. by destruct (send _ _) as [k1 res].
  - left. unfold dg_write, dg_finish. by repeat case_match.
  - left. unfold dg_disconnect, dg_finish. by repeat case_match.
  - left. unfold dg_arrive, dg_inbox. by repeat case_match.
  - left. unfold dg_inbox. by repeat case_match.
  - unfold dg_poll. cbn zeta. destruct (at_ (receiver k)); try (right; by eexists).
    destruct ((_ || _) || _); [right; by eexists|].
    destruct (udp_receive_with_timestamp _ _ _) as [[ps dec] [[res|]|]]; [right; by eexists|by left|right; by eexists].
Qed.

(** What a step does to the channel and the queue. *)
Lemma dg_step_queues (o : dg_op) s : allowed (OnDPipe o) →
  let k' := dg_step connection closed_event on_evict record_full notify (pipe s) o in
  extends (receiver (pipe s)) (receiver k') ∧ feeds (receiver (pipe s)) (receiver k').
Proof.
  intros [_ Hp]. destruct (dg_receiver o (pipe s)) as [Hr|Hr]; cbn zeta.
  - by rewrite Hr.
  - destruct o as [| | | | |c errs limit now p]; try done. destruct Hr as [reads ->], Hp as [Hc Hq].
    split; [by apply poll_extends|by apply poll_feeds].
Qed.

Lemma with_queues_rel c q s a : rel_t (pipe s) a → mpsc_is_closed c = mpsc_is_closed (channel s) →
  rel_t (with_queues c q (pipe s)) a.
Proof.
  intros [] Hc. split; try done. destruct rel_task as [Hi Ho Hs Hf].
  split; [exact Hi|exact Ho| |exact Hf]. cbn. unfold sent_ok, ended, streams in *. cbn. by rewrite Hc.
Qed.

(** The task's messages: nothing, or its one closure, once it has cancelled the
    connection. *)
Lemma datagram_sent (t : RecvTask Ch P E D _ LenErr Addr store) : task_ok true connection closed_event t →
  sent t = [] ∨ ∃ err, sent t = [ClosedMessage (closed_event err)] ∧ token t = true.
Proof.
  intros Ht. destruct (sent_shape _ _ _ _ Ht) as (closing & -> & [->|(err & -> & He)]); [by left|right].
  exists err. split; [done|]. pose proof (ok_flags _ _ _ _ Ht) as Hf. unfold flags_ok, ended in *.
  destruct (at_ t); try done; by destruct Hf.
Qed.

Lemma closing_lifecycle err : lifecycle connection (message_trigger (R:=R) (X:=X) (P:=P) (E:=E) (ClosedMessage (closed_event err))).
Proof. cbn. by rewrite trigger_id_closed. Qed.
(** ** Steps that queue no command and run none *)

Lemma dcommand_ok_grows w w' k : is_published (links w' connection) = is_published (links w connection) →
  command_ok w k → command_ok w' k.
Proof. intros Hp. destruct k; cbn; try done. by rewrite Hp. Qed.

Lemma inv_quiet s k w newm newp own :
  dsystem_inv s → (∃ a, rtc dchannel_step dchannel_start a ∧ rel_t k a) →
  wf (Receive.datagrams (receiver k)) →
  (items (state (Receive.datagrams (receiver k)))).*1 `sublist_of` (items (state (packets s))).*1 ++ newp →
  forwarded (receiver k) = forwarded (receiver (pipe s)) ++ filter (λ e, event_connection e = connection) newp →
  mpsc_items (incoming (receiver k)) = mpsc_items (channel s) ++ newm →
  sent (receiver k) = sent (receiver (pipe s)) ++ own →
  filter (lifecycle connection) (triggers newm) = triggers own →
  Forall (λ m, match m with StreamPacket e => event_connection e ≠ connection | _ => True end) newm →
  is_published (links w connection) = is_published (links (world s) connection) →
  (is_cancelled connection (world s) = true → is_cancelled connection w = true) →
  (own ≠ [] → is_cancelled connection w = true) →
  dsystem_inv {| pipe := k; world := w; pending := pending s; told := told s |}.
Proof.
  intros [_ Hwf Hpk Hlc Hms Hks Hpub Hhd Hcan Hsh] Hrel Hwf' Hq Hf Hi Hs Hown Hnewm Hpub' Hgrow Hcan'.
  split; cbn; try done.
  - rewrite Hf.
    assert (Hpk' := sublist_app _ _ _ _ Hpk (reflexivity (filter (λ e, event_connection e = connection) newp))).
    etrans; [|exact Hpk']. unfold packets. cbn.
    rewrite !packets_of_app, !packets_of_packets, <- !app_assoc. apply sublist_app; [done|].
    apply sublist_app; [done|]. rewrite <- filter_app. by apply filter_sublist.
  - unfold channel in *. cbn. rewrite Hi, Hs, fmap_app, !app_assoc, filter_app, <- !app_assoc, Hlc, Hown.
    by rewrite fmap_app.
  - unfold channel in *. cbn. rewrite Hi. by apply Forall_app.
  - eapply Forall_impl; [exact Hks|]. intros c. by apply dcommand_ok_grows.
  - by rewrite Hpub'.
  - by rewrite Hpub'.
  - rewrite Hs. intros Hne. destruct (sent (receiver (pipe s))) as [|m l]; [by apply Hcan'|]. by apply Hgrow, Hcan.
Qed.

Lemma on_dpipe_inv o s : allowed (OnDPipe o) → dsystem_inv s → dsystem_inv (do_step s (OnDPipe o)).
Proof.
  intros Ho Hinv. pose proof Hinv as [(a & Hr & Hrel) Hwf _ _ _ _ _ _ _ _].
  destruct (dg_step_simulates connection closed_event on_evict record_full notify (pipe s) a o Hrel (proj1 Ho))
    as (a' & Hr' & Hrel').
  destruct (dg_step_queues o s Ho) as [(newm & Hs & Hi & _) Hfeeds]. cbn [dstep]. unfold on_dpipe. cbn zeta.
  set (k := dg_step _ _ _ _ _ _ _) in *. destruct (Hfeeds Hwf) as (Hwf' & newp & Hf & Hq).
  pose proof (rel_task _ _ _ _ Hrel') as Ht. pose proof (datagram_sent _ Ht) as Hsent.
  assert (Hown : Forall (λ e, event_connection e = connection) newp).
  { pose proof (forwarded_ids _ _ _ _ Ht) as Hall. rewrite Hf in Hall. by apply Forall_app in Hall as [_ ?]. }
  assert (Hnewm : newm = [] ∨ ∃ err, newm = [ClosedMessage (closed_event err)] ∧ token (receiver k) = true).
  { destruct Hsent as [Hn|(err & He & Ht')]; rewrite Hs in *.
    - left. by apply app_nil in Hn as [_ ?].
    - destruct (sent (receiver (pipe s))) as [|m l]; [right; by exists err|left].
      injection He as _ He. by apply app_nil in He as [_ ?]. }
  apply (inv_quiet s k _ newm newp newm); try done.
  - exists a'. split; [by etrans|done].
  - rewrite (filter_all _ newp) by done. done.
  - apply filter_all. destruct Hnewm as [->|(err & -> & _)]; [constructor|]. constructor; [|constructor].
    apply closing_lifecycle.
  - destruct Hnewm as [->|(err & -> & _)]; by repeat constructor.
  - destruct (token (receiver k)); [|done]. cbn. by rewrite fn_lookup_alter.
  - destruct (token (receiver k)); [|done]. intros _. unfold is_cancelled. cbn.
    rewrite fn_lookup_alter. apply token_cancel_cancels.
  - intros Hne. destruct Hnewm as [->|(err & _ & ->)]; [done|]. unfold is_cancelled. cbn.
    rewrite fn_lookup_alter. apply token_cancel_cancels.
Qed.
(** Queues that changed, under the same connection. *)
Lemma queues_rel c q s : dsystem_inv s → mpsc_is_closed c = mpsc_is_closed (channel s) →
  ∃ a, rtc dchannel_step dchannel_start a ∧ rel_t (with_queues c q (pipe s)) a.
Proof. intros [(a & Hr & Hrel) _ _ _ _ _ _ _ _] Hc. exists a. split; [done|]. by apply with_queues_rel. Qed.

Lemma not_about_lifecycle (t : trigger P E X) : ¬ about connection t → ¬ lifecycle connection t.
Proof. destruct t; cbn; auto. Qed.

Lemma other_dmessage_inv m s : message_ok m → dsystem_inv s → dsystem_inv (do_step s (OtherDMessage m)).
Proof.
  intros Hm Hinv. cbn [dstep]. unfold other_dmessage.
  destruct (mpsc_poll_send (channel s) m) as [c r] eqn:Hs. cbn [fst].
  apply mpsc_poll_send_view in Hs as (Hc & _ & _ & Hv).
  apply (inv_quiet s _ _ (match r with Ready (Ok _) => [m] | _ => [] end) [] []); try done.
  - by apply queues_rel.
  - apply Hinv.
  - by rewrite app_nil_r.
  - cbn. by rewrite app_nil_r.
  - cbn. destruct (mpsc_is_closed (channel s)); [|destruct (_ <=? _)]; destruct Hv as [-> Hi];
      by rewrite ?app_nil_r, Hi.
  - cbn. by rewrite app_nil_r.
  - destruct r as [[u|e]|]; try done. rewrite fmap_cons, filter_cons_False; [done|]. by apply not_about_lifecycle.
  - destruct r as [[u|e]|]; repeat constructor. by destruct m.
Qed.

Lemma other_packet_inv e s : event_connection e ≠ connection → dsystem_inv s → dsystem_inv (do_step s (OtherPacket e)).
Proof.
  intros He Hinv. cbn [dstep]. unfold other_packet. pose proof (v_wf _ Hinv) as Hwf.
  pose proof (try_send_items (packets s) e 1 Hwf) as Hs. pose proof usize_max_pos.
  destruct (try_send (packets s) e 1) as [[q sg] r]. destruct Hs as [Hwf' Hi]; [lia|]. cbn [fst].
  apply (inv_quiet s _ _ [] (match r with Ok _ => [e] | Err _ => [] end) []); try done.
  - by apply queues_rel.
  - cbn. destruct r as [ev|err]; [exact Hi|]. subst q. by rewrite app_nil_r.
  - cbn. destruct r as [ev|err]; rewrite ?filter_cons_False by done; by rewrite app_nil_r.
  - cbn. by rewrite app_nil_r.
  - cbn. by rewrite app_nil_r.
Qed.

Lemma delsewhere_inv f s : (∀ w, evolves w (f w)) → dsystem_inv s → dsystem_inv (do_step s (DElsewhere f)).
Proof.
  intros Hf Hinv. cbn [dstep]. unfold delsewhere. destruct (Hf (world s)) as [_ Hp Hc].
  apply (inv_quiet s _ _ [] [] []); try done; rewrite ?app_nil_r; try done; [apply Hinv..|].
  intros Hcan. by apply Hc.
Qed.

(** ** The systems *)

Lemma take_dmessages_inv n s : dsystem_inv s → dsystem_inv (do_step s (TakeDMessages n)).
Proof.
  intros Hinv. cbn [dstep]. unfold take_dmessages.
  destruct (incoming_loop_fifo (P:=P) (E:=E) (D:=D) n (channel s)) as [Hks Hi].
  destruct (incoming_loop_channel n (channel s)) as [Hc _].
  destruct (incoming_loop n (channel s)) as [c ks]. cbn in Hks, Hi, Hc.
  pose proof Hinv as [_ Hwf Hpk Hlc Hms Hcs Hpub Hhd Hcan Hsh].
  assert (Hkt : commands ks = triggers (take n (mpsc_items (channel s)))).
  { rewrite Hks, <- list_fmap_compose. apply list_fmap_ext. intros. apply message_command_trigger. }
  assert (Hnone : packets_of connection (triggers (take n (mpsc_items (channel s)))) = []).
  { apply packets_of_none. rewrite Forall_fmap. eapply Forall_impl; [apply Forall_take, Hms|]. by intros []. }
  split; cbn; try done.
  - by apply queues_rel.
  - rewrite fmap_app, Hkt, !packets_of_app, Hnone in *. rewrite app_nil_r. exact Hpk.
  - unfold channel in *. cbn. by rewrite fmap_app, Hkt, Hi, <- !app_assoc, <- fmap_app, take_drop.
  - unfold channel in *. cbn. rewrite Hi. by apply Forall_drop.
  - apply Forall_app. split; [done|]. rewrite Hks, Forall_fmap.
    eapply Forall_impl; [apply Forall_take, Hms|]. by intros [].
Qed.
Lemma datagram_commands (es : list (PacketReceiveEvent P)) :
  commands (DatagramCommand (E:=E) (D:=D) <$> es) = OnPacket <$> es.
Proof. by rewrite <- list_fmap_compose. Qed.

Lemma take_datagrams_inv n s : dsystem_inv s → dsystem_inv (do_step s (TakeDatagrams n)).
Proof.
  intros Hinv. cbn [dstep]. unfold take_datagrams. pose proof Hinv as [_ Hwf Hpk Hlc Hms Hcs Hpub Hhd Hcan Hsh].
  pose proof (datagram_loop_wf (E:=E) (D:=D) n (packets s) (world s) Hwf) as Hwf'.
  destruct (datagram_loop n (packets s) (world s)) as [[q w] ks] eqn:Hloop. cbn in Hwf'.
  apply datagram_loop_outcome in Hloop as (taken & Hi & _ & Hready & -> & -> & _); [|done].
  set (kept := filter (λ e, gone (world s) e = false) taken). set (w := count_gone _ _).
  pose proof (count_gone_status (filter (λ e, gone (world s) e = true) taken) (world s)) as [_ Hst]. fold w in Hst.
  assert (Hpub' : is_published (links w connection) = is_published (links (world s) connection)) by apply Hst.
  split; cbn; try done.
  - by apply queues_rel.
  - etrans; [|exact Hpk]. rewrite fmap_app, datagram_commands, Hi, !packets_of_app, !packets_of_packets, <- !app_assoc.
    apply sublist_app; [done|]. apply sublist_app; [done|]. rewrite filter_app. apply sublist_app; [|done].
    apply filter_sublist, sublist_filter.
  - rewrite fmap_app, datagram_commands. unfold channel in *. cbn.
    by rewrite <- Hlc, !filter_app, lifecycle_packets, app_nil_r.
  - apply Forall_app. split.
    + eapply Forall_impl; [exact Hcs|]. intros c. by apply dcommand_ok_grows.
    + rewrite Forall_fmap. apply Forall_forall. intros e He. apply list_elem_of_filter in He as [Hg He].
      rewrite Forall_forall in Hready. specialize (Hready e He). unfold ready, gone in *. cbn.
      rewrite Hg, orb_false_r in Hready. intros <-. by rewrite (proj1 (Hst _)).
  - by rewrite Hpub'.
  - by rewrite Hpub'.
  - intros Hne. rewrite (proj2 (Hst connection)). by apply Hcan.
Qed.

(** ** Running a command *)

(** It tells observers of its event, unless it is the packet of a cancelled
    connection. *)
Lemma run_command_seen k w :
  (∃ w1, (run_command observe k w).2 = [(command_trigger k, w1)]) ∧
    (∀ e, k = DatagramCommand e → is_cancelled (event_connection e) w = false) ∨
  (run_command observe k w).2 = [] ∧ ∃ e, k = DatagramCommand e.
Proof.
  destruct k as [e|e|d|e]; cbn; [left; split; [by eexists|done]..|].
  destruct (is_cancelled (event_connection e) w) eqn:Hc; [right|left]; cbn.
  - split; [done|by exists e].
  - split; [by eexists|]. by intros ? [= <-].
Qed.
(** One event more: the life keeps its shape. *)
Lemma shape_snoc s k ks w :
  dsystem_inv s → pending s = k :: ks →
  (∀ e, k = DatagramCommand e → is_cancelled (event_connection e) (world s) = false) →
  shape opening ending (life connection (told s ++ [(command_trigger k, w)])).
Proof.
  intros [(a & _ & Hrel) _ _ Hlc _ Hks Hpub Hhd Hcan Hsh] Hp Hlive.
  rewrite life_snoc. case_decide as Hab; [|done].
  rewrite Hp, fmap_cons, filter_app, <- app_comm_cons, <- (lifecycle_life connection (told s)) in Hlc.
  assert (Hend : ∀ x, ending x → trigger_id x = Some connection).
  { intros x (err & ->). by rewrite trigger_id_closed. }
  pose proof (shape_lifecycle connection opening ending Hopening Hend _ Hsh) as Hcases.
  pose proof (datagram_sent _ (rel_task _ _ _ _ Hrel)) as Hsent.
  set (l := life connection (told s)) in *. rewrite Hp in Hks. apply Forall_cons in Hks as [Hk _].
  destruct k as [e|e|d|e]; cbn [command_trigger] in *.
  - rewrite filter_cons_True in Hlc by done.
    destruct Hcases as [[-> Hlf]|(heard & [[-> Hlf]|(x & -> & _ & Hlf)])]; rewrite Hlf in Hlc; injection Hlc.
    + intros _ ->. right. exists [], []. by split; [|left].
    + intros Hc. by destruct Hsent as [Hs|(err & Hs & _)]; rewrite Hs in Hc.
    + intros Hc. by destruct Hsent as [Hs|(err & Hs & _)]; rewrite Hs in Hc.
  - by destruct (Hk Hab).
  - rewrite filter_cons_True in Hlc by done.
    destruct Hcases as [[-> Hlf]|(heard & [[-> Hlf]|(x & -> & _ & Hlf)])]; rewrite Hlf in Hlc; [done|..];
      injection Hlc; intros Hc; (destruct Hsent as [Hs|(err & Hs & _)]; rewrite Hs in Hc; [done|]).
    + injection Hc as Hx _. right. exists heard, [OnClosed (closed_trigger d)]. split; [done|]. right.
      eexists. split; [done|]. by exists err.
    + by injection Hc.
  - assert (Hs : sent (receiver (pipe s)) = []).
    { destruct (sent (receiver (pipe s))) as [|m l'] eqn:Hs; [done|].
      specialize (Hlive e eq_refl). cbn in Hab. rewrite Hab, Hcan in Hlive; [done|done]. }
    rewrite Hs in Hlc. specialize (Hpub (Hk Hab)).
    destruct Hcases as [[Hl _]|(heard & [[-> _]|(x & _ & _ & Hlf)])]; [done| |by rewrite Hlf in Hlc].
    right. exists (heard ++ [e]), []. split; [|by left]. by rewrite fmap_app, app_nil_r.
Qed.

Lemma run_dpending_inv s : dsystem_inv s → dsystem_inv (do_step s RunDPending).
Proof.
  intros Hinv. cbn [dstep]. unfold run_dpending. destruct (pending s) as [|k ks] eqn:Hp; [done|].
  destruct (run_command_world observe Hobserve connection k (world s)) as (Hpub' & Hcan' & Hback).
  pose proof (run_command_seen k (world s)) as Hseen.
  pose proof (shape_snoc s k ks) as Hsnoc.
  destruct (run_command observe k (world s)) as [w seen]. cbn [fst snd] in *.
  pose proof Hinv as [Hrel Hwf Hpk Hlc Hms Hks Hpub Hhd Hcan Hsh].
  rewrite Hp in Hpk, Hlc, Hks. apply Forall_cons in Hks as [Hk Hks].
  assert (Hall : Forall (command_ok w) ks).
  { eapply Forall_impl; [exact Hks|]. intros [| | |e]; cbn; auto. }
  assert (Hcan'' : sent (receiver (pipe s)) ≠ [] → is_cancelled connection w = true) by auto.
  destruct Hseen as [[[w1 ->] Hlive]|[-> [e ->]]].
  - split; cbn; try done.
    + rewrite fmap_app, <- app_assoc. exact Hpk.
    + rewrite fmap_app, <- app_assoc. exact Hlc.
    + intros Hw. rewrite life_snoc. case_decide as Hab; [by intros [_ ?]%app_nil|].
      destruct (proj1 Hback Hw) as [Hb|(e & -> & He)]; [by apply Hpub|]. by destruct Hab.
    + rewrite fmap_app. intros [Hw|Hw%list_elem_of_singleton]%elem_of_app; [by apply Hpub', Hhd|].
      apply Hback. right. destruct k as [e|e|d|e]; cbn in Hw; try done. injection Hw as <-. by exists opening.
    + by apply Hsnoc.
  - split; cbn; try done; rewrite ?app_nil_r; try done.
    + etrans; [|exact Hpk]. rewrite fmap_cons, !packets_of_app. apply sublist_app; [done|].
      change (command_trigger (DatagramCommand e) :: commands ks) with
        ([command_trigger (X:=X) (R:=R) (DatagramCommand (E:=E) (D:=D) e)] ++ commands ks).
      rewrite packets_of_app, <- app_assoc. by apply sublist_inserts_l.
    + rewrite filter_app in Hlc |- *. exact Hlc.
    + intros Hw. destruct (proj1 Hback Hw) as [Hb|(e' & [=] & _)]. by apply Hpub.
    + intros Hw. by apply Hpub', Hhd.
Qed.

Lemma dsystem_step_inv s (o : op_t) : allowed o → dsystem_inv s → dsystem_inv (do_step s o).
Proof.
  destruct o; [apply on_dpipe_inv|apply other_dmessage_inv|apply other_packet_inv|intros _; apply take_dmessages_inv
    |intros _; apply take_datagrams_inv|intros _; apply run_dpending_inv|apply delsewhere_inv].
Qed.

Lemma dsystem_run_inv (os : list op_t) s : Forall allowed os → dsystem_inv s → dsystem_inv (do_run os s).
Proof.
  intros Hall. revert s. induction Hall as [|o os Ho _ IH]; intros s Hinv; [done|].
  by apply IH, dsystem_step_inv.
Qed.
Abbreviation start := (dg_start (E:=E) connection closed_event on_evict record_full notify).

(** How the endpoint is when the connection's tasks start: nothing of it but its
    establishment is queued, and ECS does not know it yet. *)
Definition arrives (incoming : Ch (IncomingMessage P E D)) (q : Shared (PacketReceiveEvent P))
    (w : World L Ch Hd T R) : Prop :=
  filter (about connection) (triggers (mpsc_items incoming)) = [OnEstablished opening] ∧
  wf q ∧ Forall (λ e, event_connection e ≠ connection) (items (state q)).*1 ∧
  is_published (links w connection) = false.

Lemma dsystem_start_inv queues token local remote enc dec box incoming q disconnects handles w :
  startable queues local box → enc_ok enc → dec_ok dec → arrives incoming q w →
  dsystem_inv (dsystem_start (start queues token local remote enc dec box incoming q disconnects handles) w).
Proof.
  intros Hstart He Hde (Hin & Hwf & Hq & Hpub). split; cbn; try done.
  - exists dchannel_start. split; [done|]. by apply start_rel.
  - rewrite packets_of_none; [done|]. by rewrite Forall_fmap.
  - transitivity (filter (lifecycle connection) (filter (about connection) (triggers (mpsc_items incoming)))).
    { rewrite list_filter_filter. apply list_filter_iff. intros []; cbn; naive_solver. }
    rewrite Hin. by rewrite filter_cons_True.
  - assert (Hall : ∀ m, m ∈ mpsc_items incoming → about connection (message_trigger (R:=R) (X:=X) m) →
      message_trigger (R:=R) (X:=X) m = OnEstablished opening).
    { intros m Hm Hab. apply list_elem_of_singleton. rewrite <- Hin. apply list_elem_of_filter. split; [done|].
      by apply list_elem_of_fmap_2. }
    apply Forall_forall. intros [e|e|d] Hm; try done. intros He'. by specialize (Hall _ Hm He').
  - by rewrite Hpub.
  - by intros ?%not_elem_of_nil.
  - by left.
Qed.

(** What was heard was handed over by the receive task, in that order. *)
Lemma heard_forwarded s heard ending' : dsystem_inv s →
  life connection (told s) = OnEstablished opening :: (OnPacket <$> heard) ++ ending' →
  (ending' = [] ∨ ∃ x, ending' = [OnClosed x]) → heard `sublist_of` forwarded (receiver (pipe s)).
Proof.
  intros [_ _ Hpk _ _ _ _ _ _] Hl He. rewrite packets_of_app, <- (packets_of_life connection (told s)), Hl in Hpk.
  assert (Hall : Forall (about (P:=P) (E:=E) (X:=X) connection) (life connection (told s))).
  { unfold life. apply Forall_forall. by intros t [? _]%list_elem_of_filter. }
  rewrite Hl in Hall. apply Forall_cons in Hall as [_ Hall]. apply Forall_app in Hall as [Hall _].
  rewrite Forall_fmap in Hall. change (OnEstablished opening :: ?l) with ([OnEstablished opening] ++ l) in Hpk.
  rewrite !packets_of_app, packets_of_packets, (filter_all _ heard) in Hpk by done.
  etrans; [|exact Hpk]. change (packets_of connection [OnEstablished opening]) with (@nil (PacketReceiveEvent P)).
  rewrite app_nil_l, <- app_assoc. by apply sublist_inserts_r.
Qed.

(** C4. What the application hears of a UDP connection: first that it is
    established; then packets the peer's [send] accepted, each at most as often as
    it was sent if the network repeats no datagram, and in order if it does not
    reorder them; and at its end, once and last, that it is closed, after which no
    packet still in a queue or on the network is heard. Whatever the network, the
    other connections, the frames and the observers do, but for datagrams from
    elsewhere that decode. *)
Theorem application_hears_datagrams (os : list op_t) queues token (local remote : PeerState W L) enc dec box
    incoming q disconnects handles w :
  Forall allowed os → startable queues local box → enc_ok enc → dec_ok dec → arrives incoming q w →
  let s := do_run os (dsystem_start (start queues token local remote enc dec box incoming q disconnects handles) w) in
  life connection (told s) = [] ∨
  ∃ heard ending,
    life connection (told s) = OnEstablished opening :: (OnPacket <$> heard) ++ ending ∧
    (ending = [] ∨ ∃ err, ending = [OnClosed (closed_trigger (closed_event err))]) ∧
    (∀ p, p ∈ event_packet <$> heard → p ∈ accepted (pipe s)) ∧
    (NoDup (arrivals (pipe s)) → event_packet <$> heard ⊆+ accepted (pipe s)) ∧
    (StronglySorted lt (arrivals (pipe s)) → event_packet <$> heard `sublist_of` accepted (pipe s)).
Proof.
  intros Hall Hstart He Hde Harr s.
  assert (Hinv : dsystem_inv s) by by apply dsystem_run_inv, dsystem_start_inv. clearbody s.
  destruct (v_shape _ Hinv) as [Hl|(heard & ending' & Hl & Hend)]; [by left|right].
  exists heard, ending'. split; [done|].
  assert (Hsub : heard `sublist_of` forwarded (receiver (pipe s))).
  { apply (heard_forwarded s heard ending' Hinv Hl). destruct Hend as [->|(x & -> & _)]; [by left|right; by exists x]. }
  destruct (v_rel _ Hinv) as (a & Hr & Hrel).
  apply rel_observes in Hrel as (Hacc & Har & _ & _ & Hpk). apply d_packets_accepted in Hr as (Hin & Hnd & Hso).
  rewrite Hacc, Har, Hpk in *.
  assert (Hsub' : event_packet <$> heard `sublist_of` event_packet <$> forwarded (receiver (pipe s)))
    by by apply fmap_sublist.
  split_and!.
  - destruct Hend as [->|(x & -> & err & ->)]; [by left|right]. by exists err.
  - intros p Hp. by eapply Hin, elem_of_sublist.
  - intros Hn. etrans; [by apply sublist_submseteq|]. by apply Hnd.
  - intros Hs. etrans; [exact Hsub'|]. by apply Hso.
Qed.
End Properties.

(** ** A concrete client

    It gets booleans from a server; the second packet is lost, and the third is
    still queued when the connection is closed. *)

Abbreviation udp_decode := (DecodeError (Serializer:=bool_serializer)).
Abbreviation udp_closed := (ConnectionClosed nat udp_decode unit).
Abbreviation udp_disconnection := (Client.DisconnectionEvent nat udp_decode unit).
Abbreviation udp_world := (World bool fifo (list QueueDropReason) bool (ClientResources nat)).
Abbreviation udp_heard_op := (dop (L:=bool) (Ch:=fifo) (Hd:=list QueueDropReason) (T:=bool) (P:=bool)
  (Inc:=bool_serializer) (Addr:=nat) (R:=ClientResources nat) (E:=ConnectionEstablishEvent nat) (D:=udp_closed)
  (store:=list QueueDropReason) (LenErr:=unit)).

Definition udp_id : ConnectionId := {| connection_number := 3 |}.
Definition udp_opening : ConnectionEstablishEvent nat :=
  {| address := 1%nat; handle := {| ecs_id := udp_id; ecs_local_addr := 0%nat; ecs_peer_addr := 1%nat |} |}.
Definition udp_closing (e : ReceiveError udp_decode unit) : udp_closed := closed_new e 1%nat (Some udp_id).

Definition udp_heard_env (cancelled : bool) : recv_poll fifo bool (ConnectionEstablishEvent nat) udp_closed udp_decode
    unit nat (list QueueDropReason) := {|
  rv_cancelled := cancelled; rv_send_error := None; rv_late_error := None; rv_reads := [];
  rv_incoming c := c; rv_datagrams q := q; rv_disconnects c := c; rv_handles h := h |}.

Definition udp_heard_channel : fifo (IncomingMessage bool (ConnectionEstablishEvent nat) udp_closed) :=
  fifo_with (mpsc_channel 2) [Established udp_opening].

Definition udp_heard_world : udp_world :=
  {| resources := {| client_connection := None; client_connections := [] |};
     links _ := {| disconnect_task := false; published := false; packet_tx := Reliable (mpsc_channel 2);
                   transport := [] |} |}.

Definition udp_heard_observe (t : trigger bool (ConnectionEstablishEvent nat) udp_disconnection) (w : udp_world)
    : udp_world := w.

Definition udp_heard_start := dsystem_start (X:=udp_disconnection)
  (dg_start (W:=λ A, A) (L:=bool) (Ch:=fifo) (Inc:=bool_serializer) (E:=ConnectionEstablishEvent nat) (D:=udp_closed)
    (Addr:=nat) (LenErr:=unit) udp_id udp_closing (λ _ (h : list QueueDropReason), h) (λ h, h) None udp_demo_queues
    false example_peer example_peer udp_demo_codec udp_demo_codec (Socket []) udp_heard_channel
    (lossy_channel 4 usize_max DropOldest) (mpsc_channel 1) []) udp_heard_world.

Definition udp_heard_run (os : list udp_heard_op) :=
  drun (W:=λ A, A) (L:=bool) (Out:=bool_serializer) udp_id udp_closing (λ _ (h : list QueueDropReason), h) (λ h, h)
    None udp_heard_observe os udp_heard_start.

Definition udp_heard_poll (cancelled : bool) : udp_heard_op := OnDPipe (DgPoll cancelled [] 64 0 (udp_heard_env cancelled)).

Definition udp_heard_ops : list udp_heard_op :=
  [OnDPipe (DgSend true); OnDPipe (DgSend false); OnDPipe (DgSend true); OnDPipe (DgWrite udp_demo_write);
   OnDPipe (DgWrite udp_demo_write); OnDPipe (DgWrite udp_demo_write); OnDPipe (DgArrive 0 0); OnDPipe (DgForeign [7] 0);
   OnDPipe (DgArrive 2 0); TakeDMessages 1; RunDPending; udp_heard_poll false; TakeDatagrams 3;
   OtherPacket (Build_PacketReceiveEvent _ {| connection_number := 7 |} true 0); RunDPending;
   udp_heard_poll false; udp_heard_poll false; udp_heard_poll true; TakeDMessages 3; TakeDatagrams 3;
   RunDPending; RunDPending].

Definition udp_heard_life (os : list udp_heard_op) :=
  life (R:=ClientResources nat) (D:=udp_closed) udp_id (told (udp_heard_run os)).

Example udp_heard_example :
  (udp_heard_life udp_heard_ops, forwarded (receiver (pipe (udp_heard_run udp_heard_ops)))) =
  ([OnEstablished udp_opening; OnPacket (Build_PacketReceiveEvent _ udp_id true 0);
    OnClosed (event (udp_closing IntentionalDisconnection))],
   [Build_PacketReceiveEvent _ udp_id true 0; Build_PacketReceiveEvent _ udp_id true 0]).
Proof. vm_compute. reflexivity. Qed.

Definition udp_heard_quiet (o : udp_heard_op) : Prop :=
  match o with
  | OnDPipe (DgForeign data _) => data = [7]
  | OnDPipe (DgPoll _ _ _ _ p) => ∃ b, p = udp_heard_env b
  | OtherDMessage _ => False
  | OtherPacket e => event_connection e = {| connection_number := 7 |}
  | DElsewhere _ => False
  | _ => True
  end.

Lemma udp_heard_allowed (os : list udp_heard_op) : Forall udp_heard_quiet os →
  Forall (allowed (X:=udp_disconnection) (sendable:=λ _, True) (dec_ok:=λ s, s = udp_demo_codec) udp_id) os.
Proof.
  intros Hall. eapply Forall_impl; [exact Hall|].
  intros [[| | | | |c errs limit now p]|m|e|n|n| |f]; cbn; try done.
  - intros ->. split; [apply udp_demo_foreign|done].
  - intros [b ->]. split; [by intros c' Hc|by split].
  - by intros ->.
Qed.

Ltac udp_heard_quiet := unfold udp_heard_ops, udp_heard_poll;
  repeat (apply Forall_cons; split; [first [exact I | by eexists | reflexivity]|]); apply Forall_nil; exact I.

Lemma udp_heard_observes t w : evolves w (udp_heard_observe t w).
Proof. by split. Qed.

Lemma udp_heard_arrives : arrives (P:=bool) (D:=udp_closed) (X:=udp_disconnection) udp_id udp_opening
  udp_heard_channel (lossy_channel 4 usize_max DropOldest) udp_heard_world.
Proof.
  split; [by vm_compute|]. split; [apply lossy_channel_wf; pose proof usize_max_ge; lia|].
  split; [constructor|reflexivity].
Qed.

#[local] Instance udp_heard_pair :
  DatagramPair bool_serializer bool_serializer (λ _, True) (λ s, s = udp_demo_codec) (λ s, s = udp_demo_codec).
Proof. apply read_only_datagrams. by intros [] bs _ [= <-]. Qed.

Lemma application_hears_datagrams_witness :
  udp_heard_life udp_heard_ops ≠ [] ∧ StronglySorted lt (arrivals (pipe (udp_heard_run udp_heard_ops))) ∧
  (udp_heard_life udp_heard_ops = [] ∨
   ∃ heard ending,
    udp_heard_life udp_heard_ops = OnEstablished udp_opening :: (OnPacket <$> heard) ++ ending ∧
    (ending = [] ∨ ∃ err, ending = [OnClosed (event (udp_closing err))]) ∧
    (∀ p, p ∈ event_packet <$> heard → p ∈ accepted (pipe (udp_heard_run udp_heard_ops))) ∧
    (NoDup (arrivals (pipe (udp_heard_run udp_heard_ops))) →
       event_packet <$> heard ⊆+ accepted (pipe (udp_heard_run udp_heard_ops))) ∧
    (StronglySorted lt (arrivals (pipe (udp_heard_run udp_heard_ops))) →
       event_packet <$> heard `sublist_of` accepted (pipe (udp_heard_run udp_heard_ops)))).
Proof.
  split; [by vm_compute|]. split.
  { assert (Ha : arrivals (pipe (udp_heard_run udp_heard_ops)) = [0; 2]%nat) by by vm_compute.
    rewrite Ha. repeat constructor. }
  unfold udp_heard_life, udp_heard_run, udp_heard_start.
  refine (application_hears_datagrams (W:=λ A, A) (L:=bool) (Ch:=fifo) (Addr:=nat) (Out:=bool_serializer)
    (Inc:=bool_serializer) (sendable:=λ _, True) (enc_ok:=λ s, s = udp_demo_codec)
    (dec_ok:=λ s, s = udp_demo_codec) udp_id udp_closing (λ _ (h : list QueueDropReason), h) (λ h, h) None
    udp_heard_observe udp_opening eq_refl (λ err, eq_refl) udp_heard_observes udp_heard_ops udp_demo_queues false
    example_peer example_peer udp_demo_codec udp_demo_codec (Socket []) udp_heard_channel
    (lossy_channel 4 usize_max DropOldest) (mpsc_channel 1) [] udp_heard_world _ udp_demo_startable eq_refl eq_refl
    udp_heard_arrives).
  apply udp_heard_allowed. udp_heard_quiet.
Defined.
