(* ===== verification/DatagramProgress.v ===== *)
(** * Over UDP, what is sent is heard

    The liveness of [DatagramDelivery]: if nothing is lost, the packets that wait in a
    UDP connection's outgoing queue reach the application's observers. The proof
    first empties what lies between the network and the observers, frame by frame,
    and then sends one packet at a time through a system that is otherwise idle. *)

From stdpp Require Import sorting.
From S2P Require Import Prelude Protocol Lossy Externals Diagnostics Settings Queue Serializer Pacing Peer UdpStream Connection Tasks Receive Endpoint Establish Client Datagrams DatagramDelivery.

Local Open Scope Z_scope.

Section Progress.
Context `{Target} {W : Type → Type} `{Watch W} {L : Type} `{CancellationTokenLaws L}.
Context {Ch : Type → Type} `{MpscLaws Ch} {Hd T : Type} `{TransportHandle Hd}.
Context {S1 S2 P Q : Type} `{Out : Serializer S1 Q P} `{Inc : Serializer S2 P Q}.
Context {Addr R E D X store LenErr : Type} `{EndpointLaws Addr R E D X}.
Context {sendable : P → Prop} {enc_ok : S1 → Prop} {dec_ok : S2 → Prop}
  `{!DatagramPair Out Inc sendable enc_ok dec_ok}.

Variable connection : ConnectionId.
Variable closed_event : ReceiveError (DecodeError (Serializer:=Inc)) LenErr → D.
Variable on_evict : PacketReceiveEvent P → store → store.
Variable record_full : store → store.
Variable notify : option Addr.
Variable observe : trigger P E X → World L Ch Hd T R → World L Ch Hd T R.
Variable opening : E.
Hypothesis Hopening : established_connection opening = connection.
Hypothesis Hclosing : ∀ err, closed_id (closed_event err) = Some connection.
Hypothesis Hobserve : ∀ t w, evolves w (observe t w).

(** The observers do not disconnect the connection. *)
Hypothesis Hkeep : ∀ t w, is_cancelled connection (observe t w) = is_cancelled connection w.

Abbreviation system := (DSystem (W:=W) (L:=L) (Ch:=Ch) (Hd:=Hd) (T:=T) (S1:=S1) (S2:=S2) (P:=P) (Inc:=Inc)
  (Addr:=Addr) (R:=R) (E:=E) (D:=D) (X:=X) (store:=store) (LenErr:=LenErr)).
Abbreviation op_t := (dop (L:=L) (Ch:=Ch) (Hd:=Hd) (T:=T) (P:=P) (Inc:=Inc) (Addr:=Addr) (R:=R) (E:=E) (D:=D)
  (store:=store) (LenErr:=LenErr)).
Abbreviation connection_t := (DPipe (W:=W) (L:=L) (Ch:=Ch) (S1:=S1) (S2:=S2) (P:=P) (Inc:=Inc) (E:=E) (D:=D)
  (Addr:=Addr) (store:=store) (LenErr:=LenErr)).
Abbreviation env := (recv_poll Ch P E D (DecodeError (Serializer:=Inc)) LenErr Addr store).
Abbreviation do_step := (dstep connection closed_event on_evict record_full notify observe).
Abbreviation do_run := (drun connection closed_event on_evict record_full notify observe).
Abbreviation inv := (dsystem_inv (X:=X) (sendable:=sendable) (enc_ok:=enc_ok) (dec_ok:=dec_ok) connection closed_event opening).
Abbreviation ok_op := (allowed (X:=X) (sendable:=sendable) (dec_ok:=dec_ok) connection).
Implicit Types (s : system) (k : connection_t) (w : World L Ch Hd T R).

(** ** A connection whose tasks run *)

(** Whatever waits at the receiving end leaves room for one datagram of [n] bytes. *)
Definition receives_alone (n : Z) (i : Inbox) : Prop :=
  match i with Socket _ => True | PeerQueue q => takes_alone q n end.

Definition published s : bool := is_published (links (world s) connection).

(** Both tasks run, ECS listens, nobody has disconnected the connection, and no
    packet of a connection that ECS does not know is in the way. *)
Record alive (n : Z) s : Prop := {
  al_stopped : stopped (pipe s) = false;
  al_token : token_is_cancelled (cancel_token (pipe s)) = false;
  al_local : Peer.is_closed (local_peer (pipe s)) = false;
  al_remote : Peer.is_closed (remote_peer (pipe s)) = false;
  al_inbox : receives_alone n (inbox (pipe s));
  al_at : at_ (receiver (pipe s)) = Receiving;
  al_task : token (receiver (pipe s)) = false;
  al_reader : reader_closed (receiver (pipe s)) = false;
  al_queue : takes_alone (packets s) 1;
  al_world : is_cancelled connection (world s) = false;
  al_others : Forall (λ e, event_connection e = connection ∨ ready (world s) e = true) (items (state (packets s))).*1;
}.

(** Nothing waits between the receive task and the observers. *)
Record idle (n : Z) s : Prop := {
  id_alive : alive n s;
  id_pending : pending s = [];
  id_channel : mpsc_items (channel s) = [];
  id_packets : items (state (packets s)) = [];
}.

(** What the two queues of the endpoint hold does not matter to the rest of the
    connection. *)
Definition framed s s' : Prop := ∃ c q, pipe s' = with_queues c q (pipe s).

Lemma with_queues_same k : with_queues (incoming (receiver k)) (Receive.datagrams (receiver k)) k = k.
Proof. by destruct k as [????????? ? [] ? ?]. Qed.

#[local] Instance framed_preorder : PreOrder framed.
Proof.
  split.
  - intros s. exists (channel s), (packets s). symmetry. apply with_queues_same.
  - intros s1 s2 s3 (c1 & q1 & H12) (c2 & q2 & H23). exists c2, q2. by rewrite H23, H12.
Qed.

Lemma drun_app (os1 os2 : list op_t) s : do_run (os1 ++ os2) s = do_run os2 (do_run os1 s).
Proof. apply foldl_app. Qed.

(** ** The systems and their commands *)

Lemma run_command_keeps c w :
  let w' := (run_command observe c w).1 in
  is_cancelled connection w' = is_cancelled connection w ∧
  (∀ e : PacketReceiveEvent P, ready w e = true → ready w' e = true).
Proof.
  split.
  - destruct c as [e|e|d|e]; cbn [run_command fst]; rewrite ?Hkeep; try done.
    + set (w1 := with_resources _ w). by destruct (mark_published_status (established_connection e) connection w1) as [_ ->].
    + destruct (is_cancelled (event_connection e) w); cbn [fst]; [|apply Hkeep].
      by destruct (record_drop_status (event_connection e) ClosedBeforeDelivery w) as [_ Hs]; destruct (Hs connection) as [_ ->].
  - intros e. unfold ready. destruct (run_command_world observe Hobserve (event_connection e) c w) as (Hp & Hc & _).
    cbn zeta in *. intros [Hw|Hw]%orb_true_iff; apply orb_true_iff; auto.
Qed.

Lemma dcommands_run n m s : alive n s →
  let s' := do_run (replicate m RunDPending) s in
  alive n s' ∧ pipe s' = pipe s ∧ (published s = true → published s' = true) ∧
  ((length (pending s) ≤ m)%nat → pending s' = []).
Proof.
  revert s. induction m as [|m IH]; intros s Hal; cbn zeta.
  { split_and!; try done. intros Hl. apply nil_length_inv. cbn in *. lia. }
  change (do_run (replicate (S m) RunDPending) s) with (do_run (replicate m RunDPending) (run_dpending observe s)).
  assert (Hs : alive n (run_dpending observe s) ∧ pipe (run_dpending observe s) = pipe s ∧
    (published s = true → published (run_dpending observe s) = true) ∧
    (length (pending (run_dpending observe s)) = pred (length (pending s)))).
  { unfold run_dpending. destruct (pending s) as [|c ks] eqn:Hp; [by rewrite Hp|].
    destruct (run_command_keeps c (world s)) as [Hcan Hready].
    destruct (run_command_world observe Hobserve connection c (world s)) as (Hpub & _ & _).
    destruct (run_command observe c (world s)) as [w seen]. cbn [fst] in *.
    split_and!; try done. destruct Hal. split; try done; [by cbn; rewrite Hcan|].
    eapply Forall_impl; [eassumption|]. cbn. intros e [He|He]; auto. }
  destruct Hs as (Hal1 & Hp1 & Hpub1 & Hl1). destruct (IH _ Hal1) as (Hal2 & Hp2 & Hpub2 & Hl2). cbn zeta in *.
  split_and!; [done|by rewrite Hp2|auto|]. intros Hl. apply Hl2. lia.
Qed.

Lemma take_dmessages_runs n m s : alive n s →
  let s' := take_dmessages m s in
  alive n s' ∧ framed s s' ∧ world s' = world s ∧ told s' = told s ∧ packets s' = packets s ∧
  mpsc_items (channel s') = drop m (mpsc_items (channel s)) ∧
  (length (pending s') ≤ length (pending s) + m)%nat ∧
  (mpsc_items (channel s) = [] → pending s' = pending s).
Proof.
  intros Hal. unfold take_dmessages. destruct (incoming_loop_fifo (P:=P) (E:=E) (D:=D) m (channel s)) as [Hks Hi].
  destruct (incoming_loop m (channel s)) as [c ks]. cbn in Hks, Hi. cbn zeta. split_and!; try done.
  - destruct Hal. by split.
  - by exists c, (packets s).
  - cbn. rewrite Hks, length_app, length_fmap, length_take. lia.
  - intros Hc. rewrite Hc, take_nil in Hks. subst ks. cbn. apply app_nil_r.
Qed.
Lemma take_datagrams_runs n m s : inv s → alive n s →
  let s' := take_datagrams m s in
  alive n s' ∧ framed s s' ∧ told s' = told s ∧ channel s' = channel s ∧ published s' = published s ∧
  (length (pending s') ≤ length (pending s) + m)%nat ∧
  (published s = true → ∃ taken, (items (state (packets s))).*1 = taken ++ (items (state (packets s'))).*1 ∧
     length taken = (m `min` length (items (state (packets s))))%nat ∧
     pending s' = pending s ++ (DatagramCommand <$> filter (λ e, gone (world s) e = false) taken)).
Proof.
  intros Hinv Hal. unfold take_datagrams. pose proof (v_wf _ _ _ _ Hinv) as Hwf.
  destruct (datagram_loop m (packets s) (world s)) as [[q w] ks] eqn:Hloop.
  pose proof (datagram_loop_takes_alone (E:=E) (D:=D) m (packets s) (world s) 1 Hwf (al_queue _ _ Hal)) as Hq.
  rewrite Hloop in Hq. cbn in Hq.
  apply datagram_loop_outcome in Hloop as (taken & Hi & Hn & Hready & -> & -> & Hend); [|done].
  set (kept := filter (λ e, gone (world s) e = false) taken). set (w := count_gone _ _).
  pose proof (count_gone_status (filter (λ e, gone (world s) e = true) taken) (world s)) as Hst. fold w in Hst.
  assert (Hall := al_others _ _ Hal). rewrite Hi in Hall. apply Forall_app in Hall as [_ Hall].
  cbn zeta. split_and!; try done.
  - destruct Hal. split; try done; [by cbn; rewrite (proj2 (proj2 Hst connection))|].
    eapply Forall_impl; [exact Hall|]. cbn. intros e [He|He]; [by left|right].
    by rewrite (proj1 (same_status_ready _ _ e Hst)).
  - by exists (channel s), q.
  - unfold published. cbn. by rewrite (proj1 (proj2 Hst connection)).
  - cbn. rewrite length_app, length_fmap. unfold kept. pose proof (length_filter (λ e, gone (world s) e = false) taken). lia.
  - intros Hpub. exists taken. split_and!; [done| |done]. rewrite <- (length_fmap fst (items _)), Hi, length_app.
    destruct Hend as [<-|Hend]; [lia|].
    destruct (items (state q)).*1 as [|e rest] eqn:Hq'; [cbn; lia|]. specialize (Hend e eq_refl).
    apply Forall_cons in Hall as [[He|He] _]; [|by rewrite He in Hend].
    unfold ready in Hend. rewrite He in Hend. unfold published in Hpub. by rewrite Hpub in Hend.
Qed.

(** A frame with budget [m]. *)
Definition dframe_ops (m : nat) : list op_t :=
  TakeDMessages m :: replicate m RunDPending ++ TakeDatagrams m :: replicate m RunDPending.

Lemma dframe_allowed m : Forall ok_op (dframe_ops m).
Proof.
  constructor; [done|]. apply Forall_app. split; [by apply Forall_replicate|].
  constructor; [done|]. by apply Forall_replicate.
Qed.

Lemma drun_inv (os : list op_t) s : Forall ok_op os → inv s → inv (do_run os s).
Proof. by apply dsystem_run_inv. Qed.

Lemma dframe_runs n m s : inv s → alive n s → pending s = [] →
  let s' := do_run (dframe_ops m) s in
  alive n s' ∧ framed s s' ∧ pending s' = [] ∧
  mpsc_items (channel s') = drop m (mpsc_items (channel s)) ∧
  (published s = true → published s' = true ∧
     length (items (state (packets s'))) = (length (items (state (packets s))) - m)%nat).
Proof.
  intros Hinv Hal Hp. unfold dframe_ops. cbn zeta.
  change (TakeDMessages m :: ?os) with ([TakeDMessages m] ++ os : list op_t). rewrite !drun_app.
  change (do_run (TakeDatagrams m :: ?os) ?s) with (do_run os (take_datagrams m s)).
  destruct (take_dmessages_runs n m s Hal) as (Hal1 & Hf1 & Hw1 & _ & Hq1 & Hc1 & Hl1 & _). cbn zeta in *.
  change (do_run [TakeDMessages m] s) with (take_dmessages m s). set (s1 := take_dmessages m s) in *.
  assert (Hinv1 : inv s1) by (apply (drun_inv [TakeDMessages m]); [by repeat constructor|done]).
  destruct (dcommands_run n m s1 Hal1) as (Hal2 & Hf2 & Hpub2 & Hp2). cbn zeta in *.
  assert (Hinv2 : inv (do_run (replicate m RunDPending) s1)) by (apply drun_inv; [by apply Forall_replicate|done]).
  set (s2 := do_run _ s1) in *. rewrite Hp in Hl1. specialize (Hp2 Hl1).
  destruct (take_datagrams_runs n m s2 Hinv2 Hal2) as (Hal3 & Hf3 & _ & Hc3 & Hpub3 & Hl3 & Htake). cbn zeta in *.
  set (s3 := take_datagrams m s2) in *. rewrite Hp2 in Hl3.
  destruct (dcommands_run n m s3 Hal3) as (Hal4 & Hf4 & Hpub4 & Hp4). cbn zeta in *.
  set (s4 := do_run _ s3) in *.
  assert (Hf2' : framed s1 s2) by (exists (channel s1), (packets s1); rewrite Hf2; symmetry; apply with_queues_same).
  assert (Hf4' : framed s3 s4) by (exists (channel s3), (packets s3); rewrite Hf4; symmetry; apply with_queues_same).
  split_and!; [done| |by apply Hp4| |].
  - do 3 (etrans; [eassumption|]). done.
  - unfold channel in *. by rewrite Hf4, Hc3, Hf2.
  - intros Hpub. assert (Hpub2' : published s2 = true) by (apply Hpub2; unfold published; by rewrite Hw1).
    split; [apply Hpub4; by rewrite Hpub3|].
    destruct (Htake Hpub2') as (taken & Hi & Hlen & _). apply (f_equal length) in Hi.
    unfold packets in *. rewrite Hf4. rewrite Hf2, Hq1 in Hi, Hlen. rewrite length_app, !length_fmap in Hi. lia.
Qed.

(** Once everything has been taken from the channel, ECS knows the connection. *)
Lemma drained_published n s : inv s → alive n s → pending s = [] → mpsc_items (channel s) = [] → published s = true.
Proof.
  intros Hinv Hal Hp Hc. pose proof (v_lifecycle _ _ _ _ Hinv) as Hlc. rewrite Hp, Hc in Hlc. cbn in Hlc.
  rewrite app_nil_r in Hlc. apply (v_heard _ _ _ _ Hinv).
  assert (Hin : OnEstablished opening ∈ filter (lifecycle connection) (told s).*1) by (rewrite Hlc; by left).
  by apply list_elem_of_filter in Hin as [_ ?].
Qed.

Definition frames_ops (m frames : nat) : list op_t := concat (replicate frames (dframe_ops m)).

Lemma frames_allowed m frames : Forall ok_op (frames_ops m frames).
Proof. apply Forall_concat, Forall_replicate, dframe_allowed. Qed.

Lemma frames_run n m j s : (0 < m)%nat → inv s → alive n s → pending s = [] →
  let s' := do_run (frames_ops m j) s in
  inv s' ∧ alive n s' ∧ framed s s' ∧ pending s' = [] ∧
  (length (mpsc_items (channel s')) ≤ length (mpsc_items (channel s)) - j)%nat ∧
  (published s = true → (length (items (state (packets s'))) ≤ length (items (state (packets s))) - j)%nat).
Proof.
  intros Hm. revert s. induction j as [|j IH]; intros s Hinv Hal Hp; cbn zeta.
  { split_and!; try done; cbn; lia. }
  unfold frames_ops. cbn [replicate concat]. rewrite drun_app.
  destruct (dframe_runs n m s Hinv Hal Hp) as (Hal1 & Hf1 & Hp1 & Hc1 & Hq1). cbn zeta in *.
  assert (Hinv1 : inv (do_run (dframe_ops m) s)) by (apply drun_inv; [apply dframe_allowed|done]).
  set (s1 := do_run (dframe_ops m) s) in *.
  destruct (IH s1 Hinv1 Hal1 Hp1) as (Hinv2 & Hal2 & Hf2 & Hp2 & Hc2 & Hq2). cbn zeta in *.
  fold (frames_ops m j). split_and!; [done|done|by etrans|done| |].
  - rewrite Hc1, length_drop in Hc2. lia.
  - intros Hpub. destruct (Hq1 Hpub) as [Hpub1 Hl1]. specialize (Hq2 Hpub1). lia.
Qed.

(** Frames of any budget above zero take everything that waits. *)
Lemma frames_settle n m s : (0 < m)%nat → inv s → alive n s → pending s = [] →
  ∃ j, let s' := do_run (frames_ops m j) s in idle n s' ∧ framed s s'.
Proof.
  intros Hm Hinv Hal Hp. set (j1 := length (mpsc_items (channel s))).
  destruct (frames_run n m j1 s Hm Hinv Hal Hp) as (Hinv1 & Hal1 & Hf1 & Hp1 & Hc1 & _). cbn zeta in *.
  set (s1 := do_run (frames_ops m j1) s) in *. set (j2 := length (items (state (packets s1)))).
  assert (Hc1' : mpsc_items (channel s1) = []) by (apply nil_length_inv; lia).
  destruct (frames_run n m j2 s1 Hm Hinv1 Hal1 Hp1) as (Hinv2 & Hal2 & Hf2 & Hp2 & Hc2 & Hq2). cbn zeta in *.
  exists (j1 + j2)%nat. unfold frames_ops. rewrite replicate_add, concat_app, drun_app.
  fold (frames_ops m j1) (frames_ops m j2). fold s1. split; [|by etrans].
  specialize (Hq2 (drained_published _ _ Hinv1 Hal1 Hp1 Hc1')). rewrite Hc1' in Hc2.
  split; [done|done|apply nil_length_inv; cbn in Hc2; lia|apply nil_length_inv; lia].
Qed.

(** ** The receive task *)

(** A poll with nothing else to do, and nobody else using the queues. *)
Record calm (p : env) : Prop := {
  calm_alive : rv_cancelled p = false;
  calm_writer : rv_send_error p = None;
  calm_channel c : rv_incoming p c = c;
  calm_queue q : rv_datagrams p q = q;
}.

Abbreviation poll_task := (poll true connection closed_event on_evict record_full notify).

Lemma poll_nothing (p : env) t : calm p → at_ t = Receiving → token t = false →
  let t' := poll_task (with_reads [] p) t in
  at_ t' = Receiving ∧ token t' = false ∧ reader_closed t' = reader_closed t ∧ incoming t' = incoming t ∧
  Receive.datagrams t' = Receive.datagrams t.
Proof.
  intros [Hal Hwr Hc Hq] Ha Ht. unfold poll. cbn [at_ observe_others]. rewrite Ha.
  cbn [receive_loop with_reads rv_send_error rv_reads token rv_cancelled observe_others]. rewrite Hwr, Ht, Hal. cbn.
  by rewrite Ht, Hal, Hc, Hq.
Qed.

Lemma poll_packet (p : env) t pk now : calm p → at_ t = Receiving → token t = false →
  wf (Receive.datagrams t) → takes_alone (Receive.datagrams t) 1 →
  let t' := poll_task (with_reads [Ok (pk, now)] p) t in
  at_ t' = Receiving ∧ token t' = false ∧ reader_closed t' = reader_closed t ∧ incoming t' = incoming t ∧
  takes_alone (Receive.datagrams t') 1 ∧
  ((items (state (Receive.datagrams t'))).*1 `sublist_of`
     (items (state (Receive.datagrams t))).*1 ++ [event_of connection (pk, now)]) ∧
  (items (state (Receive.datagrams t)) = [] →
     (items (state (Receive.datagrams t'))).*1 = [event_of connection (pk, now)]).
Proof.
  intros [Hal Hwr Hc Hq] Ha Ht Hwf Htk. unfold poll. cbn [at_ observe_others]. rewrite Ha.
  cbn [receive_loop with_reads rv_send_error rv_reads token rv_cancelled observe_others]. rewrite Hwr, Ht, Hal.
  cbn [orb hand_over]. unfold forward. cbn [Receive.datagrams with_received observe_others rv_datagrams with_reads].
  rewrite Hq. change (Build_PacketReceiveEvent _ connection pk now) with (event_of connection (pk, now)).
  set (e := event_of connection (pk, now)).
  pose proof (try_send_takes_alone _ e 1 1 Hwf ltac:(lia) Htk) as Htk'. pose proof usize_max_pos.
  pose proof (try_send_items (Receive.datagrams t) e 1 Hwf ltac:(lia)) as Hi.
  pose proof (try_send_alone (Receive.datagrams t) e 1 Hwf ltac:(lia) Htk) as Halone.
  assert (Hnc : ∀ v, (try_send (Receive.datagrams t) e 1).2 ≠ Err (Closed v)).
  { intros v. unfold try_send. destruct (try_send_where _ _ _ _) as [[q' sg] r] eqn:Hs.
    apply try_send_where_step in Hs; [|done|lia]. destruct r as [ev|err]; [done|].
    destruct Hs as (_ & _ & ->). by rewrite (proj1 Htk). }
  destruct (try_send (Receive.datagrams t) e 1) as [[q' sg] [ev|[v|v]]] eqn:Hs; [| |by destruct (Hnc v)].
  - cbn in Htk', Hi |- *. rewrite Ht, Hal, Hc. split_and!; try done; [by destruct Hi|].
    intros Hempty. specialize (Halone Hempty). by injection Halone as -> _ _.
  - cbn in Htk', Hi |- *. rewrite Ht, Hal, Hc. destruct Hi as [_ ->]. split_and!; try done; [by apply sublist_inserts_r|].
    intros Hempty. by specialize (Halone Hempty).
Qed.

(** ** The next datagram *)

Lemma inbox_ready now (i : Inbox) data rest : inbox_wf i → inbox_items i = data :: rest →
  ∃ d, next (inbox_next [] now i) = Ready (Ok d) ∧ inbox_items (inbox_pop i) = rest ∧
    (Peer.bytes d = data ∨ MAX_DATAGRAM_SIZE < zlen (Peer.bytes d) ≤ zlen data).
Proof.
  intros Hwf Hi.
  assert (Hn : ∃ d, next (inbox_next [] now i) = Ready (Ok d) ∧ zlen (Peer.bytes d) ≤ zlen data).
  { destruct i as [ds|q]; cbn in Hi.
    - subst ds. cbn. unfold received_slice. cbn. rewrite slice_get_to_le by (unfold zlen; lia). cbn.
      eexists. split; [done|]. cbn. unfold zlen. rewrite !length_take. lia.
    - cbn. unfold recv_attempt, try_recv. rewrite try_recv_if_form by done.
      destruct (items (state q)) as [|[x b] its]; [done|]. cbn in Hi |- *. injection Hi as <- _.
      by exists x. }
  destruct Hn as (d & Hn & Hlen). exists d. split; [done|].
  destruct (inbox_next_view [] now i d Hwf Hn) as (data' & rest' & Hi' & Hpop & _ & Hdata).
  rewrite Hi in Hi'. injection Hi' as <- <-. split; [done|].
  destruct Hdata as [Hdata|Hdata]; [by left|by right].
Qed.

Lemma inbox_pop_alone n (i : Inbox) : inbox_wf i → receives_alone n i → receives_alone n (inbox_pop i).
Proof.
  intros Hwf Hi. destruct i as [ds|q]; [done|]. cbn in *. unfold recv_attempt.
  pose proof (try_recv_takes_alone q (λ _, true) n Hwf Hi) as Ht. unfold try_recv.
  by destruct (try_recv_if q _) as [[q' sg] [x|[]]].
Qed.

(** The sending end and the network stand still. *)
Definition sends_same k k' : Prop :=
  cancel_token k' = cancel_token k ∧ sender k' = sender k ∧ stopped k' = stopped k ∧ write_half k' = write_half k ∧
  local_peer k' = local_peer k ∧ encoder k' = encoder k ∧ wire k' = wire k.

Abbreviation rel_t := (rel (Inc:=Inc) (E:=E) (D:=D) (sendable:=sendable) (enc_ok:=enc_ok) (dec_ok:=dec_ok)
  connection closed_event).

Definition others_ok w (l : list (PacketReceiveEvent P)) : Prop :=
  Forall (λ e, event_connection e = connection ∨ ready w e = true) l.

Lemma alive_received n s bx ps dec t : alive n s → Peer.is_closed ps = false → receives_alone n bx →
  at_ t = Receiving → token t = false → reader_closed t = false → takes_alone (Receive.datagrams t) 1 →
  others_ok (world s) (items (state (Receive.datagrams t))).*1 →
  alive n (Build_DSystem (with_receiver bx ps dec t (pipe s)) (world s) (pending s) (told s)).
Proof. intros [] Hps Hbx Ha Ht Hr Hq Hall. split; try done. cbn. by rewrite Hr. Qed.

Lemma others_sublist w l l' e : others_ok w l → event_connection e = connection → l' `sublist_of` l ++ [e] → others_ok w l'.
Proof.
  unfold others_ok. rewrite !Forall_forall. intros Hall He Hs x Hx. eapply elem_of_sublist in Hx; [|exact Hs].
  apply elem_of_app in Hx as [Hx| ->%list_elem_of_singleton]; auto.
Qed.

(** Foreign or not, the reader survives the first datagram that waits. *)
Lemma first_datagram s a data rest : rel_t (pipe s) a → inbox_items (inbox (pipe s)) = data :: rest →
  (∃ c' pk, deserialize data (decoder (pipe s)) = (c', Returns (Ok pk))) ∨
  (∃ c' e, deserialize data (decoder (pipe s)) = (c', Returns (Err e))).
Proof.
  intros Hrel Hi. pose proof (rel_inbox _ _ _ _ Hrel) as Hbox. pose proof (rel_decoder _ _ _ _ Hrel) as Hdec.
  rewrite Hi in Hbox. inversion Hbox as [|i data' ds ix Hwi Hh|data' ds ix Hf Hh]; subst.
  - pose proof (rel_wire _ _ _ _ Hrel) as Hw.
    destruct (Forall2_lookup_l _ _ _ _ _ Hw Hwi) as (pk & _ & _ & Hcar).
    destruct (Hcar _ Hdec) as [c' Hc]. left. eauto.
  - destruct Hf as [_ Hf]. destruct (Hf _ Hdec) as (c' & e & Hc). right. eauto.
Qed.

Lemma poll_takes n limit now p s data rest : inv s → alive n s → calm p → inbox_items (inbox (pipe s)) = data :: rest →
  let s' := do_step s (OnDPipe (DgPoll false [] limit now p)) in
  alive n s' ∧ sends_same (pipe s) (pipe s') ∧ inbox_items (inbox (pipe s')) = rest ∧ channel s' = channel s ∧
  pending s' = pending s ∧ told s' = told s ∧ world s' = world s ∧
  (∀ pk, items (state (packets s)) = [] → zlen data ≤ limit → zlen data ≤ MAX_DATAGRAM_SIZE →
     carries (dec_ok:=dec_ok) data pk → ∃ at', (items (state (packets s'))).*1 = [event_of connection (pk, at')]).
Proof.
  intros Hinv Hal Hp Hi. pose proof Hinv as [(a & _ & Hrel) Hwf _ _ _ _ _ _ _ _].
  pose proof (rel_inbox_wf _ _ _ _ Hrel) as Hbwf. pose proof (rel_decoder _ _ _ _ Hrel) as Hdec.
  destruct (inbox_ready now (inbox (pipe s)) data rest Hbwf Hi) as (d & Hn & Hpop & Hcut).
  assert (Hbytes : zlen data ≤ MAX_DATAGRAM_SIZE → Peer.bytes d = data) by (intros; destruct Hcut as [|]; [done|lia]).
  pose proof (inbox_pop_alone n _ Hbwf (al_inbox _ _ Hal)) as Hroom.
  pose proof (first_datagram s a data rest Hrel Hi) as Hfirst.
  destruct (poll_nothing p (receiver (pipe s)) Hp (al_at _ _ Hal) (al_task _ _ Hal)) as (Ha0 & Ht0 & Hr0 & Hc0 & Hq0).
  cbn zeta in *. cbn [dstep]. unfold on_dpipe. cbn [dg_step]. unfold dg_poll.
  rewrite (al_at _ _ Hal), (al_task _ _ Hal), (calm_alive _ Hp), (calm_writer _ Hp). cbn [orb].
  cbn [UdpStream.observe udp_receive_with_timestamp rp_cancelled rp_incoming rp_limit].
  rewrite (al_remote _ _ Hal), Hn. set (ps := if is_socket _ then _ else _).
  assert (Hps : Peer.is_closed ps = false) by (unfold ps; destruct (is_socket _); exact (al_remote _ _ Hal)).
  assert (Hquiet : ∀ ps' dec, Peer.is_closed ps' = false →
    let k := with_receiver (inbox_pop (inbox (pipe s))) ps' dec (poll_task (with_reads [] p) (receiver (pipe s))) (pipe s) in
    let s' := Build_DSystem k (if token (receiver k) then update_link connection disconnect (world s) else world s)
                (pending s) (told s) in
    alive n s' ∧ sends_same (pipe s) (pipe s') ∧ inbox_items (inbox (pipe s')) = rest ∧ channel s' = channel s ∧
    pending s' = pending s ∧ told s' = told s ∧ world s' = world s).
  { intros ps' dec Hps'. cbn zeta. cbn [receiver with_receiver]. rewrite Ht0. split_and!; try done.
    apply alive_received; try done; [by rewrite Hr0; apply (al_reader _ _ Hal)|rewrite Hq0; apply (al_queue _ _ Hal)|
      rewrite Hq0; apply (al_others _ _ Hal)]. }
  assert (Hno : (∃ c' e, deserialize data (decoder (pipe s)) = (c', Returns (Err e))) →
    ∀ pk, ¬ carries (dec_ok:=dec_ok) data pk).
  { intros (c' & e & Hde) pk [_ Hcar]. destruct (Hcar _ Hdec) as [c1 Hc1]. by rewrite Hc1 in Hde. }
  destruct (MAX_DATAGRAM_SIZE <? _) eqn:Hmax.
  { destruct (Hquiet (with_handle (count_drop UdpReceiveLimit) ps) (decoder (pipe s)) Hps) as (? & ? & ? & ? & ? & ? & ?).
    split_and!; try done. intros pk _ _ Hle. rewrite (Hbytes Hle) in Hmax. bools. lia. }
  destruct (limit <? _) eqn:Hlim.
  { destruct (Hquiet (with_handle (count_drop UdpReceiveLimit) ps) (decoder (pipe s)) Hps) as (? & ? & ? & ? & ? & ? & ?).
    split_and!; try done. intros pk _ Hle Hle'. rewrite (Hbytes Hle') in Hlim. bools. lia. }
  bools. destruct (deserialize (Peer.bytes d) (decoder (pipe s))) as [c1 [[pk|e]|]] eqn:Hde.
  - destruct (poll_packet p (receiver (pipe s)) pk (Peer.received_at d) Hp (al_at _ _ Hal) (al_task _ _ Hal) Hwf
      (al_queue _ _ Hal)) as (Ha1 & Ht1 & Hr1 & Hc1 & Hq1 & Hsub & Halone).
    cbn zeta in *. cbn [receiver with_receiver]. rewrite Ht1. split_and!; try done.
    + apply alive_received; try done; [by rewrite Hr1; apply (al_reader _ _ Hal)|].
      by eapply others_sublist; [exact (al_others _ _ Hal)| |exact Hsub].
    + intros pk' Hempty _ Hle [_ Hcar]. exists (Peer.received_at d). rewrite (Hbytes Hle) in Hde.
      destruct (Hcar _ Hdec) as [c' Hc']. rewrite Hc' in Hde. injection Hde as _ ->. exact (Halone Hempty).
  - destruct (Hquiet (with_handle (count_drop UdpMalformedPayload) ps) c1 Hps) as (? & ? & ? & ? & ? & ? & ?).
    split_and!; try done. intros pk _ _ Hle Hcar. rewrite (Hbytes Hle) in Hde. exfalso. eapply Hno; [by eauto|done].
  - exfalso. destruct Hcut as [Heq|?]; [rewrite Heq in Hde|lia].
    destruct Hfirst as [(c' & pk & Hc)|(c' & e & Hc)]; by rewrite Hc in Hde.
Qed.

(** ** Emptying what waits at the receiving end *)

Lemma framed_facts s s' : framed s s' →
  sends_same (pipe s) (pipe s') ∧ inbox (pipe s') = inbox (pipe s).
Proof. intros (c & q & ->). by repeat split. Qed.

#[local] Instance sends_same_preorder : PreOrder sends_same.
Proof.
  split; [by repeat split|]. intros k1 k2 k3 Hk1 Hk2. unfold sends_same in *. destruct_and!.
  repeat split; etrans; eassumption.
Qed.

(** The read half's next poll, and the systems, alone. *)
Variables (limit now : Z) (p : env).
Hypothesis Hcalm : calm p.

Definition next_poll : op_t := OnDPipe (DgPoll false [] limit now p).

Definition settles (o : op_t) : Prop :=
  match o with
  | OnDPipe _ => o = next_poll
  | TakeDMessages _ | TakeDatagrams _ | RunDPending => True
  | _ => False
  end.

Lemma next_poll_allowed : ok_op next_poll.
Proof using Hcalm. destruct Hcalm as [_ _ Hc Hq]. cbn. split_and!; [|done..]. intros c. by rewrite Hc. Qed.

Lemma settles_allowed o : settles o → ok_op o.
Proof using Hcalm. destruct o; try done. intros ->. apply next_poll_allowed. Qed.

Lemma frames_settles m j : Forall settles (frames_ops m j).
Proof.
  apply Forall_concat, Forall_replicate. constructor; [done|]. apply Forall_app. split; [by apply Forall_replicate|].
  constructor; [done|]. by apply Forall_replicate.
Qed.

Lemma settle_inbox n m s : (0 < m)%nat → inv s → idle n s →
  ∃ os, Forall settles os ∧ let s' := do_run os s in
    idle n s' ∧ inv s' ∧ inbox_items (inbox (pipe s')) = [] ∧ sends_same (pipe s) (pipe s').
Proof.
  intros Hm. remember (inbox_items (inbox (pipe s))) as ds eqn:Hds. revert s Hds.
  induction ds as [|data ds IH]; intros s Hds Hinv Hid.
  { exists []. by split_and!. }
  destruct (poll_takes n limit now p s data ds Hinv (id_alive _ _ Hid) Hcalm (eq_sym Hds))
    as (Hal1 & Hs1 & Hi1 & Hc1 & Hp1 & Ht1 & Hw1 & _).
  cbn zeta in *. change (do_step s _) with (do_run [next_poll] s) in *.
  assert (Hinv1 : inv (do_run [next_poll] s)) by (apply drun_inv; [constructor; [apply next_poll_allowed|done]|done]).
  set (s1 := do_run [next_poll] s) in *. rewrite (id_pending _ _ Hid) in Hp1.
  destruct (frames_settle n m s1 Hm Hinv1 Hal1 Hp1) as (j & Hid2 & Hf2). cbn zeta in *.
  assert (Hinv2 : inv (do_run (frames_ops m j) s1)) by (apply drun_inv; [apply frames_allowed|done]).
  set (s2 := do_run (frames_ops m j) s1) in *. apply framed_facts in Hf2 as [Hs2 Hi2].
  destruct (IH s2) as (os & Hos & Hid3 & Hinv3 & Hi3 & Hs3); [by rewrite Hi2|done|done|].
  exists ([next_poll] ++ frames_ops m j ++ os). split.
  - constructor; [done|]. apply Forall_app. split; [apply frames_settles|done].
  - cbn zeta in *. rewrite !drun_app. fold s1. fold s2. split_and!; [done..|]. by do 2 (etrans; [eassumption|]).
Qed.

(** ** One packet, sent *)

(** The packets that wait at the sending end, the one in flight first. *)
Definition waiting k : list P := option_list (current (sender k)) ++ queue_items (queue (sender k)).

(** A write nothing gets in the way of: no rate, and the socket takes it all. *)
Definition plain_write (payload : list Z) : write_env := {|
  we_first := {| Pacing.now := 0; peer_closed := false; Pacing.rate := None; rate_changed := false;
                 rate_sender_gone := false |};
  we_waits := []; we_sends := [(false, Some (Ok (zlen payload)))]; we_sent_at := 0; we_closed_after := false |}.

Lemma poll_recv_takes (q : Outgoing Ch P) x rest : outgoing_wf q → queue_items q = x :: rest →
  ∃ q', receiver_poll_recv q = (q', Ready (Some x)) ∧ queue_items q' = rest.
Proof.
  intros Hwf Hi. destruct q as [c|sh]; cbn in *.
  - destruct (mpsc_poll_recv c) as [c' r] eqn:Hr. apply mpsc_poll_recv_view in Hr as (_ & _ & _ & Hr).
    rewrite Hi in Hr. destruct Hr as [-> Hi']. by eexists.
  - destruct Hwf as [Hwf _]. unfold recv_attempt, try_recv. rewrite try_recv_if_form by done.
    destruct (items (state sh)) as [|[y b] its]; [done|]. cbn in *. injection Hi as -> Hrest. by eexists.
Qed.

Lemma plain_wait h payload : wait h (we_first (plain_write payload)) [] = Ready (Ok ()).
Proof. unfold wait, wait_top. cbn. by destruct (previous h) as [[]|]. Qed.

Lemma plain_send packet payload h (ps : PeerState W L) (c c' : S1) :
  Peer.is_closed ps = false → serialize packet c = (c', Returns (Ok payload)) →
  zlen payload ≤ validated_max_payload_size (Peer.options ps) →
  udp_send packet (plain_write payload) h ps c =
    ({| pacer := Pacing.sent (zlen payload) 0 |}, with_handle (data_sent (zlen payload)) ps, c',
     Ready (Returns (Ok ()))) ∧
  write_puts packet (plain_write payload) h ps c = [payload].
Proof.
  intros Hps Hser Hlen. unfold udp_send, write_puts. rewrite Hser, (proj2 (Z.ltb_ge _ _)) by done.
  rewrite plain_wait. unfold send_datagram. rewrite Hps. cbn. by rewrite Hps, Z.eqb_refl.
Qed.

Lemma write_sends k x rest c' payload :
  stopped k = false → token_is_cancelled (cancel_token k) = false → Peer.is_closed (local_peer k) = false →
  outgoing_wf (queue (sender k)) → waiting k = x :: rest → serialize x (encoder k) = (c', Returns (Ok payload)) →
  zlen payload ≤ validated_max_payload_size (Peer.options (local_peer k)) →
  let k' := dg_write (plain_write payload) k in
  (stopped k' = false ∧ cancel_token k' = cancel_token k ∧ Peer.is_closed (local_peer k') = false ∧
   Peer.options (local_peer k') = Peer.options (local_peer k)) ∧
  (waiting k' = rest ∧ encoder k' = c' ∧ wire k' = wire k ++ [payload]) ∧
  inbox k' = inbox k ∧ remote_peer k' = remote_peer k ∧ receiver k' = receiver k.
Proof.
  intros Hst Htok Hps Hwf Hw Hser Hlen. cbn zeta. unfold dg_write, waiting in *. rewrite Hst.
  assert (Hnext : ∃ t, (match current (sender k) with
      Some _ => (sender k, Write) | None => take_next (token_is_cancelled (cancel_token k)) (sender k) end) = (t, Write) ∧
      current t = Some x ∧ queue_items (queue t) = rest).
  { destruct (current (sender k)) as [y|] eqn:Hy; cbn in Hw.
    - injection Hw as -> Hq. by exists (sender k).
    - unfold take_next. destruct (poll_recv_takes _ _ _ Hwf Hw) as (q' & -> & Hq'). rewrite Htok. by eexists. }
  destruct Hnext as (t & -> & Hcur & Hq). rewrite Hcur.
  assert (Hps' : Peer.is_closed (after_task t (local_peer k)) = false) by done.
  destruct (plain_send x payload (write_half k) (after_task t (local_peer k)) (encoder k) c' Hps' Hser Hlen) as [-> ->].
  cbn. by rewrite Hq.
Qed.

(** ** Its arrival *)

Lemma arrives_alone n k i data :
  wire k !! i = Some data → inbox_wf (inbox k) → inbox_items (inbox k) = [] → receives_alone n (inbox k) →
  zlen data ≤ n → Peer.is_closed (remote_peer k) = false →
  let k' := dg_arrive i now k in
  inbox_items (inbox k') = [data] ∧ receives_alone n (inbox k') ∧ Peer.is_closed (remote_peer k') = false ∧
  sends_same k k' ∧ receiver k' = receiver k.
Proof.
  intros Hi Hwf Hempty Hroom Hlen Hps. cbn zeta. unfold dg_arrive. rewrite Hi. unfold dg_inbox, inbox_arrive.
  destruct (inbox k) as [ds|q]; cbn in Hempty.
  - subst ds. by repeat split.
  - apply fmap_nil_inv, fmap_nil_inv in Hempty. assert (0 ≤ zlen data) by (unfold zlen; lia).
    pose proof (try_send_takes_alone q {| Peer.bytes := data; received_at := now |} (zlen data) n Hwf ltac:(done) Hroom) as Hroom'.
    assert (Hone : takes_alone q (zlen data)) by (destruct Hroom as (? & ? & ?); split_and!; [done..|lia]).
    pose proof (push_closed data now q (remote_peer k)) as [Hcl _].
    unfold Peer.push in *. rewrite Hps in *.
    rewrite (try_send_alone q _ (zlen data) Hwf ltac:(done) Hone Hempty) in *. cbn in Hcl |- *. split_and!; try done.
Qed.

(** ** The frame that tells of it *)

Lemma dcommands_nothing m s : pending s = [] → do_run (replicate m RunDPending) s = s.
Proof.
  intros Hp. induction m as [|m IH]; [done|].
  change (do_run (replicate (S m) RunDPending) s) with (do_run (replicate m RunDPending) (run_dpending observe s)).
  unfold run_dpending. by rewrite Hp.
Qed.

Lemma frame_tells n m s e : (0 < m)%nat → inv s → alive n s → published s = true →
  pending s = [] → mpsc_items (channel s) = [] → (items (state (packets s))).*1 = [e] → event_connection e = connection →
  let s' := do_run (dframe_ops m) s in
  idle n s' ∧ framed s s' ∧ ∃ w, told s' = told s ++ [(OnPacket e, w)].
Proof.
  intros Hm Hinv Hal Hpub Hp Hc Hq He.
  destruct (dframe_runs n m s Hinv Hal Hp) as (Hal' & Hf' & Hp' & Hc' & Hq'). cbn zeta in *.
  destruct (Hq' Hpub) as [_ Hlen]. apply (f_equal length) in Hq as Hone. rewrite length_fmap in Hone. cbn in Hone.
  split; [split; [done|done|by rewrite Hc', Hc, drop_nil|apply nil_length_inv; lia]|]. split; [done|].
  clear Hal' Hf' Hp' Hc' Hq' Hlen. unfold dframe_ops.
  change (TakeDMessages m :: ?os) with ([TakeDMessages m] ++ os : list op_t). rewrite !drun_app.
  change (do_run (TakeDatagrams m :: ?os) ?s) with (do_run os (take_datagrams m s)).
  change (do_run [TakeDMessages m] s) with (take_dmessages m s).
  assert (Hinv1 : inv (take_dmessages m s)) by (apply (drun_inv [TakeDMessages m]); [by repeat constructor|done]).
  destruct (take_dmessages_runs n m s Hal) as (Hal1 & _ & Hw1 & Ht1 & Hq1 & _ & _ & Hp1). cbn zeta in *.
  set (s1 := take_dmessages m s) in *. specialize (Hp1 Hc). rewrite Hp in Hp1. rewrite (dcommands_nothing m s1) by done.
  destruct (take_datagrams_runs n m s1 Hinv1 Hal1) as (Hal2 & _ & Ht2 & _ & _ & _ & Htake). cbn zeta in *.
  destruct Htake as (taken & Hi & Hn & Hp2); [unfold published; by rewrite Hw1|].
  set (s2 := take_datagrams m s1) in *. rewrite Hq1, Hq in Hi. rewrite Hq1, Hone in Hn.
  destruct taken as [|e' [|]]; cbn in Hn; [lia| |lia]. injection Hi as <- _.
  rewrite Hp1 in Hp2. rewrite filter_cons_True in Hp2.
  2: { unfold gone. rewrite He. apply (al_world _ _ Hal1). }
  cbn in Hp2. destruct m as [|m]; [lia|].
  change (do_run (replicate (S m) RunDPending) s2) with (do_run (replicate m RunDPending) (run_dpending observe s2)).
  unfold run_dpending. rewrite Hp2. cbn [run_command]. rewrite He, (al_world _ _ Hal2).
  rewrite dcommands_nothing by done. exists (world s2). cbn. by rewrite Ht2, Ht1.
Qed.

(** ** One packet, from the queue to the observers *)

Lemma alive_pipe n s k : alive n s →
  stopped k = false → cancel_token k = cancel_token (pipe s) → Peer.is_closed (local_peer k) = false →
  Peer.is_closed (remote_peer k) = false → receives_alone n (inbox k) → receiver k = receiver (pipe s) →
  let s' := Build_DSystem k (world s) (pending s) (told s) in
  alive n s' ∧ channel s' = channel s ∧ packets s' = packets s.
Proof.
  intros [] Hst Htok Hl Hr Hi Hrcv. unfold channel, packets in *. cbn. rewrite Hrcv. split_and!; [|done..].
  split; unfold packets; cbn; rewrite ?Hst, ?Htok, ?Hrcv; done.
Qed.

Lemma quiet_step s (o : dg_op) : token (receiver (pipe s)) = false →
  receiver (dg_step connection closed_event on_evict record_full notify (pipe s) o) = receiver (pipe s) →
  do_step s (OnDPipe o) =
  Build_DSystem (dg_step connection closed_event on_evict record_full notify (pipe s) o) (world s) (pending s) (told s).
Proof. intros Ht Hr. cbn [dstep]. unfold on_dpipe. by rewrite Hr, Ht. Qed.

Definition transfer (m : nat) (i : nat) (payload : list Z) : list op_t :=
  [OnDPipe (DgWrite (plain_write payload)); OnDPipe (DgArrive i now); next_poll] ++ dframe_ops m.

Lemma transfer_allowed m i payload : Forall ok_op (transfer m i payload).
Proof using Hcalm. repeat (constructor; [done|]). constructor; [apply next_poll_allowed|apply dframe_allowed]. Qed.

(** A system with nothing between the sending end's queue and the observers. *)
Definition clear (n : Z) s : Prop :=
  inv s ∧ idle n s ∧ inbox_items (inbox (pipe s)) = [] ∧
  n ≤ validated_max_payload_size (Peer.options (local_peer (pipe s))).

(** The packet at the head of the queue gets to the other end. *)
Lemma sent_arrives n s x rest c' payload :
  clear n s → waiting (pipe s) = x :: rest →
  serialize x (encoder (pipe s)) = (c', Returns (Ok payload)) → zlen payload ≤ n →
  let i := length (wire (pipe s)) in
  let s' := do_run [OnDPipe (DgWrite (plain_write payload)); OnDPipe (DgArrive i now)] s in
  (alive n s' ∧ inbox_items (inbox (pipe s')) = [payload] ∧ channel s' = channel s ∧ packets s' = packets s ∧
   pending s' = pending s ∧ told s' = told s ∧ world s' = world s) ∧
  waiting (pipe s') = rest ∧ encoder (pipe s') = c' ∧ length (wire (pipe s')) = S i ∧
  Peer.options (local_peer (pipe s')) = Peer.options (local_peer (pipe s)).
Proof.
  intros (Hinv & Hid & Hempty & Hopt) Hw Hser Hlen. cbn zeta. set (i := length (wire (pipe s))).
  pose proof (id_alive _ _ Hid) as Hal. destruct (v_rel _ _ _ _ Hinv) as (a & _ & Hrel).
  destruct (write_sends (pipe s) x rest c' payload (al_stopped _ _ Hal) (al_token _ _ Hal) (al_local _ _ Hal)
    (rel_queue_wf _ _ _ _ Hrel) Hw Hser ltac:(lia))
    as ((Hst1 & Htok1 & Hl1 & Ho1) & (Hw1 & He1 & Hwire1) & Hi1 & Hr1 & Hrcv1). cbn zeta in *.
  unfold drun. cbn [foldl]. rewrite (quiet_step s (DgWrite _) (al_task _ _ Hal)) by done. cbn [dg_step].
  set (k1 := dg_write _ _) in *.
  destruct (alive_pipe n s k1 Hal Hst1 Htok1 Hl1) as (Hal1 & Hc1 & Hq1);
    [by rewrite Hr1; apply (al_remote _ _ Hal)|by rewrite Hi1; apply (al_inbox _ _ Hal)|done|].
  set (s1 := Build_DSystem k1 _ _ _) in *. cbn zeta in *.
  destruct (arrives_alone n k1 i payload) as (Hi2 & Hroom2 & Hr2 & Hs2 & Hrcv2).
  { rewrite Hwire1, lookup_app_r, Nat.sub_diag by (unfold i; lia). done. }
  { rewrite Hi1. apply (rel_inbox_wf _ _ _ _ Hrel). }
  { by rewrite Hi1. }
  { rewrite Hi1. apply (al_inbox _ _ Hal). }
  { done. }
  { rewrite Hr1. apply (al_remote _ _ Hal). }
  rewrite (quiet_step s1 (DgArrive i now) (al_task _ _ Hal1)) by done. cbn [dg_step]. change (pipe s1) with k1.
  set (k2 := dg_arrive i now k1) in *. destruct Hs2 as (Htok2 & Hsd2 & Hst2 & Hwh2 & Hl2 & He2 & Hwire2).
  destruct (alive_pipe n s1 k2 Hal1) as (Hal2 & Hc2 & Hq2);
    [by rewrite Hst2|done|by rewrite Hl2|done|done|done|]. cbn zeta in *. cbn [pipe].
  split; [split_and!; try done|].
  - by rewrite Hc2.
  - by rewrite Hq2.
  - unfold waiting in *. rewrite Hsd2, He2, Hl2, Hwire2, Hwire1, length_app. split_and!; try done. cbn. lia.
Qed.

(** What waits carries the packet it was made from. *)
Lemma payload_carries n s x rest c' payload :
  clear n s → waiting (pipe s) = x :: rest →
  serialize x (encoder (pipe s)) = (c', Returns (Ok payload)) → zlen payload ≤ n → carries (dec_ok:=dec_ok) payload x.
Proof.
  intros (Hinv & _ & _ & Hopt) Hw Hser Hlen. destruct (v_rel _ _ _ _ Hinv) as (a & _ & Hrel).
  pose proof (rel_sendable _ _ _ _ Hrel) as Hs. rewrite (rel_queue _ _ _ _ Hrel) in Hs.
  change (Forall sendable (waiting (pipe s))) in Hs. rewrite Hw in Hs. apply Forall_cons in Hs as [Hs _]. split.
  - pose proof (rel_options _ _ _ _ Hrel). lia.
  - intros c Hc. eapply (datagram_roundtrip x); [done|apply (rel_encoder _ _ _ _ Hrel)|done|done].
Qed.

Lemma transfer_tells n m s x rest c' payload :
  (0 < m)%nat → n ≤ limit → n ≤ MAX_DATAGRAM_SIZE → clear n s → waiting (pipe s) = x :: rest →
  serialize x (encoder (pipe s)) = (c', Returns (Ok payload)) → zlen payload ≤ n →
  let s' := do_run (transfer m (length (wire (pipe s))) payload) s in
  clear n s' ∧ waiting (pipe s') = rest ∧ encoder (pipe s') = c' ∧
  length (wire (pipe s')) = S (length (wire (pipe s))) ∧
  ∃ at' w, told s' = told s ++ [(OnPacket (event_of connection (x, at')), w)].
Proof.
  intros Hm Hlim Hmax Hclear Hw Hser Hlen. pose proof Hclear as (Hinv & Hid & _ & Hopt). cbn zeta.
  pose proof (payload_carries _ _ _ _ _ _ Hclear Hw Hser Hlen) as Hcar.
  destruct (sent_arrives n s x rest c' payload Hclear Hw Hser Hlen)
    as ((Hal2 & Hi2 & Hc2 & Hq2 & Hp2 & Ht2 & Hw2) & Hwt2 & He2 & Hwire2 & Ho2). cbn zeta in *.
  set (i := length (wire (pipe s))) in *. unfold transfer. set (sends := [_; OnDPipe (DgArrive i now)]) in *.
  change ([?o1; ?o2; next_poll] ++ ?os) with (sends ++ [next_poll] ++ os). rewrite !drun_app.
  assert (Hinv2 : inv (do_run sends s)) by (apply drun_inv; [by repeat constructor|done]).
  set (s2 := do_run sends s) in *. clearbody s2.
  destruct (poll_takes n limit now p s2 payload [] Hinv2 Hal2 Hcalm Hi2) as (Hal3 & Hs3 & Hi3 & Hc3 & Hp3 & Ht3 & Hw3 & Hq3).
  cbn zeta in *. change (do_step s2 _) with (do_run [next_poll] s2) in *.
  assert (Hinv3 : inv (do_run [next_poll] s2)) by (apply drun_inv; [constructor; [apply next_poll_allowed|done]|done]).
  set (s3 := do_run [next_poll] s2) in *.
  destruct (Hq3 x) as [at' Hq]; [rewrite Hq2; apply (id_packets _ _ Hid)|lia|lia|done|].
  destruct (frame_tells n m s3 (event_of connection (x, at')) Hm Hinv3 Hal3) as (Hid4 & Hf4 & w & Ht4).
  { unfold published. rewrite Hw3, Hw2. by eapply drained_published; [|eapply Hid..]. }
  { rewrite Hp3, Hp2. apply (id_pending _ _ Hid). }
  { rewrite Hc3, Hc2. apply (id_channel _ _ Hid). }
  { done. }
  { done. }
  cbn zeta in *. assert (Hinv4 : inv (do_run (dframe_ops m) s3)) by (apply drun_inv; [apply dframe_allowed|done]).
  apply framed_facts in Hf4 as [Hs4 Hi4]. set (s4 := do_run (dframe_ops m) s3) in *.
  assert (Hs24 : sends_same (pipe s2) (pipe s4)) by (etrans; [exact Hs3|exact Hs4]).
  destruct Hs24 as (Htok & Hsd & Hst & Hwh & Hl & He & Hwire). unfold waiting in *. split_and!; try congruence.
  - split_and!; [done|done|by rewrite Hi4|]. by rewrite Hl, Ho2.
  - exists at', w. by rewrite Ht4, Ht3, Ht2.
Qed.

(** ** All that waits *)

(** The codec turns the packets, one after the other, into these payloads, of [n]
    bytes at most. *)
Fixpoint encodes (n : Z) (ps : list P) (c : S1) (payloads : list (list Z)) : Prop :=
  match ps, payloads with
  | [], [] => True
  | x :: ps, b :: bs => ∃ c', serialize x c = (c', Returns (Ok b)) ∧ zlen b ≤ n ∧ encodes n ps c' bs
  | _, _ => False
  end.

Fixpoint transfers (m : nat) (i : nat) (payloads : list (list Z)) : list op_t :=
  match payloads with
  | [] => []
  | b :: bs => transfer m i b ++ transfers m (S i) bs
  end.

Lemma transfers_tell n m payloads s : (0 < m)%nat → n ≤ limit → n ≤ MAX_DATAGRAM_SIZE → clear n s →
  encodes n (waiting (pipe s)) (encoder (pipe s)) payloads →
  let s' := do_run (transfers m (length (wire (pipe s))) payloads) s in
  clear n s' ∧ waiting (pipe s') = [] ∧
  ∃ heard, life connection (told s') = life connection (told s) ++ (OnPacket <$> heard) ∧
    event_packet <$> heard = waiting (pipe s).
Proof.
  intros Hm Hlim Hmax. revert s. induction payloads as [|b bs IH]; intros s Hclear Henc; cbn zeta.
  - destruct (waiting (pipe s)) eqn:Hw; [|done]. split_and!; [done|done|]. exists []. by rewrite app_nil_r.
  - destruct (waiting (pipe s)) as [|x rest] eqn:Hw; [done|]. destruct Henc as (c' & Hser & Hlen & Henc).
    destruct (transfer_tells n m s x rest c' b Hm Hlim Hmax Hclear Hw Hser Hlen) as (Hc1 & Hw1 & He1 & Hwire1 & at' & w & Ht1).
    cbn [transfers]. rewrite drun_app. cbn zeta in *. set (s1 := do_run (transfer _ _ _) s) in *. rewrite <- Hwire1.
    destruct (IH s1 Hc1) as (Hc2 & Hw2 & heard & Hlife & Hheard); [by rewrite Hw1, He1|]. cbn zeta in *.
    split_and!; [done|done|]. exists (event_of connection (x, at') :: heard).
    rewrite Hlife, Ht1, life_snoc, decide_True by done. rewrite <- app_assoc. cbn. by rewrite Hheard, Hw1.
Qed.

(** Whose connection runs, with nothing on its way, has only heard packets since
    it was established. *)
Lemma idle_life n s : inv s → idle n s → ∃ heard, life connection (told s) = OnEstablished opening :: (OnPacket <$> heard).
Proof.
  intros Hinv Hid. pose proof (id_alive _ _ Hid) as Hal.
  assert (Hpub : published s = true) by (by eapply drained_published; [|eapply Hid..]).
  destruct (v_shape _ _ _ _ Hinv) as [Hl|(heard & ending' & Hl & He)]; [by destruct (v_published _ _ _ _ Hinv Hpub)|].
  exists heard. destruct He as [->|(x & -> & Hx)]; [by rewrite Hl, app_nil_r|]. exfalso.
  pose proof (v_lifecycle _ _ _ _ Hinv) as Hlc. rewrite (id_pending _ _ Hid), (id_channel _ _ Hid) in Hlc.
  cbn in Hlc. rewrite app_nil_r, <- lifecycle_life, Hl in Hlc.
  pose proof (v_cancelled _ _ _ _ Hinv) as Hcan. rewrite (al_world _ _ Hal) in Hcan.
  destruct (sent (receiver (pipe s))) as [|d ds]; [|by discriminate Hcan].
  rewrite filter_cons_True, filter_app, lifecycle_packets in Hlc by done. destruct Hx as [err ->].
  rewrite filter_cons_True in Hlc; [done|]. cbn. by rewrite trigger_id_closed, Hclosing.
Qed.

(** From any state in which the connection runs, what is on its way can be
    cleared. *)
Lemma alive_clears n m s : (0 < m)%nat → inv s → alive n s →
  n ≤ validated_max_payload_size (Peer.options (local_peer (pipe s))) →
  ∃ os, Forall settles os ∧ let s' := do_run os s in
    clear n s' ∧ sends_same (pipe s) (pipe s').
Proof.
  intros Hm Hinv Hal Hopt. set (os1 := replicate (length (pending s)) RunDPending : list op_t).
  destruct (dcommands_run n (length (pending s)) s Hal) as (Hal1 & Hp1 & _ & Hpend1). cbn zeta in *.
  fold os1 in Hal1, Hp1, Hpend1.
  assert (Hinv1 : inv (do_run os1 s)) by (apply drun_inv; [by apply Forall_replicate|done]).
  set (s1 := do_run os1 s) in *.
  destruct (frames_settle n m s1 Hm Hinv1 Hal1 (Hpend1 ltac:(lia))) as (j & Hid2 & Hf2). cbn zeta in *.
  assert (Hinv2 : inv (do_run (frames_ops m j) s1)) by (apply drun_inv; [apply frames_allowed|done]).
  set (s2 := do_run (frames_ops m j) s1) in *. apply framed_facts in Hf2 as [Hs2 _].
  destruct (settle_inbox n m s2 Hm Hinv2 Hid2) as (os3 & Hos3 & Hid3 & Hinv3 & Hi3 & Hs3). cbn zeta in *.
  exists (os1 ++ frames_ops m j ++ os3). split.
  - apply Forall_app. split; [by apply Forall_replicate|]. apply Forall_app. split; [apply frames_settles|done].
  - cbn zeta. rewrite !drun_app. fold s1. fold s2.
    assert (Hs : sends_same (pipe s) (pipe (do_run os3 s2))) by (rewrite <- Hp1; by etrans).
    split; [|done]. split_and!; [done..|]. destruct Hs as (_ & _ & _ & _ & Hl & _). by rewrite Hl.
Qed.

Abbreviation start := (dg_start (E:=E) connection closed_event on_evict record_full notify).

(** C5. Over UDP too, what waits is heard. In any state a connection can be in in
    which its tasks run, ECS listens and nobody has disconnected it, the receiving
    end's polls and frames of any budget clear what is on its way; and then, if the
    socket takes each datagram, the network delivers it, and a poll and a frame
    follow, the application hears every packet that waited in the sender's queue,
    the one in flight first, in order and as the last things it hears. *)
Theorem queued_datagrams_are_heard (os : list op_t) queues token (local remote : PeerState W L) enc dec box
    incoming q disconnects handles w n m payloads :
  Forall ok_op os → startable queues local box → enc_ok enc → dec_ok dec →
  arrives (X:=X) connection opening incoming q w →
  let s := do_run os (dsystem_start (start queues token local remote enc dec box incoming q disconnects handles) w) in
  alive n s → n ≤ limit → n ≤ MAX_DATAGRAM_SIZE → n ≤ validated_max_payload_size (Peer.options (local_peer (pipe s))) →
  encodes n (waiting (pipe s)) (encoder (pipe s)) payloads → (0 < m)%nat →
  ∃ settling heard, Forall settles settling ∧
    let s' := do_run (settling ++ transfers m (length (wire (pipe s))) payloads) s in
    idle n s' ∧ waiting (pipe s') = [] ∧
    life connection (told s') = OnEstablished opening :: (OnPacket <$> heard) ∧
    waiting (pipe s) `suffix_of` event_packet <$> heard.
Proof.
  intros Hall Hstart Hen Hde Harr s Hal Hlim Hmax Hopt Henc Hm.
  assert (Hinv : inv s) by (apply drun_inv; [done|by apply dsystem_start_inv]). clearbody s.
  destruct (alive_clears n m s Hm Hinv Hal Hopt) as (settling & Hsettles & Hclear & Hsame). cbn zeta in *.
  exists settling. rewrite drun_app. set (s1 := do_run settling s) in *.
  destruct Hsame as (_ & Hsd & _ & _ & _ & He & Hwire).
  assert (Hw : waiting (pipe s1) = waiting (pipe s)) by (unfold waiting; by rewrite Hsd).
  rewrite <- Hwire. rewrite <- Hw, <- He in Henc.
  destruct (transfers_tell n m payloads s1 Hm Hlim Hmax Hclear Henc) as ((Hinv' & Hid' & _) & Hw' & heard2 & Hlife & Hheard).
  cbn zeta in *. destruct Hclear as (Hinv1 & Hid1 & _). destruct (idle_life n s1 Hinv1 Hid1) as [heard1 Hl1].
  exists (heard1 ++ heard2). split_and!; [done|done|done| |].
  - rewrite Hlife, Hl1, fmap_app. done.
  - rewrite fmap_app, Hheard, Hw. by apply suffix_app_r.
Qed.
End Progress.

(** ** A concrete client

    One packet and a foreign datagram are on their way, and two packets wait. *)

Definition udp_waits_ops : list udp_heard_op :=
  [OnDPipe (DgSend true); OnDPipe (DgWrite udp_demo_write); OnDPipe (DgForeign [7] 0); OnDPipe (DgArrive 0 0);
   OnDPipe (DgSend false); OnDPipe (DgSend true)].

Definition udp_waits := udp_heard_run udp_waits_ops.

Lemma udp_waits_allowed :
  Forall (allowed (X:=udp_disconnection) (sendable:=λ _, True) (dec_ok:=λ s, s = udp_demo_codec) udp_id) udp_waits_ops.
Proof. apply udp_heard_allowed. unfold udp_waits_ops. udp_heard_quiet. Qed.

Lemma udp_waits_alive : alive udp_id 1 udp_waits.
Proof.
  split; try (vm_compute; reflexivity).
  - split; [by vm_compute|]. split; [by apply Z.ltb_lt; vm_compute|by apply Z.leb_le; vm_compute].
  - assert (Hi : items (state (packets udp_waits)) = []) by by vm_compute. rewrite Hi. constructor.
Qed.

Lemma udp_calm : calm (udp_heard_env false).
Proof. by split. Qed.

#[local] Instance udp_waits_pair :
  DatagramPair bool_serializer bool_serializer (λ _, True) (λ s, s = udp_demo_codec) (λ s, s = udp_demo_codec).
Proof. apply read_only_datagrams. by intros [] bs _ [= <-]. Qed.

Definition udp_goes_on (os : list udp_heard_op) :=
  drun (W:=λ A, A) (L:=bool) (Out:=bool_serializer) udp_id udp_closing (λ _ (h : list QueueDropReason), h) (λ h, h)
    None udp_heard_observe os udp_waits.

Abbreviation udp_transfers := (transfers (L:=bool) 64 0 (udp_heard_env false) 2 1 [[0]; [1]]).

Lemma queued_datagrams_are_heard_witness :
  waiting (pipe udp_waits) = [false; true] ∧
  ∃ settling heard, Forall (settles 64 0 (udp_heard_env false)) settling ∧
    life (R:=ClientResources nat) (D:=udp_closed) udp_id (told (udp_goes_on (settling ++ udp_transfers))) =
      OnEstablished udp_opening :: (OnPacket <$> heard) ∧
    [false; true] `suffix_of` event_packet <$> heard.
Proof.
  split; [by vm_compute|].
  assert (Hheard : ∃ settling heard, Forall (settles 64 0 (udp_heard_env false)) settling ∧
    let s' := udp_goes_on (settling ++ udp_transfers) in
    idle udp_id 1 s' ∧ waiting (pipe s') = [] ∧
    life (R:=ClientResources nat) (D:=udp_closed) udp_id (told s') = OnEstablished udp_opening :: (OnPacket <$> heard) ∧
    waiting (pipe udp_waits) `suffix_of` event_packet <$> heard).
  { refine (queued_datagrams_are_heard (W:=λ A, A) (L:=bool) (Ch:=fifo) (Addr:=nat) (Out:=bool_serializer)
      (Inc:=bool_serializer) (sendable:=λ _, True) (enc_ok:=λ s, s = udp_demo_codec)
      (dec_ok:=λ s, s = udp_demo_codec) udp_id udp_closing (λ _ (h : list QueueDropReason), h) (λ h, h) None
      udp_heard_observe udp_opening eq_refl (λ err, eq_refl) udp_heard_observes (λ t w, eq_refl) 64 0
      (udp_heard_env false) udp_calm udp_waits_ops udp_demo_queues false example_peer example_peer udp_demo_codec
      udp_demo_codec (Socket []) udp_heard_channel (lossy_channel 4 usize_max DropOldest) (mpsc_channel 1) []
      udp_heard_world 1 2 [[0]; [1]] udp_waits_allowed udp_demo_startable eq_refl eq_refl udp_heard_arrives
      udp_waits_alive _ _ _ _ _); [done|done|by apply Z.leb_le; vm_compute| |lia].
    vm_compute. repeat eexists; discriminate. }
  destruct Hheard as (settling & heard & Hs & _ & _ & Hlife & Hsuf). exists settling, heard.
  split; [exact Hs|]. split; [exact Hlife|exact Hsuf].
Defined.
