(* ===== verification/Conversation.v ===== *)
(** * Conversations

    An application with a client and a server that answer each other over one
    connection. [Medium] is what a direction of a connection promises such an
    application, and [Apart] what its two directions leave of each other.
    [StreamMedium] and [DatagramMedium] show that the connections of [Pipeline] and
    [Datagrams] are media, and [Duplex] that both directions of a stream connection
    are, on the serializers they share. *)

From S2P Require Import Prelude Protocol Serializer.

Local Open Scope Z_scope.

(** ** One direction of a connection

    [m_send] is [EcsConnection::send], which may refuse; [m_do] is anything else
    that happens to the connection; [m_accepted] and [m_heard] are the packets
    [send] took at one end and the packets handed to ECS at the other. *)
Class Medium (P M : Type) := {
  m_op : Type;
  m_do : m_op → M → M;
  m_send : P → M → M;
  m_accepted : M → list P;
  m_heard : M → list P;
}.

(** [sendable] are the packets the serializers agree on, [ok] the states of the
    connection and [op_ok] what may happen to it. *)
Class MediumLaws (P M : Type) `{Medium P M} (sendable : P → Prop) (ok : M → Prop) (op_ok : m_op → Prop) : Prop := {
  m_send_law p m : ok m → sendable p →
    ok (m_send p m) ∧ m_heard (m_send p m) = m_heard m ∧
    (m_accepted (m_send p m) = m_accepted m ∨ m_accepted (m_send p m) = m_accepted m ++ [p]);
  m_do_law o m : ok m → op_ok o →
    ok (m_do o m) ∧ m_accepted (m_do o m) = m_accepted m ∧ m_heard m `prefix_of` m_heard (m_do o m);
  m_genuine m p : ok m → p ∈ m_heard m → p ∈ m_accepted m;
}.

(** A medium that neither loses a packet before another it delivers, nor repeats
    or reorders any. *)
Class OrderedMedium (P M : Type) `{Medium P M} (ok : M → Prop) : Prop :=
  m_ordered m : ok m → m_heard m `prefix_of` m_accepted m.

(** The two directions of a connection share its ends: [S] and [C] are media on one
    state. What happens to the first leaves the packets of the second as they
    are. *)
Class Apart {P Q M : Type} (S : Medium P M) (C : Medium Q M) (sendable : P → Prop) (ok : M → Prop)
    (op_ok : m_op (Medium:=S) → Prop) : Prop := {
  apart_send p m : ok m → sendable p →
    m_accepted (Medium:=C) (m_send p m) = m_accepted (Medium:=C) m ∧
    m_heard (Medium:=C) (m_send p m) = m_heard (Medium:=C) m;
  apart_do o m : ok m → op_ok o →
    m_accepted (Medium:=C) (m_do (Medium:=S) o m) = m_accepted (Medium:=C) m ∧
    m_heard (Medium:=C) (m_do (Medium:=S) o m) = m_heard (Medium:=C) m;
}.

(** Two media that share nothing, side by side. *)
Section SideBySide.
Context {SP CP MS MC : Type} (S : Medium SP MS) (C : Medium CP MC).

Definition left_medium : Medium SP (MS * MC) := {|
  m_op := m_op (Medium:=S);
  m_do o m := (m_do (Medium:=S) o m.1, m.2);
  m_send p m := (m_send p m.1, m.2);
  m_accepted m := m_accepted m.1;
  m_heard m := m_heard m.1;
|}.
Definition right_medium : Medium CP (MS * MC) := {|
  m_op := m_op (Medium:=C);
  m_do o m := (m.1, m_do (Medium:=C) o m.2);
  m_send p m := (m.1, m_send p m.2);
  m_accepted m := m_accepted m.2;
  m_heard m := m_heard m.2;
|}.

Context {sayS okS opS} `{!MediumLaws SP MS sayS okS opS} {sayC okC opC} `{!MediumLaws CP MC sayC okC opC}.
Definition both_ok (m : MS * MC) : Prop := okS m.1 ∧ okC m.2.

Lemma left_laws : MediumLaws SP (MS * MC) (H:=left_medium) sayS both_ok opS.
Proof.
  split; cbn.
  - intros p m [Hs Hc] Hp. destruct (m_send_law p m.1 Hs Hp) as (? & ? & ?). by split; [split|].
  - intros o m [Hs Hc] Ho. destruct (m_do_law o m.1 Hs Ho) as (? & ? & ?). by split; [split|].
  - intros m p [Hs Hc]. by apply m_genuine.
Qed.

Lemma right_laws : MediumLaws CP (MS * MC) (H:=right_medium) sayC both_ok opC.
Proof.
  split; cbn.
  - intros p m [Hs Hc] Hp. destruct (m_send_law p m.2 Hc Hp) as (? & ? & ?). by split; [split|].
  - intros o m [Hs Hc] Ho. destruct (m_do_law o m.2 Hc Ho) as (? & ? & ?). by split; [split|].
  - intros m p [Hs Hc]. by apply m_genuine.
Qed.

Lemma left_apart : Apart left_medium right_medium sayS both_ok opS.
Proof. by split. Qed.
Lemma right_apart : Apart right_medium left_medium sayC both_ok opC.
Proof. by split. Qed.
End SideBySide.
Arguments both_ok {MS MC} okS okC m.

(** ** The two applications

    What the observers send: the server's on [NewConnectionEvent], the client's on
    [ConnectionEstablishEvent] if it has one, and either's on a packet, which may
    panic instead. An observer sends one packet and returns what [send] returned. *)
Record Program (SP CP : Type) := {
  welcome : SP;
  introduction : option CP;
  client_answer : SP → outcome CP;
  server_answer : CP → outcome SP;
}.
Arguments welcome {SP CP}. Arguments introduction {SP CP}.
Arguments client_answer {SP CP}. Arguments server_answer {SP CP}.

(** The packets a program sends are among those its serializers agree on. *)
Record speakable {SP CP} (prog : Program SP CP) (sayS : SP → Prop) (sayC : CP → Prop) : Prop := {
  speak_welcome : sayS (welcome prog);
  speak_introduction p : introduction prog = Some p → sayC p;
  speak_client p q : client_answer prog p = Returns q → sayC q;
  speak_server p q : server_answer prog p = Returns q → sayS q;
}.

Section Conversation.
Context {SP CP M : Type} `{S : Medium SP M} `{C : Medium CP M}.
Variable prog : Program SP CP.

(** The connection; whether each side has been told of it; what each side's
    observer was given; and whether each app still runs, which it does until an
    observer panics. *)
Record Conversation := {
  link : M;
  welcomed : bool;
  introduced : bool;
  client_heard : list SP;
  server_heard : list CP;
  client_runs : bool;
  server_runs : bool;
}.

Definition conversation_start (m : M) : Conversation := {|
  link := m; welcomed := false; introduced := false;
  client_heard := []; server_heard := []; client_runs := true; server_runs := true |}.

(** The packets either application has sent. *)
Definition sent_to_client (c : Conversation) : list SP := m_accepted (Medium:=S) (link c).
Definition sent_to_server (c : Conversation) : list CP := m_accepted (Medium:=C) (link c).

Definition with_link (m : M) (c : Conversation) : Conversation :=
  {| link := m; welcomed := welcomed c; introduced := introduced c;
     client_heard := client_heard c; server_heard := server_heard c;
     client_runs := client_runs c; server_runs := server_runs c |}.

(** The server's observer of new connections. *)
Definition on_new_connection (c : Conversation) : Conversation :=
  if server_runs c && negb (welcomed c) then
    {| link := m_send (welcome prog) (link c); welcomed := true;
       introduced := introduced c; client_heard := client_heard c; server_heard := server_heard c;
       client_runs := client_runs c; server_runs := server_runs c |}
  else c.

(** The client's observer of established connections. *)
Definition on_established (c : Conversation) : Conversation :=
  if client_runs c && negb (introduced c) then
    {| link := match introduction prog with Some p => m_send p (link c) | None => link c end;
       welcomed := welcomed c; introduced := true; client_heard := client_heard c;
       server_heard := server_heard c; client_runs := client_runs c; server_runs := server_runs c |}
  else c.

(** The next packet given to the observer of either side. *)
Definition client_observes (c : Conversation) : Conversation :=
  match client_runs c, m_heard (Medium:=S) (link c) !! length (client_heard c) with
  | true, Some p =>
      let '(m, runs) := match client_answer prog p with
                        | Returns q => (m_send q (link c), true)
                        | Panics => (link c, false)
                        end in
      {| link := m; welcomed := welcomed c; introduced := introduced c;
         client_heard := client_heard c ++ [p]; server_heard := server_heard c;
         client_runs := runs; server_runs := server_runs c |}
  | _, _ => c
  end.

Definition server_observes (c : Conversation) : Conversation :=
  match server_runs c, m_heard (Medium:=C) (link c) !! length (server_heard c) with
  | true, Some p =>
      let '(m, runs) := match server_answer prog p with
                        | Returns q => (m_send q (link c), true)
                        | Panics => (link c, false)
                        end in
      {| link := m; welcomed := welcomed c; introduced := introduced c;
         client_heard := client_heard c; server_heard := server_heard c ++ [p];
         client_runs := client_runs c; server_runs := runs |}
  | _, _ => c
  end.

Inductive conversation_event :=
  | NewConnection | Established | ClientObserves | ServerObserves
  | ToClient (o : m_op (Medium:=S)) | ToServer (o : m_op (Medium:=C)).

Definition conversation_step (c : Conversation) (e : conversation_event) : Conversation :=
  match e with
  | NewConnection => on_new_connection c
  | Established => on_established c
  | ClientObserves => client_observes c
  | ServerObserves => server_observes c
  | ToClient o => with_link (m_do (Medium:=S) o (link c)) c
  | ToServer o => with_link (m_do (Medium:=C) o (link c)) c
  end.

Definition conversation_run (es : list conversation_event) (c : Conversation) : Conversation :=
  foldl conversation_step c es.
End Conversation.
Arguments Conversation SP CP M : clear implicits.
Arguments conversation_event {SP CP M} S C.

(** ** What holds of every conversation *)

(** One side's packets: each is its opening one or answers one it heard, and
    beyond the opening one there are no more packets than packets heard. *)
Section Saying.
Context {P Q M : Type} `{Medium P M} {say : P → Prop} {ok : M → Prop} {op_ok : m_op → Prop}
  `{!MediumLaws P M say ok op_ok}.
Variable opening : option P.
Variable answer : Q → outcome P.
Hypothesis Hopening : ∀ p, opening = Some p → say p.
Hypothesis Hanswer : ∀ q p, answer q = Returns p → say p.

Record says (opened : bool) (heard : list Q) (m : M) : Prop := {
  sy_ok : ok m;
  sy_origin p : p ∈ m_accepted m → opened = true ∧ opening = Some p ∨ ∃ q, q ∈ heard ∧ answer q = Returns p;
  sy_count : (length (m_accepted m) ≤
    (if opened then length (option_list opening) else 0) + length heard)%nat;
}.

(** A packet sent, if it was accepted, is one more. *)
Lemma says_send p opened opened' heard more m : says opened heard m → say p →
  (opened = true → opened' = true) →
  (opened' = true ∧ opening = Some p ∨ ∃ q, q ∈ heard ++ more ∧ answer q = Returns p) →
  (S ((if opened then length (option_list opening) else 0) + length heard) ≤
   (if opened' then length (option_list opening) else 0) + length (heard ++ more))%nat →
  says opened' (heard ++ more) (m_send p m).
Proof.
  intros [Hok Ho Hc] Hp Hmono Hfrom Hcount. destruct (m_send_law p m Hok Hp) as (Hok' & _ & Hacc).
  assert (Hold : ∀ x, x ∈ m_accepted m →
    opened' = true ∧ opening = Some x ∨ ∃ q, q ∈ heard ++ more ∧ answer q = Returns x).
  { intros x [[Hop Hx]|(q & Hq & Hx)]%Ho; [left; auto|right]. exists q. split; [|done].
    apply elem_of_app. by left. }
  split; [done| |].
  - intros x Hx. destruct Hacc as [Hacc|Hacc]; rewrite Hacc in Hx; [by apply Hold|].
    apply elem_of_app in Hx as [Hx|Hx%list_elem_of_singleton]; [by apply Hold|by subst x].
  - destruct Hacc as [->| ->]; [|rewrite length_app; cbn]; lia.
Qed.

Lemma says_open p heard m : says false heard m → opening = Some p → says true heard (m_send p m).
Proof.
  intros Hs Hp. rewrite <- (app_nil_r heard). eapply says_send; [done|by apply Hopening|done|by left|].
  rewrite app_nil_r, Hp. cbn. lia.
Qed.

Lemma says_answer p q opened heard m : says opened heard m → answer q = Returns p →
  says opened (heard ++ [q]) (m_send p m).
Proof.
  intros Hs Hp. eapply says_send; [done|by eapply Hanswer|done| |rewrite length_app; cbn; lia].
  right. exists q. split; [apply elem_of_app; right; by apply list_elem_of_singleton|done].
Qed.

(** Nothing sent. *)
Lemma says_more opened opened' heard more m : says opened heard m → (opened = true → opened' = true) →
  says opened' (heard ++ more) m.
Proof.
  intros [Hok Ho Hc] Hmono. split; [done| |].
  - intros p [[Hop Hx]|(q & Hq & Hx)]%Ho; [left; auto|right]. exists q. split; [apply elem_of_app; by left|done].
  - rewrite length_app. destruct opened; [rewrite (Hmono eq_refl)|]; lia.
Qed.

Lemma says_do o opened heard m : says opened heard m → op_ok o → says opened heard (m_do o m).
Proof.
  intros [Hok Hor Hc] Ho. destruct (m_do_law o m Hok Ho) as (Hok' & Hacc & _). by split; rewrite ?Hacc.
Qed.
(** Something else happened to the connection. *)
Lemma says_same opened heard m m' : says opened heard m → ok m' → m_accepted m' = m_accepted m → says opened heard m'.
Proof. intros [Hok Hor Hc] Hok' Hacc. by split; rewrite ?Hacc. Qed.
End Saying.
Arguments says {P Q M _} ok opening answer opened heard m.

Section Conversing.
Context {SP CP M : Type} `{S : Medium SP M} `{C : Medium CP M} {ok : M → Prop}.
Context {sayS : SP → Prop} {opS : m_op (Medium:=S) → Prop} `{!MediumLaws SP M sayS ok opS} `{!Apart S C sayS ok opS}.
Context {sayC : CP → Prop} {opC : m_op (Medium:=C) → Prop} `{!MediumLaws CP M sayC ok opC} `{!Apart C S sayC ok opC}.
Variable prog : Program SP CP.
Hypothesis Hspeak : speakable prog sayS sayC.
Implicit Types (c : Conversation SP CP M).

Definition event_ok (e : conversation_event S C) : Prop :=
  match e with ToClient o => opS o | ToServer o => opC o | _ => True end.

(** The connection is fresh. *)
Definition fresh_link (m : M) : Prop :=
  ok m ∧ m_accepted (Medium:=S) m = [] ∧ m_accepted (Medium:=C) m = [].

Record conversing c : Prop := {
  cv_server : says (H:=S) ok (Some (welcome prog)) (server_answer prog) (welcomed c) (server_heard c) (link c);
  cv_client : says (H:=C) ok (introduction prog) (client_answer prog) (introduced c) (client_heard c) (link c);
  cv_client_heard : client_heard c `prefix_of` m_heard (Medium:=S) (link c);
  cv_server_heard : server_heard c `prefix_of` m_heard (Medium:=C) (link c);
  cv_client_runs : client_runs c = false → ∃ p, p ∈ client_heard c ∧ client_answer prog p = Panics;
  cv_server_runs : server_runs c = false → ∃ q, q ∈ server_heard c ∧ server_answer prog q = Panics;
}.

Lemma fresh_conversing m : fresh_link m → conversing (conversation_start m).
Proof.
  intros (Hok & HS & HC). split; cbn; try apply prefix_nil; try done.
  - split; cbn; rewrite ?HS; [done|by intros p ?%not_elem_of_nil|cbn; lia].
  - split; cbn; rewrite ?HC; [done|by intros p ?%not_elem_of_nil|cbn; lia].
Qed.

Lemma prefix_lookup_snoc {A} (l m : list A) x : l `prefix_of` m → m !! length l = Some x → l ++ [x] `prefix_of` m.
Proof.
  intros [k ->] Hx. rewrite lookup_app_r, Nat.sub_diag in Hx by lia. destruct k as [|y k]; [done|].
  cbn in Hx. simplify_eq. exists k. by rewrite <- app_assoc.
Qed.

(** A packet sent either way leaves what was heard, and the other side's packets. *)
Lemma server_sends p m : ok m → sayS p →
  ok (m_send p m) ∧ m_heard (Medium:=S) (m_send p m) = m_heard (Medium:=S) m ∧
  m_heard (Medium:=C) (m_send p m) = m_heard (Medium:=C) m ∧
  m_accepted (Medium:=C) (m_send p m) = m_accepted (Medium:=C) m.
Proof. intros Hok Hp. destruct (m_send_law p m Hok Hp) as (? & ? & _), (apart_send p m Hok Hp). done. Qed.

Lemma client_sends q m : ok m → sayC q →
  ok (m_send q m) ∧ m_heard (Medium:=C) (m_send q m) = m_heard (Medium:=C) m ∧
  m_heard (Medium:=S) (m_send q m) = m_heard (Medium:=S) m ∧
  m_accepted (Medium:=S) (m_send q m) = m_accepted (Medium:=S) m.
Proof. intros Hok Hq. destruct (m_send_law q m Hok Hq) as (? & ? & _), (apart_send q m Hok Hq). done. Qed.

Lemma conversing_step c (e : conversation_event S C) : event_ok e → conversing c →
  conversing (conversation_step prog c e).
Proof.
  intros He Hcv. pose proof Hcv as [Hs Hc Hch Hsh Hcr Hsr]. pose proof (sy_ok _ _ _ _ _ Hs) as Hok.
  destruct Hspeak as [Hw Hi Hca Hsa].
  destruct e as [| | | |o|o]; cbn [conversation_step].
  - unfold on_new_connection. destruct (_ && _) eqn:Hb; [|done].
    apply andb_true_iff in Hb as [_ Hb%negb_true_iff]. rewrite Hb in Hs.
    destruct (server_sends _ _ Hok Hw) as (Hok' & Hhs & Hhc & Hac).
    split; cbn; rewrite ?Hhs, ?Hhc; try done; [|by eapply says_same].
    apply (says_open (say:=sayS) (op_ok:=opS)); [|done|done]. by intros p [= <-].
  - unfold on_established. destruct (_ && _) eqn:Hb; [|done].
    apply andb_true_iff in Hb as [_ Hb%negb_true_iff]. rewrite Hb in Hc.
    destruct (introduction prog) as [p|] eqn:Hp.
    + destruct (client_sends p _ Hok (Hi p eq_refl)) as (Hok' & Hhc & Hhs & Hac).
      split; cbn; rewrite ?Hhs, ?Hhc; try done; [by eapply says_same|].
      rewrite Hp. apply (says_open (say:=sayC) (op_ok:=opC)); [|done|done]. intros q [= <-]. auto.
    + split; cbn; try done. rewrite Hp, <- (app_nil_r (client_heard c)). by eapply says_more.
  - unfold client_observes. destruct (client_runs c) eqn:Hr; [|done].
    destruct (m_heard (Medium:=S) (link c) !! length (client_heard c)) as [p|] eqn:Hp; [|done].
    assert (Hpre : client_heard c ++ [p] `prefix_of` m_heard (Medium:=S) (link c)) by by apply prefix_lookup_snoc.
    destruct (client_answer prog p) as [q|] eqn:Hq.
    + destruct (client_sends q _ Hok (Hca _ _ Hq)) as (Hok' & Hhc & Hhs & Hac).
      split; cbn; rewrite ?Hhs, ?Hhc; try done; [by eapply says_same|].
      by eapply (says_answer (say:=sayC) (op_ok:=opC)).
    + split; cbn; try done; [by eapply says_more|].
      exists p. split; [apply elem_of_app; right; by apply list_elem_of_singleton|done].
  - unfold server_observes. destruct (server_runs c) eqn:Hr; [|done].
    destruct (m_heard (Medium:=C) (link c) !! length (server_heard c)) as [p|] eqn:Hp; [|done].
    assert (Hpre : server_heard c ++ [p] `prefix_of` m_heard (Medium:=C) (link c)) by by apply prefix_lookup_snoc.
    destruct (server_answer prog p) as [q|] eqn:Hq.
    + destruct (server_sends q _ Hok (Hsa _ _ Hq)) as (Hok' & Hhs & Hhc & Hac).
      split; cbn; rewrite ?Hhs, ?Hhc; try done; [|by eapply says_same].
      by eapply (says_answer (say:=sayS) (op_ok:=opS)).
    + split; cbn; try done; [by eapply says_more|].
      exists p. split; [apply elem_of_app; right; by apply list_elem_of_singleton|done].
  - destruct (m_do_law (H:=S) o _ Hok He) as (Hok' & Hacc & Hpre), (apart_do o _ Hok He) as [Hac Hhc].
    split; cbn; rewrite ?Hhc; try done; [by eapply says_same..|by etrans].
  - destruct (m_do_law (H:=C) o _ Hok He) as (Hok' & Hacc & Hpre), (apart_do o _ Hok He) as [Hac Hhs].
    split; cbn; rewrite ?Hhs; try done; [by eapply says_same..|by etrans].
Qed.

Lemma conversing_run (es : list (conversation_event S C)) c : Forall event_ok es → conversing c →
  conversing (conversation_run prog es c).
Proof.
  intros Hes. revert c. induction Hes as [|e es He _ IH]; intros c Hc; [done|]. by apply IH, conversing_step.
Qed.

(** What was heard was sent. *)
Lemma client_heard_sent c p : conversing c → p ∈ client_heard c → p ∈ sent_to_client c.
Proof.
  intros Hc Hp. eapply (m_genuine (H:=S) (ok:=ok)); [apply (sy_ok _ _ _ _ _ (cv_server _ Hc))|].
  eapply elem_of_prefix; [exact Hp|]. apply (cv_client_heard _ Hc).
Qed.

Lemma server_heard_sent c p : conversing c → p ∈ server_heard c → p ∈ sent_to_server c.
Proof.
  intros Hc Hp. eapply (m_genuine (H:=C) (ok:=ok)); [apply (sy_ok _ _ _ _ _ (cv_client _ Hc))|].
  eapply elem_of_prefix; [exact Hp|]. apply (cv_server_heard _ Hc).
Qed.

(** The client's packets answer what it heard, where there is nothing else it
    could say. *)
Lemma sent_answers c q : conversing c → q ∈ sent_to_server c → introduction prog ≠ Some q →
  ∃ p, p ∈ client_heard c ∧ client_answer prog p = Returns q.
Proof. intros Hc Hq Hne. by destruct (sy_origin _ _ _ _ _ (cv_client _ Hc) q Hq) as [[_ ?]|?]. Qed.
End Conversing.

(** ** Taking turns

    Over ordered media, a program whose client does not introduce itself is a
    strict exchange: only the side whose turn it is has anything to answer. *)

Section Turns.
Context {SP CP M : Type} `{S : Medium SP M} `{C : Medium CP M} {ok : M → Prop}.
Context {sayS : SP → Prop} {opS : m_op (Medium:=S) → Prop} `{!MediumLaws SP M sayS ok opS} `{!Apart S C sayS ok opS}.
Context {sayC : CP → Prop} {opC : m_op (Medium:=C) → Prop} `{!MediumLaws CP M sayC ok opC} `{!Apart C S sayC ok opC}.
Context `{HS : !OrderedMedium SP M ok} `{HC : !OrderedMedium CP M ok}.
Variable prog : Program SP CP.
Hypothesis Hspeak : speakable prog sayS sayC.
Hypothesis Hsilent : introduction prog = None.
Implicit Types (c : Conversation SP CP M).

Abbreviation conversing := (conversing (S:=S) (C:=C) (ok:=ok) prog).
Abbreviation event_ok := (event_ok (S:=S) (C:=C) (opS:=opS) (opC:=opC)).

(** The packet at each place answers the one the other side heard just before. *)
Record alternating c : Prop := {
  al_conversing : conversing c;
  al_idle : welcomed c = false → sent_to_client c = [] ∧ sent_to_server c = [];
  al_server k p : sent_to_client c !! k = Some p →
    match k with
    | O => p = welcome prog
    | Datatypes.S k => ∃ q, server_heard c !! k = Some q ∧ server_answer prog q = Returns p
    end;
  al_client k q : sent_to_server c !! k = Some q →
    ∃ p, client_heard c !! k = Some p ∧ client_answer prog p = Returns q;
}.

Lemma client_heard_prefix c : conversing c → client_heard c `prefix_of` sent_to_client c.
Proof.
  intros [Hs _ Hh _ _ _]. etrans; [exact Hh|]. exact (m_ordered (H:=S) _ (sy_ok _ _ _ _ _ Hs)).
Qed.

Lemma server_heard_prefix c : conversing c → server_heard c `prefix_of` sent_to_server c.
Proof.
  intros [_ Hs _ Hh _ _]. etrans; [exact Hh|]. exact (m_ordered (H:=C) _ (sy_ok _ _ _ _ _ Hs)).
Qed.

Lemma turn_lengths c : conversing c →
  (length (server_heard c) ≤ length (sent_to_server c) ≤ length (client_heard c) ∧
   length (client_heard c) ≤ length (sent_to_client c) ≤
     (if welcomed c then 1 else 0) + length (server_heard c))%nat.
Proof.
  intros Hc. pose proof (prefix_length _ _ (client_heard_prefix c Hc)).
  pose proof (prefix_length _ _ (server_heard_prefix c Hc)).
  unfold sent_to_client, sent_to_server in *. destruct Hc as [[_ _ H1] [_ _ H2] _ _ _ _]. rewrite Hsilent in H2. cbn in H1, H2. destruct (introduced c); lia.
Qed.

(** A packet accepted at its turn is the next one. *)
Lemma lookup_accepted {A} (l l' : list A) x k y : l' = l ∨ l' = l ++ [x] → l' !! k = Some y →
  l !! k = Some y ∨ k = length l ∧ y = x.
Proof.
  intros [->| ->] Hk; [by left|]. apply lookup_app_Some in Hk as [Hk|[Hge Hk]]; [by left|right].
  apply list_lookup_singleton_Some in Hk as [Hk ->]. split; [lia|done].
Qed.

Lemma lookup_heard_app {A} (l : list A) x k y : l !! k = Some y → (l ++ [x]) !! k = Some y.
Proof. apply lookup_app_l_Some. Qed.

(** A packet sent by one side. *)
Lemma accepts_S p m : ok m → sayS p →
  (m_accepted (Medium:=S) (m_send p m) = m_accepted m ∨ m_accepted (m_send p m) = m_accepted m ++ [p]) ∧
  m_accepted (Medium:=C) (m_send p m) = m_accepted m.
Proof. intros Hok Hp. by destruct (m_send_law p m Hok Hp) as (_ & _ & Ha), (apart_send p m Hok Hp). Qed.

Lemma accepts_C p m : ok m → sayC p →
  (m_accepted (Medium:=C) (m_send p m) = m_accepted m ∨ m_accepted (m_send p m) = m_accepted m ++ [p]) ∧
  m_accepted (Medium:=S) (m_send p m) = m_accepted m.
Proof. intros Hok Hp. by destruct (m_send_law p m Hok Hp) as (_ & _ & Ha), (apart_send p m Hok Hp). Qed.

Lemma conversing_ok c : conversing c → ok (link c).
Proof. intros Hc. exact (sy_ok _ _ _ _ _ (cv_server _ _ Hc)). Qed.

Lemma new_connection_alternates c : alternating c → conversing (on_new_connection prog c) →
  alternating (on_new_connection prog c).
Proof.
  intros [Hcv Hidle Hs Hc] Hcv'.
  destruct (accepts_S (welcome prog) (link c) (conversing_ok c Hcv) (speak_welcome _ _ _ Hspeak)) as [Hacc Hoth].
  split; [exact Hcv'|..]; clear Hcv'; unfold on_new_connection;
    destruct (server_runs c && negb (welcomed c)) eqn:Hb; try done; unfold sent_to_client, sent_to_server; cbn.
  - apply andb_true_iff in Hb as [_ Hb%negb_true_iff]. destruct (Hidle Hb) as [He _]. intros k p Hk.
    destruct (lookup_accepted _ _ _ _ _ Hacc Hk) as [Hk'|[-> ->]]; [by apply Hs|].
    unfold sent_to_client in He. by rewrite He.
  - by rewrite Hoth.
Qed.

Lemma client_observes_alternates c : alternating c → conversing (client_observes prog c) →
  alternating (client_observes prog c).
Proof.
  intros [Hcv Hidle Hs Hc] Hcv'. pose proof (turn_lengths c Hcv) as Hlen. pose proof (conversing_ok c Hcv) as Hok.
  unfold client_observes in *. destruct (client_runs c); [|by split].
  destruct (m_heard (Medium:=S) (link c) !! length (client_heard c)) as [p|] eqn:Hp; [|by split].
  assert (Hturn : (length (client_heard c) < length (sent_to_client c))%nat).
  { apply lookup_lt_Some in Hp. pose proof (prefix_length _ _ (m_ordered (H:=S) (link c) Hok)).
    unfold sent_to_client. lia. }
  assert (Hw : welcomed c = true).
  { destruct (welcomed c) eqn:Hw; [done|]. destruct (Hidle eq_refl) as [He _]. rewrite He in Hturn. cbn in Hturn. lia. }
  assert (Hold : ∀ k x, sent_to_server c !! k = Some x →
    ∃ y, (client_heard c ++ [p]) !! k = Some y ∧ client_answer prog y = Returns x).
  { intros k x Hk. destruct (Hc k x Hk) as (y & Hy & Ha). exists y. split; [by apply lookup_heard_app|done]. }
  destruct (client_answer prog p) as [q|] eqn:Hq; split; try exact Hcv'; cbn; try congruence; try done.
  - destruct (accepts_C q (link c) Hok (speak_client _ _ _ Hspeak p q Hq)) as [_ Hoth].
    unfold sent_to_client in *. cbn. by rewrite Hoth.
  - destruct (accepts_C q (link c) Hok (speak_client _ _ _ Hspeak p q Hq)) as [Hacc _]. intros k x Hk.
    destruct (lookup_accepted _ _ _ _ _ Hacc Hk) as [Hk'|[-> ->]]; [by apply Hold|].
    exists p. split; [|done]. apply list_lookup_middle. rewrite Hw in Hlen. unfold sent_to_server in *. lia.
Qed.

Lemma server_observes_alternates c : alternating c → conversing (server_observes prog c) →
  alternating (server_observes prog c).
Proof.
  intros [Hcv Hidle Hs Hc] Hcv'. pose proof (turn_lengths c Hcv) as Hlen. pose proof (conversing_ok c Hcv) as Hok.
  unfold server_observes in *. destruct (server_runs c); [|by split].
  destruct (m_heard (Medium:=C) (link c) !! length (server_heard c)) as [p|] eqn:Hp; [|by split].
  assert (Hturn : (length (server_heard c) < length (sent_to_server c))%nat).
  { apply lookup_lt_Some in Hp. pose proof (prefix_length _ _ (m_ordered (H:=C) (link c) Hok)).
    unfold sent_to_server. lia. }
  assert (Hw : welcomed c = true).
  { destruct (welcomed c) eqn:Hw; [done|]. destruct (Hidle eq_refl) as [_ He]. rewrite He in Hturn. cbn in Hturn. lia. }
  assert (Hold : ∀ k x, sent_to_client c !! k = Some x →
    match k with O => x = welcome prog
    | Datatypes.S k => ∃ q, (server_heard c ++ [p]) !! k = Some q ∧ server_answer prog q = Returns x end).
  { intros [|k] x Hk; [by apply (Hs 0%nat)|]. destruct (Hs _ _ Hk) as (y & Hy & Ha).
    exists y. split; [by apply lookup_heard_app|done]. }
  destruct (server_answer prog p) as [q|] eqn:Hq; split; try exact Hcv'; cbn; try congruence; try done.
  - destruct (accepts_S q (link c) Hok (speak_server _ _ _ Hspeak p q Hq)) as [Hacc _]. intros k x Hk.
    destruct (lookup_accepted _ _ _ _ _ Hacc Hk) as [Hk'|[-> ->]]; [by apply Hold|].
    rewrite Hw in Hlen. unfold sent_to_client in *.
    assert (length (m_accepted (Medium:=S) (link c)) = Datatypes.S (length (server_heard c))) as -> by lia.
    exists p. split; [|done]. by apply list_lookup_middle.
  - destruct (accepts_S q (link c) Hok (speak_server _ _ _ Hspeak p q Hq)) as [_ Hoth].
    unfold sent_to_server in *. cbn. by rewrite Hoth.
Qed.

Lemma alternating_step c (e : conversation_event S C) : event_ok e → alternating c →
  alternating (conversation_step prog c e).
Proof.
  intros He Hal. pose proof Hal as [Hcv Hidle Hs Hc].
  pose proof (conversing_step prog Hspeak c e He Hcv) as Hcv'. pose proof (conversing_ok c Hcv) as Hok.
  destruct e as [| | | |o|o]; cbn [conversation_step] in *.
  - by apply new_connection_alternates.
  - split; [exact Hcv'|..]; unfold on_established; rewrite Hsilent; by destruct (_ && _).
  - by apply client_observes_alternates.
  - by apply server_observes_alternates.
  - destruct (m_do_law (H:=S) o (link c) Hok He) as (_ & Ha & _), (apart_do o _ Hok He) as [Ha' _].
    split; [exact Hcv'|..]; unfold sent_to_client, sent_to_server in *; cbn; by rewrite ?Ha, ?Ha'.
  - destruct (m_do_law (H:=C) o (link c) Hok He) as (_ & Ha & _), (apart_do o _ Hok He) as [Ha' _].
    split; [exact Hcv'|..]; unfold sent_to_client, sent_to_server in *; cbn; by rewrite ?Ha, ?Ha'.
Qed.

Lemma alternating_run (es : list (conversation_event S C)) m :
  Forall event_ok es → fresh_link (S:=S) (C:=C) (ok:=ok) m →
  alternating (conversation_run prog es (conversation_start m)).
Proof.
  intros Hes Hf. assert (Hstart : alternating (conversation_start m)).
  { pose proof (fresh_conversing prog m Hf) as Hcv. destruct Hf as (_ & Htc & Hts).
    split; [exact Hcv|done|..]; unfold sent_to_client, sent_to_server; cbn; intros k p; by rewrite ?Htc, ?Hts. }
  revert Hstart. generalize (conversation_start m : Conversation SP CP M).
  induction Hes as [|e es He _ IH]; intros c Hc; [done|]. by apply IH, alternating_step.
Qed.

(** What the two sides heard: each packet answers the last one the other heard, and
    neither side is ahead by more than the packet that is under way. *)
Lemma turns_heard c : alternating c →
  (∀ k p, client_heard c !! k = Some p →
    match k with
    | O => p = welcome prog
    | Datatypes.S k => ∃ q, server_heard c !! k = Some q ∧ server_answer prog q = Returns p
    end) ∧
  (∀ k q, server_heard c !! k = Some q → ∃ p, client_heard c !! k = Some p ∧ client_answer prog p = Returns q) ∧
  (length (server_heard c) ≤ length (client_heard c) ≤ Datatypes.S (length (server_heard c)) ∧
   length (sent_to_client c) + length (sent_to_server c) ≤
     Datatypes.S (length (client_heard c) + length (server_heard c)))%nat.
Proof.
  intros [Hcv _ Hs Hc]. pose proof (turn_lengths c Hcv) as Hlen. split_and!.
  - intros k p Hk. apply Hs. eapply prefix_lookup_Some; [exact Hk|by apply client_heard_prefix].
  - intros k q Hk. apply Hc. eapply prefix_lookup_Some; [exact Hk|by apply server_heard_prefix].
  - destruct (welcomed c); lia.
  - destruct (welcomed c); lia.
  - destruct (welcomed c); lia.
Qed.

(** When the answers never vary, so does the conversation. *)
Lemma greetings_heard c a b : alternating c →
  (∀ p, client_answer prog p = Returns a) → (∀ q, server_answer prog q = Returns b) →
  client_heard c `prefix_of` welcome prog :: replicate (length (server_heard c)) b ∧
  server_heard c = replicate (length (server_heard c)) a.
Proof.
  intros Hal Ha Hb. destruct (turns_heard c Hal) as (Hch & Hsh & [_ Hlen] & _).
  assert (Hreps : server_heard c = replicate (length (server_heard c)) a).
  { symmetry. apply replicate_as_elem_of. split; [done|]. intros x [k Hk]%list_elem_of_lookup.
    destruct (Hsh k x Hk) as (p & _ & Hx). rewrite Ha in Hx. by simplify_eq. }
  split; [|exact Hreps]. destruct (client_heard c) as [|p ps] eqn:He; [apply prefix_nil|].
  pose proof (Hch 0%nat p eq_refl) as ->. apply prefix_cons. cbn in Hlen.
  assert (ps = replicate (length ps) b) as ->.
  { symmetry. apply replicate_as_elem_of. split; [done|]. intros x [k Hk]%list_elem_of_lookup.
    destruct (Hch (Datatypes.S k) x Hk) as (q & _ & Hx). rewrite Hb in Hx. by simplify_eq. }
  exists (replicate (length (server_heard c) - length ps) b). rewrite <- replicate_add. f_equal. lia.
Qed.
End Turns.
