(* ===== verification/StreamMedium.v ===== *)
(** * The stream connection as a medium

    The end-to-end stream connection of [Pipeline] is an ordered medium in the
    sense of [Conversation]. *)

From S2P Require Import Prelude Protocol Lossy Externals Settings Queue Serializer Codec Framing Peer UdpStream Connection Tasks Receive Pipeline Conversation.

Local Open Scope Z_scope.

Section Streams.
Context `{Target} {L : Type} `{CancellationToken L} {Ch : Type → Type} `{MpscLaws Ch}.
Context {Hd : Type} `{TransportHandle Hd}.
Context {LS} `{PacketLengthSerializer LS} `{!PrefixCodec LS} `{Display ls_error}.
Context {S1 S2 P Q : Type} `{Out : Serializer S1 Q P} `{Inc : Serializer S2 P Q}.
Context {E D Addr store : Type}.
Context {sendable : P → Prop} {max_payload : Z} {synced : S1 → S2 → Prop}
  `{!SerializerPair Out Inc sendable max_payload synced}.

Variable ls : LS.
Variable connection : ConnectionId.
Variable closed_event : ReceiveError (DecodeError (Serializer:=Inc)) (ls_error (LS:=LS)) → D.
Variable on_evict : PacketReceiveEvent P → store → store.
Variable record_full : store → store.
Variable notify : option Addr.

Abbreviation pipe := (Pipe (L:=L) (Ch:=Ch) (Hd:=Hd) (LS:=LS) (S1:=S1) (S2:=S2) (P:=P) (Inc:=Inc)
  (E:=E) (D:=D) (Addr:=Addr) (store:=store)).

Definition pipe_medium : Medium P pipe := {|
  m_op := pipe_op (Ch:=Ch) (LS:=LS) (P:=P) (Inc:=Inc) (E:=E) (D:=D) (Addr:=Addr) (store:=store);
  m_do o s := pipe_step ls connection closed_event on_evict record_full notify s o;
  m_send := pipe_send;
  m_accepted := accepted;
  m_heard s := event_packet <$> forwarded (receiver s);
|}.

(** Only the application sends. *)
Definition pipe_op_ok (o : m_op (Medium:=pipe_medium)) : Prop :=
  match o with
  | PipeSend _ => False
  | _ => Pipeline.allowed (sendable:=sendable) (max_payload:=max_payload) o
  end.

Abbreviation ok := (Pipeline.pipe_inv (sendable:=sendable) (max_payload:=max_payload) (synced:=synced)
  ls connection closed_event).

Hypothesis Hsize : (0 < SIZE (LS:=LS))%nat.
Hypothesis Hmax : max_payload ≤ usize_max.

Lemma finish_accepted (t : SendTask Ch Hd P) w enc (s : pipe) : accepted (finish t w enc s) = accepted s.
Proof. unfold finish. by destruct (receiver_drop _ _ _). Qed.

Lemma pipe_write_accepted (s : pipe) : accepted (pipe_write ls s) = accepted s.
Proof.
  unfold pipe_write. destruct (stopped s); [done|]. destruct (take_next _ _) as [t []]; cbn.
  - apply finish_accepted.
  - done.
  - destruct (current t); [|done]. destruct (framed_send _ _ _ _) as [[w enc] [[u|e]|]]; [done|apply finish_accepted..].
Qed.

Lemma pipe_do_accepted (o : m_op (Medium:=pipe_medium)) (s : pipe) : ok s → pipe_op_ok o →
  accepted (m_do (Medium:=pipe_medium) o s) = accepted s.
Proof.
  intros Hinv Ho. destruct o as [p| | |n|f|limit now eof p]; cbn in *; try done.
  - apply pipe_write_accepted.
  - unfold pipe_disconnect. cbn. destruct (stopped s); [done|]. by rewrite finish_accepted.
  - destruct Ho as [Hlim Hp].
    apply (pipe_poll_inv ls connection closed_event on_evict record_full notify Hsize Hmax limit now eof p s Hlim Hp Hinv).
Qed.

(** A stream connection is an ordered medium. *)
Lemma pipe_medium_laws : MediumLaws P pipe (H:=pipe_medium) sendable ok pipe_op_ok.
Proof.
  assert (Hstep : ∀ o (s : pipe), ok s → Pipeline.allowed (sendable:=sendable) (max_payload:=max_payload) o →
    ok (pipe_step ls connection closed_event on_evict record_full notify s o) ∧
    event_packet <$> forwarded (receiver s) `prefix_of`
    event_packet <$> forwarded (receiver (pipe_step ls connection closed_event on_evict record_full notify s o))).
  { intros o s Hinv Ho.
    destruct (pipe_step_inv (Out:=Out) ls connection closed_event on_evict record_full notify Hsize Hmax s o Ho Hinv)
      as (Hinv' & _ & new & [_ [more Hf] _]).
    split; [done|]. rewrite Hf, fmap_app. by apply prefix_app_r. }
  split.
  - intros p s Hinv Hp. destruct (Hstep (PipeSend p) s Hinv Hp) as [Hinv' _]. split; [exact Hinv'|].
    cbn. unfold pipe_send, send. cbn. destruct (token_is_cancelled _); [by split; [|left]|].
    destruct (sender_try_send _ _ _) as [[q h] [u|e]]; (split; [done|]); [by right|by left].
  - intros o s Hinv Ho.
    assert (Hal : Pipeline.allowed (sendable:=sendable) (max_payload:=max_payload) o) by by destruct o.
    destruct (Hstep o s Hinv Hal). split; [done|]. split; [by apply pipe_do_accepted|done].
  - intros s p Hinv Hp. eapply elem_of_prefix; [exact Hp|]. by eapply delivered_accepted.
Qed.

Lemma pipe_medium_ordered : OrderedMedium P pipe (H:=pipe_medium) ok.
Proof. intros s Hinv. by eapply delivered_accepted. Qed.
End Streams.
