(* ===== verification/Duplex.v ===== *)
(** * Both directions of a stream connection

    [Pipeline] runs one direction of a connection and keeps a serializer for each of
    its ends. Here the two directions of a connection share them: each end has one
    serializer, [RawConnection::serializer], which its send task encodes with and its
    receive task decodes with. The two directions together are media in the sense of
    [Conversation]. *)

From S2P Require Import Prelude Protocol Lossy Externals Settings Queue Serializer Codec Framing Peer UdpStream Connection Tasks Receive Pipeline Conversation StreamMedium.

Local Open Scope Z_scope.

(** ** What a direction does to the serializers *)

Section Codecs.
Context `{Target} {L : Type} `{CancellationToken L} {Ch : Type → Type} `{Mpsc Ch}.
Context {Hd : Type} `{TransportHandle Hd}.
Context {LS} `{PacketLengthSerializer LS} `{Display ls_error}.
Context {S1 S2 P Q : Type} `{Out : Serializer S1 Q P} `{Inc : Serializer S2 P Q}.
Context {E D Addr store : Type}.

Variable ls : LS.
Variable connection : ConnectionId.
Variable closed_event : ReceiveError (DecodeError (Serializer:=Inc)) (ls_error (LS:=LS)) → D.
Variable on_evict : PacketReceiveEvent P → store → store.
Variable record_full : store → store.
Variable notify : option Addr.

Abbreviation pipe := (Pipe (L:=L) (Ch:=Ch) (Hd:=Hd) (LS:=LS) (S1:=S1) (S2:=S2) (P:=P) (Inc:=Inc)
  (E:=E) (D:=D) (Addr:=Addr) (store:=store)).
Abbreviation step := (pipe_step ls connection closed_event on_evict record_full notify).
Implicit Types (s : pipe).

(** The direction with the serializers as its two ends have them now. *)
Definition load (enc : S1) (dec : S2) s : pipe :=
  {| cancel_token := cancel_token s; sender := sender s; stopped := stopped s; writer := writer s;
     encoder := enc; reader := reader s; decoder := dec; receiver := receiver s; accepted := accepted s |}.

Lemma load_same s : load (encoder s) (decoder s) s = s.
Proof. by destruct s. Qed.

Lemma framed_send_encodes (p : P) (w w' : FramedWriter NetSink) (enc enc' : S1) res :
  framed_send ls p w enc = (w', enc', res) → ∃ r, serialize p enc = (enc', r).
Proof.
  unfold framed_send. destruct (serialize p enc) as [enc1 [[payload|e]|]]; [|intros [= <- <- <-]; by eexists..].
  destruct (serialize_packet_length ls _); [|intros [= <- <- <-]; by eexists].
  destruct (write_all _ _). intros [= <- <- <-]. by eexists.
Qed.

Lemma receive_decodes fuel limit (now : Z) (f f' : FramedReader (list Z)) (d d' : S2) res :
  receive_with_timestamp fuel ls limit now f d = Some (f', d', res) →
  d' = d ∨ ∃ bs r, deserialize bs d = (d', r).
Proof.
  unfold receive_with_timestamp. destruct (read_length _ _ _) as [[f1 [len|e]]|]; [|intros [= <- <- <-]; by left|done].
  destruct (limit <? len); [intros [= <- <- <-]; by left|].
  destruct (read_exact _ _) as [r [payload|e]]; [|intros [= <- <- <-]; by left].
  destruct (deserialize payload d) as [d1 res1] eqn:Hde. intros He. right. exists payload, res1. rewrite Hde.
  by destruct res1 as [[q|e]|]; simplify_eq.
Qed.

(** A step encodes at most one packet at one end and decodes at most one payload at
    the other. *)
Lemma step_encoder s o : encoder (step s o) = encoder s ∨ ∃ (p : P) r, serialize p (encoder s) = (encoder (step s o), r).
Proof.
  assert (Hfin : ∀ (t : SendTask Ch Hd P) w enc, encoder (finish t w enc s) = enc).
  { intros. unfold finish. by destruct (receiver_drop _ _ _). }
  destruct o as [p| | |n|f|limit now eof p]; cbn [pipe_step]; try by left.
  - left. unfold pipe_send. by destruct (send _ _).
  - unfold pipe_write. destruct (stopped s); [by left|]. destruct (take_next _ _) as [t []]; [by left; rewrite Hfin|by left|].
    destruct (current t) as [p|]; [|by left]. destruct (framed_send ls p _ _) as [[w enc] res] eqn:Hs.
    apply framed_send_encodes in Hs as [r Hs]. right. exists p, r. rewrite Hs. f_equal.
    by destruct res as [[u|e]|]; rewrite ?Hfin.
  - left. unfold pipe_disconnect. cbn. destruct (stopped s); [done|]. unfold finish. by destruct (receiver_drop _ _ _).
  - left. unfold pipe_poll. destruct (at_ (receiver s)); try done. destruct (_ || _); [done|].
    destruct (receive_with_timestamp _ _ _ _ _ _) as [[[r dec] res]|]; [|done].
    destruct (starved eof res); [done|]. by destruct res.
Qed.

Lemma step_decoder s o : decoder (step s o) = decoder s ∨ ∃ bs r, deserialize bs (decoder s) = (decoder (step s o), r).
Proof.
  assert (Hfin : ∀ (t : SendTask Ch Hd P) w enc, decoder (finish t w enc s) = decoder s).
  { intros. unfold finish. by destruct (receiver_drop _ _ _). }
  destruct o as [p| | |n|f|limit now eof p]; cbn [pipe_step]; try by left.
  - left. unfold pipe_send. by destruct (send _ _).
  - left. unfold pipe_write. destruct (stopped s); [done|]. destruct (take_next _ _) as [t []]; [apply Hfin|done|].
    destruct (current t) as [p|]; [|done]. by destruct (framed_send ls p _ _) as [[w enc] [[u|e]|]]; rewrite ?Hfin.
  - left. unfold pipe_disconnect. cbn. destruct (stopped s); [done|]. unfold finish. by destruct (receiver_drop _ _ _).
  - unfold pipe_poll. destruct (at_ (receiver s)); try by left. destruct (_ || _); [by left|].
    destruct (receive_with_timestamp _ _ _ _ _ _) as [[[r dec] res]|] eqn:Hr; [|by left].
    destruct (starved eof res); [by left|]. destruct res; [|by left]. cbn. by eapply receive_decodes.
Qed.
End Codecs.

(** ** A direction under the traffic of the other *)

Section UnderTraffic.
Context `{Target} {L : Type} `{CancellationToken L} {Ch : Type → Type} `{MpscLaws Ch}.
Context {Hd : Type} `{TransportHandle Hd}.
Context {LS} `{PacketLengthSerializer LS} `{!PrefixCodec LS} `{Display ls_error}.
Context {S1 S2 P Q : Type} `{Out : Serializer S1 Q P} `{Inc : Serializer S2 P Q}.
Context {E D Addr store : Type}.
Context {sendable : P → Prop} {max_payload : Z} {synced : S1 → S2 → Prop}
  `{!SerializerPair Out Inc sendable max_payload synced} `{!SharedSerializer Out Inc synced}.

Variable ls : LS.
Variable connection : ConnectionId.
Variable closed_event : ReceiveError (DecodeError (Serializer:=Inc)) (ls_error (LS:=LS)) → D.

Abbreviation pipe := (Pipe (L:=L) (Ch:=Ch) (Hd:=Hd) (LS:=LS) (S1:=S1) (S2:=S2) (P:=P) (Inc:=Inc)
  (E:=E) (D:=D) (Addr:=Addr) (store:=store)).
Abbreviation ok := (Pipeline.pipe_inv (sendable:=sendable) (max_payload:=max_payload) (synced:=synced)
  ls connection closed_event).
Implicit Types (s : pipe).

(** What a direction needs is kept when the end that sends has decoded and the end
    that receives has encoded. *)
Lemma carries_encode (q : Q) d d' r (unread : list P) bytes last :
  carries (max_payload:=max_payload) ls d unread bytes last → serialize q d = (d', r) →
  ∃ last' r', carries (max_payload:=max_payload) ls d' unread bytes last' ∧ serialize q last = (last', r').
Proof.
  intros Hc. revert d' r. induction Hc as [d|d d1 last p ps payload frame bytes Hf Hm Hde _ IH]; intros d' r Hs.
  - exists d', r. split; [constructor|done].
  - destruct (shared_commute q payload p d d' d1 r Hs Hde) as (d2 & r2 & Hs2 & Hd2).
    destruct (IH _ _ Hs2) as (last' & r' & Hc' & Hl). exists last', r'. split; [by econstructor|done].
Qed.

Lemma load_inv enc dec s :
  (∀ unread tail, wire (max_payload:=max_payload) (synced:=synced) ls s unread tail →
     wire (max_payload:=max_payload) (synced:=synced) ls (load enc dec s) unread tail) →
  ok s → ok (load enc dec s).
Proof.
  intros Hw [Ht Hs Hk (rest & Ha & Hr)]. split; try done. exists rest. split; [done|]. intros Hrd.
  destruct (Hr Hrd) as (unread & tail & Heq & Hwire). exists unread, tail. split; [done|by apply Hw].
Qed.

Lemma sender_decodes bs enc r s : deserialize bs (encoder s) = (enc, r) → ok s → ok (load enc (decoder s) s).
Proof.
  intros Hde. apply load_inv. intros unread tail (bytes & part & d & ? & ? & ? & Hlive). exists bytes, part, d.
  split_and!; try done. intros Hst. destruct (Hlive Hst) as (? & ? & ?). split_and!; try done.
  by eapply shared_sender.
Qed.

Lemma receiver_encodes (q : Q) dec r s : serialize q (decoder s) = (dec, r) → ok s → ok (load (encoder s) dec s).
Proof.
  intros Hs. apply load_inv. intros unread tail (bytes & part & d & Hc & ? & ? & Hlive).
  destruct (carries_encode q _ _ _ _ _ _ Hc Hs) as (d' & r' & Hc' & Hs'). exists bytes, part, d'.
  split_and!; try done. intros Hst. destruct (Hlive Hst) as (? & ? & ?). split_and!; try done.
  by eapply shared_receiver.
Qed.

Lemma traffic_keeps enc enc' dec dec' s :
  (enc' = enc ∨ ∃ bs r, deserialize bs enc = (enc', r)) → (dec' = dec ∨ ∃ (q : Q) r, serialize q dec = (dec', r)) →
  ok (load enc dec s) → ok (load enc' dec' s).
Proof.
  intros He Hde Hok. assert (Hok' : ok (load enc' dec s)).
  { destruct He as [->|(bs & r & He)]; [done|]. by apply (sender_decodes bs enc' r (load enc dec s)). }
  destruct Hde as [->|(q & r & Hs)]; [done|]. by apply (receiver_encodes q dec' r (load enc' dec s)).
Qed.
End UnderTraffic.

(** ** The connection *)

Section Duplex.
Context `{Target} {L : Type} `{CancellationToken L} {Ch : Type → Type} `{Mpsc Ch}.
Context {Hd : Type} `{TransportHandle Hd}.
Context {LS} `{PacketLengthSerializer LS} `{Display ls_error}.
(** The server sends [P] and the client [Q]. *)
Context {S1 S2 P Q : Type} `{Server : Serializer S1 Q P} `{Client : Serializer S2 P Q}.

(** What the receiving ends are made of, the client's and the server's. *)
Context {EC DC AddrC storeC ES DS AddrS storeS : Type}.
Variable ls : LS.
Variables (client_id server_id : ConnectionId).
Variable client_closed : ReceiveError (DecodeError (Serializer:=Client)) (ls_error (LS:=LS)) → DC.
Variable server_closed : ReceiveError (DecodeError (Serializer:=Server)) (ls_error (LS:=LS)) → DS.
Variable client_evict : PacketReceiveEvent P → storeC → storeC.
Variable server_evict : PacketReceiveEvent Q → storeS → storeS.
Variables (client_full : storeC → storeC) (server_full : storeS → storeS).
Variables (client_notify : option AddrC) (server_notify : option AddrS).

Abbreviation down_pipe := (Pipe (L:=L) (Ch:=Ch) (Hd:=Hd) (LS:=LS) (S1:=S1) (S2:=S2) (P:=P) (Inc:=Client)
  (E:=EC) (D:=DC) (Addr:=AddrC) (store:=storeC)).
Abbreviation up_pipe := (Pipe (L:=L) (Ch:=Ch) (Hd:=Hd) (LS:=LS) (S1:=S2) (S2:=S1) (P:=Q) (Inc:=Server)
  (E:=ES) (D:=DS) (Addr:=AddrS) (store:=storeS)).

(** The serializer of each end, and the two directions; the serializers these hold
    are those of their last step. *)
Record Link := {
  server_codec : S1;
  client_codec : S2;
  down : down_pipe;
  up : up_pipe;
}.
Implicit Types (l : Link).

(** The two directions, with the serializers as they are. *)
Definition down_now l : down_pipe := load (server_codec l) (client_codec l) (down l).
Definition up_now l : up_pipe := load (client_codec l) (server_codec l) (up l).

(** A direction has taken a step. *)
Definition after_down (s : down_pipe) l : Link :=
  {| server_codec := encoder s; client_codec := decoder s; down := s; up := up l |}.
Definition after_up (s : up_pipe) l : Link :=
  {| server_codec := decoder s; client_codec := encoder s; down := down l; up := s |}.

Definition down_medium : Medium P Link := {|
  m_op := pipe_op (Ch:=Ch) (LS:=LS) (P:=P) (Inc:=Client) (E:=EC) (D:=DC) (Addr:=AddrC) (store:=storeC);
  m_do o l := after_down (pipe_step ls client_id client_closed client_evict client_full client_notify (down_now l) o) l;
  m_send p l := after_down (pipe_send p (down_now l)) l;
  m_accepted l := accepted (down l);
  m_heard l := event_packet <$> forwarded (receiver (down l));
|}.

Definition up_medium : Medium Q Link := {|
  m_op := pipe_op (Ch:=Ch) (LS:=LS) (P:=Q) (Inc:=Server) (E:=ES) (D:=DS) (Addr:=AddrS) (store:=storeS);
  m_do o l := after_up (pipe_step ls server_id server_closed server_evict server_full server_notify (up_now l) o) l;
  m_send q l := after_up (pipe_send q (up_now l)) l;
  m_accepted l := accepted (up l);
  m_heard l := event_packet <$> forwarded (receiver (up l));
|}.

(** A new connection: each end builds its serializer. *)
Definition link_start (server_codec : S1) (client_codec : S2)
    (capacityS : Z) (tokenS : L) (hS : Hd) (incomingC : Ch (IncomingMessage P EC DC))
    (datagramsC : Shared (PacketReceiveEvent P)) (disconnectsC : Ch AddrC) (handlesC : storeC)
    (capacityC : Z) (tokenC : L) (hC : Hd) (incomingS : Ch (IncomingMessage Q ES DS))
    (datagramsS : Shared (PacketReceiveEvent Q)) (disconnectsS : Ch AddrS) (handlesS : storeS) : Link := {|
  server_codec := server_codec;
  client_codec := client_codec;
  down := pipe_start client_id client_closed client_evict client_full client_notify capacityS tokenS hS
            server_codec client_codec incomingC datagramsC disconnectsC handlesC;
  up := pipe_start server_id server_closed server_evict server_full server_notify capacityC tokenC hC
          client_codec server_codec incomingS datagramsS disconnectsS handlesS;
|}.
End Duplex.

(** ** It is two ordered media *)

Section DuplexLaws.
Context `{Target} {L : Type} `{CancellationToken L} {Ch : Type → Type} `{MpscLaws Ch}.
Context {Hd : Type} `{TransportHandle Hd}.
Context {LS} `{PacketLengthSerializer LS} `{!PrefixCodec LS} `{Display ls_error}.
Context {S1 S2 P Q : Type} `{Server : Serializer S1 Q P} `{Client : Serializer S2 P Q}.
Context {sayP : P → Prop} {sayQ : Q → Prop} {max_payload : Z} {synced : S1 → S2 → Prop} {synced' : S2 → S1 → Prop}
  `{!SerializerPair Server Client sayP max_payload synced} `{!SharedSerializer Server Client synced}
  `{!SerializerPair Client Server sayQ max_payload synced'} `{!SharedSerializer Client Server synced'}.
Context {EC DC AddrC storeC ES DS AddrS storeS : Type}.
Variable ls : LS.
Variables (client_id server_id : ConnectionId).
Variable client_closed : ReceiveError (DecodeError (Serializer:=Client)) (ls_error (LS:=LS)) → DC.
Variable server_closed : ReceiveError (DecodeError (Serializer:=Server)) (ls_error (LS:=LS)) → DS.
Variable client_evict : PacketReceiveEvent P → storeC → storeC.
Variable server_evict : PacketReceiveEvent Q → storeS → storeS.
Variables (client_full : storeC → storeC) (server_full : storeS → storeS).
Variables (client_notify : option AddrC) (server_notify : option AddrS).
Hypothesis Hsize : (0 < SIZE (LS:=LS))%nat.
Hypothesis Hmax : max_payload ≤ usize_max.

Abbreviation link := (Link (L:=L) (Ch:=Ch) (Hd:=Hd) (LS:=LS) (S1:=S1) (S2:=S2) (Server:=Server) (Client:=Client)
  (EC:=EC) (DC:=DC) (AddrC:=AddrC) (storeC:=storeC) (ES:=ES) (DS:=DS) (AddrS:=AddrS) (storeS:=storeS)).
Implicit Types (l : link).

Abbreviation to_client := (down_medium (L:=L) (Hd:=Hd) (ES:=ES) (DS:=DS) (AddrS:=AddrS) (storeS:=storeS) (Server:=Server)
  ls client_id client_closed client_evict client_full client_notify : Medium P link).
Abbreviation to_server := (up_medium (L:=L) (Hd:=Hd) (EC:=EC) (DC:=DC) (AddrC:=AddrC) (storeC:=storeC) (Client:=Client)
  ls server_id server_closed server_evict server_full server_notify : Medium Q link).

Abbreviation down_ok := (Pipeline.pipe_inv (Inc:=Client) (sendable:=sayP) (max_payload:=max_payload) (synced:=synced)
  ls client_id client_closed).
Abbreviation up_ok := (Pipeline.pipe_inv (Inc:=Server) (sendable:=sayQ) (max_payload:=max_payload) (synced:=synced')
  ls server_id server_closed).

Definition link_ok l : Prop := down_ok (down_now l) ∧ up_ok (up_now l).

(** The steps of either direction. *)
Lemma down_keeps (o : m_op (Medium:=to_client)) l :
  down_ok (m_do (Medium:=pipe_medium (Out:=Server) ls client_id client_closed client_evict client_full client_notify) o (down_now l)) →
  up_ok (up_now l) → link_ok (m_do (Medium:=to_client) o l).
Proof.
  intros Hdown Hup. split.
  - unfold down_now. cbn. by rewrite load_same.
  - apply (traffic_keeps (Out:=Client) (Inc:=Server) ls server_id server_closed (client_codec l) _ (server_codec l)); [..|exact Hup].
    + apply (step_decoder ls client_id client_closed client_evict client_full client_notify (down_now l) o).
    + apply (step_encoder ls client_id client_closed client_evict client_full client_notify (down_now l) o).
Qed.

Lemma up_keeps (o : m_op (Medium:=to_server)) l :
  up_ok (m_do (Medium:=pipe_medium (Out:=Client) ls server_id server_closed server_evict server_full server_notify) o (up_now l)) →
  down_ok (down_now l) → link_ok (m_do (Medium:=to_server) o l).
Proof.
  intros Hup Hdown. split.
  - apply (traffic_keeps (Out:=Server) (Inc:=Client) ls client_id client_closed (server_codec l) _ (client_codec l)); [..|exact Hdown].
    + apply (step_decoder ls server_id server_closed server_evict server_full server_notify (up_now l) o).
    + apply (step_encoder ls server_id server_closed server_evict server_full server_notify (up_now l) o).
  - unfold up_now. cbn. by rewrite load_same.
Qed.

(** What may happen to a direction. *)
Definition down_allowed : m_op (Medium:=to_client) → Prop :=
  pipe_op_ok (Out:=Server) (sendable:=sayP) (max_payload:=max_payload) ls client_id client_closed client_evict client_full client_notify.
Definition up_allowed : m_op (Medium:=to_server) → Prop :=
  pipe_op_ok (Out:=Client) (sendable:=sayQ) (max_payload:=max_payload) ls server_id server_closed server_evict server_full server_notify.

Lemma down_laws : MediumLaws P link (H:=to_client) sayP link_ok down_allowed.
Proof.
  pose proof (pipe_medium_laws (L:=L) (Ch:=Ch) (Hd:=Hd) (E:=EC) (Out:=Server) ls client_id client_closed client_evict client_full client_notify Hsize Hmax) as Hlaws.
  split.
  - intros p l [Hdown Hup] Hp. destruct (m_send_law (MediumLaws:=Hlaws) p (down_now l) Hdown Hp) as (Hok & Hh & Ha).
    split; [exact (down_keeps (PipeSend p) l Hok Hup)|by split].
  - intros o l [Hdown Hup] Ho. destruct (m_do_law (MediumLaws:=Hlaws) o (down_now l) Hdown Ho) as (Hok & Ha & Hh).
    split; [exact (down_keeps o l Hok Hup)|by split].
  - intros l p [Hdown _]. exact (m_genuine (MediumLaws:=Hlaws) (down_now l) p Hdown).
Qed.

Lemma up_laws : MediumLaws Q link (H:=to_server) sayQ link_ok up_allowed.
Proof.
  pose proof (pipe_medium_laws (L:=L) (Ch:=Ch) (Hd:=Hd) (E:=ES) (Out:=Client) ls server_id server_closed server_evict server_full server_notify Hsize Hmax) as Hlaws.
  split.
  - intros q l [Hdown Hup] Hq. destruct (m_send_law (MediumLaws:=Hlaws) q (up_now l) Hup Hq) as (Hok & Hh & Ha).
    split; [exact (up_keeps (PipeSend q) l Hok Hdown)|by split].
  - intros o l [Hdown Hup] Ho. destruct (m_do_law (MediumLaws:=Hlaws) o (up_now l) Hup Ho) as (Hok & Ha & Hh).
    split; [exact (up_keeps o l Hok Hdown)|by split].
  - intros l q [_ Hup]. exact (m_genuine (MediumLaws:=Hlaws) (up_now l) q Hup).
Qed.

Lemma down_apart : Apart to_client to_server sayP link_ok down_allowed.
Proof. by split. Qed.
Lemma up_apart : Apart to_server to_client sayQ link_ok up_allowed.
Proof. by split. Qed.

Lemma down_ordered : OrderedMedium P link (H:=to_client) link_ok.
Proof.
  intros l [Hdown _]. exact (pipe_medium_ordered (Out:=Server) ls client_id client_closed client_evict client_full client_notify (down_now l) Hdown).
Qed.

Lemma up_ordered : OrderedMedium Q link (H:=to_server) link_ok.
Proof.
  intros l [_ Hup]. exact (pipe_medium_ordered (Out:=Client) ls server_id server_closed server_evict server_full server_notify (up_now l) Hup).
Qed.

Lemma link_start_fresh server_codec client_codec capS tokenS hS incomingC datagramsC disconnectsC handlesC
    capC tokenC hC incomingS datagramsS disconnectsS handlesS :
  synced server_codec client_codec → synced' client_codec server_codec → 0 < capS → 0 < capC →
  fresh_link (S:=to_client) (C:=to_server) (ok:=link_ok)
    (link_start client_id server_id client_closed server_closed client_evict server_evict client_full server_full
       client_notify server_notify server_codec client_codec capS tokenS hS incomingC datagramsC disconnectsC handlesC
       capC tokenC hC incomingS datagramsS disconnectsS handlesS).
Proof.
  intros Hs Hs' HcS HcC. split; [|by split]. split.
  - by apply (pipe_start_inv (Inc:=Client) ls client_id client_closed client_evict client_full client_notify).
  - by apply (pipe_start_inv (Inc:=Server) ls server_id server_closed server_evict server_full server_notify).
Qed.
End DuplexLaws.
