(* ===== verification/DatagramMedium.v ===== *)
(** * The datagram connection as a medium

    The end-to-end datagram connection of [Datagrams] is a medium in the sense of
    [Conversation]: what it hands to ECS was sent, though perhaps not once, not
    all and not in order. *)

From S2P Require Import Prelude Protocol Lossy Externals Settings Queue Serializer Peer UdpStream Connection Tasks Receive Datagrams Conversation.

Local Open Scope Z_scope.

(** ** What the specification delivers only grows *)

Section Spec.
Context {P : Type}.
Implicit Types (a : dchannel P).

Lemma dchannel_step_heard a a' : d_inv a → dchannel_step a a' → d_packets a `prefix_of` d_packets a'.
Proof.
  intros [_ Harr Hix] Hs. unfold d_packets.
  assert (Hdel : Forall (λ i, (i < length (d_transmitted a))%nat) (d_delivered a)).
  { eapply sublist_forall; [|exact Hix]. etrans; [|exact Harr]. by apply sublist_inserts_r. }
  destruct Hs; cbn in *; try done.
  - assert (omap (λ i, (tr ++ [p]) !! i) del = omap (λ i, tr !! i) del) as ->; [|done].
    apply list_omap_ext, Forall2_same_length_lookup_2; [done|]. intros k i j Hi Hj. simplify_eq.
    rewrite Forall_forall in Hdel. apply lookup_app_l, Hdel. by eapply list_elem_of_lookup_2.
  - rewrite omap_app. by apply prefix_app_r.
Qed.

Lemma dchannel_rtc_heard a a' : d_inv a → rtc dchannel_step a a' → d_packets a `prefix_of` d_packets a'.
Proof.
  intros Hinv Hr. induction Hr as [|a a1 a' Hs _ IH]; [done|].
  etrans; [by apply dchannel_step_heard|]. by eapply IH, dchannel_step_inv.
Qed.
End Spec.

Section Datagrams.
Context `{Target} {W : Type → Type} `{Watch W} {L : Type} `{CancellationToken L}.
Context {Ch : Type → Type} `{MpscLaws Ch}.
Context {S1 S2 P Q : Type} `{Out : Serializer S1 Q P} `{Inc : Serializer S2 P Q}.
Context {E D Addr store LenErr : Type}.
Context {sendable : P → Prop} {enc_ok : S1 → Prop} {dec_ok : S2 → Prop}
  `{!DatagramPair Out Inc sendable enc_ok dec_ok}.

Variable connection : ConnectionId.
Variable closed_event : ReceiveError (DecodeError (Serializer:=Inc)) LenErr → D.
Variable on_evict : PacketReceiveEvent P → store → store.
Variable record_full : store → store.
Variable notify : option Addr.

Abbreviation pipe := (DPipe (W:=W) (L:=L) (Ch:=Ch) (S1:=S1) (S2:=S2) (P:=P) (Inc:=Inc) (E:=E) (D:=D)
  (Addr:=Addr) (store:=store) (LenErr:=LenErr)).

Definition datagram_medium : Medium P pipe := {|
  m_op := dg_op (Ch:=Ch) (P:=P) (Inc:=Inc) (E:=E) (D:=D) (Addr:=Addr) (store:=store) (LenErr:=LenErr);
  m_do o s := dg_step connection closed_event on_evict record_full notify s o;
  m_send := dg_send;
  m_accepted := accepted;
  m_heard s := event_packet <$> forwarded (receiver s);
|}.

(** Only the application sends. *)
Definition datagram_op_ok (o : m_op (Medium:=datagram_medium)) : Prop :=
  match o with DgSend _ => False | _ => allowed (sendable:=sendable) (dec_ok:=dec_ok) o end.

(** The connection does what the specification may have done. *)
Definition datagram_ok (s : pipe) : Prop :=
  ∃ a, rtc dchannel_step dchannel_start a ∧
    rel (sendable:=sendable) (enc_ok:=enc_ok) (dec_ok:=dec_ok) connection closed_event s a.

Lemma dg_finish_accepted t h ps enc sent (s : pipe) : accepted (dg_finish t h ps enc sent s) = accepted s.
Proof. unfold dg_finish. by destruct (receiver_drop _ _ _). Qed.

Lemma dg_write_accepted e (s : pipe) : accepted (dg_write e s) = accepted s.
Proof.
  unfold dg_write. destruct (stopped s); [done|]. destruct (match current (sender s) with Some _ => (sender s, Write) | None => take_next _ (sender s) end) as [t []].
  - apply dg_finish_accepted.
  - done.
  - destruct (current t); [|done].
    destruct (udp_send _ _ _ _ _) as [[[h ps] enc] [[[u|err]|]|]]; [done|apply dg_finish_accepted..|done].
Qed.

Lemma dg_poll_accepted cancelled errs limit now p (s : pipe) :
  accepted (dg_poll connection closed_event on_evict record_full notify cancelled errs limit now p s) = accepted s.
Proof.
  unfold dg_poll. destruct (at_ (receiver s)); try done. destruct (_ || _); [done|].
  by destruct (udp_receive_with_timestamp _ _ _) as [[ps dec] [[r|]|]].
Qed.

Lemma dg_do_accepted (o : m_op (Medium:=datagram_medium)) (s : pipe) : datagram_op_ok o →
  accepted (m_do (Medium:=datagram_medium) o s) = accepted s.
Proof.
  assert (Hbox : ∀ data now ix, accepted (dg_inbox data now ix s) = accepted s)
    by (intros; unfold dg_inbox; by destruct (inbox_arrive _ _ _ _)).
  intros Ho. destruct o as [p|e| |i now|data now|c errs limit now p]; cbn in *; try done.
  - apply dg_write_accepted.
  - unfold dg_disconnect. cbn. destruct (stopped s); [done|]. by rewrite dg_finish_accepted.
  - unfold dg_arrive. by destruct (wire s !! i).
  - apply dg_poll_accepted.
Qed.

Lemma datagram_medium_laws : MediumLaws P pipe (H:=datagram_medium) sendable datagram_ok datagram_op_ok.
Proof.
  assert (Hstep : ∀ o (s : pipe), datagram_ok s → allowed (sendable:=sendable) (dec_ok:=dec_ok) o →
    datagram_ok (dg_step connection closed_event on_evict record_full notify s o) ∧
    event_packet <$> forwarded (receiver s) `prefix_of`
    event_packet <$> forwarded (receiver (dg_step connection closed_event on_evict record_full notify s o))).
  { intros o s (a & Hr & Hrel) Ho.
    destruct (dg_step_simulates connection closed_event on_evict record_full notify s a o Hrel Ho) as (a' & Hr' & Hrel').
    split; [exists a'; split; [by etrans|done]|].
    apply rel_observes in Hrel as (_ & _ & _ & _ & <-), Hrel' as (_ & _ & _ & _ & <-).
    by apply dchannel_rtc_heard; [apply dchannel_reachable_inv|]. }
  split.
  - intros p s Hinv Hp. destruct (Hstep (DgSend p) s Hinv Hp) as [Hinv' _]. split; [exact Hinv'|].
    cbn. unfold dg_send, send. cbn. destruct (token_is_cancelled _); [by split; [|left]|].
    destruct (sender_try_send _ _ _) as [[q h] [u|e]]; (split; [done|]); [by right|by left].
  - intros o s Hinv Ho.
    assert (Hal : allowed (sendable:=sendable) (dec_ok:=dec_ok) o) by by destruct o.
    destruct (Hstep o s Hinv Hal). split; [done|]. split; [by apply dg_do_accepted|done].
  - intros s p (a & Hr & Hrel) Hp. apply rel_observes in Hrel as (Hacc & _ & _ & _ & Hpk).
    cbn in *. rewrite <- Hpk in Hp. rewrite <- Hacc. by apply (d_packets_accepted a Hr).
Qed.
End Datagrams.
