(* ===== verification/Session.v ===== *)
(** * The application sessions of the UDP example

    Models src/examples/udp_application_sessions/session.rs: the packets of an
    application protocol over datagrams, and the server's record of the sessions
    of one peer, which decides what to acknowledge when datagrams are lost,
    repeated and reordered. Instants and durations are integers. *)

From stdpp Require Import sorting.
From S2P Require Import Prelude Codec.

Inductive Body := Hello | Welcome | Data (data : list Z) | Ping | Close.
#[export] Instance body_eq_dec : EqDecision Body.
Proof. solve_decision. Defined.

Record Packet := { channel : Z; generation : Z; id : list Z; body : Body }.
#[export] Instance packet_eq_dec : EqDecision Packet.
Proof. solve_decision. Defined.

Record Entry := { e_generation : Z; e_id : list Z; last_received : Z; is_active : bool }.

Record Sessions := { entries : gmap Z Entry }.
Definition sessions_default : Sessions := {| entries := ∅ |}.

(** [Packet { body, ..packet.clone() }]. *)
Definition with_body (b : Body) (p : Packet) : Packet :=
  {| channel := channel p; generation := generation p; id := id p; body := b |}.

(** What a [&mut Entry] changes in place. *)
Definition set_entry (c : Z) (e : Entry) (s : Sessions) : Sessions := {| entries := <[c:=e]> (entries s) |}.
Definition refresh (t : Z) (e : Entry) : Entry :=
  {| e_generation := e_generation e; e_id := e_id e; last_received := last_received e `max` t;
     is_active := is_active e |}.
Definition deactivate (e : Entry) : Entry :=
  {| e_generation := e_generation e; e_id := e_id e; last_received := last_received e; is_active := false |}.

Definition new_entry (p : Packet) (t : Z) : Entry :=
  {| e_generation := generation p; e_id := id p; last_received := t; is_active := true |}.

(** The [Hello] branch of [handle]. *)
Definition handle_hello (p : Packet) (t : Z) (s : Sessions) : Sessions * option Packet :=
  let welcome := Some (with_body Welcome p) in
  match entries s !! channel p with
  | Some entry =>
      if generation p <? e_generation entry then (s, None)
      else if generation p =? e_generation entry then
        if negb (bool_decide (e_id entry = id p)) || negb (is_active entry) then (s, None)
        else (set_entry (channel p) (refresh t entry) s, welcome)
      else (set_entry (channel p) (new_entry p t) s, welcome)
  | None =>
      if 8 <=? Z.of_nat (size (entries s)) then (s, None)
      else (set_entry (channel p) (new_entry p t) s, welcome)
  end.

Definition handle (p : Packet) (t : Z) (s : Sessions) : Sessions * option Packet :=
  if bool_decide (id p = []) || (128 <? zlen (id p)) then (s, None)
  else if bool_decide (body p = Hello) then handle_hello p t s
  else match entries s !! channel p with
  | None => (s, None)
  | Some entry =>
      if negb (e_generation entry =? generation p) || negb (bool_decide (e_id entry = id p)) then (s, None)
      else if negb (is_active entry) then (s, if bool_decide (body p = Close) then Some p else None)
      else match body p with
      | Data _ | Ping => (set_entry (channel p) (refresh t entry) s, Some p)
      | Close => (set_entry (channel p) (deactivate entry) s, Some p)
      | Hello | Welcome => (s, None)
      end
  end.

(** [Instant::saturating_duration_since]. *)
Definition saturating_duration_since (now before : Z) : Z := Z.max 0 (now - before).

Definition expire_entry (now timeout : Z) (e : Entry) : Entry :=
  if timeout <=? saturating_duration_since now (last_received e) then deactivate e else e.

Definition expire (now timeout : Z) (s : Sessions) : Sessions :=
  {| entries := expire_entry now timeout <$> entries s |}.

Definition has_history (s : Sessions) : bool := negb (bool_decide (entries s = ∅)).

Definition active (s : Sessions) : nat := size (filter (λ ce, is_active ce.2 = true) (entries s)).

(** ** Executions

    The log keeps the packets that were answered, with their times. *)

Inductive session_op := Received (p : Packet) (t : Z) | Expired (now timeout : Z).

Definition session_step (st : Sessions * list (Packet * Z)) (o : session_op) : Sessions * list (Packet * Z) :=
  let '(s, log) := st in
  match o with
  | Received p t =>
      match handle p t s with
      | (s, Some _) => (s, log ++ [(p, t)])
      | (s, None) => (s, log)
      end
  | Expired now timeout => (expire now timeout s, log)
  end.

Definition session_run (os : list session_op) (st : Sessions * list (Packet * Z)) :=
  foldl session_step st os.

(** ** Lemmas *)

Definition refreshes (b : Body) : bool := negb (bool_decide (b = Close)).

(** An answered packet, its entry afterwards and how that relates to the one
    before. *)
Record answered (p : Packet) (t : Z) (s s' : Sessions) (reply : Packet) (e : Entry) : Prop := {
  an_reply : reply = if bool_decide (body p = Hello) then with_body Welcome p else p;
  an_state : entries s' = <[channel p:=e]> (entries s);
  an_generation : e_generation e = generation p;
  an_id : e_id e = id p;
  an_sized : id p ≠ [] ∧ zlen (id p) ≤ 128;
  an_room : is_Some (entries s !! channel p) ∨ Z.of_nat (size (entries s)) < 8;
  an_close : body p = Close → is_active e = false;
  an_before : match entries s !! channel p with
    | None => body p = Hello ∧ last_received e = t ∧ is_active e = true
    | Some e0 =>
        e_generation e0 < generation p ∧ body p = Hello ∧ last_received e = t ∧ is_active e = true ∨
        e_generation e0 = generation p ∧ e_id e0 = id p ∧
        last_received e = (if refreshes (body p) then last_received e0 `max` t else last_received e0) ∧
        (is_active e0 = false → is_active e = false ∧ body p = Close) ∧
        (is_active e0 = true → body p ≠ Close → is_active e = true)
    end;
}.

Lemma handle_answered p t s s' r :
  handle p t s = (s', r) →
  match r with None => s' = s | Some reply => ∃ e, answered p t s s' reply e end.
Proof.
  unfold handle, handle_hello. destruct (bool_decide (id p = []) || _) eqn:Hid; [by intros [= <- <-]|].
  bools. assert (Hsz : id p ≠ [] ∧ zlen (id p) ≤ 128) by done.
  destruct (entries s !! channel p) as [e0|] eqn:He0.
  - destruct (bool_decide (body p = Hello)) eqn:Hb; bools.
    + destruct (generation p <? e_generation e0) eqn:Hlt; [by intros [= <- <-]|].
      destruct (generation p =? e_generation e0) eqn:Heq; bools.
      * destruct (_ || _) eqn:Hor; [by intros [= <- <-]|]. bools. intros [= <- <-].
        exists (refresh t e0). split; rewrite ?He0, ?Hb; try done; [by left|].
        right. cbn. split_and!; try done; congruence.
      * intros [= <- <-]. exists (new_entry p t). split; rewrite ?He0, ?Hb; try done; [by left|].
        left. split_and!; try done. lia.
    + destruct (_ || _) eqn:Hor; [by intros [= <- <-]|]. bools.
      destruct (is_active e0) eqn:Hact; cbn [negb].
      * destruct (body p) eqn:Hbody; intros [= <- <-]; try done.
        -- exists (refresh t e0). split; rewrite ?He0, ?Hbody; try done; [by left|]. right. cbn. split_and!; try done; congruence.
        -- exists (refresh t e0). split; rewrite ?He0, ?Hbody; try done; [by left|]. right. cbn. split_and!; try done; congruence.
        -- exists (deactivate e0). split; rewrite ?He0, ?Hbody; try done; [by left|]. right.
           split_and!; try done; cbn; congruence.
      * case_bool_decide as Hc; intros [= <- <-]; [|done].
        exists e0. split; rewrite ?He0, ?Hc; try done; [by rewrite insert_id|by left|].
        right. split_and!; try done; congruence.
  - destruct (bool_decide (body p = Hello)) eqn:Hb; [|by intros [= <- <-]]. bools.
    destruct (8 <=? _) eqn:Hfull; [by intros [= <- <-]|]. bools. intros [= <- <-].
    exists (new_entry p t). split; rewrite ?He0, ?Hb; try done. by right.
Qed.

(** ** Invariants of an execution *)

(** Between two answered packets of a channel, the first before the second: the
    generation never goes back, a generation has one identifier, and after its
    [Close] only its [Close] is answered. *)
Definition supersedes (p q : Packet) : Prop :=
  channel p = channel q → generation p ≤ generation q ∧
  (generation p = generation q → id p = id q ∧ (body p = Close → body q = Close)).

(** The entry knows of an answered packet, [a], received at [t]. *)
Definition knows (a : Packet) (t : Z) (e : Entry) : Prop :=
  generation a ≤ e_generation e ∧
  (generation a = e_generation e → id a = e_id e ∧ (body a = Close → is_active e = false) ∧
     (refreshes (body a) = true → t ≤ last_received e)).

Record log_inv (s : Sessions) (log : list (Packet * Z)) : Prop := {
  li_order : StronglySorted supersedes log.*1;
  li_known : ∀ a t, (a, t) ∈ log → ∃ e, entries s !! channel a = Some e ∧ knows a t e;
  li_clock : ∀ c e, entries s !! c = Some e →
    ∃ a, (a, last_received e) ∈ log ∧ channel a = c ∧ generation a = e_generation e ∧
         id a = e_id e ∧ refreshes (body a) = true;
  li_size : Z.of_nat (size (entries s)) ≤ 8;
}.

Lemma expire_entry_fields now timeout e :
  e_generation (expire_entry now timeout e) = e_generation e ∧
  e_id (expire_entry now timeout e) = e_id e ∧
  last_received (expire_entry now timeout e) = last_received e ∧
  (is_active e = false → is_active (expire_entry now timeout e) = false).
Proof. unfold expire_entry. by destruct (_ <=? _). Qed.

Lemma expire_inv now timeout s log : log_inv s log → log_inv (expire now timeout s) log.
Proof.
  intros [Ho Hk Hc Hs]. split; [done| | |].
  - intros a t Ha. destruct (Hk a t Ha) as (e & He & Hg & Hsame).
    destruct (expire_entry_fields now timeout e) as (H1 & H2 & H3 & H4).
    exists (expire_entry now timeout e). cbn. rewrite lookup_fmap, He. split; [done|].
    unfold knows. rewrite H1, H2, H3. split; [done|]. naive_solver.
  - intros c e. cbn. rewrite lookup_fmap. destruct (entries s !! c) as [e0|] eqn:He; [|done].
    intros [= <-]. destruct (expire_entry_fields now timeout e0) as (H1 & H2 & H3 & _).
    rewrite H1, H2, H3. by apply Hc.
  - cbn. by rewrite map_size_fmap.
Qed.

(** What the entry of the channel knew, it still knows after an answer. *)
Lemma answered_knows p t s s' reply e e0 a ta :
  answered p t s s' reply e → entries s !! channel p = Some e0 → channel a = channel p →
  knows a ta e0 → knows a ta e ∧ supersedes a p.
Proof.
  intros Han He0 Hch [Hg Hsame]. pose proof (an_before _ _ _ _ _ _ Han) as Hb. rewrite He0 in Hb.
  pose proof (an_generation _ _ _ _ _ _ Han) as Hge. pose proof (an_id _ _ _ _ _ _ Han) as Hie.
  unfold knows, supersedes. destruct Hb as [(Hlt & Hhello & Hl & Ha)|(Heq & Hid & Hl & Hdead & _)].
  - rewrite Hge. split; [|intros _]; (split; [lia|intros; lia]).
  - rewrite Hge, <- Heq. split; [|intros _]; (split; [done|]); intros Hga;
      destruct (Hsame Hga) as (Hia & Hclose & Ht); (split; [congruence|]); [split|].
    + intros Hca. by apply Hdead, Hclose.
    + intros Hra. specialize (Ht Hra). rewrite Hl. destruct (refreshes (body p)); lia.
    + intros Hca. by apply Hdead, Hclose.
Qed.

Lemma answered_inv p t s s' reply e log :
  answered p t s s' reply e → log_inv s log → log_inv s' (log ++ [(p, t)]).
Proof.
  intros Han [Ho Hk Hc Hs]. pose proof Han as [_ Hst Hge Hie _ Hroom Hcl Hb].
  assert (Hall : ∀ a ta, (a, ta) ∈ log →
    supersedes a p ∧ ∃ e', entries s' !! channel a = Some e' ∧ knows a ta e').
  { intros a ta Ha. destruct (Hk a ta Ha) as (e0 & He0 & Hkn).
    destruct (decide (channel a = channel p)) as [Hch|Hch].
    - rewrite Hch in He0. destruct (answered_knows _ _ _ _ _ _ e0 a ta Han He0 Hch Hkn).
      split; [done|]. exists e. by rewrite Hst, Hch, lookup_insert_eq.
    - split; [by intros ?|]. exists e0. by rewrite Hst, lookup_insert_ne. }
  split.
  - rewrite fmap_app. apply StronglySorted_app. split_and!; [|done|by repeat constructor].
    intros a b Ha Hb'. apply list_elem_of_fmap in Ha as ([a' ta] & -> & Ha).
    apply list_elem_of_singleton in Hb' as ->. by apply (Hall a' ta).
  - intros a ta [Ha|Ha%list_elem_of_singleton]%elem_of_app; [by apply Hall|]. simplify_eq.
    exists e. rewrite Hst, lookup_insert_eq. split; [done|]. unfold knows. rewrite Hge, Hie.
    split; [done|]. intros _. split_and!; try done.
    intros Hr. destruct (entries s !! channel p) as [e0|].
    + destruct Hb as [(_ & _ & -> & _)|(_ & _ & -> & _)]; [lia|]. rewrite Hr. lia.
    + destruct Hb as (_ & -> & _). lia.
  - intros c e'. rewrite Hst. destruct (decide (c = channel p)) as [->|Hne].
    2: { rewrite lookup_insert_ne by done. intros He'. destruct (Hc c e' He') as (a & Ha & ?).
         exists a. split; [|done]. apply elem_of_app. by left. }
    rewrite lookup_insert_eq. intros [= <-]. rewrite Hge, Hie.
    assert (Hnew : last_received e = t → refreshes (body p) = true →
      ∃ a, (a, last_received e) ∈ log ++ [(p, t)] ∧ channel a = channel p ∧
           generation a = generation p ∧ id a = id p ∧ refreshes (body a) = true).
    { intros -> Hr. exists p. split_and!; try done. apply elem_of_app. right. by apply list_elem_of_singleton. }
    destruct (entries s !! channel p) as [e0|] eqn:He0.
    + destruct Hb as [(_ & Hh & Hl & _)|(Hg0 & Hi0 & Hl & _)].
      * apply Hnew; [done|]. unfold refreshes. by rewrite Hh.
      * destruct (refreshes (body p)) eqn:Hr, (decide (last_received e0 ≤ t)) as [Hle|Hle].
        { apply Hnew; [lia|done]. }
        all: destruct (Hc _ _ He0) as (a & Ha & Hca & Hga & Hia & Hra); exists a;
          replace (last_received e) with (last_received e0) by lia; split_and!; try congruence;
          apply elem_of_app; by left.
    + destruct Hb as (Hh & Hl & _). apply Hnew; [done|]. unfold refreshes. by rewrite Hh.
  - rewrite Hst. destruct Hroom as [[e0 He0]|Hlt].
    + by rewrite map_size_insert_Some.
    + rewrite map_size_insert. destruct (_ !! _); cbn; lia.
Qed.

Lemma session_run_inv os s log : log_inv s log →
  let '(s', log') := session_run os (s, log) in log_inv s' log'.
Proof.
  revert s log. induction os as [|o os IH]; intros s log Hinv; [done|].
  change (session_run (o :: os) (s, log)) with (session_run os (session_step (s, log) o)).
  destruct o as [p t|now timeout]; cbn [session_step].
  - destruct (handle p t s) as [s' r] eqn:Hh. apply handle_answered in Hh. destruct r as [reply|].
    + destruct Hh as [e Han]. by eapply IH, answered_inv.
    + subst s'. by apply IH.
  - by apply IH, expire_inv.
Qed.

Lemma session_start_inv : log_inv sessions_default [].
Proof.
  split; cbn; [constructor| | |done].
  - by intros a t ?%elem_of_nil.
  - by intros c e.
Qed.

(** ** Types *)

Definition u64_range (n : Z) : Prop := 0 ≤ n < 2 ^ 64.
Definition body_typed (b : Body) : Prop := match b with Data d => Forall is_byte d | _ => True end.
Definition packet_typed (p : Packet) : Prop :=
  0 ≤ channel p < 256 ∧ u64_range (generation p) ∧ Forall is_byte (id p) ∧ body_typed (body p).
Definition entry_typed (c : Z) (e : Entry) : Prop :=
  0 ≤ c < 256 ∧ u64_range (e_generation e) ∧ Forall is_byte (e_id e) ∧ 1 ≤ zlen (e_id e) ≤ 128.

Definition sessions_typed (s : Sessions) : Prop := map_Forall entry_typed (entries s).

Definition op_typed (o : session_op) : Prop :=
  match o with Received p _ => packet_typed p | Expired _ _ => True end.

Lemma handle_typed p t s : packet_typed p → sessions_typed s →
  sessions_typed (handle p t s).1 ∧ ∀ reply, (handle p t s).2 = Some reply → packet_typed reply.
Proof.
  intros Hp Hs. destruct (handle p t s) as [s' r] eqn:Hh. apply handle_answered in Hh.
  destruct r as [reply|]; [|subst; by split].
  destruct Hh as [e [Hr Hst Hg Hi [Hne Hmax] _ _ _]]. cbn. split.
  - unfold sessions_typed. rewrite Hst. apply map_Forall_insert_2; [|done].
    unfold entry_typed. rewrite Hg, Hi. destruct Hp as (? & ? & ? & _).
    split; [done|split; [done|split; [done|split; [|done]]]].
    destruct (decide (zlen (id p) = 0)) as [Hz|]; [by apply zlen_0_nil in Hz|zlia].
  - intros ? [= <-]. rewrite Hr. case_bool_decide; [|done]. destruct Hp as (? & ? & ? & _).
    by split; [|split; [|split]].
Qed.

Lemma session_run_typed os s log : Forall op_typed os → sessions_typed s →
  sessions_typed (session_run os (s, log)).1.
Proof.
  intros Hall. revert s log. induction Hall as [|o os Ho _ IH]; intros s log Hs; [done|].
  change (session_run (o :: os) (s, log)) with (session_run os (session_step (s, log) o)).
  destruct o as [p t|now timeout]; cbn [session_step].
  - pose proof (handle_typed p t s Ho Hs) as [Hs' _].
    by destruct (handle p t s) as [s' [reply|]]; apply IH.
  - apply IH. intros c e. cbn. rewrite lookup_fmap.
    destruct (entries s !! c) as [e0|] eqn:He; [|done]. intros [= <-]. apply Hs in He.
    unfold entry_typed. by destruct (expire_entry_fields now timeout e0) as (-> & -> & _).
Qed.

(** ** Properties *)

(** C27. Whatever is lost, repeated, reordered or expires, the server answers the
    packets of a channel in an order a peer can rely on: the generation never
    goes back, each generation is bound to one identifier, and once its [Close]
    is answered nothing else of that generation is, so no delayed packet revives
    or ends a newer session. *)
Theorem acknowledged_order (os : list session_op) :
  StronglySorted supersedes (session_run os (sessions_default, [])).2.*1.
Proof.
  pose proof (session_run_inv os _ _ session_start_inv) as Hinv.
  destruct (session_run os _) as [s log]. apply Hinv.
Qed.

(** Sessions expire exactly: what counts is the latest time at which a packet
    of the current generation other than [Close] was answered, however late the
    datagrams arrived; [expire] ends the sessions for which that time is at least
    the timeout ago, and no other. *)
Theorem session_expiry (os : list session_op) c e now timeout :
  0 < timeout →
  let '(s, log) := session_run os (sessions_default, []) in
  entries s !! c = Some e →
  (∃ a, (a, last_received e) ∈ log ∧ channel a = c ∧ generation a = e_generation e ∧
        refreshes (body a) = true) ∧
  (∀ a t, (a, t) ∈ log → channel a = c → generation a = e_generation e →
     refreshes (body a) = true → t ≤ last_received e) ∧
  is_active <$> entries (expire now timeout s) !! c =
    Some (is_active e && (now - last_received e <? timeout)).
Proof.
  intros Ht. pose proof (session_run_inv os _ _ session_start_inv) as Hinv.
  destruct (session_run os _) as [s log]. intros He. split_and!.
  - destruct (li_clock _ _ Hinv c e He) as (a & ? & ? & ? & _ & ?). by exists a.
  - intros a t Ha <- Hg Hr. destruct (li_known _ _ Hinv a t Ha) as (e' & He' & _ & Hk).
    simplify_eq. by apply Hk.
  - cbn. rewrite lookup_fmap, He. cbn. f_equal. unfold expire_entry, saturating_duration_since.
    destruct (timeout <=? _) eqn:Hx, (_ <? timeout) eqn:Hy; bools; cbn; rewrite ?andb_true_r, ?andb_false_r;
      first [done | lia].
Qed.

(** C31. Memory and types: from well-typed packets, a peer never has more than
    eight channels, each keyed by a byte and holding a 64-bit generation and an
    identifier of 1 to 128 bytes, and every answer is well typed. *)
Theorem sessions_well_typed (os : list session_op) p t :
  Forall op_typed os → packet_typed p →
  let s := (session_run os (sessions_default, [])).1 in
  Z.of_nat (size (entries s)) ≤ 8 ∧ sessions_typed s ∧
  ∀ reply, (handle p t s).2 = Some reply → packet_typed reply.
Proof.
  intros Hall Hp. pose proof (session_run_inv os _ _ session_start_inv) as Hinv.
  pose proof (session_run_typed os sessions_default [] Hall (map_Forall_empty _)) as Hty.
  destruct (session_run os _) as [s log]. cbn in *. split_and!; [apply Hinv|done|].
  by apply handle_typed.
Qed.

(** ** A concrete history

    The test of the source: an old session cannot replace or close a new one. *)
Definition hello (c g : Z) (size : nat) : Packet :=
  {| channel := c; generation := g; id := replicate size c; body := Hello |}.

Definition example_ops : list session_op :=
  [Received (hello 1 1 48) 0; Received (hello 1 2 64) 10; Received (hello 1 1 48) 20;
   Received (with_body Close (hello 1 1 48)) 20; Received (with_body Ping (hello 1 2 64)) 5;
   Expired 400 500; Received (with_body Close (hello 1 2 64)) 410; Received (hello 1 2 64) 420;
   Received (with_body Close (hello 1 2 64)) 430].

Example example_log :
  (λ a, (generation a.1, body a.1, a.2)) <$> (session_run example_ops (sessions_default, [])).2 =
  [(1, Hello, 0); (2, Hello, 10); (2, Ping, 5); (2, Close, 410); (2, Close, 430)].
Proof. by vm_compute. Qed.

Lemma session_expiry_witness :
  let '(s, log) := session_run (take 5 example_ops) (sessions_default, []) in
  let e := {| e_generation := 2; e_id := replicate 64 1; last_received := 10; is_active := true |} in
  entries s !! 1 = Some e ∧
  (∃ a, (a, 10) ∈ log ∧ channel a = 1 ∧ generation a = 2 ∧ refreshes (body a) = true) ∧
  (∀ a t, (a, t) ∈ log → channel a = 1 → generation a = 2 → refreshes (body a) = true → t ≤ 10) ∧
  is_active <$> entries (expire 510 500 s) !! 1 = Some (true && (510 - 10 <? 500)).
Proof.
  set (e := {| e_generation := 2; e_id := replicate 64 1; last_received := 10; is_active := true |}).
  pose proof (session_expiry (take 5 example_ops) 1 e 510 500 ltac:(lia)) as Hx.
  assert (He : entries (session_run (take 5 example_ops) (sessions_default, [])).1 !! 1 = Some e)
    by by vm_compute.
  destruct (session_run _ _) as [s log]. split; [exact He|exact (Hx He)].
Defined.

Lemma sessions_well_typed_witness :
  let s := (session_run [Received (hello 1 1 2) 0] (sessions_default, [])).1 in
  Z.of_nat (size (entries s)) ≤ 8 ∧ sessions_typed s ∧
  ∀ reply, (handle (with_body Ping (hello 1 1 2)) 3 s).2 = Some reply → packet_typed reply.
Proof.
  apply (sessions_well_typed [Received (hello 1 1 2) 0] (with_body Ping (hello 1 1 2)) 3).
  - constructor; [|constructor]. unfold op_typed, packet_typed, u64_range. cbn.
    split_and!; try done; repeat constructor; unfold is_byte; lia.
  - unfold packet_typed, u64_range. cbn. split_and!; try done; repeat constructor; unfold is_byte; lia.
Defined.
