(* ===== verification/SessionApp.v ===== *)
(** * The application of the UDP example

    Models src/examples/udp_application_sessions.rs: the server's peers, each
    with its sessions ([Session]), the client's handshakes, and the two ends over
    a network that loses, repeats and reorders datagrams. [Instant::now] is an
    argument. *)

From Stdlib Require Import String Ascii.
From stdpp Require Import sorting.
From S2P Require Import Prelude Protocol Codec Session.

Definition RETRY : Z := 50.
Definition IDLE : Z := 500.
Definition DEADLINE : Z := 5000.
Definition MAX_PEERS : Z := 64.

(** ** The server *)

Section Server.
Context {Addr : Type} `{Countable Addr} {Conn : Type}.
Variable peer_addr : Conn → Addr.

Record Peer := { connection : Conn; sessions : Sessions; created : Z }.
Record ServerSessions := { peers : gmap Addr Peer }.
Definition server_default : ServerSessions := {| peers := ∅ |}.

(** What the observers and systems do to connections. *)
Inductive effect := Send (c : Conn) (p : Packet) | Disconnect (c : Conn).

Definition new_peer (c : Conn) (now : Z) (st : ServerSessions) : ServerSessions * list effect :=
  let address := peer_addr c in
  match peers st !! address with
  | Some peer =>
      ({| peers := <[address:={| connection := c; sessions := sessions peer; created := now |}]> (peers st) |}, [])
  | None =>
      if Z.of_nat (size (peers st)) <? MAX_PEERS
      then ({| peers := <[address:={| connection := c; sessions := sessions_default; created := now |}]> (peers st) |}, [])
      else (st, [Disconnect c])
  end.

Definition server_packet (c : Conn) (p : Packet) (received_at : Z) (st : ServerSessions)
    : ServerSessions * list effect :=
  match peers st !! peer_addr c with
  | None => (st, [])
  | Some peer =>
      let '(s, reply) := handle p received_at (sessions peer) in
      ({| peers := <[peer_addr c:={| connection := connection peer; sessions := s; created := created peer |}]> (peers st) |},
       Send c <$> option_list reply)
  end.

(** The closure of [retain]: the peer that stays, and whether it is disconnected. *)
Definition expire_peer (now : Z) (peer : Peer) : option Peer * bool :=
  let peer := {| connection := connection peer; sessions := expire now IDLE (sessions peer);
                 created := created peer |} in
  if (active (sessions peer) =? 0)%nat && (IDLE <=? saturating_duration_since now (created peer))
  then (if has_history (sessions peer) then Some peer else None, true)
  else (Some peer, false).

(** [HashMap::retain] visits the peers in no particular order. *)
Definition expire_peers (now : Z) (st : ServerSessions) : ServerSessions * list effect :=
  ({| peers := omap (λ peer, (expire_peer now peer).1) (peers st) |},
   omap (λ ap, if (expire_peer now ap.2).2 then Some (Disconnect (connection ap.2)) else None)
     (map_to_list (peers st))).
End Server.
Arguments Peer Conn : clear implicits.
Arguments ServerSessions Addr {_ _} Conn.
Arguments effect Conn : clear implicits.

(** ** The client *)

Inductive Phase := Initial | Replacement | Echo | Closing | Done.
#[export] Instance phase_eq_dec : EqDecision Phase.
Proof. solve_decision. Defined.

Record Request := { old : Packet; current : Packet; phase : Phase; last_sent : option Z }.

Definition bytes_of (s : string) : list Z := (λ a, Z.of_nat (nat_of_ascii a)) <$> list_ascii_of_string s.
Definition application_data : list Z := bytes_of "application data".

Definition matches (p : Packet) (r : Request) : bool :=
  let expected := if bool_decide (phase r = Initial) then old r else current r in
  (channel p =? channel expected) && (generation p =? generation expected) &&
  bool_decide (id p = id expected).

Definition outgoing (r : Request) : option Packet :=
  match phase r with
  | Initial => Some (old r)
  | Replacement => Some (with_body Hello (current r))
  | Echo => Some (with_body (Data application_data) (current r))
  | Closing => Some (with_body Close (current r))
  | Done => None
  end.

Definition with_phase (p : Phase) (r : Request) : Request :=
  {| old := old r; current := current r; phase := p; last_sent := None |}.
Definition with_last_sent (t : Z) (r : Request) : Request :=
  {| old := old r; current := current r; phase := phase r; last_sent := Some t |}.

Section Client.
Context {Conn : Type}.

Record ClientSessions := { c_connection : option Conn; requests : list Request; attempts : Z }.

Definition ready (c : Conn) (st : ClientSessions) : ClientSessions :=
  {| c_connection := Some c; requests := requests st; attempts := attempts st |}.

(** The loop of [drive_client] over the requests; [send] tells whether the queue
    takes a packet. A failure ends it, keeping what was updated. *)
Fixpoint drive_requests (now : Z) (send : Packet → bool) (rs : list Request)
    : list Request * list Packet * bool :=
  match rs with
  | [] => ([], [], true)
  | r :: rs =>
      if from_option (λ last, saturating_duration_since now last <? RETRY) false (last_sent r)
      then let '(rs, sent, ok) := drive_requests now send rs in (r :: rs, sent, ok)
      else match outgoing r with
      | None => let '(rs, sent, ok) := drive_requests now send rs in (r :: rs, sent, ok)
      | Some p =>
          if send p
          then let '(rs, sent, ok) := drive_requests now send rs in
               (with_last_sent now r :: rs, p :: sent, ok)
          else (r :: rs, [], false)
      end
  end.

(** [attempts] counts the packets of a run of the system that did not fail. *)
Definition drive_client (now : Z) (send : Packet → bool) (st : ClientSessions)
    : ClientSessions * list Packet :=
  match c_connection st with
  | None => (st, [])
  | Some c =>
      let '(rs, sent, ok) := drive_requests now send (requests st) in
      ({| c_connection := Some c; requests := rs;
          attempts := if ok : bool then attempts st + zlen sent else attempts st |}, sent)
  end.

(** What a matching packet does to its request. *)
Definition advance (b : Body) (r : Request) : Request :=
  match b, phase r with
  | Welcome, Initial => with_phase Replacement r
  | Welcome, Replacement => with_phase Echo r
  | Data d, Echo => if bool_decide (d = application_data) then with_phase Closing r else r
  | Close, Closing => with_phase Done r
  | _, _ => r
  end.

(** [iter_mut().find(..)]: the first request that matches. *)
Fixpoint client_requests (p : Packet) (rs : list Request) : list Request :=
  match rs with
  | [] => []
  | r :: rs => if matches p r then advance (body p) r :: rs else r :: client_requests p rs
  end.

Definition client_packet (p : Packet) (st : ClientSessions) : ClientSessions :=
  {| c_connection := c_connection st; requests := client_requests p (requests st);
     attempts := attempts st |}.

(** [client_sessions]: [random_id k size] is what the [k]-th call of [random_id]
    answers. *)
Fixpoint build_requests (random_id : nat → nat → result (list Z) io_error) (i : nat) (sizes : list nat)
    : result (list Request) io_error :=
  match sizes with
  | [] => Ok []
  | sz :: sizes =>
      if 255 <? Z.of_nat i
      then Err (io_error_other "out of range integral type conversion attempted")
      else
        try! old_id := random_id (2 * i)%nat sz in
        try! current_id := random_id (2 * i + 1)%nat sz in
        try! rest := build_requests random_id (S i) sizes in
        Ok ({| old := {| channel := Z.of_nat i; generation := 1; id := old_id; body := Hello |};
               current := {| channel := Z.of_nat i; generation := 2; id := current_id; body := Hello |};
               phase := Initial; last_sent := None |} :: rest)
  end.

Definition client_sessions (random_id : nat → nat → result (list Z) io_error) (sizes : list nat)
    : result ClientSessions io_error :=
  try! rs := build_requests random_id 0 sizes in
  Ok {| c_connection := None; requests := rs; attempts := 0 |}.

Inductive demo_exit := Success | Timeout.

(** [request_connection]: [requested] is its local flag; the answer is the
    addresses a connection is requested to. *)
Definition request_connection {A} (address : A) (requested : bool) : bool * list A :=
  if requested then (requested, []) else (true, [address]).

(** Its runs, over the address published in each frame. *)
Fixpoint request_frames {A} (addresses : list A) (requested : bool) : bool * list A :=
  match addresses with
  | [] => (requested, [])
  | a :: addresses =>
      let '(requested, now) := request_connection a requested in
      let '(requested, later) := request_frames addresses requested in (requested, now ++ later)
  end.

(** [finish_demo]: the exit it asks for, if any, and whether it disconnects. *)
Definition finish_demo (now started : Z) (st : ClientSessions) : option demo_exit * bool :=
  if bool_decide (is_Some (c_connection st)) &&
     forallb (λ r, bool_decide (phase r = Done)) (requests st)
  then (Some Success, true)
  else if DEADLINE <=? saturating_duration_since now started then (Some Timeout, false)
  else (None, false).
End Client.
Arguments ClientSessions Conn : clear implicits.

(** The demonstration asks for one connection, to the address of its first frame,
    however many frames it runs. *)
Lemma request_connection_once {A} (a : A) (addresses : list A) :
  request_frames (a :: addresses) false = (true, [a]).
Proof.
  cbn. assert (Hrest : request_frames addresses true = (true, [])).
  { induction addresses as [|b addresses IH]; [done|]. cbn. by rewrite IH. }
  by rewrite Hrest.
Qed.

(** ** Executions of the server

    The log keeps the packets that were answered, with the peer's address. *)

Section ServerRuns.
Context {Addr : Type} `{Countable Addr} {Conn : Type}.
Variable peer_addr : Conn → Addr.

Inductive server_op := NewPeer (c : Conn) (now : Z) | FromPeer (c : Conn) (p : Packet) (t : Z) | ExpirePeers (now : Z).

Abbreviation log_of := (list (Addr * (Packet * Z))).

Definition server_step (st : ServerSessions Addr Conn * log_of) (o : server_op)
    : ServerSessions Addr Conn * log_of :=
  let '(s, log) := st in
  match o with
  | NewPeer c now => ((new_peer peer_addr c now s).1, log)
  | FromPeer c p t =>
      match server_packet peer_addr c p t s with
      | (s, []) => (s, log)
      | (s, _) => (s, log ++ [(peer_addr c, (p, t))])
      end
  | ExpirePeers now => ((expire_peers now s).1, log)
  end.

Definition server_run (os : list server_op) (st : ServerSessions Addr Conn * log_of) := foldl server_step st os.

(** What a peer was answered, and its sessions. *)
Definition answers_to (a : Addr) (log : log_of) : list (Packet * Z) := (filter (λ x, x.1 = a) log).*2.
Definition sessions_at (a : Addr) (s : ServerSessions Addr Conn) : Sessions :=
  from_option sessions sessions_default (peers s !! a).

Record server_inv (s : ServerSessions Addr Conn) (log : log_of) : Prop := {
  si_log : ∀ a, log_inv (sessions_at a s) (answers_to a log);
  si_size : Z.of_nat (size (peers s)) ≤ MAX_PEERS;
}.

Lemma answers_to_snoc a a' (log : log_of) x :
  answers_to a (log ++ [(a', x)]) = answers_to a log ++ (if decide (a' = a) then [x] else []).
Proof.
  unfold answers_to. rewrite filter_app, fmap_app. f_equal.
  destruct (decide (a' = a)); [by rewrite filter_cons_True|by rewrite filter_cons_False].
Qed.

(** A peer with nothing to remember can be forgotten. *)
Lemma no_history_default s log : has_history s = false → log_inv s log → log_inv sessions_default log.
Proof.
  unfold has_history. intros Hh. bools. intros [Ho Hk Hc Hs]. rewrite Hh in *. by split.
Qed.

Lemma expire_peer_inv now (peer : Peer Conn) log : log_inv (sessions peer) log →
  log_inv (from_option sessions sessions_default (expire_peer now peer).1) log.
Proof.
  intros Hinv. apply (expire_inv now IDLE) in Hinv. unfold expire_peer. cbn [sessions created].
  destruct (_ && _); [|done]. destruct (has_history _) eqn:Hh; [done|]. by eapply no_history_default.
Qed.

Lemma server_step_inv s log o : server_inv s log →
  let '(s', log') := server_step (s, log) o in server_inv s' log'.
Proof.
  intros [Hlog Hsize]. destruct o as [c now|c p t|now]; cbn [server_step].
  - unfold new_peer. destruct (peers s !! peer_addr c) as [peer|] eqn:Hp; cbn [fst].
    + split; [|cbn; by rewrite map_size_insert_Some].
      intros a. specialize (Hlog a). unfold sessions_at in *. cbn.
      destruct (decide (a = peer_addr c)) as [->|Hne].
      * rewrite lookup_insert_eq. by rewrite Hp in Hlog.
      * by rewrite lookup_insert_ne.
    + destruct (_ <? _) eqn:Hroom; [|by split]. bools. split.
      * intros a. specialize (Hlog a). unfold sessions_at in *. cbn.
        destruct (decide (a = peer_addr c)) as [->|Hne].
        -- rewrite lookup_insert_eq. by rewrite Hp in Hlog.
        -- by rewrite lookup_insert_ne.
      * cbn. rewrite map_size_insert, Hp. cbn. lia.
  - unfold server_packet. destruct (peers s !! peer_addr c) as [peer|] eqn:Hp; [|by split].
    destruct (handle p t (sessions peer)) as [s' r] eqn:Hh. apply handle_answered in Hh.
    assert (Hthis : log_inv s' (answers_to (peer_addr c) log ++ (if r is Some _ then [(p, t)] else []))).
    { specialize (Hlog (peer_addr c)). unfold sessions_at in Hlog. rewrite Hp in Hlog. cbn in Hlog.
      destruct r as [reply|]; [|subst; by rewrite app_nil_r].
      destruct Hh as [e Han]. by eapply answered_inv. }
    assert (Hgoal : ∀ log', (∀ a, answers_to a log' = answers_to a log ++
        (if decide (peer_addr c = a) then if r is Some _ then [(p, t)] else [] else [])) →
      server_inv {| peers := <[peer_addr c:={| connection := connection peer; sessions := s';
        created := created peer |}]> (peers s) |} log').
    { intros log' Hl. split; [|cbn; by rewrite map_size_insert_Some].
      intros a. rewrite Hl. unfold sessions_at. cbn. destruct (decide (peer_addr c = a)) as [<-|Hne].
      - by rewrite lookup_insert_eq.
      - rewrite lookup_insert_ne, app_nil_r by done. apply Hlog. }
    destruct r as [reply|]; cbn; apply Hgoal; intros a; [apply answers_to_snoc|].
    by destruct (decide _); rewrite app_nil_r.
  - split; cbn.
    + intros a. specialize (Hlog a). unfold sessions_at in *. cbn. rewrite lookup_omap.
      destruct (peers s !! a) as [peer|]; [|done]. by apply expire_peer_inv.
    + etrans; [|exact Hsize]. apply inj_le. rewrite <- !size_dom.
      apply subseteq_size, dom_omap_subseteq.
Qed.

Lemma server_run_inv os s log : server_inv s log →
  let '(s', log') := server_run os (s, log) in server_inv s' log'.
Proof.
  revert s log. induction os as [|o os IH]; intros s log Hinv; [done|].
  change (server_run (o :: os) (s, log)) with (server_run os (server_step (s, log) o)).
  pose proof (server_step_inv s log o Hinv) as Hs. destruct (server_step (s, log) o) as [s' log'].
  by apply IH.
Qed.

(** C30. The guarantee survives the peers: whatever connections come and go from an
    address, and although idle peers are disconnected and those with nothing to
    remember are forgotten, what each address is answered over the life of the
    server keeps the order of [acknowledged_order]; and there are never more than
    [MAX_PEERS] peers. *)
Theorem server_answers_ordered (os : list server_op) (a : Addr) :
  let '(s, log) := server_run os (server_default, []) in
  StronglySorted supersedes (answers_to a log).*1 ∧ Z.of_nat (size (peers s)) ≤ MAX_PEERS.
Proof.
  assert (Hstart : server_inv server_default []).
  { split; [|done]. intros b. apply session_start_inv. }
  pose proof (server_run_inv os server_default [] Hstart) as Hinv.
  destruct (server_run os _) as [s log]. destruct Hinv as [Hlog Hsize]. split; [|done]. apply Hlog.
Qed.
End ServerRuns.

(** ** The two ends over a network

    One client against one peer's sessions. The network keeps every packet ever
    sent: at any time it may deliver any of them, any number of times, in any
    order, or none. *)

Section Demo.
Context {Conn : Type}.

Record Demo := {
  client : ClientSessions Conn;
  server : Sessions;
  answers : list (Packet * Z);
  to_server : list Packet;
  to_client : list Packet;
}.

Inductive demo_step : Demo → Demo → Prop :=
  | demo_ready c d :
      demo_step d {| client := ready c (client d); server := server d; answers := answers d;
                     to_server := to_server d; to_client := to_client d |}
  | demo_drive now send d c sent :
      drive_client now send (client d) = (c, sent) →
      demo_step d {| client := c; server := server d; answers := answers d;
                     to_server := to_server d ++ sent; to_client := to_client d |}
  | demo_request p t d s reply :
      p ∈ to_server d → handle p t (server d) = (s, Some reply) →
      demo_step d {| client := client d; server := s; answers := answers d ++ [(p, t)];
                     to_server := to_server d; to_client := to_client d ++ [reply] |}
  | demo_refused p t d s :
      p ∈ to_server d → handle p t (server d) = (s, None) →
      demo_step d {| client := client d; server := s; answers := answers d;
                     to_server := to_server d; to_client := to_client d |}
  | demo_expire now d :
      demo_step d {| client := client d; server := expire now IDLE (server d); answers := answers d;
                     to_server := to_server d; to_client := to_client d |}
  | demo_reply p d :
      p ∈ to_client d →
      demo_step d {| client := client_packet p (client d); server := server d; answers := answers d;
                     to_server := to_server d; to_client := to_client d |}.

Definition demo_start (c : ClientSessions Conn) : Demo :=
  {| client := c; server := sessions_default; answers := []; to_server := []; to_client := [] |}.

(** What the server has answered by the time a request is in its phase: the
    phases passed, in order. *)
Definition answered_to (d : Demo) (p : Packet) : Prop := ∃ t, (p, t) ∈ answers d.

Definition backed (d : Demo) (r : Request) : Prop :=
  let hello_old := answered_to d (old r) in
  let hello_new := answered_to d (with_body Hello (current r)) in
  let data := answered_to d (with_body (Data application_data) (current r)) in
  let close := answered_to d (with_body Close (current r)) in
  match phase r with
  | Initial => True
  | Replacement => hello_old
  | Echo => hello_old ∧ hello_new
  | Closing => hello_old ∧ hello_new ∧ data
  | Done => hello_old ∧ hello_new ∧ data ∧ close
  end.

(** As [client_sessions] builds them. *)
Definition request_wf (r : Request) : Prop :=
  body (old r) = Hello ∧ generation (old r) = 1 ∧ generation (current r) = 2 ∧
  channel (old r) = channel (current r).

Record demo_inv (d : Demo) : Prop := {
  di_log : log_inv (server d) (answers d);
  di_requests : Forall (λ r, request_wf r ∧ backed d r) (requests (client d));
  di_sent : Forall (λ p, generation p ≤ 2 ∧ body p ≠ Welcome ∧ channel p ∈ (channel ∘ current <$> requests (client d)))
              (to_server d);
  di_answers : ∀ p t, (p, t) ∈ answers d → p ∈ to_server d;
  di_replies : Forall (λ q, ∃ p, answered_to d p ∧
                 q = if bool_decide (body p = Hello) then with_body Welcome p else p) (to_client d);
}.

(** The requests change their phases and times only. *)
Definition same_channels (rs rs' : list Request) : Prop :=
  channel ∘ current <$> rs = channel ∘ current <$> rs'.

Lemma drive_requests_same now send rs :
  let '(rs', sent, _) := drive_requests now send rs in
  same_channels rs rs' ∧
  (∀ Pr : Request → Prop, (∀ r t, Pr r → Pr (with_last_sent t r)) → Forall Pr rs → Forall Pr rs') ∧
  ∀ p, p ∈ sent → ∃ r, r ∈ rs ∧ outgoing r = Some p.
Proof.
  unfold same_channels. induction rs as [|r rs IH]; cbn [drive_requests].
  { split_and!; [done|by intros|by intros p ?%elem_of_nil]. }
  destruct (drive_requests now send rs) as [[rs' sent] ok]. destruct IH as (Hch & Hpr & Hout).
  assert (Hkeep : channel ∘ current <$> r :: rs = channel ∘ current <$> r :: rs') by (cbn; by f_equal).
  assert (Hkeep_pr : ∀ Pr : Request → Prop, (∀ r t, Pr r → Pr (with_last_sent t r)) →
    Forall Pr (r :: rs) → Forall Pr (r :: rs')).
  { intros Pr Hp [H1 H2]%Forall_cons. apply Forall_cons. split; [done|by apply Hpr]. }
  assert (Hkeep_out : ∀ p, p ∈ sent → ∃ r', r' ∈ r :: rs ∧ outgoing r' = Some p).
  { intros p Hp. destruct (Hout p Hp) as (r' & Hr' & ?). exists r'. split; [by right|done]. }
  destruct (from_option _ _ _); [by split_and!|]. destruct (outgoing r) as [p|] eqn:Ho; [|by split_and!].
  destruct (send p).
  - split_and!.
    + cbn. by f_equal.
    + intros Pr Hp [H1 H2]%Forall_cons. apply Forall_cons. split; [by apply Hp|by apply Hpr].
    + intros q [->|Hq]%elem_of_cons; [exists r; split; [by left|done]|by apply Hkeep_out].
  - split_and!; [done|done|by intros q ?%elem_of_nil].
Qed.

Lemma client_requests_same p rs : same_channels rs (client_requests p rs).
Proof.
  unfold same_channels. induction rs as [|r rs IH]; [done|]. cbn [client_requests].
  destruct (matches p r); cbn; f_equal; [|done].
  unfold advance, compose. destruct (body p), (phase r); try done. by case_bool_decide.
Qed.

(** More answers back at least as much. *)
Lemma backed_mono d d' r : (∀ p, answered_to d p → answered_to d' p) → backed d r → backed d' r.
Proof. intros Hm. unfold backed. destruct (phase r); naive_solver. Qed.

Lemma packet_ext p q : channel p = channel q → generation p = generation q → id p = id q →
  p = with_body (body p) q.
Proof. destruct p, q. cbn. by intros -> -> ->. Qed.

(** A request goes on only when the server has answered what it asked for. *)
Lemma advance_backed d p q r : answered_to d p → body p ≠ Welcome →
  q = (if bool_decide (body p = Hello) then with_body Welcome p else p) →
  matches q r = true → request_wf r ∧ backed d r →
  request_wf (advance (body q) r) ∧ backed d (advance (body q) r).
Proof.
  intros Hp Hw Hq Hm [Hwf Hb]. unfold matches in Hm. bools.
  assert (Hexp : (if bool_decide (phase r = Initial) then old r else current r) =
    match phase r with Initial => old r | _ => current r end) by by destruct (phase r).
  rewrite Hexp in *. clear Hexp.
  assert (Hpe : p = with_body (match body q with Welcome => Hello | b => b end)
    (match phase r with Initial => old r | _ => current r end)).
  { replace (match body q with Welcome => Hello | b => b end) with (body p)
      by (rewrite Hq; case_bool_decide as Hh; [by rewrite Hh|by destruct (body p)]).
    revert Hq. case_bool_decide; intros ->; by apply packet_ext. }
  clear Hq. subst p. destruct Hwf as (Hho & Hg1 & Hg2 & Hco).
  assert (Hold : with_body Hello (old r) = old r) by (rewrite <- Hho; by destruct (old r)).
  unfold advance, backed, request_wf in *.
  destruct (body q) eqn:Hbq; destruct (phase r) eqn:Hph; try case_bool_decide; cbn in *;
    rewrite ?Hph, ?Hold in *; simplify_eq; naive_solver.
Qed.

Lemma client_requests_backed d p q rs : answered_to d p → body p ≠ Welcome →
  q = (if bool_decide (body p = Hello) then with_body Welcome p else p) →
  Forall (λ r, request_wf r ∧ backed d r) rs →
  Forall (λ r, request_wf r ∧ backed d r) (client_requests q rs).
Proof.
  intros Hp Hw Hq. induction 1 as [|r rs Hr Hrs IH]; [by constructor|]. cbn [client_requests].
  destruct (matches q r) eqn:Hm; constructor; try done. by eapply advance_backed.
Qed.

Lemma outgoing_sendable r p : request_wf r → outgoing r = Some p →
  generation p ≤ 2 ∧ body p ≠ Welcome ∧ channel p = channel (current r).
Proof.
  intros (Hho & Hg1 & Hg2 & Hco). unfold outgoing. destruct (phase r); intros [= <-]; cbn; split_and!;
    first [done | lia | congruence].
Qed.

Lemma demo_step_inv d d' : demo_step d d' → demo_inv d → demo_inv d'.
Proof.
  intros Hstep [Hlog Hreq Hsent Hans Hrep]. destruct Hstep.
  - by split.
  - match goal with Hd : drive_client _ _ _ = _ |- _ => unfold drive_client in Hd; rename Hd into Hdrive end.
    destruct (c_connection (client d)) as [cn|]; simplify_eq; [|by rewrite app_nil_r; split].
    pose proof (drive_requests_same now send (requests (client d))) as Hsame.
    destruct (drive_requests _ _ _) as [[rs out] ok]. simplify_eq. destruct Hsame as (Hch & Hpr & Hout).
    split; cbn; try done.
    + apply Hpr; [done|]. exact Hreq.
    + apply Forall_app. rewrite <- Hch. split; [done|]. apply Forall_forall. intros p Hp.
      destruct (Hout p Hp) as (r & Hr & Ho). rewrite Forall_forall in Hreq.
      destruct (outgoing_sendable r p (proj1 (Hreq r Hr)) Ho) as (? & ? & ->). split_and!; try done.
      apply list_elem_of_fmap. by exists r.
    + intros p t Hp. apply elem_of_app. left. by apply (Hans p t).
  - match goal with Hh : handle _ _ _ = _ |- _ => apply handle_answered in Hh as [e Han] end.
    assert (Hmono : ∀ q, answered_to d q → answered_to {| client := client d; server := s;
      answers := answers d ++ [(p, t)]; to_server := to_server d; to_client := to_client d ++ [reply] |} q).
    { intros q [tq Hq]. exists tq. cbn. apply elem_of_app. by left. }
    split; cbn; try done.
    + by eapply answered_inv.
    + eapply Forall_impl; [exact Hreq|]. intros r [Hwf Hb]. split; [done|]. by apply (backed_mono d).
    + intros q tq [Hq|Hq%list_elem_of_singleton]%elem_of_app; [by apply (Hans q tq)|]. by simplify_eq.
    + apply Forall_app. split.
      * eapply Forall_impl; [exact Hrep|]. intros q (a & Ha & ->). exists a. by split; [apply Hmono|].
      * constructor; [|constructor]. exists p. split; [|by apply (an_reply _ _ _ _ _ _ Han)].
        exists t. cbn. apply elem_of_app. right. by apply list_elem_of_singleton.
  - match goal with Hh : handle _ _ _ = _ |- _ => apply handle_answered in Hh as -> end. by split.
  - split; cbn; try done. by apply expire_inv.
  - rewrite Forall_forall in Hrep.
    match goal with Hp : _ ∈ to_client d |- _ => destruct (Hrep _ Hp) as (a & Ha & Hq) end.
    assert (Hw : body a ≠ Welcome).
    { destruct Ha as [ta Ha]. apply Hans in Ha. rewrite Forall_forall in Hsent. by apply Hsent. }
    split; cbn; try done.
    + by apply (client_requests_backed d a).
    + by rewrite <- (client_requests_same p (requests (client d))).
    + by apply Forall_forall.
Qed.

Lemma build_requests_wf random_id i sizes rs : build_requests random_id i sizes = Ok rs →
  Forall (λ r, request_wf r ∧ phase r = Initial) rs.
Proof.
  revert i rs. induction sizes as [|sz sizes IH]; cbn; intros i rs Hb; [simplify_eq; by constructor|].
  destruct (255 <? _); [done|]. destruct (random_id (i + (i + 0))%nat sz) as [o|]; [cbn in Hb|done].
  destruct (random_id (i + (i + 0) + 1)%nat sz) as [cur|]; [cbn in Hb|done].
  destruct (build_requests random_id (S i) sizes) as [rest|] eqn:Hr; [cbn in Hb|done]. simplify_eq.
  constructor; [by split|]. by eapply IH.
Qed.

Lemma demo_reachable_inv random_id sizes c d :
  client_sessions random_id sizes = Ok c → rtc demo_step (demo_start c) d → demo_inv d.
Proof.
  intros Hc Hr. unfold client_sessions in Hc. destruct (build_requests random_id 0 sizes) as [rs|] eqn:Hb;
    [cbn in Hc|done]. simplify_eq. apply build_requests_wf in Hb.
  remember (demo_start _) as d0 eqn:Hd0. assert (Hinv : demo_inv d0).
  { subst d0. split; cbn.
    - apply session_start_inv.
    - eapply Forall_impl; [exact Hb|]. intros r [Hwf Hi]. split; [done|]. unfold backed. by rewrite Hi.
    - constructor.
    - by intros p t ?%elem_of_nil.
    - constructor. }
  clear Hd0 Hb. induction Hr as [|d0 d1 d2 Hs _ IH]; [done|]. apply IH. by eapply demo_step_inv.
Qed.

(** C29. The demonstration only succeeds when it has shown what it claims: over a
    network that loses, repeats and reorders datagrams, whenever [finish_demo]
    reports success the server has, for every request, welcomed the old session,
    welcomed the one that replaces it, echoed its data and acknowledged its close,
    and no session of the client is left active. *)
Theorem demo_success random_id sizes c d now started disconnects :
  client_sessions random_id sizes = Ok c → rtc demo_step (demo_start c) d →
  finish_demo now started (client d) = (Some Success, disconnects) →
  active (server d) = 0%nat ∧
  Forall (λ r, answered_to d (old r) ∧ answered_to d (with_body Hello (current r)) ∧
    answered_to d (with_body (Data application_data) (current r)) ∧
    answered_to d (with_body Close (current r))) (requests (client d)).
Proof.
  intros Hc Hr Hf. destruct (demo_reachable_inv _ _ _ _ Hc Hr) as [Hlog Hreq Hsent Hans Hrep].
  assert (Hdone : Forall (λ r, phase r = Done) (requests (client d))).
  { unfold finish_demo in Hf. destruct (bool_decide _ && _) eqn:Hall; [|by destruct (_ <=? _)]. bools.
    match goal with Hx : forallb _ _ = true |- _ => apply forallb_Forall in Hx as Hall end.
    eapply Forall_impl; [exact Hall|]. intros r Hd. by apply bool_decide_eq_true in Hd. }
  assert (Hback : ∀ r, r ∈ requests (client d) → request_wf r ∧ backed d r ∧ phase r = Done).
  { intros r Hr'. rewrite Forall_forall in Hreq, Hdone. destruct (Hreq r Hr'). auto. }
  split.
  - unfold active. apply map_size_empty_iff, map_empty_filter_2.
    intros ch e He Ha. cbn in Ha. enough (is_active e = false) by congruence. clear Ha.
    destruct (li_clock _ _ Hlog ch e He) as (a & Hin & Hch & Hg & _ & _).
    apply Hans in Hin. rewrite Forall_forall in Hsent.
    destruct (Hsent a Hin) as (Hga & _ & Hin'). apply list_elem_of_fmap in Hin' as (r & Hrc & Hr').
    destruct (Hback r Hr') as ((_ & _ & Hg2 & _) & Hb & Hph). unfold backed in Hb. rewrite Hph in Hb.
    destruct Hb as (_ & _ & _ & t & Hclose).
    destruct (li_known _ _ Hlog _ _ Hclose) as (e' & He' & Hge & Hk). cbn in *.
    rewrite <- Hch, Hrc in He. cbn in He. rewrite He' in He. simplify_eq.
    by apply Hk; [lia|].
  - apply Forall_forall. intros r Hr'. destruct (Hback r Hr') as (_ & Hb & Hph).
    unfold backed in Hb. by rewrite Hph in Hb.
Qed.

(** ** A round without losses

    The client asks, the server answers everything asked, the client hears
    everything answered. *)
Definition serve (t : Z) (d : Demo) (p : Packet) : Demo :=
  let '(s, r) := handle p t (server d) in
  {| client := client d; server := s;
     answers := match r with Some _ => answers d ++ [(p, t)] | None => answers d end;
     to_server := to_server d;
     to_client := match r with Some reply => to_client d ++ [reply] | None => to_client d end |}.

Definition hear (d : Demo) (p : Packet) : Demo :=
  {| client := client_packet p (client d); server := server d; answers := answers d;
     to_server := to_server d; to_client := to_client d |}.

Definition round (now : Z) (d : Demo) : Demo :=
  let '(c, sent) := drive_client now (λ _, true) (client d) in
  let d1 := {| client := c; server := server d; answers := answers d;
               to_server := to_server d ++ sent; to_client := to_client d |} in
  let d2 := foldl (serve now) d1 sent in
  foldl hear d2 (drop (length (to_client d)) (to_client d2)).

Lemma serves_reachable t ps d : (∀ p, p ∈ ps → p ∈ to_server d) → rtc demo_step d (foldl (serve t) d ps).
Proof.
  revert d. induction ps as [|p ps IH]; intros d Hps; [done|]. cbn [foldl].
  apply rtc_l with (serve t d p).
  - unfold serve. destruct (handle p t (server d)) as [s [reply|]] eqn:Hh.
    + apply demo_request; [apply Hps; by left|done].
    + apply (demo_refused p t); [apply Hps; by left|done].
  - apply IH. intros q Hq. unfold serve. destruct (handle _ _ _) as [s r]. apply Hps. by right.
Qed.

Lemma hears_reachable ps d : (∀ p, p ∈ ps → p ∈ to_client d) → rtc demo_step d (foldl hear d ps).
Proof.
  revert d. induction ps as [|p ps IH]; intros d Hps; [done|]. cbn [foldl].
  apply rtc_l with (hear d p); [apply demo_reply, Hps; by left|].
  apply IH. intros q Hq. apply Hps. by right.
Qed.

Lemma round_reachable now d : rtc demo_step d (round now d).
Proof.
  unfold round. destruct (drive_client _ _ _) as [c sent] eqn:Hd.
  eapply rtc_l; [by eapply demo_drive|]. etrans.
  - apply (serves_reachable now sent). intros p Hp. apply elem_of_app. by right.
  - apply hears_reachable. intros p Hp. by eapply (subseteq_drop _ _ p Hp).
Qed.

Definition rounds (nows : list Z) (d : Demo) : Demo := foldl (λ d now, round now d) d nows.

Lemma rounds_reachable nows d : rtc demo_step d (rounds nows d).
Proof.
  revert d. induction nows as [|now nows IH]; intros d; [done|].
  cbn. etrans; [apply round_reachable|apply IH].
Qed.
End Demo.

(** The [main] of the example: two sessions, of 48 and 64 bytes, done in four
    rounds. *)
Definition example_random (k size : nat) : result (list Z) io_error := Ok (replicate size (Z.of_nat k)).

Definition example_client : ClientSessions nat :=
  {| c_connection := None; attempts := 0;
     requests := match build_requests example_random 0 [48; 64]%nat with Ok rs => rs | Err _ => [] end |}.

Definition example_demo : Demo :=
  rounds [0; 10; 20; 30] {| client := ready 7%nat example_client; server := sessions_default;
                            answers := []; to_server := []; to_client := [] |}.

Example example_demo_done :
  (phase <$> requests (client example_demo), attempts (client example_demo),
   finish_demo 40 0 (client example_demo)) = ([Done; Done], 8, (Some Success, true)).
Proof. by vm_compute. Qed.

Lemma demo_success_witness :
  client_sessions example_random [48; 64]%nat = Ok example_client ∧
  rtc demo_step (demo_start example_client) example_demo ∧
  active (server example_demo) = 0%nat ∧
  Forall (λ r, answered_to example_demo (old r) ∧
    answered_to example_demo (with_body Hello (current r)) ∧
    answered_to example_demo (with_body (Data application_data) (current r)) ∧
    answered_to example_demo (with_body Close (current r))) (requests (client example_demo)).
Proof.
  assert (Hc : client_sessions example_random [48; 64]%nat = Ok example_client) by by vm_compute.
  assert (Hr : rtc demo_step (demo_start example_client) example_demo).
  { eapply rtc_l; [apply (demo_ready 7%nat)|]. apply rounds_reachable. }
  split; [exact Hc|]. split; [exact Hr|].
  refine (demo_success example_random [48; 64]%nat example_client example_demo 40 0 true Hc Hr _).
  by vm_compute.
Defined.
