(* ===== verification/Recovery.v ===== *)
(** * Recovery of the session example

    What retrying is for, in src/examples/udp_application_sessions.rs: once the
    network stops losing datagrams, the requests of [SessionApp] finish, from
    whatever state the losses left them in, unless a session they still need has
    expired. *)

From S2P Require Import Prelude Protocol Codec Session SessionApp.

(** ** What one exchange does to a request *)

Definition next_phase (p : Phase) : Phase :=
  match p with
  | Initial => Replacement | Replacement => Echo | Echo => Closing | Closing | Done => Done
  end.

Definition request_channel (r : Request) : Z := channel (current r).

(** The request once it is sent, the answer it is due, and the request once it has
    heard it. *)
Definition driven (now : Z) (r : Request) : Request :=
  match outgoing r with Some _ => with_last_sent now r | None => r end.
Definition reply_to (p : Packet) : Packet :=
  if bool_decide (body p = Hello) then with_body Welcome p else p.
Definition reply_of (r : Request) : option Packet := reply_to <$> outgoing r.
Definition advanced (r : Request) : Request :=
  match outgoing r with Some _ => with_phase (next_phase (phase r)) r | None => r end.

(** A request whose retry is due. *)
Definition due (now : Z) (r : Request) : Prop :=
  phase r = Done ∨ ∀ t, last_sent r = Some t → RETRY ≤ now - t.

(** Identifiers the server accepts. *)
Definition sized (i : list Z) : Prop := i ≠ [] ∧ zlen i ≤ 128.
Definition request_ok (r : Request) : Prop := request_wf r ∧ sized (id (old r)) ∧ sized (id (current r)).

(** The server's entry for a packet's session. *)
Definition entry_of (p : Packet) (e : Entry) : Prop := e_generation e = generation p ∧ e_id e = id p.

(** What the server must hold for the next packet of a request to be answered. *)
Definition ready_at (r : Request) (o : option Entry) : Prop :=
  match phase r with
  | Initial => ∀ e, o = Some e → entry_of (old r) e ∧ is_active e = true
  | Replacement => ∃ e, o = Some e ∧ (entry_of (old r) e ∨ entry_of (current r) e ∧ is_active e = true)
  | Echo => ∃ e, o = Some e ∧ entry_of (current r) e ∧ is_active e = true
  | Closing => ∃ e, o = Some e ∧ entry_of (current r) e
  | Done => True
  end.

Lemma outgoing_channel r p : request_ok r → outgoing r = Some p → channel p = request_channel r.
Proof. intros [Hwf _] Ho. by apply (outgoing_sendable r p Hwf Ho). Qed.

Lemma reply_of_channel r q : request_ok r → reply_of r = Some q → channel q = request_channel r.
Proof.
  intros Hok. unfold reply_of, reply_to. destruct (outgoing r) as [p|] eqn:Ho; [|done].
  intros [= <-]. rewrite <- (outgoing_channel r p Hok Ho). by case_bool_decide.
Qed.

Lemma request_channel_driven now r : request_channel (driven now r) = request_channel r.
Proof. unfold driven. by destruct (outgoing r). Qed.
Lemma request_channel_advanced r : request_channel (advanced r) = request_channel r.
Proof. unfold advanced. by destruct (outgoing r). Qed.
Lemma request_ok_advanced r : request_ok r → request_ok (advanced r).
Proof. unfold advanced. by destruct (outgoing r). Qed.

Lemma sized_accepted i : sized i → bool_decide (i = []) || (128 <? zlen i) = false.
Proof. intros [Hne Hlen]. rewrite bool_decide_false by done. by apply Z.ltb_ge. Qed.

(** ** The server answers *)

(** The server answers what a request asks when it holds what it must, and then
    holds what the next packet needs. *)
Lemma handle_ready r p t s : request_ok r → outgoing r = Some p →
  ready_at r (entries s !! request_channel r) →
  is_Some (entries s !! request_channel r) ∨ Z.of_nat (size (entries s)) < 8 →
  ∃ s' e, handle p t s = (s', Some (reply_to p)) ∧
    entries s' = <[request_channel r:=e]> (entries s) ∧ ready_at (advanced r) (Some e).
Proof.
  intros ((Hho & Hg1 & Hg2 & Hco) & Hold & Hcur) Ho Hready Hroom.
  apply sized_accepted in Hold, Hcur.
  unfold advanced, ready_at, reply_to, request_channel in *. rewrite Ho. unfold outgoing in Ho.
  destruct (phase r) eqn:Hph; simplify_eq; cbn [next_phase phase with_phase old current] in *;
    unfold handle, handle_hello; cbn [id body channel generation with_body]; rewrite ?Hold, ?Hcur, ?Hho.
  - rewrite Hco. cbn [bool_decide]. destruct (entries s !! channel (current r)) as [e|] eqn:He.
    + destruct (Hready e eq_refl) as [[Hg Hi] Ha]. rewrite Hg, Hi, Ha, Z.ltb_irrefl, Z.eqb_refl.
      rewrite (bool_decide_true (id _ = id _)) by done. cbn. eexists _, _. split_and!; [done..|].
      eexists. split; [done|]. by left.
    + destruct (8 <=? _) eqn:Hfull; bools; [destruct Hroom as [[? ?]|?]; [done|lia]|].
      cbn. eexists _, _. split_and!; [done..|]. eexists. split; [done|]. by left.
  - destruct Hready as (e & -> & Hcase). cbn [bool_decide].
    destruct Hcase as [[Hg Hi]|[[Hg Hi] Ha]]; rewrite Hg.
    + rewrite Hg1, Hg2. cbn. eexists _, _. split_and!; [done..|]. eexists. split; [done|].
      by split; [|done].
    + rewrite Hi, Ha, Z.ltb_irrefl, Z.eqb_refl, (bool_decide_true (id _ = id _)) by done. cbn.
      eexists _, _. split_and!; [done..|]. eexists. by split; [|split].
  - destruct Hready as (e & -> & [Hg Hi] & Ha). cbn [bool_decide].
    rewrite Hg, Hi, Ha, Z.eqb_refl, (bool_decide_true (id _ = id _)) by done. cbn.
    eexists _, _. split_and!; [done..|]. eexists. by split.
  - destruct Hready as (e & He & [Hg Hi]). rewrite He. cbn [bool_decide].
    rewrite Hg, Hi, Z.eqb_refl, (bool_decide_true (id _ = id _)) by done. destruct (is_active e) eqn:Ha; cbn.
    + by eexists _, _.
    + eexists s, e. split_and!; [done| |done]. by rewrite insert_id.
Qed.

Section Round.
Context {Conn : Type}.
Implicit Types (d : Demo (Conn:=Conn)) (r : Request) (rs : list Request).

Lemma serve_ready t d r p s' : handle p t (server d) = (s', Some (reply_to p)) →
  server (serve t d p) = s' ∧ client (serve t d p) = client d ∧
  to_client (serve t d p) = to_client d ++ [reply_to p].
Proof. unfold serve. by intros ->. Qed.

Lemma elem_of_channels r rs : r ∈ rs → request_channel r ∈ (request_channel <$> rs).
Proof. intros Hr. apply list_elem_of_fmap. by exists r. Qed.

(** A channel of [C] without an entry leaves room for one. *)
Lemma has_room (C : gset Z) (m : gmap Z Entry) c : dom m ⊆ C → (size C ≤ 8)%nat → c ∈ C →
  is_Some (m !! c) ∨ Z.of_nat (size m) < 8.
Proof.
  intros Hdom HC Hc. destruct (m !! c) eqn:Hm; [by left; eexists|]. right.
  apply not_elem_of_dom in Hm. assert (size (dom m) < size C)%nat by (apply subset_size; set_solver).
  rewrite size_dom in *. lia.
Qed.

(** Serving what a list of requests asks: each gets its answer, and the server
    holds what each asks next. *)
Lemma serve_all t (C : gset Z) rs d :
  NoDup (request_channel <$> rs) → Forall request_ok rs →
  Forall (λ r, ready_at r (entries (server d) !! request_channel r)) rs →
  (∀ c, c ∈ (request_channel <$> rs) → c ∈ C) → dom (entries (server d)) ⊆ C → (size C ≤ 8)%nat →
  let d' := foldl (serve t) d (omap outgoing rs) in
  to_client d' = to_client d ++ omap reply_of rs ∧ client d' = client d ∧
  Forall (λ r, ready_at (advanced r) (entries (server d') !! request_channel r)) rs ∧
  (∀ c, c ∉ (request_channel <$> rs) → entries (server d') !! c = entries (server d) !! c) ∧
  dom (entries (server d')) ⊆ C.
Proof.
  revert d. induction rs as [|r rs IH]; intros d Hnd Hok Hready HC Hdom Hsize; cbn.
  { split_and!; [by rewrite app_nil_r|done|constructor|done|done]. }
  apply NoDup_cons in Hnd as [Hfresh Hnd]. apply Forall_cons in Hok as [Hr Hok].
  apply Forall_cons in Hready as [Hrr Hready].
  assert (HC' : ∀ c, c ∈ (request_channel <$> rs) → c ∈ C) by (intros c Hc; apply HC; by right).
  assert (Hin : request_channel r ∈ C) by (apply HC; by left).
  unfold reply_of at 1. destruct (outgoing r) as [p|] eqn:Ho; cbn.
  - destruct (handle_ready r p t (server d) Hr Ho Hrr (has_room C _ _ Hdom Hsize Hin)) as (s' & e & Hh & Hs' & He).
    destruct (serve_ready t d r p s' Hh) as (Hs & Hcl & Htc).
    destruct (IH (serve t d p)) as (IH1 & IH2 & IH3 & IH4 & IH5); try done.
    + rewrite Hs, Hs'. rewrite Forall_forall in Hready |- *. intros r' Hr'. rewrite lookup_insert_ne; [by apply Hready|].
      intros Heq. apply Hfresh. rewrite Heq. by apply elem_of_channels.
    + rewrite Hs, Hs', dom_insert_L. set_solver.
    + rewrite Hs, Hs' in IH4. split_and!.
      * by rewrite IH1, Htc, <- app_assoc.
      * congruence.
      * constructor; [|done]. by rewrite IH4, lookup_insert_eq.
      * intros c Hc. apply not_elem_of_cons in Hc as [Hne Hc]. by rewrite IH4, lookup_insert_ne.
      * done.
  - destruct (IH d) as (IH1 & IH2 & IH3 & IH4 & IH5); try done. split_and!; try done.
    + constructor; [|done]. rewrite IH4 by done. unfold advanced. by rewrite Ho.
    + intros c Hc. apply not_elem_of_cons in Hc as [Hne Hc]. by rewrite IH4.
Qed.

(** ** The client hears *)

Lemma matches_channel q r : request_wf r → matches q r = true → channel q = request_channel r.
Proof.
  intros (_ & _ & _ & Hco) Hm. unfold matches, request_channel in *. bools.
  match goal with Hc : channel q = _ |- _ => rewrite Hc end. by case_bool_decide.
Qed.

Lemma client_requests_skip q pre post :
  Forall request_ok pre → channel q ∉ (request_channel <$> pre) →
  client_requests q (pre ++ post) = pre ++ client_requests q post.
Proof.
  induction pre as [|r pre IH]; [done|]. intros [[Hwf _] Hok]%Forall_cons [Hne Hq]%not_elem_of_cons. cbn.
  destruct (matches q r) eqn:Hm; [by apply matches_channel in Hm|]. f_equal. by apply IH.
Qed.

(** Its answer advances the request that was sent. *)
Lemma client_requests_answer now r q post : request_ok r → reply_of r = Some q →
  client_requests q (driven now r :: post) = advanced r :: post.
Proof.
  intros ((Hho & _ & _ & Hco) & _) Hq. unfold reply_of in Hq. destruct (outgoing r) as [p|] eqn:Ho; [|done].
  cbn in Hq. simplify_eq. unfold driven, advanced. rewrite Ho. unfold outgoing in Ho.
  assert (Hm : matches (reply_to p) (with_last_sent now r) = true).
  { unfold matches, reply_to. destruct (phase r) eqn:Hph; simplify_eq; cbn; rewrite ?Hph, ?Hho; cbn;
      by rewrite !Z.eqb_refl, bool_decide_true. }
  cbn [client_requests]. rewrite Hm. f_equal. unfold advance, reply_to.
  destruct (phase r) eqn:Hph; simplify_eq; cbn; rewrite ?Hho, ?Hph; by cbn.
Qed.

Lemma hear_all now pre rs d :
  NoDup (request_channel <$> pre ++ rs) → Forall request_ok (pre ++ rs) →
  requests (client d) = pre ++ (driven now <$> rs) →
  let d' := foldl hear d (omap reply_of rs) in
  requests (client d') = pre ++ (advanced <$> rs) ∧ c_connection (client d') = c_connection (client d) ∧
  server d' = server d.
Proof.
  revert pre d. induction rs as [|r rs IH]; intros pre d Hnd Hok Hreq; [done|].
  assert (Hsplit : ∀ x, pre ++ x :: (advanced <$> rs) = (pre ++ [x]) ++ (advanced <$> rs))
    by (intros; by rewrite <- app_assoc).
  assert (Hr : request_ok r) by (apply Forall_app in Hok as [_ Hok]; by apply Forall_cons in Hok as [? _]).
  assert (Hpre : Forall request_ok pre) by by apply Forall_app in Hok as [? _].
  assert (Hnd' : NoDup (request_channel <$> (pre ++ [advanced r]) ++ rs)).
  { rewrite <- app_assoc, fmap_app in *. cbn. by rewrite request_channel_advanced. }
  assert (Hok' : Forall request_ok ((pre ++ [advanced r]) ++ rs)).
  { apply Forall_app in Hok as [Hok1 Hok2]. apply Forall_cons in Hok2 as [_ Hok2].
    rewrite !Forall_app, Forall_singleton. split_and!; [done|by apply request_ok_advanced|done]. }
  assert (Hch : request_channel r ∉ (request_channel <$> pre)).
  { rewrite fmap_app in Hnd. apply NoDup_app in Hnd as (_ & Hdis & _). intros Hin.
    apply (Hdis _ Hin). by left. }
  cbn [fmap list_fmap]. rewrite Hsplit. destruct (reply_of r) as [q|] eqn:Hq.
  - replace (omap reply_of (r :: rs)) with (q :: omap reply_of rs) by (cbn; by rewrite Hq). cbn [foldl].
    destruct (IH (pre ++ [advanced r]) (hear d q)) as (IH1 & IH2 & IH3); try done.
    cbn. rewrite Hreq, client_requests_skip; [|done|by rewrite (reply_of_channel r q)].
    cbn [fmap list_fmap]. rewrite (client_requests_answer now r q) by done. by rewrite <- app_assoc.
  - replace (omap reply_of (r :: rs)) with (omap reply_of rs) by (cbn; by rewrite Hq).
    apply IH; [done|done|]. rewrite Hreq, <- app_assoc. cbn. repeat f_equal.
    unfold reply_of, driven, advanced in *. by destruct (outgoing r).
Qed.

Lemma drive_due now rs : Forall (due now) rs →
  drive_requests now (λ _, true) rs = (driven now <$> rs, omap outgoing rs, true).
Proof.
  induction 1 as [|r rs Hd Hds IH]; [done|]. cbn. rewrite IH. unfold driven.
  destruct (from_option _ _ _) eqn:Hrec.
  - destruct Hd as [Hdone|Hdue]; [unfold outgoing; by rewrite Hdone|].
    destruct (last_sent r) as [t|]; [|done]. cbn in Hrec. bools. specialize (Hdue t eq_refl).
    unfold saturating_duration_since in *. lia.
  - by destruct (outgoing r).
Qed.

(** ** A round *)

Record recoverable d : Prop := {
  rc_connection : is_Some (c_connection (client d));
  rc_channels : NoDup (request_channel <$> requests (client d));
  rc_requests : Forall request_ok (requests (client d));
  rc_ready : Forall (λ r, ready_at r (entries (server d) !! request_channel r)) (requests (client d));
  rc_entries : dom (entries (server d)) ⊆ (list_to_set (request_channel <$> requests (client d)) : gset Z);
  rc_bound : (length (requests (client d)) ≤ 8)%nat;
}.

Lemma channels_advanced rs : request_channel <$> (advanced <$> rs) = request_channel <$> rs.
Proof.
  rewrite <- list_fmap_compose. apply list_fmap_ext. intros i r _. apply request_channel_advanced.
Qed.

Lemma round_advances now d : recoverable d → Forall (due now) (requests (client d)) →
  requests (client (round now d)) = advanced <$> requests (client d) ∧ recoverable (round now d).
Proof.
  intros [[cn Hconn] Hnd Hok Hready Hdom Hlen] Hdue. unfold round, drive_client. rewrite Hconn, drive_due by done.
  set (rs := requests (client d)) in *. cbn zeta. cbn [client server answers to_server to_client].
  set (d1 := {| client := _; server := server d; answers := _; to_server := _; to_client := _ |}).
  destruct (serve_all now (list_to_set (request_channel <$> rs)) rs d1) as (Htc & Hcl & Hr & _ & Hdom').
  { done. } { done. } { done. } { intros c Hc. by apply elem_of_list_to_set. } { done. }
  { rewrite size_list_to_set by done. by rewrite length_fmap. }
  set (d2 := foldl (serve now) d1 (omap outgoing rs)) in *.
  rewrite Htc. cbn [to_client d1]. rewrite drop_app_length.
  destruct (hear_all now [] rs d2) as (Hreq & Hc & Hs); [done|done|by rewrite Hcl|].
  set (d3 := foldl hear d2 (omap reply_of rs)) in *. cbn [app] in Hreq. split; [done|]. split.
  - rewrite Hc, Hcl. by exists cn.
  - by rewrite Hreq, channels_advanced.
  - rewrite Hreq. apply Forall_fmap. eapply Forall_impl; [exact Hok|]. apply request_ok_advanced.
  - rewrite Hreq, Hs. apply Forall_fmap. eapply Forall_impl; [exact Hr|]. intros r. cbn.
    by rewrite request_channel_advanced.
  - by rewrite Hreq, Hs, channels_advanced.
  - by rewrite Hreq, length_fmap.
Qed.

(** What advanced is due at once. *)
Lemma advanced_due now r : due now (advanced r).
Proof.
  unfold due, advanced, outgoing. destruct (phase r) eqn:Hph; cbn; try (right; by intros t). by left.
Qed.

Lemma rounds_advance nows d : recoverable d → (∀ now, Forall (due now) (requests (client d))) →
  requests (client (rounds nows d)) = Nat.iter (length nows) advanced <$> requests (client d) ∧
  recoverable (rounds nows d).
Proof.
  revert d. induction nows as [|now nows IH]; intros d Hrc Hdue; [split; [by rewrite list_fmap_id|done]|].
  destruct (round_advances now d Hrc (Hdue now)) as [Hreq Hrc'].
  destruct (IH (round now d) Hrc') as [Hall Hrc''].
  { intros later. rewrite Hreq. apply Forall_fmap, Forall_true. intros r. apply advanced_due. }
  split; [|done]. cbn [rounds foldl length]. change (foldl _ ?x nows) with (rounds nows x).
  rewrite Hall, Hreq, <- list_fmap_compose. apply list_fmap_ext. intros i r _. by rewrite Nat.iter_succ_r.
Qed.

Lemma four_advances r : phase (Nat.iter 4 advanced r) = Done.
Proof.
  cbn. unfold advanced, outgoing. destruct (phase r) eqn:Hph; cbn; rewrite ?Hph; by cbn.
Qed.
End Round.

(** ** States reached through losses *)

Section Reachable.
Context {Conn : Type}.
Implicit Types (d : Demo (Conn:=Conn)) (r : Request) (rs : list Request).

(** The packets a request has asked for so far. *)
Definition sent_by (r : Request) (p : Packet) : Prop :=
  p = old r ∨ phase r ≠ Initial ∧ ∃ b, p = with_body b (current r).

(** A request only changes its phase, never back to the first, and its times. *)
Definition evolves (r r' : Request) : Prop :=
  old r' = old r ∧ current r' = current r ∧ (phase r' = Initial → phase r = Initial).

Record plan_inv d : Prop := {
  pi_channels : NoDup (request_channel <$> requests (client d));
  pi_requests : Forall request_ok (requests (client d));
  pi_sent : ∀ p, p ∈ to_server d → ∃ r, r ∈ requests (client d) ∧ sent_by r p;
  pi_bound : (length (requests (client d)) ≤ 8)%nat;
}.

#[local] Instance evolves_refl : Reflexive evolves.
Proof. by intros r. Qed.

Lemma drive_requests_evolve now send rs :
  let '(rs', sent, _) := drive_requests now send rs in
  Forall2 evolves rs rs' ∧ ∀ p, p ∈ sent → ∃ r, r ∈ rs ∧ outgoing r = Some p.
Proof.
  pose proof (drive_requests_same now send rs) as Hs.
  enough (Hev : Forall2 evolves rs (drive_requests now send rs).1.1).
  { destruct (drive_requests now send rs) as [[rs' sent] ok]. split; [done|]. apply Hs. }
  clear Hs. induction rs as [|r rs IH]; [constructor|]. cbn [drive_requests].
  destruct (drive_requests now send rs) as [[rs' sent] ok]. cbn in IH.
  assert (Hrefl : Forall2 evolves rs rs) by reflexivity.
  destruct (from_option _ _ _); [by constructor|]. destruct (outgoing r); [|by constructor].
  by destruct (send _); constructor.
Qed.

Lemma client_requests_evolve q rs : Forall2 evolves rs (client_requests q rs).
Proof.
  assert (Hrefl : ∀ rs, Forall2 evolves rs rs) by (intros l; reflexivity).
  induction rs as [|r rs IH]; [constructor|]. cbn. destruct (matches q r); constructor; try done.
  unfold advance. destruct (body q), (phase r) eqn:Hph; try done. by case_bool_decide.
Qed.

Lemma evolves_sent r r' p : evolves r r' → sent_by r p → sent_by r' p.
Proof.
  intros (Ho & Hc & Hp) [->|[Hph [b ->]]]; [by left|]. right. rewrite Hc. split; [tauto|by exists b].
Qed.

Lemma plan_evolves d d' : plan_inv d → Forall2 evolves (requests (client d)) (requests (client d')) →
  (∀ p, p ∈ to_server d' → p ∈ to_server d ∨ ∃ r, r ∈ requests (client d) ∧ outgoing r = Some p) →
  plan_inv d'.
Proof.
  intros [Hnd Hok Hsent Hlen] Hev Hnew.
  assert (Hch : request_channel <$> requests (client d') = request_channel <$> requests (client d)).
  { clear -Hev. induction Hev as [|r r' rs rs' (_ & Hc & _) _ IH]; [done|]. cbn. unfold request_channel at 1 3.
    by rewrite Hc, IH. }
  split.
  - by rewrite Hch.
  - clear -Hev Hok. induction Hev as [|r r' rs rs' (Ho & Hc & _) _ IH]; [done|].
    apply Forall_cons in Hok as [Hr Hok]. constructor; [|by apply IH].
    unfold request_ok, request_wf in *. by rewrite Ho, Hc.
  - intros p Hp. assert (Hold : ∃ r, r ∈ requests (client d) ∧ sent_by r p).
    { destruct (Hnew p Hp) as [Hin|(r & Hr & Hout)]; [by apply Hsent|]. exists r. split; [done|].
      rewrite Forall_forall in Hok. destruct (Hok r Hr) as [Hwf _].
      unfold outgoing in Hout. destruct (phase r) eqn:Hph; simplify_eq; [by left|..];
        (right; split; [congruence|by eexists]). }
    destruct Hold as (r & Hr & Hby). apply list_elem_of_lookup in Hr as [i Hi].
    destruct (Forall2_lookup_l _ _ _ _ _ Hev Hi) as (r' & Hr' & He). exists r'.
    split; [by eapply list_elem_of_lookup_2|by eapply evolves_sent].
  - by rewrite <- (Forall2_length _ _ _ Hev).
Qed.

Lemma demo_step_plan d d' : demo_step d d' → plan_inv d → plan_inv d'.
Proof.
  assert (Hrefl : ∀ rs, Forall2 evolves rs rs) by (intros l; reflexivity).
  intros Hstep Hinv. apply (plan_evolves d d' Hinv); destruct Hstep as [c d|now send d c sent Hd| | | |p d Hp];
    cbn; auto.
  - unfold drive_client in Hd. destruct (c_connection (client d)); [|by simplify_eq].
    pose proof (drive_requests_evolve now send (requests (client d))) as Hev.
    destruct (drive_requests _ _ _) as [[rs out] ok]. simplify_eq. apply Hev.
  - apply client_requests_evolve.
  - unfold drive_client in Hd. intros p [Hp|Hp]%elem_of_app; [by left|]. right.
    destruct (c_connection (client d)); simplify_eq; [|by apply elem_of_nil in Hp].
    pose proof (drive_requests_evolve now send (requests (client d))) as Hev.
    destruct (drive_requests _ _ _) as [[rs out] ok]. simplify_eq. by apply Hev.
Qed.

Lemma build_requests_plan random_id i sizes rs :
  (∀ k sz x, random_id k sz = Ok x → length x = sz) → Forall (λ sz, 1 ≤ sz ≤ 128)%nat sizes →
  build_requests random_id i sizes = Ok rs →
  Forall request_ok rs ∧ request_channel <$> rs = Z.of_nat <$> seq i (length sizes).
Proof.
  intros Hrandom Hsizes. revert i rs. induction Hsizes as [|sz sizes Hsz _ IH]; cbn [build_requests]; intros i rs Hb.
  { by simplify_eq. }
  assert (Hsized : ∀ k x, random_id k sz = Ok x → sized x).
  { intros k x Hx. apply Hrandom in Hx. split; [by intros ->; cbn in Hx; lia|unfold zlen; lia]. }
  destruct (255 <? _); [done|]. destruct (random_id (2 * i)%nat sz) as [o|] eqn:Ho; [cbn in Hb|done].
  destruct (random_id _ sz) as [c|] eqn:Hc in Hb; [cbn in Hb|done].
  destruct (build_requests random_id (S i) sizes) as [rest|] eqn:Hr; [cbn in Hb|done]. simplify_eq.
  destruct (IH (S i) rest Hr) as [Hok Hch]. split; [|cbn; by rewrite Hch].
  constructor; [|done]. split_and!; [done| |]; cbn; by eapply Hsized.
Qed.

Lemma demo_reachable_plan random_id sizes c d :
  (∀ k sz x, random_id k sz = Ok x → length x = sz) → Forall (λ sz, 1 ≤ sz ≤ 128)%nat sizes →
  (length sizes ≤ 8)%nat → client_sessions random_id sizes = Ok c →
  rtc demo_step (demo_start c) d → plan_inv d.
Proof.
  intros Hrandom Hsizes Hlen Hc Hr. unfold client_sessions in Hc.
  destruct (build_requests random_id 0 sizes) as [rs|] eqn:Hb; [cbn in Hc|done]. simplify_eq.
  destruct (build_requests_plan _ _ _ _ Hrandom Hsizes Hb) as [Hok Hch].
  remember (demo_start _) as d0 eqn:Hd0. assert (Hinv : plan_inv d0).
  { subst d0. split; cbn.
    - rewrite Hch. apply NoDup_fmap; [apply _|apply NoDup_seq].
    - done.
    - by intros p ?%elem_of_nil.
    - rewrite <- (length_fmap request_channel), Hch, length_fmap, length_seq. done. }
  clear Hd0. induction Hr as [|d0 d1 d2 Hs _ IH]; [done|]. by eapply IH, demo_step_plan.
Qed.

(** The requests that still need the session they are in, and that none of these
    sessions has expired. *)
Definition needs_session (r : Request) : bool :=
  match phase r with Initial | Replacement | Echo => true | Closing | Done => false end.
Definition unexpired d : Prop :=
  ∀ r e, r ∈ requests (client d) → needs_session r = true →
    entries (server d) !! request_channel r = Some e → is_active e = true.

(** The entry of a request's channel is of one of its two sessions. *)
Lemma entry_of_request d r e : demo_inv d → plan_inv d → r ∈ requests (client d) →
  entries (server d) !! request_channel r = Some e →
  entry_of (old r) e ∨ entry_of (current r) e ∧ phase r ≠ Initial.
Proof.
  intros Hinv [Hnd Hok Hsent _] Hr He.
  destruct (li_clock _ _ (di_log d Hinv) _ _ He) as (a & Ha & Hch & Hg & Hi & _).
  apply (di_answers d Hinv) in Ha. destruct (Hsent a Ha) as (r' & Hr' & Hby).
  assert (Hcr : request_channel r' = channel a).
  { rewrite Forall_forall in Hok. destruct (Hok r' Hr') as [(_ & _ & _ & Hco) _].
    unfold request_channel. by destruct Hby as [->|[_ [b ->]]]. }
  assert (r' = r) as ->.
  { apply list_elem_of_lookup in Hr as [i Hi']. apply list_elem_of_lookup in Hr' as [j Hj].
    assert (i = j) as ->; [|congruence]. apply (NoDup_lookup _ _ _ (request_channel r) Hnd);
      rewrite list_lookup_fmap, ?Hi', ?Hj; cbn; congruence. }
  unfold entry_of. destruct Hby as [->|[Hph [b ->]]]; cbn in *; [left|right]; auto.
Qed.

(** What the server is known to have answered is still there. *)
Lemma answered_entry d p : demo_inv d → answered_to d p →
  ∃ e, entries (server d) !! channel p = Some e ∧ generation p ≤ e_generation e.
Proof.
  intros Hinv [t Ht]. destruct (li_known _ _ (di_log d Hinv) _ _ Ht) as (e & He & Hg & _). by exists e.
Qed.

Lemma reachable_ready d r : demo_inv d → plan_inv d → unexpired d → r ∈ requests (client d) →
  ready_at r (entries (server d) !! request_channel r).
Proof.
  intros Hinv Hplan Hunexp Hr.
  assert (Hback : request_wf r ∧ backed d r).
  { pose proof (di_requests d Hinv) as Hall. rewrite Forall_forall in Hall. by apply Hall. }
  destruct Hback as [(_ & Hg1 & Hg2 & Hco) Hb].
  pose proof (λ e, entry_of_request d r e Hinv Hplan Hr) as Hentry.
  assert (Hact : ∀ e, needs_session r = true → entries (server d) !! request_channel r = Some e →
    is_active e = true) by (intros e Hn He; by apply (Hunexp r)).
  assert (Hhello : answered_to d (with_body Hello (current r)) →
    ∃ e, entries (server d) !! request_channel r = Some e ∧ entry_of (current r) e).
  { intros Ha. destruct (answered_entry d _ Hinv Ha) as (e & He & Hg). exists e. split; [done|].
    destruct (Hentry e He) as [[Hge _]|[Hcur _]]; [cbn in Hg; lia|done]. }
  unfold ready_at, backed, needs_session in *. destruct (phase r) eqn:Hph.
  - intros e He. split; [|by apply Hact]. by destruct (Hentry e He) as [?|[_ ?]].
  - destruct (answered_entry d _ Hinv Hb) as (e & He & _). rewrite Hco in He. exists e. split; [done|].
    destruct (Hentry e He) as [?|[? _]]; [by left|right; auto].
  - destruct Hhello as (e & He & Hcur); [tauto|]. exists e. auto.
  - apply Hhello. tauto.
  - done.
Qed.

Lemma reachable_recoverable d : demo_inv d → plan_inv d → unexpired d →
  is_Some (c_connection (client d)) → recoverable d.
Proof.
  intros Hinv Hplan Hunexp Hconn. pose proof Hplan as [Hnd Hok Hsent Hlen]. split; try done.
  - apply Forall_forall. intros r. by apply reachable_ready.
  - intros c Hc. apply elem_of_dom in Hc as [e He].
    destruct (li_clock _ _ (di_log d Hinv) _ _ He) as (a & Ha & <- & _). apply (di_answers d Hinv) in Ha.
    pose proof (di_sent d Hinv) as Hs. rewrite Forall_forall in Hs. by apply elem_of_list_to_set, Hs.
Qed.
End Reachable.

(** ** The property *)

(** C28. Retrying recovers from any losses: from every state the client and the
    server can reach over a network that loses, repeats and reorders datagrams, if
    no session still needed has expired and every retry is due, four exchanges
    without losses finish the demonstration, for up to eight sessions with
    identifiers of 1 to 128 bytes. *)
Theorem demo_recovers {Conn : Type} random_id sizes (c : ClientSessions Conn) d now1 now2 now3 now4 now started :
  (∀ k sz x, random_id k sz = Ok x → length x = sz) → Forall (λ sz, 1 ≤ sz ≤ 128)%nat sizes →
  (length sizes ≤ 8)%nat → client_sessions random_id sizes = Ok c →
  rtc demo_step (demo_start c) d → is_Some (c_connection (client d)) → unexpired d →
  Forall (due now1) (requests (client d)) →
  finish_demo now started (client (rounds [now1; now2; now3; now4] d)) = (Some Success, true).
Proof.
  intros Hrandom Hsizes Hlen Hc Hr Hconn Hunexp Hdue.
  pose proof (demo_reachable_inv _ _ _ _ Hc Hr) as Hinv.
  pose proof (demo_reachable_plan _ _ _ _ Hrandom Hsizes Hlen Hc Hr) as Hplan.
  destruct (round_advances now1 d (reachable_recoverable d Hinv Hplan Hunexp Hconn) Hdue) as [Hreq1 Hrc1].
  destruct (rounds_advance [now2; now3; now4] (round now1 d) Hrc1) as [Hreq Hrc].
  { intros later. rewrite Hreq1. apply Forall_fmap, Forall_true. intros r. apply advanced_due. }
  change (rounds [now1; now2; now3; now4] d) with (rounds [now2; now3; now4] (round now1 d)).
  unfold finish_demo. rewrite bool_decide_true by apply Hrc. cbn [andb].
  replace (forallb _ _) with true; [done|]. symmetry. apply forallb_Forall. rewrite Hreq, Hreq1.
  apply Forall_fmap, Forall_fmap, Forall_true. intros r. apply bool_decide_eq_true.
  apply (four_advances r).
Qed.

(** ** An execution with losses *)

(** The client sends all it has and the network loses it. *)
Definition drive_lost (now : Z) (d : Demo (Conn:=nat)) : Demo :=
  let '(c, sent) := drive_client now (λ _, true) (client d) in
  {| client := c; server := server d; answers := answers d;
     to_server := to_server d ++ sent; to_client := to_client d |}.

Lemma drive_lost_reachable now d : rtc demo_step d (drive_lost now d).
Proof.
  unfold drive_lost. destruct (drive_client _ _ _) eqn:Hd. by eapply rtc_once, demo_drive.
Qed.

(** A first round succeeds; of the second one request is lost and so is the answer
    to the other. *)
Definition first_round : Demo := drive_lost 10 (round 0
  {| client := ready 7%nat example_client; server := sessions_default; answers := []; to_server := [];
     to_client := [] |}).
Definition example_losses : Demo := foldl (serve 20) first_round (take 1 (drop 2 (to_server first_round))).

Example example_losses_state :
  phase <$> requests (client example_losses) = [Replacement; Replacement] ∧
  e_generation <$> (map_to_list (entries (server example_losses))).*2 = [1; 2].
Proof. by vm_compute. Qed.

Lemma example_losses_reachable : rtc demo_step (demo_start example_client) example_losses.
Proof.
  eapply rtc_l; [apply (demo_ready 7%nat)|]. etrans; [apply (round_reachable 0)|].
  etrans; [apply (drive_lost_reachable 10)|]. apply serves_reachable.
  intros p Hp. by eapply subseteq_drop, subseteq_take.
Qed.

Lemma demo_recovers_witness :
  finish_demo 130 0 (client (rounds [60; 70; 80; 90] example_losses)) = (Some Success, true).
Proof.
  refine (demo_recovers example_random [48; 64]%nat example_client example_losses 60 70 80 90 130 0
    _ _ _ _ example_losses_reachable _ _ _).
  - intros k sz x [= <-]. apply length_replicate.
  - repeat constructor.
  - cbn. lia.
  - by vm_compute.
  - by vm_compute; eexists.
  - intros r e Hr _. vm_compute in Hr.
    apply elem_of_cons in Hr as [->|[->|[]%elem_of_nil]%elem_of_cons];
      vm_compute; by intros [= <-].
  - assert (Hsent : last_sent <$> requests (client example_losses) = [Some 10; Some 10]) by by vm_compute.
    apply Forall_forall. intros r Hr. right. intros t Ht. unfold RETRY.
    apply (list_elem_of_fmap_2 last_sent) in Hr. rewrite Hsent, Ht in Hr.
    apply elem_of_cons in Hr as [[= ->]|Hr]; [lia|]. apply list_elem_of_singleton in Hr as [= ->]. lia.
Defined.
