(* ===== verification/Scheduling.v ===== *)
(** * Schedules

    Models src/src/scheduling.rs and what the plugins of src/src/client.rs,
    src/src/server.rs and src/src/runtime/mod.rs add to an app's schedules: system
    sets, systems and ordering constraints. What Bevy makes of them is its
    documented meaning: a set contains the systems put in it and in the sets put
    in it, and [after] orders every system of one set after every system of the
    other, within one schedule. *)

From S2P Require Import Prelude.

(** ** Labels *)

Inductive Phase := Settings | Setup | Receive | Lifecycle | Packets.
#[export] Instance phase_eq_dec : EqDecision Phase.
Proof. solve_decision. Defined.

(** [NetworkSystems<Endpoint>]: the endpoint is a type of the code and a value
    here. *)
Record NetworkSystems (E : Type) := { endpoint : E; phase : Phase }.
Arguments endpoint {E}. Arguments phase {E}. Arguments Build_NetworkSystems {E}.

(** Its equality, between labels of one endpoint. *)
Definition label_eqb {E} (a b : NetworkSystems E) : bool := bool_decide (phase a = phase b).

Inductive SystemSets :=
  | ClientReceive | ServerReceive | ClientPacketReceive | ClientConnectionEstablish
  | ClientConnectionRemove | ClientConnectionRequest | ServerConnectionAdd
  | ServerAcceptNewConnections | ServerAcceptNewPackets | ServerRemoveConnections
  | SetMaxPacketSize | MaxPacketSizeWarning.

Record ReceiveSets := { receive : SystemSets; lifecycle : SystemSets * SystemSets; packets : SystemSets }.

(** ** An app's schedules *)

Inductive Schedule := Startup | Update | PreUpdate | Last.

Section Scheduling.
Context {E : Type} {Addr : Type}.

Inductive set := Network (n : NetworkSystems E) | Legacy (s : SystemSets) | RuntimeSetup.

(** The systems the crate adds. *)
Inductive system :=
  | SetGlobalLimits
  | SyncLimits (e : E) | WarningSystem (e : E)
  | SetupSystem (e : E) | ConnectRequest (e : E) (addr : Addr)
  | IncomingSystem (e : E) | ReceiveDatagramPackets (e : E)
  | Initialize | StopOnExit.

(** What [configure_sets] and [add_systems] record. *)
Inductive config :=
  | SetInSet (sch : Schedule) (inner outer : set)
  | SetAfter (sch : Schedule) (later earlier : set)
  | AddSystem (sch : Schedule) (s : system)
  | SystemInSet (sch : Schedule) (s : system) (x : set)
  | SystemAfter (sch : Schedule) (s : system) (earlier : set).

Record App := { configs : list config; global_limits_plugin : bool; runtime_plugin : bool }.
Definition app_new : App := {| configs := []; global_limits_plugin := false; runtime_plugin := false |}.

Definition configure (cs : list config) (app : App) : App :=
  {| configs := configs app ++ cs; global_limits_plugin := global_limits_plugin app;
     runtime_plugin := runtime_plugin app |}.

Definition SETTINGS (e : E) : set := Network {| endpoint := e; phase := Settings |}.
Definition SETUP (e : E) : set := Network {| endpoint := e; phase := Setup |}.
Definition RECEIVE (e : E) : set := Network {| endpoint := e; phase := Receive |}.
Definition LIFECYCLE (e : E) : set := Network {| endpoint := e; phase := Lifecycle |}.
Definition PACKETS (e : E) : set := Network {| endpoint := e; phase := Packets |}.

(** ** Registration *)

(** [GlobalLimitsPlugin::build] and its registration once per app. *)
Definition global_limits_build : list config :=
  [AddSystem Startup SetGlobalLimits; SystemInSet Startup SetGlobalLimits (Legacy SetMaxPacketSize);
   AddSystem Update SetGlobalLimits; SystemInSet Update SetGlobalLimits (Legacy SetMaxPacketSize)].

Definition register_global_limits (app : App) : App :=
  if global_limits_plugin app then app
  else configure global_limits_build
    {| configs := configs app; global_limits_plugin := true; runtime_plugin := runtime_plugin app |}.

(** [NetworkRuntimePlugin::build] and [runtime::register]. *)
Definition runtime_build : list config :=
  [AddSystem Startup Initialize; SystemInSet Startup Initialize RuntimeSetup; AddSystem Last StopOnExit].

Definition runtime_register (app : App) : App :=
  if runtime_plugin app then app
  else configure runtime_build
    {| configs := configs app; global_limits_plugin := global_limits_plugin app; runtime_plugin := true |}.

(** The endpoint's own part of [configure_settings]. *)
Definition settings_configs (e : E) : list config :=
  [SetInSet Startup (SETTINGS e) (Legacy SetMaxPacketSize);
   SetAfter Startup (SETUP e) (SETTINGS e); SetAfter Startup (SETUP e) RuntimeSetup;
   AddSystem Startup (SyncLimits e); SystemInSet Startup (SyncLimits e) (SETTINGS e);
   AddSystem Startup (WarningSystem e); SystemAfter Startup (WarningSystem e) (SETTINGS e);
   SystemInSet Startup (WarningSystem e) (Legacy MaxPacketSizeWarning);
   SetInSet Update (SETTINGS e) (Legacy SetMaxPacketSize);
   AddSystem Update (SyncLimits e); SystemInSet Update (SyncLimits e) (SETTINGS e)].

Definition configure_settings (e : E) (app : App) : App :=
  configure (settings_configs e) (runtime_register (register_global_limits app)).

(** [configure_receive], for the systems of an endpoint. *)
Definition receive_configs (e : E) (datagram : bool) (legacy : ReceiveSets) : list config :=
  let '(establish, remove) := lifecycle legacy in
  [SetInSet PreUpdate (RECEIVE e) (Legacy (receive legacy));
   SetInSet PreUpdate (LIFECYCLE e) (RECEIVE e);
   SetInSet PreUpdate (LIFECYCLE e) (Legacy establish);
   SetInSet PreUpdate (LIFECYCLE e) (Legacy remove);
   SetInSet PreUpdate (PACKETS e) (RECEIVE e);
   SetInSet PreUpdate (PACKETS e) (Legacy (packets legacy));
   AddSystem PreUpdate (IncomingSystem e);
   SystemInSet PreUpdate (IncomingSystem e) (LIFECYCLE e)] ++
  if datagram
  then [SetAfter PreUpdate (PACKETS e) (LIFECYCLE e);
        AddSystem PreUpdate (ReceiveDatagramPackets e);
        SystemInSet PreUpdate (ReceiveDatagramPackets e) (PACKETS e)]
  else [SystemInSet PreUpdate (IncomingSystem e) (PACKETS e)].

Definition configure_receive (e : E) (datagram : bool) (legacy : ReceiveSets) (app : App) : App :=
  configure (receive_configs e datagram legacy) app.

(** [configure_receive_systems] of each role. *)
Definition client_receive_sets : ReceiveSets :=
  {| receive := ClientReceive; lifecycle := (ClientConnectionEstablish, ClientConnectionRemove);
     packets := ClientPacketReceive |}.
Definition server_receive_sets : ReceiveSets :=
  {| receive := ServerReceive; lifecycle := (ServerAcceptNewConnections, ServerRemoveConnections);
     packets := ServerAcceptNewPackets |}.

(** [ClientPlugin::build] and [ServerPlugin::build] on native targets. *)
Definition client_build (e : E) (datagram : bool) (address : option Addr) (app : App) : App :=
  let app := configure_settings e app in
  let app := configure [AddSystem Startup (SetupSystem e); SystemInSet Startup (SetupSystem e) (SETUP e)] app in
  let app := match address with
    | Some addr => configure [AddSystem Startup (ConnectRequest e addr);
                              SystemAfter Startup (ConnectRequest e addr) (SETUP e)] app
    | None => app
    end in
  configure_receive e datagram client_receive_sets app.

Definition server_build (e : E) (datagram : bool) (app : App) : App :=
  let app := configure_settings e app in
  let app := configure [AddSystem Startup (SetupSystem e); SystemInSet Startup (SetupSystem e) (SETUP e)] app in
  configure_receive e datagram server_receive_sets app.

(** The plugins of an app. *)
Inductive plugin := ClientPlugin (e : E) (address : option Addr) | ServerPlugin (e : E).
Definition plugin_endpoint (p : plugin) : E := match p with ClientPlugin e _ | ServerPlugin e => e end.

(** [Config::Protocol::DATAGRAM] of each endpoint. *)
Variable datagram : E → bool.

Definition build (p : plugin) (app : App) : App :=
  match p with
  | ClientPlugin e address => client_build e (datagram e) address app
  | ServerPlugin e => server_build e (datagram e) app
  end.

Definition build_all (ps : list plugin) (app : App) : App := foldl (λ app p, build p app) app ps.

(** ** What a schedule runs, in which order *)

Inductive contains (app : App) (sch : Schedule) : set → system → Prop :=
  | contains_system s x : SystemInSet sch s x ∈ configs app → contains app sch x s
  | contains_set s inner outer :
      SetInSet sch inner outer ∈ configs app → contains app sch inner s → contains app sch outer s.

(** [later] waits for [earlier]. *)
Inductive waits_for (app : App) (sch : Schedule) : system → system → Prop :=
  | waits_set later earlier a b :
      SetAfter sch a b ∈ configs app → contains app sch a later → contains app sch b earlier →
      waits_for app sch later earlier
  | waits_system later earlier b :
      SystemAfter sch later b ∈ configs app → contains app sch b earlier →
      waits_for app sch later earlier.
End Scheduling.

(** ** Lemmas: what is configured *)

Section Configured.
Context {E : Type} {Addr : Type}.
Variable datagram : E → bool.
Implicit Types (p : plugin (E:=E) (Addr:=Addr)) (ps : list (plugin (E:=E) (Addr:=Addr))) (e : E).

Definition setup_configs p : list (config (E:=E) (Addr:=Addr)) :=
  let e := plugin_endpoint p in
  [AddSystem Startup (SetupSystem e); SystemInSet Startup (SetupSystem e) (SETUP e)] ++
  match p with
  | ClientPlugin _ (Some addr) =>
      [AddSystem Startup (ConnectRequest e addr); SystemAfter Startup (ConnectRequest e addr) (SETUP e)]
  | _ => []
  end.

Definition legacy_sets p : ReceiveSets :=
  match p with ClientPlugin _ _ => client_receive_sets | ServerPlugin _ => server_receive_sets end.

Definition plugin_configs p : list (config (E:=E) (Addr:=Addr)) :=
  let e := plugin_endpoint p in
  settings_configs e ++ setup_configs p ++ receive_configs e (datagram e) (legacy_sets p).

Definition once (registered : bool) (cs : list (config (E:=E) (Addr:=Addr))) := if registered then [] else cs.

Lemma build_configs p app :
  configs (build datagram p app) = configs app ++
    once (global_limits_plugin app) global_limits_build ++
    once (runtime_plugin app) runtime_build ++ plugin_configs p ∧
  global_limits_plugin (build datagram p app) = true ∧ runtime_plugin (build datagram p app) = true.
Proof.
  unfold plugin_configs, setup_configs. destruct app as [cs g r], p as [e [addr|]|e], g, r; cbn;
    unfold runtime_register; cbn; by rewrite <- ?app_assoc.
Qed.

Lemma build_all_configs ps app :
  global_limits_plugin app = true → runtime_plugin app = true →
  configs (build_all datagram ps app) = configs app ++ mjoin (plugin_configs <$> ps).
Proof.
  revert app. induction ps as [|p ps IH]; intros app Hg Hr; cbn; [by rewrite app_nil_r|].
  destruct (build_configs p app) as (Hc & Hg' & Hr'). rewrite Hg, Hr in Hc. cbn in Hc.
  change (foldl _ (build datagram p app) ps) with (build_all datagram ps (build datagram p app)).
  by rewrite IH, Hc, <- app_assoc.
Qed.

(** The app of a list of plugins. *)
Lemma app_configs p ps :
  configs (build_all datagram (p :: ps) app_new) =
    global_limits_build ++ runtime_build ++ mjoin (plugin_configs <$> p :: ps).
Proof.
  destruct (build_configs p app_new) as (Hc & Hg & Hr). cbn in Hc.
  change (build_all datagram (p :: ps) app_new) with (build_all datagram ps (build datagram p app_new)).
  by rewrite build_all_configs, Hc.
Qed.

Lemma elem_of_app_configs c ps : ps ≠ [] →
  c ∈ configs (build_all datagram ps app_new) ↔
    c ∈ global_limits_build ∨ c ∈ runtime_build ∨ ∃ p, p ∈ ps ∧ c ∈ plugin_configs p.
Proof.
  intros Hps. destruct ps as [|p ps]; [done|]. rewrite app_configs, !elem_of_app, list_elem_of_join.
  setoid_rewrite list_elem_of_fmap. naive_solver.
Qed.

(** The entries of each kind that concern a schedule. *)
Definition schedule_eqb (a b : Schedule) : bool :=
  match a, b with
  | Startup, Startup | Update, Update | PreUpdate, PreUpdate | Last, Last => true
  | _, _ => false
  end.

Definition sets_in (sch : Schedule) (c : config (E:=E) (Addr:=Addr)) :=
  match c with SetInSet sch' x y => if schedule_eqb sch sch' then Some (x, y) else None | _ => None end.
Definition sets_after (sch : Schedule) (c : config (E:=E) (Addr:=Addr)) :=
  match c with SetAfter sch' x y => if schedule_eqb sch sch' then Some (x, y) else None | _ => None end.
Definition systems_in (sch : Schedule) (c : config (E:=E) (Addr:=Addr)) :=
  match c with SystemInSet sch' x y => if schedule_eqb sch sch' then Some (x, y) else None | _ => None end.
Definition systems_after (sch : Schedule) (c : config (E:=E) (Addr:=Addr)) :=
  match c with SystemAfter sch' x y => if schedule_eqb sch sch' then Some (x, y) else None | _ => None end.

Lemma view_in {A} (f : config (E:=E) (Addr:=Addr) → option A) c x ps : ps ≠ [] →
  (∀ c', f c' = Some x ↔ c' = c) →
  c ∈ configs (build_all datagram ps app_new) ↔
    x ∈ omap f global_limits_build ∨ x ∈ omap f runtime_build ∨ ∃ p, p ∈ ps ∧ x ∈ omap f (plugin_configs p).
Proof.
  intros Hps Hf. rewrite elem_of_app_configs by done. setoid_rewrite list_elem_of_omap.
  setoid_rewrite Hf. naive_solver.
Qed.

(** Those of one plugin. *)
Lemma plugin_sets_in_preupdate p : let e := plugin_endpoint p in
  omap (sets_in PreUpdate) (plugin_configs p) =
    [(RECEIVE e, Legacy (receive (legacy_sets p))); (LIFECYCLE e, RECEIVE e);
     (LIFECYCLE e, Legacy (lifecycle (legacy_sets p)).1);
     (LIFECYCLE e, Legacy (lifecycle (legacy_sets p)).2);
     (PACKETS e, RECEIVE e); (PACKETS e, Legacy (packets (legacy_sets p)))].
Proof. unfold plugin_configs, receive_configs. by destruct p as [? [?|]|?], (datagram _). Qed.

Lemma plugin_sets_after_preupdate p : let e := plugin_endpoint p in
  omap (sets_after PreUpdate) (plugin_configs p) = if datagram e then [(PACKETS e, LIFECYCLE e)] else [].
Proof. unfold plugin_configs, receive_configs. by destruct p as [? [?|]|?]; cbn; destruct (datagram _). Qed.

Lemma plugin_systems_in_preupdate p : let e := plugin_endpoint p in
  omap (systems_in PreUpdate) (plugin_configs p) =
    (IncomingSystem e, LIFECYCLE e) ::
    if datagram e then [(ReceiveDatagramPackets e, PACKETS e)] else [(IncomingSystem e, PACKETS e)].
Proof. unfold plugin_configs, receive_configs. by destruct p as [? [?|]|?]; cbn; destruct (datagram _). Qed.

Lemma plugin_systems_after_preupdate p : omap (systems_after PreUpdate) (plugin_configs p) = [].
Proof. unfold plugin_configs, receive_configs. by destruct p as [? [?|]|?]; cbn; destruct (datagram _). Qed.

Lemma plugin_sets_in_startup p :
  omap (sets_in Startup) (plugin_configs p) = [(SETTINGS (plugin_endpoint p), Legacy SetMaxPacketSize)].
Proof. unfold plugin_configs, receive_configs. by destruct p as [? [?|]|?]; cbn; destruct (datagram _). Qed.

Lemma plugin_sets_after_startup p : let e := plugin_endpoint p in
  omap (sets_after Startup) (plugin_configs p) = [(SETUP e, SETTINGS e); (SETUP e, RuntimeSetup)].
Proof. unfold plugin_configs, receive_configs. by destruct p as [? [?|]|?]; cbn; destruct (datagram _). Qed.

Lemma plugin_systems_in_startup p : let e := plugin_endpoint p in
  omap (systems_in Startup) (plugin_configs p) =
    [(SyncLimits e, SETTINGS e); (WarningSystem e, Legacy MaxPacketSizeWarning); (SetupSystem e, SETUP e)].
Proof. unfold plugin_configs, receive_configs. by destruct p as [? [?|]|?]; cbn; destruct (datagram _). Qed.

Definition connect_request p :=
  match p with ClientPlugin e (Some addr) => [(ConnectRequest (Addr:=Addr) e addr, SETUP e)] | _ => [] end.

Lemma elem_of_connect_request p s x : (s, x) ∈ connect_request p ↔
  let e := plugin_endpoint p in
  ∃ addr, p = ClientPlugin e (Some addr) ∧ s = ConnectRequest e addr ∧ x = SETUP e.
Proof.
  destruct p as [e [addr|]|e]; cbn; rewrite ?list_elem_of_singleton, ?elem_of_nil; naive_solver.
Qed.

Lemma plugin_systems_after_startup p : let e := plugin_endpoint p in
  omap (systems_after Startup) (plugin_configs p) =
    (WarningSystem e, SETTINGS e) :: connect_request p.
Proof. unfold plugin_configs, receive_configs. by destruct p as [? [?|]|?]; cbn; destruct (datagram _). Qed.

Lemma elem_of_if {A} (b : bool) (x : A) (l1 l2 : list A) :
  x ∈ (if b then l1 else l2) ↔ b = true ∧ x ∈ l1 ∨ b = false ∧ x ∈ l2.
Proof. destruct b; naive_solver. Qed.

(** An entry of the app, by its view [f] and the view's list for one plugin. *)
Ltac configured f H :=
  intros ?; rewrite (view_in f _ (_, _)) by
    (done || (intros [[] | [] | [] | [] | []]; cbn; naive_solver));
  setoid_rewrite H;
  cbn [omap list_omap global_limits_build runtime_build sets_in sets_after systems_in systems_after schedule_eqb];
  repeat first [setoid_rewrite elem_of_nil | setoid_rewrite elem_of_cons | setoid_rewrite elem_of_if].

Lemma system_in_set_preupdate ps s x : ps ≠ [] →
  SystemInSet PreUpdate s x ∈ configs (build_all datagram ps app_new) ↔
  ∃ p, p ∈ ps ∧ let e := plugin_endpoint p in
    s = IncomingSystem e ∧ (x = LIFECYCLE e ∨ datagram e = false ∧ x = PACKETS e) ∨
    s = ReceiveDatagramPackets e ∧ datagram e = true ∧ x = PACKETS e.
Proof. configured (systems_in PreUpdate) plugin_systems_in_preupdate. naive_solver. Qed.

Lemma set_in_set_preupdate ps x y : ps ≠ [] →
  SetInSet PreUpdate x y ∈ configs (build_all datagram ps app_new) ↔
  ∃ p, p ∈ ps ∧ let e := plugin_endpoint p in
    x = RECEIVE e ∧ y = Legacy (receive (legacy_sets p)) ∨
    x = LIFECYCLE e ∧ (y = RECEIVE e ∨ y = Legacy (lifecycle (legacy_sets p)).1 ∨
                       y = Legacy (lifecycle (legacy_sets p)).2) ∨
    x = PACKETS e ∧ (y = RECEIVE e ∨ y = Legacy (packets (legacy_sets p))).
Proof. configured (sets_in PreUpdate) plugin_sets_in_preupdate. naive_solver. Qed.

Lemma set_after_preupdate ps x y : ps ≠ [] →
  SetAfter PreUpdate x y ∈ configs (build_all datagram ps app_new) ↔
  ∃ p, p ∈ ps ∧ let e := plugin_endpoint p in datagram e = true ∧ x = PACKETS e ∧ y = LIFECYCLE e.
Proof. configured (sets_after PreUpdate) plugin_sets_after_preupdate. naive_solver. Qed.

Lemma system_after_preupdate ps s x : ps ≠ [] →
  SystemAfter PreUpdate s x ∉ configs (build_all datagram ps app_new).
Proof. configured (systems_after PreUpdate) plugin_systems_after_preupdate. naive_solver. Qed.

Lemma set_after_startup ps x y : ps ≠ [] →
  SetAfter Startup x y ∈ configs (build_all datagram ps app_new) ↔
  ∃ p, p ∈ ps ∧ let e := plugin_endpoint p in x = SETUP e ∧ (y = SETTINGS e ∨ y = RuntimeSetup).
Proof. configured (sets_after Startup) plugin_sets_after_startup. naive_solver. Qed.

Lemma system_after_startup ps s x : ps ≠ [] →
  SystemAfter Startup s x ∈ configs (build_all datagram ps app_new) ↔
  ∃ p, p ∈ ps ∧ let e := plugin_endpoint p in
    s = WarningSystem e ∧ x = SETTINGS e ∨
    ∃ addr, p = ClientPlugin e (Some addr) ∧ s = ConnectRequest e addr ∧ x = SETUP e.
Proof. configured (systems_after Startup) plugin_systems_after_startup.
  setoid_rewrite elem_of_connect_request. naive_solver. Qed.

Lemma set_in_set_startup ps x y : ps ≠ [] →
  SetInSet Startup x y ∈ configs (build_all datagram ps app_new) ↔
  ∃ p, p ∈ ps ∧ let e := plugin_endpoint p in x = SETTINGS e ∧ y = Legacy SetMaxPacketSize.
Proof. configured (sets_in Startup) plugin_sets_in_startup. naive_solver. Qed.

Lemma system_in_set_startup ps s x : ps ≠ [] →
  SystemInSet Startup s x ∈ configs (build_all datagram ps app_new) ↔
  s = SetGlobalLimits ∧ x = Legacy SetMaxPacketSize ∨ s = Initialize ∧ x = RuntimeSetup ∨
  ∃ p, p ∈ ps ∧ let e := plugin_endpoint p in
    s = SyncLimits e ∧ x = SETTINGS e ∨ s = WarningSystem e ∧ x = Legacy MaxPacketSizeWarning ∨
    s = SetupSystem e ∧ x = SETUP e.
Proof. configured (systems_in Startup) plugin_systems_in_startup. naive_solver. Qed.

End Configured.

(** ** Properties *)

Section Properties.
Context {E : Type} {Addr : Type}.
Variable datagram : E → bool.
Implicit Types (ps : list (plugin (E:=E) (Addr:=Addr))) (e : E).

(** Reads what an entry says of a label. *)
Ltac labels H := cbn in H; unfold SETTINGS, SETUP, RECEIVE, LIFECYCLE, PACKETS in *.

(** The receive phases are what their documentation says, for any
    plugins of an app. An endpoint's lifecycle set is its incoming system; its
    packets set is the same system for a stream and the datagram system
    otherwise; its receive set is both. And the only ordering in [PreUpdate] is
    that each datagram endpoint's packets wait for that endpoint's lifecycle: the
    systems of different endpoints never wait for each other, so every app has a
    valid schedule. *)
Theorem receive_schedule ps e : e ∈ plugin_endpoint <$> ps →
  let app := build_all datagram ps app_new in
  (∀ s, contains app PreUpdate (LIFECYCLE e) s ↔ s = IncomingSystem e) ∧
  (∀ s, contains app PreUpdate (PACKETS e) s ↔
     s = if datagram e then ReceiveDatagramPackets e else IncomingSystem e) ∧
  (∀ s, contains app PreUpdate (RECEIVE e) s ↔
     s = IncomingSystem e ∨ datagram e = true ∧ s = ReceiveDatagramPackets e) ∧
  (∀ later earlier, waits_for app PreUpdate later earlier ↔
     ∃ e', e' ∈ plugin_endpoint <$> ps ∧ datagram e' = true ∧
       later = ReceiveDatagramPackets e' ∧ earlier = IncomingSystem e').
Proof.
  intros He app. assert (Hps : ps ≠ []) by (intros ->; by apply elem_of_nil in He).
  assert (Hlife : ∀ e, e ∈ plugin_endpoint <$> ps → ∀ s, contains app PreUpdate (LIFECYCLE e) s ↔ s = IncomingSystem e).
  { intros e1 He1 s. apply list_elem_of_fmap in He1 as (p & -> & Hp). split.
    - inversion 1 as [? ? Hin|? ? ? Hin]; subst.
      + apply system_in_set_preupdate in Hin as (p' & _ & Hx); [|done]. labels Hx; naive_solver congruence.
      + apply set_in_set_preupdate in Hin as (p' & _ & Hx); [|done]. labels Hx; naive_solver congruence.
    - intros ->. apply contains_system, system_in_set_preupdate; [done|]. exists p. cbn. auto. }
  assert (Hpack : ∀ e, e ∈ plugin_endpoint <$> ps → ∀ s, contains app PreUpdate (PACKETS e) s ↔
     s = if datagram e then ReceiveDatagramPackets e else IncomingSystem e).
  { intros e1 He1 s. apply list_elem_of_fmap in He1 as (p & -> & Hp). split.
    - inversion 1 as [? ? Hin|? ? ? Hin]; subst.
      + apply system_in_set_preupdate in Hin as (p' & _ & Hx); [|done]. labels Hx.
        destruct Hx as [(-> & [Hx|[Hd Hx]])|(-> & Hd & Hx)]; [done|..]; injection Hx as Hx; by rewrite Hx, Hd.
      + apply set_in_set_preupdate in Hin as (p' & _ & Hx); [|done]. labels Hx; naive_solver congruence.
    - intros ->. apply contains_system, system_in_set_preupdate; [done|]. exists p. cbn.
      destruct (datagram (plugin_endpoint p)); naive_solver. }
  split_and!; [by apply Hlife|by apply Hpack| |].
  - intros s. apply list_elem_of_fmap in He as Hp. destruct Hp as (p & Hpe & Hp). split.
    + inversion 1 as [? ? Hin|? ? ? Hin Hc]; subst.
      * apply system_in_set_preupdate in Hin as (p' & _ & Hx); [|done]. labels Hx; naive_solver congruence.
      * apply set_in_set_preupdate in Hin as (p' & Hp' & Hx); [|done]. labels Hx.
        assert (He' : plugin_endpoint p' ∈ plugin_endpoint <$> ps) by (apply list_elem_of_fmap; eauto).
        destruct Hx as [[_ Hx]|[[-> Hx]|[-> Hx]]]; [done|..].
        -- apply (Hlife _ He') in Hc. destruct Hx as [Hx|[Hx|Hx]]; [|done..]. injection Hx as ->. by left.
        -- apply (Hpack _ He') in Hc. destruct Hx as [Hx|Hx]; [|done]. injection Hx as ->.
           destruct (datagram _); auto.
    + intros Hs. assert (Hdone : ∀ x, (x = LIFECYCLE e ∨ x = PACKETS e) → contains app PreUpdate x s →
        contains app PreUpdate (RECEIVE e) s).
      { intros x Hx Hc. apply (contains_set _ _ _ x); [|done]. apply set_in_set_preupdate; [done|].
        exists p. cbn. rewrite <- Hpe. naive_solver. }
      destruct Hs as [->|[Hd ->]].
      * apply (Hdone (LIFECYCLE e)); [by left|]. by apply Hlife.
      * apply (Hdone (PACKETS e)); [by right|]. apply Hpack; [done|]. by rewrite Hd.
  - intros later earlier. split.
    + inversion 1 as [? ? ? ? Hin Ha Hb|? ? ? Hin Hb]; subst.
      * apply set_after_preupdate in Hin as (p & Hp & Hd & -> & ->); [|done].
        assert (He' : plugin_endpoint p ∈ plugin_endpoint <$> ps) by (apply list_elem_of_fmap; eauto).
        apply (Hpack _ He') in Ha. apply (Hlife _ He') in Hb. rewrite Hd in Ha. eauto.
      * by apply system_after_preupdate in Hin.
    + intros (e' & He' & Hd & -> & ->). apply list_elem_of_fmap in He' as Hp. destruct Hp as (p & Hpe & Hp).
      apply (waits_set _ _ _ _ (PACKETS e') (LIFECYCLE e')).
      * apply set_after_preupdate; [done|]. exists p. cbn. by rewrite <- Hpe.
      * apply Hpack; [done|]. by rewrite Hd.
      * by apply Hlife.
Qed.

(** What [Startup] guarantees, for any plugins of an app: the only orderings
    are that an endpoint's setup waits for its own limits and for the runtime, its
    size warning for its limits, and a client's initial connection request for its
    setup. So nothing is started without limits or a runtime, and no request is
    made before the observer that answers it exists. *)
Theorem startup_schedule ps later earlier : ps ≠ [] →
  waits_for (build_all datagram ps app_new) Startup later earlier ↔
  ∃ p, p ∈ ps ∧ let e := plugin_endpoint p in
    later = SetupSystem e ∧ (earlier = SyncLimits e ∨ earlier = Initialize) ∨
    later = WarningSystem e ∧ earlier = SyncLimits e ∨
    ∃ addr, p = ClientPlugin e (Some addr) ∧ later = ConnectRequest e addr ∧ earlier = SetupSystem e.
Proof.
  intros Hps. set (app := build_all datagram ps app_new).
  assert (Hin : ∀ x s, (∀ z, x ≠ Legacy z) → contains app Startup x s ↔
    s = Initialize ∧ x = RuntimeSetup ∨
    ∃ p, p ∈ ps ∧ (s = SyncLimits (plugin_endpoint p) ∧ x = SETTINGS (plugin_endpoint p) ∨
                   s = SetupSystem (plugin_endpoint p) ∧ x = SETUP (plugin_endpoint p))).
  { intros x s Hx. split.
    - inversion 1 as [? ? Hc|? ? ? Hc]; subst.
      + apply system_in_set_startup in Hc as [[_ Hc]|[Hc|(p & Hp & Hc)]]; [by apply Hx in Hc|auto| |done].
        right. exists p. cbn in Hc. naive_solver.
      + apply set_in_set_startup in Hc as (p & _ & _ & Hc); [by apply Hx in Hc|done].
    - intros Hs. apply contains_system, system_in_set_startup; [done|].
      destruct Hs as [Hs|(p & Hp & Hs)]; [auto|]. right. right. exists p. cbn. naive_solver. }
  split.
  - inversion 1 as [? ? a b Hc Ha Hb|? ? b Hc Hb]; subst.
    + apply set_after_startup in Hc as (p & Hp & -> & Hc); [|done].
      apply Hin in Ha; [|done]. apply Hin in Hb; [|by destruct Hc as [->| ->]].
      exists p. split; [done|]. cbn. left. labels Hc. naive_solver congruence.
    + apply system_after_startup in Hc as (p & Hp & Hc); [|done].
      apply Hin in Hb; [|naive_solver]. exists p. split; [done|]. cbn. right. labels Hc. naive_solver congruence.
  - intros (p & Hp & Hc).
    assert (Hsync : contains app Startup (SETTINGS (plugin_endpoint p)) (SyncLimits (plugin_endpoint p)))
      by (apply Hin; [done|]; right; exists p; auto).
    assert (Hset : contains app Startup (SETUP (plugin_endpoint p)) (SetupSystem (plugin_endpoint p)))
      by (apply Hin; [done|]; right; exists p; auto).
    assert (Hrt : contains app Startup RuntimeSetup Initialize) by (apply Hin; [done|]; auto).
    cbn in Hc. destruct Hc as [[-> [->| ->]]|[[-> ->]|(addr & Hpe & -> & ->)]].
    + apply (waits_set _ _ _ _ (SETUP (plugin_endpoint p)) (SETTINGS (plugin_endpoint p))); try done.
      apply set_after_startup; [done|]. exists p. auto.
    + apply (waits_set _ _ _ _ (SETUP (plugin_endpoint p)) RuntimeSetup); try done.
      apply set_after_startup; [done|]. exists p. auto.
    + apply (waits_system _ _ _ _ (SETTINGS (plugin_endpoint p))); [|done].
      apply system_after_startup; [done|]. exists p. auto.
    + apply (waits_system _ _ _ _ (SETUP (plugin_endpoint p))); [|done].
      apply system_after_startup; [done|]. exists p. split; [done|]. right. eauto.
Qed.
End Properties.

(** ** A concrete app: a datagram server, and a stream client that connects. *)
Definition example_datagram (e : nat) : bool := (e =? 0)%nat.
Definition example_plugins : list (plugin (E:=nat) (Addr:=nat)) := [ServerPlugin 0%nat; ClientPlugin 1%nat (Some 80%nat)].

Lemma receive_schedule_witness :
  0%nat ∈ plugin_endpoint <$> example_plugins ∧
  let app := build_all example_datagram example_plugins app_new in
  (∀ s, contains app PreUpdate (LIFECYCLE 0%nat) s ↔ s = IncomingSystem 0%nat) ∧
  (∀ s, contains app PreUpdate (PACKETS 0%nat) s ↔
     s = if example_datagram 0 then ReceiveDatagramPackets 0%nat else IncomingSystem 0%nat) ∧
  (∀ s, contains app PreUpdate (RECEIVE 0%nat) s ↔
     s = IncomingSystem 0%nat ∨ example_datagram 0 = true ∧ s = ReceiveDatagramPackets 0%nat) ∧
  (∀ later earlier, waits_for app PreUpdate later earlier ↔
     ∃ e', e' ∈ plugin_endpoint <$> example_plugins ∧ example_datagram e' = true ∧
       later = ReceiveDatagramPackets e' ∧ earlier = IncomingSystem e').
Proof.
  assert (H0 : 0%nat ∈ plugin_endpoint <$> example_plugins) by (cbn; apply elem_of_cons; by left).
  split; [exact H0|]. exact (receive_schedule example_datagram example_plugins 0%nat H0).
Defined.

Lemma startup_schedule_witness :
  waits_for (build_all example_datagram example_plugins app_new) Startup
    (ConnectRequest 1%nat 80%nat) (SetupSystem 1%nat).
Proof.
  apply (startup_schedule example_datagram example_plugins); [done|].
  exists (ClientPlugin 1%nat (Some 80%nat)). split; [apply elem_of_cons; right; apply elem_of_cons; by left|].
  right. right. by exists 80%nat.
Defined.
