(* ===== verification/Attempts.v ===== *)
(** * Bounded concurrency

    Models the two places where a task drives several futures at once:
    [run_connections] of src/src/connection/tasks.rs, and
    [process_connection_requests] and [process_connections] of src/src/client.rs.
    The combinators of the futures crate are taken at their documentation: the
    stream is polled only while fewer than the limit of futures are held, the
    held ones complete in any order, and nothing is polled while the code awaits
    between two items. *)

From S2P Require Import Prelude Protocol Lossy Externals Settings Queue Connection Receive Endpoint Establish Client.

Local Open Scope Z_scope.

(** ** A stream of a channel's items, buffered *)

Section Bounded.
Context {Ch : Type → Type} `{Mpsc Ch} {X : Type}.

(** The channel behind [stream::unfold], whether it has ended, the futures held
    (by the item they were made of), and the items received. *)
Record Buffered := { source : Ch X; exhausted : bool; held : list X; taken : list X }.

Definition buffered_new (c : Ch X) : Buffered :=
  {| source := c; exhausted := false; held := []; taken := [] |}.

Definition buffered_poll (limit : Z) (b : Buffered) : Buffered :=
  if exhausted b || (limit <=? zlen (held b)) then b
  else match mpsc_poll_recv (source b) with
  | (c, Pending) => {| source := c; exhausted := false; held := held b; taken := taken b |}
  | (c, Ready None) => {| source := c; exhausted := true; held := held b; taken := taken b |}
  | (c, Ready (Some x)) =>
      {| source := c; exhausted := false; held := held b ++ [x]; taken := taken b ++ [x] |}
  end.

(** One of the futures completes. *)
Definition buffered_complete (i : nat) (b : Buffered) : option (X * Buffered) :=
  match held b !! i with
  | None => None
  | Some x => Some (x, {| source := source b; exhausted := exhausted b; held := delete i (held b);
                          taken := taken b |})
  end.

Definition buffered_done (b : Buffered) : bool := exhausted b && bool_decide (length (held b) = 0%nat).

Definition with_source (f : Ch X → Ch X) (b : Buffered) : Buffered :=
  {| source := f (source b); exhausted := exhausted b; held := held b; taken := taken b |}.

(** ** [run_connections]

    Its steps: the receiver is polled, a connection's [run] completes, the rest
    of the program uses the channel. The log keeps the completed ones. *)
Inductive run_op := PollReceiver | Completes (i : nat) | Others (f : Ch X → Ch X).

Definition run_step (limit : Z) (st : Buffered * list X) (o : run_op) : Buffered * list X :=
  let '(b, log) := st in
  match o with
  | PollReceiver => (buffered_poll (Z.max limit 1) b, log)
  | Completes i =>
      match buffered_complete i b with Some (x, b) => (b, log ++ [x]) | None => (b, log) end
  | Others f => (with_source f b, log)
  end.

Definition run_connections (limit : Z) (receiver : Ch X) (os : list run_op) : Buffered * list X :=
  foldl (run_step limit) (buffered_new receiver, []) os.
End Bounded.
Arguments Buffered Ch X : clear implicits.
Arguments run_op Ch X : clear implicits.

Section BoundedLemmas.
Context {Ch : Type → Type} `{MpscLaws Ch} {X : Type}.
Implicit Types (b : Buffered Ch X).

(** Everything taken is held or completed, and what is held is within the limit. *)
Definition buffered_ok (limit : Z) b (completed : list X) : Prop :=
  zlen (held b) ≤ limit ∧ taken b ≡ₚ held b ++ completed.

Lemma buffered_poll_ok limit b completed :
  buffered_ok limit b completed → buffered_ok limit (buffered_poll limit b) completed.
Proof.
  intros [Hl Hp]. unfold buffered_poll. destruct (_ || _) eqn:Hb; [done|]. bools.
  destruct (mpsc_poll_recv (source b)) as [c [[x|]|]]; split; cbn; try done; [zlia|].
  rewrite Hp, <- !app_assoc. by rewrite (Permutation_app_comm completed).
Qed.

Lemma buffered_complete_ok limit b completed i x b' :
  buffered_ok limit b completed → buffered_complete i b = Some (x, b') →
  buffered_ok limit b' (completed ++ [x]) ∧ x ∈ held b.
Proof.
  intros [Hl Hp]. unfold buffered_complete. destruct (held b !! i) as [y|] eqn:Hi; [|done].
  intros [= <- <-]. pose proof (list_elem_of_lookup_2 _ _ _ Hi) as Hin.
  apply delete_Permutation in Hi as Hperm. split; [|done]. split; cbn.
  - apply Permutation_length in Hperm. cbn in Hperm. unfold zlen in *. lia.
  - trans ((y :: delete i (held b)) ++ completed); [by rewrite Hp; apply Permutation_app_tail|].
    cbn. rewrite app_assoc. apply Permutation_cons_append.
Qed.

(** Connections are set up concurrently, at most [limit] (at least one) at a
    time, and none is lost: whatever completes when, every connection received is
    either being set up or done. *)
Theorem run_connections_bounded (limit : Z) (receiver : Ch X) (os : list (run_op Ch X)) :
  let '(b, completed) := run_connections limit receiver os in
  zlen (held b) ≤ Z.max limit 1 ∧ taken b ≡ₚ held b ++ completed.
Proof.
  assert (Hinv : ∀ st, buffered_ok (Z.max limit 1) st.1 st.2 →
    let '(b, completed) := foldl (run_step limit) st os in buffered_ok (Z.max limit 1) b completed).
  { induction os as [|o os IH]; intros [b log] Hok; [done|]. apply IH. destruct o as [|i|f]; cbn in *.
    - by apply buffered_poll_ok.
    - destruct (buffered_complete i b) as [[x b']|] eqn:Hc; [|done]. by eapply buffered_complete_ok.
    - done. }
  apply Hinv. split; [|done]. change (zlen _) with 0. lia.
Qed.
End BoundedLemmas.

(** ** [process_connection_requests] *)

Section Attempts.
Context `{Target} {L : Type} `{CancellationToken L} {Ch : Type → Type} `{Mpsc Ch}.
Context {NS Hd Addr : Type} `{TransportHandle Hd} `{NetworkStream NS Hd Addr}.
Context {T P Ser LS DecErr LenErr : Type}.

Abbreviation client_message :=
  (IncomingMessage P (ConnectionEstablishEvent Addr) (ConnectionClosed Addr DecErr LenErr)).
Abbreviation transport := (ConnectedTransport NS Ser LS Addr).

(** The loop is running, has returned because ECS has gone, or waits in
    [publish] for room. *)
Inductive loop := Running | Returned | Blocked.

(** The task: the buffered attempts, the channels [publish] uses, the connection
    counter; [published] logs each attempt that completed with what was sent of it,
    and [abandoned] the attempts dropped with the loop. *)
Record RequestTask := {
  attempts : Buffered Ch Addr;
  incoming_tx : Ch client_message;
  transports_tx : Ch transport;
  counter : Z;
  at_loop : loop;
  published : list (Addr * list client_message);
  abandoned : list Addr;
}.

Definition request_task (requests : Ch Addr) (incoming : Ch client_message) (transports : Ch transport)
    (counter : Z) : RequestTask :=
  {| attempts := buffered_new requests; incoming_tx := incoming; transports_tx := transports;
     counter := counter; at_loop := Running; published := []; abandoned := [] |}.

Definition with_attempts (b : Buffered Ch Addr) (t : RequestTask) : RequestTask :=
  {| attempts := b; incoming_tx := incoming_tx t; transports_tx := transports_tx t; counter := counter t;
     at_loop := at_loop t; published := published t; abandoned := abandoned t |}.

(** What an attempt's future was given, and what the world does while its result
    is published. *)
Record completion := {
  connected : result NS io_error;
  built : Ser;
  length_serializer : LS;
  conn_token : L;
  incoming_waits : list (Ch client_message → Ch client_message);
  transport_waits : list (Ch transport → Ch transport);
}.

(** [connections.next()] yields the attempt of the [i]-th address held, and the
    loop publishes it. *)
Definition publish_next (queues : NetworkQueueSettings) (datagram : bool) (limits : ReceiveLimits)
    (i : nat) (c : completion) (t : RequestTask) : RequestTask :=
  match buffered_complete i (attempts t) with
  | None => t
  | Some (addr, b) =>
      let '(a, counter) := request_attempt queues datagram limits addr (connected c) (built c)
                             (length_serializer c) (counter t) in
      match publish (Hd:=Hd) (T:=T) a (conn_token c) (incoming_tx t) (transports_tx t)
              (incoming_waits c) (transport_waits c) with
      | (incoming, answer, sent, n) =>
          let stop := match answer with Ready false => true | _ => false end in
          {| attempts := if stop then {| source := source b; exhausted := exhausted b; held := []; taken := taken b |}
                         else b;
             incoming_tx := incoming;
             transports_tx := match n with Some n => an_transports n | None => transports_tx t end;
             counter := counter;
             at_loop := match answer with Ready true => Running | Ready false => Returned | Pending => Blocked end;
             published := published t ++ [(addr, sent)];
             abandoned := if stop then held b else [] |}
      end
  end.

(** The rest of the program uses the channels. *)
Definition others_do (f : Ch Addr → Ch Addr) (g : Ch client_message → Ch client_message)
    (h : Ch transport → Ch transport) (t : RequestTask) : RequestTask :=
  {| attempts := with_source f (attempts t); incoming_tx := g (incoming_tx t);
     transports_tx := h (transports_tx t); counter := counter t; at_loop := at_loop t;
     published := published t; abandoned := abandoned t |}.

Inductive request_op :=
  | PollRequests
  | NextAttempt (i : nat) (c : completion)
  | OthersDo (f : Ch Addr → Ch Addr) (g : Ch client_message → Ch client_message) (h : Ch transport → Ch transport).

Definition request_step (queues : NetworkQueueSettings) (datagram : bool) (limits : ReceiveLimits)
    (t : RequestTask) (o : request_op) : RequestTask :=
  match o, at_loop t with
  | PollRequests, Running => with_attempts (buffered_poll MAX_CONNECTION_ATTEMPTS (attempts t)) t
  | NextAttempt i c, Running => publish_next queues datagram limits i c t
  | OthersDo f g h, _ => others_do f g h t
  | _, _ => t
  end.

(** [process_connections] of the client: the limit is that of the attempts. *)
Definition process_connections (receiver : Ch transport) (os : list (run_op Ch transport)) :=
  run_connections MAX_CONNECTION_ATTEMPTS receiver os.

(** [process_connections] of the server: the limit is that of the setups. *)
Definition server_process_connections {X} (setup_limit : Z) (receiver : Ch X) (os : list (run_op Ch X)) :=
  run_connections setup_limit receiver os.

Definition process_connection_requests (queues : NetworkQueueSettings) (datagram : bool)
    (limits : ReceiveLimits) (os : list request_op) (t : RequestTask) : RequestTask :=
  foldl (request_step queues datagram limits) t os.
End Attempts.

Section AttemptsLemmas.
Context `{Target} {L : Type} `{CancellationToken L} {Ch : Type → Type} `{MpscLaws Ch}.
Context {NS Hd Addr : Type} `{TransportHandle Hd} `{NetworkStream NS Hd Addr}.
Context {T P Ser LS DecErr LenErr : Type}.

Abbreviation client_message :=
  (IncomingMessage P (ConnectionEstablishEvent Addr) (ConnectionClosed Addr DecErr LenErr)).
Abbreviation task := (RequestTask (Ch:=Ch) (NS:=NS) (Addr:=Addr) (P:=P) (Ser:=Ser) (LS:=LS)
  (DecErr:=DecErr) (LenErr:=LenErr)).
Abbreviation step := (request_step (L:=L) (Hd:=Hd) (T:=T)).
Implicit Types (t : task).

(** A message that answers a request for [addr]. *)
Definition answers_request (addr : Addr) (m : client_message) : Prop :=
  (∃ ecs, m = Established {| address := addr; handle := ecs |}) ∨
  (∃ err, m = ClosedMessage (closed_new (NoConnection err) addr None)).

(** What was sent of an attempt: its one answer, or nothing. *)
Definition answered_once (x : Addr * list client_message) : Prop := ∃ m, x.2 = [m] ∧ answers_request x.1 m.

(** [Sender::send] on a channel ECS has closed. *)
Lemma mpsc_send_closed {M} (c : Ch M) m waits c' r : mpsc_is_closed c = true →
  mpsc_send c m waits = (c', r) → mpsc_is_closed c' = true.
Proof.
  intros Hc. destruct waits as [|w waits]; cbn; destruct (mpsc_poll_send c m) as [c1 p] eqn:Hp;
    apply mpsc_poll_send_view in Hp as (Hcl & _ & _ & Hv); rewrite Hc in Hcl, Hv;
    destruct Hv as [-> _]; by intros [= <- <-].
Qed.

Lemma publish_answers (a : ConnectionAttempt Ch NS Addr T Ser LS) (token : L)
    (incoming : Ch client_message) transports waits transport_waits c answer sent n :
  publish (Hd:=Hd) a token incoming transports waits transport_waits = (c, answer, sent, n) →
  (sent = [] ∧ (answer = Pending ∨ mpsc_is_closed c = true) ∨ answered_once (attempt_address a, sent)) ∧
  (answer = Ready false → mpsc_is_closed c = true) ∧
  (mpsc_is_closed incoming = true → mpsc_is_closed c = true).
Proof.
  unfold publish. destruct (attempt a) as [raw|err].
  - intros [= <- <- <- <-]. destruct (announce_outcome raw token (packets a)
      (λ ecs, {| address := attempt_address a; handle := ecs |}) incoming transports waits
      transport_waits) as [Hans _]. cbn zeta in Hans.
    assert (Hclosed : mpsc_is_closed incoming = true →
      mpsc_is_closed (an_incoming (announce raw token (packets a)
        (λ ecs, {| address := attempt_address a; handle := ecs |}) incoming transports waits
        transport_waits)) = true).
    { intros Hc. unfold announce. cbn [ecs_connection ecs_clone fst snd].
      destruct (mpsc_send incoming _ waits) as [c1 r] eqn:Hs. apply mpsc_send_closed in Hs; [|done].
      destruct r as [[u|x]|]; try done. by destruct (mpsc_send transports _ _) as [d [[v|y]|]]. }
    destruct (an_answer _) as [[]|].
    + rewrite Hans. split_and!; [right|done|done]. eexists. split; [done|]. left. by eexists.
    + destruct Hans as [-> Hc]. split_and!; [left; auto|done|done].
    + split_and!; [|done|done]. destruct Hans as [->| ->]; [left; auto|right].
      eexists. split; [done|]. left. by eexists.
  - destruct (mpsc_send incoming _ waits) as [c1 r] eqn:Hs.
    assert (Hclosed : mpsc_is_closed incoming = true → mpsc_is_closed c1 = true)
      by (intros Hc; by apply mpsc_send_closed in Hs).
    apply mpsc_send_outcome in Hs. destruct r as [[u|x]|]; intros [= <- <- <- <-]; split_and!; try done.
    + right. eexists. split; [done|]. right. by eexists.
    + left. destruct Hs. auto.
    + left. auto.
Qed.

Record task_ok t : Prop := {
  tk_buffered : buffered_ok MAX_CONNECTION_ATTEMPTS (attempts t) ((published t).*1 ++ abandoned t);
  tk_open : mpsc_is_closed (incoming_tx t) = false → at_loop t ≠ Returned;
  tk_running : at_loop t = Running → abandoned t = [] ∧
    (mpsc_is_closed (incoming_tx t) = false → Forall answered_once (published t));
  tk_answers : Forall (λ x, x.2 = [] ∨ answered_once x) (published t);
}.

Lemma publish_next_ok queues datagram limits i (c : completion (Ch:=Ch) (NS:=NS) (Addr:=Addr) (L:=L)
    (P:=P) (Ser:=Ser) (LS:=LS) (DecErr:=DecErr) (LenErr:=LenErr)) t :
  at_loop t = Running → task_ok t → task_ok (publish_next (Hd:=Hd) (T:=T) queues datagram limits i c t).
Proof.
  intros Hat [Hb Ho Hr Ha]. destruct (Hr Hat) as [Hab Hall]. unfold publish_next.
  destruct (buffered_complete i (attempts t)) as [[addr b]|] eqn:Hc; [|by split].
  destruct (buffered_complete_ok _ _ _ _ _ _ Hb Hc) as [Hb' _]. rewrite Hab, app_nil_r in Hb'.
  destruct (request_attempt _ _ _ _ _ _ _ _) as [a counter'] eqn:Hreq.
  assert (Haddr : attempt_address a = addr).
  { unfold request_attempt in Hreq. destruct (outgoing_channel _ _), (create_connection _ _ _ _ _ _).
    by injection Hreq as <- _. }
  destruct (publish _ _ _ _ _ _) as [[[inc answer] sent] n] eqn:Hp.
  apply publish_answers in Hp as (Hsent & Hfalse & Hclosed). rewrite Haddr in Hsent.
  assert (Hinc : mpsc_is_closed inc = false → mpsc_is_closed (incoming_tx t) = false).
  { destruct (mpsc_is_closed (incoming_tx t)); [|done]. by rewrite Hclosed. }
  split; cbn.
  - rewrite fmap_app. cbn. destruct Hb' as [Hl Hperm].
    destruct answer as [[]|]; split; cbn; rewrite ?app_nil_r; try done.
    rewrite Hperm. apply Permutation_app_comm.
  - intros Hi Hret. destruct answer as [[]|]; try done. by rewrite Hfalse in Hi.
  - intros Hrun. destruct answer as [[]|]; try done. split; [done|]. intros Hi.
    apply Forall_app. split; [by apply Hall, Hinc|]. constructor; [|done].
    destruct Hsent as [[_ [?|Hx]]|]; [done|congruence|done].
  - apply Forall_app. split; [done|]. constructor; [|done].
    destruct Hsent as [[-> _]|]; [by left|by right].
Qed.

(** The rest of the program does not reopen the ECS channel. *)
Definition keeps_closed (o : request_op (L:=L) (Ch:=Ch) (NS:=NS) (Addr:=Addr) (P:=P) (Ser:=Ser) (LS:=LS)
    (DecErr:=DecErr) (LenErr:=LenErr)) : Prop :=
  match o with OthersDo _ g _ => ∀ c, mpsc_is_closed c = true → mpsc_is_closed (g c) = true | _ => True end.

Lemma request_step_ok queues datagram limits t o : keeps_closed o → task_ok t →
  task_ok (step queues datagram limits t o).
Proof.
  intros Ho Hok. destruct o as [|i c|f g h]; cbn [request_step].
  - destruct (at_loop t) eqn:Hat; try done. destruct Hok as [Hb Hop Hr Ha]. split; try done.
    by apply buffered_poll_ok.
  - destruct (at_loop t) eqn:Hat; try done. by apply publish_next_ok.
  - replace (match at_loop t with Running | Returned | Blocked => _ end) with (others_do f g h t)
      by by destruct (at_loop t).
    destruct Hok as [Hb Hop Hr Ha]. cbn in Ho.
    assert (Hinc : mpsc_is_closed (g (incoming_tx t)) = false → mpsc_is_closed (incoming_tx t) = false).
    { intros Hg. destruct (mpsc_is_closed (incoming_tx t)) eqn:Hi; [|done]. by rewrite Ho in Hg. }
    split; cbn; try done.
    + intros Hi. by apply Hop, Hinc.
    + intros Hrun. destruct (Hr Hrun) as [? Hall]. split; [done|]. intros Hi. by apply Hall, Hinc.
Qed.

(** C23. Connection requests are answered, each once: at most
    [MAX_CONNECTION_ATTEMPTS] attempts are in progress; every request taken from
    the channel is in progress, has been published, or was dropped with the loop;
    an attempt is published as one message for its address, or as none; and while
    ECS keeps its channel open the loop never returns, drops nothing and, unless it
    is waiting for room, has answered every attempt that completed. *)
Theorem requests_answered queues datagram limits (os : list (request_op (L:=L) (Ch:=Ch) (NS:=NS) (Addr:=Addr)
    (P:=P) (Ser:=Ser) (LS:=LS) (DecErr:=DecErr) (LenErr:=LenErr)))
    (requests : Ch Addr) (incoming : Ch client_message) transports counter :
  Forall keeps_closed os →
  let t := process_connection_requests (Hd:=Hd) (T:=T) queues datagram limits os
    (request_task requests incoming transports counter) in
  zlen (held (attempts t)) ≤ MAX_CONNECTION_ATTEMPTS ∧
  taken (attempts t) ≡ₚ held (attempts t) ++ (published t).*1 ++ abandoned t ∧
  Forall (λ x, x.2 = [] ∨ answered_once x) (published t) ∧
  (mpsc_is_closed (incoming_tx t) = false → at_loop t ≠ Returned ∧
     (at_loop t = Running → abandoned t = [] ∧ Forall answered_once (published t))).
Proof.
  intros Hall. assert (Hok : ∀ t, task_ok t → task_ok (foldl (step queues datagram limits) t os)).
  { induction Hall as [|o os Ho _ IH]; intros t Ht; [done|]. by apply IH, request_step_ok. }
  destruct (Hok (request_task requests incoming transports counter)) as [[Hl Hp] Ho Hr Ha]; [by split|].
  unfold process_connection_requests. split_and!; try done.
  intros Hi. split; [by apply Ho|]. intros Hrun. destruct (Hr Hrun). auto.
Qed.
End AttemptsLemmas.

(** ** A concrete run

    Two requests; the second connects first, the first fails, and both are
    answered. *)
Definition example_completion (connected : result nat io_error)
    : completion (Ch:=fifo) (NS:=nat) (Addr:=nat) (L:=bool) (P:=Z) (Ser:=unit) (LS:=unit) (DecErr:=unit) (LenErr:=unit) :=
  {| connected := connected; built := (); length_serializer := (); conn_token := false;
     incoming_waits := []; transport_waits := [] |}.

Definition example_requests : list (request_op (L:=bool) (Ch:=fifo) (NS:=nat) (Addr:=nat) (P:=Z) (Ser:=unit)
    (LS:=unit) (DecErr:=unit) (LenErr:=unit)) :=
  [OthersDo (λ c, fifo_with c [80; 81]%nat) (λ c, c) (λ c, c); PollRequests; PollRequests; PollRequests;
   NextAttempt 1 (example_completion (Ok 4%nat));
   NextAttempt 0 (example_completion (Err (io_error_from ConnectionRefused)))].

Definition example_request_task := process_connection_requests (Hd:=list QueueDropReason) (T:=Z)
  NetworkQueueSettings_default false {| limit_cell := 0 |} example_requests
  (request_task (mpsc_channel 4) (mpsc_channel 4) (mpsc_channel 1) 7).

Example example_published : (published example_request_task).*1 = [81; 80]%nat ∧
  held (attempts example_request_task) = [] ∧ at_loop example_request_task = Running.
Proof. by vm_compute. Qed.

Lemma requests_answered_witness :
  mpsc_is_closed (incoming_tx example_request_task) = false ∧
  zlen (held (attempts example_request_task)) ≤ MAX_CONNECTION_ATTEMPTS ∧
  taken (attempts example_request_task) ≡ₚ held (attempts example_request_task) ++
    (published example_request_task).*1 ++ abandoned example_request_task ∧
  Forall (λ x, x.2 = [] ∨ answered_once x) (published example_request_task) ∧
  (mpsc_is_closed (incoming_tx example_request_task) = false → at_loop example_request_task ≠ Returned ∧
     (at_loop example_request_task = Running → abandoned example_request_task = [] ∧
        Forall answered_once (published example_request_task))).
Proof.
  split; [by vm_compute|].
  refine (requests_answered (Hd:=list QueueDropReason) (T:=Z) NetworkQueueSettings_default false
    {| limit_cell := 0 |} example_requests (mpsc_channel 4) (mpsc_channel 4) (mpsc_channel 1) 7 _).
  repeat (constructor; [first [exact I | intros c Hc; exact Hc]|]). constructor.
Defined.

Lemma run_connections_bounded_witness :
  MpscLaws fifo ∧
  let '(b, completed) := run_connections 0 (mpsc_channel 4 : fifo nat)
    [Others (λ c, fifo_with c [1; 2]%nat); PollReceiver; PollReceiver; Completes 0; PollReceiver] in
  zlen (held b) ≤ Z.max 0 1 ∧ taken b ≡ₚ held b ++ completed.
Proof.
  split; [exact _|].
  exact (run_connections_bounded 0 (mpsc_channel 4 : fifo nat)
    [Others (λ c, fifo_with c [1; 2]%nat); PollReceiver; PollReceiver; Completes 0; PollReceiver]).
Defined.
