(* ===== verification/Lobby.v ===== *)
(** * The lobby and battle example

    Models src/examples/lobby_and_battle_servers.rs: a client that goes from a TCP
    lobby to a UDP battle and back: its observers, each of which answers with what
    it does to connections, and the keepalive timers of both ends. [Battle] runs
    them. *)

From S2P Require Import Prelude Protocol Connection.

Local Open Scope Z_scope.

(** ** bevy's [Timer], in mode [Once] *)

Class Timer (Tm : Type) := {
  timer_new : Z → Tm;
  timer_tick : Z → Tm → Tm;
  timer_reset : Tm → Tm;
  timer_just_finished : Tm → bool;
  (** Duration and elapsed time, the view of the laws. *)
  timer_duration : Tm → Z;
  timer_elapsed : Tm → Z;
}.

Class TimerLaws (Tm : Type) `{Timer Tm} : Prop := {
  timer_new_view d : timer_duration (timer_new d) = d ∧ timer_elapsed (timer_new d) = 0;
  timer_reset_view t : timer_duration (timer_reset t) = timer_duration t ∧ timer_elapsed (timer_reset t) = 0;
  (** A timer that ran out stays so, and reports it on one tick only. *)
  timer_tick_view dt t :
    timer_duration (timer_tick dt t) = timer_duration t ∧
    timer_elapsed (timer_tick dt t) = (timer_elapsed t + dt) `min` timer_duration t ∧
    timer_just_finished (timer_tick dt t) =
      (timer_elapsed t <? timer_duration t) && (timer_duration t <=? timer_elapsed t + dt);
}.

(** ** Packets *)

Inductive LobbyClientPacket := LcHello | LcBattle | LcKeepAlive.
Inductive LobbyServerPacket (Addr : Type) := LsHello | LsBattleServer (a : Addr) | LsKeepAlive.
Arguments LsHello {Addr}. Arguments LsBattleServer {Addr} a. Arguments LsKeepAlive {Addr}.
Inductive BattleClientPacket := Play | ResultReceived | BcKeepAlive.
Inductive BattleServerPacket := BroadcastPlayerJoin | BattleStart | YouWon | ResultConfirmed | BsKeepAlive.

#[export] Instance connection_id_countable : Countable ConnectionId.
Proof.
  refine (inj_countable' connection_number (λ n, {| connection_number := n |}) _). by intros [].
Defined.

(** Milliseconds. *)
Definition RECONNECT_DELAY : Z := 100.

(** ** Timers *)

Section Timers.
Context {Tm : Type} `{Timer Tm}.

Record ServerKeepAliveTimers := { timers : gmap ConnectionId Tm }.
Definition timers_default : ServerKeepAliveTimers := {| timers := ∅ |}.

Definition track (c : ConnectionId) (s : ServerKeepAliveTimers) : ServerKeepAliveTimers :=
  {| timers := <[c:=timer_new 1000]> (timers s) |}.

Definition refresh (c : ConnectionId) (s : ServerKeepAliveTimers) : ServerKeepAliveTimers :=
  match timers s !! c with
  | Some t => {| timers := <[c:=timer_reset t]> (timers s) |}
  | None => s
  end.

Definition just_expired (c : ConnectionId) (elapsed : Z) (s : ServerKeepAliveTimers)
    : ServerKeepAliveTimers * bool :=
  match timers s !! c with
  | Some t => ({| timers := <[c:=timer_tick elapsed t]> (timers s) |}, timer_just_finished (timer_tick elapsed t))
  | None => (s, false)
  end.

(** [ServerLiveness::check_timeouts] over the registered connections: those it
    disconnects. *)
Fixpoint check_timeouts (connections : list ConnectionId) (elapsed : Z) (s : ServerKeepAliveTimers)
    : ServerKeepAliveTimers * list ConnectionId :=
  match connections with
  | [] => (s, [])
  | c :: connections =>
      let '(s, expired) := just_expired c elapsed s in
      let '(s, more) := check_timeouts connections elapsed s in
      (s, if expired then c :: more else more)
  end.

(** [ClientKeepAliveTimeout]. *)
Definition client_timeout_default : Tm := timer_new 5000.
Definition client_just_expired (elapsed : Z) (t : Tm) : Tm * bool :=
  (timer_tick elapsed t, timer_just_finished (timer_tick elapsed t)).
End Timers.
Arguments ServerKeepAliveTimers Tm : clear implicits.

(** ** What the observers do *)

Section Handlers.
Context {Addr DecErr LenErr : Type}.
Variable LOBBY_SERVER : Addr.
Variable BATTLE_SERVER : Addr.

Inductive action :=
  | LobbyServerSends (c : ConnectionId) (p : LobbyServerPacket Addr)
  | LobbyClientSends (c : ConnectionId) (p : LobbyClientPacket)
  | BattleServerSends (c : ConnectionId) (p : BattleServerPacket)
  | BattleClientSends (c : ConnectionId) (p : BattleClientPacket)
  | LobbyClientDisconnects (c : ConnectionId)
  | BattleClientDisconnects (c : ConnectionId)
  | Sleeps (ms : Z)
  | RequestsLobby (a : Addr)
  | RequestsBattle (a : Addr).

Definition lobby_server_packet_handler (c : ConnectionId) (p : LobbyClientPacket) : list action :=
  match p with
  | LcHello => [LobbyServerSends c LsHello]
  | LcBattle => [LobbyServerSends c (LsBattleServer BATTLE_SERVER)]
  | LcKeepAlive => []
  end.

(** What a new battle connection is sent; the broadcast goes to every registered
    one. *)
Definition battle_welcome (c : ConnectionId) (registered : list ConnectionId) : list action :=
  ((λ c, BattleServerSends c BroadcastPlayerJoin) <$> registered) ++ [BattleServerSends c BattleStart].

Definition battle_server_packet_handler (c : ConnectionId) (p : BattleClientPacket) : list action :=
  match p with
  | Play => [BattleServerSends c YouWon]
  | ResultReceived => [BattleServerSends c ResultConfirmed]
  | BcKeepAlive => []
  end.

Definition lobby_client_packet_handler (c : ConnectionId) (p : LobbyServerPacket Addr) : list action :=
  match p with
  | LsHello => [LobbyClientSends c LcBattle]
  | LsBattleServer address => [LobbyClientDisconnects c; RequestsBattle address]
  | LsKeepAlive => []
  end.

(** [result_received] is the [BattleResultReceived] resource. *)
Definition battle_client_packet_handler (c : ConnectionId) (p : BattleServerPacket) (result_received : bool)
    : bool * list action :=
  match p with
  | BroadcastPlayerJoin => (result_received, [])
  | BattleStart => (result_received, [BattleClientSends c Play])
  | YouWon => (true, [BattleClientSends c ResultReceived])
  | ResultConfirmed =>
      (result_received, [BattleClientDisconnects c; Sleeps RECONNECT_DELAY; RequestsLobby LOBBY_SERVER])
  | BsKeepAlive => (result_received, [])
  end.

Context {Tm : Type} `{Timer Tm}.

(** New connections are tracked. *)
Definition lobby_server_accept_new_connections (c : ConnectionId) (s : ServerKeepAliveTimers Tm)
    : ServerKeepAliveTimers Tm := track c s.
Definition battle_server_accept_new_connections (c : ConnectionId) (registered : list ConnectionId)
    (s : ServerKeepAliveTimers Tm) : ServerKeepAliveTimers Tm * list action :=
  (track c s, battle_welcome c registered).

Definition lobby_client_connect_handler (c : ConnectionId) (timeout : Tm) : Tm * list action :=
  (timer_reset timeout, [LobbyClientSends c LcHello]).

Definition battle_client_connect_handler (c : ConnectionId) (timeout : Tm) (result_received : bool)
    : Tm * bool * list action :=
  (timer_reset timeout, false, [BattleClientSends c BcKeepAlive]).

Definition lobby_client_keepalive_handler (p : LobbyServerPacket Addr) (timeout : Tm) : Tm :=
  match p with LsKeepAlive => timer_reset timeout | _ => timeout end.
Definition battle_client_keepalive_handler (p : BattleServerPacket) (timeout : Tm) : Tm :=
  match p with BsKeepAlive => timer_reset timeout | _ => timeout end.

Definition lobby_server_keepalive_handler (c : ConnectionId) (p : LobbyClientPacket)
    (s : ServerKeepAliveTimers Tm) : ServerKeepAliveTimers Tm :=
  match p with LcKeepAlive => refresh c s | _ => s end.
Definition battle_server_keepalive_handler (c : ConnectionId) (p : BattleClientPacket)
    (s : ServerKeepAliveTimers Tm) : ServerKeepAliveTimers Tm := refresh c s.

Definition server_send_keepalive (lobby battle : list ConnectionId) : list action :=
  ((λ c, LobbyServerSends c LsKeepAlive) <$> lobby) ++ ((λ c, BattleServerSends c BsKeepAlive) <$> battle).

(** [ActiveServers]: the client's connections, with their peers' addresses. *)
Record ActiveServers := {
  lobby : option (ConnectionId * Addr);
  battle : option (ConnectionId * Addr);
  result_received : bool;
}.

Definition send_keepalive (s : ActiveServers) : list action :=
  match lobby s, battle s with
  | Some (c, _), None => [LobbyClientSends c LcKeepAlive]
  | None, Some (c, _) => [BattleClientSends c (if result_received s then ResultReceived else Play)]
  | _, _ => []
  end.

Definition reconnect (s : ActiveServers) : list action :=
  (match lobby s with Some (c, a) => [LobbyClientDisconnects c; RequestsLobby a] | None => [] end) ++
  (match battle s with Some (c, a) => [BattleClientDisconnects c; RequestsBattle a] | None => [] end).

Definition client_check_timeout (elapsed : Z) (s : ActiveServers) (timeout : Tm) : Tm * list action :=
  let '(timeout, expired) := client_just_expired elapsed timeout in
  (timeout, if expired then reconnect s else []).

Definition intentional (e : ReceiveError DecErr LenErr) : bool :=
  match e with IntentionalDisconnection => true | _ => false end.

Definition lobby_client_reconnect_if_error (e : ReceiveError DecErr LenErr) (address : Addr) : list action :=
  if intentional e then [] else [RequestsLobby address].
Definition battle_client_reconnect_if_error (e : ReceiveError DecErr LenErr) (address : Addr) : list action :=
  if intentional e then [] else [RequestsBattle address].
End Handlers.
Arguments action Addr : clear implicits.
Arguments ActiveServers Addr : clear implicits.

(** ** Executions of the timers *)

Section TimerRuns.
Context {Tm : Type} `{TimerLaws Tm}.

Inductive timer_op := Track (c : ConnectionId) | Refresh (c : ConnectionId) | CheckTimeouts (connections : list ConnectionId) (elapsed : Z).

Definition timer_step (s : ServerKeepAliveTimers Tm) (o : timer_op) : ServerKeepAliveTimers Tm :=
  match o with
  | Track c => track c s
  | Refresh c => refresh c s
  | CheckTimeouts connections elapsed => (check_timeouts connections elapsed s).1
  end.

Definition timer_run (os : list timer_op) (s : ServerKeepAliveTimers Tm) := foldl timer_step s os.

(** The specification: for how long a connection has been checked since it was
    last tracked or refreshed; [None] if it never was tracked. *)
Definition quiet_step (c : ConnectionId) (q : option Z) (o : timer_op) : option Z :=
  match o with
  | Track c' => if decide (c' = c) then Some 0 else q
  | Refresh c' => if decide (c' = c) then (λ _, 0) <$> q else q
  | CheckTimeouts connections elapsed => if decide (c ∈ connections) then (λ t, t + elapsed) <$> q else q
  end.

Definition quiet (c : ConnectionId) (os : list timer_op) : option Z := foldl (quiet_step c) None os.

(** A timer that has run for [q]. *)
Definition times (t : Tm) (q : Z) : Prop := timer_duration t = 1000 ∧ timer_elapsed t = q `min` 1000.

Definition tracked (s : ServerKeepAliveTimers Tm) (c : ConnectionId) (q : option Z) : Prop :=
  match timers s !! c, q with
  | Some t, Some q => 0 ≤ q ∧ times t q
  | None, None => True
  | _, _ => False
  end.

Lemma just_expired_spec c c' dt s q : 0 ≤ dt → tracked s c q →
  let '(s', expired) := just_expired c' dt s in
  tracked s' c (if decide (c' = c) then (λ t, t + dt) <$> q else q) ∧
  (c' = c → expired = match q with Some q => (q <? 1000) && (1000 <=? q + dt) | None => false end).
Proof.
  intros Hdt Ht. unfold just_expired, tracked in *. destruct (decide (c' = c)) as [->|Hne].
  - destruct (timers s !! c) as [t|] eqn:Hl, q as [q|]; cbn; rewrite ?Hl; try done.
    rewrite lookup_insert_eq. destruct Ht as (Hq & Hd & He).
    destruct (timer_tick_view dt t) as (Hd' & He' & ->). rewrite Hd, He in *.
    split; [split; [lia|split; [done|lia]]|]. intros _.
    f_equal; apply eq_true_iff_eq; rewrite ?Z.ltb_lt, ?Z.leb_le; lia.
  - destruct (timers s !! c') as [t'|]; (split; [|done]); [|done]. cbn. by rewrite lookup_insert_ne.
Qed.

Lemma check_timeouts_spec c connections dt s q : 0 ≤ dt → NoDup connections → tracked s c q →
  let '(s', expired) := check_timeouts connections dt s in
  tracked s' c (if decide (c ∈ connections) then (λ t, t + dt) <$> q else q) ∧
  (c ∈ expired ↔ c ∈ connections ∧ ∃ t, q = Some t ∧ t < 1000 ≤ t + dt).
Proof.
  intros Hdt Hnd. revert s q. induction Hnd as [|c' connections Hc' Hnd IH]; intros s q Ht; cbn.
  { split; [by destruct (decide _) as [?%elem_of_nil|]|]. rewrite !elem_of_nil. naive_solver. }
  pose proof (just_expired_spec c c' dt s q Hdt Ht) as Hj.
  destruct (just_expired c' dt s) as [s1 ex]. destruct Hj as [Ht1 Hex].
  specialize (IH s1 _ Ht1). destruct (check_timeouts connections dt s1) as [s2 more].
  destruct IH as [Ht2 Hin]. destruct (decide (c' = c)) as [->|Hne].
  - rewrite (decide_False (P:=c ∈ connections)) in Ht2 by done.
    rewrite decide_True by by left. split; [done|]. specialize (Hex eq_refl).
    assert (Hmore : c ∉ more) by (rewrite Hin; by intros [? _]).
    destruct q as [q|]; subst ex.
    + destruct (_ && _) eqn:Hb; bools.
      * split; [|by left]. intros _. split; [by left|]. exists q. split; [done|]. lia.
      * split; [done|]. intros (_ & t & [= <-] & ?). destruct Hb; bools; lia.
    + split; [done|]. by intros (_ & t & ? & _).
  - assert (Hiff : c ∈ c' :: connections ↔ c ∈ connections) by (rewrite elem_of_cons; naive_solver).
    rewrite (decide_ext (c ∈ c' :: connections) (c ∈ connections)) by done. split; [done|].
    rewrite Hiff, <- Hin. destruct ex; [|done]. rewrite elem_of_cons. naive_solver.
Qed.

Definition timer_op_ok (o : timer_op) : Prop :=
  match o with CheckTimeouts connections elapsed => NoDup connections ∧ 0 ≤ elapsed | _ => True end.

Lemma timer_step_tracked c s q o : timer_op_ok o → tracked s c q → tracked (timer_step s o) c (quiet_step c q o).
Proof.
  intros Ho Ht. destruct o as [c'|c'|connections dt]; cbn.
  - unfold tracked in *. cbn. destruct (decide (c' = c)) as [->|Hne].
    + rewrite lookup_insert_eq. destruct (timer_new_view 1000) as [Hd He]. split; [done|split; [done|lia]].
    + by rewrite lookup_insert_ne.
  - unfold tracked, refresh in *. destruct (decide (c' = c)) as [->|Hne].
    + destruct (timers s !! c) as [t|] eqn:Hl, q as [q|]; cbn; rewrite ?Hl; try done.
      rewrite lookup_insert_eq. destruct (timer_reset_view t) as [Hd He].
      split; [done|split; [|lia]]. rewrite Hd. apply Ht.
    + destruct (timers s !! c'); cbn; [|done]. by rewrite lookup_insert_ne.
  - destruct Ho as [Hnd Hdt]. pose proof (check_timeouts_spec c connections dt s q Hdt Hnd Ht) as Hc.
    destruct (check_timeouts _ _ _). by destruct Hc.
Qed.

(** The servers' keepalive: whatever connections are tracked, refreshed and
    checked, a check disconnects exactly the registered connections that were
    tracked and whose time since they were last tracked or refreshed reaches one
    second with this check; so a silent connection is disconnected once, and one
    that is refreshed in time, or was never tracked, never is. *)
Theorem keepalive_expiry (os : list timer_op) (connections : list ConnectionId) (elapsed : Z) (c : ConnectionId) :
  Forall timer_op_ok os → NoDup connections → 0 ≤ elapsed →
  c ∈ (check_timeouts connections elapsed (timer_run os (timers_default (Tm:=Tm)))).2 ↔
  c ∈ connections ∧ ∃ t, quiet c os = Some t ∧ t < 1000 ≤ t + elapsed.
Proof.
  intros Hall Hnd Hdt.
  assert (Ht : tracked (timer_run os timers_default) c (quiet c os)).
  { unfold timer_run, quiet. assert (Hstart : tracked timers_default c None) by done.
    revert Hstart. generalize (@None Z). generalize (timers_default (Tm:=Tm)).
    induction Hall as [|o os Ho _ IH]; intros s q Hs; [done|].
    by apply IH, timer_step_tracked. }
  pose proof (check_timeouts_spec c connections elapsed _ _ Hdt Hnd Ht) as Hc.
  destruct (check_timeouts _ _ _). by destruct Hc.
Qed.
End TimerRuns.

(** ** Concrete timers *)

Record once_timer := { duration : Z; elapsed_time : Z; just : bool }.
#[export] Instance once_timer_timer : Timer once_timer := {
  timer_new d := {| duration := d; elapsed_time := 0; just := false |};
  timer_tick dt t :=
    {| duration := duration t; elapsed_time := (elapsed_time t + dt) `min` duration t;
       just := (elapsed_time t <? duration t) && (duration t <=? elapsed_time t + dt) |};
  timer_reset t := {| duration := duration t; elapsed_time := 0; just := false |};
  timer_just_finished := just;
  timer_duration := duration;
  timer_elapsed := elapsed_time;
}.
#[export] Instance once_timer_laws : TimerLaws once_timer.
Proof. by split. Qed.

Definition client_a : ConnectionId := {| connection_number := 1 |}.
Definition client_b : ConnectionId := {| connection_number := 2 |}.

(** The first client is refreshed in time, the second is not. *)
Definition example_timer_ops : list timer_op :=
  [Track client_a; Track client_b; CheckTimeouts [client_a; client_b] 600; Refresh client_a].

Lemma keepalive_expiry_witness :
  (check_timeouts [client_a; client_b] 600 (timer_run (Tm:=once_timer) example_timer_ops timers_default)).2 =
    [client_b] ∧
  (client_b ∈ (check_timeouts [client_a; client_b] 600
     (timer_run (Tm:=once_timer) example_timer_ops timers_default)).2 ↔
   client_b ∈ [client_a; client_b] ∧ ∃ t, quiet client_b example_timer_ops = Some t ∧ t < 1000 ≤ t + 600).
Proof.
  split; [by vm_compute|].
  assert (Hnd : NoDup [client_a; client_b]).
  { constructor; [by intros ?%list_elem_of_singleton|apply NoDup_singleton]. }
  refine (keepalive_expiry (Tm:=once_timer) example_timer_ops [client_a; client_b] 600 client_b _ Hnd _); [|lia].
  repeat (constructor; [first [exact I | split; [exact Hnd|lia]]|]). constructor.
Defined.
