(* ===== verification/Battle.v ===== *)
(** * From the lobby to the battle and back

    The whole client of src/examples/lobby_and_battle_servers.rs: the observers and
    timers of [Lobby], the resources [Client] keeps for both configurations, and a
    battle server behind a network that loses, repeats and reorders datagrams. The
    client times out, is disconnected and is refused connections at any time. *)

From S2P Require Import Prelude Protocol Connection Client Lobby.

Local Open Scope Z_scope.

Section Battle.
Context {Addr DecErr LenErr Tm : Type} `{Timer Tm}.
Variable LOBBY_SERVER : Addr.

(** ** The client

    What it has of one of the two configurations: the resources of its endpoint;
    the connections it has had, and those among them that are open, which neither
    side has disconnected; and the connection requests that have not been
    answered. *)
Record Side := {
  resources : ClientResources Addr;
  known : list ConnectionId;
  live : list ConnectionId;
  asked : list Addr;
}.

Definition no_side (asked : list Addr) : Side :=
  {| resources := {| client_connection := None; client_connections := [] |}; known := []; live := []; asked := asked |}.

(** [event.connection.disconnect()]. *)
Definition side_disconnect (c : ConnectionId) (s : Side) : Side :=
  {| resources := resources s; known := known s; live := filter (λ c', c' ≠ c) (live s); asked := asked s |}.

Definition side_request (a : Addr) (s : Side) : Side :=
  {| resources := resources s; known := known s; live := live s; asked := asked s ++ [a] |}.

Definition side_answered (asked : list Addr) (s : Side) : Side :=
  {| resources := resources s; known := known s; live := live s; asked := asked |}.

(** A connection is established, before its observers run. *)
Definition side_established (k : EcsConnection Addr) (s : Side) : Side :=
  {| resources := client_established {| address := ecs_peer_addr k; handle := k |} (resources s);
     known := known s ++ [ecs_id k]; live := live s ++ [ecs_id k]; asked := asked s |}.

(** A connection is closed, before its observers run. *)
Definition side_closed (c : ConnectionId) (e : ReceiveError DecErr LenErr) (a : Addr) (s : Side) : Side :=
  {| resources := client_closed (closed_new e a (Some c)) (resources s);
     known := known s; live := filter (λ c', c' ≠ c) (live s); asked := asked s |}.

(** The [ClientConnection] resource. *)
Definition current (s : Side) : option (ConnectionId * Addr) :=
  (λ k, (ecs_id k, ecs_peer_addr k)) <$> client_connection (resources s).

(** The app and the datagrams of its battles, each of which may still arrive, any
    number of times. [handled] are those the server's observers saw and [finished]
    the connections on which the client got the confirmation. *)
Record Battle := {
  lobby_side : Side;
  battle_side : Side;
  result_received : bool;
  keepalive_timeout : Tm;
  to_server : list (ConnectionId * BattleClientPacket);
  to_client : list (ConnectionId * BattleServerPacket);
  handled : list (ConnectionId * BattleClientPacket);
  finished : list ConnectionId;
}.
Implicit Types (b : Battle) (c : ConnectionId).

Definition with_lobby (s : Side) b : Battle :=
  {| lobby_side := s; battle_side := battle_side b; result_received := result_received b;
     keepalive_timeout := keepalive_timeout b; to_server := to_server b; to_client := to_client b;
     handled := handled b; finished := finished b |}.

Definition with_battle (s : Side) b : Battle :=
  {| lobby_side := lobby_side b; battle_side := s; result_received := result_received b;
     keepalive_timeout := keepalive_timeout b; to_server := to_server b; to_client := to_client b;
     handled := handled b; finished := finished b |}.

Definition with_app (rr : bool) (timeout : Tm) b : Battle :=
  {| lobby_side := lobby_side b; battle_side := battle_side b; result_received := rr;
     keepalive_timeout := timeout; to_server := to_server b; to_client := to_client b;
     handled := handled b; finished := finished b |}.

(** The [ActiveServers] parameter. *)
Definition servers b : ActiveServers Addr :=
  {| lobby := current (lobby_side b); battle := current (battle_side b); Lobby.result_received := result_received b |}.

(** An action of the client. What it sends on a connection that was disconnected
    goes nowhere; what it sends to the lobby is left to the lobby. *)
Definition client_act b (a : action Addr) : Battle :=
  match a with
  | BattleClientSends c p =>
      if decide (c ∈ live (battle_side b)) then
        {| lobby_side := lobby_side b; battle_side := battle_side b; result_received := result_received b;
           keepalive_timeout := keepalive_timeout b; to_server := to_server b ++ [(c, p)];
           to_client := to_client b; handled := handled b; finished := finished b |}
      else b
  | BattleClientDisconnects c => with_battle (side_disconnect c (battle_side b)) b
  | LobbyClientDisconnects c => with_lobby (side_disconnect c (lobby_side b)) b
  | RequestsBattle a => with_battle (side_request a (battle_side b)) b
  | RequestsLobby a => with_lobby (side_request a (lobby_side b)) b
  | _ => b
  end.

Definition client_acts (acts : list (action Addr)) b : Battle := foldl client_act b acts.

(** An action of the battle server. *)
Definition server_sent (a : action Addr) : option (ConnectionId * BattleServerPacket) :=
  match a with BattleServerSends c p => Some (c, p) | _ => None end.

Definition server_acts (acts : list (action Addr)) (h : list (ConnectionId * BattleClientPacket)) b : Battle :=
  {| lobby_side := lobby_side b; battle_side := battle_side b; result_received := result_received b;
     keepalive_timeout := keepalive_timeout b; to_server := to_server b;
     to_client := to_client b ++ omap server_sent acts; handled := handled b ++ h; finished := finished b |}.

(** ** What happens to it *)

(** A packet on a battle connection, for its two observers. *)
Definition battle_hears c (p : BattleServerPacket) b : Battle :=
  let '(rr, acts) := battle_client_packet_handler LOBBY_SERVER c p (result_received b) in
  let b := with_app rr (battle_client_keepalive_handler p (keepalive_timeout b)) b in
  let b := {| lobby_side := lobby_side b; battle_side := battle_side b; result_received := result_received b;
              keepalive_timeout := keepalive_timeout b; to_server := to_server b; to_client := to_client b;
              handled := handled b; finished := finished b ++ match p with ResultConfirmed => [c] | _ => [] end |} in
  client_acts acts b.

(** A packet on a lobby connection. *)
Definition lobby_hears c (p : LobbyServerPacket Addr) b : Battle :=
  client_acts (lobby_client_packet_handler c p)
    (with_app (result_received b) (lobby_client_keepalive_handler p (keepalive_timeout b)) b).

(** A connection is established. *)
Definition battle_connects (k : EcsConnection Addr) b : Battle :=
  let '(timeout, rr, acts) := battle_client_connect_handler (ecs_id k) (keepalive_timeout b) (result_received b) in
  client_acts acts (with_app rr timeout (with_battle (side_established k (battle_side b)) b)).

Definition lobby_connects (k : EcsConnection Addr) b : Battle :=
  let '(timeout, acts) := lobby_client_connect_handler (ecs_id k) (keepalive_timeout b) in
  client_acts acts (with_app (result_received b) timeout (with_lobby (side_established k (lobby_side b)) b)).

(** A connection is closed, for whatever reason. *)
Definition battle_closes c (e : ReceiveError DecErr LenErr) (a : Addr) b : Battle :=
  client_acts (battle_client_reconnect_if_error e a) (with_battle (side_closed c e a (battle_side b)) b).

Definition lobby_closes c (e : ReceiveError DecErr LenErr) (a : Addr) b : Battle :=
  client_acts (lobby_client_reconnect_if_error e a) (with_lobby (side_closed c e a (lobby_side b)) b).

(** A connection cannot be made. *)
Definition battle_refused (e : io_error) (a : Addr) b : Battle :=
  client_acts (battle_client_reconnect_if_error (DecErr:=DecErr) (LenErr:=LenErr) (NoConnection e) a) b.

Definition lobby_refused (e : io_error) (a : Addr) b : Battle :=
  client_acts (lobby_client_reconnect_if_error (DecErr:=DecErr) (LenErr:=LenErr) (NoConnection e) a) b.

(** The client's two systems. *)
Definition client_ticks b : Battle := client_acts (send_keepalive (servers b)) b.

Definition client_checks (elapsed : Z) b : Battle :=
  let '(timeout, acts) := client_check_timeout elapsed (servers b) (keepalive_timeout b) in
  client_acts acts (with_app (result_received b) timeout b).

(** [serial] restricts the executions to those in which no battle connection is
    made while another is open. A closure without an error is only reported of a
    connection that was disconnected. The server accepts the client's connection
    when it hears from it, and again when it had let it expire. *)
Inductive battle_step (serial : bool) : Battle → Battle → Prop :=
  | on_lobby_packet c p b : c ∈ known (lobby_side b) → battle_step serial b (lobby_hears c p b)
  | on_lobby_connect k l1 l2 b :
      ecs_id k ∉ known (lobby_side b) → asked (lobby_side b) = l1 ++ ecs_peer_addr k :: l2 →
      battle_step serial b (lobby_connects k (with_lobby (side_answered (l1 ++ l2) (lobby_side b)) b))
  | on_lobby_close c e a b :
      (intentional e = true → c ∉ live (lobby_side b)) → battle_step serial b (lobby_closes c e a b)
  | on_lobby_refused e a l1 l2 b :
      asked (lobby_side b) = l1 ++ a :: l2 →
      battle_step serial b (lobby_refused e a (with_lobby (side_answered (l1 ++ l2) (lobby_side b)) b))
  | on_battle_packet c p b :
      c ∈ live (battle_side b) → (c, p) ∈ to_client b → battle_step serial b (battle_hears c p b)
  | on_battle_connect k l1 l2 b :
      ecs_id k ∉ known (battle_side b) → (serial = true → live (battle_side b) = []) →
      asked (battle_side b) = l1 ++ ecs_peer_addr k :: l2 →
      battle_step serial b (battle_connects k (with_battle (side_answered (l1 ++ l2) (battle_side b)) b))
  | on_battle_close c e a b :
      (intentional e = true → c ∉ live (battle_side b)) → battle_step serial b (battle_closes c e a b)
  | on_battle_refused e a l1 l2 b :
      asked (battle_side b) = l1 ++ a :: l2 →
      battle_step serial b (battle_refused e a (with_battle (side_answered (l1 ++ l2) (battle_side b)) b))
  | on_tick b : battle_step serial b (client_ticks b)
  | on_check elapsed b : battle_step serial b (client_checks elapsed b)
  | server_accepts c p registered b :
      (c, p) ∈ to_server b → battle_step serial b (server_acts (battle_welcome c registered) [] b)
  | server_keeps_alive registered b : battle_step serial b (server_acts (server_send_keepalive [] registered) [] b)
  | server_hears c p b :
      (c, p) ∈ to_server b → battle_step serial b (server_acts (battle_server_packet_handler c p) [(c, p)] b).

(** The app at its start: it has asked for the lobby. *)
Definition battle_start : Battle :=
  {| lobby_side := no_side [LOBBY_SERVER]; battle_side := no_side []; result_received := false;
     keepalive_timeout := client_timeout_default; to_server := []; to_client := []; handled := []; finished := [] |}.

(** ** What always holds *)

(** The client has the server's word that it won: on this connection, if battles
    never overlap, and on some connection in any case, since the app keeps one
    [BattleResultReceived] for all of them. *)
Definition won (serial : bool) b c : Prop :=
  if serial then (c, YouWon) ∈ to_client b else ∃ c', (c', YouWon) ∈ to_client b.

Record battle_inv (serial : bool) b : Prop := {
  bi_live c : c ∈ live (battle_side b) → c ∈ known (battle_side b);
  bi_serial c c' : serial = true → c ∈ live (battle_side b) → c' ∈ live (battle_side b) → c = c';
  bi_asked c : c ∈ live (battle_side b) → (c, BcKeepAlive) ∈ to_server b;
  bi_win c : (c, YouWon) ∈ to_client b → (c, Play) ∈ handled b;
  bi_received c : result_received b = true → c ∈ live (battle_side b) → won serial b c;
  bi_ack c : (c, ResultReceived) ∈ to_server b → won serial b c;
  bi_handled c p : (c, p) ∈ handled b → (c, p) ∈ to_server b;
  bi_confirmed c : (c, ResultConfirmed) ∈ to_client b → (c, ResultReceived) ∈ handled b;
  bi_finished c : c ∈ finished b →
    (c, ResultConfirmed) ∈ to_client b ∧ c ∈ known (battle_side b) ∧ c ∉ live (battle_side b);
  bi_once : NoDup (finished b);
}.

(** The client is somewhere: it is connected to one of the servers, or has asked to
    be. *)
Definition at_home b : Prop :=
  live (lobby_side b) ≠ [] ∨ asked (lobby_side b) ≠ [] ∨ live (battle_side b) ≠ [] ∨ asked (battle_side b) ≠ [].

(** *** The client's actions *)

(** It only acknowledges a result it has. *)
Definition act_ok (serial : bool) b (a : action Addr) : Prop :=
  match a with BattleClientSends c ResultReceived => c ∈ live (battle_side b) → won serial b c | _ => True end.

(** What an action leaves of the open connections and of the datagrams. *)
Lemma client_act_keeps b (a : action Addr) :
  to_client (client_act b a) = to_client b ∧ handled (client_act b a) = handled b ∧
  finished (client_act b a) = finished b ∧ result_received (client_act b a) = result_received b ∧
  known (battle_side (client_act b a)) = known (battle_side b) ∧
  (∀ c, c ∈ live (battle_side (client_act b a)) → c ∈ live (battle_side b)) ∧
  (∀ x, x ∈ to_server b → x ∈ to_server (client_act b a)).
Proof.
  destruct a; cbn; try done.
  - destruct (decide _); cbn; [|done]. split_and!; try done. intros x Hx. apply elem_of_app. by left.
  - split_and!; try done. intros c' [_ ?]%list_elem_of_filter. done.
Qed.

Lemma client_act_inv serial b (a : action Addr) : act_ok serial b a → battle_inv serial b → battle_inv serial (client_act b a).
Proof.
  intros Ha [Hl Hs Hk Hw Hr Hack Hh Hc Hf Ho].
  destruct (client_act_keeps b a) as (Htc & Hhd & Hfin & Hrr & Hkn & Hlive & Hts).
  assert (Hwon : ∀ c, won serial b c → won serial (client_act b a) c) by (intros c; unfold won; by rewrite Htc).
  split; rewrite ?Htc, ?Hhd, ?Hfin, ?Hrr, ?Hkn; auto.
  - intros c Hin. apply Hwon. destruct a as [| | |c' p| | | | |]; try by apply Hack. cbn in Hin.
    destruct (decide _) as [Hd|]; [|by apply Hack]. apply elem_of_app in Hin as [Hin|Hin]; [by apply Hack|].
    apply list_elem_of_singleton in Hin as [= <- <-]. by apply Ha.
  - intros c Hin. destruct (Hf c Hin) as (? & ? & Hn). split_and!; auto.
Qed.

Lemma client_acts_inv serial acts b :
  Forall (λ a, match a with BattleClientSends c ResultReceived => c ∈ live (battle_side b) → won serial b c | _ => True end) acts →
  battle_inv serial b → battle_inv serial (client_acts acts b).
Proof.
  intros Hall. revert b Hall. induction acts as [|a acts IH]; intros b Hall Hb; [done|].
  apply Forall_cons in Hall as [Ha Hall]. apply (IH (client_act b a)); [|by apply client_act_inv].
  destruct (client_act_keeps b a) as (Htc & _ & _ & _ & _ & Hlive & _).
  eapply Forall_impl; [exact Hall|]. intros [| | |c []| | | | |]; try done.
  intros Hx Hc. unfold won. rewrite Htc. by apply Hx, Hlive.
Qed.

(** Asking for a connection brings the client home. *)
Definition requests (a : action Addr) : bool :=
  match a with RequestsLobby _ | RequestsBattle _ => true | _ => false end.
Definition disconnects (a : action Addr) : bool :=
  match a with LobbyClientDisconnects _ | BattleClientDisconnects _ => true | _ => false end.

Lemma client_act_home b (a : action Addr) :
  asked (lobby_side b) ≠ [] ∨ asked (battle_side b) ≠ [] ∨ requests a = true →
  asked (lobby_side (client_act b a)) ≠ [] ∨ asked (battle_side (client_act b a)) ≠ [].
Proof.
  assert (Hsnoc : ∀ (l : list Addr) x, l ++ [x] ≠ []) by (intros l x; by destruct l).
  intros Hb. destruct a; cbn; try (by naive_solver). by destruct (decide _); naive_solver.
Qed.

Lemma client_acts_asked acts b :
  asked (lobby_side b) ≠ [] ∨ asked (battle_side b) ≠ [] ∨ existsb requests acts = true → at_home (client_acts acts b).
Proof.
  revert b. induction acts as [|a acts IH]; intros b Hb; cbn in Hb |- *; [unfold at_home; naive_solver|].
  apply IH. pose proof (client_act_home b a). rewrite orb_true_iff in Hb. naive_solver.
Qed.

Lemma client_acts_stay acts b : existsb disconnects acts = false → at_home b → at_home (client_acts acts b).
Proof.
  revert b. induction acts as [|a acts IH]; intros b Hd Hb; [done|]. cbn in Hd. apply orb_false_iff in Hd as [Ha Hd].
  apply (IH (client_act b a) Hd). unfold at_home in *.
  assert (Hsnoc : ∀ (l : list Addr) x, l ++ [x] ≠ []) by (intros l x; by destruct l).
  destruct a; cbn in *; try done; [by destruct (decide _)|naive_solver..].
Qed.

(** *** The steps *)

(** What the invariant does not look at may change. *)
Lemma battle_inv_same serial b b' :
  live (battle_side b') = live (battle_side b) → known (battle_side b') = known (battle_side b) →
  to_server b' = to_server b → to_client b' = to_client b → handled b' = handled b → finished b' = finished b →
  (∀ c, Battle.result_received b' = true → c ∈ live (battle_side b) → won serial b c) →
  battle_inv serial b → battle_inv serial b'.
Proof.
  intros Hl Hk Hts Htc Hh Hf Hr [].
  split; unfold won in *; rewrite ?Hl, ?Hk, ?Hts, ?Htc, ?Hh, ?Hf; auto.
Qed.

Lemma battle_inv_lobby serial s b : battle_inv serial b → battle_inv serial (with_lobby s b).
Proof. intros Hb. pose proof Hb as []. by apply (battle_inv_same serial b). Qed.

Lemma battle_inv_asked serial l b : battle_inv serial b → battle_inv serial (with_battle (side_answered l (battle_side b)) b).
Proof. intros Hb. pose proof Hb as []. by apply (battle_inv_same serial b). Qed.

Lemma battle_inv_timeout serial t b : battle_inv serial b → battle_inv serial (with_app (result_received b) t b).
Proof. intros Hb. pose proof Hb as []. by apply (battle_inv_same serial b). Qed.

(** Actions that send no acknowledgement. *)
Definition acknowledges (a : action Addr) : bool :=
  match a with BattleClientSends _ ResultReceived => true | _ => false end.

Lemma quiet_acts_inv serial acts b : existsb acknowledges acts = false → battle_inv serial b → battle_inv serial (client_acts acts b).
Proof.
  intros Ha. apply client_acts_inv. apply Forall_forall. intros a Hin.
  assert (Hq : acknowledges a = false).
  { apply not_true_is_false. intros Ht. assert (existsb acknowledges acts = true) as Hex; [|by rewrite Hex in Ha].
    apply existsb_exists. exists a. split; [by apply list_elem_of_In|done]. }
  destruct a as [| | |c []| | | | |]; done.
Qed.

Lemma server_acts_inv serial acts h b :
  (∀ c p, (c, p) ∈ h → (c, p) ∈ to_server b) →
  (∀ c, (c, YouWon) ∈ omap server_sent acts → (c, Play) ∈ h) →
  (∀ c, (c, ResultConfirmed) ∈ omap server_sent acts → (c, ResultReceived) ∈ h) →
  battle_inv serial b → battle_inv serial (server_acts acts h b).
Proof.
  intros Hin Hyou Hres [Hl Hs Hk Hw Hr Hack Hh Hc Hf Ho].
  assert (Hwon : ∀ c, won serial b c → won serial (server_acts acts h b) c).
  { unfold won. cbn. destruct serial; [intros c Hc'|intros c [c' Hc']; exists c']; apply elem_of_app; by left. }
  split; cbn; auto.
  - intros c [Hc'|Hc']%elem_of_app; apply elem_of_app; [left; by apply Hw|right; by apply Hyou].
  - intros c p [Hc'|Hc']%elem_of_app; auto.
  - intros c [Hc'|Hc']%elem_of_app; apply elem_of_app; [left; by apply Hc|right; by apply Hres].
  - intros c Hc'. destruct (Hf c Hc') as (? & ? & ?). split_and!; try done. apply elem_of_app. by left.
Qed.

Lemma battle_hears_inv serial c p b : c ∈ live (battle_side b) → (c, p) ∈ to_client b →
  battle_inv serial b → battle_inv serial (battle_hears c p b).
Proof.
  intros Hlc Hp Hb. unfold battle_hears. destruct p; cbn [battle_client_packet_handler].
  1,2,5: apply quiet_acts_inv; [done|]; pose proof Hb as []; apply (battle_inv_same serial b); try done; cbn; by rewrite app_nil_r.
  - (* YouWon *)
    assert (Hall : ∀ c', c' ∈ live (battle_side b) → won serial b c').
    { intros c' Hc'. unfold won. destruct serial; [|by exists c]. by rewrite (bi_serial _ _ Hb c' c). }
    apply client_acts_inv; [by constructor; [apply Hall|]|].
    pose proof Hb as []. apply (battle_inv_same serial b); try done; [cbn; by rewrite app_nil_r|auto].
  - (* ResultConfirmed *)
    destruct Hb as [Hl Hs Hk Hw Hr Hack Hh Hc Hf Ho]. split; cbn; auto.
    + intros c' [_ Hc']%list_elem_of_filter. by apply Hl.
    + intros c1 c2 Hser [_ H1]%list_elem_of_filter [_ H2]%list_elem_of_filter. by apply Hs.
    + intros c' [_ Hc']%list_elem_of_filter. by apply Hk.
    + intros c' Hrr [_ Hc']%list_elem_of_filter. by apply Hr.
    + intros c' [Hc'|Hc']%elem_of_app.
      * destruct (Hf c' Hc') as (? & ? & Hn). split_and!; try done. by intros [_ ?]%list_elem_of_filter.
      * apply list_elem_of_singleton in Hc' as ->. split_and!; [done|by apply Hl|]. by intros [? _]%list_elem_of_filter.
    + apply NoDup_app. split; [done|]. split; [|apply NoDup_singleton].
      intros c' Hc' ->%list_elem_of_singleton. by destruct (Hf c Hc') as (_ & _ & ?).
Qed.

Lemma battle_connects_inv serial k b : ecs_id k ∉ known (battle_side b) → (serial = true → live (battle_side b) = []) →
  battle_inv serial b → battle_inv serial (battle_connects k b).
Proof.
  intros Hfresh Hone [Hl Hs Hk Hw Hr Hack Hh Hc Hf Ho].
  unfold battle_connects, battle_client_connect_handler, client_acts. cbn [foldl client_act battle_side with_app with_battle live side_established].
  rewrite decide_True by (apply elem_of_app; right; by apply list_elem_of_singleton).
  split; cbn; try done.
  - intros c [Hc'|Hc']%elem_of_app; apply elem_of_app; [left; by apply Hl|by right].
  - intros c c' Hser. rewrite (Hone Hser). by intros ->%list_elem_of_singleton ->%list_elem_of_singleton.
  - intros c [Hc'|Hc']%elem_of_app; apply elem_of_app; [left; by apply Hk|right].
    apply list_elem_of_singleton in Hc' as ->. by apply list_elem_of_singleton.
  - intros c [Hc'|Hc'%list_elem_of_singleton]%elem_of_app; [by apply Hack|done].
  - intros c p Hc'. apply elem_of_app. left. by apply Hh.
  - intros c Hc'. destruct (Hf c Hc') as (? & Hkn & Hn). split_and!; [done|apply elem_of_app; by left|].
    intros [?|Hx%list_elem_of_singleton]%elem_of_app; [done|]. subst c. done.
Qed.

Lemma battle_closed_inv serial c e a b : battle_inv serial b → battle_inv serial (with_battle (side_closed c e a (battle_side b)) b).
Proof.
  intros [Hl Hs Hk Hw Hr Hack Hh Hc Hf Ho]. split; cbn; auto.
  - intros c' [_ Hc']%list_elem_of_filter. by apply Hl.
  - intros c1 c2 Hser [_ H1]%list_elem_of_filter [_ H2]%list_elem_of_filter. by apply Hs.
  - intros c' [_ Hc']%list_elem_of_filter. by apply Hk.
  - intros c' Hrr [_ Hc']%list_elem_of_filter. by apply Hr.
  - intros c' Hc'. destruct (Hf c' Hc') as (? & ? & Hn). split_and!; try done. by intros [_ ?]%list_elem_of_filter.
Qed.

Lemma reconnect_quiet (s : ActiveServers Addr) : existsb acknowledges (reconnect s) = false.
Proof. unfold reconnect. by destruct (lobby s) as [[]|], (battle s) as [[]|]. Qed.

Lemma battle_step_inv serial b b' : battle_step serial b b' → battle_inv serial b → battle_inv serial b'.
Proof.
  intros Hs Hb. destruct Hs as [c p b _|k l1 l2 b _ _|c e a b _|e a l1 l2 b _|c p b Hc Hp|k l1 l2 b Hf Hone _|c e a b _|e a l1 l2 b _
    |b|elapsed b|c p registered b Hin|registered b|c p b Hin].
  - apply quiet_acts_inv; [by destruct p|by apply battle_inv_timeout].
  - apply quiet_acts_inv; [done|]. refine (battle_inv_timeout serial _ (with_lobby _ (with_lobby _ b)) _). by do 2 apply battle_inv_lobby.
  - apply quiet_acts_inv; [by unfold lobby_client_reconnect_if_error; destruct (intentional e)|by apply battle_inv_lobby].
  - apply quiet_acts_inv; [done|by apply battle_inv_lobby].
  - by apply battle_hears_inv.
  - apply battle_connects_inv; [done|done|by apply battle_inv_asked].
  - apply quiet_acts_inv; [by unfold battle_client_reconnect_if_error; destruct (intentional e)|by apply battle_closed_inv].
  - apply quiet_acts_inv; [done|by apply battle_inv_asked].
  - apply client_acts_inv; [|done]. unfold send_keepalive. destruct (lobby _) as [[]|], (battle _) as [[]|]; repeat constructor.
    cbn. destruct (result_received b) eqn:Hr; [|done]. by apply (bi_received _ _ Hb).
  - unfold client_checks, client_check_timeout. destruct (client_just_expired _ _) as [t []]; apply quiet_acts_inv;
      [apply reconnect_quiet|by apply battle_inv_timeout|done|by apply battle_inv_timeout].
  - apply server_acts_inv; [by intros ?? ?%not_elem_of_nil| | |done]; intros c' Hc'; exfalso; revert Hc';
      unfold battle_welcome; rewrite omap_app, elem_of_app, list_elem_of_omap; intros [(x & Hx & He)|Hx];
      [apply list_elem_of_fmap in Hx as (y & -> & _); done|by apply list_elem_of_singleton in Hx|
       apply list_elem_of_fmap in Hx as (y & -> & _); done|by apply list_elem_of_singleton in Hx].
  - apply server_acts_inv; [by intros ?? ?%not_elem_of_nil| | |done]; intros c' Hc'; exfalso; revert Hc';
      unfold server_send_keepalive; rewrite list_elem_of_omap; intros (x & Hx & He);
      apply list_elem_of_fmap in Hx as (y & -> & _); done.
  - apply server_acts_inv; [by intros ?? [= -> ->]%list_elem_of_singleton| | |done]; intros c' Hc'; destruct p; cbn in Hc';
      try (by apply not_elem_of_nil in Hc'); apply list_elem_of_singleton in Hc'; try done; injection Hc' as ->;
      by apply list_elem_of_singleton.
Qed.

Lemma filter_absent c (l : list ConnectionId) : c ∉ l → filter (λ c', c' ≠ c) l = l.
Proof. intros Hc. apply filter_all, Forall_forall. by intros x Hx ->. Qed.

Lemma battle_step_home serial b b' : battle_step serial b b' → at_home b → at_home b'.
Proof.
  assert (Hsnoc : ∀ A (l : list A) x, l ++ [x] ≠ []) by (intros A l x; by destruct l).
  intros Hs Hb. destruct Hs as [c p b _|k l1 l2 b _ _|c e a b He|e a l1 l2 b _|c p b Hc Hp|k l1 l2 b Hf Hone _|c e a b He|e a l1 l2 b _
    |b|elapsed b|c p registered b Hin|registered b|c p b Hin].
  - unfold lobby_hears. destruct p; [by apply client_acts_stay|by apply client_acts_asked; cbn; auto|by apply client_acts_stay].
  - apply client_acts_stay; [done|]. left. cbn. apply Hsnoc.
  - unfold lobby_closes, lobby_client_reconnect_if_error. destruct (intentional e) eqn:Hi.
    + apply client_acts_stay; [done|]. unfold at_home in *. cbn. by rewrite filter_absent by auto.
    + apply client_acts_asked. cbn. auto.
  - apply client_acts_asked. cbn. auto.
  - unfold battle_hears. destruct p; cbn [battle_client_packet_handler]; try (by apply client_acts_stay).
    apply client_acts_asked. cbn. auto.
  - unfold battle_connects, battle_client_connect_handler. apply client_acts_stay; [done|]. do 2 right. left. cbn. apply Hsnoc.
  - unfold battle_closes, battle_client_reconnect_if_error. destruct (intentional e) eqn:Hi.
    + apply client_acts_stay; [done|]. unfold at_home in *. cbn. by rewrite filter_absent by auto.
    + apply client_acts_asked. cbn. auto.
  - apply client_acts_asked. cbn. auto.
  - apply client_acts_stay; [|done]. unfold send_keepalive. by destruct (lobby _) as [[]|], (battle _) as [[]|].
  - unfold client_checks, client_check_timeout. destruct (client_just_expired _ _) as [t []]; [|by apply client_acts_stay].
    unfold reconnect. destruct (lobby _) as [[]|] eqn:Hl, (battle _) as [[]|];
      try (apply client_acts_asked; cbn; by auto). by apply client_acts_stay.
  - done.
  - done.
  - done.
Qed.

Lemma battle_reachable serial b : rtc (battle_step serial) battle_start b → battle_inv serial b ∧ at_home b.
Proof.
  intros Hr. assert (Hstart : battle_inv serial battle_start ∧ at_home battle_start).
  { split; [|by right; left]. split; cbn; intros; try done; try constructor;
      match goal with Hin : _ ∈ [] |- _ => by apply not_elem_of_nil in Hin end. }
  revert Hstart. generalize battle_start, Hr. clear Hr. intros b0 Hr.
  induction Hr as [|b0 b1 b2 Hs _ IH]; [done|]. intros [Hi Hh]. apply IH. split; [by eapply battle_step_inv|by eapply battle_step_home].
Qed.

(** ** What can still happen *)

Lemma client_acts_keeps acts b :
  finished (client_acts acts b) = finished b ∧ known (battle_side (client_acts acts b)) = known (battle_side b).
Proof.
  revert b. induction acts as [|a acts IH]; intros b; [done|]. destruct (client_act_keeps b a) as (_ & _ & Hf & _ & Hk & _).
  destruct (IH (client_act b a)) as [Hf' Hk']. change (client_acts (a :: acts) b) with (client_acts acts (client_act b a)).
  by rewrite Hf', Hk', Hf, Hk.
Qed.

(** The client hears a packet it answers. *)
Lemma hears_answers serial c p q rr b :
  battle_client_packet_handler LOBBY_SERVER c p (result_received b) = (rr, [BattleClientSends c q]) → p ≠ ResultConfirmed →
  c ∈ live (battle_side b) → (c, p) ∈ to_client b →
  ∃ b', battle_step serial b b' ∧ (c, q) ∈ to_server b' ∧ c ∈ live (battle_side b') ∧ finished b' = finished b.
Proof.
  intros Hh Hp Hc Hin. exists (battle_hears c p b). split; [by apply on_battle_packet|].
  unfold battle_hears. rewrite Hh. cbn. rewrite decide_True by done. cbn. split_and!; [|done|].
  - apply elem_of_app. right. by apply list_elem_of_singleton.
  - destruct p; try done; by rewrite app_nil_r.
Qed.

(** The server answers a packet. *)
Lemma server_answers serial c p q b :
  battle_server_packet_handler (Addr:=Addr) c p = [BattleServerSends c q] → (c, p) ∈ to_server b →
  ∃ b', battle_step serial b b' ∧ (c, q) ∈ to_client b' ∧ battle_side b' = battle_side b ∧ finished b' = finished b.
Proof.
  intros Hh Hin. eexists. split; [by apply (server_hears serial c p)|]. rewrite Hh. split_and!; try done. cbn.
  apply elem_of_app. right. by apply list_elem_of_singleton.
Qed.

(** An acknowledgement that gets through brings the confirmation. *)
Lemma acknowledged_finishes serial c b : c ∈ live (battle_side b) → (c, ResultReceived) ∈ to_server b →
  ∃ b', rtc (battle_step serial) b b' ∧ finished b' = finished b ++ [c].
Proof.
  intros Hc Hin. destruct (server_answers serial c ResultReceived ResultConfirmed b eq_refl Hin) as (b1 & H1 & Hin1 & Hs1 & Hf1).
  exists (battle_hears c ResultConfirmed b1). split; [|cbn; by rewrite Hf1].
  eapply rtc_l; [exact H1|]. apply rtc_once, on_battle_packet; [by rewrite Hs1|done].
Qed.

(** So does a request to play. *)
Lemma played_finishes serial c b : c ∈ live (battle_side b) → (c, Play) ∈ to_server b →
  ∃ b', rtc (battle_step serial) b b' ∧ finished b' = finished b ++ [c].
Proof.
  intros Hc Hin. destruct (server_answers serial c Play YouWon b eq_refl Hin) as (b1 & H1 & Hin1 & Hs1 & Hf1).
  destruct (hears_answers serial c YouWon ResultReceived true b1 eq_refl) as (b2 & H2 & Hin2 & Hc2 & Hf2);
    [done|by rewrite Hs1|done|].
  destruct (acknowledged_finishes serial c b2 Hc2 Hin2) as (b3 & H3 & Hf3). exists b3. split; [|by rewrite Hf3, Hf2, Hf1].
  eapply rtc_l; [exact H1|]. by eapply rtc_l.
Qed.

(** The keepalive of the current battle. *)
Lemma tick_finishes serial c a b : c ∈ live (battle_side b) →
  current (battle_side b) = Some (c, a) → current (lobby_side b) = None →
  ∃ b', rtc (battle_step serial) b b' ∧ finished b' = finished b ++ [c].
Proof.
  intros Hc Hcur Hno. set (q := if result_received b then ResultReceived else Play).
  assert (Htick : (c, q) ∈ to_server (client_ticks b) ∧ c ∈ live (battle_side (client_ticks b)) ∧ finished (client_ticks b) = finished b).
  { unfold client_ticks, send_keepalive. cbn [lobby battle servers]. rewrite Hcur, Hno. cbn. rewrite decide_True by done. cbn.
    split_and!; try done. apply elem_of_app. right. by apply list_elem_of_singleton. }
  destruct Htick as (Hin & Hc' & Hf). rewrite <- Hf.
  assert (Hgo : ∃ b', rtc (battle_step serial) (client_ticks b) b' ∧ finished b' = finished (client_ticks b) ++ [c]).
  { unfold q in Hin. destruct (result_received b); [by apply acknowledged_finishes|by apply played_finishes]. }
  destruct Hgo as (b' & Hr & Hf'). exists b'. split; [|done]. eapply rtc_l; [apply on_tick|done].
Qed.

(** A new battle. *)
Lemma connect_finishes serial k l1 l2 b :
  ecs_id k ∉ known (battle_side b) → (serial = true → live (battle_side b) = []) →
  asked (battle_side b) = l1 ++ ecs_peer_addr k :: l2 →
  ∃ b', rtc (battle_step serial) b b' ∧ finished b' = finished b ++ [ecs_id k].
Proof.
  intros Hk Hone Ha. pose proof (on_battle_connect serial k l1 l2 b Hk Hone Ha) as H1.
  set (b1 := battle_connects _ _) in H1.
  assert (Hb1 : ecs_id k ∈ live (battle_side b1) ∧ (ecs_id k, BcKeepAlive) ∈ to_server b1 ∧ finished b1 = finished b).
  { unfold b1, battle_connects, battle_client_connect_handler, client_acts. cbn. rewrite decide_True.
    2: { apply elem_of_app. right. by apply list_elem_of_singleton. }
    cbn. split_and!; [..|done]; apply elem_of_app; right; by apply list_elem_of_singleton. }
  destruct Hb1 as (Hl1 & Hin1 & Hf1). clearbody b1.
  pose proof (server_accepts serial (ecs_id k) BcKeepAlive [] b1 Hin1) as H2. set (b2 := server_acts _ _ b1) in H2.
  destruct (hears_answers serial (ecs_id k) BattleStart Play (result_received b2) b2 eq_refl) as (b3 & H3 & Hin3 & Hl3 & Hf3);
    [done|done|cbn; apply elem_of_app; right; by apply list_elem_of_singleton|].
  destruct (played_finishes serial (ecs_id k) b3 Hl3 Hin3) as (b4 & H4 & Hf4).
  exists b4. split; [|by rewrite Hf4, Hf3, <- Hf1]. do 3 (eapply rtc_l; [eassumption|]). done.
Qed.

Lemma fresh_connection (l : list ConnectionId) (a : Addr) : ∃ k : EcsConnection Addr, (ecs_id k ∉ l) ∧ ecs_peer_addr k = a.
Proof.
  exists {| ecs_id := {| connection_number := fresh (connection_number <$> l) |}; ecs_local_addr := a; ecs_peer_addr := a |}.
  split; [|done]. cbn. intros Hin. apply (infinite_is_fresh (connection_number <$> l)).
  by apply (list_elem_of_fmap_2 connection_number) in Hin.
Qed.

(** The same battles as before. *)
Definition same_battles b b' : Prop := finished b' = finished b ∧ known (battle_side b') = known (battle_side b).

#[local] Instance same_battles_trans : Transitive same_battles.
Proof. intros b1 b2 b3 [Hf1 Hk1] [Hf2 Hk2]. split; by etrans. Qed.

Definition lost : ReceiveError DecErr LenErr := Io (io_error_from ConnectionReset).

(** All battle connections are lost. *)
Lemma battles_lost serial n b : (length (live (battle_side b)) ≤ n)%nat →
  live (battle_side b) ≠ [] ∨ asked (battle_side b) ≠ [] →
  ∃ b', rtc (battle_step serial) b b' ∧ same_battles b b' ∧ live (battle_side b') = [] ∧ asked (battle_side b') ≠ [].
Proof.
  revert b. induction n as [|n IH]; intros b Hn Hb.
  { assert (Hl : live (battle_side b) = []) by (apply nil_length_inv; lia). exists b.
    split_and!; [done|by split|done|by destruct Hb]. }
  destruct (live (battle_side b)) as [|c l] eqn:Hl.
  { exists b. split_and!; [done|by split|done|by destruct Hb]. }
  set (b1 := battle_closes c lost LOBBY_SERVER b).
  assert (H1 : battle_step serial b b1) by by apply on_battle_close.
  assert (Hb1 : (same_battles b b1) ∧ live (battle_side b1) = filter (λ c', c' ≠ c) (c :: l) ∧
    asked (battle_side b1) ≠ []).
  { unfold b1. cbn. rewrite Hl. split_and!; try done. by destruct (asked (battle_side b)). }
  clearbody b1. destruct Hb1 as (Hs1 & Hl1 & Ha1). rewrite filter_cons_False in Hl1 by (intros Hx; by apply Hx).
  destruct (IH b1) as (b2 & H2 & Hs2 & Hl2 & Ha2).
  { rewrite Hl1. pose proof (length_filter (λ c', c' ≠ c) l). cbn in Hn. lia. }
  { by right. }
  exists b2. split_and!; [by eapply rtc_l|by etrans|done|done].
Qed.

(** The client asks for the lobby, connects to it, and is sent to a battle. *)
Lemma lobby_sends_on serial b : asked (lobby_side b) ≠ [] →
  ∃ b', rtc (battle_step serial) b b' ∧ same_battles b b' ∧ asked (battle_side b') ≠ [].
Proof.
  intros Ha. destruct (asked (lobby_side b)) as [|a l] eqn:Hask; [done|].
  destruct (fresh_connection (known (lobby_side b)) a) as (k & Hk & <-).
  pose proof (on_lobby_connect serial k [] l b Hk Hask) as H1. set (b1 := lobby_connects _ _) in H1.
  assert (Hin : ecs_id k ∈ known (lobby_side b1)) by (cbn; apply elem_of_app; right; by apply list_elem_of_singleton).
  pose proof (on_lobby_packet serial (ecs_id k) (LsBattleServer LOBBY_SERVER) b1 Hin) as H2.
  eexists. split; [eapply rtc_l; [exact H1|]; apply rtc_once; exact H2|]. split; [done|]. cbn. by destruct (asked (battle_side b)).
Qed.

Lemma home_asks serial b : at_home b →
  ∃ b', rtc (battle_step serial) b b' ∧ same_battles b b' ∧ live (battle_side b') = [] ∧ asked (battle_side b') ≠ [].
Proof.
  intros Hb. assert (Hlobby : asked (lobby_side b) ≠ [] → ∃ b', rtc (battle_step serial) b b' ∧ same_battles b b' ∧
    live (battle_side b') = [] ∧ asked (battle_side b') ≠ []).
  { intros Ha. destruct (lobby_sends_on serial b Ha) as (b1 & H1 & Hs1 & Ha1).
    destruct (battles_lost serial _ b1 (Nat.le_refl _) (or_intror Ha1)) as (b2 & H2 & Hs2 & Hl2 & Ha2).
    exists b2. split_and!; [by etrans|by etrans|done|done]. }
  destruct Hb as [Hb|[Hb|[Hb|Hb]]]; [|by apply Hlobby|by eapply battles_lost; [|left]|by eapply battles_lost; [|right]].
  destruct (live (lobby_side b)) as [|c l] eqn:Hl; [done|]. clear Hlobby.
  pose proof (on_lobby_close serial c lost LOBBY_SERVER b ltac:(done)) as H1. set (b1 := lobby_closes _ _ _ b) in H1.
  destruct (lobby_sends_on serial b1) as (b2 & H2 & Hs2 & Ha2); [cbn; by destruct (asked (lobby_side b))|].
  destruct (battles_lost serial _ b2 (Nat.le_refl _) (or_intror Ha2)) as (b3 & H3 & Hs3 & Hl3 & Ha3).
  exists b3. split_and!; [eapply rtc_l; [exact H1|by etrans]|etrans; [exact Hs2|exact Hs3]|done|done].
Qed.

End Battle.

(** ** An execution

    A client that times out in its first battle, asks for it again and finishes the
    second. *)
Definition connection_to (n : Z) (peer : nat) : EcsConnection nat :=
  {| ecs_id := {| connection_number := n |}; ecs_local_addr := 9%nat; ecs_peer_addr := peer |}.

Definition first_battle : ConnectionId := {| connection_number := 1 |}.
Definition second_battle : ConnectionId := {| connection_number := 2 |}.

Ltac here := vm_compute; repeat first [apply list_elem_of_here|apply list_elem_of_further].
Ltac absent := intros; apply (bool_decide_unpack _); vm_compute; exact I.
Tactic Notation "next" uconstr(rule) := eapply rtc_l; [apply rule; solve [done|absent|here]|].

