(* ===== verification/Greetings.v ===== *)
(** * The greeting examples

    Models src/examples/hello_world_tcp.rs, hello_world_tcp_encrypted.rs and
    hello_world_udp.rs: a client and a server that answer every packet. An
    observer is the packet it passes to [send], whose answer it returns. Each
    program is a [Program] of [Conversation]; [EncryptedRun] runs the encrypted
    one over the connection of [Duplex]. *)

From S2P Require Import Prelude Protocol Codec Lossy Externals Diagnostics Settings Serializer Crypt Conversation.

Local Open Scope Z_scope.

(** ** hello_world_tcp.rs *)

Module HelloTcp.
Inductive ClientPacket := ClientString (s : string).
Inductive ServerPacket := ServerString (s : string).

Definition server_new_connection_system : ServerPacket := ServerString "Hello, World!".

Definition client_packet_receive_system (packet : ServerPacket) : outcome ClientPacket :=
  let '(ServerString s) := packet in Returns (ClientString "Hello, Server!").

Definition server_packet_receive_system (packet : ClientPacket) : outcome ServerPacket :=
  let '(ClientString s) := packet in Returns (ServerString "Hello, Client!").

(** The observers [main] adds; the client has none for its establishment. *)
Definition main : Program ServerPacket ClientPacket := {|
  welcome := server_new_connection_system; introduction := None;
  client_answer := client_packet_receive_system; server_answer := server_packet_receive_system |}.

(** [Config]. *)
Definition build_serializer : SerializerAdapter BitcodeSerializer BitcodeSerializer := ReadOnly bitcode_new.
Definition LengthSerializer : LittleEndian u32 := little_endian.
End HelloTcp.

(** ** hello_world_tcp_encrypted.rs *)

Module HelloEncrypted.
Definition server_new_connection_system : CustomCryptServerPacket := ServerString "Hello, World!".

Definition client_packet_receive_system (packet : CustomCryptServerPacket) : outcome CustomCryptClientPacket :=
  let '(ServerString s) := packet in Returns (ClientString "Hello, Server!").

Definition client2_packet_receive_system (packet : CustomCryptServerPacket) : outcome CustomCryptClientPacket :=
  let '(ServerString s) := packet in Returns (ClientString "Hello, Server!, I'm Client2").

Definition server_packet_receive_system (packet : CustomCryptClientPacket) : outcome CustomCryptServerPacket :=
  let '(ClientString s) := packet in Returns (ServerString "Hello, Client!").

(** The server's conversation with either of the two clients [main] starts. *)
Definition main (second : bool) : Program CustomCryptServerPacket CustomCryptClientPacket := {|
  welcome := server_new_connection_system; introduction := None;
  client_answer := if second then client2_packet_receive_system else client_packet_receive_system;
  server_answer := server_packet_receive_system |}.

Definition client_text (second : bool) : string :=
  if second then "Hello, Server!, I'm Client2" else "Hello, Server!".

(** [Config]: both ends start with the default engine. *)
Definition build_serializer {R Rp Sp} : SerializerAdapter R (CustomCryptSerializer CustomCryptEngine Rp Sp) :=
  Mutable {| contents := CustomCryptSerializer_new CustomCryptEngine_default; poisoned := false |}.
Definition LengthSerializer : LittleEndian u32 := little_endian.
End HelloEncrypted.

(** ** hello_world_udp.rs *)

Module HelloUdp.
Inductive ClientPacket := ClientString (s : string).
Inductive ServerPacket := ServerString (s : string).

(** [UdpConfig::OPTIONS], and the resources both apps insert. *)
Definition OPTIONS : UdpOptions := {|
  max_peers := 64;
  max_datagram_size := 1200;
  receive_queue_capacity := receive_queue_capacity UdpOptions_DEFAULT;
  receive_queue_bytes := receive_queue_bytes UdpOptions_DEFAULT;
  receive_queue_overflow := DropOldest;
  send_rate := Some (16 * 1024);
|}.

Definition app_max_packet_size : MaxPacketSize := {| max_packet_bytes := 1200 |}.

Definition app_queue_settings : NetworkQueueSettings := {|
  send_capacity := send_capacity NetworkQueueSettings_default;
  receive_capacity := receive_capacity NetworkQueueSettings_default;
  events_per_frame := events_per_frame NetworkQueueSettings_default;
  datagram_send_overflow := datagram_send_overflow NetworkQueueSettings_default;
  datagram_receive_overflow := DropOldest;
|}.

(** The observer also caps the send rate of the connection's handle. *)
Definition server_new_connection_system {W} `{Watch W} (udp : UdpConnectionHandle W)
    : UdpConnectionHandle W * ServerPacket :=
  (set_send_rate udp (Some (16 * 1024)), ServerString "Hello, World!").

Definition client_establish : ClientPacket := ClientString "Hello, Server!".

Definition client_packet_receive_system (packet : ServerPacket) : outcome ClientPacket :=
  let '(ServerString s) := packet in Returns (ClientString "Hello, Server!").

Definition server_packet_receive_system (packet : ClientPacket) : outcome ServerPacket :=
  let '(ClientString s) := packet in Returns (ServerString "Hello, Client!").

Definition main {W} `{Watch W} (udp : UdpConnectionHandle W) : Program ServerPacket ClientPacket := {|
  welcome := (server_new_connection_system udp).2; introduction := Some client_establish;
  client_answer := client_packet_receive_system; server_answer := server_packet_receive_system |}.
End HelloUdp.

(** ** What the programs promise over any medium *)

(** Over datagrams, hello_world_udp.rs greets as it should, and beyond the two
    greetings there is no packet that does not answer one. *)
Theorem udp_greetings `{Target} {M : Type} `{S : Medium HelloUdp.ServerPacket M} `{C : Medium HelloUdp.ClientPacket M} {ok}
    {sayS opS} `{!MediumLaws HelloUdp.ServerPacket M sayS ok opS} `{!Apart S C sayS ok opS}
    {sayC opC} `{!MediumLaws HelloUdp.ClientPacket M sayC ok opC} `{!Apart C S sayC ok opC}
    {W : Type → Type} `{Watch W} (udp : UdpConnectionHandle W) (es : list (conversation_event S C)) m :
  speakable (HelloUdp.main udp) sayS sayC →
  Forall (event_ok (opS:=opS) (opC:=opC)) es → fresh_link (S:=S) (C:=C) (ok:=ok) m →
  let c := conversation_run (HelloUdp.main udp) es (conversation_start m) in
  (∀ p, p ∈ client_heard c →
     p = HelloUdp.ServerString "Hello, World!" ∨ p = HelloUdp.ServerString "Hello, Client!") ∧
  (∀ q, q ∈ server_heard c → q = HelloUdp.ClientString "Hello, Server!") ∧
  (length (sent_to_client c) + length (sent_to_server c) ≤
   2 + length (client_heard c) + length (server_heard c))%nat.
Proof.
  intros Hspeak Hes Hf c. pose proof (conversing_run _ Hspeak es _ Hes (fresh_conversing _ m Hf)) as Hc. fold c in Hc.
  split_and!.
  - intros p Hp%(client_heard_sent _ _ _ Hc).
    destruct (sy_origin _ _ _ _ _ (cv_server _ _ Hc) p Hp) as [[_ [= <-]]|([s] & _ & [= <-])]; auto.
  - intros q Hq%(server_heard_sent _ _ _ Hc).
    destruct (sy_origin _ _ _ _ _ (cv_client _ _ Hc) q Hq) as [[_ [= <-]]|([s] & _ & [= <-])]; auto.
  - unfold sent_to_client, sent_to_server. destruct Hc as [[_ _ Hs] [_ _ Hcl] _ _ _ _]. cbn in Hs, Hcl.
    destruct (welcomed c), (introduced c); lia.
Qed.

(** Over a stream, hello_world_tcp.rs takes turns. *)
Theorem tcp_greetings {M : Type} `{S : Medium HelloTcp.ServerPacket M} `{C : Medium HelloTcp.ClientPacket M} {ok}
    {sayS opS} `{!MediumLaws HelloTcp.ServerPacket M sayS ok opS} `{!Apart S C sayS ok opS}
    {sayC opC} `{!MediumLaws HelloTcp.ClientPacket M sayC ok opC} `{!Apart C S sayC ok opC}
    `{!OrderedMedium HelloTcp.ServerPacket M ok} `{!OrderedMedium HelloTcp.ClientPacket M ok}
    (es : list (conversation_event S C)) m :
  speakable HelloTcp.main sayS sayC →
  Forall (event_ok (opS:=opS) (opC:=opC)) es → fresh_link (S:=S) (C:=C) (ok:=ok) m →
  let c := conversation_run HelloTcp.main es (conversation_start m) in
  client_heard c `prefix_of` HelloTcp.ServerString "Hello, World!" ::
    replicate (length (server_heard c)) (HelloTcp.ServerString "Hello, Client!") ∧
  server_heard c = replicate (length (server_heard c)) (HelloTcp.ClientString "Hello, Server!") ∧
  (length (server_heard c) ≤ length (client_heard c) ≤ Datatypes.S (length (server_heard c)))%nat.
Proof.
  intros Hspeak Hes Hf c.
  pose proof (alternating_run HelloTcp.main Hspeak eq_refl es m Hes Hf) as Hal. fold c in Hal.
  destruct (greetings_heard HelloTcp.main eq_refl c (HelloTcp.ClientString "Hello, Server!")
    (HelloTcp.ServerString "Hello, Client!") Hal) as [Hch Hsh]; [by intros []..|].
  split; [exact Hch|]. split; [exact Hsh|]. by destruct (turns_heard HelloTcp.main eq_refl c Hal) as (_ & _ & ? & _).
Qed.

(** What hello_world_udp.rs configures: options the protocol accepts, a receive
    limit that admits every datagram they allow, and a handle that already has the
    rate the observer sets. *)
Lemma hello_udp_configured `{Target} {W} `{WatchLaws W} :
  ValidatedOptions_new HelloUdp.OPTIONS = Ok {| validated := HelloUdp.OPTIONS |} ∧ options_typed HelloUdp.OPTIONS ∧
  max_datagram_size HelloUdp.OPTIONS = max_packet_bytes HelloUdp.app_max_packet_size ∧
  datagram_receive_overflow (resolve_queues None (Some HelloUdp.app_queue_settings)) = DropOldest ∧
  ∀ udp : UdpConnectionHandle W, watch_borrow (rate (HelloUdp.server_new_connection_system udp).1) = send_rate HelloUdp.OPTIONS.
Proof.
  pose proof MAX_PERMITS_bound. pose proof usize_max_ge. split_and!.
  - unfold ValidatedOptions_new. cbn. rewrite (proj2 (Z.ltb_ge MAX_PERMITS 64)) by lia. done.
  - pose proof usize_max_le_u64. unfold options_typed. change (receive_queue_bytes _) with 1048576.
    cbn [max_peers max_datagram_size receive_queue_capacity send_rate HelloUdp.OPTIONS UdpOptions_DEFAULT from_option].
    split_and!; lia.
  - done.
  - done.
  - intros udp. apply watch_borrow_replace.
Qed.
