(* ===== verification/EncryptedRun.v ===== *)
(** * The encrypted greeting example over its connection

    Runs hello_world_tcp_encrypted.rs of [Greetings] over the stream connection of
    [Duplex], with its length prefix and, at each end, one serializer that holds the
    cipher of both directions; and a concrete execution of it. *)

From S2P Require Import Prelude Protocol Codec Lossy Externals Diagnostics Settings Queue Serializer Framing Crypt UdpStream Connection Tasks Receive Pipeline Conversation StreamMedium Duplex Greetings.

Local Open Scope Z_scope.

(** ** hello_world_tcp_encrypted.rs, from cipher to cipher *)

Section Encrypted.
Context `{Target} {BE : Type} `{BitcodeLaws CustomCryptServerPacket BE} `{BitcodeLaws CustomCryptClientPacket BE}.
Context {R : Type}
  `{ReadOnlySerializer R CustomCryptClientPacket CustomCryptServerPacket CustomSerializationError CustomSerializationError}
  `{ReadOnlySerializer R CustomCryptServerPacket CustomCryptClientPacket CustomSerializationError CustomSerializationError}.
Context {L : Type} `{CancellationToken L} {Ch : Type → Type} `{MpscLaws Ch} {Hd : Type} `{TransportHandle Hd}.

(** What the receiving ends are made of, the client's and the server's. *)
Context {EC DC AddrC storeC ES DS AddrS storeS : Type}.
Variables (client_id server_id : ConnectionId).
Variable client_closed : ReceiveError CustomSerializationError PacketTooLargeError → DC.
Variable server_closed : ReceiveError CustomSerializationError PacketTooLargeError → DS.
Variable client_evict : PacketReceiveEvent CustomCryptServerPacket → storeC → storeC.
Variable server_evict : PacketReceiveEvent CustomCryptClientPacket → storeS → storeS.
Variables (client_full : storeC → storeC) (server_full : storeS → storeS).
Variables (client_notify : option AddrC) (server_notify : option AddrS).
Variable max_payload : Z.
Hypothesis Hpayload : max_payload ≤ usize_max.

(** A packet whose encoding fits in the limit. *)
Abbreviation fits := (λ p, zlen (bitcode_encode p) ≤ max_payload).

(** The two directions of the connection, on the serializers of its two ends. *)
Abbreviation encrypted_link := (Link (L:=L) (Ch:=Ch) (Hd:=Hd) (LS:=LittleEndian u32)
  (Server:=server_end (R:=R)) (Client:=client_end (R:=R)) (EC:=EC) (DC:=DC) (AddrC:=AddrC) (storeC:=storeC)
  (ES:=ES) (DS:=DS) (AddrS:=AddrS) (storeS:=storeS)).

#[local] Instance to_client : Medium CustomCryptServerPacket encrypted_link :=
  down_medium (Server:=server_end (R:=R)) (Client:=client_end (R:=R)) HelloEncrypted.LengthSerializer client_id client_closed client_evict client_full client_notify.
#[local] Instance to_server : Medium CustomCryptClientPacket encrypted_link :=
  up_medium (Server:=server_end (R:=R)) (Client:=client_end (R:=R)) HelloEncrypted.LengthSerializer server_id server_closed server_evict server_full server_notify.

(** A new connection, each end with the serializer [Config] builds. *)
Definition encrypted_start :
    Z → L → Hd → Ch (IncomingMessage _ EC DC) → Shared (PacketReceiveEvent CustomCryptServerPacket) → Ch AddrC → storeC →
    Z → L → Hd → Ch (IncomingMessage _ ES DS) → Shared (PacketReceiveEvent CustomCryptClientPacket) → Ch AddrS → storeS →
    encrypted_link :=
  link_start (LS:=LittleEndian u32) (Server:=server_end (R:=R)) (Client:=client_end (R:=R)) client_id server_id client_closed server_closed client_evict server_evict client_full server_full
    client_notify server_notify HelloEncrypted.build_serializer HelloEncrypted.build_serializer.

(** What may happen to the connection, and what holds of it. *)
Definition to_client_allowed : m_op (Medium:=to_client) → Prop :=
  down_allowed (Server:=server_end (R:=R)) (Client:=client_end (R:=R)) (sayP:=fits) (max_payload:=max_payload) _ _ _ _ _ _.
Definition to_server_allowed : m_op (Medium:=to_server) → Prop :=
  up_allowed (Server:=server_end (R:=R)) (Client:=client_end (R:=R)) (sayQ:=fits) (max_payload:=max_payload) _ _ _ _ _ _.
Definition encrypted_ok : encrypted_link → Prop :=
  link_ok (Server:=server_end (R:=R)) (Client:=client_end (R:=R)) (sayP:=fits) (sayQ:=fits) (max_payload:=max_payload) (synced:=crypt_synced) (synced':=crypt_synced)
    HelloEncrypted.LengthSerializer client_id server_id client_closed server_closed.

Lemma u32_size : (0 < SIZE (LS:=LittleEndian u32))%nat.
Proof. apply Nat.ltb_lt. by vm_compute. Qed.

#[local] Instance to_client_laws : MediumLaws _ _ (H:=to_client) fits encrypted_ok to_client_allowed.
Proof. apply down_laws; [apply u32_size|exact Hpayload]. Qed.
#[local] Instance to_server_laws : MediumLaws _ _ (H:=to_server) fits encrypted_ok to_server_allowed.
Proof. apply up_laws; [apply u32_size|exact Hpayload]. Qed.
#[local] Instance to_client_apart : Apart to_client to_server fits encrypted_ok to_client_allowed.
Proof. apply down_apart. Qed.
#[local] Instance to_server_apart : Apart to_server to_client fits encrypted_ok to_server_allowed.
Proof. apply up_apart. Qed.
#[local] Instance to_client_ordered : OrderedMedium _ _ (H:=to_client) encrypted_ok.
Proof. apply down_ordered. Qed.
#[local] Instance to_server_ordered : OrderedMedium _ _ (H:=to_server) encrypted_ok.
Proof. apply up_ordered. Qed.

(** C25. The encrypted example, over a stream connection with the tasks of both its
    ends, a length prefix, a network that may fail and one serializer at each end,
    which both of its tasks use in whatever order they come: each client hears the
    server's greeting and then one reply for each of its own messages, decrypted to
    what was said; the server hears from each only that client's message; and the
    two take turns, so at most one packet is under way or lost. *)
Theorem encrypted_greetings_take_turns (second : bool) (es : list (conversation_event to_client to_server))
    capS tokenS hS incomingC datagramsC disconnectsC handlesC capC tokenC hC incomingS datagramsS disconnectsS handlesS :
  speakable (HelloEncrypted.main second) fits fits →
  Forall (event_ok (opS:=to_client_allowed) (opC:=to_server_allowed)) es →
  0 < capS → 0 < capC →
  let c := conversation_run (HelloEncrypted.main second) es (conversation_start
    (encrypted_start capS tokenS hS incomingC datagramsC disconnectsC handlesC
       capC tokenC hC incomingS datagramsS disconnectsS handlesS)) in
  client_heard c `prefix_of` ServerString "Hello, World!" :: replicate (length (server_heard c)) (ServerString "Hello, Client!") ∧
  server_heard c = replicate (length (server_heard c)) (ClientString (HelloEncrypted.client_text second)) ∧
  (length (server_heard c) ≤ length (client_heard c) ≤ Datatypes.S (length (server_heard c)) ∧
   length (sent_to_client c) + length (sent_to_server c) ≤
     Datatypes.S (length (client_heard c) + length (server_heard c)))%nat.
Proof.
  intros Hspeak Hes HcapS HcapC c.
  assert (Hal : alternating (S:=to_client) (C:=to_server) (ok:=encrypted_ok) (HelloEncrypted.main second) c).
  { apply (alternating_run (S:=to_client) (C:=to_server) (sayS:=fits) (sayC:=fits) (opS:=to_client_allowed) (opC:=to_server_allowed)); try done.
    by apply link_start_fresh; [eexists _, _..| |]. }
  destruct (greetings_heard (HelloEncrypted.main second) eq_refl c (ClientString (HelloEncrypted.client_text second))
    (ServerString "Hello, Client!") Hal) as [Hch Hsh]; [by intros []; destruct second|by intros []|].
  destruct (turns_heard (HelloEncrypted.main second) eq_refl c Hal) as (_ & _ & Hlen). done.
Qed.
End Encrypted.

(** ** A concrete conversation

    The second client's first message is on its way, in two pieces, when the server
    answers it. *)

Abbreviation closed := (ReceiveError CustomSerializationError PacketTooLargeError).

Definition example_env {P} : recv_poll fifo P unit closed CustomSerializationError PacketTooLargeError nat
    (list QueueDropReason) := {|
  rv_cancelled := false; rv_send_error := None; rv_late_error := None; rv_reads := [];
  rv_incoming c := fifo_with c []; rv_datagrams q := q; rv_disconnects c := c; rv_handles h := h |}.

Definition example_id : ConnectionId := {| connection_number := 1 |}.
Definition example_store (h : list QueueDropReason) : list QueueDropReason := h.

Definition example_link : Type := Link (L:=bool) (Ch:=fifo) (Hd:=list QueueDropReason) (LS:=LittleEndian u32)
  (Server:=server_end (E:=unit) (R:=Empty_set)) (Client:=client_end (E:=unit) (R:=Empty_set))
  (EC:=unit) (DC:=closed) (AddrC:=nat) (storeC:=list QueueDropReason)
  (ES:=unit) (DS:=closed) (AddrS:=nat) (storeS:=list QueueDropReason).
Definition example_to_client : Medium CustomCryptServerPacket example_link :=
  to_client example_id (λ e, e) (λ _, example_store) example_store None.
Definition example_to_server : Medium CustomCryptClientPacket example_link :=
  to_server example_id (λ e, e) (λ _, example_store) example_store None.

Definition put_c : m_op (Medium:=example_to_client) := PipeWrite.
Definition carry_c (n : nat) : m_op (Medium:=example_to_client) := PipeDeliver n.
Definition receive_c : m_op (Medium:=example_to_client) :=
  PipePoll (LS:=LittleEndian u32) (Inc:=client_end (E:=unit) (R:=Empty_set)) 64 0 false example_env.
Definition put_s : m_op (Medium:=example_to_server) := PipeWrite.
Definition carry_s (n : nat) : m_op (Medium:=example_to_server) := PipeDeliver n.
Definition receive_s : m_op (Medium:=example_to_server) :=
  PipePoll (LS:=LittleEndian u32) (Inc:=server_end (E:=unit) (R:=Empty_set)) 64 0 false example_env.

Definition example_events : list (conversation_event example_to_client example_to_server) :=
  [NewConnection; Established; ToClient put_c; ToClient (carry_c 100); ToClient receive_c; ClientObserves;
   ToServer put_s; ToServer (carry_s 7); ToServer receive_s; ToServer (carry_s 100); ToServer receive_s; ServerObserves;
   ToClient put_c; ToClient (carry_c 100); ToClient receive_c; ClientObserves].

Definition example_start : example_link :=
  encrypted_start example_id example_id (λ e, e) (λ e, e) (λ _, example_store) (λ _, example_store)
    example_store example_store None None
    2 false [] (mpsc_channel 2) (lossy_channel 2 usize_max DropOldest) (mpsc_channel 1 : fifo nat) []
    2 false [] (mpsc_channel 2) (lossy_channel 2 usize_max DropOldest) (mpsc_channel 1 : fifo nat) [].

Definition example_conversation :=
  conversation_run (HelloEncrypted.main true) example_events (conversation_start example_start).

Example example_hears :
  (client_heard example_conversation, server_heard example_conversation) =
  ([ServerString "Hello, World!"; ServerString "Hello, Client!"], [ClientString "Hello, Server!, I'm Client2"]).
Proof. by vm_compute. Qed.

Lemma example_speakable :
  speakable (HelloEncrypted.main true) (λ p, zlen (bitcode_encode p) ≤ 64) (λ p, zlen (bitcode_encode p) ≤ 64).
Proof.
  split.
  - apply Z.leb_le. by vm_compute.
  - done.
  - intros [s] q [= <-]. apply Z.leb_le. by vm_compute.
  - intros [s] q [= <-]. apply Z.leb_le. by vm_compute.
Qed.

Lemma example_env_quiet {P} : no_reopen (example_env (P:=P)).
Proof. intros c Hc. exact Hc. Qed.

Lemma example_events_allowed : Forall (event_ok (S:=example_to_client) (C:=example_to_server)
    (opS:=to_client_allowed example_id (λ e, e) (λ _, example_store) example_store None 64)
    (opC:=to_server_allowed example_id (λ e, e) (λ _, example_store) example_store None 64))
  example_events.
Proof.
  unfold example_events. repeat (apply Forall_cons; split;
    [first [exact I | split; [apply Z.leb_le; reflexivity | exact example_env_quiet]]|]). apply Forall_nil. exact I.
Qed.

Lemma encrypted_greetings_take_turns_witness :
  length (server_heard example_conversation) = 1%nat ∧
  server_heard example_conversation = replicate (length (server_heard example_conversation))
    (ClientString "Hello, Server!, I'm Client2").
Proof.
  split; [by vm_compute|]. unfold example_conversation, example_start.
  refine (proj1 (proj2 (encrypted_greetings_take_turns (BE:=unit) (R:=Empty_set) (L:=bool) (Ch:=fifo)
    example_id example_id (λ e : closed, e) (λ e : closed, e) (λ _, example_store) (λ _, example_store)
    example_store example_store None None 64 _ true example_events 2 false [] (mpsc_channel 2)
    (lossy_channel 2 usize_max DropOldest) (mpsc_channel 1) [] 2 false [] (mpsc_channel 2)
    (lossy_channel 2 usize_max DropOldest) (mpsc_channel 1) [] example_speakable example_events_allowed _ _))).
  - apply Z.leb_le. by vm_compute.
  - done.
  - done.
Defined.
