(* ===== verification/Counting.v ===== *)
(** * Counting over datagrams

    Models src/examples/multiple_connections.rs: a server and ten clients over UDP,
    each client confirming the numbers it is sent and the server sending the next.
    A conversation of [Conversation] is the one with one of the clients. *)

From S2P Require Import Prelude Protocol Lossy Externals Settings Queue Serializer Pacing Peer UdpStream Connection Tasks Receive Conversation Datagrams DatagramMedium.

Local Open Scope Z_scope.

(** ** The program *)

Record SequenceNumber := { sequence : Z }.
Inductive ServerPacket := SHello | Message (sequence : SequenceNumber).
Inductive ClientPacket := CHello | Reply (sequence : SequenceNumber).

Definition FIRST : SequenceNumber := {| sequence := 0 |}.

(** [self.0 + 1]: past [usize::MAX] it panics in a build that checks overflow and
    wraps in one that does not. *)
Definition next `{Target} (overflow_checks : bool) (s : SequenceNumber) : outcome SequenceNumber :=
  if overflow_checks && (usize_max <? sequence s + 1) then Panics
  else Returns {| sequence := wadd (sequence s) 1 |}.

Definition ServerPacket_reply (p : ServerPacket) : ClientPacket :=
  match p with SHello => CHello | Message sequence => Reply sequence end.

Definition ClientPacket_reply `{Target} (overflow_checks : bool) (p : ClientPacket) : outcome ServerPacket :=
  match p with
  | CHello => Returns (Message FIRST)
  | Reply sequence =>
      match next overflow_checks sequence with Returns s => Returns (Message s) | Panics => Panics end
  end.

Definition server_new_connection_system : ServerPacket := SHello.
Definition client_establish : ClientPacket := CHello.
Definition client_packet_receive_system (packet : ServerPacket) : outcome ClientPacket :=
  Returns (ServerPacket_reply packet).
Definition server_packet_receive_system `{Target} (overflow_checks : bool) (packet : ClientPacket)
    : outcome ServerPacket := ClientPacket_reply overflow_checks packet.

(** The server's conversation with any of the ten clients [main] starts. *)
Definition main `{Target} (overflow_checks : bool) : Program ServerPacket ClientPacket := {|
  welcome := server_new_connection_system; introduction := Some client_establish;
  client_answer := client_packet_receive_system;
  server_answer := server_packet_receive_system overflow_checks |}.

(** ** What it promises over any medium *)

Section Counting.
Context `{Target} {M : Type} `{S : Medium ServerPacket M} `{C : Medium ClientPacket M} {ok : M → Prop}.
Context {sayS : ServerPacket → Prop} {opS : m_op (Medium:=S) → Prop}
  `{!MediumLaws ServerPacket M sayS ok opS} `{!Apart S C sayS ok opS}.
Context {sayC : ClientPacket → Prop} {opC : m_op (Medium:=C) → Prop}
  `{!MediumLaws ClientPacket M sayC ok opC} `{!Apart C S sayC ok opC}.
Variable overflow_checks : bool.
Abbreviation prog := (main overflow_checks).
Hypothesis Hspeak : speakable prog sayS sayC.
Implicit Types (c : Conversation ServerPacket ClientPacket M).

Abbreviation event_ok := (event_ok (S:=S) (C:=C) (opS:=opS) (opC:=opC)).
Abbreviation conversing := (conversing (S:=S) (C:=C) (ok:=ok) prog).

Definition number (n : Z) : SequenceNumber := {| sequence := n |}.

(** The client has said hello before the server counts. *)
Definition greeted c : Prop :=
  ∀ n, Message n ∈ sent_to_client c → CHello ∈ server_heard c.

Lemma reply_heard c n : conversing c → Reply n ∈ server_heard c → Message n ∈ client_heard c.
Proof.
  intros Hc Hn%(server_heard_sent _ _ _ Hc).
  destruct (sent_answers prog c _ Hc Hn) as ([|m] & Hm & [= <-]); done.
Qed.

Lemma next_answer q n : server_answer prog q = Returns (Message n) →
  q = CHello ∧ n = FIRST ∨ ∃ m, q = Reply m ∧ n = number (wadd (sequence m) 1) ∧
    (overflow_checks = true → sequence m + 1 ≤ usize_max).
Proof.
  cbn. unfold server_packet_receive_system. destruct q as [|m]; cbn; [intros [= <-]; by left|].
  unfold next. destruct (_ && _) eqn:Hb; [done|]. intros [= <-]. right. exists m. split_and!; try done.
  intros ->. cbn in Hb. lia.
Qed.

Lemma greeted_step c (e : conversation_event S C) : event_ok e → conversing c → greeted c →
  greeted (conversation_step prog c e).
Proof.
  intros He Hc Hg n. pose proof (sy_ok _ _ _ _ _ (cv_server _ _ Hc)) as Hok.
  destruct Hspeak as [Hw Hi Hca Hsa].
  destruct e as [| | | |o|o]; cbn [conversation_step].
  - unfold on_new_connection. destruct (_ && _); [|by apply Hg]. unfold sent_to_client. cbn.
    destruct (m_send_law (H:=S) _ _ Hok Hw) as (_ & _ & [Ha|Ha]); cbn in Ha; rewrite Ha; [by apply Hg|].
    intros [Hn|Hn%list_elem_of_singleton]%elem_of_app; [by eapply Hg|done].
  - unfold on_established. destruct (_ && _); [|by apply Hg]. unfold sent_to_client. cbn.
    rewrite (proj1 (apart_send (S:=C) (C:=S) client_establish _ Hok (Hi _ eq_refl))). apply Hg.
  - unfold client_observes. destruct (client_runs c); [|by apply Hg].
    destruct (m_heard _ !! _) as [p|]; [|by apply Hg]. destruct (client_answer _ _) as [q|] eqn:Hq; [|by apply Hg].
    unfold sent_to_client. cbn. rewrite (proj1 (apart_send (S:=C) (C:=S) q _ Hok (Hca _ _ Hq))). apply Hg.
  - unfold server_observes. destruct (server_runs c); [|by apply Hg].
    destruct (m_heard _ !! _) as [q|] eqn:Hq; [|by apply Hg].
    assert (Hold : ∀ n, Message n ∈ sent_to_client c → CHello ∈ server_heard c ++ [q]).
    { intros m Hm. apply elem_of_app. left. by eapply Hg. }
    destruct (server_answer prog q) as [p|] eqn:Hp; unfold sent_to_client; cbn; [|by apply Hold].
    destruct (m_send_law (H:=S) p _ Hok (Hsa _ _ Hp)) as (_ & _ & [Ha|Ha]); rewrite Ha; [by apply Hold|].
    intros [Hn|Hn%list_elem_of_singleton]%elem_of_app; [by eapply Hold|]. subst p.
    apply next_answer in Hp as [[-> _]|(m & -> & _)]; [apply elem_of_app; right; by apply list_elem_of_singleton|].
    assert (Hsent : Reply m ∈ sent_to_server c).
    { eapply (m_genuine (H:=C) (ok:=ok)); [apply (sy_ok _ _ _ _ _ (cv_client _ _ Hc))|]. by eapply list_elem_of_lookup_2. }
    destruct (sent_answers prog c _ Hc Hsent) as ([|m'] & Hm & [= ->]); [done|].
    apply elem_of_app. left. apply (Hg m). by apply (client_heard_sent prog).
  - destruct (m_do_law (H:=S) o _ Hok He) as (_ & Ha & _). unfold sent_to_client. cbn. rewrite Ha. apply Hg.
  - unfold sent_to_client. cbn. rewrite (proj1 (apart_do (S:=C) (C:=S) o _ Hok He)). apply Hg.
Qed.

Lemma greeted_run (es : list (conversation_event S C)) c : Forall event_ok es → conversing c → greeted c →
  greeted (conversation_run prog es c).
Proof.
  intros Hes. revert c. induction Hes as [|e es He _ IH]; intros c Hc Hg; [done|].
  by apply IH; [apply conversing_step|apply greeted_step].
Qed.

Lemma number_range c n : conversing c → Message n ∈ sent_to_client c → 0 ≤ sequence n ≤ usize_max.
Proof.
  intros Hc Hn. destruct (sy_origin _ _ _ _ _ (cv_server _ _ Hc) _ Hn) as [[_ ?]|(q & _ & Hq)]; [done|].
  pose proof usize_max_pos. apply next_answer in Hq as [[_ ->]|(m & _ & -> & _)]; cbn; [lia|apply wadd_range].
Qed.

(** Numbers are reached one by one. *)
Lemma number_before c n : conversing c → 0 ≤ n → Message (number (n + 1)) ∈ sent_to_client c →
  Reply (number n) ∈ server_heard c ∧ Message (number n) ∈ client_heard c.
Proof.
  intros Hc Hpos Hn. pose proof (number_range c _ Hc Hn) as Hle. cbn in Hle.
  destruct (sy_origin _ _ _ _ _ (cv_server _ _ Hc) _ Hn) as [[_ ?]|(q & Hq & Ha)]; [done|].
  apply next_answer in Ha as [[_ Heq]|([k] & -> & Heq & _)]; apply (f_equal sequence) in Heq; cbn in Heq; [lia|].
  pose proof (reply_heard c _ Hc Hq) as Hk.
  pose proof (number_range c _ Hc (client_heard_sent prog _ _ Hc Hk)) as Hkr. cbn in Hkr.
  destruct (decide (k + 1 ≤ usize_max)).
  - rewrite wadd_small in Heq by lia. assert (k = n) as -> by lia. done.
  - pose proof usize_max_pos. rewrite wadd_wrap in Heq by lia. lia.
Qed.

Lemma numbers_heard c n : conversing c → 0 ≤ n → Message (number n) ∈ sent_to_client c →
  ∀ m, 0 ≤ m < n → Message (number m) ∈ client_heard c ∧ Reply (number m) ∈ server_heard c.
Proof.
  intros Hc Hpos. pattern n. apply natlike_ind; [lia| |done]. clear n Hpos. intros n Hpos IH Hn m Hm.
  destruct (number_before c n Hc Hpos Hn) as [Hr Hh].
  destruct (decide (m = n)) as [->|Hne]; [done|]. apply IH; [|lia]. by apply (client_heard_sent prog).
Qed.

(** C26. Ten clients and a server counting over datagrams: however many datagrams
    are lost, repeated or reordered, no number is skipped. A number the server
    sends has been preceded by the client's hello and by every smaller number,
    each heard by the client and confirmed to the server; the client confirms
    only what it heard; and the count overflows only once every [usize] has been
    counted. *)
Theorem counting_is_gap_free (es : list (conversation_event S C)) start :
  Forall event_ok es → fresh_link (S:=S) (C:=C) (ok:=ok) start →
  let c := conversation_run prog es (conversation_start start) in
  (∀ n, Message n ∈ sent_to_client c →
     CHello ∈ server_heard c ∧ 0 ≤ sequence n ≤ usize_max ∧
     ∀ m, 0 ≤ m < sequence n → Message (number m) ∈ client_heard c ∧ Reply (number m) ∈ server_heard c) ∧
  (∀ n, Reply n ∈ sent_to_server c → Message n ∈ client_heard c) ∧
  (server_runs c = false → ∀ m, 0 ≤ m ≤ usize_max → Message (number m) ∈ client_heard c).
Proof.
  intros Hes Hf c. pose proof (fresh_conversing prog start Hf) as H0.
  pose proof (conversing_run prog Hspeak es _ Hes H0) as Hc. fold c in Hc.
  assert (Hg : greeted c).
  { apply greeted_run; [done|done|]. destruct Hf as (_ & Ha & _). intros n. unfold sent_to_client. cbn. rewrite Ha.
    by intros ?%not_elem_of_nil. }
  split_and!.
  - intros [n] Hn. pose proof (number_range c _ Hc Hn) as H1. cbn in *.
    split; [by eapply Hg|]. split; [done|]. apply (numbers_heard c n Hc); [apply H1|exact Hn].
  - intros n Hn. by destruct (sent_answers prog c _ Hc Hn) as ([|m] & Hm & [= <-]).
  - intros Hstop. destruct (cv_server_runs _ _ Hc Hstop) as ([|[k]] & Hk & Hp); [done|].
    apply (reply_heard c) in Hk; [|done]. pose proof (client_heard_sent prog _ _ Hc Hk) as Hks.
    pose proof (number_range c _ Hc Hks) as Hr. cbn in Hr, Hp.
    unfold server_packet_receive_system, ClientPacket_reply, next in Hp. cbn in Hp.
    destruct (overflow_checks && (usize_max <? k + 1)) eqn:Hb; [|done]. bools.
    assert (k = usize_max) as -> by lia. intros m Hm.
    destruct (decide (m = usize_max)) as [->|Hne]; [done|]. apply (numbers_heard c usize_max Hc); [lia|exact Hks|lia].
Qed.
End Counting.

(** ** A concrete conversation

    Over two datagram connections, with a two-byte codec. *)

#[local] Instance server_packet_code : Bitcode ServerPacket unit := {
  bitcode_encode p := match p with SHello => [0] | Message n => [1; sequence n] end;
  bitcode_decode bs :=
    match bs with [0] => Ok SHello | [1; n] => Ok (Message {| sequence := n |}) | _ => Err tt end;
}.
#[local] Instance client_packet_code : Bitcode ClientPacket unit := {
  bitcode_encode p := match p with CHello => [0] | Reply n => [1; sequence n] end;
  bitcode_decode bs :=
    match bs with [0] => Ok CHello | [1; n] => Ok (Reply {| sequence := n |}) | _ => Err tt end;
}.

Section Example.
Context {P : Type} `{Bitcode P unit} (Hcode : ∀ p : P, bitcode_decode (bitcode_encode p) = Ok p).

Definition packet_serializer : Serializer (SerializerAdapter BitcodeSerializer BitcodeSerializer) P P :=
  adapter_serializer.
Definition example_codec : SerializerAdapter BitcodeSerializer BitcodeSerializer := ReadOnly bitcode_new.
Abbreviation closed := (ReceiveError unit unit).
Definition example_pipe : Type := (DPipe (W:=λ A, A) (L:=bool) (Ch:=fifo)
  (S1:=SerializerAdapter BitcodeSerializer BitcodeSerializer) (P:=P) (Inc:=packet_serializer) (E:=unit) (D:=closed)
  (Addr:=nat) (store:=list QueueDropReason) (LenErr:=unit)).

Definition example_id : ConnectionId := {| connection_number := 0 |}.

Definition example_medium : Medium P example_pipe :=
  datagram_medium (Out:=packet_serializer) (Inc:=packet_serializer) (W:=λ A, A) (L:=bool) (Ch:=fifo) (E:=unit)
    (Addr:=nat) (LenErr:=unit) example_id (λ e : closed, e) (λ _ (h : list QueueDropReason), h) (λ h, h) None.

Definition example_start : example_pipe :=
  dg_start (W:=λ A, A) (L:=bool) (Ch:=fifo) (Inc:=packet_serializer) (E:=unit) (Addr:=nat) (LenErr:=unit)
    example_id (λ e : closed, e) (λ _ (h : list QueueDropReason), h) (λ h, h) None NetworkQueueSettings_default false
    example_peer example_peer example_codec example_codec (Socket []) (mpsc_channel 2)
    (lossy_channel 4 usize_max DropOldest) (mpsc_channel 1) [].

Definition is_codec (s : SerializerAdapter BitcodeSerializer BitcodeSerializer) : Prop := s = example_codec.
Definition example_ok : example_pipe → Prop :=
  datagram_ok (sendable:=λ _, True) (enc_ok:=is_codec) (dec_ok:=is_codec) example_id (λ e, e).
Definition example_allowed : m_op (Medium:=example_medium) → Prop :=
  datagram_op_ok (sendable:=λ _, True) (dec_ok:=is_codec) _ _ _ _ _.

#[local] Instance example_pair : DatagramPair packet_serializer packet_serializer (λ _, True) is_codec is_codec.
Proof. apply read_only_datagrams. intros p bs _ [= <-]. cbn. by rewrite Hcode. Qed.

Lemma example_laws : MediumLaws P example_pipe (H:=example_medium) (λ _, True) example_ok example_allowed.
Proof. apply datagram_medium_laws. Qed.

Lemma example_fresh : example_ok example_start.
Proof.
  exists dchannel_start. split; [done|]. apply start_rel; [|done|done].
  split; [by apply Z.leb_le; vm_compute|]. split; [by apply Z.leb_le; vm_compute|]. split; [exact I|reflexivity].
Qed.

Definition example_write (bytes : Z) : write_env := {|
  we_first := {| Pacing.now := 0; peer_closed := false; Pacing.rate := None; rate_changed := false;
                 rate_sender_gone := false |};
  we_waits := []; we_sends := [(false, Some (Ok bytes))]; we_sent_at := 1; we_closed_after := false |}.

Definition example_env : recv_poll fifo P unit closed unit unit nat (list QueueDropReason) := {|
  rv_cancelled := false; rv_send_error := None; rv_late_error := None; rv_reads := [];
  rv_incoming c := c; rv_datagrams q := q; rv_disconnects c := c; rv_handles h := h |}.

Definition put : m_op (Medium:=example_medium) := DgWrite (example_write 2).
Definition arrive (i : nat) : m_op (Medium:=example_medium) := DgArrive i 0.
Definition receive : m_op (Medium:=example_medium) := DgPoll (Inc:=packet_serializer) false [] 64 0 example_env.

Lemma put_allowed : example_allowed put.
Proof. exact I. Qed.
Lemma arrive_allowed i : example_allowed (arrive i).
Proof. exact I. Qed.
Lemma receive_allowed : example_allowed receive.
Proof. by intros c Hc. Qed.
End Example.

Lemma server_code_ok (p : ServerPacket) : bitcode_decode (bitcode_encode p) = Ok p.
Proof. by destruct p as [|[n]]. Qed.
Lemma client_code_ok (p : ClientPacket) : bitcode_decode (bitcode_encode p) = Ok p.
Proof. by destruct p as [|[n]]. Qed.

(** The two connections, side by side. *)
Definition to_client : Medium ServerPacket _ := left_medium (MC:=example_pipe (P:=ClientPacket)) (example_medium (P:=ServerPacket)).
Definition to_server : Medium ClientPacket _ := right_medium (MS:=example_pipe (P:=ServerPacket)) (example_medium (P:=ClientPacket)).

Definition down (o : m_op (Medium:=example_medium (P:=ServerPacket))) : conversation_event to_client to_server :=
  ToClient (S:=to_client) (C:=to_server) o.
Definition up (o : m_op (Medium:=example_medium (P:=ClientPacket))) : conversation_event to_client to_server :=
  ToServer (S:=to_client) (C:=to_server) o.

(** The client's two hellos and its first confirmation reach the server in another
    order, the confirmation twice. *)
Definition example_events : list (conversation_event to_client to_server) :=
  [NewConnection; Established;
   down put; down (arrive 0); down receive; ClientObserves;
   up put; up (arrive 0); up receive; ServerObserves;
   down put; down (arrive 1); down receive; ClientObserves;
   up put; up put; up (arrive 2); up (arrive 1); up (arrive 2);
   up receive; up receive; up receive; ServerObserves; ServerObserves; ServerObserves].

Definition example_conversation := conversation_run (main true) example_events
  (conversation_start (example_start, example_start)).

Example example_counts :
  (sent_to_client (S:=to_client) example_conversation, server_heard example_conversation) =
  ([SHello; Message (number 0); Message (number 1); Message (number 0); Message (number 1)],
   [CHello; Reply (number 0); CHello; Reply (number 0)]).
Proof. by vm_compute. Qed.

Lemma counting_events_allowed : Forall (event_ok (S:=to_client) (C:=to_server)
    (opS:=example_allowed) (opC:=example_allowed)) example_events.
Proof.
  unfold example_events. repeat (apply Forall_cons; split;
    [first [exact I | apply put_allowed | apply arrive_allowed | apply receive_allowed]|]). apply Forall_nil. exact I.
Qed.

Lemma counting_speakable : speakable (main true) (λ _ : ServerPacket, True) (λ _ : ClientPacket, True).
Proof. by split. Qed.

Lemma counting_is_gap_free_witness :
  Message (number 1) ∈ sent_to_client (S:=to_client) example_conversation ∧
  ∀ m, 0 ≤ m < 1 → Message (number m) ∈ client_heard example_conversation ∧
                   Reply (number m) ∈ server_heard example_conversation.
Proof.
  assert (Hn : Message (number 1) ∈ sent_to_client (S:=to_client) example_conversation).
  { apply (list_elem_of_lookup_2 _ 2). vm_compute. reflexivity. }
  split; [exact Hn|]. revert Hn. unfold example_conversation. intros Hn.
  pose proof (example_laws server_code_ok) as Hserver. pose proof (example_laws client_code_ok) as Hclient.
  refine (proj2 (proj2 (proj1 (counting_is_gap_free (S:=to_client) (C:=to_server)
    (MediumLaws0:=left_laws _ (okC:=example_ok)) (Apart0:=left_apart _ _) (MediumLaws1:=right_laws _ (okS:=example_ok)) (Apart1:=right_apart _ _)
    true counting_speakable example_events (example_start, example_start) counting_events_allowed _) (number 1) Hn))).
  split; [split; exact example_fresh|]. split; reflexivity.
Defined.
