(* ===== verification/Conformance.v ===== *)
(** * The crate's unit tests of queues and connections, on the model

    Replays the tests of connection/queue/lossy.rs, connection/queue/tests.rs and
    connection/raw_tests.rs with the model's operations: a definition is the body of
    the test of the same name, [true] when all of its assertions hold. The channels
    and handles are the reference instances of [Externals] and [Queue], and a task
    that waits is an operation given what the others do while it waits. *)

From S2P Require Import Prelude Protocol Lossy Externals Diagnostics Settings Codec Queue Serializer Connection Tasks.

#[local] Open Scope Z_scope.

#[local] Instance poll_eq_dec {A} `{EqDecision A} : EqDecision (Poll A).
Proof. solve_decision. Defined.
#[local] Instance outcome_eq_dec {A} `{EqDecision A} : EqDecision (outcome A).
Proof. solve_decision. Defined.
#[local] Instance send_error_eq_dec {A} `{EqDecision A} : EqDecision (SendError A).
Proof. solve_decision. Defined.
#[local] Instance try_send_error_eq_dec {A} `{EqDecision A} : EqDecision (TrySendError A).
Proof. solve_decision. Defined.
#[local] Instance try_recv_error_eq_dec : EqDecision TryRecvError.
Proof. solve_decision. Defined.
#[local] Instance snapshot_eq_dec : EqDecision QueueSnapshot.
Proof. solve_decision. Defined.

#[local] Notation "'assert!' p 'in' k" := (bool_decide p && k)
  (at level 10, p at level 200, k at level 200).

(** ** connection/queue/lossy.rs *)

Definition oldest_eviction_accounts_bytes_and_preserves_fifo : bool :=
  let q : Shared Z := lossy_channel 2 5 DropOldest in
  let '(q, _, r) := try_send q 1 2 in
  assert! r = Ok [] in
  let '(q, _, r) := try_send q 2 3 in
  assert! r = Ok [] in
  let '(q, _, r) := try_send q 3 6 in
  assert! r = Err (Full 3) in
  assert! queued_bytes q = 5 in
  let '(q, _, r) := try_send q 4 4 in
  assert! r = Ok [1; 2] in
  assert! queued_bytes q = 4 in
  let '(q, r) := recv q [] in
  assert! r = Ready (Some 4) in
  let '(q, _) := drop_sender q in
  assert! (recv q []).2 = Ready None in true.

Definition dropping_receiver_closes_all_senders : bool :=
  let q : Shared Z := lossy_channel 1 1 DropNewest in
  let q := clone_sender q in
  let '(q, _, _) := close_and_drain q in
  let '(q, _, r) := try_send q 1 1 in
  assert! r = Err (Closed 1) in
  let '(q, _, r) := try_send q 2 1 in
  assert! r = Err (Closed 2) in true.

Definition waiting_receiver_wakes_when_last_sender_closes : bool :=
  let q : Shared Z := lossy_channel 1 1 DropNewest in
  assert! (recv q []).2 = Pending in
  assert! (recv q [λ q, (drop_sender q).1]).2 = Ready None in true.

Definition waiting_sender_wakes_when_space_frees_or_receiver_closes : bool :=
  let q : Shared Z := lossy_channel 1 1 DropNewest in
  let '(q, _, _) := try_send q 1 1 in
  let q := clone_sender q in
  assert! (Lossy.send q 2 1 []).2 = Pending in
  assert! (recv q []).2 = Ready (Some 1) in
  let '(q, r) := Lossy.send q 2 1 [λ q, (recv q []).1] in
  assert! r = Ready (Ok ()) in
  let '(q, _) := drop_sender q in
  let '(q, r) := recv q [] in
  assert! r = Ready (Some 2) in
  let '(q, _, _) := try_send q 3 1 in
  let q := clone_sender q in
  assert! (Lossy.send q 4 1 []).2 = Pending in
  let '(q, r) := Lossy.send q 4 1 [λ q, (close_and_drain q).1.1] in
  assert! r = Ready (Err (Closed 4)) in true.

Definition deferred_front_stays_inside_capacity_and_is_evicted_first : bool :=
  let q : Shared Z := lossy_channel 1 1 DropOldest in
  let '(q, _, _) := try_send q 1 1 in
  let '(q, _, r) := try_recv_if q (λ _, false) in
  assert! r = Err Empty in
  let '(q, _, r) := try_send q 2 1 in
  assert! r = Ok [1] in
  let '(q, r) := recv q [] in
  assert! r = Ready (Some 2) in true.

(** ** connection/queue/tests.rs *)

(** [CustomHandle] and [SharedHandle] are lists of drops; the UDP handle is its own. *)
Abbreviation custom := (Link bool fifo (list QueueDropReason) Z).
Abbreviation udp_handle := (UdpConnectionHandle (λ A, A)).
Abbreviation udp := (Link bool fifo udp_handle Z).

(** The [EcsConnection] of these tests: the handle, and what its clones share. *)
Definition test_connection : EcsConnection nat :=
  {| ecs_id := {| connection_number := 1 |}; ecs_local_addr := 1%nat; ecs_peer_addr := 2%nat |}.

Section Connections.
Context {Hd T : Type} `{TransportHandle Hd}.
Implicit Types (k : Link bool fifo Hd T).

Definition connection_over (q : Outgoing fifo T) (transport : Hd) : Link bool fifo Hd T :=
  {| disconnect_task := false; published := false; packet_tx := q; transport := transport |}.

Definition with_packets k (q : Outgoing fifo T) (h : Hd) : Link bool fifo Hd T :=
  {| disconnect_task := disconnect_task k; published := published k; packet_tx := q; transport := h |}.

(** [connection.clone()]. *)
Definition retain k : Link bool fifo Hd T := (ecs_clone test_connection k).2.

(** Its receiver takes a packet, and is dropped. *)
Definition receive k : Link bool fifo Hd T * Poll (option T) :=
  let '(q, r) := receiver_poll_recv (packet_tx k) in (with_packets k q (transport k), r).

Definition drop_receiver (rx : OutgoingReceiver) k : Link bool fifo Hd T :=
  let '(q, h) := receiver_drop rx (packet_tx k) (transport k) in with_packets k q h.
End Connections.

Definition default_with (capacity : Z) (policy : OverflowPolicy) : NetworkQueueSettings := {|
  send_capacity := capacity;
  receive_capacity := receive_capacity NetworkQueueSettings_default;
  events_per_frame := events_per_frame NetworkQueueSettings_default;
  datagram_send_overflow := policy;
  datagram_receive_overflow := datagram_receive_overflow NetworkQueueSettings_default |}.

Definition outgoing_queue_reports_full_and_closed : bool :=
  let k := connection_over (Reliable (mpsc_channel 1)) () in
  let '(k, r) := Connection.send 1 k in
  assert! r = Ok () in
  let '(k, r) := Connection.send 2 k in
  assert! r = Err (SendFull 2) in
  let k := disconnect k in
  let '(k, r) := Connection.send 3 k in
  assert! r = Err (SendClosed 3) in true.

Definition udp_overflow_drops_new_packets_and_tcp_waits_cancel_safely : bool :=
  let q : Shared Z := lossy_channel 1 usize_max DropNewest in
  let q := clone_sender q in
  let forward d cancel packet waits q :=
    forward (L:=bool) (λ _ (s : ()), s) (λ s, s) d q cancel packet () waits in
  let '(q, _, r) := forward true false 1 [] q in
  assert! r = Ready true in
  let '(q, _, r) := forward true false 2 [] q in
  assert! r = Ready true in
  let '(q, r) := recv q [] in
  assert! r = Ready (Some 1) in
  let '(q, r) := Lossy.send q 3 1 [] in
  assert! r = Ready (Ok ()) in
  assert! (forward false false 4 [] q).2 = Pending in
  let '(q, _, r) := forward false false 4 [(true, λ q, q)] q in
  assert! r = Ready false in
  let '(q, r) := recv q [] in
  assert! r = Ready (Some 3) in true.

Definition udp_outgoing_policies_report_rejections_and_evictions : bool :=
  let '(tx, _) := outgoing_channel (default_with 1 DropNewest) true in
  let k : udp := connection_over tx (UdpConnectionHandle_new 100 None) in
  let '(k, r) := Connection.send 1 k in
  assert! r = Ok () in
  let '(k, r) := Connection.send 2 k in
  assert! r = Err (SendFull 2) in
  let '(k, r) := receive k in
  assert! r = Ready (Some 1) in
  assert! stats (transport k) dropped_outgoing_queue_full = 1 in
  let '(tx, _) := outgoing_channel (default_with 1 DropOldest) true in
  let k := with_packets k tx (transport k) in
  let '(k, r) := Connection.send 3 k in
  assert! r = Ok () in
  let '(k, r) := Connection.send 4 k in
  assert! r = Ok () in
  let '(k, r) := receive k in
  assert! r = Ready (Some 4) in
  assert! stats (transport k) dropped_outgoing_queue_evicted = 1 in
  let k := disconnect k in
  assert! stats (transport k) dropped_outgoing_queue_evicted = 1 in true.

(** The handles of the two sessions are the state an eviction changes; the
    packet's flag says whose it is. *)
Definition udp_incoming_eviction_is_charged_to_discarded_session : bool :=
  let charge (packet : Z * bool) (s : udp_handle * udp_handle) :=
    if packet.2 then (s.1, record_drop ReceiveQueueEvicted s.2) else (record_drop ReceiveQueueEvicted s.1, s.2) in
  let record_full (s : udp_handle * udp_handle) := (s.1, record_drop ReceiveQueueFull s.2) in
  let h : udp_handle := UdpConnectionHandle_new 100 None in
  let q : Shared (Z * bool) := lossy_channel 1 usize_max DropOldest in
  let '(q, s, r) := forward (L:=bool) charge record_full true q false (1, false) (h, h) [] in
  assert! r = Ready true in
  let '(q, s, r) := forward (L:=bool) charge record_full true q false (2, true) s [] in
  assert! r = Ready true in
  let '(q, r) := recv q [] in
  assert! r = Ready (Some (2, true)) in
  assert! stats s.1 dropped_receive_queue_evicted = 1 in
  assert! stats s.2 dropped_receive_queue_evicted = 0 in true.

Definition custom_handle_tracks_eviction_and_queued_packets_on_close : bool :=
  let '(tx, rx) := outgoing_channel (default_with 1 DropOldest) true in
  let rx := set_transport rx in
  let k : custom := retain (connection_over tx []) in
  let '(k, r) := Connection.send 1 k in
  assert! r = Ok () in
  let '(k, r) := Connection.send 2 k in
  assert! r = Ok () in
  let k := disconnect k in
  let '(k, r) := Connection.send 3 k in
  assert! r = Err (SendClosed 3) in
  let k := drop_receiver rx k in
  assert! transport k = [OutgoingQueueEvicted; ClosedBeforeDelivery] in true.

Definition reliable_handle_reports_full_and_buffered_cancellation : bool :=
  let '(tx, rx) := outgoing_channel (default_with 1 DropNewest) false in
  let rx := set_transport rx in
  let k : Link bool fifo (list QueueDropReason) string := connection_over tx [] in
  let '(k, r) := Connection.send "buffered"%string k in
  assert! r = Ok () in
  let '(k, r) := Connection.send "full"%string k in
  assert! r = Err (SendFull "full"%string) in
  assert! into_inner (SendFull "full"%string) = "full"%string in
  let k := disconnect k in
  let '(k, r) := Connection.send "closed"%string k in
  assert! r = Err (SendClosed "closed"%string) in
  assert! into_inner (SendClosed "closed"%string) = "closed"%string in
  let k := drop_receiver rx k in
  assert! transport k = [OutgoingQueueFull; ClosedBeforeDelivery] in true.

Definition pending_packet_counts_only_cancellation_and_aborted_sends : bool :=
  let cases : list (option (result () io_error) * nat) :=
    [(Some (Ok ()), 0%nat); (Some (Err (io_error_other "serialization failed")), 0%nat);
     (Some (Err (io_error_from ConnectionAborted)), 1%nat); (None, 2%nat)] in
  let '(drops, ok) :=
    foldl (λ '(drops, ok) '(result, expected),
             let pending := from_option (λ res, pending_finish res pending_new) pending_new result in
             let drops : list QueueDropReason := pending_drop pending drops in
             (drops, ok && bool_decide (length drops = expected))) ([], true) cases in
  assert! Forall (λ reason, reason = ClosedBeforeDelivery) drops in ok.

(** ** connection/raw_tests.rs *)

(** [TestStream], [ByteSerializer] and their [RawConnection]. *)
Record TestStream := { stream_handle : list QueueDropReason; local_addr : Z; peer_addr : Z }.

Definition TestStream_new (h : list QueueDropReason) : TestStream :=
  {| stream_handle := h; local_addr := 1234; peer_addr := 5678 |}.

#[local] Instance test_stream : NetworkStream TestStream (list QueueDropReason) Z :=
  { ns_transport := stream_handle; ns_local_addr := local_addr; ns_peer_addr := peer_addr }.

Inductive ByteSerializer := byte_serializer.

(** These tests display no error. *)
#[local] Instance display_io_error : Display io_error := message.

#[local] Instance ByteSerializer_serializer : Serializer ByteSerializer Z Z := {
  EncodeError := io_error; DecodeError := io_error;
  serialize packet s := (s, Returns (Ok [packet]));
  deserialize data s :=
    (s, Returns (match data with [packet] => Ok packet | _ => Err (io_error_from InvalidData) end));
}.

(** A connection made by [with_limits] on a queue, and its ECS handle. *)
Definition raw_over (q : Outgoing fifo Z) (rx : OutgoingReceiver) :
    RawConnection TestStream ByteSerializer (LittleEndian u32) * EcsConnection Z * custom :=
  let '(raw, _) := with_limits (TestStream_new []) byte_serializer little_endian rx {| limit_cell := 0%nat |} 1 in
  let '(connection, k) := ecs_connection raw false q in
  (raw, connection, k).

(** [drop(raw)]. *)
Definition drop_raw (raw : RawConnection TestStream ByteSerializer (LittleEndian u32)) (k : custom) : custom :=
  drop_receiver (packets_rx raw) k.

Definition constructor_attaches_handle_before_an_unpublished_connection_is_dropped : bool :=
  let '(sender, receiver) := outgoing_channel NetworkQueueSettings_default true in
  let '(raw, connection, k) := raw_over sender receiver in
  let '(k, r) := Connection.send 7 k in
  assert! r = Ok () in
  assert! transport k = [] in
  let k := drop_raw raw k in
  assert! transport k = [ClosedBeforeDelivery] in
  let '(k, r) := Connection.send 8 k in
  assert! r = Err (SendClosed 8) in
  assert! transport k = [ClosedBeforeDelivery] in true.

(** The sender here is the channel's own. *)
Definition channel_send (packet : Z) (k : custom) : custom * option (result () (TrySendError Z)) :=
  match packet_tx k with
  | Reliable c => let '(c, r) := mpsc_try_send c packet in (with_packets k (Reliable c) (transport k), Some r)
  | LossyQ _ => (k, None)
  end.

Definition recovering_stream_closes_the_owned_receiver_and_preserves_shared_handle : bool :=
  let '(raw, _, cells) := raw_new (TestStream_new []) byte_serializer
    (little_endian (N:=u32)) 1 ∅ in
  let k : custom := (ecs_connection raw false (Reliable (mpsc_channel 1))).2 in
  let '(k, r) := channel_send 7 k in
  assert! r = Some (Ok ()) in
  assert! sender_is_closed (packet_tx k) = false in
  let '(stream, k) := into_stream raw k in
  assert! sender_is_closed (packet_tx k) = true in
  let '(k, r) := channel_send 8 k in
  assert! r = Some (Err (Closed 8)) in
  assert! transport k = [ClosedBeforeDelivery] in
  let k := ecs_record_drop ReceiveQueueFull k in
  assert! transport k = [ClosedBeforeDelivery; ReceiveQueueFull] in true.

Definition raw_disconnect_closes_ecs_clones_without_counting_rejected_packets : bool :=
  let '(sender, receiver) := outgoing_channel NetworkQueueSettings_default true in
  let '(raw, connection, k) := raw_over sender receiver in
  let '(retained, k) := ecs_clone connection k in
  assert! ecs_id connection = raw_id raw in
  assert! ecs_id retained = raw_id raw in
  let k := disconnect k in
  let '(k, r) := Connection.send 7 k in
  assert! r = Err (SendClosed 7) in
  let '(k, r) := Connection.send 8 k in
  assert! r = Err (SendClosed 8) in
  let k := drop_raw raw k in
  assert! transport k = [] in true.

Definition extracting_parts_keeps_queue_codecs_and_shared_controls_alive : bool :=
  let '(raw, _, cells) := raw_new (TestStream_new []) byte_serializer
    (little_endian (N:=u32)) 1 ∅ in
  let k : custom := (ecs_connection raw false (Reliable (mpsc_channel 2))).2 in
  let id := raw_id raw in
  let limits := receive_limits raw in
  let '(k, r) := channel_send 7 k in
  assert! r = Some (Ok ()) in
  let parts := into_parts raw k in
  assert! parts_id parts = id in
  assert! sender_is_closed (packet_tx k) = false in
  let '(k, r) := receive k in
  assert! r = Ready (Some 7) in
  assert! (serialize (Serializer:=ByteSerializer_serializer) 8 (parts_serializer parts)).2 = Returns (Ok [8]) in
  let cells := set_max_packet_size limits 42 cells in
  assert! max_packet_size (parts_receive_limits parts) cells = Some 42 in
  let k := disconnect k in
  assert! token_is_cancelled (disconnect_task k) = true in
  let '(k, r) := channel_send 9 k in
  assert! r = Some (Ok ()) in
  let k := drop_receiver (parts_packets_rx parts) k in
  assert! sender_is_closed (packet_tx k) = true in
  assert! transport k = [ClosedBeforeDelivery] in true.

(** The body of its loop. *)
Definition ecs_queue_snapshot_tracks_drain_eviction_and_close (datagram : bool) (policy : OverflowPolicy) : bool :=
  let '(tx, rx) := outgoing_channel (default_with 2 policy) datagram in
  let '(raw, connection, k) := raw_over tx rx in
  let '(retained, k) := ecs_clone connection k in
  let parts := into_parts raw k in
  assert! is_closed k = false in
  assert! outgoing_queue k = {| queued := 0; capacity := 2 |} in
  let '(k, r) := Connection.send 1 k in
  assert! r = Ok () in
  let '(k, r) := Connection.send 2 k in
  assert! r = Ok () in
  let evicts := datagram && bool_decide (policy = DropOldest) in
  let '(k, r) := Connection.send 3 k in
  assert! r = (if evicts then Ok () else Err (SendFull 3)) in
  assert! outgoing_queue k = {| queued := 2; capacity := 2 |} in
  let '(k, r) := receive k in
  assert! r = Ready (Some (if evicts then 2 else 1)) in
  assert! queued (outgoing_queue k) = 1 in
  let k := drop_receiver (parts_packets_rx parts) k in
  assert! is_closed k = true in
  let '(k, r) := Connection.send 4 k in
  assert! r = Err (SendClosed 4) in true.

(** Removing a component drops a clone of the handle. *)
Definition ecs_connection_component_removal_preserves_retained_handle : bool :=
  let '(tx, rx) := outgoing_channel NetworkQueueSettings_default false in
  let '(raw, retained, k) := raw_over tx rx in
  let '(component, k) := ecs_clone retained k in
  assert! ecs_id component = ecs_id retained in
  let '(k, r) := Connection.send 7 k in
  assert! r = Ok () in
  let k := with_packets k (sender_drop (packet_tx k)) (transport k) in
  assert! is_closed k = false in
  let '(k, r) := Connection.send 8 k in
  assert! r = Ok () in
  let k := disconnect k in
  assert! is_closed k = true in
  let '(k, r) := Connection.send 9 k in
  assert! r = Err (SendClosed 9) in
  assert! queued (outgoing_queue k) = 2 in true.

(** ** client.rs, the send task *)

(** [PendingWrite]: the write of the first packet never ends, and the connection
    is disconnected while it waits. *)
Definition cancelled_paced_write_and_queued_packet_are_both_counted : bool :=
  let '(tx, rx) := outgoing_channel (default_with 2 DropNewest) true in
  let k : udp := connection_over tx (UdpConnectionHandle_new 128 None) in
  let '(k, r) := Connection.send 7 k in
  assert! r = Ok () in
  let '(k, r) := Connection.send 8 k in
  assert! r = Ok () in
  let poll cancelled := {| sp_senders q := q; sp_cancelled := cancelled; sp_checked := false; sp_answers := [] |} in
  let entered := (select_sending [poll false] (task_start (packet_tx k) (transport k))).1 in
  assert! current entered = Some 7 in
  match send_packets [poll false; poll true] (packet_tx k) (transport k) with
  | Pending => false
  | Ready t => bool_decide (stats (handle t) dropped_closed_before_delivery = 2)
  end.

(** ** Every assertion holds *)

Example lossy_tests_pass :
  forallb id [oldest_eviction_accounts_bytes_and_preserves_fifo; dropping_receiver_closes_all_senders;
    waiting_receiver_wakes_when_last_sender_closes; waiting_sender_wakes_when_space_frees_or_receiver_closes;
    deferred_front_stays_inside_capacity_and_is_evicted_first] = true.
Proof. vm_compute. reflexivity. Qed.

Example outgoing_tests_pass :
  forallb id [outgoing_queue_reports_full_and_closed; udp_overflow_drops_new_packets_and_tcp_waits_cancel_safely;
    udp_outgoing_policies_report_rejections_and_evictions; udp_incoming_eviction_is_charged_to_discarded_session;
    custom_handle_tracks_eviction_and_queued_packets_on_close;
    reliable_handle_reports_full_and_buffered_cancellation;
    pending_packet_counts_only_cancellation_and_aborted_sends] = true.
Proof. vm_compute. reflexivity. Qed.

Example raw_tests_pass :
  forallb id [constructor_attaches_handle_before_an_unpublished_connection_is_dropped;
    recovering_stream_closes_the_owned_receiver_and_preserves_shared_handle;
    raw_disconnect_closes_ecs_clones_without_counting_rejected_packets;
    extracting_parts_keeps_queue_codecs_and_shared_controls_alive;
    ecs_queue_snapshot_tracks_drain_eviction_and_close false DropNewest;
    ecs_queue_snapshot_tracks_drain_eviction_and_close true DropNewest;
    ecs_queue_snapshot_tracks_drain_eviction_and_close true DropOldest;
    ecs_connection_component_removal_preserves_retained_handle] = true.
Proof. vm_compute. reflexivity. Qed.

Example send_task_test_passes : cancelled_paced_write_and_queued_packet_are_both_counted = true.
Proof. vm_compute. reflexivity. Qed.
