(* ===== verification/ConformanceCodecs.v ===== *)
(** * The unit tests of codecs, framing and tasks, on the model

    Replays the tests of serializers/packet_length_serializer.rs,
    serializers/custom_crypt.rs, protocols/framing_tests.rs, protocols/udp/pacing.rs,
    protocols/udp/diagnostics.rs and connection/tasks.rs, as [Conformance] does. The
    tests that encode with bitcode or bincode are not replayed: the codecs are
    parameters of the model. *)

From S2P Require Import Prelude Protocol Lossy Externals Diagnostics Settings Queue Codec Serializer Framing Crypt Pacing Connection Attempts.

#[local] Open Scope Z_scope.

#[local] Notation "'assert!' p 'in' k" := (bool_decide p && k)
  (at level 10, p at level 200, k at level 200).

#[local] Instance poll_decision {A} `{EqDecision A} : EqDecision (Poll A).
Proof. solve_decision. Defined.

(** ** serializers/packet_length_serializer.rs *)

Definition oversized_length_reports_actual_and_limit : bool :=
  match serialize_packet_length (little_endian (N:=u8)) 256 with
  | Ok _ => false
  | Err error =>
      assert! ptl_length error = 256 in
      assert! ptl_max_length error = 255 in
      assert! display error = "The packet is too large (length: 256, max_length: 255)"%string in true
  end.

Definition incomplete_prefix_requests_missing_bytes : bool :=
  match deserialize_packet_length (little_endian (N:=u32)) [1; 2] with
  | Err (NeedMoreBytes n) => bool_decide (n = 2)
  | _ => false
  end.

Definition prefix_exceeding_usize_is_rejected : bool :=
  let rejected (r : result Z (PacketLengthDeserializationError PacketTooLargeError)) :=
    match r with Err (LengthErr _) => true | _ => false end in
  forallb (λ codec,
    if codec : bool
    then rejected (deserialize_packet_length (big_endian (N:=u128)) (to_be_bytes 16 (width_max u128)))
    else rejected (deserialize_packet_length (little_endian (N:=u128)) (to_le_bytes 16 (width_max u128))))
    [false; true].

(** ** serializers/custom_crypt.rs *)

Definition test_xor_encrypt_decrypt : bool :=
  let data := [1; 2; 3; 4; 5] in
  let '(engine, encrypted) := xor_encrypt data CustomCryptEngine_default in
  assert! encrypted ≠ data in
  let '(engine, decrypted) := xor_decrypt encrypted engine in
  assert! decrypted = data in true.

(** ** protocols/framing_tests.rs *)

Record RecordingWriter := { writes : list (list Z) }.

#[local] Instance recording_writer : WriteStream RecordingWriter :=
  { write_all bytes w := ({| writes := writes w ++ [bytes] |}, Ok ()) }.

(** [io::Error::other] displays its message. *)
#[local] Instance display_other : Display io_error := message.

Record PacketCodec := { reject_encoding : bool }.

#[local] Instance packet_codec : Serializer PacketCodec (list Z) (list Z) := {
  EncodeError := io_error; DecodeError := io_error;
  serialize packet s :=
    (s, Returns (if reject_encoding s then Err (io_error_other "encoding rejected") else Ok packet));
  deserialize bytes s := (s, Returns (Ok bytes));
}.

Definition sends {LS} `{PacketLengthSerializer LS} `{Display ls_error} (ls : LS) (reject : bool) (packet : list Z) :=
  let '(writer, _, res) :=
    framed_send (Ser:=packet_codec) ls packet {| writer_inner := {| writes := [] |} |}
      {| reject_encoding := reject |} in
  (writes (writer_inner writer), res).

Definition payload_encoding_failure_does_not_write : bool :=
  match sends (little_endian (N:=u32)) true [7] with
  | (writes, Returns (Err error)) =>
      assert! kind error = Other in
      assert! message error = "Error serializing packet: encoding rejected"%string in
      assert! writes = [] in true
  | _ => false
  end.

Definition length_encoding_failure_does_not_write : bool :=
  match sends (little_endian (N:=u8)) false (replicate 256 7) with
  | (writes, Returns (Err error)) =>
      assert! kind error = Other in
      assert! message error =
        "Error serializing packet length: The packet is too large (length: 256, max_length: 255)"%string in
      assert! writes = [] in true
  | _ => false
  end.

Definition successful_encoding_writes_length_then_payload : bool :=
  match sends (little_endian (N:=u16)) false [7; 8] with
  | (writes, Returns (Ok _)) => bool_decide (writes = [[2; 0; 7; 8]])
  | _ => false
  end.

(** ** protocols/udp *)

Definition spacing_counts_all_wire_bytes_and_rounds_up : bool :=
  assert! as_nanos (spacing 37 74) = 500 * 1000000 in
  assert! as_nanos (spacing 1 3) = 333333334 in true.

(** A clone of the handle has the same counters. *)
Definition cloned_handles_record_each_generic_queue_drop_in_shared_counters : bool :=
  let handle : UdpConnectionHandle (λ A, A) := UdpConnectionHandle_new 1024 None in
  let handle := foldl (λ h reason, record_drop reason h) handle
    [OutgoingQueueFull; OutgoingQueueEvicted; ReceiveQueueFull; ReceiveQueueEvicted; ClosedBeforeDelivery] in
  let ones := [dropped_outgoing_queue_full; dropped_outgoing_queue_evicted; dropped_receive_queue_full;
               dropped_receive_queue_evicted; dropped_closed_before_delivery] in
  let zeros := [sent_data_packets; sent_data_bytes; received_data_packets; received_data_bytes;
                dropped_raw_queue_full; dropped_raw_queue_evicted; dropped_oversized_payload;
                dropped_receive_limit; dropped_malformed_payload; dropped_socket_send_error] in
  assert! Forall (λ c, stats handle c = 1) ones in
  assert! Forall (λ c, stats handle c = 0) zeros in
  let handle := record_drop ClosedBeforeDelivery handle in
  assert! stats handle dropped_closed_before_delivery = 2 in true.

(** ** connection/tasks.rs *)

(** Each setup is named by its id and starts when its future is made; polling the
    task polls its receiver until that gives nothing more to hold. *)
Definition connection_setup_progresses_independently_with_bounded_concurrency : bool :=
  let c := foldl (λ c x, (mpsc_try_send c x).1) (mpsc_channel (Ch:=fifo) 3) [0; 1; 2] in
  let c := mpsc_drop_sender c in
  let poll := [PollReceiver; PollReceiver; PollReceiver] in
  let '(b, _) := run_connections 2 c poll in
  assert! buffered_done b = false in
  assert! taken b = [0; 1] in
  let '(b, _) := run_connections 2 c (poll ++ [Completes 1] ++ poll) in
  assert! buffered_done b = false in
  assert! taken b = [0; 1; 2] in
  let '(b, _) := run_connections 2 c (poll ++ [Completes 1] ++ poll ++ [Completes 0; Completes 0] ++ poll) in
  assert! buffered_done b = true in true.

(** ** Every assertion holds *)

Example codec_tests_pass :
  forallb Datatypes.id [oversized_length_reports_actual_and_limit; incomplete_prefix_requests_missing_bytes;
    prefix_exceeding_usize_is_rejected; test_xor_encrypt_decrypt] = true.
Proof. vm_compute. reflexivity. Qed.

Example framing_tests_pass :
  forallb Datatypes.id [payload_encoding_failure_does_not_write; length_encoding_failure_does_not_write;
    successful_encoding_writes_length_then_payload] = true.
Proof. vm_compute. reflexivity. Qed.

Example udp_tests_pass :
  forallb Datatypes.id [spacing_counts_all_wire_bytes_and_rounds_up;
    cloned_handles_record_each_generic_queue_drop_in_shared_counters] = true.
Proof. vm_compute. reflexivity. Qed.

Example setup_test_passes : connection_setup_progresses_independently_with_bounded_concurrency = true.
Proof. vm_compute. reflexivity. Qed.
