(* ===== verification/ConformanceEcs.v ===== *)
(** * The endpoints' unit tests, on the model

    Replays the tests in client.rs and server.rs: as in [Conformance], a definition is
    the body of the test of the same name, [true] when all of its assertions hold.
    What a test's observers count is computed from the events they are told of and
    the worlds they see, in order; an update is a [frame]. *)

From S2P Require Import Prelude Protocol Lossy Externals Diagnostics Settings Queue Serializer Connection Tasks Receive Endpoint Establish Server Client.

#[local] Open Scope Z_scope.

#[local] Notation "'assert!' p 'in' k" := (bool_decide p && k)
  (at level 10, p at level 200, k at level 200).

(** The settings of a test, and an update under them and an endpoint's override. *)
Definition budgeted (budget : Z) : NetworkQueueSettings := {|
  send_capacity := send_capacity NetworkQueueSettings_default;
  receive_capacity := receive_capacity NetworkQueueSettings_default;
  events_per_frame := budget;
  datagram_send_overflow := datagram_send_overflow NetworkQueueSettings_default;
  datagram_receive_overflow := datagram_receive_overflow NetworkQueueSettings_default |}.

Section Updates.
Context {Hd R E D X : Type} `{TransportHandle Hd} `{Endpoint R E D X}.
Variable observe : trigger Z E X → World bool fifo Hd Z R → World bool fifo Hd Z R.
Abbreviation inbox := (Inbox bool fifo Hd Z Z R E D).

Definition update_env (queues : option NetworkQueueSettings) (s : option NetworkSettings) :
    frame_env bool fifo Hd Z Z R E D := {|
  fe_queues := queues; fe_settings := s; fe_before b := b; fe_commands b := b;
  fe_between b := b; fe_datagram_commands b := b |}.

Definition update (datagram : bool) (queues : option NetworkQueueSettings) (s : option NetworkSettings) (b : inbox) :
    inbox * list (trigger Z E X * World bool fifo Hd Z R) :=
  frame observe datagram (update_env queues s) b.

(** The channels of a test, with what it sends into them, or nothing if a
    [try_send] fails; [cancelled] is whether it has disconnected the connection. *)
Definition test_inbox (datagram : bool) (registry : R) (transport : Hd) (packets : Z) (ms : list (IncomingMessage Z E D))
    (es : list (PacketReceiveEvent Z)) (cancelled : bool) : option inbox :=
  let world := {| resources := registry;
                  links _ := {| disconnect_task := cancelled; published := false;
                                packet_tx := (outgoing_channel (budgeted 256) datagram).1; transport := transport |} |} in
  let '(c, sent) :=
    foldl (λ '(c, ok) m, let '(c, r) := mpsc_try_send c m in (c, ok && is_ok r))
      (incoming_channel (Ch:=fifo) (budgeted 256), true) ms in
  let '(q, queued) :=
    foldl (λ '(q, ok) e, let '(q, _, r) := try_send q e 1 in (q, ok && is_ok r))
      (lossy_channel packets usize_max DropNewest, true) es in
  if sent && queued then Some {| messages := c; datagrams := q; world := world |} else None.

(** [PacketEvents], counted from the start of the program. *)
Definition packet_events (seen : list (trigger Z E X * World bool fifo Hd Z R)) : nat :=
  length (omap (λ x, match x.1 with OnPacket e => Some e | _ => None end) seen).

(** [PacketEvents], made by the first observer and counted by the second, which
    checks the connection it finds in the registry. *)
Definition counting_observers (registered : R → option ConnectionId)
    (seen : list (trigger Z E X * World bool fifo Hd Z R)) : option (option nat) :=
  foldl (λ st x, events ← st;
           match x.1, events with
           | OnEstablished _, _ => Some (Some (default 0%nat events))
           | OnPacket e, Some n =>
               if bool_decide (registered (resources x.2) = Some (event_connection e)) then Some (Some (S n)) else None
           | OnPacket _, None => None
           | OnClosed _, _ => Some events
           end) (Some None) seen.
End Updates.

Definition test_id : ConnectionId := {| connection_number := 1 |}.
Definition test_packet (packet : Z) : PacketReceiveEvent Z :=
  {| event_connection := test_id; event_packet := packet; event_received_at := 0 |}.

Abbreviation udp_handle := (UdpConnectionHandle (λ A, A)).
Definition dropped {R} (w : World bool fifo udp_handle Z R) : Z :=
  stats (transport (links w test_id)) dropped_closed_before_delivery.

(** ** client.rs, UDP *)

Module ClientUdp.
Definition connection : EcsConnection nat := {| ecs_id := test_id; ecs_local_addr := 1%nat; ecs_peer_addr := 1%nat |}.

Abbreviation establish := (ConnectionEstablishEvent nat).
Abbreviation closed := (ConnectionClosed nat () ()).
Abbreviation disconnection := (Client.DisconnectionEvent nat () ()).
Abbreviation client_world Hd := (World bool fifo Hd Z (ClientResources nat)).

Definition opening : IncomingMessage Z establish closed :=
  Established {| address := 1%nat; handle := connection |}.
Definition closing : IncomingMessage Z establish closed :=
  ClosedMessage (closed_new IntentionalDisconnection 1%nat (Some test_id)).
Definition no_connections : ClientResources nat := {| client_connection := None; client_connections := [] |}.
Definition idle {Hd} (t : trigger Z establish disconnection) (w : client_world Hd) : client_world Hd := w.

Definition startup_uses_endpoint_queue_capacity : bool :=
  let with_capacity n := {|
    send_capacity := send_capacity NetworkQueueSettings_default; receive_capacity := n;
    events_per_frame := events_per_frame NetworkQueueSettings_default;
    datagram_send_overflow := DropNewest; datagram_receive_overflow := DropNewest |} in
  let '(limits, cells) := EndpointReceiveLimits_default ∅ in
  let e := {| endpoint_limits := limits; global_queues := Some (with_capacity 11);
              Settings.settings := Some (with_queues NetworkSettings_default (with_capacity 3)) |} in
  let s := (setup_system (Ch:=fifo) (NS:=()) (Addr:=nat) (P:=Z) (Ser:=()) (LS:=()) (DecErr:=()) (LenErr:=()) true e).1 in
  bool_decide (mpsc_max_capacity (request_channel s) = 3).

Definition cancelled_udp_packet_is_dropped_while_close_waits_behind_establish : bool :=
  match test_inbox true no_connections (UdpConnectionHandle_new (W:=λ A, A) 128 None) 1 [opening; closing] [test_packet 7] true with
  | None => false
  | Some b =>
      let update := update idle true (Some (budgeted 1)) in
      let '(b, seen1) := update (Some (with_queues NetworkSettings_default (budgeted 0))) b in
      assert! client_connections (resources (world b)) = [] in
      assert! dropped (world b) = 0 in
      let '(b, seen2) := update None b in
      assert! length (client_connections (resources (world b))) = 1%nat in
      assert! packet_events (seen1 ++ seen2) = 0%nat in
      assert! dropped (world b) = 1 in
      let '(b, seen3) := update None b in
      assert! client_connections (resources (world b)) = [] in
      assert! packet_events (seen1 ++ seen2 ++ seen3) = 0%nat in true
  end.

Definition udp_observer_commands_are_visible_after_receive : bool :=
  match test_inbox true no_connections (UdpConnectionHandle_new (W:=λ A, A) 128 None) 1 [opening] [test_packet 7] false with
  | None => false
  | Some b =>
      let '(b, seen) := update idle true None None b in
      bool_decide (counting_observers (λ r, ecs_id <$> head (client_connections r)) seen = Some (Some 1%nat))
  end.

Definition udp_observer_disconnect_drops_later_buffered_packet : bool :=
  let observer (t : trigger Z establish disconnection) (w : client_world udp_handle) :=
    match t with OnPacket e => update_link (event_connection e) disconnect w | _ => w end in
  match test_inbox true no_connections (UdpConnectionHandle_new 128 None) 2 [opening] [test_packet 1; test_packet 2] false with
  | None => false
  | Some b =>
      let '(b, seen) := update observer true (Some (budgeted 2)) None b in
      assert! packet_events seen = 1%nat in
      assert! dropped (world b) = 1 in true
  end.
End ClientUdp.

(** ** server.rs, UDP *)

Module ServerUdp.
Definition connection : EcsConnection nat := {| ecs_id := test_id; ecs_local_addr := 1%nat; ecs_peer_addr := 1%nat |}.

Abbreviation establish := (NewConnectionEvent nat).
Abbreviation closed := (Server.DisconnectionEvent nat () ()).
Abbreviation server_world Hd := (World bool fifo Hd Z (ServerConnections nat)).

Definition opening : IncomingMessage Z establish closed :=
  Established {| new_connection := connection; new_address := 1%nat |}.
Definition closing : IncomingMessage Z establish closed :=
  ClosedMessage {| disconnection_error := IntentionalDisconnection; disconnected := connection |}.
Definition idle {Hd} (t : trigger Z establish closed) (w : server_world Hd) : server_world Hd := w.

Definition udp_observer_commands_are_visible_after_receive : bool :=
  match test_inbox true [] (UdpConnectionHandle_new (W:=λ A, A) 128 None) 1 [opening] [test_packet 7] false with
  | None => false
  | Some b =>
      let '(b, seen) := update idle true None None b in
      bool_decide (counting_observers (λ r, ecs_id <$> head r) seen = Some (Some 1%nat))
  end.

Definition cancelled_udp_packet_is_dropped_while_server_close_waits : bool :=
  match test_inbox true [] (UdpConnectionHandle_new (W:=λ A, A) 128 None) 1 [opening; closing] [test_packet 7] true with
  | None => false
  | Some b =>
      let update := update idle true (Some (budgeted 1)) in
      let '(b, seen1) := update (Some (with_queues NetworkSettings_default (budgeted 0))) b in
      assert! resources (world b) = [] in
      assert! dropped (world b) = 0 in
      let '(b, seen2) := update None b in
      assert! length (resources (world b)) = 1%nat in
      assert! packet_events (seen1 ++ seen2) = 0%nat in
      assert! dropped (world b) = 1 in
      let '(b, seen3) := update None b in
      assert! resources (world b) = [] in
      assert! packet_events (seen1 ++ seen2 ++ seen3) = 0%nat in true
  end.
End ServerUdp.

(** ** server.rs, the listener *)

Module ServerListener.
(** [ErrorListener] is the number of its accepts so far. *)
#[local] Instance error_listener : NetworkListener nat () nat :=
  { handle_disconnection _ l := l; drop_stream _ l := l }.

(** [PermissionDenied] is a kind the crate does not distinguish. *)
Definition accept (accepts : nat) : nat * result () io_error :=
  (S accepts, Err (io_error_from
    match accepts with 0%nat => Interrupted | 1%nat => ConnectionAborted | 2%nat => ConnectionReset | _ => OtherKind 0 end)).

(** The loop, as long as it accepts. *)
Fixpoint accepts_until_end (fuel : nat) (a : Acceptor Z nat ()) : Acceptor Z nat () :=
  match fuel with
  | O => a
  | S fuel =>
      if accepting a then
        let '(lis, res) := accept (listener a) in
        accepts_until_end fuel
          (accept_step (Addr:=nat) (R:=()) (M:=()) false a (Accepted lis res (ReadOnly ())))
      else a
  end.

Definition listener_retries_transient_errors_and_stops_on_fatal_error : bool :=
  let a := accepts_until_end 10 (accept_start NetworkQueueSettings_default 0%nat) in
  assert! accepting a = false in
  assert! listener a = 4%nat in true.
End ServerListener.

(** ** client.rs, TCP *)

Module ClientTcp.
Import ClientUdp.

Abbreviation told := (trigger Z establish disconnection * client_world ())%type.

(** What the observers of the test keep: the resources [Packets] and [Closed]; [None]
    once an assertion of theirs has failed. *)
Record Observed := { packets : option (list Z); closed_seen : bool }.
#[local] Instance observed_eq_dec : EqDecision Observed.
Proof. solve_decision. Defined.

Definition observers (seen : list told) (st : option Observed) : option Observed :=
  foldl (λ st x, o ← st;
    let open := client_connections (resources x.2) in
    match x.1 with
    | OnEstablished _ => Some {| packets := Some (default [] (packets o)); closed_seen := closed_seen o |}
    | OnPacket e =>
        if bool_decide (length open = 1%nat) && bool_decide (packets o = Some [])
        then Some {| packets := Some [event_packet e]; closed_seen := closed_seen o |} else None
    | OnClosed _ =>
        if bool_decide (packets o = Some [9]) && bool_decide (open = [])
        then Some {| packets := packets o; closed_seen := true |} else None
    end) st seen.

(** The test's system, which runs after the receive set. *)
Definition after_receive (o : Observed) (w : client_world ()) : bool :=
  assert! packets o = Some [9] in
  assert! closed_seen o = bool_decide (client_connections (resources w) = []) in true.

Definition assert_tcp_observer_command_order (budget : Z) : bool :=
  match test_inbox false no_connections () 1 [opening; StreamPacket (test_packet 9); closing] [] true with
  | None => false
  | Some b =>
      let update := update idle false (Some (budgeted budget)) None in
      let '(b, seen) := update b in
      match observers seen (Some {| packets := None; closed_seen := false |}) with
      | None => false
      | Some o =>
          assert! after_receive o (world b) = true in
          assert! packets o = Some [9] in
          assert! length (client_connections (resources (world b))) = (if budget =? 2 then 1%nat else 0%nat) in
          let '(b, seen) := update b in
          match observers seen (Some o) with
          | None => false
          | Some o =>
              assert! after_receive o (world b) = true in
              assert! client_connections (resources (world b)) = [] in
              assert! packets o = Some [9] in
              assert! closed_seen o = true in true
          end
      end
  end.

Definition final_tcp_packet_precedes_registry_removal : bool :=
  forallb assert_tcp_observer_command_order [2; 3].

(** The address of a failure observers are told of, and why it failed. *)
Definition request_failure (x : disconnection) : option (nat * ErrorKind) :=
  match connection_id x, error x with
  | None, NoConnection err => Some (Client.server_address x, kind err)
  | _, _ => None
  end.

Definition rejected_connection_requests_emit_failure_events : bool :=
  let address := 1%nat in
  let '(c, r) := mpsc_try_send (mpsc_channel (Ch:=fifo) 1) address in
  assert! is_ok r = true in
  let '(c, failure) := observe_request (DecErr:=()) (LenErr:=()) {| request_address := address |} c in
  assert! failure ≫= request_failure = Some (address, WouldBlock) in
  let '(c, r) := mpsc_try_recv c in
  assert! result_ok r = Some address in
  let c := mpsc_drop_receiver c in
  let '(c, failure) := observe_request (DecErr:=()) (LenErr:=()) {| request_address := address |} c in
  assert! failure ≫= request_failure = Some (address, BrokenPipe) in true.
End ClientTcp.

(** ** Every assertion holds *)

Example client_tests_pass :
  forallb Datatypes.id [ClientUdp.startup_uses_endpoint_queue_capacity;
    ClientUdp.cancelled_udp_packet_is_dropped_while_close_waits_behind_establish;
    ClientUdp.udp_observer_commands_are_visible_after_receive;
    ClientUdp.udp_observer_disconnect_drops_later_buffered_packet;
    ClientTcp.final_tcp_packet_precedes_registry_removal;
    ClientTcp.rejected_connection_requests_emit_failure_events] = true.
Proof. vm_compute. reflexivity. Qed.

Example server_tests_pass :
  forallb Datatypes.id [ServerUdp.udp_observer_commands_are_visible_after_receive;
    ServerUdp.cancelled_udp_packet_is_dropped_while_server_close_waits;
    ServerListener.listener_retries_transient_errors_and_stops_on_fatal_error] = true.
Proof. vm_compute. reflexivity. Qed.
