(* ===== verification/ConformanceSessions.v ===== *)
(** * The session example's unit tests, on the model

    Replays the tests of examples/udp_application_sessions/session.rs on [Session], as
    [Conformance] does those of the crate. Time starts at zero and is counted in
    milliseconds. *)

From S2P Require Import Prelude Session.

#[local] Open Scope Z_scope.

#[local] Notation "'assert!' p 'in' k" := (bool_decide p && k)
  (at level 10, p at level 200, k at level 200).

Definition packet (channel generation : Z) (size : nat) (body : Body) : Packet :=
  {| channel := channel; generation := generation; id := replicate size channel; body := body |}.

(** The body of its loop over the sizes. *)
Definition arbitrary_ids_and_two_sessions_share_one_peer (size : nat) : bool :=
  let '(sessions, ok) :=
    foldl (λ '(s, ok) c,
      let hello := packet c 1 size Hello in
      let '(s, r) := handle hello 0 s in
      let data := with_body (Data [7]) hello in
      let '(s, r') := handle data 0 s in
      (s, assert! body <$> r = Some Welcome in assert! r' = Some data in ok))
      (sessions_default, true) [1; 2] in
  assert! ok = true in
  assert! active sessions = 2%nat in
  let '(sessions, _) := handle (packet 1 1 size Close) 0 sessions in
  assert! active sessions = 1%nat in true.

Definition old_packets_and_requests_cannot_replace_or_close_new_session : bool :=
  let old := packet 1 1 48 Hello in
  let new := packet 1 2 64 Hello in
  let '(sessions, r) := handle old 0 sessions_default in
  assert! is_Some r in
  let '(sessions, r) := handle new 0 sessions in
  assert! is_Some r in
  let '(sessions, ok) :=
    foldl (λ '(s, ok) b, let '(s, r) := handle (with_body b old) 0 s in (s, assert! r = None in ok))
      (sessions, true) [Hello; Data [1]; Ping; Close] in
  assert! ok = true in
  assert! active sessions = 1%nat in
  let '(sessions, r) := handle (with_body Close new) 0 sessions in
  assert! is_Some r in
  let '(sessions, r) := handle new 0 sessions in
  assert! r = None in true.

Definition repeated_hello_keeps_handshake_alive_without_reviving_expired_sessions : bool :=
  let hello := packet 1 1 48 Hello in
  let timeout := 500 in
  let '(sessions, ok) :=
    foldl (λ '(s, ok) millis, let '(s, r) := handle hello millis s in (s, assert! body <$> r = Some Welcome in ok))
      (sessions_default, true) ((λ n, 50 * n) <$> seqZ 0 10) in
  assert! ok = true in
  let '(sessions, _) := handle hello 0 sessions in
  let sessions := expire timeout timeout sessions in
  let '(sessions, r) := handle hello 550 sessions in
  assert! is_Some r in
  let invalid := {| channel := channel hello; generation := generation hello; id := replicate 48 9; body := body hello |} in
  let '(sessions, r) := handle invalid 1000 sessions in
  assert! r = None in
  let sessions := expire 1050 timeout sessions in
  assert! active sessions = 0%nat in
  let '(sessions, r) := handle hello 1100 sessions in
  assert! r = None in true.

Definition only_valid_fresh_packets_refresh_liveness : bool :=
  let hello := packet 1 1 48 Hello in
  let '(sessions, _) := handle hello 0 sessions_default in
  let '(sessions, _) := handle (with_body Ping hello) 2000 sessions in
  let '(sessions, _) := handle (with_body Ping hello) 0 sessions in
  let sessions := expire 3000 2000 sessions in
  assert! active sessions = 1%nat in
  let '(sessions, _) :=
    handle {| channel := channel hello; generation := generation hello; id := replicate 48 9; body := Ping |} 4000 sessions in
  let sessions := expire 4000 2000 sessions in
  assert! active sessions = 0%nat in true.

Example session_tests_pass :
  forallb Datatypes.id [arbitrary_ids_and_two_sessions_share_one_peer 8; arbitrary_ids_and_two_sessions_share_one_peer 48;
    arbitrary_ids_and_two_sessions_share_one_peer 64; old_packets_and_requests_cannot_replace_or_close_new_session;
    repeated_hello_keeps_handshake_alive_without_reviving_expired_sessions;
    only_valid_fresh_packets_refresh_liveness] = true.
Proof. vm_compute. reflexivity. Qed.
